(* ===== verification/_CoqProject ===== *)
-Q . S2P
Prelude.v
Unicode.v
InputTable.v
F32.v
DefaultTables.v
CustomTsv.v
Composing.v
ComposingSpec.v
Dictionary.v
Constraint.v
Typo.v
LatticeIndex.v
Lattice.v
LatticeSpec.v
Prediction.v
PredictionSpec.v
Frame.v
Collections.v
Louds.v
MemoryIndex.v
MemoryIndexSpec.v
MemoryLoudsSpec.v
DictBinary.v
TextReplacer.v
PostPrediction.v
LearningRecords.v
LearningFiles.v
LearningMemory.v
LearningRecordsSpec.v
LearningFilesSpec.v
LearningMemorySpec.v
LearningRoundTrip.v
LearningCrash.v
LearningProperties.v
Action.v
Utf8.v
LruCache.v
Zenz.v
ZenzEvaluator.v
ZenzEvaluatorSpec.v
ZenzCache.v
ZenzProperties.v
TextUtil.v
Template.v
Special.v
ParseFloat.v
DictionaryStore.v
DictionaryStoreSpec.v
NGram.v
NGramSpec.v
LmTypo.v
LmTypoSpec.v
Llama.v
LlamaSpec.v
UserDictionary.v
Foreign.v
SessionState.v
Session.v
SessionSpec.v
SessionInvariant.v
SessionProperties.v
SessionRequests.v
SessionExamples.v
ZenzConvert.v
ZenzConvertSpec.v
Protocol.v
EngineInput.v
EngineState.v
Engine.v
EngineKeys.v
EngineHandle.v
EngineSpec.v
EngineInvariant.v
EngineAnswers.v
EngineSessions.v
EngineExamples.v
Config.v
EngineOpen.v
Server.v
ServerSpec.v
