(* ===== verification/Prelude.v ===== *)
(** * Verification of the beanKey input method core

    beanKey is a Japanese input method: keys become kana through input tables, kana
    become words through a lattice over dictionaries, a learned memory and a language
    model rank them, and a daemon serves sessions to the frontends. This library
    models the Rust crates of src/crates as functions and state machines and proves
    what they promise. Every definition that models code keeps the name and the
    branches of the source, panics included.

    ** Conventions

    Text ([String]) is [ustring], the list of its code points; bytes are numbers below
    256, and [utf8] goes from one to the other. Grapheme clusters are the class
    [Segmentation] with its laws (the concatenation gives the text back, no cluster is
    empty); [scalar_clusters] is one instance. A [f32] is an IEEE binary32 of the
    Standard Library (F32.v), with the rounding of each operation. A function that may
    panic returns [option]; one that may also fail returns [outcome] ([Return], [Raise]
    or [Panic]); a method with [&mut self] is an [action] on its state (Action.v). A
    subtraction of machine integers that may go below zero is [usub] and panics.
    Hash maps and sets are [gmap] and [gset]; where the code iterates over a hash map
    the order is the parameter [IterationOrder].

    ** The parts

    - Prelude, Unicode, TextUtil, F32, Collections, Action, Utf8, ParseFloat: what the
      components share: machine integers, stable sorting, loops that may fail,
      code points, splitting and parsing, floats, ordered maps ([BTreeMap]), the monad of
      actions with its triples ([hoare]) and its relational form ([agree]).
    - Input. Unicode ([to_katakana], [to_hiragana] of kana.rs), InputTable (input/table.rs),
      DefaultTables (input/roman.rs and the tables it embeds), CustomTsv
      (input/custom.rs), Composing and ComposingSpec (input/composing.rs): the text
      being composed, its conversion from the input, its edits and its cursor.
    - Conversion. Dictionary (the interface [Dictionary] with its laws, the entries of
      dictionary/entry.rs), Constraint (the prefix constraint of lattice.rs), Typo
      (typo.rs), LatticeIndex, Lattice, LatticeSpec, Prediction and PredictionSpec
      (lattice.rs): the lattice search, its candidates, the predictions and the
      representations.
    - Dictionaries. Louds (dictionary/louds.rs), DictBinary (dictionary/binary.rs),
      DictionaryStore and DictionaryStoreSpec (dictionary/store.rs), UserDictionary
      (dictionary/user.rs).
    - Learning. LearningRecords, LearningFiles, LearningMemory (learning.rs) and
      MemoryIndex (learning/index.rs) with their specifications: LearningRecordsSpec,
      LearningFilesSpec, LearningRoundTrip, LearningCrash,
      MemoryIndexSpec, MemoryLoudsSpec, LearningMemorySpec, LearningProperties.
    - Language model. LruCache, Zenz, ZenzEvaluator (zenz.rs) over the class
      [ZenzLanguageModel]; ZenzEvaluatorSpec, ZenzCache, ZenzProperties.
    - Further candidates. Template (template.rs), Special (special.rs), TextReplacer
      (text_replacer.rs), PostPrediction (post_prediction.rs), Foreign (foreign.rs).
    - Sessions. SessionState and Session (session.rs): every method of
      [ConversionSession] as an action on the session and the world, which holds the
      learning memories that sessions share and the random numbers; SessionSpec,
      SessionInvariant, SessionProperties, SessionRequests, SessionExamples.
    - Typing corrections of the model. NGram and NGramSpec (ngram.rs: the n-gram model
      over tries), LmTypo and LmTypoSpec (lm_typo.rs: the beam search over the keys that
      may have been meant).
    - Model backend. Llama and LlamaSpec (the crate llama: the context of llama.cpp and
      what of it is kept between calls), ZenzConvert and ZenzConvertSpec (zenz.rs of the
      daemon: the candidates are drafted and reviewed in turns).
    - Daemon. Frame (lib.rs of the daemon: the length-prefixed frames), Protocol (the
      messages of beankey.proto), Config (config.rs), and engine.rs in steps: EngineInput
      (what a key and the text around the cursor mean), EngineState (the state of a
      session and the answer computed from it), Engine (candidates, live conversion and
      corrections), EngineKeys (the state machine of the keys, [handle_key]), EngineHandle
      (the sessions of a connection, [handle]), EngineOpen (the resources it is opened
      with); Server (server.rs and main.rs). Their theorems are in EngineSpec,
      EngineInvariant, EngineAnswers, EngineSessions and
      ServerSpec, and EngineExamples shows them at work.

    How they interact: a session edits its composing text with a registry of input
    tables, asks the lattice for candidates, which asks a dictionary (the class
    [Dictionary], which the store implements: [store_is_lawful]) and a learning memory
    (the record [MemoryLookup], which the memory implements: [memory_lawful]); the
    session assembles what it found with the other candidates, and tells the memory
    what has been selected. The engine of a connection owns its sessions by name
    ([Sessions]) and shares the memories and the models with the other connections
    ([Shared]); a request is an action on both, and the server answers the requests of a
    stream one after the other with it ([serve_connection]). The model is the class
    [ZenzLanguageModel], which the context of llama.cpp and the n-gram model implement
    ([llama_model], [ngram_language_model]); llama.cpp is the class [LlamaCpp].

    ** What the theorems show

    - Safety and invariants: with tables that leave something to see, no sequence of
      allowed edits panics and the surface always is the conversion of the input
      ([edits_never_panic]); no sequence of allowed session
      operations panics or breaks the invariant of the session and the memories
      ([session_never_panics]); the learning memory keeps its invariant over any
      sequence of operations with any faults of the file system
      ([memory_never_panics]); a save that stops anywhere leaves the old or the new
      records ([save_crash_safe]), but not one over an unfinished save
      ([save_over_pause_mixes]); conversion, prediction and evaluation are
      safe ([convert_sound], [predict_continues], [zenz_never_panics]). Whatever a
      connection is asked, every session of it can be shown and every answer too
      ([answers_well_formed]); the listener leaves when nobody is served
      ([server_leaves_when_idle]), and a daemon that starts removes no more than a stale
      socket and leaves when another one is there ([reserve_removes_stale],
      [second_daemon_leaves]). What is opened from a valid configuration meets what
      these theorems assume of tables, when the rules of its custom tables write
      nothing for a separator alone and something otherwise ([opened_engine_ready],
      [loud_table_diverges]).
    - Behaviour: edits ([insert_edits_before_cursor], [delete_backward_exact]), tables
      ([apply_correct]), requests and selections of a session ([request_assembles],
      [select_commits], [accept_completes_reading], [predictions_stay]), lookups of the
      memory ([memory_lookup_correct]), verdicts of the model ([verdict_meaning]), the
      reviews of candidates ([zenz_convert_reviews]), the corrections of keys
      ([typo_candidates_justified]), Enter, Tab and Escape ([enter_commits_shown],
      [correction_applied], [escape_leaves]), the answers to a client
      ([answers_in_order]).
    - Equivalence and refinement: the table matcher, the constraint test, the ageing of
      records and the caches agree with their plain definitions
      ([match_mapping_correct], [can_continue_exact], [decay_correct],
      [lru_refines_recency], [evaluator_caches_invisible], [store_answers_from_files],
      [louds_refines_trie], [probabilities_interpolate]); the cache of llama.cpp cannot
      be seen ([llama_cache_invisible]), and a connection follows the directory of its
      sessions ([connection_follows_directory]).
    - Round trips and bounds: custom tables, frames, learning files, years, characters
      entered by their numbers ([custom_tsv_roundtrip], [frames_roundtrip],
      [files_roundtrip], [years_roundtrip], [unicode_input_commits]), the text around the
      cursor ([surrounding_context_spec]).
    - Errors: a request that fails leaves its session as new, or, when it starts, ends or
      pages a session, what it is told to ([failed_request_resets]); a selection fails
      exactly when the pieces it leaves show more than the text did ([select_commits]).
      Theorems whose names say [can_panic], [panics_on] or [lost] state inputs at which
      the code panics or loses something, and [up_moves_preview] a preview that changes.

    ** Fuel

    The loops of the code that are not structural have a fuel that is enough, proved in
    the same file: the tag scan of templates ([replace_tags_scans]), the ageing loop
    ([decay_correct]), the descent of LOUDS tries (the number of nodes), the search of the
    lattice (over a list of positions), the generation of the next input (its count).
    The reviews of a conversion recurse on the inferences left, the search of typing
    corrections on the steps the code allows ([typo_search_terminates]: they are enough),
    and the loops of the server on what happens to it, a list that ends when it is told
    to terminate.

    ** Not modelled

    The frontends in C++ and Objective-C++, the build and the tests. Of the modelled
    files: the texts of most error messages and their formatting, locks (calls on one
    object do not overlap, and no lock is poisoned), the directory of a dictionary (file
    names are relative to it), worker threads, which answer in order, the handlers of
    signals, the credentials of a peer and the calls of [poll] (their results are given to
    the loops of the server). Libraries the code calls are classes: marisa tries, tokenizers, hunspell,
    llama.cpp, the clock and the calendar, ICU, JSON, TOML, protobuf and the system. *)

From stdpp Require Export base gmap strings list fin_maps pretty.
From Stdlib Require Export Lia ZArith NArith Sorting.Sorted.

(** ** Scope, tactics and hint databases of the development *)

Declare Scope bean_scope.
Delimit Scope bean_scope with bean.

Create HintDb bean.
Create Rewrite HintDb bean_len.
Create Rewrite HintDb bean_rw.

(** Splits conjunctions and existentials in the context. *)
Ltac deex :=
  repeat match goal with
  | H : ∃ _, _ |- _ => destruct H as [? H]
  | H : _ ∧ _ |- _ => destruct H
  end.

(** Case analysis on the scrutinee of a [match] in the goal. *)
Ltac break := repeat (case_match; simplify_eq/=).

(** List lengths, then linear arithmetic. *)
Ltac len := autorewrite with bean_len in *; simpl in *; lia.

#[export] Hint Rewrite @length_app @length_take @length_drop @length_fmap
  @length_replicate @length_insert @length_reverse : bean_len.

(** ** Panics

    A Rust operation that panics (an index or a slice out of range, an
    [expect] on [None], a checked [usize] subtraction that goes below zero) is
    [None]; [Some] is a normal return. *)

(** [&l[from..to]] *)
Definition slice {A} (from to : nat) (l : list A) : option (list A) :=
  if decide (from ≤ to ∧ to ≤ length l) then Some (take (to - from) (drop from l))
  else None.

(** [l.splice(from..to, new)], and [l.drain(from..to)] when [new] is empty *)
Definition splice {A} (from to : nat) (new l : list A) : option (list A) :=
  if decide (from ≤ to ∧ to ≤ length l) then Some (take from l ++ new ++ drop to l)
  else None.

(** [l.remove(i)] *)
Definition remove_at {A} (i : nat) (l : list A) : option (list A) :=
  if decide (i < length l) then Some (take i l ++ drop (S i) l) else None.

(** [a - b] on [usize] *)
Definition usub (a b : nat) : option nat :=
  if decide (b ≤ a) then Some (a - b) else None.

Lemma slice_ok {A} from to (l : list A) :
  from ≤ to → to ≤ length l → slice from to l = Some (take (to - from) (drop from l)).
Proof. intros. unfold slice. by rewrite decide_True. Qed.

(** [drop(..n.min(len))] *)
Lemma drop_min_length {A} n (l : list A) : drop (n `min` length l) l = drop n l.
Proof.
  destruct (decide (n ≤ length l)); [by rewrite Nat.min_l|]. by rewrite !drop_ge by lia.
Qed.

Lemma splice_ok {A} from to (new l : list A) :
  from ≤ to → to ≤ length l → splice from to new l = Some (take from l ++ new ++ drop to l).
Proof. intros. unfold splice. by rewrite decide_True. Qed.

Lemma remove_at_ok {A} i (l : list A) :
  i < length l → remove_at i l = Some (take i l ++ drop (S i) l).
Proof. intros. unfold remove_at. by rewrite decide_True. Qed.

Lemma usub_None a b : a < b → usub a b = None.
Proof. intros. unfold usub. by rewrite decide_False by lia. Qed.
Lemma usub_ok a b : b ≤ a → usub a b = Some (a - b).
Proof. intros. unfold usub. by rewrite decide_True. Qed.

#[export] Hint Rewrite @slice_ok @splice_ok @remove_at_ok usub_ok using (len || lia) : bean_rw.

(** ** Results *)

Inductive result (E A : Type) : Type :=
  | Ok (a : A)
  | Err (e : E).
Arguments Ok {E A} _.
Arguments Err {E A} _.

Definition result_bind {E A B} (m : result E A) (f : A → result E B) : result E B :=
  match m with Ok a => f a | Err e => Err e end.

Notation "x <-? m ; k" := (result_bind m (λ x, k))
  (at level 100, m at next level, right associativity, only parsing) : bean_scope.

(** An operation that returns a [Result] and may panic. *)
Inductive outcome (E A : Type) : Type :=
  | Return (a : A)
  | Raise (e : E)
  | Panic.
Arguments Return {E A} _.
Arguments Raise {E A} _.
Arguments Panic {E A}.

#[export] Instance outcome_ret {E} : MRet (outcome E) := λ A a, Return a.
#[export] Instance outcome_mbind {E} : MBind (outcome E) := λ A B f m,
  match m with Return a => f a | Raise e => Raise e | Panic => Panic end.

(** A possible panic, and a [Result], as an outcome ([?] is the bind). *)
Definition panicking {E A} (m : option A) : outcome E A :=
  match m with Some a => Return a | None => Panic end.
Definition fallible {E A} (m : result E A) : outcome E A :=
  match m with Ok a => Return a | Err e => Raise e end.

Lemma outcome_bind_Return {E A B} (m : outcome E A) (f : A → outcome E B) b :
  m ≫= f = Return b ↔ ∃ a, m = Return a ∧ f a = Return b.
Proof. destruct m; cbn; split; intros; deex; simplify_eq; eauto. Qed.

Lemma fallible_Return {E A} (m : result E A) a : fallible m = Return a ↔ m = Ok a.
Proof. destruct m; cbn; split; intros; simplify_eq; eauto. Qed.

Lemma panicking_Return {E A} (m : option A) (a : A) : panicking (E:=E) m = Return a ↔ m = Some a.
Proof. destruct m; cbn; split; intros; simplify_eq; eauto. Qed.

(** A loop that threads a state through the elements of a list. *)
Fixpoint for_each {M : Type → Type} `{MRet M, MBind M} {A B} (f : B → A → M B) (b : B)
    (l : list A) : M B :=
  match l with
  | [] => mret b
  | a :: l' => f b a ≫= λ b', for_each f b' l'
  end.

(** *** Triples

    [safe m Q]: [m] does not panic, and what it returns satisfies [Q]. *)
Definition safe {E A} (m : outcome E A) (Q : A → Prop) : Prop :=
  match m with Return a => Q a | Raise _ => True | Panic => False end.

Lemma safe_ret {E A} (a : A) (Q : A → Prop) : Q a → safe (E:=E) (mret a) Q.
Proof. done. Qed.

Lemma safe_bind {E A B} (m : outcome E A) (f : A → outcome E B) (Q : B → Prop) :
  safe m (λ a, safe (f a) Q) → safe (m ≫= f) Q.
Proof. by destruct m. Qed.

Lemma safe_mono {E A} (m : outcome E A) (P Q : A → Prop) :
  safe m P → (∀ a, P a → Q a) → safe m Q.
Proof. destruct m; cbn; auto. Qed.

Lemma safe_panicking {E A} (m : option A) (a : A) (Q : A → Prop) :
  m = Some a → Q a → safe (E:=E) (panicking m) Q.
Proof. by intros ->. Qed.

Lemma safe_fallible {E A} (m : result E A) (Q : A → Prop) :
  (∀ a, m = Ok a → Q a) → safe (fallible m) Q.
Proof. destruct m; cbn; auto. Qed.

Lemma safe_Return {E A} (m : outcome E A) (Q : A → Prop) a : safe m Q → m = Return a → Q a.
Proof. by intros H ->. Qed.

(** Rule for loops: an invariant that every iteration keeps. *)
Lemma safe_for_each {E A B} (I : B → Prop) (f : B → A → outcome E B) l b (Q : B → Prop) :
  (∀ a b1, a ∈ l → I b1 → safe (f b1 a) I) → I b → (∀ b', I b' → Q b') →
  safe (for_each f b l) Q.
Proof.
  intros Hf Hb HQ. apply (safe_mono _ I); [|done]. clear HQ Q.
  revert b Hb. induction l as [|a l IH]; intros b Hb; [done|]. cbn [for_each].
  apply safe_bind. eapply safe_mono; [apply Hf; [apply elem_of_cons; by left|done]|].
  intros b1 Hb1. apply IH; [|done]. intros a' b2 Ha'. apply Hf, elem_of_cons. by right.
Qed.

(** ** Stable sorting ([sort_by]) *)

Section sort_by.
Context {A : Type} (cmp : A → A → comparison).

Fixpoint insert_sorted (x : A) (l : list A) : list A :=
  match l with
  | [] => [x]
  | y :: l' => match cmp x y with Gt => y :: insert_sorted x l' | _ => x :: l end
  end.

Definition sort_by (l : list A) : list A := foldr insert_sorted [] l.

Lemma insert_sorted_perm x l : insert_sorted x l ≡ₚ x :: l.
Proof.
  induction l as [|y l IH]; simpl; [done|]. destruct (cmp x y); [done..|].
  rewrite IH. constructor.
Qed.

Lemma sort_by_perm l : sort_by l ≡ₚ l.
Proof. induction l as [|x l IH]; simpl; [done|]. by rewrite insert_sorted_perm, IH. Qed.

Lemma elem_of_sort_by x l : x ∈ sort_by l ↔ x ∈ l.
Proof. by rewrite sort_by_perm. Qed.

Context (cmp_flip : ∀ x y, cmp y x = CompOpp (cmp x y)).
Context (cmp_trans : ∀ x y z, cmp x y ≠ Gt → cmp y z ≠ Gt → cmp x z ≠ Gt).

Lemma insert_sorted_sorted x l :
  StronglySorted (λ a b, cmp a b ≠ Gt) l → StronglySorted (λ a b, cmp a b ≠ Gt) (insert_sorted x l).
Proof.
  induction 1 as [|y l Hl IH Hy]; simpl; [repeat constructor|].
  destruct (cmp x y) eqn:Hxy.
  3: { constructor; [done|]. rewrite Forall_forall in *. intros z.
       rewrite insert_sorted_perm, elem_of_cons. intros [->|?]; [|by apply Hy].
       rewrite cmp_flip, Hxy. done. }
  all: constructor; [by constructor|]; constructor; [by rewrite Hxy|];
    rewrite Forall_forall in *; intros z Hz; apply (cmp_trans x y z); [by rewrite Hxy|by apply Hy].
Qed.

Lemma sort_by_sorted l : StronglySorted (λ a b, cmp a b ≠ Gt) (sort_by l).
Proof. induction l; simpl; [constructor|by apply insert_sorted_sorted]. Qed.
End sort_by.

(** ** Generic list lemmas *)

(** [max_by]: the last of the maximal elements, as Rust's iterator returns it *)
Fixpoint max_by {A} (cmp : A → A → comparison) (best : option A) (l : list A) : option A :=
  match l with
  | [] => best
  | x :: l' =>
      let best' := match best with
                   | None => x
                   | Some b => match cmp b x with Gt => b | _ => x end
                   end in
      max_by cmp (Some best') l'
  end.

Section max_by.
Context {A : Type} (cmp : A → A → comparison).
Context (cmp_flip : ∀ x y, cmp y x = CompOpp (cmp x y)).
Context (cmp_trans : ∀ x y z, cmp x y ≠ Gt → cmp y z ≠ Gt → cmp x z ≠ Gt).

Lemma max_by_Some_spec b l m :
  max_by cmp (Some b) l = Some m →
  (m = b ∨ m ∈ l) ∧ cmp b m ≠ Gt ∧ ∀ x, x ∈ l → cmp x m ≠ Gt.
Proof.
  assert (cmp_refl : ∀ x, cmp x x ≠ Gt).
  { intros x. pose proof (cmp_flip x x). destruct (cmp x x); naive_solver. }
  revert b. induction l as [|a l IH]; simpl; intros b Hm.
  { simplify_eq. set_solver. }
  apply IH in Hm as (Hin & Hle & Hall). clear IH.
  pose proof (cmp_flip b a) as Hf.
  destruct (cmp b a) eqn:Hba; simpl in Hf;
    (split_and!;
      [clear -Hin; rewrite elem_of_cons; naive_solver
      | |intros x [->|Hx]%elem_of_cons; [|by apply Hall]]);
    solve [done | eapply cmp_trans; [|exact Hle]; congruence].
Qed.

Lemma max_by_spec l m :
  max_by cmp None l = Some m → m ∈ l ∧ ∀ x, x ∈ l → cmp x m ≠ Gt.
Proof.
  destruct l as [|a l]; [done|]. simpl. intros (Hin & Hle & Hall)%max_by_Some_spec.
  split; [set_solver|]. intros x [->|?]%elem_of_cons; auto.
Qed.

Lemma max_by_None l : max_by cmp None l = None ↔ l = [].
Proof.
  destruct l as [|a l]; [done|]. simpl. split; [|done].
  revert a. induction l as [|b l IH]; simpl; [done|]. intros a H. by apply IH in H.
Qed.
End max_by.

(** [iter().zip(..).take_while(==).count()] *)
Fixpoint common_prefix_len {A} `{EqDecision A} (l k : list A) : nat :=
  match l, k with
  | x :: l', y :: k' => if decide (x = y) then S (common_prefix_len l' k') else 0
  | _, _ => 0
  end.

Lemma common_prefix_len_le {A} `{EqDecision A} (l k : list A) :
  common_prefix_len l k ≤ length l ∧ common_prefix_len l k ≤ length k.
Proof.
  revert k. induction l as [|x l IH]; intros [|y k]; simpl; try lia.
  case_decide; simpl; [|lia]. specialize (IH k). lia.
Qed.

Lemma common_prefix_len_take {A} `{EqDecision A} (l k : list A) :
  take (common_prefix_len l k) l = take (common_prefix_len l k) k.
Proof.
  revert k. induction l as [|x l IH]; intros [|y k]; simpl; try done.
  case_decide; simpl; [|done]. by rewrite IH; subst.
Qed.

Lemma elem_of_take_in {A} (x : A) n l : x ∈ take n l → x ∈ l.
Proof. intros H. rewrite <- (take_drop n l), elem_of_app. by left. Qed.

Lemma elem_of_drop_in {A} (x : A) n l : x ∈ drop n l → x ∈ l.
Proof. intros H. rewrite <- (take_drop n l), elem_of_app. by right. Qed.

#[export] Hint Resolve elem_of_take_in elem_of_drop_in : bean.

Lemma mapM_app_Some {A B} (f : A → option B) l1 l2 k1 k2 :
  mapM f l1 = Some k1 → mapM f l2 = Some k2 → mapM f (l1 ++ l2) = Some (k1 ++ k2).
Proof. intros H1%mapM_Some H2%mapM_Some. by apply mapM_Some, Forall2_app. Qed.

Lemma concat_snoc {A} (ls : list (list A)) l : concat (ls ++ [l]) = concat ls ++ l.
Proof. rewrite concat_app. simpl. by rewrite app_nil_r. Qed.

Lemma take_drop_app {A} (n m : nat) (l : list A) :
  n ≤ m → take m l = take n l ++ take (m - n) (drop n l).
Proof.
  intros H. rewrite <- (take_drop n (take m l)) at 1.
  rewrite take_take, Nat.min_l by lia. f_equal. by rewrite skipn_firstn_comm.
Qed.
