(* ===== verification/Unicode.v ===== *)
(** * Text

    Rust's [char], [String] and the UTF-8 encoding of a string (standard
    library), the segmentation into extended grapheme clusters (the
    [unicode_segmentation] crate, a parameter), and src/crates/converter/src/kana.rs. *)

From S2P Require Import Prelude.
Local Open Scope N_scope.
#[local] Arguments N.add : simpl never.
#[local] Arguments N.sub : simpl never.
#[local] Arguments N.mul : simpl never.
#[local] Arguments N.div : simpl never.
#[local] Arguments N.modulo : simpl never.
#[local] Arguments N.ltb : simpl never.
#[local] Arguments N.leb : simpl never.
#[local] Arguments N.eqb : simpl never.

(** A Unicode scalar value, a string as the sequence of its scalar values, and
    an extended grapheme cluster. *)
Abbreviation char := N (only parsing).
Abbreviation ustring := (list N) (only parsing).
Abbreviation Grapheme := (list N) (only parsing).
Abbreviation byte := N (only parsing).

(** [char::from_u32(v).is_some()] *)
Definition is_scalar (v : N) : bool := (v <? 0xD800) || ((0xDFFF <? v) && (v <=? 0x10FFFF)).

Definition from_u32 (v : N) : option char := if is_scalar v then Some v else None.

(** ** UTF-8 *)

Definition encode_char (c : char) : list byte :=
  if c <? 0x80 then [c]
  else if c <? 0x800 then [0xC0 + c / 64; 0x80 + c mod 64]
  else if c <? 0x10000 then [0xE0 + c / 4096; 0x80 + (c / 64) mod 64; 0x80 + c mod 64]
  else [0xF0 + c / 262144; 0x80 + (c / 4096) mod 64; 0x80 + (c / 64) mod 64; 0x80 + c mod 64].

(** [str::as_bytes] *)
Definition utf8 (s : ustring) : list byte := s ≫= encode_char.

(** [str::len] *)
Definition byte_len (s : ustring) : nat := length (utf8 s).

Definition in_range (lo hi b : N) : bool := (lo <=? b) && (b <=? hi).
Definition continuation (b : N) : bool := in_range 0x80 0xBF b.

Definition REPLACEMENT : char := 0xFFFD.

(** The second byte a three- or four-byte lead accepts. *)
Definition second3 (b n : N) : bool :=
  ((b =? 0xE0) && in_range 0xA0 0xBF n) || (in_range 0xE1 0xEC b && in_range 0x80 0xBF n)
  || ((b =? 0xED) && in_range 0x80 0x9F n) || (in_range 0xEE 0xEF b && in_range 0x80 0xBF n).
Definition second4 (b n : N) : bool :=
  ((b =? 0xF0) && in_range 0x90 0xBF n) || (in_range 0xF1 0xF3 b && in_range 0x80 0xBF n)
  || ((b =? 0xF4) && in_range 0x80 0x8F n).

(** One chunk of [String::from_utf8_lossy]: a character, or the replacement
    character for the longest prefix of a well-formed sequence. *)
Definition decode_chunk (b : byte) (rest : list byte) : char * list byte :=
  if b <? 0x80 then (b, rest)
  else if in_range 0xC2 0xDF b then
    match rest with
    | n :: r => if continuation n then ((b - 0xC0) * 64 + (n - 0x80), r) else (REPLACEMENT, rest)
    | [] => (REPLACEMENT, rest)
    end
  else if in_range 0xE0 0xEF b then
    match rest with
    | n :: r => if second3 b n then
        match r with
        | m :: r' => if continuation m
                     then ((b - 0xE0) * 4096 + (n - 0x80) * 64 + (m - 0x80), r')
                     else (REPLACEMENT, r)
        | [] => (REPLACEMENT, r)
        end
      else (REPLACEMENT, rest)
    | [] => (REPLACEMENT, rest)
    end
  else if in_range 0xF0 0xF4 b then
    match rest with
    | n :: r => if second4 b n then
        match r with
        | m :: r' => if continuation m then
            match r' with
            | o :: r'' => if continuation o
                then ((b - 0xF0) * 262144 + (n - 0x80) * 4096 + (m - 0x80) * 64 + (o - 0x80), r'')
                else (REPLACEMENT, r')
            | [] => (REPLACEMENT, r')
            end
          else (REPLACEMENT, r)
        | [] => (REPLACEMENT, r)
        end
      else (REPLACEMENT, rest)
    | [] => (REPLACEMENT, rest)
    end
  else (REPLACEMENT, rest).

Fixpoint decode_fuel (fuel : nat) (bs : list byte) : ustring :=
  match fuel, bs with
  | _, [] | O, _ => []
  | S fuel, b :: rest => let '(c, rest') := decode_chunk b rest in c :: decode_fuel fuel rest'
  end.

(** [String::from_utf8_lossy]; every chunk consumes a byte, so the length of
    the input is enough fuel. *)
Definition from_utf8_lossy (bs : list byte) : ustring := decode_fuel (length bs) bs.

(** A string literal of the source. *)
Definition u (s : string) : ustring :=
  from_utf8_lossy (Ascii.N_of_ascii <$> String.list_ascii_of_string s).

Definition scalars (s : ustring) : Prop := Forall (λ c, is_scalar c = true) s.

Lemma is_scalar_spec c : is_scalar c = true ↔ c < 0xD800 ∨ 0xDFFF < c ≤ 0x10FFFF.
Proof.
  unfold is_scalar. rewrite orb_true_iff, andb_true_iff, !N.ltb_lt, N.leb_le. done.
Qed.

Lemma mod64_lt c : c mod 64 < 64.
Proof. by apply N.mod_lt. Qed.

Ltac decide_bytes :=
  repeat match goal with
  | |- context [?a <? ?b] =>
      first [ rewrite (proj2 (N.ltb_lt a b)) by lia | rewrite (proj2 (N.ltb_ge a b)) by lia ]
  | |- context [?a <=? ?b] =>
      first [ rewrite (proj2 (N.leb_le a b)) by lia | rewrite (proj2 (N.leb_gt a b)) by lia ]
  end.

(** The base-64 digits of a scalar value, as variables [lia] can reason about. *)
Lemma digits64 c :
  ∃ q1 q2 q3 r0 r1 r2, c / 64 = q1 ∧ c / 4096 = q2 ∧ c / 262144 = q3
    ∧ c mod 64 = r0 ∧ q1 mod 64 = r1 ∧ q2 mod 64 = r2
    ∧ c = 64 * q1 + r0 ∧ q1 = 64 * q2 + r1 ∧ q2 = 64 * q3 + r2
    ∧ r0 < 64 ∧ r1 < 64 ∧ r2 < 64.
Proof.
  assert (c / 64 / 64 = c / 4096) as E1 by (by rewrite N.Div0.div_div).
  assert (c / 4096 / 64 = c / 262144) as E2 by (by rewrite N.Div0.div_div).
  exists (c / 64), (c / 4096), (c / 262144), (c mod 64), (c / 64 mod 64), (c / 4096 mod 64).
  split_and!; try apply mod64_lt; try reflexivity.
  - apply N.div_mod'.
  - rewrite <- E1. apply N.div_mod'.
  - rewrite <- E2. apply N.div_mod'.
Qed.

Lemma decode_encode_char c rest :
  is_scalar c = true →
  ∃ b bs, encode_char c = b :: bs ∧ decode_chunk b (bs ++ rest) = (c, rest).
Proof.
  intros Hc%is_scalar_spec. unfold encode_char.
  destruct (digits64 c) as (q1 & q2 & q3 & r0 & r1 & r2 & -> & -> & -> & -> & -> & -> &
    Hc0 & Hq1 & Hq2 & ? & ? & ?).
  destruct (N.ltb_spec c 0x80); [|destruct (N.ltb_spec c 0x800);
    [|destruct (N.ltb_spec c 0x10000)]]; eexists _, _; (split; [done|]);
    unfold decode_chunk, second3, second4, continuation, in_range; simpl app.
  - decide_bytes. done.
  - decide_bytes. simpl. f_equal. lia.
  - decide_bytes. simpl.
    match goal with |- context [if ?t then _ else _] => assert (t = true) as -> end.
    { destruct (N.eqb_spec (224 + q2) 224), (N.eqb_spec (224 + q2) 237);
        decide_bytes; try done.
      destruct (N.leb_spec (224 + q2) 236); simpl; decide_bytes; done. }
    decide_bytes. simpl. f_equal. lia.
  - decide_bytes. simpl.
    match goal with |- context [if ?t then _ else _] => assert (t = true) as -> end.
    { destruct (N.eqb_spec (240 + q3) 240), (N.eqb_spec (240 + q3) 244);
        decide_bytes; done. }
    decide_bytes. simpl. f_equal. lia.
Qed.

Lemma utf8_cons c s : utf8 (c :: s) = encode_char c ++ utf8 s.
Proof. done. Qed.

Lemma decode_utf8 s fuel rest :
  scalars s → (length (utf8 s ++ rest) ≤ fuel)%nat →
  ∃ fuel', (length rest ≤ fuel')%nat ∧ decode_fuel fuel (utf8 s ++ rest) = s ++ decode_fuel fuel' rest.
Proof.
  intros Hs. revert fuel. induction Hs as [|c s Hc Hs IH]; intros fuel Hf; [by eexists|].
  rewrite utf8_cons, <- app_assoc in *.
  destruct (decode_encode_char c (utf8 s ++ rest) Hc) as (b & bs & Henc & Hdec).
  rewrite Henc in *. destruct fuel as [|fuel]; [simpl in Hf; lia|].
  simpl. rewrite Hdec. simpl in Hf. rewrite length_app in Hf.
  destruct (IH fuel) as (fuel' & Hf' & ->); [lia|]. by exists fuel'.
Qed.

Lemma from_utf8_lossy_utf8 s : scalars s → from_utf8_lossy (utf8 s) = s.
Proof.
  intros Hs. unfold from_utf8_lossy.
  destruct (decode_utf8 s (length (utf8 s)) []) as (fuel' & _ & E);
    [done|by rewrite app_nil_r|].
  rewrite !app_nil_r in E. rewrite E. by destruct fuel'; rewrite app_nil_r.
Qed.

Lemma utf8_app s t : utf8 (s ++ t) = utf8 s ++ utf8 t.
Proof. apply bind_app. Qed.

Lemma encode_char_bytes c : is_scalar c = true → Forall (λ b, b < 256) (encode_char c).
Proof.
  intros Hc%is_scalar_spec. unfold encode_char.
  destruct (digits64 c) as (q1 & q2 & q3 & r0 & r1 & r2 & -> & -> & -> & -> & -> & -> &
    Hc0 & Hq1 & Hq2 & ? & ? & ?).
  destruct (N.ltb_spec c 0x80); [|destruct (N.ltb_spec c 0x800);
    [|destruct (N.ltb_spec c 0x10000)]];
    repeat constructor; lia.
Qed.

(** ** Grapheme segmentation

    [unicode_segmentation::UnicodeSegmentation::graphemes(_, true)] is a
    third-party function: a parameter of every definition that uses it, with
    its documented behaviour (the clusters are non-empty and concatenate to
    the text) as laws. *)

Class Segmentation := graphemes : ustring → list Grapheme.

Class SegmentationLaws `{Segmentation} : Prop := {
  graphemes_concat s : concat (graphemes s) = s;
  graphemes_nonempty s : [] ∉ graphemes s;
}.

(** The segmentation of texts without combining sequences: every scalar value
    is a cluster. It is what the crate computes on the texts of the witnesses. *)
Definition scalar_clusters : Segmentation := λ s, (λ c, [c]) <$> s.

#[export] Instance scalar_clusters_laws : @SegmentationLaws scalar_clusters.
Proof.
  split; unfold graphemes, scalar_clusters; intros s.
  - induction s as [|c s IH]; [done|]. simpl. f_equal. apply IH.
  - set_solver.
Qed.

(** ** kana.rs *)

Module Kana.

Definition to_katakana_char (character : char) : option char :=
  if in_range 0x3041 0x3096 character then from_u32 (character + 96) else Some character.

Definition to_hiragana_char (character : char) : option char :=
  if in_range 0x30a1 0x30f6 character then from_u32 (character - 96) else Some character.

(** The [expect]s of the source are [None]. *)
Definition try_to_katakana (value : ustring) : option ustring := mapM to_katakana_char value.
Definition try_to_hiragana (value : ustring) : option ustring := mapM to_hiragana_char value.

(** The same functions without the (unreachable) panic. *)
Definition to_katakana (value : ustring) : ustring :=
  (λ c, if in_range 0x3041 0x3096 c then c + 96 else c) <$> value.
Definition to_hiragana (value : ustring) : ustring :=
  (λ c, if in_range 0x30a1 0x30f6 c then c - 96 else c) <$> value.

Lemma in_range_spec lo hi b : in_range lo hi b = true ↔ lo ≤ b ≤ hi.
Proof. unfold in_range. by rewrite andb_true_iff, !N.leb_le. Qed.

Lemma to_katakana_char_ok c :
  to_katakana_char c = Some (if in_range 0x3041 0x3096 c then c + 96 else c).
Proof.
  unfold to_katakana_char, from_u32. destruct (in_range _ _ c) eqn:E; [|done].
  apply in_range_spec in E. rewrite (proj2 (is_scalar_spec _)); [done|lia].
Qed.

Lemma to_hiragana_char_ok c :
  to_hiragana_char c = Some (if in_range 0x30a1 0x30f6 c then c - 96 else c).
Proof.
  unfold to_hiragana_char, from_u32. destruct (in_range _ _ c) eqn:E; [|done].
  apply in_range_spec in E. rewrite (proj2 (is_scalar_spec _)); [done|lia].
Qed.

Lemma try_to_katakana_ok value : try_to_katakana value = Some (to_katakana value).
Proof.
  unfold try_to_katakana, to_katakana.
  induction value as [|c s IH]; simpl; [done|]. by rewrite to_katakana_char_ok, IH.
Qed.

Lemma try_to_hiragana_ok value : try_to_hiragana value = Some (to_hiragana value).
Proof.
  unfold try_to_hiragana, to_hiragana.
  induction value as [|c s IH]; simpl; [done|]. by rewrite to_hiragana_char_ok, IH.
Qed.

Lemma hiragana_of_katakana value : to_hiragana (to_katakana value) = to_hiragana value.
Proof.
  unfold to_hiragana, to_katakana. rewrite <- list_fmap_compose. apply list_fmap_ext.
  intros i c _. simpl. destruct (in_range 0x3041 0x3096 c) eqn:E; [|done].
  apply in_range_spec in E.
  rewrite (proj2 (in_range_spec 0x30a1 0x30f6 (c + 96))) by lia.
  destruct (in_range 0x30a1 0x30f6 c) eqn:E'; [apply in_range_spec in E'|]; lia.
Qed.

Lemma katakana_of_hiragana value : to_katakana (to_hiragana value) = to_katakana value.
Proof.
  unfold to_hiragana, to_katakana. rewrite <- list_fmap_compose. apply list_fmap_ext.
  intros i c _. simpl. destruct (in_range 0x30a1 0x30f6 c) eqn:E; [|done].
  apply in_range_spec in E.
  rewrite (proj2 (in_range_spec 0x3041 0x3096 (c - 96))) by lia.
  destruct (in_range 0x3041 0x3096 c) eqn:E'; [apply in_range_spec in E'|]; lia.
Qed.

Lemma to_katakana_app s t : to_katakana (s ++ t) = to_katakana s ++ to_katakana t.
Proof. apply fmap_app. Qed.

(** kana.rs never panics, keeps the number of characters, and the two
    conversions are inverse to each other up to the kana class: converting to
    katakana and then to hiragana is converting to hiragana, and conversely. *)
Theorem kana_conversions value :
  try_to_katakana value = Some (to_katakana value) ∧
  try_to_hiragana value = Some (to_hiragana value) ∧
  length (to_katakana value) = length value ∧
  to_hiragana (to_katakana value) = to_hiragana value ∧
  to_katakana (to_hiragana value) = to_katakana value.
Proof.
  split_and!; [apply try_to_katakana_ok|apply try_to_hiragana_ok|apply length_fmap
    |apply hiragana_of_katakana|apply katakana_of_hiragana].
Qed.

End Kana.

Example kana_ranges : Kana.to_katakana (u "ぁあゖー漢") = u "ァアヶー漢"
  ∧ Kana.to_hiragana (u "ァアヶー漢") = u "ぁあゖー漢".
Proof. by vm_compute. Qed.

(** ** Text functions of the standard library *)

Module Text.

(** [str::split(c)] *)
Fixpoint split_on (c : char) (s : ustring) : list ustring :=
  match s with
  | [] => [[]]
  | x :: s' =>
      if x =? c then [] :: split_on c s'
      else match split_on c s' with
           | [] => [[x]]
           | w :: ws => (x :: w) :: ws
           end
  end.

(** [str::split_once(c)] *)
Fixpoint split_once (c : char) (s : ustring) : option (ustring * ustring) :=
  match s with
  | [] => None
  | x :: s' => if x =? c then Some ([], s')
               else '(l, r) ← split_once c s'; Some (x :: l, r)
  end.

(** A line ending with a carriage return loses it. *)
Definition strip_cr (line : ustring) : ustring :=
  match last line with
  | Some 13 => take (length line - 1)%nat line
  | _ => line
  end.

(** [str::lines]: a final empty piece is not a line. *)
Definition lines (s : ustring) : list ustring :=
  let pieces := split_on 10 s in
  strip_cr <$> match last pieces with
               | Some [] => take (length pieces - 1)%nat pieces
               | _ => pieces
               end.

(** [char::is_whitespace], the Unicode White_Space property. *)
Definition is_whitespace (c : char) : bool :=
  in_range 9 13 c || (c =? 0x20) || (c =? 0x85) || (c =? 0xA0) || (c =? 0x1680)
  || in_range 0x2000 0x200A c || (c =? 0x2028) || (c =? 0x2029) || (c =? 0x202F)
  || (c =? 0x205F) || (c =? 0x3000).

(** [s.trim().is_empty()] *)
Definition is_blank (s : ustring) : bool := forallb is_whitespace s.

Lemma split_on_nonempty c s : split_on c s ≠ [].
Proof. destruct s as [|x s]; simpl; [done|]. case_match; [done|]. by case_match. Qed.

Lemma split_on_no_sep c s : c ∉ s → split_on c s = [s].
Proof.
  induction s as [|x s IH]; simpl; [done|]. intros [Hx Hs]%not_elem_of_cons.
  rewrite (proj2 (N.eqb_neq x c)) by done. by rewrite IH.
Qed.

Lemma split_on_app c s t : c ∉ s → split_on c (s ++ c :: t) = s :: split_on c t.
Proof.
  induction s as [|x s IH]; simpl; [by rewrite N.eqb_refl|].
  intros [Hx Hs]%not_elem_of_cons. rewrite (proj2 (N.eqb_neq x c)) by done. by rewrite IH.
Qed.

Lemma split_once_app c s t : c ∉ s → split_once c (s ++ c :: t) = Some (s, t).
Proof.
  induction s as [|x s IH]; simpl; [by rewrite N.eqb_refl|].
  intros [Hx Hs]%not_elem_of_cons. rewrite (proj2 (N.eqb_neq x c)) by done. by rewrite IH.
Qed.

End Text.
