(* ===== verification/InputTable.v ===== *)
(** * Input tables

    src/crates/converter/src/input/table.rs: the rewriting tables that turn key
    strokes into kana. A table is an ordered list of rules (a key pattern and
    the text it produces); [apply] looks at the end of the text typed so far,
    picks the best rule whose pattern ends with the added piece, and replaces
    the graphemes the pattern covers. *)

From S2P Require Import Prelude Unicode.

(** ** Data *)

Inductive InputModifier : Set := Shift.

#[export] Instance InputModifier_eq_dec : EqDecision InputModifier.
Proof. solve_decision. Defined.

#[export] Instance InputModifier_countable : Countable InputModifier.
Proof.
  refine (inj_countable' (λ _, tt) (λ _, Shift) _). by intros [].
Defined.

Inductive InputPiece :=
  | Character (value : Grapheme)
  | CompositionSeparator
  | Key (intention : option Grapheme) (input : Grapheme) (modifiers : gset InputModifier).

#[export] Instance InputPiece_eq_dec : EqDecision InputPiece.
Proof. solve_decision. Defined.

Definition displayed (p : InputPiece) : option Grapheme :=
  match p with
  | Character value => Some value
  | CompositionSeparator => None
  | Key intention input _ => Some (default input intention)
  end.

Inductive KeyElement := Piece (p : InputPiece) | AnyKey.

#[export] Instance KeyElement_eq_dec : EqDecision KeyElement.
Proof. solve_decision. Defined.

Inductive ValueElement := VCharacter (value : Grapheme) | VAny.

#[export] Instance ValueElement_eq_dec : EqDecision ValueElement.
Proof. solve_decision. Defined.

Record Mapping := { key : list KeyElement; value : list ValueElement }.

Record InputTable := { mappings : list Mapping; max_key_count : nat }.

Record Match := {
  mapping_index : nat;
  depth : nat;
  wildcard_count : nat;
  exact_key_count : nat;
  resolved_wildcard : option InputPiece;
}.

Definition entries_of (t : InputTable) : list (list KeyElement * list ValueElement) :=
  (λ m, (key m, value m)) <$> mappings t.

(** ** Construction *)

Definition empty_table : InputTable := {| mappings := []; max_key_count := 0 |}.

(** The body of the loop of [InputTable::new]: an entry with a known key
    replaces its value in place, a new key is appended. *)
Fixpoint upsert (ms : list Mapping) (k : list KeyElement) (v : list ValueElement) :
    list Mapping :=
  match ms with
  | [] => [{| key := k; value := v |}]
  | m :: ms' => if decide (key m = k) then {| key := key m; value := v |} :: ms'
                else m :: upsert ms' k v
  end.

Definition new_mappings (entries : list (list KeyElement * list ValueElement)) : list Mapping :=
  foldl (λ ms e, upsert ms e.1 e.2) [] entries.

(** [mappings.iter().map(|m| m.key.len()).max().unwrap_or(0)] *)
Definition max_key_len (ms : list Mapping) : nat := foldr (λ m n, length (key m) `max` n) 0 ms.

Definition table_new (entries : list (list KeyElement * list ValueElement)) : InputTable :=
  let ms := new_mappings entries in
  {| mappings := ms; max_key_count := max_key_len ms |}.

Definition combined (tables : list InputTable) : InputTable :=
  table_new (tables ≫= entries_of).

(** ** Matching *)

(** [piece_matches]: whether it matches, and the increment of [exact_key_count] *)
Definition piece_matches (expected current : InputPiece) : option nat :=
  match expected, current with
  | Character e, _ => if decide (displayed current = Some e) then Some 0 else None
  | CompositionSeparator, CompositionSeparator => Some 0
  | Key _ expected_input expected_modifiers, Key intention input modifiers =>
      if decide (default input intention = expected_input ∧ modifiers = expected_modifiers)
      then Some 1 else None
  | _, _ => None
  end.

(** The loop of [match_mapping] over the reversed key. *)
Fixpoint match_loop (rkey : list KeyElement) (d : nat) (buffer : list Grapheme)
    (added : InputPiece) (rw : option InputPiece) (wc ek : nat) :
    option (option InputPiece * nat * nat) :=
  match rkey with
  | [] => Some (rw, wc, ek)
  | expected :: rkey' =>
      current ←
        (if decide (d = 0) then Some added
         else index ← usub (length buffer) d; Character <$> (buffer !! index));
      match expected with
      | AnyKey =>
          match rw with
          | Some previous =>
              if decide (previous = current)
              then match_loop rkey' (S d) buffer added rw (S wc) ek else None
          | None => match_loop rkey' (S d) buffer added (Some current) (S wc) ek
          end
      | Piece e =>
          n ← piece_matches e current;
          match_loop rkey' (S d) buffer added rw wc (ek + n)
      end
  end.

Definition match_mapping (t : InputTable) (i : nat) (m : Mapping) (buffer : list Grapheme)
    (added : InputPiece) : option Match :=
  if decide (key m = [] ∨ max_key_count t < length (key m)) then None
  else
    '(rw, wc, ek) ← match_loop (reverse (key m)) 0 buffer added None 0 0;
    Some {| mapping_index := i; depth := length (key m); wildcard_count := wc;
            exact_key_count := ek; resolved_wildcard := rw |}.

(** [Ordering::then_with] *)
Definition then_with (c d : comparison) : comparison := match c with Eq => d | _ => c end.

Definition compare_matches (l r : Match) : comparison :=
  then_with (Nat.compare (depth l) (depth r))
    (then_with (Nat.compare (wildcard_count r) (wildcard_count l))
      (then_with (Nat.compare (exact_key_count l) (exact_key_count r))
        (Nat.compare (mapping_index r) (mapping_index l)))).

Definition matches (t : InputTable) (buffer : list Grapheme) (added : InputPiece) : list Match :=
  omap (λ im, match_mapping t im.1 im.2 buffer added) (imap pair (mappings t)).

Definition best_match (t : InputTable) (buffer : list Grapheme) (added : InputPiece) :
    option Match :=
  max_by compare_matches None (matches t buffer added).

(** ** Application *)

(** What a value element pushes on the buffer. *)
Definition render_element (rw : option InputPiece) (e : ValueElement) : list Grapheme :=
  match e with
  | VCharacter v => [v]
  | VAny => match rw ≫= displayed with Some v => [v] | None => [] end
  end.

(** [InputTable::apply]: the new buffer and the number of deleted graphemes.
    [self.mappings[best.mapping_index]] out of range is a panic. *)
Definition apply (t : InputTable) (buffer : list Grapheme) (added : InputPiece) :
    option (list Grapheme * nat) :=
  match best_match t buffer added with
  | Some best =>
      m ← mappings t !! mapping_index best;
      let delete_count := depth best - 1 in
      let kept := take (length buffer - delete_count) buffer in
      Some (kept ++ (value m ≫= render_element (resolved_wildcard best)), delete_count)
  | None =>
      match displayed added with
      | Some v => Some (buffer ++ [v], 0)
      | None => Some (buffer, 0)
      end
  end.

(** [InputTable::applied] *)
Definition applied `{Segmentation} (t : InputTable) (current_text : ustring)
    (added : InputPiece) : option ustring :=
  r ← apply t (graphemes current_text) added; Some (concat r.1).

Definition key_text (k : list KeyElement) : option ustring :=
  (λ l : list ustring, concat l) <$> mapM (λ e, match e with Piece (Character v) => Some v | _ => None end) k.

Definition value_text (v : list ValueElement) : option ustring :=
  (λ l : list ustring, concat l) <$> mapM (λ e, match e with VCharacter v => Some v | VAny => None end) v.

(** [InputTable::possible_nexts] *)
Definition possible_nexts (t : InputTable) (pre : ustring) : list ustring :=
  omap (λ m,
    k ← key_text (key m);
    if decide (pre = [] ∨ length k ≤ length pre ∨ ¬ pre `prefix_of` k) then None
    else Kana.to_katakana <$> value_text (value m)) (mappings t).

(** Typing a sequence of pieces into an empty buffer. *)
Definition type_pieces (t : InputTable) (ps : list InputPiece) : option (list Grapheme) :=
  foldl (λ b p, b ← b; r ← apply t b p; Some r.1) (Some []) ps.

(** ** Construction: the table is a map from key patterns to values *)

Lemma upsert_keys ms k v :
  ((k ∈ (key <$> ms)) ∧ (key <$> upsert ms k v) = (key <$> ms)) ∨
  ((k ∉ (key <$> ms)) ∧ (key <$> upsert ms k v) = (key <$> ms) ++ [k]).
Proof.
  induction ms as [|m ms IH]; cbn [upsert fmap list_fmap].
  { right. split; [apply not_elem_of_nil|done]. }
  rewrite elem_of_cons. case_decide as Hk; cbn [fmap list_fmap].
  - left. auto.
  - destruct IH as [[Hin ->]|[Hni ->]]; [left; auto|right].
    split; [|done]. intros [->|?]; auto.
Qed.

Lemma upsert_NoDup ms k v : NoDup (key <$> ms) → NoDup (key <$> upsert ms k v).
Proof.
  intros Hnd. destruct (upsert_keys ms k v) as [[_ ->]|[Hni ->]]; [done|].
  apply NoDup_app; split_and!; [done| |apply NoDup_singleton].
  by intros x Hx ->%list_elem_of_singleton.
Qed.

(** The value a table gives to a key pattern. *)
Definition value_of (ms : list Mapping) (k : list KeyElement) : option (list ValueElement) :=
  value <$> (snd <$> list_find (λ m, key m = k) ms).

Lemma value_of_cons m ms k :
  value_of (m :: ms) k = if decide (key m = k) then Some (value m) else value_of ms k.
Proof.
  unfold value_of. simpl. case_decide; [done|].
  by destruct (list_find _ ms) as [[]|].
Qed.

Lemma upsert_value_of ms k v k' :
  value_of (upsert ms k v) k' = if decide (k = k') then Some v else value_of ms k'.
Proof.
  induction ms as [|m ms IH]; cbn [upsert].
  - rewrite value_of_cons. simpl. by case_decide.
  - destruct (decide (key m = k));
    rewrite !value_of_cons; cbn [key value]; rewrite ?IH;
      repeat case_decide; congruence.
Qed.

(** The value the last entry with key [k] gives. *)
Fixpoint last_entry (entries : list (list KeyElement * list ValueElement)) (k : list KeyElement) :
    option (list ValueElement) :=
  match entries with
  | [] => None
  | e :: es => match last_entry es k with
               | Some v => Some v
               | None => if decide (e.1 = k) then Some e.2 else None
               end
  end.

Lemma new_mappings_value_of entries ms k :
  value_of (foldl (λ ms e, upsert ms e.1 e.2) ms entries) k =
    match last_entry entries k with Some v => Some v | None => value_of ms k end.
Proof.
  revert ms. induction entries as [|e es IH]; intros ms; simpl; [done|].
  rewrite IH, upsert_value_of. destruct (last_entry es k); [done|]. by case_decide.
Qed.

Lemma new_mappings_NoDup entries ms :
  NoDup (key <$> ms) → NoDup (key <$> foldl (λ ms e, upsert ms e.1 e.2) ms entries).
Proof.
  revert ms. induction entries as [|e es IH]; intros ms Hms; simpl; [done|].
  by apply IH, upsert_NoDup.
Qed.

Lemma max_key_len_ge ms m : m ∈ ms → length (key m) ≤ max_key_len ms.
Proof. induction 1; simpl; lia. Qed.

Lemma last_entry_app es1 es2 k :
  last_entry (es1 ++ es2) k = match last_entry es2 k with
                              | Some v => Some v | None => last_entry es1 k end.
Proof.
  induction es1 as [|e es1 IH]; simpl; [by destruct (last_entry es2 k)|].
  rewrite IH. by destruct (last_entry es2 k).
Qed.

Lemma last_entry_value_of ms k :
  NoDup (key <$> ms) → last_entry ((λ m, (key m, value m)) <$> ms) k = value_of ms k.
Proof.
  induction ms as [|m ms IH]; csimpl; [done|]. intros [Hm Hms]%NoDup_cons.
  rewrite value_of_cons, IH by done. case_decide as Hk; [|by destruct (value_of ms k)].
  subst. assert (value_of ms (key m) = None) as ->; [|done].
  unfold value_of. rewrite (proj2 (list_find_None _ _)); [done|].
  apply Forall_forall. intros m' Hm' Hk. apply Hm. rewrite <- Hk. set_solver.
Qed.

Lemma table_new_value_of entries k :
  value_of (mappings (table_new entries)) k = last_entry entries k.
Proof.
  simpl. unfold new_mappings. rewrite new_mappings_value_of. by destruct (last_entry entries k).
Qed.

(** [InputTable::new]: no two rules have the same key, the
    value of a key is the one of the last entry given for it, and every rule
    passes the [max_key_count] guard of the matcher. *)
Theorem table_new_correct entries :
  let t := table_new entries in
  NoDup (key <$> mappings t) ∧
  (∀ k, value_of (mappings t) k = last_entry entries k) ∧
  (∀ m, m ∈ mappings t → length (key m) ≤ max_key_count t).
Proof.
  split_and!.
  - by apply new_mappings_NoDup, NoDup_nil.
  - apply table_new_value_of.
  - intros m. apply max_key_len_ge.
Qed.

Lemma new_mappings_fresh entries ms :
  NoDup ((key <$> ms) ++ entries.*1) →
  foldl (λ ms e, upsert ms e.1 e.2) ms entries =
    ms ++ ((λ e, {| key := e.1; value := e.2 |}) <$> entries).
Proof.
  revert ms. induction entries as [|[k v] es IH]; intros ms Hnd; [by rewrite app_nil_r|].
  assert (Hup : upsert ms k v = ms ++ [{| key := k; value := v |}]).
  { assert (Hk : k ∉ (key <$> ms)).
    { apply NoDup_app in Hnd as (_ & Hd & _). intros Hk. apply (Hd k Hk), elem_of_cons. by left. }
    clear -Hk. induction ms as [|m ms IH]; [done|]. apply not_elem_of_cons in Hk as [Hm Hk].
    cbn [upsert]. rewrite decide_False by congruence. by rewrite IH. }
  cbn [foldl fst snd]. rewrite Hup, IH; [by rewrite <- app_assoc|].
  rewrite fmap_app, <- app_assoc. apply Hnd.
Qed.

(** Distinct keys: the entries of the new table are the given ones. *)
Lemma entries_of_table_new entries : NoDup entries.*1 → entries_of (table_new entries) = entries.
Proof.
  intros Hnd. unfold entries_of, table_new, new_mappings. cbn [mappings].
  rewrite new_mappings_fresh by done. cbn [app]. rewrite <- list_fmap_compose.
  rewrite <- (list_fmap_id entries) at 2. apply list_fmap_ext. by intros i [].
Qed.

(** Tables built by the constructors: distinct keys. *)
Definition table_wf (t : InputTable) : Prop := NoDup (key <$> mappings t).

Lemma table_new_wf entries : table_wf (table_new entries).
Proof. by apply new_mappings_NoDup, NoDup_nil. Qed.

(** In a combined table a key has the value of the last
    table that has a rule for it. *)
Theorem combined_last_wins ts t k :
  table_wf t →
  value_of (mappings (combined (ts ++ [t]))) k =
    match value_of (mappings t) k with
    | Some v => Some v
    | None => value_of (mappings (combined ts)) k
    end.
Proof.
  intros Ht. unfold combined.
  rewrite !table_new_value_of, bind_app, last_entry_app. cbn [mbind list_bind].
  rewrite app_nil_r.
  by rewrite (last_entry_value_of (mappings t) k Ht : last_entry (entries_of t) k = _).
Qed.

Lemma combined_last_wins_witness :
  value_of (mappings (combined ([empty_table] ++ [table_new [([AnyKey], [VAny])]]))) [AnyKey]
    = Some [VAny].
Proof.
  rewrite (combined_last_wins [empty_table] (table_new [([AnyKey], [VAny])]) [AnyKey]
    (table_new_wf _)).
  vm_compute. reflexivity.
Defined.

(** ** Matching *)

Lemma match_loop_local rkey d pre suf added rw wc ek :
  d + length rkey ≤ S (length suf) →
  match_loop rkey d (pre ++ suf) added rw wc ek = match_loop rkey d suf added rw wc ek.
Proof.
  revert d rw wc ek. induction rkey as [|e rkey IH]; intros d rw wc ek Hlen; simpl; [done|].
  simpl in Hlen.
  assert ((if decide (d = 0) then Some added
           else index ← usub (length (pre ++ suf)) d; Character <$> ((pre ++ suf) !! index))
        = (if decide (d = 0) then Some added
           else index ← usub (length suf) d; Character <$> (suf !! index))) as ->.
  { case_decide; [done|]. rewrite !usub_ok by (rewrite ?length_app; lia). simpl.
    rewrite lookup_app_r by (rewrite length_app; lia). do 2 f_equal. rewrite length_app. lia. }
  destruct (if decide (d = 0) then _ else _) as [cur|]; simpl; [|done].
  destruct e as [p|].
  - destruct (piece_matches p cur); simpl; [|done]. apply IH. lia.
  - destruct rw; [case_decide; [|done]|]; apply IH; lia.
Qed.

Lemma match_loop_depth rkey d buffer added rw wc ek r :
  rkey ≠ [] → match_loop rkey d buffer added rw wc ek = Some r → d + length rkey ≤ S (length buffer).
Proof.
  revert d rw wc ek. induction rkey as [|e rkey IH]; intros d rw wc ek Hne Hm; [done|].
  simpl in Hm. destruct (if decide (d = 0) then _ else _) as [cur|] eqn:Hcur; [|done].
  assert (d ≤ length buffer).
  { case_decide; [lia|]. unfold usub in Hcur. case_decide; [lia|done]. }
  simpl in Hm. destruct rkey as [|e' rkey']; [simpl; lia|].
  simpl length. rewrite <- Nat.add_succ_comm.
  destruct e as [p|].
  - destruct (piece_matches p cur); [|done]. by eapply IH.
  - destruct rw; [case_decide; [|done]|]; by eapply IH.
Qed.

Lemma match_mapping_inv t i m buffer added x :
  match_mapping t i m buffer added = Some x →
  mapping_index x = i ∧ depth x = length (key m) ∧ 1 ≤ depth x ≤ S (length buffer).
Proof.
  unfold match_mapping. case_decide as Hd; [done|]. intros Hx.
  destruct (match_loop _ _ _ _ _ _ _) as [[[rw wc] ek]|] eqn:Hl; simplify_eq/=.
  apply Decidable.not_or in Hd as [Hne _].
  assert (reverse (key m) ≠ []).
  { intros E. apply Hne. rewrite <- (reverse_involutive (key m)), E. done. }
  apply match_loop_depth in Hl; [|done]. rewrite length_reverse in Hl.
  split_and!; [done|done| |lia]. destruct (key m); simpl; [done|lia].
Qed.

Lemma match_mapping_local t i m pre suf added :
  length (key m) ≤ S (length suf) →
  match_mapping t i m (pre ++ suf) added = match_mapping t i m suf added.
Proof.
  intros Hlen. unfold match_mapping. case_decide; [done|].
  rewrite match_loop_local; [done|]. by rewrite length_reverse.
Qed.

Lemma elem_of_matches t buffer added x :
  x ∈ matches t buffer added ↔
    ∃ i m, mappings t !! i = Some m ∧ match_mapping t i m buffer added = Some x.
Proof.
  unfold matches. rewrite list_elem_of_omap. split.
  - intros ([i m] & Hin & Hx). apply elem_of_lookup_imap in Hin as (j & m' & E & Hj).
    simplify_eq/=. eauto.
  - intros (i & m & Hi & Hx). exists (i, m). split; [|done].
    apply elem_of_lookup_imap. eauto.
Qed.

(** Two matches of one call with the same rule are the same match. *)
Lemma matches_index_inj t buffer added x y :
  x ∈ matches t buffer added → y ∈ matches t buffer added →
  mapping_index x = mapping_index y → x = y.
Proof.
  rewrite !elem_of_matches. intros (i & m & Hi & Hx) (j & m' & Hj & Hy) E.
  pose proof (match_mapping_inv _ _ _ _ _ _ Hx) as (<- & _).
  pose proof (match_mapping_inv _ _ _ _ _ _ Hy) as (<- & _).
  rewrite E in *. congruence.
Qed.

Lemma compare_flip x y : compare_matches y x = CompOpp (compare_matches x y).
Proof.
  unfold compare_matches.
  rewrite (Nat.compare_antisym (depth x)), (Nat.compare_antisym (wildcard_count y)),
    (Nat.compare_antisym (exact_key_count x)), (Nat.compare_antisym (mapping_index y)).
  by repeat match goal with |- context [Nat.compare ?a ?b] => destruct (Nat.compare a b) end.
Qed.

(** The documented priority: the longer key, then the fewer wildcards, then the
    more exact keys, then the earlier rule. *)
Definition preferred (x y : Match) : Prop :=
  depth y < depth x ∨ (depth x = depth y ∧
    (wildcard_count x < wildcard_count y ∨ (wildcard_count x = wildcard_count y ∧
      (exact_key_count y < exact_key_count x ∨ (exact_key_count x = exact_key_count y ∧
        mapping_index x < mapping_index y))))).

Lemma compare_Gt_preferred x y : compare_matches x y = Gt ↔ preferred x y.
Proof.
  unfold compare_matches, preferred.
  repeat match goal with |- context [Nat.compare ?a ?b] =>
    destruct (Nat.compare_spec a b); simpl end; split; intros; try done; lia.
Qed.

Lemma compare_Lt_preferred x y : compare_matches x y = Lt ↔ preferred y x.
Proof.
  rewrite <- compare_Gt_preferred, compare_flip.
  destruct (compare_matches y x); simpl; done.
Qed.

Lemma compare_trans x y z :
  compare_matches x y ≠ Gt → compare_matches y z ≠ Gt → compare_matches x z ≠ Gt.
Proof. rewrite !compare_Gt_preferred. unfold preferred. lia. Qed.

Lemma best_match_spec t buffer added b :
  best_match t buffer added = Some b ↔
    b ∈ matches t buffer added ∧
    ∀ x, x ∈ matches t buffer added → x = b ∨ preferred b x.
Proof.
  assert (Hdir : ∀ b, best_match t buffer added = Some b →
    b ∈ matches t buffer added ∧ ∀ x, x ∈ matches t buffer added → x = b ∨ preferred b x).
  { clear b. intros b Hb.
    apply (max_by_spec _ compare_flip compare_trans) in Hb as [Hin Hmax].
    split; [done|]. intros x Hx. specialize (Hmax x Hx).
    destruct (compare_matches x b) eqn:E; [|right; by apply compare_Lt_preferred|congruence].
    left. apply (matches_index_inj t buffer added); [done..|]. revert E. unfold compare_matches.
    repeat match goal with |- context [Nat.compare ?a ?b] =>
      destruct (Nat.compare_spec a b); simpl end; intros; first [done|lia]. }
  split; [apply Hdir|]. intros [Hin Hmax].
  destruct (best_match t buffer added) as [b'|] eqn:Hb.
  - destruct (Hdir b' eq_refl) as [Hin' Hmax'].
    destruct (Hmax b' Hin') as [->|H1]; [done|].
    destruct (Hmax' b Hin) as [->|H2]; [done|]. unfold preferred in *. lia.
  - apply max_by_None in Hb. rewrite Hb in Hin. set_solver.
Qed.

(** ** The matcher against a declarative specification

    The typed text is the buffer followed by the added piece; a rule matches
    when its key matches, element by element, the end of the typed text, all
    wildcards standing for the same piece. *)

Definition typed (buffer : list Grapheme) (added : InputPiece) : list InputPiece :=
  (Character <$> buffer) ++ [added].

Definition element_matches (e : KeyElement) (p : InputPiece) : Prop :=
  match e with Piece q => is_Some (piece_matches q p) | AnyKey => True end.

Definition wildcards_agree (k : list KeyElement) (ps : list InputPiece) (w : option InputPiece) :
    Prop :=
  Forall2 (λ e p, e = AnyKey → w = Some p) k ps.

Definition is_wildcard (e : KeyElement) : bool :=
  match e with AnyKey => true | Piece _ => false end.

Definition rule_matches (k : list KeyElement) (buffer : list Grapheme) (added : InputPiece)
    (w : option InputPiece) : Prop :=
  ∃ pre ps, typed buffer added = pre ++ ps ∧ Forall2 element_matches k ps ∧
    wildcards_agree k ps w.

(** The matcher's loop on the reversed typed text. *)
Fixpoint match_list (rkey : list KeyElement) (ps : list InputPiece) (rw : option InputPiece)
    (wc ek : nat) : option (option InputPiece * nat * nat) :=
  match rkey, ps with
  | [], _ => Some (rw, wc, ek)
  | _ :: _, [] => None
  | AnyKey :: rkey', p :: ps' =>
      match rw with
      | Some q => if decide (q = p) then match_list rkey' ps' rw (S wc) ek else None
      | None => match_list rkey' ps' (Some p) (S wc) ek
      end
  | Piece e :: rkey', p :: ps' => n ← piece_matches e p; match_list rkey' ps' rw wc (ek + n)
  end.

Lemma typed_reverse buffer added :
  reverse (typed buffer added) = added :: (Character <$> reverse buffer).
Proof. unfold typed. by rewrite reverse_app, fmap_reverse. Qed.

Lemma drop_reverse_lookup {A} (l : list A) i :
  i < length l → drop i (reverse l) = match l !! (length l - S i) with
                                      | Some x => x :: drop (S i) (reverse l) | None => [] end.
Proof.
  intros Hi. destruct (lookup_lt_is_Some_2 (reverse l) i) as [x Hx]; [by rewrite length_reverse|].
  rewrite (drop_S _ x) by done. rewrite reverse_lookup in Hx by done. by rewrite Hx.
Qed.

Lemma match_loop_list rkey d buffer added rw wc ek :
  match_loop rkey d buffer added rw wc ek =
  match_list rkey (drop d (reverse (typed buffer added))) rw wc ek.
Proof.
  rewrite typed_reverse.
  revert d rw wc ek. induction rkey as [|e rkey IH]; intros d rw wc ek; [done|].
  cbn [match_loop]. destruct d as [|d].
  - rewrite decide_True by done. cbn [match_list skipn mbind option_bind].
    destruct e as [q|]; [destruct (piece_matches q added); [|done]|destruct rw; [case_decide|]];
      try done; cbn [mbind option_bind]; by rewrite IH.
  - rewrite decide_False by done. cbn [skipn]. unfold usub.
    rewrite <- fmap_drop. destruct (decide (S d ≤ length buffer)) as [Hd|Hd].
    + rewrite drop_reverse_lookup by lia. cbn.
      destruct (lookup_lt_is_Some_2 buffer (length buffer - S d)) as [x ->]; [lia|]. csimpl.
      destruct e as [q|];
        [destruct (piece_matches q (Character x)); [|done]|destruct rw; [case_decide|]];
        try done; csimpl; rewrite IH; cbn [skipn]; by rewrite fmap_drop.
    + rewrite drop_ge by (rewrite length_reverse; lia). by destruct e.
Qed.

(** What the loop computes: the wildcard's piece, and the two counts. *)
Lemma match_list_spec rkey ps rw wc ek rw' wc' ek' :
  match_list rkey ps rw wc ek = Some (rw', wc', ek') →
  ∃ ps1 ps2, ps = ps1 ++ ps2 ∧ Forall2 element_matches rkey ps1 ∧
    wildcards_agree rkey ps1 rw' ∧ (∀ p, rw = Some p → rw' = Some p) ∧
    wc' = wc + length (filter is_wildcard rkey).
Proof.
  revert ps rw wc ek. induction rkey as [|e rkey IH]; intros ps rw wc ek Hm.
  { simplify_eq/=. exists [], ps. split_and!; [done|constructor|constructor|done|lia]. }
  destruct ps as [|p ps]; [by destruct e|]. destruct e as [q|]; simpl in Hm.
  - destruct (piece_matches q p) as [n|] eqn:Hq; [|done]. simpl in Hm.
    apply IH in Hm as (ps1 & ps2 & -> & HF & Hw & Hrw & ->).
    exists (p :: ps1), ps2. split_and!; try done; constructor; try done. by eexists.
  - assert (∃ rw0, match_list rkey ps rw0 (S wc) ek = Some (rw', wc', ek') ∧ rw0 = Some p ∧
      (∀ p', rw = Some p' → rw0 = Some p')) as (rw0 & Hm' & -> & Hrw).
    { exists (Some p). destruct rw as [q|]; [case_decide; simplify_eq|];
        split_and!; naive_solver. }
    apply IH in Hm' as (ps1 & ps2 & -> & HF & Hw & Hrw0 & ->).
    exists (p :: ps1), ps2. split_and!; try done.
    + by constructor.
    + constructor; [|done]. intros _. by apply Hrw0.
    + intros p' Hp. by apply Hrw0, Hrw.
    + simpl. lia.
Qed.

Lemma match_list_complete rkey ps1 ps2 rw wc ek w :
  Forall2 element_matches rkey ps1 → wildcards_agree rkey ps1 w →
  (rw = None ∨ rw = w) →
  is_Some (match_list rkey (ps1 ++ ps2) rw wc ek).
Proof.
  intros HF. revert rw wc ek. induction HF as [|e p rkey ps1 He HF IH];
    intros rw wc ek Hw Hrw; [by destruct ps2; eexists|].
  inversion Hw as [|? ? ? ? Hp Hw']; subst. simpl. destruct e as [q|].
  - destruct He as [n ->]. simpl. auto.
  - specialize (Hp eq_refl). subst w. destruct Hrw as [->| ->].
    + apply IH; auto.
    + rewrite decide_True by done. apply IH; auto.
Qed.

Lemma wildcards_agree_reverse k ps w :
  wildcards_agree k ps w → wildcards_agree (reverse k) (reverse ps) w.
Proof. apply Forall2_reverse. Qed.

(** C36. [match_mapping] implements the declarative rule matching:
    it succeeds exactly for the non-empty keys within [max_key_count] that
    match the end of the typed text with one piece for all wildcards, and the
    match it returns carries the rule's depth, its wildcards, and that piece. *)
Theorem match_mapping_correct t i m buffer added :
  (is_Some (match_mapping t i m buffer added) ↔
     key m ≠ [] ∧ length (key m) ≤ max_key_count t ∧ ∃ w, rule_matches (key m) buffer added w) ∧
  (∀ x, match_mapping t i m buffer added = Some x →
     depth x = length (key m) ∧ wildcard_count x = length (filter is_wildcard (key m)) ∧
     rule_matches (key m) buffer added (resolved_wildcard x)).
Proof.
  assert (Hfilter : ∀ k, length (filter is_wildcard (reverse k)) = length (filter is_wildcard k)).
  { intros k. by rewrite (reverse_Permutation k). }
  assert (Hsound : ∀ x, match_mapping t i m buffer added = Some x →
     key m ≠ [] ∧ length (key m) ≤ max_key_count t ∧ depth x = length (key m) ∧
     wildcard_count x = length (filter is_wildcard (key m)) ∧
     rule_matches (key m) buffer added (resolved_wildcard x)).
  { intros x. unfold match_mapping. case_decide as Hd; [done|].
    rewrite match_loop_list, drop_0.
    destruct (match_list _ _ _ _ _) as [[[rw wc] ek]|] eqn:Hl; [|done]. intros [= <-].
    apply match_list_spec in Hl as (ps1 & ps2 & Hps & HF & Hw & _ & ->). simpl.
    split_and!; [naive_solver|lia|done|by rewrite Hfilter|].
    exists (reverse ps2), (reverse ps1). split_and!.
    - by rewrite <- reverse_app, <- Hps, reverse_involutive.
    - rewrite <- (reverse_involutive (key m)). by apply Forall2_reverse.
    - rewrite <- (reverse_involutive (key m)). by apply wildcards_agree_reverse. }
  split; [|intros x Hx; apply Hsound in Hx; naive_solver].
  split; [intros [x Hx]; apply Hsound in Hx as (? & ? & _ & _ & ?); eauto|].
  intros (Hne & Hle & w & pre & ps & Htyped & HF & Hw).
  unfold match_mapping. rewrite decide_False by (intros [?|?]; [done|lia]).
  rewrite match_loop_list, drop_0, Htyped, reverse_app.
  destruct (match_list_complete (reverse (key m)) (reverse ps) (reverse pre) None 0 0 w)
    as [[[rw wc] ek] ->]; [by apply Forall2_reverse|by apply wildcards_agree_reverse|auto|].
  by eexists.
Qed.

(** ** Application *)

Lemma best_match_mapping t buffer added b :
  best_match t buffer added = Some b →
  ∃ m, mappings t !! mapping_index b = Some m ∧
    match_mapping t (mapping_index b) m buffer added = Some b ∧
    depth b = length (key m) ∧ 1 ≤ depth b ≤ S (length buffer).
Proof.
  intros [Hin _]%best_match_spec. apply elem_of_matches in Hin as (i & m & Hi & Hm).
  pose proof (match_mapping_inv _ _ _ _ _ _ Hm) as (-> & Hd & Hr). eauto 10.
Qed.

Lemma apply_Some t buffer added :
  ∃ out d, apply t buffer added = Some (out, d) ∧ d ≤ length buffer ∧
    ∃ ins, out = take (length buffer - d) buffer ++ ins.
Proof.
  unfold apply. destruct (best_match t buffer added) as [b|] eqn:Hb.
  - apply best_match_mapping in Hb as (m & -> & _ & _ & Hr). simpl.
    eexists _, _. split_and!; [done|lia|by eexists].
  - destruct (displayed added) as [v|]; eexists _, _;
      (split_and!; [done|lia|rewrite Nat.sub_0_r, take_ge by lia]).
    + by eexists.
    + exists []. by rewrite app_nil_r.
Qed.

(** C32. [InputTable::apply] never panics. If some rule matches, the
    best one by the documented priority (longest key, then fewest wildcards,
    then most exact keys, then earliest rule) is applied: the graphemes its key
    covers before the added piece are replaced by its value. If none matches,
    the piece's own text is appended and nothing is deleted. *)
Theorem apply_correct t buffer added :
  (∃ b m, b ∈ matches t buffer added ∧
     (∀ x, x ∈ matches t buffer added → x = b ∨ preferred b x) ∧
     mappings t !! mapping_index b = Some m ∧
     length (key m) - 1 ≤ length buffer ∧
     apply t buffer added =
       Some (take (length buffer - (length (key m) - 1)) buffer ++
               (value m ≫= render_element (resolved_wildcard b)), length (key m) - 1)) ∨
  ((∀ i m, mappings t !! i = Some m → match_mapping t i m buffer added = None) ∧
   apply t buffer added = Some (buffer ++ option_list (displayed added), 0)).
Proof.
  unfold apply. destruct (best_match t buffer added) as [b|] eqn:Hb.
  - left. pose proof (proj1 (best_match_spec _ _ _ _) Hb) as [Hin Hmax].
    apply best_match_mapping in Hb as (m & Hm & _ & Hd & Hr).
    exists b, m. rewrite Hm, Hd. split_and!; [done|done|done|lia|done].
  - right. apply max_by_None in Hb. split.
    + intros i m Hi. destruct (match_mapping t i m buffer added) as [x|] eqn:Hx; [|done].
      assert (x ∈ matches t buffer added) as Hin by (apply elem_of_matches; eauto).
      rewrite Hb in Hin. by apply not_elem_of_nil in Hin.
    + destruct (displayed added); simpl; [done|by rewrite app_nil_r].
Qed.

Lemma best_match_local t pre suf added b :
  best_match t (pre ++ suf) added = Some b → depth b ≤ S (length suf) →
  best_match t suf added = Some b.
Proof.
  intros Hb Hd. pose proof (proj1 (best_match_spec _ _ _ _) Hb) as [Hin Hmax].
  apply best_match_spec. split.
  - apply elem_of_matches in Hin as (i & m & Hi & Hm).
    pose proof (match_mapping_inv _ _ _ _ _ _ Hm) as (_ & Hdm & _).
    apply elem_of_matches. exists i, m. split; [done|].
    rewrite <- (match_mapping_local t i m pre); [done|lia].
  - intros x Hx. apply Hmax. apply elem_of_matches in Hx as (i & m & Hi & Hm).
    pose proof (match_mapping_inv _ _ _ _ _ _ Hm) as (_ & Hdm & Hr).
    apply elem_of_matches. exists i, m. split; [done|].
    rewrite match_mapping_local; [done|lia].
Qed.

Lemma best_match_local_None t pre suf added :
  best_match t (pre ++ suf) added = None → best_match t suf added = None.
Proof.
  intros Hb%max_by_None. apply max_by_None.
  destruct (matches t suf added) as [|x l] eqn:E; [done|].
  assert (x ∈ matches t suf added) as Hx by (rewrite E; apply elem_of_cons; auto).
  apply elem_of_matches in Hx as (i & m & Hi & Hm).
  pose proof (match_mapping_inv _ _ _ _ _ _ Hm) as (_ & Hdm & Hr).
  assert (x ∈ matches t (pre ++ suf) added) as Hx'.
  { apply elem_of_matches. exists i, m. split; [done|].
    rewrite match_mapping_local; [done|lia]. }
  rewrite Hb in Hx'. by apply not_elem_of_nil in Hx'.
Qed.

(** Rewriting is local: when an application deletes no more than
    the last [length suf] graphemes, what precedes them has no influence on the
    result. This is what makes a position of the surface that no later key
    stroke reached an independent boundary. *)
Lemma apply_local t pre suf added out d :
  apply t (pre ++ suf) added = Some (out, d) → d ≤ length suf →
  ∃ out', apply t suf added = Some (out', d) ∧ out = pre ++ out'.
Proof.
  unfold apply. intros Ha Hd.
  destruct (best_match t (pre ++ suf) added) as [b|] eqn:Hb.
  - pose proof (best_match_mapping _ _ _ _ Hb) as (m & Hm & _ & Hk & Hr).
    rewrite Hm in Ha. simplify_eq/=.
    rewrite (best_match_local t pre suf added b) by (done || lia). rewrite Hm. simpl.
    eexists. split; [done|].
    rewrite length_app, take_app, take_ge by lia. rewrite <- app_assoc.
    do 3 f_equal. lia.
  - rewrite (best_match_local_None t pre suf added) by done.
    destruct (displayed added); simplify_eq/=; eexists; (split; [done|]);
      by rewrite ?app_assoc.
Qed.

(** ** Bounds used by the composing text *)

Lemma apply_deleted_le t buffer added out d :
  apply t buffer added = Some (out, d) → d ≤ length buffer.
Proof. intros Ha. destruct (apply_Some t buffer added) as (? & ? & ? & ? & _). congruence. Qed.

Lemma apply_empty_table buffer added :
  apply empty_table buffer added = Some (buffer ++ option_list (displayed added), 0).
Proof. unfold apply. simpl. by destruct (displayed added); simpl; rewrite ?app_nil_r. Qed.

Lemma type_pieces_app t ps qs :
  type_pieces t (ps ++ qs) =
    foldl (λ b p, b ← b; r ← apply t b p; Some r.1) (type_pieces t ps) qs.
Proof. unfold type_pieces. by rewrite foldl_app. Qed.
