(* ===== verification/F32.v ===== *)
(** * Single precision floats

    The [f32] operations the source uses, on the Standard Library's executable
    specification of IEEE 754 arithmetic (precision 24, maximal exponent 128).
    There is one NaN, as in that specification: payloads are not modelled. *)

From Stdlib Require Import Floats.SpecFloat.
From S2P Require Import Prelude.

Open Scope Z_scope.

Definition f32 : Type := spec_float.

Definition fadd (a b : f32) : f32 := SFadd 24 128 a b.
Definition fsub (a b : f32) : f32 := SFsub 24 128 a b.
Definition fmul (a b : f32) : f32 := SFmul 24 128 a b.
Definition fdiv (a b : f32) : f32 := SFdiv 24 128 a b.
Definition fopp (a : f32) : f32 := SFopp a.

(** [a < b], [a <= b], [a == b]: false on NaN. *)
Definition flt (a b : f32) : bool := SFltb a b.
Definition fle (a b : f32) : bool := SFleb a b.
Definition feq (a b : f32) : bool := SFeqb a b.

Definition is_nan (a : f32) : bool := match a with S754_nan => true | _ => false end.
Definition is_finite (a : f32) : bool :=
  match a with S754_zero _ | S754_finite _ _ _ => true | _ => false end.

(** [f32::min] and [f32::max]: the other operand when one is NaN. *)
Definition fmin (a b : f32) : f32 :=
  if is_nan a then b else if is_nan b then a else if flt b a then b else a.
Definition fmax (a b : f32) : f32 :=
  if is_nan a then b else if is_nan b then a else if flt a b then b else a.

(** [n as f32], and the literal num/den: both round to nearest even. *)
Definition of_Z (z : Z) : f32 := binary_normalize 24 128 z 0 false.
Definition of_nat (n : nat) : f32 := of_Z (Z.of_nat n).
Definition lit (num den : Z) : f32 := fdiv (of_Z num) (of_Z den).

Definition zero : f32 := S754_zero false.

(** ** Bit patterns *)

Definition pack (sign : bool) (low : Z) : Z := (if sign then 2 ^ 31 else 0) + low.

Definition to_bits (a : f32) : Z :=
  match a with
  | S754_zero s => pack s 0
  | S754_infinity s => pack s (255 * 2 ^ 23)
  | S754_nan => pack false (255 * 2 ^ 23 + 2 ^ 22)
  | S754_finite s m e =>
      pack s (if Z.pos m <? 2 ^ 23 then Z.pos m else (e + 149) * 2 ^ 23 + Z.pos m)
  end.

Definition from_bits (b : Z) : f32 :=
  let s := Z.testbit b 31 in
  let e := Z.land (Z.shiftr b 23) 255 in
  let m := Z.land b (2 ^ 23 - 1) in
  if e =? 255 then (if m =? 0 then S754_infinity s else S754_nan)
  else if e =? 0 then
    match m with Z.pos p => S754_finite s p (-149) | _ => S754_zero s end
  else match m + 2 ^ 23 with Z.pos p => S754_finite s p (e - 150) | _ => S754_nan end.

(** [f32::total_cmp]: the order of the sign-magnitude bit patterns. *)
Definition total_key (a : f32) : Z :=
  let b := to_bits a in if b <? 2 ^ 31 then b else 2 ^ 31 - 1 - b.

Definition total_cmp (a b : f32) : comparison := Z.compare (total_key a) (total_key b).

Close Scope Z_scope.

Lemma total_cmp_flip a b : total_cmp b a = CompOpp (total_cmp a b).
Proof. apply Z.compare_antisym. Qed.

Lemma total_cmp_trans a b c :
  total_cmp a b ≠ Gt → total_cmp b c ≠ Gt → total_cmp a c ≠ Gt.
Proof. unfold total_cmp. rewrite !Z.compare_gt_iff. lia. Qed.

Example f32_literals :
  to_bits (lit 146 10) = 0x4169999A%Z ∧ to_bits (fadd (lit 1 10) (lit 2 10)) = 0x3E99999A%Z ∧
  to_bits (fopp (of_nat 17)) = 0xC1880000%Z ∧ from_bits 0xC1880000%Z = fopp (of_nat 17).
Proof. by vm_compute. Qed.

(** ** Canonical floats and the bit round trip *)

(** The floats the operations produce: a subnormal or a 24-bit mantissa. *)
Definition canonical (a : f32) : Prop :=
  match a with
  | S754_finite _ m e =>
      ((Z.pos m < 2 ^ 23 ∧ e = -149) ∨
       (2 ^ 23 ≤ Z.pos m < 2 ^ 24 ∧ -149 ≤ e ≤ 104))%Z
  | _ => True
  end.

(** The three fields of a bit pattern. *)
Lemma fields (s : bool) (e m : Z) :
  (0 ≤ e < 256 → 0 ≤ m < 2 ^ 23 →
   let b := pack s (e * 2 ^ 23 + m) in
   Z.testbit b 31 = s ∧ Z.land (Z.shiftr b 23) 255 = e ∧ Z.land b (2 ^ 23 - 1) = m)%Z.
Proof.
  intros He Hm b. subst b. unfold pack.
  assert (Hs : Z.testbit ((if s then 2 ^ 31 else 0) + (e * 2 ^ 23 + m)) 31 = s).
  { rewrite Z.testbit_eqb by lia.
    replace (((if s then 2 ^ 31 else 0) + (e * 2 ^ 23 + m)) `div` 2 ^ 31)%Z
      with (if s then 1 else 0)%Z; [by destruct s|].
    apply (Z.div_unique_pos _ _ _ (e * 2 ^ 23 + m)); destruct s; lia. }
  split_and!; [done| |].
  - change 255%Z with (Z.ones 8). rewrite Z.land_ones, Z.shiftr_div_pow2 by lia.
    rewrite <- (Z.div_unique_pos _ (2 ^ 23) ((if s then 256 else 0) + e) m) by (destruct s; lia).
    symmetry. apply (Z.mod_unique_pos _ _ (if s then 1 else 0)); destruct s; lia.
  - change (2 ^ 23 - 1)%Z with (Z.ones 23). rewrite Z.land_ones by lia.
    symmetry. apply (Z.mod_unique_pos _ _ ((if s then 256 else 0) + e)); destruct s; lia.
Qed.

Lemma from_bits_pack (s : bool) (e m : Z) :
  (0 ≤ e < 256 → 0 ≤ m < 2 ^ 23 →
   from_bits (pack s (e * 2 ^ 23 + m)) =
     if e =? 255 then (if m =? 0 then S754_infinity s else S754_nan)
     else if e =? 0 then
       match m with Z.pos p => S754_finite s p (-149) | _ => S754_zero s end
     else match m + 2 ^ 23 with Z.pos p => S754_finite s p (e - 150) | _ => S754_nan end)%Z.
Proof.
  intros He Hm. unfold from_bits. destruct (fields s e m He Hm) as (-> & -> & ->). done.
Qed.

(** Writing a float as its four bytes and reading it back is the identity. *)
Lemma from_bits_to_bits a : canonical a → from_bits (to_bits a) = a.
Proof.
  destruct a as [s|s| |s m e]; cbn [to_bits canonical].
  - intros _. by apply (from_bits_pack s 0 0).
  - intros _. replace (255 * 2 ^ 23)%Z with (255 * 2 ^ 23 + 0)%Z by lia.
    by rewrite from_bits_pack by lia.
  - intros _. by vm_compute.
  - intros [[Hm ->]|[Hm He]].
    + rewrite (proj2 (Z.ltb_lt _ _)) by done. by apply (from_bits_pack s 0 (Z.pos m)).
    + rewrite (proj2 (Z.ltb_ge _ _)) by lia.
      replace ((e + 149) * 2 ^ 23 + Z.pos m)%Z with ((e + 150) * 2 ^ 23 + (Z.pos m - 2 ^ 23))%Z by lia.
      rewrite from_bits_pack by lia.
      rewrite (proj2 (Z.eqb_neq (e + 150) 255)), (proj2 (Z.eqb_neq (e + 150) 0)) by lia.
      replace (Z.pos m - 2 ^ 23 + 2 ^ 23)%Z with (Z.pos m) by lia. f_equal. lia.
Qed.

Lemma to_bits_range a : canonical a → (0 ≤ to_bits a < 2 ^ 32)%Z.
Proof.
  unfold to_bits, pack. destruct a as [s|s| |s m e]; cbn [canonical]; intros Hc;
    try (destruct s; lia); [lia|].
  destruct (Z.ltb_spec (Z.pos m) (2 ^ 23)); destruct s; lia.
Qed.

Lemma from_bits_canonical b : canonical (from_bits b).
Proof.
  unfold from_bits. pose proof (Z.mod_pos_bound b (2 ^ 23) eq_refl) as Hm.
  change (2 ^ 23 - 1)%Z with (Z.ones 23). rewrite Z.land_ones by lia.
  change 255%Z with (Z.ones 8). rewrite Z.land_ones by lia.
  pose proof (Z.mod_pos_bound (Z.shiftr b 23) (2 ^ 8) eq_refl) as He.
  set (m := (b `mod` 2 ^ 23)%Z) in *. set (e := (Z.shiftr b 23 `mod` 2 ^ 8)%Z) in *.
  change (Z.ones 8) with 255%Z.
  destruct (Z.eqb_spec e 255); [by destruct (m =? 0)%Z|].
  destruct (Z.eqb_spec e 0); [destruct m; simpl; lia|].
  destruct (m + 2 ^ 23)%Z as [|p|p] eqn:Hp; simpl; lia.
Qed.
