(* ===== verification/DefaultTables.v ===== *)
(** * The default tables

    src/crates/converter/src/input/roman.rs (the romaji rules) and the tab
    separated rule files azik.tsv, kana_jis.tsv and kana_us.tsv of the same
    directory, with the constructors of table.rs that build the default tables
    from them. *)

From S2P Require Import Prelude Unicode InputTable.

(** The rows of [DEFAULT_ROMAN_TO_KANA], in two halves. *)
Definition ROMAN_TO_KANA_1 : list (string * string) := [
  ("a", "あ"); ("xa", "ぁ"); ("la", "ぁ"); ("i", "い"); ("xi", "ぃ"); ("li", "ぃ"); ("u", "う");
  ("wu", "う"); ("vu", "ゔ"); ("xu", "ぅ"); ("lu", "ぅ"); ("e", "え"); ("xe", "ぇ"); ("le", "ぇ");
  ("o", "お"); ("xo", "ぉ"); ("lo", "ぉ"); ("ka", "か"); ("ca", "か"); ("ga", "が"); ("xka", "ゕ");
  ("lka", "ゕ"); ("ki", "き"); ("gi", "ぎ"); ("ku", "く"); ("cu", "く"); ("gu", "ぐ");
  ("ke", "け"); ("ge", "げ"); ("xke", "ゖ"); ("lke", "ゖ"); ("ko", "こ"); ("co", "こ");
  ("go", "ご"); ("sa", "さ"); ("za", "ざ"); ("si", "し"); ("ci", "し"); ("shi", "し");
  ("zi", "じ"); ("ji", "じ"); ("su", "す"); ("zu", "ず"); ("se", "せ"); ("ce", "せ"); ("ze", "ぜ");
  ("so", "そ"); ("zo", "ぞ"); ("ta", "た"); ("da", "だ"); ("ti", "ち"); ("chi", "ち");
  ("di", "ぢ"); ("tu", "つ"); ("tsu", "つ"); ("xtu", "っ"); ("ltu", "っ"); ("xtsu", "っ");
  ("ltsu", "っ"); ("du", "づ"); ("te", "て"); ("de", "で"); ("to", "と"); ("do", "ど");
  ("na", "な"); ("ni", "に"); ("nu", "ぬ"); ("ne", "ね"); ("no", "の"); ("ha", "は"); ("ba", "ば");
  ("pa", "ぱ"); ("hi", "ひ"); ("bi", "び"); ("pi", "ぴ"); ("hu", "ふ"); ("fu", "ふ"); ("bu", "ぶ");
  ("pu", "ぷ"); ("he", "へ"); ("be", "べ"); ("pe", "ぺ"); ("ho", "ほ"); ("bo", "ぼ"); ("po", "ぽ");
  ("ma", "ま"); ("mi", "み"); ("mu", "む"); ("me", "め"); ("mo", "も"); ("ya", "や");
  ("xya", "ゃ"); ("lya", "ゃ"); ("yu", "ゆ"); ("xyu", "ゅ"); ("lyu", "ゅ"); ("yo", "よ");
  ("xyo", "ょ"); ("lyo", "ょ"); ("ra", "ら"); ("ri", "り"); ("ru", "る"); ("re", "れ");
  ("ro", "ろ"); ("wa", "わ"); ("xwa", "ゎ"); ("lwa", "ゎ"); ("wyi", "ゐ"); ("wye", "ゑ");
  ("wo", "を"); ("nn", "ん"); ("ye", "いぇ"); ("va", "ゔぁ"); ("vi", "ゔぃ"); ("ve", "ゔぇ");
  ("vo", "ゔぉ"); ("kya", "きゃ"); ("kyu", "きゅ"); ("kye", "きぇ"); ("kyo", "きょ"); ("gya", "ぎゃ");
  ("gyu", "ぎゅ"); ("gye", "ぎぇ"); ("gyo", "ぎょ"); ("qa", "くぁ"); ("kwa", "くぁ"); ("qwa", "くぁ");
  ("qi", "くぃ"); ("kwi", "くぃ"); ("qwi", "くぃ"); ("qu", "くぅ"); ("kwu", "くぅ"); ("qwu", "くぅ");
  ("qe", "くぇ"); ("kwe", "くぇ"); ("qwe", "くぇ"); ("qo", "くぉ"); ("kwo", "くぉ"); ("qwo", "くぉ");
  ("gwa", "ぐぁ"); ("gwi", "ぐぃ"); ("gwu", "ぐぅ"); ("gwe", "ぐぇ"); ("gwo", "ぐぉ"); ("sha", "しゃ");
  ("sya", "しゃ")
].

Definition ROMAN_TO_KANA_2 : list (string * string) := [
  ("shu", "しゅ"); ("syu", "しゅ"); ("she", "しぇ"); ("sye", "しぇ"); ("sho", "しょ"); ("syo", "しょ");
  ("ja", "じゃ"); ("zya", "じゃ"); ("jya", "じゃ"); ("jyi", "じぃ"); ("ju", "じゅ"); ("zyu", "じゅ");
  ("jyu", "じゅ"); ("je", "じぇ"); ("zye", "じぇ"); ("jye", "じぇ"); ("jo", "じょ"); ("zyo", "じょ");
  ("jyo", "じょ"); ("swa", "すぁ"); ("swi", "すぃ"); ("swu", "すぅ"); ("swe", "すぇ"); ("swo", "すぉ");
  ("cha", "ちゃ"); ("cya", "ちゃ"); ("tya", "ちゃ"); ("tyi", "ちぃ"); ("cyi", "ちぃ"); ("chu", "ちゅ");
  ("cyu", "ちゅ"); ("tyu", "ちゅ"); ("che", "ちぇ"); ("cye", "ちぇ"); ("tye", "ちぇ"); ("cho", "ちょ");
  ("cyo", "ちょ"); ("tyo", "ちょ"); ("tsa", "つぁ"); ("tsi", "つぃ"); ("tse", "つぇ"); ("tso", "つぉ");
  ("tha", "てゃ"); ("thi", "てぃ"); ("thu", "てゅ"); ("the", "てぇ"); ("tho", "てょ"); ("twa", "とぁ");
  ("twi", "とぃ"); ("twu", "とぅ"); ("twe", "とぇ"); ("two", "とぉ"); ("dya", "ぢゃ"); ("dyi", "ぢぃ");
  ("dyu", "ぢゅ"); ("dye", "ぢぇ"); ("dyo", "ぢょ"); ("dha", "でゃ"); ("dhi", "でぃ"); ("dhu", "でゅ");
  ("dhe", "でぇ"); ("dho", "でょ"); ("dwa", "どぁ"); ("dwi", "どぃ"); ("dwu", "どぅ"); ("dwe", "どぇ");
  ("dwo", "どぉ"); ("nya", "にゃ"); ("nyi", "にぃ"); ("nyu", "にゅ"); ("nye", "にぇ"); ("nyo", "にょ");
  ("hya", "ひゃ"); ("hyi", "ひぃ"); ("hyu", "ひゅ"); ("hye", "ひぇ"); ("hyo", "ひょ"); ("bya", "びゃ");
  ("byi", "びぃ"); ("byu", "びゅ"); ("bye", "びぇ"); ("byo", "びょ"); ("pya", "ぴゃ"); ("pyi", "ぴぃ");
  ("pyu", "ぴゅ"); ("pye", "ぴぇ"); ("pyo", "ぴょ"); ("fa", "ふぁ"); ("hwa", "ふぁ"); ("fwa", "ふぁ");
  ("fi", "ふぃ"); ("hwi", "ふぃ"); ("fwi", "ふぃ"); ("fwu", "ふぅ"); ("fe", "ふぇ"); ("hwe", "ふぇ");
  ("fwe", "ふぇ"); ("fo", "ふぉ"); ("hwo", "ふぉ"); ("fwo", "ふぉ"); ("fya", "ふゃ"); ("fyu", "ふゅ");
  ("fyo", "ふょ"); ("mya", "みゃ"); ("myi", "みぃ"); ("myu", "みゅ"); ("mye", "みぇ"); ("myo", "みょ");
  ("rya", "りゃ"); ("ryi", "りぃ"); ("ryu", "りゅ"); ("rye", "りぇ"); ("ryo", "りょ"); ("wi", "うぃ");
  ("we", "うぇ"); ("wha", "うぁ"); ("whi", "うぃ"); ("whu", "う"); ("whe", "うぇ"); ("who", "うぉ");
  ("bb", "っb"); ("cc", "っc"); ("dd", "っd"); ("ff", "っf"); ("gg", "っg"); ("hh", "っh");
  ("jj", "っj"); ("kk", "っk"); ("ll", "っl"); ("mm", "っm"); ("pp", "っp"); ("qq", "っq");
  ("rr", "っr"); ("ss", "っs"); ("tt", "っt"); ("vv", "っv"); ("ww", "っw"); ("xx", "っx");
  ("yy", "っy"); ("zz", "っz"); ("ny", "ny"); ("xn", "ん"); ("zh", "←"); ("zj", "↓");
  ("zk", "↑"); ("zl", "→")
].

Definition DEFAULT_ROMAN_TO_KANA : list (string * string) := ROMAN_TO_KANA_1 ++ ROMAN_TO_KANA_2.

(** The contents of the rule files ([include_str!]). *)
Definition azik_tsv : string := "a	あ
i	い
u	う
e	え
o	お
ka	か
ki	き
ku	く
ke	け
ko	こ
sa	さ
si	し
su	す
se	せ
so	そ
ta	た
ti	ち
tu	つ
te	て
to	と
na	な
ni	に
nu	ぬ
ne	ね
no	の
ha	は
hi	ひ
hu	ふ
he	へ
ho	ほ
ma	ま
mi	み
mu	む
me	め
mo	も
ya	や
yu	ゆ
yo	よ
ra	ら
ri	り
ru	る
re	れ
ro	ろ
wa	わ
wi	うぃ
we	うぇ
wo	を
ga	が
gi	ぎ
gu	ぐ
ge	げ
go	ご
za	ざ
zi	じ
zu	ず
ze	ぜ
zo	ぞ
da	だ
di	ぢ
du	づ
de	で
do	ど
ba	ば
bi	び
bu	ぶ
be	べ
bo	ぼ
pa	ぱ
pi	ぴ
pu	ぷ
pe	ぺ
po	ぽ
kya	きゃ
kyu	きゅ
kye	きぇ
kyo	きょ
kga	きゃ
kgu	きゅ
kge	きぇ
kgo	きょ
sya	しゃ
syu	しゅ
sye	しぇ
syo	しょ
xa	しゃ
xu	しゅ
xe	しぇ
xo	しょ
tya	ちゃ
tyu	ちゅ
tye	ちぇ
tyo	ちょ
ca	ちゃ
cu	ちゅ
ce	ちぇ
co	ちょ
nya	にゃ
nyu	にゅ
nye	にぇ
nyo	にょ
nga	にゃ
ngu	にゅ
nge	にぇ
ngo	にょ
hya	ひゃ
hyu	ひゅ
hye	ひぇ
hyo	ひょ
hga	ひゃ
hgu	ひゅ
hge	ひぇ
hgo	ひょ
mya	みゃ
myu	みゅ
mye	みぇ
myo	みょ
mga	みゃ
mgu	みゅ
mge	みぇ
mgo	みょ
rya	りゃ
ryu	りゅ
rye	りぇ
ryo	りょ
gya	ぎゃ
gyu	ぎゅ
gye	ぎぇ
gyo	ぎょ
zya	じゃ
zyu	じゅ
zye	じぇ
zyo	じょ
ja	じゃ
ju	じゅ
je	じぇ
jo	じょ
bya	びゃ
byu	びゅ
bye	びぇ
byo	びょ
pya	ぴゃ
pyu	ぴゅ
pye	ぴぇ
pyo	ぴょ
pga	ぴゃ
pgu	ぴゅ
pge	ぴぇ
pgo	ぴょ
fa	ふぁ
fi	ふぃ
fu	ふ
fe	ふぇ
fo	ふぉ
va	ヴぁ
vi	ヴぃ
vu	ヴ
ve	ヴぇ
vo	ヴぉ
tgi	てぃ
tgu	とぅ
dci	でぃ
dcu	どぅ
wso	うぉ
la	ぁ
li	ぃ
lu	ぅ
le	ぇ
lo	ぉ
lya	ゃ
lyu	ゅ
lyo	ょ
；	っ
q	ん
nn	ん
：	ー
z。	…
z、	‥
zー	〜
z「	『
z」	』
kz	かん
kn	かん
kk	きん
kj	くん
kd	けん
kl	こん
sz	さん
sn	さん
sk	しん
sj	すん
sd	せん
sl	そん
tz	たん
tn	たん
tk	ちん
tj	つん
td	てん
tl	とん
nz	なん
nk	にん
nj	ぬん
nd	ねん
nl	のん
hz	はん
hn	はん
hk	ひん
hj	ふん
hd	へん
hl	ほん
mz	まん
mk	みん
mj	むん
md	めん
ml	もん
yz	やん
yn	やん
yj	ゆん
yl	よん
rz	らん
rn	らん
rk	りん
rj	るん
rd	れん
rl	ろん
wz	わん
wn	わん
wk	うぃん
wd	うぇん
wl	うぉん
gz	がん
gn	がん
gk	ぎん
gj	ぐん
gd	げん
gl	ごん
zz	ざん
zn	ざん
zk	じん
zj	ずん
zd	ぜん
zl	ぞん
dz	だん
dn	だん
dk	ぢん
dj	づん
dd	でん
dl	どん
bz	ばん
bn	ばん
bk	びん
bj	ぶん
bd	べん
bl	ぼん
pz	ぱん
pn	ぱん
pk	ぴん
pj	ぷん
pd	ぺん
pl	ぽん
kyz	きゃん
kyn	きゃん
kyj	きゅん
kyd	きぇん
kyl	きょん
kgz	きゃん
kgn	きゃん
kgj	きゅん
kgd	きぇん
kgl	きょん
syz	しゃん
syn	しゃん
syj	しゅん
syd	しぇん
syl	しょん
xz	しゃん
xn	しゃん
xj	しゅん
xd	しぇん
xl	しょん
tyz	ちゃん
tyn	ちゃん
tyj	ちゅん
tyd	ちぇん
tyl	ちょん
cz	ちゃん
cn	ちゃん
cj	ちゅん
cd	ちぇん
cl	ちょん
nyz	にゃん
nyn	にゃん
nyj	にゅん
nyd	にぇん
nyl	にょん
ngz	にゃん
ngn	にゃん
ngj	にゅん
ngd	にぇん
ngl	にょん
hyz	ひゃん
hyn	ひゃん
hyj	ひゅん
hyd	ひぇん
hyl	ひょん
hgz	ひゃん
hgn	ひゃん
hgj	ひゅん
hgd	ひぇん
hgl	ひょん
myz	みゃん
myn	みゃん
myj	みゅん
myd	みぇん
myl	みょん
mgz	みゃん
mgn	みゃん
mgj	みゅん
mgd	みぇん
mgl	みょん
ryz	りゃん
ryn	りゃん
ryj	りゅん
ryd	りぇん
ryl	りょん
gyz	ぎゃん
gyn	ぎゃん
gyj	ぎゅん
gyd	ぎぇん
gyl	ぎょん
zyz	じゃん
zyn	じゃん
zyj	じゅん
zyd	じぇん
zyl	じょん
jz	じゃん
jn	じゃん
jj	じゅん
jd	じぇん
jl	じょん
byz	びゃん
byn	びゃん
byj	びゅん
byd	びぇん
byl	びょん
pyz	ぴゃん
pyn	ぴゃん
pyj	ぴゅん
pyd	ぴぇん
pyl	ぴょん
pgz	ぴゃん
pgn	ぴゃん
pgj	ぴゅん
pgd	ぴぇん
pgl	ぴょん
fz	ふぁん
fn	ふぁん
fk	ふぃん
fj	ふん
fd	ふぇん
fl	ふぉん
vz	ゔぁん
vn	ゔぁん
vk	ゔぃん
vj	ゔん
vd	ゔぇん
vl	ゔぉん
tgk	てぃん
tgj	とぅん
dck	でぃん
dcj	どぅん
lz	ぁん
ln	ぁん
lk	ぃん
ld	ぇん
ll	ぉん
lyz	ゃん
lyn	ゃん
lyj	ゅん
lyl	ょん
kq	かい
kh	くう
kw	けい
kp	こう
sq	さい
sh	すう
sw	せい
sp	そう
tq	たい
th	つう
tw	てい
tp	とう
nq	ない
nh	ぬう
nw	ねい
np	のう
hq	はい
hh	ふう
hw	へい
hp	ほう
mq	まい
mh	むう
mw	めい
mp	もう
yq	やい
yh	ゆう
yp	よう
rq	らい
rh	るう
rw	れい
rp	ろう
gq	がい
gh	ぐう
gw	げい
gp	ごう
zq	ざい
zh	ずう
zw	ぜい
zp	ぞう
dq	だい
dh	づう
dw	でい
dp	どう
bq	ばい
bh	ぶう
bw	べい
bp	ぼう
pq	ぱい
ph	ぷう
pw	ぺい
pp	ぽう
kyq	きゃい
kyh	きゅう
kyw	きぇい
kyp	きょう
kgq	きゃい
kgh	きゅう
kgw	きぇい
kgp	きょう
syq	しゃい
syh	しゅう
syw	しぇい
syp	しょう
xq	しゃい
xh	しゅう
xw	しぇい
xp	しょう
tyq	ちゃい
tyh	ちゅう
tyw	ちぇい
typ	ちょう
cq	ちゃい
ch	ちゅう
cw	ちぇい
cp	ちょう
nyq	にゃい
nyh	にゅう
nyw	にぇい
nyp	にょう
ngq	にゃい
ngh	にゅう
ngw	にぇい
ngp	にょう
hyq	ひゃい
hyh	ひゅう
hyw	ひぇい
hyp	ひょう
hgq	ひゃい
hgh	ひゅう
hgw	ひぇい
hgp	ひょう
myq	みゃい
myh	みゅう
myw	みぇい
myp	みょう
mgq	みゃい
mgh	みゅう
mgw	みぇい
mgp	みょう
ryq	りゃい
ryh	りゅう
ryw	りぇい
ryp	りょう
gyq	ぎゃい
gyh	ぎゅう
gyw	ぎぇい
gyp	ぎょう
zyq	じゃい
zyh	じゅう
zyw	じぇい
zyp	じょう
jq	じゃい
jh	じゅう
jw	じぇい
jp	じょう
byq	びゃい
byh	びゅう
byw	びぇい
byp	びょう
pyq	ぴゃい
pyh	ぴゅう
pyw	ぴぇい
pyp	ぴょう
pgq	ぴゃい
pgh	ぴゅう
pgw	ぴぇい
pgp	ぴょう
fq	ふぁい
fh	ふう
fw	ふぇい
fp	ふぉー
vq	ゔぁい
vh	ゔー
vw	ゔぇい
vp	ゔぉー
tgh	とぅー
dch	どぅー
wq	わい
ww	うぇい
wp	うぉー
lq	ぁい
lh	ぅう
lw	ぇい
lp	ぉう
lyq	ゃい
lyh	ゅう
lyp	ょう
kf	き
jf	じゅ
hf	ふ
yf	ゆ
mf	む
nf	ぬ
df	で
cf	ちぇ
pf	ぽん
wf	わい
sf	さい
ss	せい
zc	ざ
zv	ざい
zf	ぜ
zx	ぜい
kt	こと
wt	わた
km	かも
sr	する
rr	られ
nb	ねば
nt	にち
st	した
mn	もの
tm	ため
tr	たら
zr	ざる
bt	びと
dt	だち
tt	たち
ms	ます
dm	でも
nr	なる
mt	また
gr	がら
wr	われ
ht	ひと
ds	です
kr	から
yr	よる
tb	たび
gt	ごと
".

Definition kana_jis_tsv : string := "1	ぬ
2	ふ
3	あ
4	う
5	え
6	お
7	や
8	ゆ
9	よ
0	わ
＃	ぁ
＄	ぅ
％	ぇ
＆	ぉ
’	ゃ
（	ゅ
）	ょ
q	た
w	て
e	い
r	す
t	か
y	ん
u	な
i	に
o	ら
p	せ
Q	た
W	て
R	す
T	か
Y	ん
U	な
I	に
O	ら
P	せ
E	ぃ
a	ち
s	と
d	し
f	は
g	き
h	く
j	ま
k	の
l	り
A	ち
S	と
D	し
F	は
G	き
H	く
J	ま
K	の
L	り
z	つ
x	さ
c	そ
v	ひ
b	こ
n	み
m	も
X	さ
C	そ
V	ひ
B	こ
N	み
M	も
Z	っ
ー	ほ
＾	へ
！	ぬ
；	れ
：	け
＋	れ
＝	ほ
、	ね
。	る
・	め
＿	ろ
」	む
”	ふ
〜	へ
＊	け
｜	ー
￥	ー
＼	ー
｀	゛
『	「
』	」
＜	、
＞	。
？	・
＠	゛
う＠	ゔ
か＠	が
き＠	ぎ
く＠	ぐ
け＠	げ
こ＠	ご
さ＠	ざ
し＠	じ
す＠	ず
せ＠	ぜ
そ＠	ぞ
た＠	だ
ち＠	ぢ
つ＠	づ
て＠	で
と＠	ど
は＠	ば
ひ＠	び
ふ＠	ぶ
へ＠	べ
ほ＠	ぼ
「	゜
は「	ぱ
ひ「	ぴ
ふ「	ぷ
へ「	ぺ
ほ「	ぽ
".

Definition kana_us_tsv : string := "1	ぬ
2	ふ
3	あ
4	う
5	え
6	お
7	や
8	ゆ
9	よ
0	わ
！	ぬ
＠	ふ
＃	ぁ
＄	ぅ
％	ぇ
＾	ぉ
＆	ゃ
＊	ゅ
（	ょ
）	を
q	た
w	て
e	い
r	す
t	か
y	ん
u	な
i	に
o	ら
p	せ
Q	た
W	て
R	す
T	か
Y	ん
U	な
I	に
O	ら
P	せ
』	ー
」	む
￥	へ
＼	へ
E	ぃ
a	ち
s	と
d	し
f	は
g	き
h	く
j	ま
k	の
l	り
A	ち
S	と
D	し
F	は
G	き
H	く
J	ま
K	の
L	り
z	つ
x	さ
c	そ
v	ひ
b	こ
n	み
m	も
X	さ
C	そ
V	ひ
B	こ
N	み
M	も
Z	っ
ー	ほ
；	れ
’	け
、	ね
。	る
・	め
”	ろ
＿	ほ
：	れ
＋	「
『	」
＜	、
＞	。
？	・
「	゛
う「	ゔ
か「	が
き「	ぎ
く「	ぐ
け「	げ
こ「	ご
さ「	ざ
し「	じ
す「	ず
せ「	ぜ
そ「	ぞ
た「	だ
ち「	ぢ
つ「	づ
て「	で
と「	ど
は「	ば
ひ「	び
ふ「	ぶ
へ「	べ
ほ「	ぼ
＝	゜
は＝	ぱ
ひ＝	ぴ
ふ＝	ぷ
へ＝	ぺ
ほ＝	ぽ
".

Section tables.
Context `{Segmentation}.

Definition char_key (k : ustring) : list KeyElement :=
  (λ g, Piece (Character g)) <$> graphemes k.
Definition char_value (v : ustring) : list ValueElement := VCharacter <$> graphemes v.

(** [simple_tsv_entries] *)
Definition simple_tsv_entries (source : ustring) : list (list KeyElement * list ValueElement) :=
  (λ kv, (char_key kv.1, char_value kv.2)) <$> omap (Text.split_once 9%N) (Text.lines source).

Definition ch (s : string) : KeyElement := Piece (Character (u s)).

Definition default_roman_to_kana : InputTable :=
  table_new
    (((λ kv, (char_key (u kv.1), char_value (u kv.2))) <$> DEFAULT_ROMAN_TO_KANA) ++
     [ ([Piece CompositionSeparator], []);
       ([ch "n"; Piece CompositionSeparator], [VCharacter (u "ん")]);
       ([ch "n"; AnyKey], [VCharacter (u "ん"); VAny]) ]).

Definition default_azik : InputTable :=
  table_new (simple_tsv_entries (u azik_tsv) ++ [([Piece CompositionSeparator], [])]).

Definition default_kana_jis : InputTable :=
  table_new (simple_tsv_entries (u kana_jis_tsv) ++
     [ ([Piece CompositionSeparator], []);
       ([Piece (Key (Some (u "0")) (u "0") {[ Shift ]})], [VCharacter (u "を")]) ]).

Definition default_kana_us : InputTable :=
  table_new (simple_tsv_entries (u kana_us_tsv) ++ [([Piece CompositionSeparator], [])]).
End tables.

(** The default tables under the one-scalar-per-cluster segmentation; no row of
    the rule files holds a combining sequence. *)
Definition roman_table : InputTable := Eval vm_compute in @default_roman_to_kana scalar_clusters.
Definition azik_table : InputTable := Eval vm_compute in @default_azik scalar_clusters.
Definition kana_jis_table : InputTable := Eval vm_compute in @default_kana_jis scalar_clusters.
Definition kana_us_table : InputTable := Eval vm_compute in @default_kana_us scalar_clusters.

(** Large constants: only the virtual machine unfolds them. *)
#[global] Opaque roman_table azik_table kana_jis_table kana_us_table.

Definition type_text (t : InputTable) (s : string) : option ustring :=
  (λ b : list Grapheme, concat b) <$> type_pieces t ((λ c, Character [c]) <$> u s).

Example types_roman :
  type_text roman_table "kyouhaame" = Some (u "きょうはあめ") ∧
  type_text roman_table "nya" = Some (u "にゃ") ∧ type_text roman_table "nba" = Some (u "んば").
Proof. by vm_compute. Qed.

Example types_azik : type_text azik_table "szzz" = Some (u "さんざん").
Proof. by vm_compute. Qed.

(** ** Every row of the rule sets types its value *)

Definition rows_type (t : InputTable) (rows : list (list KeyElement * list ValueElement)) : bool :=
  forallb (λ row,
    match mapM (λ e, match e with Piece p => Some p | AnyKey => None end) row.1,
          mapM (λ v, match v with VCharacter g => Some g | VAny => None end) row.2 with
    | Some ps, Some gs => bool_decide (type_pieces t ps = Some gs)
    | _, _ => false
    end) rows.

Lemma mapM_char_key (k : list Grapheme) :
  mapM (λ e, match e with Piece p => Some p | AnyKey => None end)
    ((λ g, Piece (Character g)) <$> k) = Some (Character <$> k).
Proof. induction k as [|g k IH]; [done|]. rewrite fmap_cons. simpl. by rewrite IH. Qed.

Lemma mapM_char_value (v : list Grapheme) :
  mapM (λ e, match e with VCharacter g => Some g | VAny => None end) (VCharacter <$> v) = Some v.
Proof. induction v as [|g v IH]; [done|]. rewrite fmap_cons. simpl. by rewrite IH. Qed.

Lemma rows_type_row t rows (k v : list Grapheme) :
  rows_type t rows = true →
  ((λ g, Piece (Character g)) <$> k, VCharacter <$> v) ∈ rows →
  type_pieces t (Character <$> k) = Some v.
Proof.
  unfold rows_type. rewrite forallb_forall. intros H Hin%list_elem_of_In%H.
  cbn [fst snd] in Hin. rewrite mapM_char_key, mapM_char_value in Hin.
  by apply bool_decide_eq_true in Hin.
Qed.

(** The rows of the four default rule sets. *)
Definition default_rows : list (InputTable * list (ustring * ustring)) :=
  let tsv s := omap (Text.split_once 9%N) (Text.lines (u s)) in
  [ (@default_roman_to_kana scalar_clusters, (λ kv, (u kv.1, u kv.2)) <$> DEFAULT_ROMAN_TO_KANA);
    (@default_azik scalar_clusters, tsv azik_tsv);
    (@default_kana_jis scalar_clusters, tsv kana_jis_tsv);
    (@default_kana_us scalar_clusters, tsv kana_us_tsv) ].

Definition clusters (s : ustring) : list Grapheme := (λ c, [c]) <$> s.

(** Typing the characters of the key of any row of the four default rule
    sets into an empty buffer leaves exactly the value of that row: no row is
    shadowed by another one or broken by the rules its own prefixes trigger. *)
Theorem default_rows_type t rows k v :
  (t, rows) ∈ default_rows → (k, v) ∈ rows →
  type_pieces t (Character <$> clusters k) = Some (clusters v).
Proof.
  assert (forallb (λ tr, rows_type tr.1
    ((λ kv : ustring * ustring, ((λ g, Piece (Character g)) <$> clusters kv.1,
                                VCharacter <$> clusters kv.2)) <$> tr.2)) default_rows = true)
    as Hall by (by vm_compute).
  rewrite forallb_forall in Hall. intros Htr%list_elem_of_In%Hall Hkv.
  apply (rows_type_row _ _ _ _ Htr), list_elem_of_fmap. by exists (k, v).
Qed.

Lemma default_rows_type_witness :
  type_pieces (@default_roman_to_kana scalar_clusters) (Character <$> clusters (u "ltsu")) =
    Some (clusters (u "っ")).
Proof.
  eapply default_rows_type; [apply list_elem_of_lookup_2 with (i := 0); reflexivity|].
  apply list_elem_of_lookup_2 with (i := 58). vm_compute. reflexivity.
Defined.
