(* ===== verification/CustomTsv.v ===== *)
(** * Custom input tables

    src/crates/converter/src/input/custom.rs: the tab separated text form of an
    input table, its reader, its writer, and the check that reports the lines a
    user should correct. *)

From S2P Require Import Prelude Unicode InputTable DefaultTables.

Definition COMPOSITION_SEPARATOR : ustring := Eval vm_compute in u "composition-separator".
Definition ANY_CHARACTER : ustring := Eval vm_compute in u "any character".
Definition LEFT_BRACKET : ustring := Eval vm_compute in u "lbracket".
Definition RIGHT_BRACKET : ustring := Eval vm_compute in u "rbracket".
Definition SHIFT_ZERO : ustring := Eval vm_compute in u "shift 0".
Definition SHIFT_UNDERSCORE : ustring := Eval vm_compute in u "shift _".

Definition TAB : char := 9%N.
Definition NEWLINE : char := 10%N.
Definition RETURN : char := 13%N.
Definition OPEN : char := 123%N.
Definition CLOSE : char := 125%N.

(** ** Data *)

Inductive FormatSide := SideKey | SideValue.

Inductive FormatErrorKind :=
  | InvalidTabCount (found : nat)
  | UnknownBraceToken (token : ustring) (side : FormatSide)
  | UnclosedBrace
  | ShiftTokenNotAtTail (token : ustring)
  | DuplicateRule (first_defined_at : nat).

Record FormatError := { error_line : nat; error_kind : FormatErrorKind }.

Inductive FormatReport := FullyValid | InvalidLines (errors : list FormatError).

Definition InputTableExportError : Type := KeyElement.

(** ** Reading *)

Definition shifted_key (value : Grapheme) : InputPiece := Key (Some value) value {[ Shift ]}.

Definition key_token (token : ustring) : option KeyElement :=
  if decide (token = COMPOSITION_SEPARATOR) then Some (Piece CompositionSeparator)
  else if decide (token = ANY_CHARACTER) then Some AnyKey
  else if decide (token = LEFT_BRACKET) then Some (Piece (Character [OPEN]))
  else if decide (token = RIGHT_BRACKET) then Some (Piece (Character [CLOSE]))
  else if decide (token = SHIFT_ZERO) then Some (Piece (shifted_key (u "0")))
  else if decide (token = SHIFT_UNDERSCORE) then Some (Piece (shifted_key (u "_")))
  else None.

Definition value_token (token : ustring) : option ValueElement :=
  if decide (token = ANY_CHARACTER) then Some VAny
  else if decide (token = LEFT_BRACKET) then Some (VCharacter [OPEN])
  else if decide (token = RIGHT_BRACKET) then Some (VCharacter [CLOSE])
  else None.

Section custom.
Context `{Segmentation}.

(** [strip_prefix('{')], [find('}')] and the token between them. *)
Definition brace_token {T} (parse_token : ustring → option T) (remaining : ustring) :
    option (T * ustring) :=
  match remaining with
  | c :: rest =>
      if decide (c = OPEN) then
        '(token, rest) ← Text.split_once CLOSE rest;
        element ← parse_token token;
        Some (element, rest)
      else None
  | [] => None
  end.

(** The loop of [parse_elements]; [None] stands for the [expect] on an empty
    segmentation and for the fuel, one unit per character. *)
Fixpoint parse_loop {T} (parse_token : ustring → option T) (parse_grapheme : Grapheme → T)
    (fuel : nat) (remaining : ustring) : option (list T) :=
  match remaining with
  | [] => Some []
  | _ =>
      match fuel with
      | 0 => None
      | S fuel =>
          match brace_token parse_token remaining with
          | Some (element, rest) =>
              elements ← parse_loop parse_token parse_grapheme fuel rest;
              Some (element :: elements)
          | None =>
              g ← head (graphemes remaining);
              elements ← parse_loop parse_token parse_grapheme fuel (drop (length g) remaining);
              Some (parse_grapheme g :: elements)
          end
      end
  end.

Definition parse_elements {T} (parse_token : ustring → option T) (parse_grapheme : Grapheme → T)
    (value : ustring) : option (list T) :=
  parse_loop parse_token parse_grapheme (length value) value.

Definition parse_key (value : ustring) : option (list KeyElement) :=
  parse_elements key_token (λ g, Piece (Character g)) value.

Definition parse_value (value : ustring) : option (list ValueElement) :=
  parse_elements value_token VCharacter value.

(** What a line contributes to the table. *)
Definition parse_line (line : ustring) :
    option (list (list KeyElement * list ValueElement)) :=
  if Text.is_blank line then Some []
  else
    match filter (λ c, c ≠ []) (Text.split_on TAB line) with
    | k :: v :: _ => k ← parse_key k; v ← parse_value v; Some [(k, v)]
    | _ => Some []
    end.

(** [InputTable::from_custom_tsv] *)
Definition from_custom_tsv (content : ustring) : option InputTable :=
  entries ← mapM parse_line (Text.lines content);
  Some (table_new (concat entries)).

(** ** Writing *)

Definition braced (token : ustring) : ustring := OPEN :: token ++ [CLOSE].

Definition encode_character (value : Grapheme) : ustring :=
  if decide (value = [OPEN]) then braced LEFT_BRACKET
  else if decide (value = [CLOSE]) then braced RIGHT_BRACKET
  else value.

Definition encode_key (element : KeyElement) : result InputTableExportError ustring :=
  match element with
  | Piece (Character value) => Ok (encode_character value)
  | Piece CompositionSeparator => Ok (braced COMPOSITION_SEPARATOR)
  | AnyKey => Ok (braced ANY_CHARACTER)
  | Piece p =>
      if decide (p = shifted_key (u "0")) then Ok (braced SHIFT_ZERO)
      else if decide (p = shifted_key (u "_")) then Ok (braced SHIFT_UNDERSCORE)
      else Err element
  end.

Definition encode_value (element : ValueElement) : ustring :=
  match element with VCharacter value => encode_character value | VAny => braced ANY_CHARACTER end.

(** [collect::<Result<_, _>>()] *)
Fixpoint collect_results {E A B} (f : A → result E B) (l : list A) : result E (list B) :=
  match l with
  | [] => Ok []
  | x :: l' => match f x with
               | Ok y => match collect_results f l' with Ok ys => Ok (y :: ys) | Err e => Err e end
               | Err e => Err e
               end
  end.

Definition encode_keys (k : list KeyElement) : result InputTableExportError ustring :=
  match collect_results encode_key k with Ok parts => Ok (concat parts) | Err e => Err e end.

Definition encode_line (entry : list KeyElement * list ValueElement) :
    result InputTableExportError ustring :=
  match encode_keys entry.1 with
  | Ok k => Ok (k ++ TAB :: (entry.2 ≫= encode_value))
  | Err e => Err e
  end.

(** [lines.join("\n")] *)
Fixpoint join (separator : char) (ls : list ustring) : ustring :=
  match ls with
  | [] => []
  | [l] => l
  | l :: ls' => l ++ separator :: join separator ls'
  end.

(** [InputTable::to_custom_tsv] *)
Definition to_custom_tsv (t : InputTable) : result InputTableExportError ustring :=
  match collect_results encode_line (entries_of t) with
  | Ok ls => Ok (join NEWLINE ls)
  | Err e => Err e
  end.

(** ** Checking *)

Definition known_tokens (side : FormatSide) : list ustring :=
  match side with
  | SideKey => [COMPOSITION_SEPARATOR; ANY_CHARACTER; LEFT_BRACKET; RIGHT_BRACKET; SHIFT_ZERO;
                SHIFT_UNDERSCORE]
  | SideValue => [ANY_CHARACTER; LEFT_BRACKET; RIGHT_BRACKET]
  end.

(** The loop of [scan_tokens]: the errors and the first misplaced shift token;
    each round consumes a character, so the length of the text is fuel enough. *)
Fixpoint scan_loop (fuel : nat) (side : FormatSide) (line : nat) (remaining : ustring)
    (errors : list FormatError) (not_at_tail : option ustring) :
    list FormatError * option ustring :=
  match fuel with
  | 0 => (errors, not_at_tail)
  | S fuel =>
      match Text.split_once OPEN remaining with
      | None => (errors, not_at_tail)
      | Some (_, remaining) =>
          match Text.split_once CLOSE remaining with
          | None => (errors ++ [ {| error_line := line; error_kind := UnclosedBrace |} ], not_at_tail)
          | Some (token, rest) =>
              if decide (OPEN ∈ token) then
                scan_loop fuel side line rest
                  (errors ++ [ {| error_line := line; error_kind := UnclosedBrace |} ]) not_at_tail
              else
                let errors :=
                  if decide (token ∈ known_tokens side) then errors
                  else errors ++ [ {| error_line := line;
                                      error_kind := UnknownBraceToken token side |} ] in
                let not_at_tail :=
                  match side, not_at_tail with
                  | SideKey, None =>
                      if decide (token ∈ [SHIFT_ZERO; SHIFT_UNDERSCORE] ∧ rest ≠ [])
                      then Some token else None
                  | _, _ => not_at_tail
                  end in
                scan_loop fuel side line rest errors not_at_tail
          end
      end
  end.

Definition scan_tokens (value : ustring) (side : FormatSide) (line : nat)
    (errors : list FormatError) : list FormatError * option ustring :=
  scan_loop (S (length value)) side line value errors None.

Definition tab_count (line : ustring) : nat := length (filter (λ c, c = TAB) line).

(** One line of [check_custom_tsv]; the state is the errors and the keys seen,
    with the lines that define them. *)
Definition check_line (st : list FormatError * list (list KeyElement * nat))
    (numbered : nat * ustring) : option (list FormatError * list (list KeyElement * nat)) :=
  let '(errors, first_seen) := st in
  let '(line_number, line) := numbered in
  if Text.is_blank line then Some st
  else
    let errors :=
      if decide (tab_count line = 1) then errors
      else errors ++ [ {| error_line := line_number;
                          error_kind := InvalidTabCount (tab_count line) |} ] in
    match Text.split_once TAB line with
    | None => Some (errors, first_seen)
    | Some (k, v) =>
        let '(errors, not_at_tail) := scan_tokens k SideKey line_number errors in
        let '(errors, _) := scan_tokens v SideValue line_number errors in
        let errors :=
          match not_at_tail with
          | Some token => errors ++ [ {| error_line := line_number;
                                         error_kind := ShiftTokenNotAtTail token |} ]
          | None => errors
          end in
        parsed ← parse_key k;
        match list_find (λ s, s.1 = parsed) first_seen with
        | Some (_, (_, first_defined_at)) =>
            Some (errors ++ [ {| error_line := line_number;
                                 error_kind := DuplicateRule first_defined_at |} ], first_seen)
        | None => Some (errors, first_seen ++ [(parsed, line_number)])
        end
    end.

(** [InputTable::check_custom_tsv] *)
Definition check_custom_tsv (content : ustring) : option FormatReport :=
  st ← foldl (λ st l, st ← st; check_line st l) (Some ([], []))
         (imap pair (Text.split_on NEWLINE content));
  Some match st.1 with [] => FullyValid | errors => InvalidLines errors end.
End custom.

(** ** Reading is total *)

Lemma split_once_length c s l r : Text.split_once c s = Some (l, r) → length r < length s.
Proof.
  revert l r. induction s as [|x s IH]; intros l r; cbn [Text.split_once]; [done|].
  destruct (x =? c)%N; [intros [= <- <-]; simpl; lia|].
  destruct (Text.split_once c s) as [[l' r']|]; [|done]. intros [= <- <-].
  specialize (IH _ _ eq_refl). simpl. lia.
Qed.

Lemma brace_token_length {T} (pt : ustring → option T) s e r :
  brace_token pt s = Some (e, r) → length r < length s.
Proof.
  destruct s as [|c s]; [done|]. cbn [brace_token]. case_decide; [|done].
  destruct (Text.split_once CLOSE s) as [[tok rest]|] eqn:Hs; [|done]. cbn.
  destruct (pt tok); [|done]. cbn. intros [= <- <-]. apply split_once_length in Hs. simpl. lia.
Qed.

Section total.
Context `{SegmentationLaws}.

Lemma head_grapheme s : s ≠ [] → ∃ g, head (graphemes s) = Some g ∧ g ≠ [].
Proof.
  intros Hs. pose proof (graphemes_concat s) as Hc. pose proof (graphemes_nonempty s) as Hn.
  destruct (graphemes s) as [|g gs]; [by subst|]. exists g. split; [done|].
  intros ->. apply Hn, elem_of_cons. by left.
Qed.

Lemma parse_loop_total {T} (pt : ustring → option T) pg fuel s :
  length s ≤ fuel → ∃ es, parse_loop pt pg fuel s = Some es.
Proof.
  revert s. induction fuel as [|fuel IH]; intros [|c s] Hlen; try by exists []; simpl in Hlen; try lia.
  cbn [parse_loop]. destruct (brace_token pt (c :: s)) as [[e r]|] eqn:Hb.
  - apply brace_token_length in Hb. destruct (IH r) as [es ->]; [simpl in *; lia|]. by eexists.
  - destruct (head_grapheme (c :: s)) as (g & -> & Hg); [done|]. cbn [mbind option_bind].
    destruct (IH (drop (length g) (c :: s))) as [es ->]; [|by eexists].
    rewrite length_drop. destruct g; [done|]. simpl in *. lia.
Qed.

Lemma parse_line_total line : ∃ es, parse_line line = Some es.
Proof.
  unfold parse_line. destruct (Text.is_blank line); [by eexists|].
  destruct (filter _ _) as [|k [|v rest]]; [by eexists..|].
  unfold parse_key, parse_value, parse_elements.
  destruct (parse_loop_total key_token (λ g, Piece (Character g)) (length k) k) as [k' ->]; [done|].
  destruct (parse_loop_total value_token VCharacter (length v) v) as [v' ->]; [done|]. by eexists.
Qed.
End total.

(** ** The text form of elements and lines *)

Section roundtrip.
Context `{Segmentation}.

Section elements.
Context {T : Type} (pt : ustring → option T) (pg : Grapheme → T) (enc : T → ustring).

(** An element is written as a brace token, or as the text of its cluster. *)
Definition token_form (e : T) : Prop :=
  ∃ token, enc e = braced token ∧ pt token = Some e ∧ CLOSE ∉ token.

Definition raw_form (e : T) : Prop :=
  e = pg (enc e) ∧ enc e ≠ [] ∧ head (enc e) ≠ Some OPEN.

(** The first cluster of what is written from a raw element on is its text. *)
Fixpoint separable (es : list T) : Prop :=
  match es with
  | [] => True
  | e :: es' =>
      (raw_form e → head (graphemes (enc e ++ concat (enc <$> es'))) = Some (enc e)) ∧ separable es'
  end.

Lemma brace_token_raw s : head s ≠ Some OPEN → brace_token pt s = None.
Proof. destruct s as [|c s]; [done|]. simpl. intros Hc. case_decide; [congruence|done]. Qed.

Lemma brace_token_braced token e rest :
  pt token = Some e → CLOSE ∉ token → brace_token pt (braced token ++ rest) = Some (e, rest).
Proof.
  intros Ht Hc. unfold braced. cbn [app brace_token]. rewrite decide_True by done.
  rewrite <- app_assoc. cbn [app]. rewrite Text.split_once_app by done. cbn. by rewrite Ht.
Qed.

Lemma parse_loop_encoded fuel es :
  Forall (λ e, token_form e ∨ raw_form e) es → separable es →
  length (concat (enc <$> es)) ≤ fuel → parse_loop pt pg fuel (concat (enc <$> es)) = Some es.
Proof.
  intros Hform. revert fuel. induction Hform as [|e es He _ IH]; intros fuel Hsep Hfuel;
    [by destruct fuel|].
  destruct Hsep as [Hraw Hsep]. rewrite fmap_cons in *. cbn [concat] in *.
  rewrite length_app in Hfuel.
  assert (Hpos : enc e ≠ []).
  { destruct He as [(tok & -> & _)|(_ & ? & _)]; [done|done]. }
  destruct fuel as [|fuel]; [destruct (enc e); [done|simpl in Hfuel; lia]|].
  assert (Hunfold : ∀ s, s ≠ [] → parse_loop pt pg (S fuel) s =
    match brace_token pt s with
    | Some (element, rest) =>
        elements ← parse_loop pt pg fuel rest; Some (element :: elements)
    | None =>
        g ← head (graphemes s);
        elements ← parse_loop pt pg fuel (drop (length g) s); Some (pg g :: elements)
    end) by (by intros []).
  rewrite Hunfold by (by destruct (enc e)). clear Hunfold.
  destruct He as [(tok & Henc & Htok & Hclose)|(Hpg & Hne & Hopen)].
  - rewrite Henc, (brace_token_braced tok e) by done.
    rewrite IH; [done|done|]. destruct (enc e); [done|]. simpl in Hfuel. lia.
  - rewrite brace_token_raw by (by destruct (enc e)).
    rewrite Hraw by done. cbn [mbind option_bind]. rewrite drop_app_length, IH; [|done|].
    + cbn. by rewrite <- Hpg.
    + destruct (enc e); [done|]. simpl in Hfuel. lia.
Qed.
End elements.

Definition key_code (e : KeyElement) : ustring :=
  match encode_key e with Ok s => s | Err _ => [] end.

(** What can be written and read back: clusters that are not empty and do not
    begin with a brace unless they are one, and the supported keys. *)
Definition plain_cluster (g : Grapheme) : Prop :=
  g ≠ [] ∧ (head g = Some OPEN → g = [OPEN]) ∧ TAB ∉ g ∧ NEWLINE ∉ g.

Definition exportable_key (e : KeyElement) : Prop :=
  match e with
  | Piece (Character g) => plain_cluster g
  | Piece CompositionSeparator | AnyKey => True
  | Piece p => p = shifted_key (u "0") ∨ p = shifted_key (u "_")
  end.

Definition exportable_value (e : ValueElement) : Prop :=
  match e with VCharacter g => plain_cluster g | VAny => True end.

Lemma encode_key_ok e : exportable_key e → encode_key e = Ok (key_code e).
Proof.
  unfold key_code. destruct e as [[g| |i x ms]|]; try done. intros [Hp|Hp];
    cbn [encode_key]; rewrite Hp; repeat case_decide; done.
Qed.

Lemma encode_character_form {T} (pt : ustring → option T) (pg : Grapheme → T) (enc : T → ustring)
    e g :
  pt LEFT_BRACKET = Some (pg [OPEN]) → pt RIGHT_BRACKET = Some (pg [CLOSE]) →
  e = pg g → enc e = encode_character g → plain_cluster g →
  token_form pt enc e ∨ raw_form pg enc e.
Proof.
  intros HL HR -> Henc (Hne & Hopen & _). unfold encode_character in Henc.
  case_decide as Ho; [left; exists LEFT_BRACKET; subst g; split_and!; [done|done|vm_compute; set_solver]|].
  case_decide as Hc; [left; exists RIGHT_BRACKET; subst g; split_and!; [done|done|vm_compute; set_solver]|].
  right. split_and!; rewrite Henc; [done|done|]. intros Hh. by apply Ho, Hopen.
Qed.

Lemma key_form e : exportable_key e →
  token_form key_token key_code e ∨ raw_form (λ g, Piece (Character g)) key_code e.
Proof.
  assert (Htoken : ∀ token, key_code e = braced token → key_token token = Some e →
    CLOSE ∉ token → token_form key_token key_code e ∨
      raw_form (λ g, Piece (Character g)) key_code e) by (left; by exists token).
  destruct e as [[g| |i x ms]|]; intros He.
  - by apply (encode_character_form _ _ _ _ g).
  - apply (Htoken COMPOSITION_SEPARATOR); [done|done|vm_compute; set_solver].
  - destruct He as [He|He]; [apply (Htoken SHIFT_ZERO)|apply (Htoken SHIFT_UNDERSCORE)];
      rewrite ?He; try done; vm_compute; set_solver.
  - apply (Htoken ANY_CHARACTER); [done|done|vm_compute; set_solver].
Qed.

Lemma value_form e : exportable_value e →
  token_form value_token encode_value e ∨ raw_form VCharacter encode_value e.
Proof.
  destruct e as [g|]; intros He.
  - by apply (encode_character_form _ _ _ _ g).
  - left. exists ANY_CHARACTER. split_and!; [done|done|vm_compute; set_solver].
Qed.

(** No separator of lines or columns in what is written. *)
Lemma encode_character_clean g : plain_cluster g →
  TAB ∉ encode_character g ∧ NEWLINE ∉ encode_character g.
Proof.
  intros (_ & _ & Ht & Hn). unfold encode_character.
  repeat case_decide; [split; vm_compute; set_solver..|done].
Qed.

Lemma key_code_clean e : exportable_key e → TAB ∉ key_code e ∧ NEWLINE ∉ key_code e.
Proof.
  destruct e as [[g| |i x ms]|]; intros He;
    [by apply encode_character_clean|split; vm_compute; set_solver| |split; vm_compute; set_solver].
  destruct He as [He|He]; rewrite He; split; vm_compute; set_solver.
Qed.

Lemma value_code_clean e : exportable_value e → TAB ∉ encode_value e ∧ NEWLINE ∉ encode_value e.
Proof.
  destruct e as [g|]; intros He; [by apply encode_character_clean|split; vm_compute; set_solver].
Qed.

Lemma not_in_concat {A} (c : A) ls : Forall (λ l, c ∉ l) ls → c ∉ concat ls.
Proof.
  induction 1 as [|l ls Hl _ IH]; cbn; [apply not_elem_of_nil|]. by rewrite not_elem_of_app.
Qed.

Definition entry_key_text (e : list KeyElement * list ValueElement) : ustring :=
  concat (key_code <$> e.1).
Definition entry_value_text (e : list KeyElement * list ValueElement) : ustring :=
  concat (encode_value <$> e.2).
Definition entry_text (e : list KeyElement * list ValueElement) : ustring :=
  entry_key_text e ++ TAB :: entry_value_text e.

(** A rule that survives writing and reading. *)
Record exportable_entry (e : list KeyElement * list ValueElement) : Prop := {
  exportable_key_nonempty : e.1 ≠ [];
  exportable_value_nonempty : e.2 ≠ [];
  exportable_keys : Forall exportable_key e.1;
  exportable_values : Forall exportable_value e.2;
  exportable_key_separable : separable (λ g, Piece (Character g)) key_code e.1;
  exportable_value_separable : separable VCharacter encode_value e.2;
  exportable_visible : Text.is_blank (entry_text e) = false;
  exportable_no_return : last (entry_value_text e) ≠ Some RETURN;
}.

Lemma collect_keys k : Forall exportable_key k → collect_results encode_key k = Ok (key_code <$> k).
Proof.
  induction 1 as [|e k He _ IH]; [done|]. cbn [collect_results].
  by rewrite (encode_key_ok e He), IH.
Qed.

Lemma encode_line_ok e : exportable_entry e → encode_line e = Ok (entry_text e).
Proof.
  intros He. unfold encode_line, encode_keys. rewrite collect_keys by apply He.
  unfold entry_text, entry_value_text. do 3 f_equal.
  generalize (e.2) as v. intros v. induction v as [|x v IH]; [done|]. cbn. by rewrite IH.
Qed.

Lemma entry_texts_clean e : exportable_entry e →
  TAB ∉ entry_key_text e ∧ TAB ∉ entry_value_text e ∧ NEWLINE ∉ entry_text e.
Proof.
  intros He. pose proof (exportable_keys e He) as Hk. pose proof (exportable_values e He) as Hv.
  split_and!; [| |unfold entry_text; rewrite not_elem_of_app, not_elem_of_cons; split_and!; [|done|]];
    apply not_in_concat, Forall_fmap; (eapply Forall_impl; [eassumption|]); intros x Hx;
    first [by apply key_code_clean|by apply value_code_clean].
Qed.

Lemma forms_nonempty {T} (pt : ustring → option T) (pg : Grapheme → T) (enc : T → ustring) es :
  es ≠ [] → Forall (λ e, token_form pt enc e ∨ raw_form pg enc e) es → concat (enc <$> es) ≠ [].
Proof.
  destruct es as [|e es]; [done|]. intros _ [He _]%Forall_cons. cbn.
  intros [E _]%app_eq_nil. destruct He as [(tok & Henc & _)|(_ & ? & _)]; [|done].
  by rewrite E in Henc.
Qed.

Lemma entry_forms e : exportable_entry e →
  Forall (λ x, token_form key_token key_code x ∨ raw_form (λ g, Piece (Character g)) key_code x) e.1 ∧
  Forall (λ x, token_form value_token encode_value x ∨ raw_form VCharacter encode_value x) e.2.
Proof.
  intros He. split; [eapply Forall_impl; [apply He|apply key_form]|].
  eapply Forall_impl; [apply He|apply value_form].
Qed.

Lemma parse_line_encoded e : exportable_entry e → parse_line (entry_text e) = Some [e].
Proof.
  intros He. pose proof (entry_forms e He) as [Hk Hv].
  destruct (entry_texts_clean e He) as (Htk & Htv & _). unfold parse_line.
  rewrite (exportable_visible e He). unfold entry_text.
  rewrite Text.split_on_app, Text.split_on_no_sep by done.
  assert (Hkne : entry_key_text e ≠ []) by (eapply forms_nonempty; [apply He|exact Hk]).
  assert (Hvne : entry_value_text e ≠ []) by (eapply forms_nonempty; [apply He|exact Hv]).
  rewrite !filter_cons_True by done. cbn [filter list_filter].
  unfold parse_key, parse_value, parse_elements, entry_key_text, entry_value_text.
  rewrite (parse_loop_encoded key_token), (parse_loop_encoded value_token); try done; try apply He.
  by destruct e.
Qed.

Lemma join_cons c l ls : ls ≠ [] → join c (l :: ls) = l ++ c :: join c ls.
Proof. by destruct ls. Qed.

Lemma split_on_join c ls :
  ls ≠ [] → Forall (λ l, c ∉ l) ls → Text.split_on c (join c ls) = ls.
Proof.
  induction ls as [|l ls IH]; [done|]. intros _ [Hl Hls]%Forall_cons.
  destruct ls as [|l' ls]; [by apply Text.split_on_no_sep|].
  rewrite join_cons by done. rewrite Text.split_on_app by done. by rewrite IH.
Qed.

Lemma lines_join ls :
  Forall (λ l, l ≠ [] ∧ NEWLINE ∉ l ∧ last l ≠ Some RETURN) ls → Text.lines (join NEWLINE ls) = ls.
Proof.
  intros Hall. destruct (decide (ls = [])) as [->|Hne]; [done|]. unfold Text.lines.
  rewrite split_on_join; [|done|eapply Forall_impl; [exact Hall|]; cbn; naive_solver].
  assert (Hlast : match last ls with Some [] => take (length ls - 1) ls | _ => ls end = ls).
  { destruct (last ls) as [[|c l]|] eqn:Hl; [|done..]. exfalso.
    apply last_Some_elem_of in Hl. rewrite Forall_forall in Hall.
    by destruct (Hall _ Hl) as [? _]. }
  rewrite Hlast. clear Hlast Hne.
  induction Hall as [|l ls (_ & _ & Hr) _ IH]; [done|]. cbn. rewrite IH. f_equal.
  unfold Text.strip_cr. destruct (last l) as [c|]; [|done].
  destruct (decide (c = RETURN)) as [->|Hc]; [done|].
  unfold RETURN in Hc. by repeat case_match; subst.
Qed.

(** A table whose rules can be written and told apart is read back
    unchanged from its text form. *)
Theorem custom_tsv_roundtrip entries :
  NoDup entries.*1 → Forall exportable_entry entries →
  ∃ content, to_custom_tsv (table_new entries) = Ok content ∧
    from_custom_tsv content = Some (table_new entries).
Proof.
  intros Hnd Hall. unfold to_custom_tsv. rewrite (entries_of_table_new entries Hnd).
  assert (Hc : collect_results encode_line entries = Ok (entry_text <$> entries)).
  { clear Hnd. induction Hall as [|e es He _ IH]; [done|]. cbn [collect_results].
    by rewrite (encode_line_ok e He), IH. }
  rewrite Hc. eexists. split; [done|]. unfold from_custom_tsv.
  rewrite lines_join.
  - assert (Hp : mapM parse_line (entry_text <$> entries) = Some ((λ e, [e]) <$> entries)).
    { clear Hnd Hc. induction Hall as [|e es He _ IH]; [done|]. rewrite !fmap_cons.
      apply (mapM_app_Some _ [_] _ [_]); [|done]. cbn. by rewrite (parse_line_encoded e He). }
    rewrite Hp. cbn [mbind option_bind]. do 2 f_equal.
    clear. induction entries as [|e es IH]; [done|]. cbn. by rewrite IH.
  - apply Forall_fmap. eapply Forall_impl; [exact Hall|]. cbn. intros e He.
    split_and!; [by unfold entry_text; destruct (entry_key_text e)|by apply entry_texts_clean|].
    unfold entry_text. rewrite last_app_cons.
    pose proof (exportable_no_return e He). destruct (entry_value_text e); [done|].
    by rewrite last_cons_cons.
Qed.
End roundtrip.

(** Rules of the kind users write: romaji, a wildcard, a bracket, a shifted key. *)
Definition user_entries : list (list KeyElement * list ValueElement) :=
  [ ([ch "n"; AnyKey], [VCharacter (u "ん"); VAny]);
    ([ch "{"; ch "a"], [VCharacter (u "}")]);
    ([Piece (shifted_key (u "0"))], [VCharacter (u "を")]) ].

Lemma custom_tsv_roundtrip_witness :
  (∃ content, to_custom_tsv (table_new user_entries) = Ok content ∧
     @from_custom_tsv scalar_clusters content = Some (table_new user_entries)) ∧
  to_custom_tsv (table_new user_entries) =
    Ok (u "n{any character}	ん{any character}
{lbracket}a	{rbracket}
{shift 0}	を").
Proof.
  split; [|vm_compute; reflexivity].
  apply (@custom_tsv_roundtrip scalar_clusters).
  - apply (bool_decide_unpack _). vm_compute. exact I.
  - repeat constructor; try (intros [=]); try done; try (vm_compute; set_solver).
Defined.

(** Rules with an empty value do not survive the text form. The check
    reports a line with an empty value column as valid, and the reader drops it;
    the writer emits such a line for the separator rule of the default romaji
    table, so writing that table and reading it back loses the rule. *)
Theorem empty_value_is_lost :
  @check_custom_tsv scalar_clusters (u "a	") = Some FullyValid ∧
  @from_custom_tsv scalar_clusters (u "a	") = Some empty_table ∧
  value_of (mappings roman_table) [Piece CompositionSeparator] = Some [] ∧
  match to_custom_tsv roman_table with
  | Ok content =>
      @check_custom_tsv scalar_clusters content = Some FullyValid ∧
      (λ t, value_of (mappings t) [Piece CompositionSeparator]) <$>
        @from_custom_tsv scalar_clusters content = Some None
  | Err _ => False
  end.
Proof. vm_compute. by split_and!. Qed.
