(* ===== verification/Composing.v ===== *)
(** * Composing text

    src/crates/converter/src/input/composing.rs: the text being composed, as
    the history of typed pieces ([input]), the text shown for it ([surface])
    and a cursor in the surface. Editing in the middle of a converted sequence
    first freezes the segment it splits, so that the rules of the tables do not
    reach across the edit. *)

From S2P Require Import Prelude Unicode InputTable DefaultTables.

(** ** Data *)

Inductive InputTableId :=
  | IdEmpty | DefaultRomanToKana | DefaultAzik | DefaultKanaJis | DefaultKanaUs
  | Named (name : ustring).

#[export] Instance InputTableId_eq_dec : EqDecision InputTableId.
Proof. solve_decision. Defined.

Inductive InputStyle := Direct | RomanToKana | Mapped (id : InputTableId).

#[export] Instance InputStyle_eq_dec : EqDecision InputStyle.
Proof. solve_decision. Defined.

(** [InputStyle::frozen] *)
Definition frozen : InputStyle := Mapped IdEmpty.

Record InputTableRegistry := {
  empty : InputTable;
  roman_to_kana : InputTable;
  azik : InputTable;
  kana_jis : InputTable;
  kana_us : InputTable;
  custom : gmap ustring InputTable;
}.

(** [InputTableRegistry::default] *)
Definition registry_default `{Segmentation} : InputTableRegistry := {|
  empty := empty_table;
  roman_to_kana := default_roman_to_kana;
  azik := default_azik;
  kana_jis := default_kana_jis;
  kana_us := default_kana_us;
  custom := ∅;
|}.

Definition register (r : InputTableRegistry) (name : ustring) (t : InputTable) :
    InputTableRegistry :=
  {| empty := empty r; roman_to_kana := roman_to_kana r; azik := azik r;
     kana_jis := kana_jis r; kana_us := kana_us r; custom := <[name := t]> (custom r) |}.

Definition registry_contains (r : InputTableRegistry) (name : ustring) : bool :=
  bool_decide (is_Some (custom r !! name)).

Definition resolve (r : InputTableRegistry) (style : InputStyle) : option InputTable :=
  match style with
  | Direct => None
  | RomanToKana => Some (roman_to_kana r)
  | Mapped IdEmpty => Some (empty r)
  | Mapped DefaultRomanToKana => Some (roman_to_kana r)
  | Mapped DefaultAzik => Some (azik r)
  | Mapped DefaultKanaJis => Some (kana_jis r)
  | Mapped DefaultKanaUs => Some (kana_us r)
  | Mapped (Named name) => Some (default (empty r) (custom r !! name))
  end.

Record InputElement := { piece : InputPiece; input_style : InputStyle }.

#[export] Instance InputElement_eq_dec : EqDecision InputElement.
Proof. solve_decision. Defined.

(** [InputElement::character] *)
Definition character (value : Grapheme) (style : InputStyle) : InputElement :=
  {| piece := Character value; input_style := style |}.

Inductive ComposingCount :=
  | CInput (n : nat)
  | CSurface (n : nat)
  | CComposite (l r : ComposingCount).

#[export] Instance ComposingCount_eq_dec : EqDecision ComposingCount.
Proof. solve_decision. Defined.

Record ComposingText := {
  cursor : nat;
  input : list InputElement;
  surface : list Grapheme;
}.

Record IndexPair := Pair { p_input : nat; p_surface : nat }.

Record SurfaceSegment := { seg_graphemes : list Grapheme; seg_style : InputStyle }.

Record DifferenceSuffix := {
  deleted_input : nat; added_input : nat; deleted_surface : nat; added_surface : nat;
}.

Definition composing_new : ComposingText := {| cursor := 0; input := []; surface := [] |}.

Definition is_empty (ct : ComposingText) : bool := bool_decide (surface ct = []).
Definition is_at_end (ct : ComposingText) : bool := cursor ct =? length (surface ct).
Definition is_at_start (ct : ComposingText) : bool := cursor ct =? 0.

Definition separator : InputElement := {| piece := CompositionSeparator; input_style := frozen |}.

(** The element a grapheme is frozen into ([force_input_cursor]). *)
Definition frozen_char (g : Grapheme) : InputElement := character g frozen.

Section composing.
Context (tables : InputTableRegistry).

(** ** Conversion of the input *)

(** [update_surface]: the new text of a segment and the number of graphemes
    deleted from its end *)
Definition update_surface (sf : list Grapheme) (p : InputPiece) (style : InputStyle) :
    option (list Grapheme * nat) :=
  match resolve tables style with
  | Some table => apply table sf p
  | None => Some (sf ++ option_list (displayed p), 0)
  end.

(** [update_segments]: the new segments and the deletion count *)
Definition update_segments (segs : list SurfaceSegment) (e : InputElement) :
    option (list SurfaceSegment * nat) :=
  let push :=
    if decide (segs = [] ∧ piece e = CompositionSeparator) then Some (segs, 0)
    else r ← update_surface [] (piece e) (input_style e);
         Some (segs ++ [{| seg_graphemes := r.1; seg_style := input_style e |}], 0) in
  match last segs with
  | Some l =>
      if decide (seg_style l = input_style e) then
        r ← update_surface (seg_graphemes l) (piece e) (input_style e);
        Some (take (length segs - 1) segs ++
                [{| seg_graphemes := r.1; seg_style := seg_style l |}], r.2)
      else push
  | None => push
  end.

Definition run_segments (segs : list SurfaceSegment) (es : list InputElement) :
    option (list SurfaceSegment) :=
  foldl (λ s e, s ← s; r ← update_segments s e; Some r.1) (Some segs) es.

Definition segments_surface (segs : list SurfaceSegment) : list Grapheme :=
  concat (seg_graphemes <$> segs).

Definition convert_elements (es : list InputElement) : option (list Grapheme) :=
  segs ← run_segments [] es; Some (segments_surface segs).

(** ** Independent boundaries *)

Definition tail_len (segs : list SurfaceSegment) : nat :=
  match last segs with Some l => length (seg_graphemes l) | None => 0 end.

(** [while let Some(last) = boundaries.pop()]: drop the boundaries the last
    step deleted into; the top of the stack is the head of the list. *)
Fixpoint pop_boundaries (limit : nat) (stack : list IndexPair) : list IndexPair :=
  match stack with
  | [] => []
  | b :: stack' => if decide (p_surface b ≤ limit) then stack else pop_boundaries limit stack'
  end.

(** One iteration of [independent_boundaries]; the state is the stack, the
    segments, the converted length and the index of the next element. *)
Definition boundary_step (st : list IndexPair * list SurfaceSegment * nat * nat)
    (e : InputElement) : option (list IndexPair * list SurfaceSegment * nat * nat) :=
  let '(stack, converting, converted_len, i) := st in
  let previous_tail_len := tail_len converting in
  r ← update_segments converting e;
  let '(converting', deleted) := r in
  let current_tail_len := tail_len converting' in
  converted_len' ←
    (if decide (length converting' = length converting)
     then n ← usub converted_len previous_tail_len; Some (n + current_tail_len)
     else Some (converted_len + current_tail_len));
  Some (Pair (i + 1) converted_len' :: pop_boundaries (converted_len - deleted) stack,
        converting', converted_len', i + 1).

Definition run_boundaries (es : list InputElement) :
    option (list IndexPair * list SurfaceSegment * nat * nat) :=
  foldl (λ st e, st ← st; boundary_step st e) (Some ([Pair 0 0], [], 0, 0)) es.

(** The stack, its top first. *)
Definition independent_boundaries (es : list InputElement) : option (list IndexPair) :=
  st ← run_boundaries es; Some st.1.1.1.

(** ** Splitting the input at a surface position *)

Inductive Found := Exact (i : nat) | Between (segment_start segment_end : IndexPair).

(** The loop of [force_input_cursor] *)
Fixpoint find_boundary (target : nat) (stack : list IndexPair) (segment_end : IndexPair) :
    Found :=
  match stack with
  | [] => Between (Pair 0 0) segment_end
  | start :: stack' =>
      if decide (p_surface start = target) then Exact (p_input start)
      else if decide (p_surface start < target) then Between start segment_end
      else find_boundary target stack'
             (if decide (p_surface start < p_surface segment_end) then start else segment_end)
  end.

(** [force_input_cursor]: the input index of a surface position; when the
    position is inside a converted segment, the segment is frozen. *)
Definition force_input_cursor (ct : ComposingText) (target_surface : nat) :
    option (ComposingText * nat) :=
  if decide (target_surface = 0) then Some (ct, 0)
  else if decide (length (surface ct) ≤ target_surface) then Some (ct, length (input ct))
  else
    boundaries ← independent_boundaries (input ct);
    match find_boundary target_surface boundaries
            (Pair (length (input ct)) (length (surface ct))) with
    | Exact i => Some (ct, i)
    | Between segment_start segment_end =>
        part ← slice (p_surface segment_start) (p_surface segment_end) (surface ct);
        input' ← splice (p_input segment_start) (p_input segment_end)
                   (frozen_char <$> part) (input ct);
        n ← usub target_surface (p_surface segment_start);
        Some ({| cursor := cursor ct; input := input'; surface := surface ct |},
              n + p_input segment_start)
    end.

(** ** Editing *)

(** Removes the frozen separator before an input position; returns the
    number of removed elements. *)
Definition drop_separator (es : list InputElement) (i : nat) :
    option (list InputElement * nat) :=
  if decide (0 < i) then
    e ← es !! (i - 1);
    if decide (e = separator) then es' ← remove_at (i - 1) es; Some (es', 1)
    else Some (es, 0)
  else Some (es, 0).

(** [ComposingText::insert] *)
Definition insert (ct : ComposingText) (elements : list InputElement) : option ComposingText :=
  match elements with
  | [] => Some ct
  | _ =>
      '(ct, input_cursor) ← force_input_cursor ct (cursor ct);
      let elements := if is_at_end ct then elements else elements ++ [separator] in
      '(es, removed) ← drop_separator (input ct) input_cursor;
      let input_cursor := input_cursor - removed in
      let inserted_count := length elements in
      es ← splice input_cursor input_cursor elements es;
      old_prefix ← slice 0 (cursor ct) (surface ct);
      head ← slice 0 (input_cursor + inserted_count) es;
      new_prefix ← convert_elements head;
      let common := common_prefix_len old_prefix new_prefix in
      deleted ← usub (length old_prefix) common;
      added ← usub (length new_prefix) common;
      surface' ← splice 0 (cursor ct) new_prefix (surface ct);
      c ← usub (cursor ct) deleted;
      Some {| cursor := c + added; input := es; surface := surface' |}
  end.

Definition insert_str `{Segmentation} (ct : ComposingText) (text : ustring)
    (style : InputStyle) : option ComposingText :=
  insert ct ((λ g, character g style) <$> graphemes text).

(** [ComposingText::delete_backward] *)
Definition delete_backward (ct : ComposingText) (count : nat) : option ComposingText :=
  let count := count `min` cursor ct in
  if decide (count = 0) then Some ct
  else
    t ← usub (cursor ct) count;
    '(ct, target) ← force_input_cursor ct t;
    '(ct, current) ← force_input_cursor ct (cursor ct);
    '(es, removed) ← drop_separator (input ct) target;
    let target := target - removed in
    current ← usub current removed;
    es ← (if decide (target = 0 ∨ current = length es) then splice target current [] es
          else splice target current [separator] es);
    c ← usub (cursor ct) count;
    surface' ← convert_elements es;
    Some {| cursor := c; input := es; surface := surface' |}.

(** [ComposingText::delete_forward] *)
Definition delete_forward (ct : ComposingText) (count : nat) : option ComposingText :=
  rest ← usub (length (surface ct)) (cursor ct);
  let count := count `min` rest in
  if decide (count = 0) then Some ct
  else delete_backward
         {| cursor := cursor ct + count; input := input ct; surface := surface ct |} count.

(** [ComposingText::move_cursor]: [count] is clamped to the text. *)
Definition move_cursor (ct : ComposingText) (count : Z) : option (ComposingText * Z) :=
  rest ← usub (length (surface ct)) (cursor ct);
  let minimum := (- Z.of_nat (cursor ct))%Z in
  let maximum := Z.of_nat rest in
  let moved := Z.max minimum (Z.min maximum count) in
  Some ({| cursor := Z.to_nat (Z.of_nat (cursor ct) + moved);
           input := input ct; surface := surface ct |}, moved).

(** The cursor after a prefix of the surface was completed. *)
Definition cursor_after (c : nat) (sf : list Grapheme) : nat :=
  if decide (c = 0) then length sf else c.

(** [ComposingText::complete_prefix] *)
Fixpoint complete_prefix (ct : ComposingText) (count : ComposingCount) : option ComposingText :=
  match count with
  | CInput n =>
      es ← splice 0 (n `min` length (input ct)) [] (input ct);
      new_surface ← convert_elements es;
      cursor_delta ← usub (length (surface ct)) (length new_surface);
      Some {| cursor := cursor_after (cursor ct - cursor_delta) new_surface;
              input := es; surface := new_surface |}
  | CSurface n =>
      let n := n `min` length (surface ct) in
      '(ct, input_index) ← force_input_cursor ct n;
      es ← splice 0 input_index [] (input ct);
      sf ← splice 0 n [] (surface ct);
      Some {| cursor := cursor_after (cursor ct - n) sf; input := es; surface := sf |}
  | CComposite l r => ct ← complete_prefix ct l; complete_prefix ct r
  end.

(** [ComposingText::prefix_to_cursor] *)
Definition prefix_to_cursor (ct : ComposingText) : option ComposingText :=
  '(text, input_index) ← force_input_cursor ct (cursor ct);
  Some {| cursor := cursor text; input := take input_index (input text);
          surface := take (cursor text) (surface text) |}.

Definition has_identity_mapping (ct : ComposingText) : bool :=
  (length (input ct) =? length (surface ct)) &&
  forallb (λ e, bool_decide (input_style e = Direct) &&
                match piece e with Character _ => true | _ => false end) (input ct).

(** [ComposingText::input_to_surface_map] *)
Definition input_to_surface_map (ct : ComposingText) : option (gmap nat nat) :=
  if has_identity_mapping ct then
    Some (list_to_map ((λ i, (i, i)) <$> seq 0 (S (length (input ct)))))
  else
    bs ← independent_boundaries (input ct);
    Some (list_to_map ((λ b, (p_input b, p_surface b)) <$> bs)).

End composing.

(** [ComposingText::difference_suffix] *)
Definition difference_suffix (ct previous : ComposingText) : option DifferenceSuffix :=
  let input_common := common_prefix_len (input ct) (input previous) in
  let surface_common := common_prefix_len (surface ct) (surface previous) in
  di ← usub (length (input previous)) input_common;
  ai ← usub (length (input ct)) input_common;
  ds ← usub (length (surface previous)) surface_common;
  as_ ← usub (length (surface ct)) surface_common;
  Some {| deleted_input := di; added_input := ai; deleted_surface := ds; added_surface := as_ |}.

Definition input_has_suffix (ct suffix : ComposingText) : bool :=
  bool_decide (input suffix `suffix_of` input ct).

(** [ComposingText::stop] *)
Definition stop (ct : ComposingText) : ComposingText := composing_new.

(** ** Conversion: totality and locality *)

(** What the editing operations rely on: the frozen style renders pieces as
    they are, and a composition separator alone renders nothing. *)
Record registry_ok (tables : InputTableRegistry) : Prop := {
  registry_empty : empty tables = empty_table;
  registry_silent style t :
    resolve tables style = Some t → apply t [] CompositionSeparator = Some ([], 0);
}.

Section conversion.
Context (tables : InputTableRegistry) (Hok : registry_ok tables).

#[local] Abbreviation update_surface := (update_surface tables).
#[local] Abbreviation update_segments := (update_segments tables).
#[local] Abbreviation run_segments := (run_segments tables).
#[local] Abbreviation convert_elements := (convert_elements tables).

Lemma update_surface_Some sf p st :
  ∃ out d, update_surface sf p st = Some (out, d) ∧ d ≤ length sf ∧ length sf - d ≤ length out.
Proof.
  unfold Composing.update_surface. destruct (resolve tables st) as [t|].
  - destruct (apply_Some t sf p) as (out & d & ? & ? & ins & ->).
    eexists _, _. split_and!; [done|done|len].
  - eexists _, _. split_and!; [done|lia|len].
Qed.

Lemma update_surface_local x g p st out d :
  update_surface (x ++ g) p st = Some (out, d) → d ≤ length g →
  ∃ out', update_surface g p st = Some (out', d) ∧ out = x ++ out'.
Proof.
  unfold Composing.update_surface. destruct (resolve tables st) as [t|].
  - apply apply_local.
  - intros [= <- <-] _. eexists. split; [done|]. by rewrite app_assoc.
Qed.

Lemma update_surface_nil p st out d : update_surface [] p st = Some (out, d) → d = 0.
Proof. intros E. destruct (update_surface_Some [] p st) as (? & ? & ? & Hd & _). simpl in Hd.
  rewrite E in *. simplify_eq. lia. Qed.

Lemma update_surface_separator_nil st : update_surface [] CompositionSeparator st = Some ([], 0).
Proof.
  unfold Composing.update_surface. destruct (resolve tables st) as [t|] eqn:E; [|done].
  by eapply registry_silent.
Qed.

Lemma update_surface_separator sf st out :
  update_surface sf CompositionSeparator st = Some (out, 0) → out = sf.
Proof.
  intros E. rewrite <- (app_nil_r sf) in E.
  apply update_surface_local in E as (out' & E & ->); [|simpl; lia].
  rewrite update_surface_separator_nil in E. simplify_eq. by rewrite app_nil_r.
Qed.

Lemma update_surface_frozen sf p :
  update_surface sf p frozen = Some (sf ++ option_list (displayed p), 0).
Proof.
  unfold Composing.update_surface. simpl. rewrite (registry_empty _ Hok).
  apply apply_empty_table.
Qed.

(** Equations of [update_segments] by the last segment. *)
Lemma update_segments_nil e :
  update_segments [] e =
    if decide (piece e = CompositionSeparator) then Some ([], 0)
    else r ← update_surface [] (piece e) (input_style e);
         Some ([{| seg_graphemes := r.1; seg_style := input_style e |}], 0).
Proof.
  unfold Composing.update_segments. simpl.
  destruct (decide (piece e = _)); [by rewrite decide_True|by rewrite decide_False by naive_solver].
Qed.

Lemma update_segments_snoc A l e :
  update_segments (A ++ [l]) e =
    if decide (seg_style l = input_style e) then
      r ← update_surface (seg_graphemes l) (piece e) (input_style e);
      Some (A ++ [{| seg_graphemes := r.1; seg_style := seg_style l |}], r.2)
    else
      r ← update_surface [] (piece e) (input_style e);
      Some ((A ++ [l]) ++ [{| seg_graphemes := r.1; seg_style := input_style e |}], 0).
Proof.
  unfold Composing.update_segments. rewrite last_snoc. case_decide.
  - destruct (update_surface _ _ _) as [r|]; simpl; [|done]. do 3 f_equal.
    rewrite length_app. simpl. rewrite take_app_le by lia. apply take_ge. lia.
  - rewrite decide_False; [done|]. intros [E _]. by destruct A.
Qed.

Lemma segments_surface_snoc A l :
  segments_surface (A ++ [l]) = segments_surface A ++ seg_graphemes l.
Proof. unfold segments_surface. rewrite fmap_app, concat_app. simpl. by rewrite app_nil_r. Qed.

Lemma segments_surface_app A B :
  segments_surface (A ++ B) = segments_surface A ++ segments_surface B.
Proof. unfold segments_surface. by rewrite fmap_app, concat_app. Qed.

(** A step always succeeds, deletes at most the last segment, and shortens the
    surface by at most what it deletes. *)
Lemma update_segments_Some S e :
  ∃ S1 d, update_segments S e = Some (S1, d) ∧ d ≤ tail_len S ∧
    length (segments_surface S) - d ≤ length (segments_surface S1) ∧
    (length S1 = length S →
       length (segments_surface S1) + tail_len S =
       length (segments_surface S) + tail_len S1) ∧
    (length S1 ≠ length S →
       length (segments_surface S1) = length (segments_surface S) + tail_len S1).
Proof.
  destruct S as [|l A] using rev_ind.
  - rewrite update_segments_nil. case_decide.
    { eexists _, _. split_and!; try done; simpl; lia. }
    destruct (update_surface_Some [] (piece e) (input_style e)) as (out & d & -> & ? & ?).
    eexists _, _. split_and!; [done|simpl; lia|simpl; lia|done|].
    unfold segments_surface. intros _. simpl. by rewrite app_nil_r.
  - rewrite update_segments_snoc. case_decide.
    + destruct (update_surface_Some (seg_graphemes l) (piece e) (input_style e))
        as (out & d & -> & ? & ?). simpl. eexists _, _. split; [done|].
      unfold tail_len. rewrite !last_snoc, !segments_surface_snoc, !length_app. simpl.
      split_and!; lia.
    + destruct (update_surface_Some [] (piece e) (input_style e)) as (out & d & -> & ? & ?).
      simpl. eexists _, _. split; [done|]. unfold tail_len.
      rewrite !last_snoc, !segments_surface_snoc, !length_app. simpl.
      split_and!; lia.
Qed.

Lemma run_segments_nil S : run_segments S [] = Some S.
Proof. done. Qed.

Lemma run_segments_cons S e es :
  run_segments S (e :: es) = r ← update_segments S e; run_segments r.1 es.
Proof.
  unfold Composing.run_segments. simpl. destruct (update_segments S e); [done|].
  simpl. by induction es.
Qed.

Lemma run_segments_app S es1 es2 :
  run_segments S (es1 ++ es2) = S1 ← run_segments S es1; run_segments S1 es2.
Proof.
  revert S. induction es1 as [|e es1 IH]; intros S; [done|]. simpl app.
  rewrite !run_segments_cons. destruct (update_segments S e); [|done]. apply IH.
Qed.

Lemma run_segments_Some S es : ∃ S1, run_segments S es = Some S1.
Proof.
  revert S. induction es as [|e es IH]; intros S; [by eexists|].
  rewrite run_segments_cons.
  destruct (update_segments_Some S e) as (S1 & d & -> & _). apply IH.
Qed.

Lemma convert_elements_Some es : ∃ c, convert_elements es = Some c.
Proof.
  unfold Composing.convert_elements. destruct (run_segments_Some [] es) as [S ->].
  by eexists.
Qed.

(** *** Simulation of the conversion of a suffix

    [sim K pre S S']: the segments [S] of the whole input show [pre] followed
    by what the segments [S'] of the suffix alone show; [K] restricts how much
    of [pre] may share a segment with the suffix. *)
Definition sim (K : list Grapheme → InputStyle → Prop) (pre : list Grapheme)
    (S S' : list SurfaceSegment) : Prop :=
  (S' = [] ∧ segments_surface S = pre ∧
     ∀ l, last S = Some l → K (seg_graphemes l) (seg_style l)) ∨
  (∃ A x g st rest,
     S = A ++ {| seg_graphemes := x ++ g; seg_style := st |} :: rest ∧
     S' = {| seg_graphemes := g; seg_style := st |} :: rest ∧
     segments_surface A ++ x = pre ∧ K x st).

Lemma sim_surface K pre S S' :
  sim K pre S S' → segments_surface S = pre ++ segments_surface S'.
Proof.
  intros [(-> & <- & _)|(A & x & g & st & rest & -> & -> & <- & _)].
  - by rewrite app_nil_r.
  - rewrite segments_surface_app. unfold segments_surface. simpl. by rewrite <- !app_assoc.
Qed.

(** An element after texts that end alike *)
Lemma sim_step_end (K : list Grapheme → InputStyle → Prop) pre S e S1 d :
  (∀ st, K [] st) → segments_surface S = pre → (∀ l, last S = Some l → K (seg_graphemes l) (seg_style l)) →
  update_segments S e = Some (S1, d) → d + length pre ≤ length (segments_surface S) →
  ∃ S1' d', update_segments [] e = Some (S1', d') ∧ sim K pre S1 S1'.
Proof.
  intros HK Hpre Hlast HS Hd.
  rewrite Hpre in Hd. assert (d = 0) as -> by lia.
  destruct (update_segments_Some [] e) as (S1' & d' & HS' & _). exists S1', d'.
  split; [done|]. rewrite update_segments_nil in HS'.
  destruct S as [|l A _] using rev_ind.
  { rewrite update_segments_nil in HS. case_decide; simplify_eq/=; [by left|].
    destruct (update_surface [] _ _) as [r|]; simplify_eq/=.
    right. by exists [], [], r.1, (input_style e), []. }
  rewrite last_snoc in Hlast. specialize (Hlast l eq_refl).
  rewrite update_segments_snoc in HS.
  destruct (decide (seg_style l = input_style e)) as [Hst|Hst].
  - destruct (update_surface (seg_graphemes l) _ _) as [[out d]|] eqn:Hu; simplify_eq/=.
    destruct (decide (piece e = CompositionSeparator)) as [Hp|Hp]; simplify_eq/=.
    + rewrite Hp in Hu. apply update_surface_separator in Hu as ->. left.
      rewrite !segments_surface_snoc, last_snoc. split_and!; [done|done|].
      by intros ? [= <-].
    + rewrite <- (app_nil_r (seg_graphemes l)) in Hu.
      apply update_surface_local in Hu as (out' & Hu & ->); [|simpl; lia].
      rewrite Hu in HS'. simplify_eq/=. right.
      exists A, (seg_graphemes l), out', (seg_style l), [].
      by rewrite segments_surface_snoc, <- Hst.
  - destruct (update_surface [] _ _) as [[out d]|] eqn:Hu; simplify_eq/=.
    destruct (decide (piece e = CompositionSeparator)) as [Hp|Hp]; simplify_eq/=.
    + rewrite Hp, update_surface_separator_nil in Hu. simplify_eq. left.
      rewrite !segments_surface_snoc, app_nil_r. split_and!; [done|done|].
      rewrite last_snoc. intros ? [= <-]. apply HK.
    + right. exists (A ++ [l]), [], out, (input_style e), [].
      by rewrite app_nil_r.
Qed.

(** An element after texts of which one goes on before the other *)
Lemma sim_step_within (K : list Grapheme → InputStyle → Prop) pre A x g st rest e S1 d :
  segments_surface A ++ x = pre → K x st →
  update_segments (A ++ {| seg_graphemes := x ++ g; seg_style := st |} :: rest) e = Some (S1, d) →
  d + length pre ≤ length (segments_surface (A ++ {| seg_graphemes := x ++ g; seg_style := st |} :: rest)) →
  ∃ S1' d', update_segments ({| seg_graphemes := g; seg_style := st |} :: rest) e = Some (S1', d') ∧ sim K pre S1 S1'.
Proof.
  intros Hpre HKx HS Hd.
  destruct rest as [|l R _] using rev_ind.
  - change [{| seg_graphemes := g; seg_style := st |}]
      with ([] ++ [{| seg_graphemes := g; seg_style := st |}]).
    rewrite update_segments_snoc in *. simpl in *. case_decide as Hst.
    + destruct (update_surface (x ++ g) _ _) as [[out d']|] eqn:Hu; simplify_eq/=.
      apply update_surface_local in Hu as (out' & -> & ->).
      2: { rewrite segments_surface_snoc in Hd. simpl in Hd. len. }
      eexists _, _. split; [done|]. right. by exists A, x, out', (input_style e), [].
    + destruct (update_surface [] _ _) as [[out d']|] eqn:Hu; simplify_eq/=.
      eexists _, _. split; [done|]. right.
      exists A, x, g, st, [{| seg_graphemes := out; seg_style := input_style e |}].
      by rewrite <- app_assoc.
  - rewrite app_comm_cons, app_assoc in HS. rewrite app_comm_cons.
    rewrite update_segments_snoc in *. case_decide as Hst.
    + destruct (update_surface (seg_graphemes l) _ _) as [[out d']|]; simplify_eq/=.
      eexists _, _. split; [done|]. right. eexists A, x, g, st, (R ++ [_]).
      by rewrite <- app_assoc.
    + destruct (update_surface [] _ _) as [[out d']|]; simplify_eq/=.
      eexists _, _. split; [done|]. right. eexists A, x, g, st, ((R ++ [l]) ++ [_]).
      by rewrite <- !app_assoc.
Qed.

Lemma sim_step (K : list Grapheme → InputStyle → Prop) pre S S' e S1 d :
  (∀ st, K [] st) → sim K pre S S' → update_segments S e = Some (S1, d) →
  d + length pre ≤ length (segments_surface S) →
  ∃ S1' d', update_segments S' e = Some (S1', d') ∧ sim K pre S1 S1'.
Proof.
  intros HK [(-> & Hpre & Hlast)|(A & x & g & st & rest & -> & -> & Hpre & HKx)] HS Hd.
  - by eapply sim_step_end.
  - by eapply sim_step_within.
Qed.

(** [keeps n S es]: converting [es] from [S] never deletes into the first [n]
    graphemes of the surface. *)
Fixpoint keeps (n : nat) (S : list SurfaceSegment) (es : list InputElement) : Prop :=
  match es with
  | [] => True
  | e :: es' =>
      match update_segments S e with
      | Some (S1, d) => d + n ≤ length (segments_surface S) ∧ keeps n S1 es'
      | None => False
      end
  end.

Lemma keeps_app n S es1 es2 S1 :
  run_segments S es1 = Some S1 → keeps n S (es1 ++ es2) ↔ keeps n S es1 ∧ keeps n S1 es2.
Proof.
  revert S. induction es1 as [|e es1 IH]; intros S Hrun.
  { rewrite run_segments_nil in Hrun. simplify_eq. simpl. naive_solver. }
  rewrite run_segments_cons in Hrun. simpl.
  destruct (update_segments S e) as [[S2 d]|]; [|done]. simpl in Hrun.
  rewrite (IH S2 Hrun). naive_solver.
Qed.

Lemma tail_len_le S : tail_len S ≤ length (segments_surface S).
Proof.
  destruct S as [|l A _] using rev_ind; [done|].
  unfold tail_len. rewrite last_snoc, segments_surface_snoc. len.
Qed.

Lemma keeps_0 S es : keeps 0 S es.
Proof.
  revert S. induction es as [|e es IH]; intros S; simpl; [done|].
  destruct (update_segments_Some S e) as (S1 & d & -> & Hd & _).
  pose proof (tail_len_le S). split; [lia|apply IH].
Qed.

Lemma run_sim (K : list Grapheme → InputStyle → Prop) pre S S' es :
  (∀ st, K [] st) → sim K pre S S' → keeps (length pre) S es →
  ∃ S1 S1', run_segments S es = Some S1 ∧ run_segments S' es = Some S1' ∧ sim K pre S1 S1'.
Proof.
  intros HK. revert S S'. induction es as [|e es IH]; intros S S' Hsim Hkeeps.
  { exists S, S'. done. }
  simpl in Hkeeps. rewrite !run_segments_cons.
  destruct (update_segments S e) as [[S1 d]|] eqn:HS; [|done].
  destruct Hkeeps as [Hd Hkeeps].
  destruct (sim_step K pre S S' e S1 d) as (S1' & d' & -> & Hsim'); [done..|].
  simpl. by apply IH.
Qed.

(** A position [n] of the input that shows [s] graphemes and that nothing after
    it deletes into. *)
Definition cut (es : list InputElement) (n s : nat) : Prop :=
  n ≤ length es ∧ ∃ S, run_segments [] (take n es) = Some S ∧
    length (segments_surface S) = s ∧ keeps s S (drop n es).

(** At a cut, the surface is the conversions of the two parts of the input. *)
Lemma cut_convert es n s c :
  cut es n s → convert_elements es = Some c →
  convert_elements (take n es) = Some (take s c) ∧
  convert_elements (drop n es) = Some (drop s c) ∧ s ≤ length c.
Proof.
  intros (Hn & S & HS & <- & Hkeeps) Hc. unfold Composing.convert_elements in *.
  destruct (run_sim (λ _ _, True) (segments_surface S) S [] (drop n es))
    as (S1 & S1' & H1 & H2 & Hsim); [done|by left|done|].
  apply sim_surface in Hsim.
  rewrite <- (take_drop n es), run_segments_app, HS in Hc. simpl in Hc.
  rewrite H1 in Hc. simplify_eq/=. rewrite HS, H2, Hsim. simpl.
  rewrite take_app_length, drop_app_length. split_and!; [done|done|len].
Qed.

(** An empty surface comes from an empty input. *)
Definition settled (ct : ComposingText) : Prop := surface ct = [] → input ct = [].

Lemma cut_0 es : cut es 0 0.
Proof. split; [lia|]. exists []. split_and!; [done|done|apply keeps_0]. Qed.

Lemma cut_end es c : convert_elements es = Some c → cut es (length es) (length c).
Proof.
  unfold Composing.convert_elements. intros Hc. split; [done|].
  rewrite firstn_all, skipn_all. destruct (run_segments [] es) as [S|]; simplify_eq/=. eauto.
Qed.

(** *** Barriers

    After a frozen element (or an empty last segment) no rule can reach back. *)
Definition barrier (S : list SurfaceSegment) : Prop :=
  ∀ l, last S = Some l → seg_graphemes l = [] ∨ seg_style l = frozen.

Definition overlap (x : list Grapheme) (st : InputStyle) : Prop := x = [] ∨ st = frozen.

Lemma barrier_sim_bound pre S S' e S1 d :
  sim overlap pre S S' → update_segments S e = Some (S1, d) →
  d + length pre ≤ length (segments_surface S).
Proof.
  intros Hsim HS. pose proof (sim_surface _ _ _ _ Hsim) as Hsurf.
  assert (Hle : length pre ≤ length (segments_surface S)) by (rewrite Hsurf; len).
  destruct S as [|l A _] using rev_ind.
  { rewrite update_segments_nil in HS. case_decide; simplify_eq/=; [done|].
    destruct (update_surface [] _ _); simplify_eq/=; done. }
  rewrite update_segments_snoc in HS. case_decide as Hst.
  2: { destruct (update_surface [] _ _); simplify_eq/=; done. }
  destruct (update_surface (seg_graphemes l) (piece e) (input_style e)) as [[out d']|] eqn:Hu;
    simplify_eq/=.
  destruct (update_surface_Some (seg_graphemes l) (piece e) (input_style e))
    as (out1 & d1 & Hu' & Hd & _).
  assert (Hfrozen : seg_style l = frozen → d = 0).
  { intros Hf. rewrite <- Hst, Hf, update_surface_frozen in Hu. by simplify_eq. }
  rewrite Hu in Hu'. simplify_eq. clear Hu.
  rewrite segments_surface_snoc, length_app in *.
  destruct Hsim as [(-> & Hpre & Hlast)|(B & x & g & st & rest & HS' & -> & Hpre & HKx)].
  - rewrite last_snoc in Hlast. destruct (Hlast l eq_refl) as [Hl|Hl].
    + rewrite Hl in *. simpl in *. lia.
    + rewrite (Hfrozen Hl). lia.
  - destruct rest as [|l' R _] using rev_ind.
    + apply app_inj_tail in HS' as [-> ->]. simpl in *. destruct HKx as [->|Hf].
      * rewrite app_nil_r in Hpre. subst. simpl in *. lia.
      * rewrite (Hfrozen Hf). lia.
    + rewrite app_comm_cons, app_assoc in HS'. apply app_inj_tail in HS' as [-> ->].
      rewrite segments_surface_app. unfold segments_surface. simpl.
      rewrite <- Hpre, !length_app. fold (segments_surface B). lia.
Qed.

Lemma sim_keeps pre S S' es : sim overlap pre S S' → keeps (length pre) S es.
Proof.
  revert S S'. induction es as [|e es IH]; intros S S' Hsim; simpl; [done|].
  destruct (update_segments_Some S e) as (S1 & d & HS & _). rewrite HS.
  pose proof (barrier_sim_bound _ _ _ _ _ _ Hsim HS) as Hd. split; [done|].
  destruct (sim_step overlap pre S S' e S1 d) as (S1' & d' & _ & Hsim'); [by left|done..|].
  by eapply IH.
Qed.

(** Conversion restarts after a barrier. *)
Lemma barrier_run S es c :
  barrier S → convert_elements es = Some c →
  keeps (length (segments_surface S)) S es ∧
  ∃ S1, run_segments S es = Some S1 ∧ segments_surface S1 = segments_surface S ++ c.
Proof.
  intros Hb Hc.
  assert (sim overlap (segments_surface S) S []) as Hsim by (by left).
  pose proof (sim_keeps _ _ _ es Hsim) as Hkeeps. split; [done|].
  destruct (run_sim overlap (segments_surface S) S [] es)
    as (S1 & S1' & H1 & H2 & Hsim1); [by left|done|done|].
  unfold Composing.convert_elements in Hc. rewrite H2 in Hc. simplify_eq/=.
  exists S1. split; [done|]. by apply sim_surface in Hsim1.
Qed.

Lemma run_frozen S gs :
  ∃ S1, run_segments S (frozen_char <$> gs) = Some S1 ∧
    segments_surface S1 = segments_surface S ++ gs ∧ (gs ≠ [] → barrier S1).
Proof.
  revert S. induction gs as [|g gs IH]; intros S.
  { exists S. by rewrite app_nil_r. }
  rewrite fmap_cons, run_segments_cons.
  assert (∃ S1, update_segments S (frozen_char g) = Some (S1, 0) ∧
    segments_surface S1 = segments_surface S ++ [g] ∧ barrier S1) as (S1 & -> & Hs & Hb).
  { destruct S as [|l A _] using rev_ind.
    - rewrite update_segments_nil. rewrite decide_False by done. simpl.
      rewrite update_surface_frozen. simpl. eexists. split_and!; [done|done|].
      intros ? [= <-]. by right.
    - rewrite update_segments_snoc. simpl. rewrite !update_surface_frozen. simpl.
      case_decide as Hst; simpl; eexists; (split_and!; [done| |]).
      + rewrite !segments_surface_snoc. simpl. by rewrite app_assoc.
      + unfold barrier. rewrite last_snoc. intros ? [= <-]. by right.
      + by rewrite (segments_surface_snoc (A ++ [l])).
      + unfold barrier. rewrite last_snoc. intros ? [= <-]. by right. }
  destruct (IH S1) as (S2 & H2 & Hs2 & Hb2). exists S2. split_and!; [done| |].
  - by rewrite Hs2, Hs, <- app_assoc.
  - intros _. destruct gs; [|by apply Hb2]. simpl in H2. rewrite run_segments_nil in H2.
    by simplify_eq.
Qed.

Lemma run_separator S :
  ∃ S1, run_segments S [separator] = Some S1 ∧
    segments_surface S1 = segments_surface S ∧ barrier S1.
Proof.
  rewrite run_segments_cons. destruct S as [|l A _] using rev_ind.
  - rewrite update_segments_nil. simpl. by exists [].
  - rewrite update_segments_snoc. simpl. rewrite !update_surface_frozen. simpl.
    case_decide as Hst; simpl; rewrite run_segments_nil; eexists; (split_and!; [done| |]).
    + rewrite !segments_surface_snoc. simpl. by rewrite app_nil_r.
    + unfold barrier. rewrite last_snoc. intros ? [= <-]. by right.
    + rewrite (segments_surface_snoc (A ++ [l])). simpl. by rewrite app_nil_r.
    + unfold barrier. rewrite last_snoc. intros ? [= <-]. by right.
Qed.

(** *** The stack of independent boundaries *)

Definition above (b b' : IndexPair) : Prop :=
  p_input b' < p_input b ∧ p_surface b' ≤ p_surface b.

Lemma pop_boundaries_spec limit stack :
  StronglySorted above stack →
  StronglySorted above (pop_boundaries limit stack) ∧
  ∀ b, b ∈ pop_boundaries limit stack ↔ b ∈ stack ∧ p_surface b ≤ limit.
Proof.
  induction 1 as [|b stack Hs IH Hb]; simpl.
  { split; [constructor|]. intros b. rewrite elem_of_nil. naive_solver. }
  case_decide as Hlim.
  - split; [by constructor|]. intros b'. split; [|naive_solver].
    intros Hin. split; [done|]. apply elem_of_cons in Hin as [->|Hin]; [done|].
    rewrite Forall_forall in Hb. unfold above in Hb.
    specialize (Hb b' Hin). lia.
  - destruct IH as [IH1 IH2]. split; [done|]. intros b'. rewrite IH2, elem_of_cons.
    naive_solver.
Qed.

Lemma cut_snoc es e S S1 d n s :
  run_segments [] es = Some S → update_segments S e = Some (S1, d) →
  cut (es ++ [e]) n s ↔
    (n = length es + 1 ∧ s = length (segments_surface S1)) ∨
    (cut es n s ∧ d + s ≤ length (segments_surface S)).
Proof.
  intros HS He.
  assert (Hrun : run_segments [] (es ++ [e]) = Some S1).
  { rewrite run_segments_app, HS. simpl. by rewrite run_segments_cons, He. }
  unfold cut. rewrite length_app. simpl. split.
  - intros (Hn & Sn & HSn & Hs & Hk). destruct (decide (n = length es + 1)) as [->|Hne].
    + left. rewrite take_ge in HSn by (rewrite length_app; simpl; lia).
      rewrite Hrun in HSn. by simplify_eq.
    + right. rewrite take_app_le in HSn by lia. rewrite drop_app_le in Hk by lia.
      assert (Hmid : run_segments Sn (drop n es) = Some S).
      { rewrite <- (take_drop n es), run_segments_app, HSn in HS. done. }
      apply (keeps_app _ _ _ _ _ Hmid) in Hk as [Hk1 Hk2]. simpl in Hk2. rewrite He in Hk2.
      split; [|lia]. split; [lia|]. eauto.
  - intros [[-> ->]|[(Hn & Sn & HSn & Hs & Hk) Hd]].
    + split; [lia|]. exists S1. rewrite take_ge, drop_ge by (rewrite length_app; simpl; lia).
      done.
    + split; [lia|]. exists Sn. rewrite take_app_le, drop_app_le by lia.
      split_and!; [done|done|].
      assert (Hmid : run_segments Sn (drop n es) = Some S).
      { rewrite <- (take_drop n es), run_segments_app, HSn in HS. done. }
      apply (keeps_app _ _ _ _ _ Hmid). split; [done|]. simpl. rewrite He. done.
Qed.

Definition bstate_ok (es : list InputElement)
    (st : list IndexPair * list SurfaceSegment * nat * nat) : Prop :=
  let '(stack, segs, clen, i) := st in
  run_segments [] es = Some segs ∧ clen = length (segments_surface segs) ∧ i = length es ∧
  StronglySorted above stack ∧
  ∀ b, b ∈ stack ↔ cut es (p_input b) (p_surface b).

Lemma boundary_step_ok es st e :
  bstate_ok es st → ∃ st', boundary_step tables st e = Some st' ∧ bstate_ok (es ++ [e]) st'.
Proof.
  destruct st as [[[stack segs] clen] i]. intros (HS & -> & -> & Hsort & Hmem).
  destruct (update_segments_Some segs e) as (S1 & d & He & Hd & Hlen & Heq & Hneq).
  unfold boundary_step. rewrite He. simpl.
  pose proof (tail_len_le segs). pose proof (tail_len_le S1).
  assert ((if decide (length S1 = length segs)
     then n ← usub (length (segments_surface segs)) (tail_len segs); Some (n + tail_len S1)
     else Some (length (segments_surface segs) + tail_len S1))
     = Some (length (segments_surface S1))) as ->.
  { case_decide as Hl.
    - rewrite usub_ok by lia. simpl. specialize (Heq Hl). f_equal. lia.
    - by rewrite (Hneq Hl). }
  simpl. eexists. split; [done|].
  destruct (pop_boundaries_spec (length (segments_surface segs) - d) stack Hsort)
    as [Hsort' Hmem'].
  unfold bstate_ok. split_and!.
  - rewrite run_segments_app, HS. simpl. by rewrite run_segments_cons, He.
  - done.
  - rewrite length_app. simpl. lia.
  - constructor; [done|]. apply Forall_forall. intros b Hb.
    apply Hmem' in Hb as [Hb Hlim]. apply Hmem in Hb as (Hn & _). unfold above. simpl. lia.
  - intros b. rewrite elem_of_cons, Hmem', Hmem, (cut_snoc es e segs S1 d) by done.
    destruct b as [n s]. simpl. split.
    + intros [[= -> ->]|[Hc Hs]]; [by left|right]. split; [done|lia].
    + intros [[-> ->]|[Hc Hs]]; [by left|right]. split; [done|lia].
Qed.

Lemma run_boundaries_ok es : ∃ st, run_boundaries tables es = Some st ∧ bstate_ok es st.
Proof.
  induction es as [|e es IH] using rev_ind.
  - eexists. split; [done|]. split_and!; [done|done|done|repeat constructor|].
    intros [n s]. rewrite list_elem_of_singleton. simpl. split.
    + intros [= -> ->]. apply cut_0.
    + intros (Hn & S & HS & Hs & _). simpl in Hn. destruct n; [|lia]. simpl in HS.
      rewrite run_segments_nil in HS. simplify_eq. done.
  - destruct IH as (st & Hst & Hok'). unfold run_boundaries in *.
    rewrite foldl_app, Hst. simpl. by apply boundary_step_ok.
Qed.

(** [independent_boundaries] computes exactly the cuts of the input. *)
Lemma independent_boundaries_ok es :
  ∃ stack, independent_boundaries tables es = Some stack ∧ StronglySorted above stack ∧
    ∀ b, b ∈ stack ↔ cut es (p_input b) (p_surface b).
Proof.
  destruct (run_boundaries_ok es) as ([[[stack segs] clen] i] & Hst & _ & _ & _ & ? & ?).
  unfold independent_boundaries. rewrite Hst. simpl. eauto.
Qed.

(** *** Splitting *)

Lemma find_boundary_spec es c target stack stop :
  convert_elements es = Some c → 0 < target →
  StronglySorted above stack →
  (∀ b, b ∈ stack → cut es (p_input b) (p_surface b)) →
  (Pair 0 0 ∈ stack) →
  cut es (p_input stop) (p_surface stop) → target < p_surface stop →
  (∀ b, b ∈ stack → p_input b ≤ p_input stop ∧ p_surface b ≤ p_surface stop) →
  match find_boundary target stack stop with
  | Exact i => cut es i target ∧
      (∀ b, b ∈ stack → p_surface b < target → p_input b ≤ i)
  | Between st en =>
      cut es (p_input st) (p_surface st) ∧ cut es (p_input en) (p_surface en) ∧
      p_surface st < target < p_surface en ∧ p_input st ≤ p_input en ∧
      (∀ b, b ∈ stack → p_surface b < target → p_input b ≤ p_input st)
  end.
Proof.
  intros Hc Hpos Hsort Hcut H00. revert stop.
  induction Hsort as [|b stack Hsort IH Hb]; intros stop Hstop Hts Hbelow.
  { by apply not_elem_of_nil in H00. }
  rewrite Forall_forall in Hb. simpl.
  assert (Hbb : b ∈ b :: stack) by (apply elem_of_cons; by left).
  case_decide as Heq; [|case_decide as Hlt].
  - subst. split; [by apply Hcut|]. intros b' [->|Hb']%elem_of_cons _; [done|].
    specialize (Hb b' Hb'). unfold above in Hb. lia.
  - destruct (Hbelow b Hbb). split_and!; [by apply Hcut|done|done|done|done|].
    intros b' [->|Hb']%elem_of_cons _; [done|].
    specialize (Hb b' Hb'). unfold above in Hb. lia.
  - apply elem_of_cons in H00 as [<-|H00]; [simpl in *; lia|].
    set (stop' := if decide (p_surface b < p_surface stop) then b else stop).
    assert (Hstop' : cut es (p_input stop') (p_surface stop') ∧ target < p_surface stop' ∧
      ∀ b', b' ∈ stack → p_input b' ≤ p_input stop' ∧ p_surface b' ≤ p_surface stop').
    { unfold stop'. case_decide.
      - split_and!; [by apply Hcut|lia|]. intros b' Hb'. specialize (Hb b' Hb').
        unfold above in Hb. lia.
      - split_and!; [done|done|]. intros b' Hb'. apply Hbelow. apply elem_of_cons. by right. }
    destruct Hstop' as (Hs1 & Hs2 & Hs3).
    specialize (IH (λ b' Hb', Hcut b' (proj2 (elem_of_cons _ _ _) (or_intror Hb')))
      H00 stop' Hs1 Hs2 Hs3).
    destruct (find_boundary target stack stop') as [i|st en].
    + destruct IH as [IH1 IH2]. split; [done|].
      intros b' [->|Hb']%elem_of_cons ?; [lia|]. by apply IH2.
    + destruct IH as (? & ? & ? & ? & IH2). split_and!; try done; try lia.
      intros b' [->|Hb']%elem_of_cons ?; [lia|]. by apply IH2.
Qed.

(** The surface shows the input, and the cursor is inside it. *)
Definition wf (ct : ComposingText) : Prop :=
  convert_elements (input ct) = Some (surface ct) ∧ cursor ct ≤ length (surface ct).

(** Frozen characters convert to themselves in front of what converts on its own. *)
Lemma convert_frozen chars es c :
  chars ≠ [] → convert_elements es = Some c →
  convert_elements ((frozen_char <$> chars) ++ es) = Some (chars ++ c).
Proof.
  intros Hne Hc. destruct (run_frozen [] chars) as (S & HS & Hsurf & Hb).
  destruct (barrier_run S es c (Hb Hne) Hc) as (_ & S' & HS' & Hsurf').
  unfold Composing.convert_elements. rewrite run_segments_app, HS. simpl. rewrite HS'. simpl.
  by rewrite Hsurf', Hsurf.
Qed.

Lemma drop_take_between (c : list Grapheme) s1 s2 t :
  s1 < t → t < s2 → drop (t - s1) (take (s2 - s1) (drop s1 c)) ++ drop s2 c = drop t c.
Proof.
  intros H1 H2. rewrite skipn_firstn_comm, drop_drop. replace (s1 + (t - s1)) with t by lia.
  replace (s2 - s1 - (t - s1)) with (s2 - t) by lia.
  replace (drop s2 c) with (drop (s2 - t) (drop t c)); [apply take_drop|]. rewrite drop_drop. f_equal. lia.
Qed.

(** Freezing the segment between two cuts keeps the conversion, and makes
    every position inside it a cut. *)
Lemma freeze_ok es c n1 s1 n2 s2 t :
  convert_elements es = Some c → cut es n1 s1 → cut es n2 s2 → n1 ≤ n2 →
  s1 < t → t < s2 →
  let part := take (s2 - s1) (drop s1 c) in
  let es' := take n1 es ++ (frozen_char <$> part) ++ drop n2 es in
  convert_elements es' = Some c ∧ cut es' (t - s1 + n1) t ∧ take n1 es' = take n1 es.
Proof.
  intros Hc H1 H2 Hn Hs1 Hs2 part es'.
  destruct (cut_convert _ _ _ _ H1 Hc) as (Hc1 & _ & Hl1).
  destruct (cut_convert _ _ _ _ H2 Hc) as (_ & Hc2 & Hl2).
  assert (Hn1 : n1 ≤ length es) by apply H1.
  assert (Hpart : part = take (t - s1) part ++ drop (t - s1) part) by (by rewrite take_drop).
  assert (Hlp : length part = s2 - s1).
  { unfold part. rewrite length_take, length_drop. lia. }
  assert (Hsplit : take n1 es ++ (frozen_char <$> part) ++ drop n2 es =
    (take n1 es ++ (frozen_char <$> take (t - s1) part)) ++ ((frozen_char <$> drop (t - s1) part) ++ drop n2 es)).
  { rewrite Hpart at 1. rewrite fmap_app. by rewrite <- !app_assoc. }
  assert (Hlen : length (take n1 es ++ (frozen_char <$> take (t - s1) part)) = t - s1 + n1).
  { rewrite length_app, length_fmap, !length_take. lia. }
  unfold Composing.convert_elements in Hc1.
  destruct (run_segments [] (take n1 es)) as [S1|] eqn:HS1; [|done].
  simpl in Hc1. injection Hc1 as Hc1.
  destruct (run_frozen S1 (take (t - s1) part)) as (S2 & HS2 & Hsurf2 & Hb2).
  assert (Hne2 : take (t - s1) part ≠ []).
  { intros E. apply (f_equal length) in E. rewrite length_take in E. simpl in E. lia. }
  specialize (Hb2 Hne2).
  assert (Hne3 : drop (t - s1) part ≠ []).
  { intros E. apply (f_equal length) in E. rewrite length_drop in E. simpl in E. lia. }
  assert (Hc3 : convert_elements ((frozen_char <$> drop (t - s1) part) ++ drop n2 es) = Some (drop t c)).
  { rewrite (convert_frozen _ _ _ Hne3 Hc2). f_equal. by apply drop_take_between. }
  destruct (barrier_run S2 _ _ Hb2 Hc3) as (Hkeeps & S5 & HS5 & Hsurf5).
  assert (HS12 : run_segments [] (take n1 es ++ (frozen_char <$> take (t - s1) part)) = Some S2).
  { by rewrite run_segments_app, HS1. }
  assert (Hsurf2' : segments_surface S2 = take t c).
  { rewrite Hsurf2, Hc1. unfold part. rewrite take_take, Nat.min_l by lia.
    rewrite (take_drop_app s1 t) by lia. done. }
  unfold es'. rewrite Hsplit. split_and!.
  - unfold Composing.convert_elements. rewrite run_segments_app, HS12. simpl.
    rewrite HS5. simpl. by rewrite Hsurf5, Hsurf2', take_drop.
  - split; [rewrite length_app; lia|]. exists S2.
    rewrite <- Hlen at 1. rewrite take_app_length, HS12. split_and!; [done| |].
    + rewrite Hsurf2', length_take. lia.
    + rewrite <- Hlen, drop_app_length. rewrite Hsurf2', length_take in Hkeeps.
      by replace (t `min` length c) with t in Hkeeps by lia.
  - rewrite <- app_assoc, take_app_le by (rewrite length_take; lia).
    by rewrite take_take, Nat.min_id.
Qed.

(** [force_input_cursor] never panics on a text whose surface
    shows its input; it keeps the surface and the cursor, and the index it
    returns is a cut at the requested surface position. Positions before the
    target that were cuts stay cuts, before the returned index. *)
Lemma force_input_cursor_ok ct target :
  convert_elements (input ct) = Some (surface ct) →
  ∃ ct' n, force_input_cursor tables ct target = Some (ct', n) ∧
    cursor ct' = cursor ct ∧ surface ct' = surface ct ∧
    convert_elements (input ct') = Some (surface ct') ∧
    cut (input ct') n (target `min` length (surface ct)) ∧
    (∀ a s, cut (input ct) a s → s < target → 
       a ≤ n ∧ take a (input ct') = take a (input ct)) ∧
    (length (surface ct) ≤ target → 0 < target → n = length (input ct')) ∧
    (target = 0 → n = 0 ∧ ct' = ct).
Proof.
  intros Hc. unfold force_input_cursor.
  case_decide as H0; [|case_decide as Hge].
  { subst. exists ct, 0. split_and!; [done..|apply cut_0|intros; lia|intros; lia|done]. }
  { exists ct, (length (input ct)). split_and!; [done..| | |done|done].
    - rewrite Nat.min_r by done. by apply cut_end.
    - intros a s Ha _. split; [apply Ha|done]. }
  destruct (independent_boundaries_ok (input ct)) as (stack & -> & Hsort & Hmem). simpl.
  pose proof (find_boundary_spec (input ct) (surface ct) target stack
    (Pair (length (input ct)) (length (surface ct))) Hc ltac:(lia) Hsort
    (λ b, proj1 (Hmem b)) (proj2 (Hmem (Pair 0 0)) (cut_0 _)) (cut_end _ _ Hc)
    ltac:(simpl; lia)) as Hfind.
  destruct (find_boundary target stack _) as [i|st en].
  - destruct Hfind as [Hi Hlow].
    { intros b Hb%Hmem. pose proof (cut_convert _ _ _ _ Hb Hc). simpl. split; [apply Hb|lia]. }
    exists ct, i. split_and!; [done..| | |intros; lia|done].
    + by rewrite Nat.min_l by lia.
    + intros a s Ha Hs. split; [|done]. by apply (Hlow (Pair a s)), Hs; apply Hmem.
  - destruct Hfind as (Hst & Hen & [Hs1 Hs2] & Hse & Hlow).
    { intros b Hb%Hmem. pose proof (cut_convert _ _ _ _ Hb Hc). simpl. split; [apply Hb|lia]. }
    pose proof (cut_convert _ _ _ _ Hen Hc) as (_ & _ & Hle).
    assert (p_input en ≤ length (input ct)) by apply Hen.
    rewrite slice_ok by lia. simpl. rewrite splice_ok by lia. simpl.
    rewrite usub_ok by lia. simpl.
    destruct (freeze_ok (input ct) (surface ct) (p_input st) (p_surface st) (p_input en)
      (p_surface en) target Hc Hst Hen Hse Hs1 Hs2) as (Hc' & Hcut & Htake).
    eexists _, _. split; [done|]. simpl.
    split_and!; [done|done|done| | |intros; lia|done].
    + by rewrite Nat.min_l by lia.
    + intros a s Ha Hs. assert (a ≤ p_input st) by (by apply (Hlow (Pair a s)), Hs; apply Hmem).
      split; [lia|]. rewrite <- (Nat.min_l a (p_input st)) by done.
      by rewrite <- !take_take, Htake.
Qed.

Lemma drop_separator_ok es i :
  i ≤ length es →
  ∃ es' r, drop_separator es i = Some (es', r) ∧ r ≤ i ∧ length es' + r = length es ∧
    convert_elements (take (i - r) es') = convert_elements (take i es) ∧
    drop (i - r) es' = drop i es.
Proof.
  intros Hi. unfold drop_separator. case_decide as H0; [|exists es, 0; rewrite Nat.sub_0_r; auto with lia].
  destruct (lookup_lt_is_Some_2 es (i - 1)) as [e He]; [lia|]. rewrite He. simpl.
  case_decide as Hsep; [subst e|exists es, 0; rewrite Nat.sub_0_r; auto with lia].
  rewrite remove_at_ok by lia. simpl. eexists _, 1.
  assert (Hlen : length (take (i - 1) es) = i - 1) by (rewrite length_take; lia).
  replace (S (i - 1)) with i by lia.
  split_and!; [done|lia|rewrite length_app, length_drop; lia| |].
  - rewrite take_app_length' by done.
    rewrite <- (take_S_r es (i - 1) separator He) at 1 || idtac.
    replace (take i es) with (take (i - 1) es ++ [separator]).
    2: { rewrite <- (take_S_r es (i - 1) separator) by done. f_equal. lia. }
    unfold Composing.convert_elements. rewrite run_segments_app.
    destruct (run_segments [] (take (i - 1) es)) as [S1|]; [|done]. simpl.
    destruct (run_separator S1) as (S2 & -> & <- & _). done.
  - by rewrite drop_app_length' by done.
Qed.

Lemma convert_app_barrier P es cP c :
  convert_elements (P ++ [separator]) = Some cP → convert_elements es = Some c →
  convert_elements ((P ++ [separator]) ++ es) = Some (cP ++ c).
Proof.
  unfold Composing.convert_elements. intros HP Hc. rewrite run_segments_app in *.
  destruct (run_segments [] P) as [S1|] eqn:HS1; [|done]. simpl in *.
  destruct (run_separator S1) as (S2 & HS2 & Hs2 & Hb2). rewrite HS2 in HP. simplify_eq/=.
  destruct (barrier_run S2 es c Hb2 Hc) as (_ & S3 & HS3 & Hs3).
  rewrite run_segments_app, HS1. simpl. rewrite HS2. simpl. rewrite HS3. simpl.
  by rewrite Hs3.
Qed.

Lemma convert_separator P c :
  convert_elements P = Some c → convert_elements (P ++ [separator]) = Some c.
Proof.
  unfold Composing.convert_elements. rewrite run_segments_app.
  destruct (run_segments [] P) as [S1|]; [|done]. intros [= <-]. simpl.
  by destruct (run_separator S1) as (S2 & -> & <- & _).
Qed.

(** The text between the start of the text and the cursor, as input, and the
    text from the cursor on. *)
Lemma force_at_cursor ct :
  wf ct → ∃ ct' n es r,
    force_input_cursor tables ct (cursor ct) = Some (ct', n) ∧
    cursor ct' = cursor ct ∧ surface ct' = surface ct ∧
    drop_separator (input ct') n = Some (es, r) ∧ r ≤ n ∧ n - r ≤ length es ∧
    convert_elements (take (n - r) es) = Some (take (cursor ct) (surface ct)) ∧
    convert_elements (drop (n - r) es) = Some (drop (cursor ct) (surface ct)) ∧
    (cursor ct = length (surface ct) → 0 < cursor ct → drop (n - r) es = []) ∧
    (input ct = [] → es = []).
Proof.
  intros [Hc Hcur].
  destruct (force_input_cursor_ok ct (cursor ct) Hc)
    as (ct' & n & Hf & Hcur' & Hsf & Hc' & Hcut & _ & Hend & _).
  rewrite Nat.min_l in Hcut by done. assert (n ≤ length (input ct')) by apply Hcut.
  destruct (drop_separator_ok (input ct') n) as (es & r & Hds & Hr & Hlen & Htake & Hdrop); [done|].
  destruct (cut_convert _ _ _ _ Hcut Hc') as (Ht & Hd & _). rewrite Hsf in *.
  exists ct', n, es, r. split_and!; try done.
  - lia.
  - by rewrite Htake.
  - by rewrite Hdrop.
  - intros E Hpos. rewrite Hdrop, Hend by lia. apply drop_ge. lia.
  - intros E. unfold Composing.convert_elements in Hc. rewrite E in Hc.
    rewrite run_segments_nil in Hc. simpl in Hc. injection Hc as Hc.
    rewrite <- Hc in Hcur. simpl in Hcur.
    unfold force_input_cursor in Hf. rewrite decide_True in Hf by lia. simplify_eq.
    rewrite E in Hlen. simpl in Hlen. by apply length_zero_iff_nil; lia.
Qed.

(** The conversion of the pieces before the cursor followed by new ones. *)
Lemma insert_ok ct elements :
  wf ct → elements ≠ [] → surface ct ≠ [] ∨ input ct = [] →
  ∃ ct' P new, insert tables ct elements = Some ct' ∧ wf ct' ∧
    convert_elements P = Some (take (cursor ct) (surface ct)) ∧
    convert_elements (P ++ elements) = Some new ∧
    surface ct' = new ++ drop (cursor ct) (surface ct) ∧ cursor ct' = length new.
Proof.
  intros Hwf Hne Hcond. pose proof Hwf as [Hc Hcur].
  destruct (force_at_cursor ct Hwf)
    as (ct1 & n & es & r & Hf & Hcur1 & Hsf1 & Hds & Hr & Hn & Ht & Hd & Hend & Hnil).
  unfold insert. destruct elements as [|e0 elements0] eqn:Hel; [done|]. rewrite <- Hel in *.
  clear Hel e0 elements0. rewrite Hf. simpl. rewrite Hds. simpl.
  rewrite Hcur1, Hsf1. set (added := if is_at_end ct1 then elements else elements ++ [separator]).
  set (P := take (n - r) es) in *. set (R := drop (n - r) es) in *.
  assert (HP : length P = n - r) by (unfold P; rewrite length_take; lia).
  rewrite splice_ok by lia. simpl. fold P R.
  rewrite (slice_ok 0 (cursor ct) (surface ct)) by lia. simpl.
  rewrite drop_0, Nat.sub_0_r.
  rewrite (slice_ok 0 _ (P ++ added ++ R)) by (rewrite ?length_app; lia).
  simpl. rewrite drop_0, Nat.sub_0_r.
  replace (take (n - r + length added) (P ++ added ++ R)) with (P ++ added).
  2: { rewrite app_assoc, take_app_length'; [done|]. rewrite length_app. lia. }
  destruct (convert_elements_Some (P ++ elements)) as [new Hnew].
  assert (Hadded : convert_elements (P ++ added) = Some new).
  { unfold added. destruct (is_at_end ct1); [done|]. rewrite app_assoc.
    by apply convert_separator. }
  rewrite Hadded. simpl.
  pose proof (common_prefix_len_le (take (cursor ct) (surface ct)) new) as [Hc1 Hc2].
  rewrite !usub_ok by lia. simpl. rewrite splice_ok by lia. simpl.
  rewrite length_take in *. rewrite usub_ok by lia. simpl.
  eexists _, P, new. split; [done|].
  assert (Hwhole : convert_elements (P ++ added ++ R) = Some (new ++ drop (cursor ct) (surface ct))).
  { unfold added. unfold is_at_end. rewrite Hcur1, Hsf1.
    destruct (Nat.eqb_spec (cursor ct) (length (surface ct))) as [E|E].
    - assert (R = []) as ->.
      { destruct Hcond as [Hs|Hi].
        - apply Hend; [done|]. rewrite E. destruct (surface ct); [done|simpl; lia].
        - unfold R. rewrite (Hnil Hi). by destruct (n - r). }
      rewrite app_nil_r, drop_ge, app_nil_r by lia. done.
    - rewrite app_assoc. rewrite (app_assoc P).
      apply convert_app_barrier; [|done]. rewrite <- app_assoc.
      rewrite app_assoc. by apply convert_separator. }
  simpl. split_and!; [|done|done|done|lia].
  split; simpl; [done|]. rewrite length_app. lia.
Qed.

Lemma take_cut_agree es es' k c1 :
  take k es' = take k es → convert_elements (take k es) = Some c1 →
  convert_elements (take k es') = Some c1.
Proof. by intros ->. Qed.

(** The two splits of a deletion: the target position, then the cursor. *)
Lemma force_twice ct t :
  wf ct → t < cursor ct →
  ∃ ct1 target ct2 current,
    force_input_cursor tables ct t = Some (ct1, target) ∧ cursor ct1 = cursor ct ∧
    force_input_cursor tables ct1 (cursor ct1) = Some (ct2, current) ∧
    cursor ct2 = cursor ct ∧ target ≤ current ∧ current ≤ length (input ct2) ∧
    convert_elements (take target (input ct2)) = Some (take t (surface ct)) ∧
    convert_elements (drop current (input ct2)) = Some (drop (cursor ct) (surface ct)) ∧
    (t = 0 → target = 0) ∧
    (cursor ct = length (surface ct) → current = length (input ct2)).
Proof.
  intros [Hc Hcur] Ht.
  destruct (force_input_cursor_ok ct t Hc)
    as (ct1 & n1 & Hf1 & Hcur1 & Hsf1 & Hc1 & Hcut1 & _ & _ & Hzero).
  rewrite Nat.min_l in Hcut1 by lia.
  destruct (force_input_cursor_ok ct1 (cursor ct1) Hc1)
    as (ct2 & n2 & Hf2 & Hcur2 & Hsf2 & Hc2 & Hcut2 & Hkeep & Hend & _).
  rewrite Hcur1, Hsf1, Nat.min_l in Hcut2 by lia.
  destruct (Hkeep n1 t Hcut1 ltac:(lia)) as [Hle Htake].
  destruct (cut_convert _ _ _ _ Hcut1 Hc1) as (Ht1 & _ & _).
  destruct (cut_convert _ _ _ _ Hcut2 Hc2) as (_ & Hd2 & _).
  rewrite Hsf1 in *. rewrite Hsf2 in Hd2.
  exists ct1, n1, ct2, n2. split_and!; try done; [congruence|apply Hcut2| | |].
  - by rewrite Htake.
  - intros E. by apply Hzero.
  - intros E. apply Hend; lia.
Qed.

(** Removing the input between two positions, leaving a separator when both
    sides are non-empty. *)
Lemma remove_range_ok es target current cP cR :
  target ≤ current → current ≤ length es →
  convert_elements (take target es) = Some cP →
  convert_elements (drop current es) = Some cR →
  ∃ es', (if decide (target = 0 ∨ current = length es) then splice target current [] es
          else splice target current [separator] es) = Some es' ∧
    convert_elements es' = Some (cP ++ cR) ∧ (target = 0 → es' = drop current es).
Proof.
  intros Htc Hcl HP HR. case_decide as Hd; rewrite splice_ok by lia; eexists;
    (split_and!; [done| |intros ->; first [done|by destruct Hd; left]]).
  - simpl. destruct Hd as [->| ->].
    + rewrite take_0 in *. unfold Composing.convert_elements in HP. simplify_eq/=. done.
    + rewrite drop_ge in * by lia. unfold Composing.convert_elements in HR.
      simplify_eq/=. by rewrite !app_nil_r.
  - rewrite app_assoc. apply convert_app_barrier; [|done]. by apply convert_separator.
Qed.

Lemma delete_backward_ok ct count :
  wf ct →
  ∃ ct', delete_backward tables ct count = Some ct' ∧ wf ct' ∧
    let k := count `min` cursor ct in
    cursor ct' = cursor ct - k ∧
    surface ct' = take (cursor ct - k) (surface ct) ++ drop (cursor ct) (surface ct) ∧
    (settled ct → settled ct').
Proof.
  intros Hwf. pose proof Hwf as [Hc Hcur]. unfold delete_backward.
  set (k := count `min` cursor ct). case_decide as Hk.
  { exists ct. simpl. rewrite Hk, Nat.sub_0_r, take_drop. auto. }
  assert (k ≤ cursor ct) by (unfold k; lia). clearbody k.
  rewrite usub_ok by lia. simpl.
  destruct (force_twice ct (cursor ct - k) Hwf ltac:(lia))
    as (ct1 & target & ct2 & current & Hf1 & Hcur1 & Hf2 & Hcur2 & Htc & Hcl & HP & HR & Hzero & Hfull).
  rewrite Hf1. simpl. rewrite Hf2. simpl.
  destruct (drop_separator_ok (input ct2) target)
    as (es & r & Hds & Hr & Hlen & Htake & Hdrop); [lia|].
  rewrite Hds. simpl. rewrite (usub_ok current r) by lia. simpl.
  destruct (remove_range_ok es (target - r) (current - r)
    (take (cursor ct - k) (surface ct)) (drop (cursor ct) (surface ct)))
    as (es' & Hes' & Hc' & Hdropped); [lia|lia|by rewrite Htake| |].
  { replace (drop (current - r) es) with (drop current (input ct2)); [done|].
    replace current with (target + (current - target)) at 1 by lia.
    rewrite <- drop_drop, <- Hdrop, drop_drop. f_equal. lia. }
  rewrite Hes'. simpl. rewrite Hcur2, usub_ok by lia. simpl. rewrite Hc'. simpl.
  eexists. split; [done|]. split_and!; [split; simpl; [done|]|done|done|].
  { rewrite length_app, length_take, length_drop. lia. }
  intros _. unfold settled. simpl. intros E. apply (f_equal length) in E. revert E.
  rewrite length_app, length_take, length_drop. simpl. intros E.
  rewrite Hdropped by (rewrite Hzero; lia).
  apply drop_ge. rewrite Hfull by lia. lia.
Qed.

Lemma delete_forward_ok ct count :
  wf ct →
  ∃ ct', delete_forward tables ct count = Some ct' ∧ wf ct' ∧
    cursor ct' = cursor ct ∧
    surface ct' = take (cursor ct) (surface ct) ++ drop (cursor ct + count) (surface ct) ∧
    (settled ct → settled ct').
Proof.
  intros Hwf. pose proof Hwf as [Hc Hcur]. unfold delete_forward.
  rewrite usub_ok by done. simpl. case_decide as Hk.
  { exists ct. split_and!; [done|done|done| |done]. destruct (decide (count = 0)) as [->|].
    - by rewrite Nat.add_0_r, take_drop.
    - rewrite drop_ge, app_nil_r, take_ge by lia. done. }
  set (k := count `min` (length (surface ct) - cursor ct)) in *.
  destruct (delete_backward_ok
    {| cursor := cursor ct + k; input := input ct; surface := surface ct |} k)
    as (ct' & -> & Hwf' & Hcur' & Hsf' & Hset); [split; simpl; [done|lia]|].
  simpl in *. rewrite Nat.min_l in * by lia. exists ct'.
  replace (cursor ct + k - k) with (cursor ct) in * by lia.
  split_and!; [done|done|done| |exact Hset]. rewrite Hsf'. f_equal.
  destruct (decide (count ≤ length (surface ct) - cursor ct)).
  - f_equal. lia.
  - rewrite !drop_ge by lia. done.
Qed.

Lemma move_cursor_ok ct count :
  wf ct → ∃ ct' moved, move_cursor ct count = Some (ct', moved) ∧ wf ct' ∧
    input ct' = input ct ∧ surface ct' = surface ct ∧
    (Z.of_nat (cursor ct') = Z.of_nat (cursor ct) + moved)%Z ∧
    (Z.of_nat (cursor ct') =
       Z.max 0 (Z.min (Z.of_nat (length (surface ct))) (Z.of_nat (cursor ct) + count)))%Z.
Proof.
  intros [Hc Hcur]. unfold move_cursor. rewrite usub_ok by done. simpl.
  eexists _, _. split; [done|]. simpl. split_and!; [|done|done|lia|lia].
  split; simpl; [done|lia].
Qed.

Lemma complete_surface_ok ct n :
  wf ct →
  ∃ ct', complete_prefix tables ct (CSurface n) = Some ct' ∧ wf ct' ∧
    surface ct' = drop n (surface ct) ∧
    cursor ct' = (if decide (cursor ct ≤ n) then length (surface ct') else cursor ct - n) ∧
    (settled ct → settled ct').
Proof.
  intros [Hc Hcur]. simpl. set (k := n `min` length (surface ct)).
  destruct (force_input_cursor_ok ct k Hc)
    as (ct1 & i & Hf & Hcur1 & Hsf1 & Hc1 & Hcut & _ & Hend & Hzero).
  rewrite Hf. simpl. assert (k ≤ length (surface ct)) by (unfold k; lia).
  rewrite Nat.min_l in Hcut by done. assert (i ≤ length (input ct1)) by apply Hcut.
  rewrite (splice_ok 0 i) by lia. simpl. rewrite splice_ok by (rewrite ?Hsf1; lia). simpl.
  destruct (cut_convert _ _ _ _ Hcut Hc1) as (_ & Hd & _).
  eexists. split; [done|].
  assert (Hsfk : drop k (surface ct1) = drop n (surface ct)).
  { rewrite Hsf1. unfold k. destruct (decide (n ≤ length (surface ct))).
    - by rewrite Nat.min_l by done.
    - rewrite !drop_ge by lia. done. }
  simpl. rewrite Hsfk in *. split_and!; [split; simpl; [done|]|done| |].
  - unfold cursor_after. case_decide; [done|]. rewrite length_drop, Hcur1. unfold k. lia.
  - unfold cursor_after. rewrite Hcur1. unfold k.
    repeat case_decide; rewrite ?length_drop; lia.
  - unfold settled. simpl. intros Hset E. apply (f_equal length) in E.
    rewrite length_drop in E. simpl in E. destruct (decide (surface ct = [])) as [Es|Es].
    + rewrite Es in *. simpl in *. destruct Hzero as [-> ->]; [unfold k; lia|].
      by rewrite Hset.
    + assert (length (surface ct) ≠ 0) by (by destruct (surface ct)).
      apply drop_ge. rewrite Hend; unfold k; lia.
Qed.

(** Completing a prefix of the input is safe when the remaining input does not
    render longer than the whole surface; see [complete_input_can_panic]. *)
Lemma complete_input_ok ct n c :
  wf ct → convert_elements (drop n (input ct)) = Some c → length c ≤ length (surface ct) →
  ∃ ct', complete_prefix tables ct (CInput n) = Some ct' ∧ wf ct' ∧
    input ct' = drop n (input ct) ∧ surface ct' = c.
Proof.
  intros [Hc Hcur] Hconv Hlen. simpl. rewrite splice_ok by lia. simpl.
  rewrite drop_min_length, Hconv. simpl. rewrite usub_ok by lia. simpl. eexists. split; [done|].
  split_and!; [split; simpl; [done|]|done|done].
  unfold cursor_after. case_decide; lia.
Qed.

Lemma prefix_to_cursor_ok ct :
  wf ct → ∃ ct', prefix_to_cursor tables ct = Some ct' ∧ wf ct' ∧
    surface ct' = take (cursor ct) (surface ct) ∧ is_at_end ct' = true.
Proof.
  intros [Hc Hcur]. unfold prefix_to_cursor.
  destruct (force_input_cursor_ok ct (cursor ct) Hc)
    as (ct1 & i & Hf & Hcur1 & Hsf1 & Hc1 & Hcut & _ & _ & _).
  rewrite Hf. simpl. rewrite Nat.min_l in Hcut by done.
  destruct (cut_convert _ _ _ _ Hcut Hc1) as (Ht & _ & _).
  eexists. split; [done|]. rewrite Hcur1, Hsf1 in *.
  assert (length (take (cursor ct) (surface ct)) = cursor ct) by (rewrite length_take; lia).
  split_and!; [split; simpl; [done|lia]|done|].
  unfold is_at_end. simpl. apply Nat.eqb_eq. lia.
Qed.
End conversion.
