(* ===== verification/ComposingSpec.v ===== *)
(** * What editing the composing text promises

    The theorems about src/crates/converter/src/input/composing.rs: the
    independent boundaries, each editing operation as an edit of the surface,
    and the safety of every sequence of edits. *)

From S2P Require Import Prelude Unicode InputTable DefaultTables Composing.

(** ** The default registry meets the assumptions *)

Definition default_registry : InputTableRegistry :=
  {| empty := empty_table; roman_to_kana := roman_table; azik := azik_table;
     kana_jis := kana_jis_table; kana_us := kana_us_table; custom := ∅ |}.

Lemma default_registry_eq : @registry_default scalar_clusters = default_registry.
Proof. by vm_compute. Qed.

(** The default tables are large: the checks on them run in the virtual machine
    and their results are used as opaque facts. *)
Lemma roman_silent : apply roman_table [] CompositionSeparator = Some ([], 0).
Proof. by vm_compute. Qed.
Lemma azik_silent : apply azik_table [] CompositionSeparator = Some ([], 0).
Proof. by vm_compute. Qed.
Lemma kana_jis_silent : apply kana_jis_table [] CompositionSeparator = Some ([], 0).
Proof. by vm_compute. Qed.
Lemma kana_us_silent : apply kana_us_table [] CompositionSeparator = Some ([], 0).
Proof. by vm_compute. Qed.

(** The tables a style of the default registry resolves to. *)
Lemma default_registry_resolve style t (P : InputTable → Prop) :
  resolve default_registry style = Some t →
  P empty_table → P roman_table → P azik_table → P kana_jis_table → P kana_us_table → P t.
Proof.
  intros Ht. destruct style as [| |[]];
    cbn [resolve default_registry empty roman_to_kana azik kana_jis kana_us custom] in Ht;
    [discriminate|injection Ht as <-; auto..].
Qed.

Lemma default_registry_ok : registry_ok default_registry.
Proof.
  split; [done|]. intros style t Ht.
  apply (default_registry_resolve style t (λ t, apply t [] CompositionSeparator = Some ([], 0)));
    auto using roman_silent, azik_silent, kana_jis_silent, kana_us_silent.
Qed.

(** ** Rules that leave something to see

    A piece other than a separator always leaves some text in front of the cursor,
    and a separator does not erase what is there. *)

Definition steady (t : InputTable) : Prop :=
  ∀ buffer p out d, apply t buffer p = Some (out, d) →
    p ≠ CompositionSeparator ∨ buffer ≠ [] → out ≠ [].

Definition writes_character (v : list ValueElement) : bool :=
  existsb (λ e, match e with VCharacter _ => true | VAny => false end) v.

Lemma writes_character_render rw v :
  writes_character v = true → v ≫= render_element rw ≠ [].
Proof.
  induction v as [|e v IH]; simpl; [done|]. destruct e; simpl; [done|].
  intros H E. apply app_eq_nil in E as [_ E]. by apply IH.
Qed.

Definition rule_steady (m : Mapping) : bool :=
  writes_character (value m)
  || (bool_decide (key m = [Piece CompositionSeparator]) && bool_decide (value m = [])).

Lemma match_separator t i m buffer p b :
  key m = [Piece CompositionSeparator] → match_mapping t i m buffer p = Some b →
  p = CompositionSeparator ∧ depth b = 1.
Proof.
  unfold match_mapping. intros -> Hb. case_decide; [done|]. cbn in Hb.
  destruct p; cbn in Hb; [done| |done]. by injection Hb as <-.
Qed.

Lemma forallb_steady t : forallb rule_steady (mappings t) = true → steady t.
Proof.
  intros Hall buffer p out d. unfold apply.
  destruct (best_match t buffer p) as [b|] eqn:Hb.
  - apply best_match_mapping in Hb as (m & Hm & Hmm & _). rewrite Hm. cbn [mbind option_bind].
    intros [= <- <-] Hp E. apply app_eq_nil in E as [Ekept E].
    rewrite forallb_forall in Hall. apply list_elem_of_lookup_2, list_elem_of_In, Hall in Hm.
    unfold rule_steady in Hm. apply orb_true_iff in Hm as [Hw|Hm].
    + by apply (writes_character_render (resolved_wildcard b)) in Hw.
    + apply andb_true_iff in Hm as [Hk%bool_decide_eq_true _].
      apply (match_separator _ _ _ _ _ _ Hk) in Hmm as [-> Hd]. rewrite Hd in Ekept.
      rewrite take_ge in Ekept by lia. by destruct Hp.
  - destruct (displayed p) as [v|] eqn:Hv; intros [= <- <-] Hp E; [by apply app_eq_nil in E as [_ ?]|].
    destruct Hp as [Hp|Hp]; [by destruct p|done].
Qed.

Definition registry_steady (tables : InputTableRegistry) : Prop :=
  ∀ style t, resolve tables style = Some t → steady t.

Lemma roman_steady : steady roman_table.
Proof. apply forallb_steady. by vm_compute. Qed.
Lemma azik_steady : steady azik_table.
Proof. apply forallb_steady. by vm_compute. Qed.
Lemma kana_jis_steady : steady kana_jis_table.
Proof. apply forallb_steady. by vm_compute. Qed.
Lemma kana_us_steady : steady kana_us_table.
Proof. apply forallb_steady. by vm_compute. Qed.

Lemma default_registry_steady : registry_steady default_registry.
Proof.
  intros style t Ht. apply (default_registry_resolve style t steady);
    auto using forallb_steady, roman_steady, azik_steady, kana_jis_steady, kana_us_steady.
Qed.

(** ** Custom tables

    A table may be added when no rule of its writes a character for a composition
    separator alone. *)

Definition rule_silent (m : Mapping) : bool :=
  match key m with
  | [Piece CompositionSeparator] | [AnyKey] => negb (writes_character (value m))
  | _ => true
  end.

Lemma silent_render rw v :
  writes_character v = false → rw ≫= displayed = None → v ≫= render_element rw = [].
Proof.
  intros Hv Hrw. induction v as [|[w|] v IH]; simpl in *; [done..|]. rewrite Hrw. by apply IH.
Qed.

(** Only a rule of one key element matches a separator alone. *)
Lemma match_separator_alone t i m b :
  match_mapping t i m [] CompositionSeparator = Some b →
  (key m = [Piece CompositionSeparator] ∨ key m = [AnyKey]) ∧ depth b = 1 ∧ resolved_wildcard b ≫= displayed = None.
Proof.
  unfold match_mapping. case_decide as Hk; [done|]. intros Hb.
  destruct (key m) as [|e k _] using rev_ind; [naive_solver|].
  rewrite reverse_snoc in Hb. destruct k as [|e' k _] using rev_ind.
  - destruct e as [[]|]; cbn in Hb; [by case_decide|by simplify_eq/=; auto|done|by simplify_eq/=; auto].
  - rewrite reverse_snoc in Hb. destruct e as [[]|]; cbn in Hb; try done; by case_decide.
Qed.

Lemma forallb_silent t : forallb rule_silent (mappings t) = true → apply t [] CompositionSeparator = Some ([], 0).
Proof.
  intros Hall. unfold apply. destruct (best_match t [] CompositionSeparator) as [b|] eqn:Hb; [|done].
  apply best_match_mapping in Hb as (m & Hm & Hmm & _). rewrite Hm. cbn [mbind option_bind].
  apply match_separator_alone in Hmm as (Hk & -> & Hrw).
  rewrite forallb_forall in Hall. apply list_elem_of_lookup_2, list_elem_of_In, Hall in Hm. unfold rule_silent in Hm.
  assert (writes_character (value m) = false) as Hw by (by destruct Hk as [Hk|Hk]; rewrite Hk in Hm; apply negb_true_iff).
  by rewrite (silent_render _ _ Hw Hrw).
Qed.

(** A style resolves to the table registered last or to one that was there. *)
Lemma resolve_register tables name t style t' :
  resolve (register tables name t) style = Some t' → resolve tables style = Some t' ∨ t' = t.
Proof.
  intros Hr. destruct style as [| |[| | | | |name']]; cbn [resolve register] in *; [done|by left..|].
  simpl in Hr. destruct (decide (name' = name)) as [->|Hne].
  - rewrite lookup_insert_eq in Hr. injection Hr as <-. by right.
  - left. by rewrite lookup_insert_ne in Hr.
Qed.

(** Registering such a table keeps what the operations rely on. *)
Lemma register_ok tables name t :
  registry_ok tables → forallb rule_silent (mappings t) = true → registry_ok (register tables name t).
Proof.
  intros [He Hs] Ht. split; [done|]. intros style t' Hr.
  assert (resolve tables style = Some t' ∨ t' = t) as [Hr'| ->]; [|by eapply Hs|by apply forallb_silent].
  by eapply resolve_register.
Qed.

(** A table all of whose rules leave something to see keeps this of the registry. *)
Lemma register_steady tables name t :
  registry_steady tables → forallb rule_steady (mappings t) = true → registry_steady (register tables name t).
Proof.
  intros Hs Ht style t' Hr.
  assert (resolve tables style = Some t' ∨ t' = t) as [Hr'| ->]; [|by eapply Hs|by apply forallb_steady].
  by eapply resolve_register.
Qed.

(** ** Boundaries *)

(** C15. [independent_boundaries] never fails, and each pair (i, s) it
    returns splits the text: the first [i] pieces convert to the first [s]
    graphemes of the surface and the other pieces, converted on their own, to
    the rest. Both ends of the text are among the boundaries. *)
Theorem independent_boundaries_split tables es c :
  registry_ok tables → convert_elements tables es = Some c →
  ∃ stack, independent_boundaries tables es = Some stack ∧
    Pair 0 0 ∈ stack ∧ Pair (length es) (length c) ∈ stack ∧
    ∀ b, b ∈ stack →
      convert_elements tables (take (p_input b) es) = Some (take (p_surface b) c) ∧
      convert_elements tables (drop (p_input b) es) = Some (drop (p_surface b) c).
Proof.
  intros Hok Hc. destruct (independent_boundaries_ok tables es) as (stack & Hs & _ & Hmem).
  exists stack. split_and!; [done|by apply Hmem, cut_0|by apply Hmem, cut_end|].
  intros b Hb%Hmem. by destruct (cut_convert tables Hok _ _ _ _ Hb Hc) as (? & ? & _).
Qed.

(** The pieces of a text typed in a style, one scalar value per cluster. *)
Definition typed_text (style : InputStyle) (s : string) : list InputElement :=
  (λ c, character [c] style) <$> u s.

Example boundaries_kyouha :
  independent_boundaries default_registry (typed_text RomanToKana "kyouha") =
    Some [Pair 6 4; Pair 4 3; Pair 3 2; Pair 0 0].
Proof. by vm_compute. Qed.

Definition kyouha_surface : list Grapheme := [u "き"; u "ょ"; u "う"; u "は"].

Lemma kyouha_converts :
  convert_elements default_registry (typed_text RomanToKana "kyouha") = Some kyouha_surface.
Proof. by vm_compute. Qed.

Lemma independent_boundaries_split_witness :
  ∃ stack,
    independent_boundaries default_registry (typed_text RomanToKana "kyouha") = Some stack ∧
    Pair 0 0 ∈ stack.
Proof.
  destruct (independent_boundaries_split default_registry _ _ default_registry_ok
    kyouha_converts) as (stack & Hs & H0 & _).
  exact (ex_intro _ stack (conj Hs H0)).
Defined.

(** ** Insertion *)

Lemma update_surface_direct tables sf p :
  update_surface tables sf p Direct = Some (sf ++ option_list (displayed p), 0).
Proof. done. Qed.

Lemma run_direct tables S gs :
  ∃ S1, run_segments tables S ((λ g, character g Direct) <$> gs) = Some S1 ∧
    segments_surface S1 = segments_surface S ++ gs.
Proof.
  revert S. induction gs as [|g gs IH]; intros S.
  { exists S. by rewrite app_nil_r. }
  rewrite fmap_cons, run_segments_cons.
  assert (∃ S1, update_segments tables S (character g Direct) = Some (S1, 0) ∧
    segments_surface S1 = segments_surface S ++ [g]) as (S1 & -> & Hs).
  { destruct S as [|l A _] using rev_ind.
    - by eexists.
    - rewrite update_segments_snoc. simpl. case_decide; simpl; eexists; (split; [done|]).
      + rewrite !segments_surface_snoc. simpl. by rewrite app_assoc.
      + by rewrite (segments_surface_snoc (A ++ [l])). }
  destruct (IH S1) as (S2 & H2 & Hs2). exists S2. split; [done|].
  by rewrite Hs2, Hs, <- app_assoc.
Qed.

Lemma convert_direct tables P cP gs :
  convert_elements tables P = Some cP →
  convert_elements tables (P ++ ((λ g, character g Direct) <$> gs)) = Some (cP ++ gs).
Proof.
  unfold convert_elements. rewrite run_segments_app.
  destruct (run_segments tables [] P) as [S|]; [|done]. intros [= <-]. simpl.
  destruct (run_direct tables S gs) as (S1 & -> & <-). done.
Qed.

(** C26. [insert] of some pieces in a text whose surface shows its input, and is not empty
    over separators left behind (see [insert_before_invisible_input]), never panics and
    edits the surface locally: what follows the cursor is unchanged, what
    precedes it becomes the conversion of the pieces typed before the cursor
    followed by the new ones, the cursor ends after it, and the new surface
    shows the new input. *)
Theorem insert_edits_before_cursor tables ct elements :
  registry_ok tables → wf tables ct → elements ≠ [] → surface ct ≠ [] ∨ input ct = [] →
  ∃ ct' P new, insert tables ct elements = Some ct' ∧ wf tables ct' ∧
    convert_elements tables P = Some (take (cursor ct) (surface ct)) ∧
    convert_elements tables (P ++ elements) = Some new ∧
    surface ct' = new ++ drop (cursor ct) (surface ct) ∧ cursor ct' = length new.
Proof. intros Hok. by apply insert_ok. Qed.

Definition text_of (ct : option ComposingText) : option ustring :=
  (λ c, concat (surface c)) <$> ct.

(** "nana" typed in romaji, the cursor between the two kana. *)
Definition nana : ComposingText :=
  {| cursor := 1; input := typed_text RomanToKana "nana"; surface := [u "な"; u "な"] |}.

Lemma nana_wf : wf default_registry nana.
Proof. split; [by vm_compute|simpl; lia]. Qed.

Lemma insert_edits_before_cursor_witness :
  (∃ ct' P new, insert default_registry nana (typed_text RomanToKana "k") = Some ct' ∧
     wf default_registry ct' ∧
     convert_elements default_registry P = Some (take (cursor nana) (surface nana)) ∧
     convert_elements default_registry (P ++ typed_text RomanToKana "k") = Some new ∧
     surface ct' = new ++ drop (cursor nana) (surface nana) ∧ cursor ct' = length new) ∧
  text_of (insert default_registry nana (typed_text RomanToKana "k")) = Some (u "なkな").
Proof.
  split; [|by vm_compute].
  apply insert_edits_before_cursor; [apply default_registry_ok|apply nana_wf|done|by left].
Defined.

(** Text inserted in the direct style appears as it is at the cursor,
    and the cursor moves behind it. *)
Theorem insert_str_direct `{Segmentation} tables ct text :
  registry_ok tables → wf tables ct → surface ct ≠ [] ∨ input ct = [] →
  ∃ ct', insert_str tables ct text Direct = Some ct' ∧ wf tables ct' ∧
    surface ct' = take (cursor ct) (surface ct) ++ graphemes text ++
                  drop (cursor ct) (surface ct) ∧
    cursor ct' = cursor ct + length (graphemes text).
Proof.
  intros Hok Hwf Hcond. unfold insert_str. destruct (decide (graphemes text = [])) as [E|E].
  { rewrite E. simpl. exists ct. rewrite take_drop, Nat.add_0_r. done. }
  destruct (insert_ok tables Hok ct ((λ g, character g Direct) <$> graphemes text))
    as (ct' & P & new & Hins & Hwf' & HP & Hnew & Hsf & Hcur); [done| |done|].
  { by destruct (graphemes text). }
  rewrite (convert_direct tables P _ _ HP) in Hnew. injection Hnew as <-.
  exists ct'. split_and!; [done|done|by rewrite Hsf, <- app_assoc|].
  destruct Hwf as [_ ?]. rewrite Hcur, length_app, length_take. lia.
Qed.

Lemma insert_str_direct_witness :
  ∃ ct', @insert_str default_registry scalar_clusters nana (u "xy") Direct = Some ct' ∧
    surface ct' = [u "な"; u "x"; u "y"; u "な"] ∧ cursor ct' = 3.
Proof.
  destruct (@insert_str_direct scalar_clusters default_registry nana (u "xy"))
    as (ct' & Hins & _ & Hsf & Hcur); [apply default_registry_ok|apply nana_wf|by left|].
  exists ct'. split_and!; [done|by rewrite Hsf|by rewrite Hcur].
Defined.

(** ** Deletion, movement and completion *)

(** C27. [delete_backward] never panics and removes exactly the [count]
    graphemes before the cursor (all of them when there are fewer): the rules of
    the tables never recombine what is left across the removed part. *)
Theorem delete_backward_exact tables ct count :
  registry_ok tables → wf tables ct →
  ∃ ct', delete_backward tables ct count = Some ct' ∧ wf tables ct' ∧
    cursor ct' = cursor ct - count `min` cursor ct ∧
    surface ct' = take (cursor ct - count `min` cursor ct) (surface ct) ++
                  drop (cursor ct) (surface ct).
Proof.
  intros Hok Hwf. destruct (delete_backward_ok tables Hok ct count Hwf)
    as (ct' & ? & ? & ? & ? & _). eauto.
Qed.

Lemma delete_backward_exact_witness :
  ∃ ct', delete_backward default_registry nana 1 = Some ct' ∧ surface ct' = [u "な"].
Proof.
  destruct (delete_backward_exact default_registry nana 1) as (ct' & ? & _ & _ & ?);
    [apply default_registry_ok|apply nana_wf|].
  exists ct'. split; assumption.
Defined.

(** Completing a prefix of the surface never panics, removes exactly
    that prefix from the surface, and leaves a text whose surface shows its
    input; the cursor keeps its place in the rest, or goes to the end of it when
    it was in the removed prefix. *)
Theorem complete_surface_exact tables ct n :
  registry_ok tables → wf tables ct →
  ∃ ct', complete_prefix tables ct (CSurface n) = Some ct' ∧ wf tables ct' ∧
    surface ct' = drop n (surface ct) ∧
    cursor ct' = (if decide (cursor ct ≤ n) then length (surface ct') else cursor ct - n).
Proof.
  intros Hok Hwf. destruct (complete_surface_ok tables Hok ct n Hwf)
    as (ct' & ? & ? & ? & ? & _). eauto.
Qed.

Lemma complete_surface_exact_witness :
  ∃ ct', complete_prefix default_registry nana (CSurface 1) = Some ct' ∧
    surface ct' = [u "な"] ∧ cursor ct' = 1.
Proof.
  destruct (complete_surface_exact default_registry nana 1) as (ct' & ? & _ & Hs & Hc);
    [apply default_registry_ok|apply nana_wf|].
  exists ct'. split_and!; [done|done|]. by rewrite Hc, Hs.
Defined.

(** "wyi" typed in romaji shows one kana, but its tail "yi" shows two. *)
Definition wyi : ComposingText :=
  {| cursor := 1; input := typed_text RomanToKana "wyi"; surface := [u "ゐ"] |}.

(** Completing a prefix of the input can make the remaining surface
    longer than the whole surface was; the length difference the code computes
    on [usize] then goes below zero (a panic in a build with overflow checks).
    It happens with the default romaji rules: one input piece of "wyi". *)
Theorem complete_input_can_panic :
  wf default_registry wyi ∧ complete_prefix default_registry wyi (CInput 1) = None ∧
  convert_elements default_registry (drop 1 (input wyi)) = Some [u "y"; u "い"].
Proof. split; [split; [by vm_compute|simpl; lia]|]. by vm_compute. Qed.

(** ** What insertions leave to see *)

Lemma run_single tables S e :
  run_segments tables S [e] = (λ r : list SurfaceSegment * nat, r.1) <$> update_segments tables S e.
Proof. rewrite run_segments_cons. by destruct (update_segments tables S e). Qed.

Section steady.
Context (tables : InputTableRegistry) (Hsteady : registry_steady tables).

Lemma update_surface_steady sf p style out d :
  update_surface tables sf p style = Some (out, d) → p ≠ CompositionSeparator ∨ sf ≠ [] → out ≠ [].
Proof.
  unfold update_surface. destruct (resolve tables style) as [t|] eqn:Ht; [by apply (Hsteady style)|].
  intros [= <- <-] Hp E. apply app_eq_nil in E as [-> E].
  destruct Hp as [Hp|]; [|done]. by destruct p.
Qed.

Lemma update_segments_steady segs e segs' d :
  update_segments tables segs e = Some (segs', d) →
  piece e ≠ CompositionSeparator ∨ segments_surface segs ≠ [] → segments_surface segs' ≠ [].
Proof.
  destruct segs as [|l A _] using rev_ind.
  - rewrite update_segments_nil. intros Hu [Hp|?]; [|done]. rewrite decide_False in Hu by done.
    destruct (update_surface tables [] (piece e) (input_style e)) as [[out d1]|] eqn:Hs; [|done].
    injection Hu as <- <-. cbn. rewrite app_nil_r. eapply update_surface_steady; [done|by left].
  - rewrite update_segments_snoc, segments_surface_snoc. intros Hu Hp. case_decide.
    + destruct (update_surface tables _ _ _) as [[out d1]|] eqn:Hs; [|done].
      injection Hu as <- <-. rewrite segments_surface_snoc. cbn [seg_graphemes fst].
      intros [EA Eout]%app_eq_nil. eapply update_surface_steady; [done| |done].
      rewrite EA in Hp. exact Hp.
    + destruct (update_surface tables _ _ _) as [[out d1]|] eqn:Hs; [|done].
      injection Hu as <- <-. rewrite (segments_surface_snoc (A ++ [l])), segments_surface_snoc.
      cbn [seg_graphemes fst]. intros [EA Eout]%app_eq_nil. destruct Hp as [Hp|Hp]; [|done].
      eapply update_surface_steady; [exact Hs| |done]. by left.
Qed.

Lemma convert_steady P e c :
  convert_elements tables (P ++ [e]) = Some c →
  piece e ≠ CompositionSeparator ∨ convert_elements tables P ≠ Some [] → c ≠ [].
Proof.
  unfold convert_elements. rewrite run_segments_app.
  destruct (run_segments tables [] P) as [segs|]; [|done]. cbn [mbind option_bind].
  rewrite run_single. destruct (update_segments tables segs e) as [[segs' d]|] eqn:Hu; [|done].
  cbn. intros [= <-] Hp. eapply update_segments_steady; [done|].
  destruct Hp as [Hp|Hp]; [by left|right]. intros E. apply Hp. by rewrite E.
Qed.

(** A piece other than a separator, or a text before them: there is something to see. *)
Lemma convert_steady_app P es c :
  convert_elements tables (P ++ es) = Some c →
  Exists (λ e, piece e ≠ CompositionSeparator) es ∨ convert_elements tables P ≠ Some [] → c ≠ [].
Proof.
  revert c. induction es as [|e es IH] using rev_ind; intros c Hc Hes.
  - destruct Hes as [Hes|Hes]; [by apply Exists_nil in Hes|]. rewrite app_nil_r in Hc. by intros ->.
  - rewrite app_assoc in Hc. apply (convert_steady _ _ _ Hc). rewrite Exists_app, Exists_cons, Exists_nil in Hes.
    destruct (decide (piece e = CompositionSeparator)) as [He|He]; [right|by left].
    intros E. eapply IH; [exact E| |done]. naive_solver.
Qed.

(** What an insertion needs: a piece that shows something, or a text to be inserted in. *)
Definition insertable (ct : ComposingText) (es : list InputElement) : Prop :=
  surface ct ≠ [] ∨ Exists (λ e, piece e ≠ CompositionSeparator) es.

(** It keeps the text well formed and settled. *)
Lemma insert_settled ct es :
  registry_ok tables → wf tables ct → settled ct → es ≠ [] → insertable ct es →
  ∃ ct', insert tables ct es = Some ct' ∧ wf tables ct' ∧ settled ct'.
Proof using Hsteady.
  intros Hok Hwf Hset Hne Hes.
  destruct (insert_ok tables Hok ct es) as (ct' & P & new & Hins & Hwf' & HP & Hnew & Hsf & _); [done..| |].
  { destruct (decide (surface ct = [])); [right; by apply Hset|by left]. }
  exists ct'. split_and!; [done|done|]. intros E. rewrite Hsf in E. apply app_eq_nil in E as [-> Hd].
  exfalso. eapply convert_steady_app; [exact Hnew| |done]. destruct Hes as [Hs|Hes]; [right|by left].
  rewrite HP. intros [= Ht]. apply Hs. by rewrite <- (take_drop (cursor ct) (surface ct)), Ht, Hd.
Qed.

Lemma insert_str_settled `{Segmentation} ct text style :
  registry_ok tables → wf tables ct → settled ct →
  ∃ ct', insert_str tables ct text style = Some ct' ∧ wf tables ct' ∧ settled ct'.
Proof using Hsteady.
  intros Hok Hwf Hset. unfold insert_str. destruct (graphemes text) as [|g gs]; [by exists ct|].
  apply insert_settled; [done..|]. right. by left.
Qed.
End steady.

(** ** Sequences of edits *)

Inductive edit :=
  | EInsert (text : ustring) (style : InputStyle)
  | EPieces (pieces : list InputElement)
  | EBackspace (count : nat)
  | EDelete (count : nat)
  | EMove (count : Z)
  | EComplete (count : nat).

Definition apply_edit `{Segmentation} (tables : InputTableRegistry) (ct : ComposingText)
    (e : edit) : option ComposingText :=
  match e with
  | EInsert text style => insert_str tables ct text style
  | EPieces pieces => insert tables ct pieces
  | EBackspace n => delete_backward tables ct n
  | EDelete n => delete_forward tables ct n
  | EMove z => r ← move_cursor ct z; Some r.1
  | EComplete n => complete_prefix tables ct (CSurface n)
  end.

(** Separators alone are inserted in a text, not in an empty one. *)
Definition edit_allowed (ct : ComposingText) (e : edit) : Prop :=
  match e with EPieces pieces => pieces = [] ∨ insertable ct pieces | _ => True end.

(** The texts that allowed edits lead to from the empty one *)
Inductive edited `{Segmentation} (tables : InputTableRegistry) : ComposingText → Prop :=
  | edited_new : edited tables composing_new
  | edited_step ct e ct' :
      edited tables ct → edit_allowed ct e → apply_edit tables ct e = Some ct' → edited tables ct'.

Lemma apply_edit_ok `{Segmentation} tables ct e :
  registry_ok tables → registry_steady tables → wf tables ct → settled ct → edit_allowed ct e →
  ∃ ct', apply_edit tables ct e = Some ct' ∧ wf tables ct' ∧ settled ct'.
Proof.
  intros Hok Hsteady Hwf Hset He. destruct e as [text style|es|n|n|z|n]; cbn [apply_edit edit_allowed] in *.
  - by apply insert_str_settled.
  - destruct (decide (es = [])) as [->|Hne]; [by exists ct|]. apply insert_settled; [done..|]. by destruct He.
  - destruct (delete_backward_ok tables Hok ct n Hwf) as (ct' & ? & ? & ? & ? & ?). eauto.
  - destruct (delete_forward_ok tables Hok ct n Hwf) as (ct' & ? & ? & ? & ? & ?). eauto.
  - destruct (move_cursor_ok tables ct z Hwf) as (ct' & moved & -> & ? & Hi & Hs & _).
    exists ct'. split_and!; [done|done|]. unfold settled. by rewrite Hi, Hs.
  - destruct (complete_surface_ok tables Hok ct n Hwf) as (ct' & ? & ? & ? & ? & ?). eauto.
Qed.

Lemma composing_new_wf tables : wf tables composing_new ∧ settled composing_new.
Proof. split; [split; [done|simpl; lia]|done]. Qed.

Lemma edited_ok `{Segmentation} tables ct :
  registry_ok tables → registry_steady tables → edited tables ct → wf tables ct ∧ settled ct.
Proof.
  intros Hok Hsteady. induction 1 as [|ct e ct' _ [Hwf Hset] He Hrun]; [apply composing_new_wf|].
  destruct (apply_edit_ok tables ct e Hok Hsteady Hwf Hset He) as (ct1 & Hrun1 & ? & ?).
  rewrite Hrun in Hrun1. by injection Hrun1 as <-.
Qed.

(** C1. Editing is safe with tables of which no rule writes a character for a separator
    alone or makes text disappear (the default ones, and those that [register_ok] and
    [register_steady] accept). Whatever text is typed, whatever pieces are inserted
    - separators alone only where there is text already -, whatever is deleted, wherever
    the cursor is moved and whatever part of the surface is completed, in any order from
    the empty text: the surface of every text reached is the conversion of its input,
    the cursor is inside it, an empty surface has no input left behind it, and no such
    edit panics. *)
Theorem edits_never_panic `{Segmentation} tables ct :
  registry_ok tables → registry_steady tables → edited tables ct →
  convert_elements tables (input ct) = Some (surface ct) ∧ cursor ct ≤ length (surface ct) ∧
  (surface ct = [] → input ct = []) ∧
  ∀ e, edit_allowed ct e → is_Some (apply_edit tables ct e).
Proof.
  intros Hok Hsteady Hct. destruct (edited_ok tables ct Hok Hsteady Hct) as [[Hc Hcur] Hset].
  split_and!; [done..|]. intros e He.
  destruct (apply_edit_ok tables ct e Hok Hsteady) as (ct' & -> & _); [done..|by eexists].
Qed.

#[export] Instance edit_allowed_dec ct e : Decision (edit_allowed ct e).
Proof. destruct e; cbn; unfold insertable; apply _. Defined.

(** Edits one after the other, as long as they are allowed *)
Fixpoint apply_edits `{Segmentation} (tables : InputTableRegistry) (ct : ComposingText) (es : list edit) :
    option ComposingText :=
  match es with
  | [] => Some ct
  | e :: es => if decide (edit_allowed ct e) then ct ← apply_edit tables ct e; apply_edits tables ct es else None
  end.

Lemma apply_edits_edited `{Segmentation} tables es : ∀ ct ct',
  edited tables ct → apply_edits tables ct es = Some ct' → edited tables ct'.
Proof.
  induction es as [|e es IH]; intros ct ct' Hct; cbn [apply_edits]; [by intros [= <-]|].
  case_decide as He; [|done]. destruct (apply_edit tables ct e) as [ct1|] eqn:Hrun; [|done].
  cbn. apply IH. by eapply edited_step.
Qed.

(** A text with a separator inside it *)
Definition separated : list edit :=
  [EInsert (u "danbasu") RomanToKana; EMove (-1);
   EPieces [ {| piece := CompositionSeparator; input_style := RomanToKana |} ]; EBackspace 1; EComplete 1].

Lemma edits_never_panic_witness :
  ∃ ct, @apply_edits scalar_clusters default_registry composing_new separated = Some ct ∧
    convert_elements default_registry (input ct) = Some (surface ct) ∧
    is_Some (@apply_edit scalar_clusters default_registry ct (EBackspace 1)) ∧ concat (surface ct) = u "んす".
Proof.
  destruct (@apply_edits scalar_clusters default_registry composing_new separated) as [ct|] eqn:Hrun;
    [|vm_compute in Hrun; discriminate Hrun].
  pose proof (@apply_edits_edited scalar_clusters default_registry separated composing_new ct
    (@edited_new scalar_clusters default_registry) Hrun) as Hct.
  exists ct. split; [reflexivity|].
  destruct (@edits_never_panic scalar_clusters default_registry ct default_registry_ok default_registry_steady Hct)
    as (Hconvert & _ & _ & Hsafe).
  split; [exact Hconvert|]. split; [by apply Hsafe|].
  vm_compute in Hrun. injection Hrun as <-. vm_compute. reflexivity.
Defined.

(** A separator typed into the empty text leaves an input with an empty surface;
    the next insertion goes before it, although the cursor is at the end: the
    separator then ends the new text and turns "n" into a kana. *)
Theorem insert_before_invisible_input :
  ∃ ct ct',
    insert default_registry composing_new
      [{| piece := CompositionSeparator; input_style := RomanToKana |}] = Some ct ∧
    is_at_end ct = true ∧
    insert default_registry ct (typed_text RomanToKana "n") = Some ct' ∧
    surface ct' = [u "n"] ∧ convert_elements default_registry (input ct') = Some [u "ん"].
Proof. eexists _, _. by vm_compute. Qed.
