(* ===== verification/Dictionary.v ===== *)
(** * Dictionary entries and what a dictionary promises

    src/crates/converter/src/dictionary/entry.rs, and the interface of
    dictionary/store.rs and of the learning memory that the converter uses:
    the classes state the operations and what their results must satisfy for
    well-formed dictionary data. *)

From S2P Require Import Prelude Unicode F32.

(** ** Entries *)

(** A set of flags in a [u32]. *)
Definition DictionaryMetadata : Type := N.
Definition no_metadata : DictionaryMetadata := 0%N.
Definition LEARNED : DictionaryMetadata := N.shiftl 1 0.
Definition USER_DICTIONARY : DictionaryMetadata := N.shiftl 1 1.

Definition contains (m value : DictionaryMetadata) : bool := bool_decide (N.land m value = value).
Definition metadata_insert (m value : DictionaryMetadata) : DictionaryMetadata := N.lor m value.

Record DictionaryEntry := {
  word : ustring;
  ruby : ustring;
  left_id : nat;
  right_id : nat;
  meaning_id : nat;
  base_value : f32;
  adjustment : f32;
  metadata : DictionaryMetadata;
}.

(** [DictionaryEntry::value] *)
Definition entry_value (e : DictionaryEntry) : f32 :=
  fmin zero (fadd (base_value e) (adjustment e)).

(** [DictionaryEntry::adjusted] *)
Definition adjusted (e : DictionaryEntry) (value : f32) : DictionaryEntry :=
  {| word := word e; ruby := ruby e; left_id := left_id e; right_id := right_id e;
     meaning_id := meaning_id e; base_value := base_value e;
     adjustment := fadd (adjustment e) value; metadata := metadata e |}.

Definition with_metadata (e : DictionaryEntry) (m : DictionaryMetadata) : DictionaryEntry :=
  {| word := word e; ruby := ruby e; left_id := left_id e; right_id := right_id e;
     meaning_id := meaning_id e; base_value := base_value e;
     adjustment := adjustment e; metadata := metadata_insert (metadata e) m |}.

Record DictionaryMatch := { surface_end : nat; match_entries : list DictionaryEntry }.

(** ** The interface of the dictionary store *)

Class Dictionary (E : Type) := {
  matches_from_start : ustring → nat → result E (list DictionaryMatch);
  exact_match : ustring → result E (list DictionaryEntry);
  entries_after_prefix : ustring → N → nat → result E (list DictionaryEntry);
  connection_cost : nat → nat → result E f32;
  meaning_cost : nat → nat → option f32;
}.

(** Well-formed dictionary data: an entry is found under its own reading. *)
Class DictionaryLaws `{Segmentation} E `{Dictionary E} : Prop := {
  matches_from_start_ruby r n ms m e :
    matches_from_start r n = Ok ms → m ∈ ms → e ∈ match_entries m →
    1 ≤ surface_end m ≤ length (graphemes r) ∧
    ruby e = concat (take (surface_end m) (graphemes r));
  exact_match_ruby r es e : exact_match r = Ok es → e ∈ es → ruby e = r;
  entries_after_prefix_ruby r depth n es e :
    entries_after_prefix r depth n = Ok es → e ∈ es → r `prefix_of` ruby e;
}.

(** ** The interface of the learning memory *)

Record MemoryLookup (E : Type) := {
  memory_matches : ustring → nat → outcome E (list DictionaryEntry);
  memory_exact : ustring → outcome E (list DictionaryEntry);
  memory_predict : ustring → outcome E (list DictionaryEntry);
}.
Arguments memory_matches {E}.
Arguments memory_exact {E}.
Arguments memory_predict {E}.

(** The lookups of the learning memory do not panic, and it predicts words that
    extend the reading. *)
Record lookup_lawful {E} (m : MemoryLookup E) : Prop := {
  memory_matches_safe r n : safe (memory_matches m r n) (λ _, True);
  memory_exact_safe r : safe (memory_exact m r) (λ _, True);
  memory_predict_safe r : safe (memory_predict m r) (Forall (λ e, r `prefix_of` ruby e));
}.
Arguments memory_matches_safe {E m}.
Arguments memory_exact_safe {E m}.
Arguments memory_predict_safe {E m}.

Definition memory_lawful {E} (memory : option (MemoryLookup E)) : Prop :=
  ∀ m, memory = Some m → lookup_lawful m.

Lemma no_memory_lawful {E} : memory_lawful (E:=E) None.
Proof. by intros m ?. Qed.

(** ** Metadata is a set of flags; the value of an entry is never positive *)

Lemma contains_insert m v : contains (metadata_insert m v) v = true.
Proof.
  apply bool_decide_eq_true. unfold metadata_insert.
  rewrite N.land_lor_distr_l, N.land_diag. apply N.bits_inj. intros i.
  rewrite N.lor_spec, N.land_spec. by destruct (N.testbit m i), (N.testbit v i).
Qed.

Lemma contains_insert_other m v w :
  contains m w = true → contains (metadata_insert m v) w = true.
Proof.
  intros Hm%bool_decide_eq_true. apply bool_decide_eq_true. unfold metadata_insert.
  apply N.bits_inj. intros i. rewrite <- Hm at 2.
  rewrite !N.land_spec, N.lor_spec.
  assert (Hi : N.testbit w i = N.testbit m i && N.testbit w i) by (by rewrite <- N.land_spec, Hm).
  destruct (N.testbit m i), (N.testbit v i), (N.testbit w i); done.
Qed.

Lemma SFltb_asym_zero a : flt a zero = true → flt zero a = false.
Proof. by destruct a as [[]|[]| |[]]. Qed.

Lemma entry_value_nonpositive e : flt zero (entry_value e) = false.
Proof.
  unfold entry_value. generalize (fadd (base_value e) (adjustment e)) as a. intros a.
  unfold fmin. simpl. destruct (is_nan a) eqn:Hn; [done|].
  destruct (flt a zero) eqn:Hl; [by apply SFltb_asym_zero|done].
Qed.
