(* ===== verification/Constraint.v ===== *)
(** * Prefix constraints

    The constraint part of src/crates/converter/src/zenz.rs: what a language
    model's verdict on a candidate requires of the next conversion, and the two
    tests the conversion uses, one to prune partial candidates and one to accept
    complete ones. *)

From S2P Require Import Prelude Unicode.

Definition ALIGNMENT_SEPARATOR : char := 0xEE08%N.

Record FixedPrefix := { byte_count : nat; ruby_prefix_count : nat }.

Record PrefixConstraint := {
  constraint_bytes : list byte;
  has_eos : bool;
  ignore_memory_and_user_dictionary : bool;
  fixed_prefix : option FixedPrefix;
}.

(** [PrefixConstraint::new] *)
Definition constraint_new (bytes : list byte) : PrefixConstraint :=
  {| constraint_bytes := bytes; has_eos := false;
     ignore_memory_and_user_dictionary := false; fixed_prefix := None |}.

(** [bytes.windows(n).position(|window| window == separator)] *)
Fixpoint find_window (separator bytes : list byte) : option nat :=
  if decide (separator `prefix_of` bytes) then Some 0
  else match bytes with
       | [] => None
       | _ :: bytes' => S <$> find_window separator bytes'
       end.

(** [PrefixConstraint::normalized] *)
Definition normalized (bytes : list byte) (default_has_eos ignore : bool) : PrefixConstraint :=
  match find_window (encode_char ALIGNMENT_SEPARATOR) bytes with
  | Some index =>
      {| constraint_bytes := take index bytes; has_eos := true;
         ignore_memory_and_user_dictionary := ignore; fixed_prefix := None |}
  | None =>
      {| constraint_bytes := bytes; has_eos := default_has_eos;
         ignore_memory_and_user_dictionary := ignore; fixed_prefix := None |}
  end.

Definition constraint_is_empty (c : PrefixConstraint) : bool :=
  bool_decide (constraint_bytes c = []) && negb (has_eos c).

Definition can_continue (c : PrefixConstraint) (candidate : list byte) : bool :=
  if has_eos c then
    bool_decide (length candidate ≤ length (constraint_bytes c)) &&
    bool_decide (candidate `prefix_of` constraint_bytes c)
  else bool_decide (candidate `prefix_of` constraint_bytes c)
       || bool_decide (constraint_bytes c `prefix_of` candidate).

Definition is_satisfied_by (c : PrefixConstraint) (candidate : list byte) : bool :=
  if has_eos c then bool_decide (candidate = constraint_bytes c)
  else bool_decide (constraint_bytes c `prefix_of` candidate).

(** ** The pruning test is exact *)

Lemma can_continue_spec c s :
  can_continue c s = true ↔ ∃ rest, is_satisfied_by c (s ++ rest) = true.
Proof.
  unfold can_continue, is_satisfied_by. destruct (has_eos c).
  - rewrite andb_true_iff, !bool_decide_eq_true. split.
    + intros [_ [rest Hr]]. exists rest. by apply bool_decide_eq_true.
    + intros [rest <-%bool_decide_eq_true]. split; [rewrite length_app; lia|by eexists].
  - rewrite orb_true_iff, !bool_decide_eq_true. split.
    + intros [[rest ->]|Hp]; [exists rest|exists []; rewrite app_nil_r];
        by apply bool_decide_eq_true.
    + intros [rest Hr%bool_decide_eq_true]. destruct (prefix_weak_total s (constraint_bytes c) (s ++ rest));
        [by eexists|done|by left|by right].
Qed.

Lemma can_continue_prefix c s rest :
  can_continue c (s ++ rest) = true → can_continue c s = true.
Proof.
  rewrite !can_continue_spec. intros [r Hr]. exists (rest ++ r). by rewrite app_assoc.
Qed.

(** C38. The pruning of partial candidates loses nothing and keeps nothing
    hopeless: a partial text passes [can_continue] exactly when some continuation
    of it satisfies the constraint, so the test never passes again once it failed,
    and it passes on the way to every accepted text. *)
Theorem can_continue_exact c s :
  (can_continue c s = true ↔ ∃ rest, is_satisfied_by c (s ++ rest) = true) ∧
  (∀ rest, can_continue c s = false → can_continue c (s ++ rest) = false) ∧
  (∀ k, is_satisfied_by c s = true → can_continue c (take k s) = true).
Proof.
  split_and!.
  - apply can_continue_spec.
  - intros rest Hs. apply not_true_is_false. intros Hc%can_continue_prefix. congruence.
  - intros k Hs. apply can_continue_spec. exists (drop k s). by rewrite take_drop.
Qed.

Lemma is_satisfied_can_continue c s : is_satisfied_by c s = true → can_continue c s = true.
Proof. intros H. apply can_continue_spec. exists []. by rewrite app_nil_r. Qed.

Lemma find_window_spec sep bytes i :
  sep ≠ [] → find_window sep bytes = Some i →
  ∃ rest, bytes = take i bytes ++ sep ++ rest ∧
    ∀ j, j < i → ¬ sep `prefix_of` drop j bytes.
Proof.
  intros Hsep. revert i. induction bytes as [|b bytes IH]; intros i; simpl;
    case_decide as Hp; try done.
  - intros [= <-]. destruct Hp as [rest Hr]. exists rest. split; [done|lia].
  - intros [= <-]. destruct Hp as [rest Hr]. exists rest. split; [done|lia].
  - intros (j & Hj & ->)%fmap_Some. destruct (IH _ Hj) as (rest & Hr & Hno).
    exists rest. split; [simpl; by f_equal|]. intros [|k] Hk; [done|]. apply Hno. lia.
Qed.

Lemma find_window_None sep bytes :
  find_window sep bytes = None → ∀ j, ¬ sep `prefix_of` drop j bytes.
Proof.
  induction bytes as [|b bytes IH]; simpl; case_decide as Hp; try done.
  - by intros _ [|j].
  - intros Hn%fmap_None [|j]; [done|]. by apply IH.
Qed.

(** [normalized] cuts the model's answer at the first alignment
    separator and makes what precedes it the whole candidate; an answer without
    separator is kept with the given end marker. The bytes kept never contain the
    separator. *)
Theorem normalized_cuts_at_separator bytes eos ignore :
  let c := normalized bytes eos ignore in
  let sep := encode_char ALIGNMENT_SEPARATOR in
  (∃ rest, bytes = constraint_bytes c ++ sep ++ rest ∧ has_eos c = true ∧
     ∀ j, j < length (constraint_bytes c) → ¬ sep `prefix_of` drop j bytes) ∨
  (constraint_bytes c = bytes ∧ has_eos c = eos ∧ ∀ j, ¬ sep `prefix_of` drop j bytes).
Proof.
  unfold normalized.
  destruct (find_window (encode_char ALIGNMENT_SEPARATOR) bytes) as [i|] eqn:Hf; simpl.
  - left. apply find_window_spec in Hf as (rest & Hr & Hno); [|done].
    exists rest. split_and!; [done|done|]. intros j Hj. apply Hno.
    rewrite length_take in Hj. lia.
  - right. split_and!; [done|done|]. by apply find_window_None.
Qed.

(** ** Constraints on the fixed prefix *)

(** [bytes_match_fixed_prefix] of lattice.rs *)
Definition bytes_match_fixed_prefix (candidate : list byte) (c : PrefixConstraint) : bool :=
  match fixed_prefix c with
  | None => true
  | Some p =>
      if decide (byte_count p ≤ length (constraint_bytes c)) then
        let expected := take (byte_count p) (constraint_bytes c) in
        let compared := length candidate `min` byte_count p in
        bool_decide (take compared expected = take compared candidate)
      else false
  end.
