(* ===== verification/Typo.v ===== *)
(** * Typing corrections

    src/crates/converter/src/typo.rs: the corrected readings of the prefixes of
    the input, each with the number of pieces it consumes and a penalty. Pieces
    are kept, a directly typed kana is replaced by a voiced or small one, and two
    romaji letters are replaced by another pair. *)

From S2P Require Import Prelude Unicode InputTable DefaultTables Composing ComposingSpec F32.

Definition MAXIMUM_PENALTY : f32 := lit 105 10.

Record TypoPrefix := { typo_ruby : ustring; consumed : nat; penalty : f32 }.

(** The output of the enumeration: the smallest penalty of each reading and
    number of consumed pieces. *)
Abbreviation TypoMap := (gmap (ustring * nat) f32).

Definition replacement_rows : list (string * list (string * f32)) := [
  ("カ", [("ガ", lit 70 10)]); ("キ", [("ギ", lit 35 10)]); ("ク", [("グ", lit 35 10)]);
  ("ケ", [("ゲ", lit 35 10)]); ("コ", [("ゴ", lit 35 10)]); ("サ", [("ザ", lit 35 10)]);
  ("シ", [("ジ", lit 35 10)]); ("ス", [("ズ", lit 35 10)]); ("セ", [("ゼ", lit 35 10)]);
  ("ソ", [("ゾ", lit 35 10)]); ("タ", [("ダ", lit 60 10)]); ("チ", [("ヂ", lit 35 10)]);
  ("ツ", [("ッ", lit 60 10); ("ヅ", lit 45 10)]); ("テ", [("デ", lit 60 10)]);
  ("ト", [("ド", lit 45 10)]); ("ハ", [("バ", lit 45 10); ("パ", lit 60 10)]);
  ("ヒ", [("ビ", lit 35 10); ("ピ", lit 45 10)]); ("フ", [("ブ", lit 35 10); ("プ", lit 45 10)]);
  ("ヘ", [("ベ", lit 35 10); ("ペ", lit 45 10)]); ("ホ", [("ボ", lit 35 10); ("ポ", lit 45 10)]);
  ("バ", [("パ", lit 35 10)]); ("ビ", [("ピ", lit 35 10)]); ("ブ", [("プ", lit 35 10)]);
  ("ベ", [("ペ", lit 35 10)]); ("ボ", [("ポ", lit 35 10)]); ("ヤ", [("ャ", lit 35 10)]);
  ("ユ", [("ュ", lit 35 10)]); ("ヨ", [("ョ", lit 35 10)]) ].

(** [match to_katakana(value).as_str()] *)
Definition replacement_row (value : ustring) : list (ustring * f32) :=
  match list_find (λ r, u r.1 = Kana.to_katakana value) replacement_rows with
  | Some (_, r) => (λ cw, (u cw.1, cw.2)) <$> r.2
  | None => []
  end.

Definition direct_replacements (e : InputElement) : list (ustring * f32) :=
  if decide (input_style e = Direct) then
    match piece e with Character value => replacement_row value | _ => [] end
  else [].

Definition is_roman (style : InputStyle) : bool :=
  bool_decide (style = RomanToKana ∨ style = Mapped DefaultRomanToKana).

Definition roman_rows : list (string * string) := [
  ("bs", "ba"); ("no", "bo"); ("li", "ki"); ("lo", "ko"); ("lu", "ku"); ("my", "mu");
  ("tp", "to"); ("ts", "ta"); ("wi", "wo"); ("pu", "ou") ].

Definition roman_replacement (es : list InputElement) : option ustring :=
  if forallb (λ e, is_roman (input_style e)) es then
    key ← mapM (λ e, match piece e with Character v => Some v | _ => None end) es;
    r ← list_find (λ r, u r.1 = concat key) roman_rows;
    Some (u r.2.2)
  else None.

Section typo.
Context `{Segmentation} (tables : InputTableRegistry).

(** [render]: the surface of the pieces typed into an empty text *)
Definition render (es : list InputElement) : option ustring :=
  ct ← insert tables composing_new es; Some (concat (surface ct)).

(** [is_stable_prefix]; [rest] is the input from [consumed] on. *)
Definition is_stable_prefix (rest es : list InputElement) : option bool :=
  match rest with
  | [] => Some true
  | next :: _ =>
      shown ← render es;
      extended ← render (es ++ [next]);
      Some (bool_decide (shown `prefix_of` extended))
  end.

Definition record (k : ustring * nat) (p : f32) (output : TypoMap) : TypoMap :=
  <[k := match output !! k with Some current => fmin current p | None => p end]> output.

(** The first part of [enumerate]: record a corrected reading; the second
    component tells whether the enumeration stops here. *)
Definition emit (maximum_length : nat) (rest : list InputElement) (used : nat) (p : f32)
    (changed : bool) (es : list InputElement) (output : TypoMap) : option (TypoMap * bool) :=
  if (0 <? used) && changed then
    shown ← render es;
    let reading := Kana.to_katakana shown in
    let ruby_count := length (graphemes reading) in
    stable ← (if ruby_count <=? maximum_length then is_stable_prefix rest es else Some false);
    Some (if stable : bool then record (reading, used) p output else output,
          maximum_length <=? ruby_count)
  else Some (output, false).

(** [enumerate]; [rest] is [input[consumed..]], and the calls return the
    updated output map. *)
Fixpoint enumerate (maximum_length : nat) (rest : list InputElement) (used : nat) (p : f32)
    (changed : bool) (es : list InputElement) (output : TypoMap) : option TypoMap :=
  '(output, stop) ← emit maximum_length rest used p changed es output;
  if stop : bool then Some output
  else
    match rest with
    | [] => Some output
    | x :: rest' =>
        if maximum_length <=? used then Some output
        else
          output ← enumerate maximum_length rest' (used + 1) p changed (es ++ [x]) output;
          if fle MAXIMUM_PENALTY p then Some output
          else
            output ← foldl (λ out rw, out ← out;
                enumerate maximum_length rest' (used + 1) (fadd p rw.2) true
                  (es ++ [character rw.1 Direct]) out)
              (Some output) (direct_replacements x);
            match rest' with
            | [] => Some output
            | y :: rest'' =>
                match roman_replacement [x; y] with
                | Some replacement =>
                    enumerate maximum_length rest'' (used + 2) (fadd p (lit 35 10)) true
                      (es ++ ((λ c, character [c] RomanToKana) <$> replacement)) output
                | None => Some output
                end
            end
    end.

(** [typo_prefixes]; the order of the result is the one of a hash map, which
    Rust leaves open. *)
Definition typo_map (input : list InputElement) (maximum_length : nat) : option TypoMap :=
  enumerate maximum_length input 0 zero false [] ∅.

Definition typo_prefixes (input : list InputElement) (maximum_length : nat) :
    option (list TypoPrefix) :=
  m ← typo_map input maximum_length;
  Some ((λ kp, {| typo_ruby := kp.1.1; consumed := kp.1.2; penalty := kp.2 |}) <$> map_to_list m).

(** ** What a correction is *)

(** [corrected p es w b]: the pieces [es] correct the input prefix [p] with
    penalty [w]; [b] tells whether something was replaced. *)
Inductive corrected : list InputElement → list InputElement → f32 → bool → Prop :=
  | corrected_nil : corrected [] [] zero false
  | corrected_keep p es w b x :
      corrected p es w b → corrected (p ++ [x]) (es ++ [x]) w b
  | corrected_direct p es w b x r d :
      corrected p es w b → fle MAXIMUM_PENALTY w = false → (r, d) ∈ direct_replacements x →
      corrected (p ++ [x]) (es ++ [character r Direct]) (fadd w d) true
  | corrected_roman p es w b x y s :
      corrected p es w b → fle MAXIMUM_PENALTY w = false → roman_replacement [x; y] = Some s →
      corrected (p ++ [x; y]) (es ++ ((λ c, character [c] RomanToKana) <$> s))
        (fadd w (lit 35 10)) true.

(** A recorded reading: it comes from a correction of the prefix it consumes,
    it fits, and the next piece of the input does not change it. *)
Definition justified (input : list InputElement) (maximum_length : nat) (reading : ustring)
    (used : nat) (p : f32) : Prop :=
  ∃ es shown, corrected (take used input) es p true ∧ 0 < used ≤ length input ∧
    render es = Some shown ∧ reading = Kana.to_katakana shown ∧
    length (graphemes reading) ≤ maximum_length ∧
    ∀ next, input !! used = Some next →
      ∃ extended, render (es ++ [next]) = Some extended ∧ shown `prefix_of` extended.

Definition all_justified (input : list InputElement) (maximum_length : nat) (m : TypoMap) : Prop :=
  ∀ reading used p, m !! (reading, used) = Some p → justified input maximum_length reading used p.

Lemma fmin_cases a b : fmin a b = a ∨ fmin a b = b.
Proof. unfold fmin. repeat case_match; auto. Qed.

Lemma record_justified input n m reading used p :
  all_justified input n m → justified input n reading used p →
  all_justified input n (record (reading, used) p m).
Proof.
  intros Hm Hj r k w. unfold record. destruct (decide ((reading, used) = (r, k))) as [E|E].
  - simplify_eq. rewrite lookup_insert_eq. intros E. injection E as <-.
    destruct (m !! (r, k)) as [c|] eqn:Hc; [|done].
    destruct (fmin_cases c p) as [-> | ->]; [by apply Hm|done].
  - rewrite lookup_insert_ne by done. apply Hm.
Qed.

Lemma is_stable_prefix_spec rest es shown :
  render es = Some shown → is_stable_prefix rest es = Some true →
  ∀ next, head rest = Some next →
    ∃ extended, render (es ++ [next]) = Some extended ∧ shown `prefix_of` extended.
Proof.
  intros Hr Hst next Hn. destruct rest as [|x rest]; [done|]. injection Hn as <-.
  unfold is_stable_prefix in Hst. rewrite Hr in Hst. simpl in Hst.
  destruct (render (es ++ [x])) as [ext|] eqn:He; [|done]. simpl in Hst.
  injection Hst as Hst. apply bool_decide_eq_true in Hst. by exists ext.
Qed.

Context (Hok : registry_ok tables).

Lemma render_Some es : ∃ shown, render es = Some shown.
Proof.
  unfold render. destruct es as [|e es]; [by eexists|].
  destruct (insert_ok tables Hok composing_new (e :: es)) as (ct & P & new & -> & _);
    [apply composing_new_wf|done|by right|by eexists].
Qed.

Lemma is_stable_prefix_Some rest es : ∃ b, is_stable_prefix rest es = Some b.
Proof.
  unfold is_stable_prefix. destruct rest as [|x rest]; [by eexists|].
  destruct (render_Some es) as [s1 ->], (render_Some (es ++ [x])) as [s2 ->]. by eexists.
Qed.

Lemma emit_ok input n pre rest p changed es m :
  input = pre ++ rest → corrected pre es p changed → all_justified input n m →
  ∃ m' stop, emit n rest (length pre) p changed es m = Some (m', stop) ∧ all_justified input n m'.
Proof.
  intros Hin Hc Hm. unfold emit.
  destruct ((0 <? length pre) && changed) eqn:Hcond; [|by eexists _, _].
  apply andb_true_iff in Hcond as [Hpos%Nat.ltb_lt ->].
  destruct (render_Some es) as [shown Hr]. rewrite Hr. cbn [mbind option_bind].
  destruct (Nat.leb_spec (length (graphemes (Kana.to_katakana shown))) n) as [Hle|_];
    cbn [mbind option_bind]; [|by eexists _, _].
  destruct (is_stable_prefix_Some rest es) as [stable Hst]. rewrite Hst. cbn [mbind option_bind].
  eexists _, _. split; [done|]. destruct stable; [|done].
  apply record_justified; [done|]. exists es, shown. subst input.
  rewrite take_app_length, length_app. split_and!; try done; [lia|].
  intros next Hn. rewrite lookup_app_r, Nat.sub_diag in Hn by lia.
  eapply is_stable_prefix_spec; [done..|]. by destruct rest.
Qed.

Lemma foldl_option_ok {A B} (I : B → Prop) (f : B → A → option B) l b :
  (∀ a b1, a ∈ l → I b1 → ∃ b2, f b1 a = Some b2 ∧ I b2) →
  I b → ∃ b', foldl (λ o a, b1 ← o; f b1 a) (Some b) l = Some b' ∧ I b'.
Proof.
  revert b. induction l as [|a l IH]; intros b Hf Hb; [by exists b|]. simpl.
  destruct (Hf a b) as (b1 & -> & Hb1); [apply elem_of_cons; by left|done|].
  apply IH; [|done]. intros a' b2 Ha'. apply Hf, elem_of_cons. by right.
Qed.

Lemma enumerate_ok input n size rest pre es p changed m :
  length rest ≤ size → input = pre ++ rest → corrected pre es p changed →
  all_justified input n m →
  ∃ m', enumerate n rest (length pre) p changed es m = Some m' ∧ all_justified input n m'.
Proof.
  revert rest pre es p changed m. induction size as [|size IH];
    intros rest pre es p changed m Hlen Hin Hc Hm;
    (destruct rest as [|x rest]; [|simpl in Hlen]); try lia;
    destruct (emit_ok _ _ _ _ _ _ _ _ Hin Hc Hm) as (m1 & stop & He & Hm1);
    cbn [enumerate]; rewrite He; cbn [mbind option_bind]; (destruct stop; [by exists m1|]);
    try by exists m1.
  destruct (n <=? length pre); [by exists m1|].
  assert (Hin1 : input = (pre ++ [x]) ++ rest) by (rewrite <- app_assoc; done).
  replace (length pre + 1) with (length (pre ++ [x])) by (rewrite length_app; done).
  destruct (IH rest (pre ++ [x]) (es ++ [x]) p changed m1) as (m2 & -> & Hm2);
    [lia|done|by constructor|done|]. cbn [mbind option_bind].
  destruct (fle MAXIMUM_PENALTY p) eqn:Hp; [by exists m2|].
  destruct (foldl_option_ok (all_justified input n) (λ out (rw : ustring * f32),
      enumerate n rest (length (pre ++ [x])) (fadd p rw.2) true (es ++ [character rw.1 Direct]) out)
    (direct_replacements x) m2) as (m3 & -> & Hm3); [|done|].
  { intros [r d] m0 Hr Hm0. apply IH; [lia|done|by eapply corrected_direct|done]. }
  cbn [mbind option_bind]. destruct rest as [|y rest]; [by exists m3|]. simpl in Hlen.
  destruct (roman_replacement [x; y]) as [s|] eqn:Hs; [|by exists m3].
  replace (length pre + 2) with (length (pre ++ [x; y])) by (rewrite length_app; done).
  apply IH; [lia|by rewrite Hin, <- app_assoc|by eapply corrected_roman|done].
Qed.

Lemma typo_prefixes_ok input maximum_length :
  ∃ ps, typo_prefixes input maximum_length = Some ps ∧
    NoDup ((λ x, (typo_ruby x, consumed x)) <$> ps) ∧
    ∀ x, x ∈ ps → justified input maximum_length (typo_ruby x) (consumed x) (penalty x).
Proof.
  destruct (enumerate_ok input maximum_length (length input) input [] [] zero false ∅)
    as (m & Hm & Hall); [done|done|constructor|by intros ???[]%lookup_empty_Some|].
  unfold typo_prefixes, typo_map. simpl in Hm. rewrite Hm. cbn [mbind option_bind].
  eexists. split_and!; [done| |].
  - rewrite <- list_fmap_compose. erewrite (list_fmap_ext _ fst); [apply NoDup_fst_map_to_list|].
    by intros i [[r k] w].
  - intros x ([[r k] w] & -> & Hx%elem_of_map_to_list)%list_elem_of_fmap. by apply Hall.
Qed.

(** The typing correction never panics, and every reading it returns is
    the reading of a correction of the input prefix it consumes: pieces kept,
    kana voiced or made small, romaji pairs replaced, at least one change, the
    penalty being the sum of the weights of the changes made while it was below
    the maximum. The reading fits the length bound, and typing the next piece
    would not change it. *)
Theorem typo_prefixes_justified input maximum_length :
  ∃ ps, typo_prefixes input maximum_length = Some ps ∧
    NoDup ((λ x, (typo_ruby x, consumed x)) <$> ps) ∧
    ∀ x, x ∈ ps → justified input maximum_length (typo_ruby x) (consumed x) (penalty x).
Proof.
  destruct (typo_prefixes_ok input maximum_length) as (ps & Hps & Hnd & Hall).
  exists ps. by split_and!.
Qed.
End typo.

Lemma typo_prefixes_justified_witness :
  (∃ ps, @typo_prefixes scalar_clusters default_registry (typed_text RomanToKana "lik") 20 = Some ps ∧
    NoDup ((λ x, (typo_ruby x, consumed x)) <$> ps) ∧
    ∀ x, x ∈ ps → @justified scalar_clusters default_registry (typed_text RomanToKana "lik") 20
                     (typo_ruby x) (consumed x) (penalty x)) ∧
  (λ ps : list TypoPrefix, (λ x, (typo_ruby x, consumed x)) <$> ps) <$>
    @typo_prefixes scalar_clusters default_registry (typed_text RomanToKana "lik") 20 =
    Some [(u "キ", 2); (u "キk", 3)].
Proof.
  split; [|by vm_compute].
  apply (@typo_prefixes_justified scalar_clusters), default_registry_ok.
Defined.
