(* ===== verification/LatticeIndex.v ===== *)
(** * Positions of the lattice

    The index part of src/crates/converter/src/lattice.rs: a position of the
    text is an input position, a surface position, or both when the input and the
    surface can be split there; [indices] lists the positions in the order in
    which the conversion processes them. *)

From S2P Require Import Prelude Unicode InputTable DefaultTables Composing ComposingSpec.

Inductive LatticeIndex := LInput (i : nat) | LSurface (s : nat).

Inductive LatticeRange := RInput (from to : nat) | RSurface (from to : nat).

(** [LatticeRange::end] *)
Definition range_end (r : LatticeRange) : LatticeIndex :=
  match r with RInput _ to => LInput to | RSurface _ to => LSurface to end.

(** [LatticeRange::count] *)
Definition range_count (r : LatticeRange) : option ComposingCount :=
  match r with
  | RInput from to => CInput <$> usub to from
  | RSurface from to => CSurface <$> usub to from
  end.

Definition starts_at_zero (r : LatticeRange) : bool :=
  match r with RInput from _ => from =? 0 | RSurface from _ => from =? 0 end.

Inductive DualIndex := DInput (i : nat) | DSurface (s : nat) | DBoth (i s : nat).

Definition dual_input (d : DualIndex) : option nat :=
  match d with DInput i | DBoth i _ => Some i | DSurface _ => None end.
Definition dual_surface (d : DualIndex) : option nat :=
  match d with DSurface s | DBoth _ s => Some s | DInput _ => None end.

Record DualIndexMap := {
  input_to_surface : gmap nat nat;
  surface_to_input : gmap nat nat;
  identity : bool;
}.

(** The iteration order of a hash map, which Rust leaves open. *)
Class IterationOrder := iteration : gmap nat nat → list (nat * nat).
Class IterationOrderLaws `{IterationOrder} : Prop :=
  iteration_perm m : iteration m ≡ₚ map_to_list m.

Definition map_order : IterationOrder := map_to_list.
Lemma map_order_laws : @IterationOrderLaws map_order.
Proof. by intros m. Qed.

(** [surface_to_input.entry(surface).or_insert(input)] *)
Definition or_insert (m : gmap nat nat) (is_ : nat * nat) : gmap nat nat :=
  match m !! is_.2 with Some _ => m | None => <[is_.2 := is_.1]> m end.

(** [DualIndexMap::new] *)
Definition dual_index_map_new `{IterationOrder} (tables : InputTableRegistry)
    (ct : ComposingText) : option DualIndexMap :=
  i2s ← input_to_surface_map tables ct;
  Some {| input_to_surface := i2s;
          surface_to_input := foldl or_insert ∅ (iteration i2s);
          identity := (length (input ct) =? length (surface ct)) &&
            forallb (λ i, bool_decide (i2s !! i = Some i)) (seq 0 (S (length (input ct)))) |}.

(** [DualIndexMap::dual] *)
Definition dual (m : DualIndexMap) (index : LatticeIndex) : DualIndex :=
  if identity m then match index with LInput i | LSurface i => DBoth i i end
  else match index with
       | LInput i => match input_to_surface m !! i with
                     | Some s => DBoth i s | None => DInput i end
       | LSurface s => match surface_to_input m !! s with
                       | Some i => DBoth i s | None => DSurface s end
       end.

(** One iteration of the loop of [indices]; [from..to] of Rust is
    [seq from (to - from)]. *)
Definition indices_step (m : DualIndexMap) (surface_count : nat)
    (st : list DualIndex * nat) (i : nat) : list DualIndex * nat :=
  let '(indices, pointer) := st in
  match input_to_surface m !! i with
  | Some s =>
      let start := pointer `min` s in
      let indices := indices ++ (DSurface <$> seq start (s - start)) in
      (indices ++ [if (pointer <=? s) && (s <? surface_count) then DBoth i s else DInput i], s + 1)
  | None => (indices ++ [DInput i], pointer)
  end.

(** [DualIndexMap::indices] *)
Definition indices (m : DualIndexMap) (input_count surface_count : nat) : list DualIndex :=
  if identity m then (λ i, DBoth i i) <$> seq 0 (input_count `min` surface_count)
  else
    let '(l, pointer) := foldl (indices_step m surface_count) ([], 0) (seq 0 input_count) in
    let start := pointer `min` surface_count in
    l ++ (DSurface <$> seq start (surface_count - start)).

(** ** The order of the positions *)

(** The surface positions of the input positions never decrease: what the
    independent boundaries give. *)
Definition monotone (m : gmap nat nat) (surface_count : nat) : Prop :=
  (∀ i s, m !! i = Some s → s ≤ surface_count) ∧
  (∀ i j s t, i < j → m !! i = Some s → m !! j = Some t → s ≤ t).

Lemma omap_surface_run (P : nat → DualIndex) l :
  omap dual_surface (DSurface <$> l) = l ∧ omap dual_input (DSurface <$> l) = [].
Proof. induction l as [|x l [IH1 IH2]]; csimpl; [done|]. by rewrite IH1. Qed.

Lemma seq_pointer p s c :
  p ≤ s → s ≤ c → seq 0 (p `min` c) ++ seq (p `min` s) (s - p `min` s) = seq 0 s.
Proof. intros. rewrite !Nat.min_l by lia. rewrite <- seq_app. f_equal. lia. Qed.

(** What the loop has listed before input position [n]: all inputs below [n],
    and all surface positions below the pointer. *)
Definition listed (surface_count n : nat) (st : list DualIndex * nat) : Prop :=
  omap dual_input st.1 = seq 0 n ∧
  omap dual_surface st.1 = seq 0 (st.2 `min` surface_count).

Lemma indices_step_listed m sc n st :
  monotone (input_to_surface m) sc → listed sc n st →
  (∀ s, input_to_surface m !! n = Some s → st.2 ≤ S s) →
  listed sc (S n) (indices_step m sc st n).
Proof.
  destruct st as [l p]. unfold listed. cbn [fst snd].
  intros [Hbound _] [Hi Hs] Hp. unfold indices_step.
  destruct (input_to_surface m !! n) as [s|] eqn:Hn; cbn [fst snd].
  2: { rewrite !omap_app, Hi, Hs, seq_S. csimpl. by rewrite app_nil_r. }
  specialize (Hp s eq_refl). specialize (Hbound n s Hn).
  rewrite !omap_app, Hi, Hs.
  destruct (omap_surface_run DInput (seq (p `min` s) (s - p `min` s))) as [-> ->].
  rewrite app_nil_r, seq_S. destruct (Nat.leb_spec p s); destruct (Nat.ltb_spec s sc); csimpl;
    (split; [done|]); rewrite ?app_nil_r.
  - rewrite seq_pointer by lia.
    replace ((s + 1) `min` sc) with (S s) by lia. by rewrite seq_S.
  - rewrite seq_pointer by lia. f_equal. lia.
  - assert (p = s + 1) as -> by lia. replace (s - (s + 1) `min` s) with 0 by lia.
    by rewrite app_nil_r.
  - assert (p = s + 1) as -> by lia. replace (s - (s + 1) `min` s) with 0 by lia.
    by rewrite app_nil_r.
Qed.

(** The pointer is one past the last surface position of an input. *)
Definition pointer_ok (m : gmap nat nat) (n p : nat) : Prop :=
  p = 0 ∨ ∃ i s, i < n ∧ m !! i = Some s ∧ p = S s.

Lemma indices_loop_listed m sc n :
  monotone (input_to_surface m) sc →
  let st := foldl (indices_step m sc) ([], 0) (seq 0 n) in
  listed sc n st ∧ pointer_ok (input_to_surface m) n st.2.
Proof.
  intros Hm. induction n as [|n [IH Hp]]; [by split; [split|left]|].
  rewrite seq_S, foldl_app. cbn [foldl Nat.add]. split.
  - apply indices_step_listed; [done|done|]. intros s Hs.
    destruct Hp as [-> |(i & t & Hi & Ht & ->)]; [lia|].
    pose proof (proj2 Hm i n t s Hi Ht Hs). lia.
  - unfold indices_step. destruct (foldl _ _ _) as [l p]. cbn [fst snd] in *.
    destruct (input_to_surface m !! n) as [s|] eqn:Hs; cbn [snd].
    + right. exists n, s. split_and!; [lia|done|lia].
    + destruct Hp as [-> |(i & t & Hi & Ht & ->)]; [by left|right; exists i, t; split_and!; [lia|done..]].
Qed.

Lemma indices_listed m input_count surface_count :
  monotone (input_to_surface m) surface_count →
  (identity m = true → input_count = surface_count) →
  omap dual_input (indices m input_count surface_count) = seq 0 input_count ∧
  omap dual_surface (indices m input_count surface_count) = seq 0 surface_count.
Proof.
  intros Hm Hid. unfold indices. destruct (identity m).
  { rewrite (Hid eq_refl), Nat.min_id. generalize (seq 0 surface_count) as l.
    intros l. induction l as [|x l [IH1 IH2]]; csimpl; [done|]. by rewrite IH1, IH2. }
  pose proof (indices_loop_listed m surface_count input_count Hm) as [[Hi Hs] _].
  destruct (foldl _ _ _) as [l p]. cbn [fst snd] in Hi, Hs. rewrite !omap_app, Hi, Hs.
  destruct (omap_surface_run DInput
    (seq (p `min` surface_count) (surface_count - p `min` surface_count))) as [-> ->].
  split; [by rewrite app_nil_r|]. rewrite <- seq_app. f_equal. lia.
Qed.

Lemma sorted_pair {A} (R : A → A → Prop) l x y :
  StronglySorted R l → x ∈ l → y ∈ l → x = y ∨ R x y ∨ R y x.
Proof.
  induction 1 as [|a l Hl IH Ha]; [by intros ?%not_elem_of_nil|].
  rewrite Forall_forall in Ha. rewrite !elem_of_cons. intros [-> |Hx] [-> |Hy]; auto.
Qed.

Lemma identity_map_lookup n i s :
  (list_to_map ((λ i, (i, i)) <$> seq 0 n) : gmap nat nat) !! i = Some s → s = i ∧ i < n.
Proof.
  intros Hi%elem_of_list_to_map_2. apply list_elem_of_fmap in Hi as (k & [= -> ->] & Hk).
  apply elem_of_seq in Hk. split; [done|lia].
Qed.

Lemma input_to_surface_map_monotone tables ct i2s :
  registry_ok tables → wf tables ct → input_to_surface_map tables ct = Some i2s →
  monotone i2s (length (surface ct)).
Proof.
  intros Hok [Hc _]. unfold input_to_surface_map.
  destruct (has_identity_mapping ct) eqn:Hid.
  { intros [= <-]. apply andb_true_iff in Hid as [Hl%Nat.eqb_eq _].
    pose proof (identity_map_lookup (S (length (input ct)))) as Hin.
    split; intros; repeat match goal with H : _ !! _ = Some _ |- _ => apply Hin in H as [-> ?] end;
      lia. }
  destruct (independent_boundaries_ok tables (input ct)) as (stack & -> & Hsorted & Hmem).
  intros [= <-].
  assert (Hin : ∀ i s, (list_to_map ((λ b, (p_input b, p_surface b)) <$> stack) :
    gmap nat nat) !! i = Some s → Pair i s ∈ stack).
  { intros i s Hi%elem_of_list_to_map_2. apply list_elem_of_fmap in Hi as ([i' s'] & [= -> ->] & Hk).
    done. }
  split.
  - intros i s Hi%Hin%Hmem. by destruct (cut_convert tables Hok _ _ _ _ Hi Hc) as (_ & _ & ?).
  - intros i j s t Hij Hi%Hin Hj%Hin.
    destruct (sorted_pair _ _ _ _ Hsorted Hi Hj) as [[= -> ->]|[[H1 H2]|[H1 H2]]]; simpl in *; lia.
Qed.

Lemma dual_index_map_new_Some `{IterationOrder} tables ct :
  ∃ m, dual_index_map_new tables ct = Some m ∧
    input_to_surface_map tables ct = Some (input_to_surface m) ∧
    (identity m = true → length (input ct) = length (surface ct)).
Proof.
  unfold dual_index_map_new.
  assert (∃ i2s, input_to_surface_map tables ct = Some i2s) as [i2s ->].
  { unfold input_to_surface_map. destruct (has_identity_mapping ct); [by eexists|].
    destruct (independent_boundaries_ok tables (input ct)) as (stack & -> & _). by eexists. }
  cbn [mbind option_bind]. eexists. split_and!; [done|done|].
  simpl. intros [Hl%Nat.eqb_eq _]%andb_true_iff. done.
Qed.

Lemma input_to_surface_map_bound tables ct i2s i s :
  registry_ok tables → input_to_surface_map tables ct = Some i2s →
  i2s !! i = Some s → i ≤ length (input ct).
Proof.
  intros Hok. unfold input_to_surface_map. destruct (has_identity_mapping ct).
  { intros [= <-] Hi.
    destruct (identity_map_lookup (S (length (input ct))) i s Hi) as [_ ?]. lia. }
  destruct (independent_boundaries_ok tables (input ct)) as (stack & -> & _ & Hmem).
  intros [= <-] Hi%elem_of_list_to_map_2.
  apply list_elem_of_fmap in Hi as ([i' s'] & [= -> ->] & Hk). apply Hmem in Hk. apply Hk.
Qed.

(** The end of the input shows the end of the surface. *)
Lemma input_to_surface_map_end tables ct i2s s :
  registry_ok tables → wf tables ct → input_to_surface_map tables ct = Some i2s →
  i2s !! length (input ct) = Some s → s = length (surface ct).
Proof.
  intros Hok [Hc _]. unfold input_to_surface_map.
  destruct (has_identity_mapping ct) eqn:Hid.
  { intros [= <-] Hi. apply andb_true_iff in Hid as [Hl%Nat.eqb_eq _].
    destruct (identity_map_lookup (S (length (input ct))) _ s Hi) as [-> _]. done. }
  destruct (independent_boundaries_ok tables (input ct)) as (stack & -> & _ & Hmem).
  intros [= <-] Hi%elem_of_list_to_map_2.
  apply list_elem_of_fmap in Hi as ([i' s'] & [= Hi' Hs'] & Hk). subst i' s'.
  apply Hmem in Hk. simpl in *.
  destruct (cut_convert tables Hok _ _ _ _ Hk Hc) as (Htake & _ & Hle).
  rewrite take_ge, Hc in Htake by done. injection Htake as Htake.
  rewrite Htake, length_take. lia.
Qed.

Lemma or_insert_spec l m s i :
  foldl or_insert m l !! s = Some i → m !! s = Some i ∨ (i, s) ∈ l.
Proof.
  revert m. induction l as [|[j t] l IH]; intros m; simpl; [by left|].
  intros [Hm|Hl]%IH; [|right; by apply elem_of_cons; right].
  unfold or_insert in Hm. simpl in Hm. destruct (m !! t) eqn:Ht; [by left|].
  destruct (decide (s = t)) as [-> |Hne].
  - rewrite lookup_insert_eq in Hm. injection Hm as ->. right. apply elem_of_cons. by left.
  - rewrite lookup_insert_ne in Hm by done. by left.
Qed.

(** The position behind a piece of the text that does not reach the end is
    inside the text on both sides. *)
Lemma dual_inside `{IterationOrder} `{!IterationOrderLaws} tables ct m index :
  registry_ok tables → wf tables ct → dual_index_map_new tables ct = Some m →
  match index with LInput i => i ≤ length (input ct) | LSurface s => s ≤ length (surface ct) end →
  (∀ s, dual_surface (dual m index) = Some s → s ≤ length (surface ct)) ∧
  (∀ i, dual_input (dual m index) = Some i → i ≤ length (input ct)).
Proof.
  intros Hok Hwf Hm Hin.
  destruct (dual_index_map_new_Some tables ct) as (m' & Hm' & Hi2s & Hid).
  rewrite Hm in Hm'. injection Hm' as <-.
  pose proof (input_to_surface_map_monotone tables ct _ Hok Hwf Hi2s) as [Hmono _].
  pose proof (λ i s, input_to_surface_map_bound tables ct _ i s Hok Hi2s) as Hbound.
  unfold dual. destruct (identity m) eqn:Hident.
  { specialize (Hid eq_refl). destruct index; simpl; split; intros ? [= <-]; lia. }
  destruct index as [i|s].
  - destruct (input_to_surface m !! i) as [s|] eqn:Hi; simpl; split; intros ? [= <-]; eauto.
  - destruct (surface_to_input m !! s) as [i|] eqn:Hs; simpl; split; intros ? [= <-]; try done.
    unfold dual_index_map_new in Hm. rewrite Hi2s in Hm. simpl in Hm. injection Hm as Hm.
    rewrite <- Hm in Hs. simpl in Hs.
    apply or_insert_spec in Hs as [Hs|Hs]; [done|].
    rewrite iteration_perm in Hs. apply elem_of_map_to_list in Hs. eauto.
Qed.

(** The positions the conversion processes, for every text whose
    surface shows its input: building the index map never panics, every input
    position and every surface position of the text occurs exactly once, and in
    increasing order, whatever the iteration order of the hash map. *)
Theorem indices_complete `{IterationOrder} tables ct :
  registry_ok tables → wf tables ct →
  ∃ m, dual_index_map_new tables ct = Some m ∧
    let l := indices m (length (input ct)) (length (surface ct)) in
    omap dual_input l = seq 0 (length (input ct)) ∧
    omap dual_surface l = seq 0 (length (surface ct)).
Proof.
  intros Hok Hwf. destruct (dual_index_map_new_Some tables ct) as (m & Hm & Hi & Hid).
  exists m. split; [done|]. apply indices_listed; [|done].
  by apply (input_to_surface_map_monotone tables ct).
Qed.

(** "danbasu": the kana of "nba" cannot be split, neither can "d" from "a". *)
Definition danbasu : ComposingText :=
  {| cursor := 4; input := typed_text RomanToKana "danbasu";
     surface := [u "だ"; u "ん"; u "ば"; u "す"] |}.

Lemma danbasu_wf : wf default_registry danbasu.
Proof. split; [by vm_compute|simpl; lia]. Qed.

Lemma indices_complete_witness :
  (∃ m, @dual_index_map_new map_order default_registry danbasu = Some m ∧
    let l := indices m (length (input danbasu)) (length (surface danbasu)) in
    omap dual_input l = seq 0 (length (input danbasu)) ∧
    omap dual_surface l = seq 0 (length (surface danbasu))) ∧
  (λ m, indices m 7 4) <$> @dual_index_map_new map_order default_registry danbasu =
    Some [DBoth 0 0; DInput 1; DBoth 2 1; DInput 3; DInput 4; DSurface 2; DBoth 5 3; DInput 6].
Proof.
  split; [|by vm_compute].
  apply (@indices_complete map_order); [apply default_registry_ok|apply danbasu_wf].
Defined.
