(* ===== verification/Lattice.v ===== *)
(** * The lattice conversion

    src/crates/converter/src/lattice.rs: the words of the dictionary that read
    as parts of the text are the nodes of a lattice; the conversion walks the
    positions of the text in order, keeps the [n_best] best ways to reach each
    node, and turns the ways that end at the end of the text into candidates. *)

From S2P Require Import Prelude Unicode InputTable Composing F32 Dictionary Constraint Typo LatticeIndex.

(** ** Constants and class ids *)

Definition BOS_CLASS_ID : nat := 0.
Definition BOS_MEANING_ID : nat := 500.
Definition DICTIONARY_THRESHOLD : f32 := fopp (of_nat 17).
Definition MAXIMUM_DICTIONARY_LENGTH : nat := 20.

Definition PREDICTION_UNUSABLE_RIGHT_IDS : list N := [
  13; 14; 15; 16; 17; 18; 25; 26; 27; 28; 33; 34; 40; 41; 42; 46; 47; 50; 56; 57; 58; 59; 60;
  61; 62; 63; 64; 74; 75; 76; 77; 78; 79; 86; 87; 88; 93; 94; 95; 99; 100; 103; 107; 108; 109;
  110; 111; 112; 119; 120; 121; 122; 127; 128; 134; 135; 136; 140; 141; 144; 369; 372; 373;
  377; 378; 379; 380; 381; 382; 389; 390; 391; 392; 397; 398; 401; 402; 404; 405; 406; 408;
  410; 411; 412; 413; 416; 417; 418; 419; 420; 421; 426; 427; 431; 433; 434; 437; 438; 441;
  442; 443; 447; 448; 450; 452; 455; 457; 462; 463; 464; 470; 471; 472; 476; 477; 480; 483;
  489; 490; 493; 494; 495; 496; 504; 527; 528; 533; 534; 537; 540; 542; 548; 551; 553; 561;
  562; 564; 565; 566; 567; 569; 571; 572; 574; 575; 576; 577; 579; 581; 582; 585; 587; 589;
  590; 591; 594; 595; 596; 597; 598; 600; 601; 603; 604; 606; 609; 611; 614; 617; 618; 620;
  621; 622; 624; 626; 627; 629; 630; 631; 634; 636; 638; 641; 642; 644; 647; 648; 650; 653;
  654; 656; 659; 660; 662; 665; 666; 668; 671; 672; 673; 675; 676; 677; 678; 681; 682; 683;
  684; 687; 688; 691; 692; 693; 694; 697; 698; 699; 700; 703; 704; 707; 708; 709; 710; 713;
  714; 715; 716; 721; 722; 724; 725; 727; 729; 730; 732; 733; 736; 737; 739; 740; 742; 744;
  745; 747; 748; 750; 752; 753; 755; 756; 758; 760; 761; 763; 764; 766; 768; 769; 770; 771;
  774; 775; 776; 777; 778; 779; 780; 781; 782; 783; 786; 787; 790; 791; 793; 794; 795; 798;
  800; 801; 804; 805; 806; 807; 810; 811; 814; 815; 816; 820; 821; 822; 823; 824; 825; 829;
  830; 831; 835; 837; 840; 842; 845; 847; 850; 852; 855; 859; 860; 862; 865; 866; 868; 869;
  871; 872; 873; 875; 877; 878; 880; 881; 884; 885; 887; 888; 889; 890; 891; 893; 895; 896;
  898; 899; 900; 901; 903; 905; 906; 908; 909; 910; 911; 913; 915; 916; 917; 918; 921; 922;
  923; 924; 925; 928; 929; 931; 932; 934; 935; 936; 939; 941; 943; 944; 945; 946; 947; 948;
  949; 950; 951; 952; 958; 959; 960; 961; 962; 963; 964; 965; 966; 967; 973; 974; 975; 976;
  977; 983; 984; 985; 986; 987; 988; 989; 990; 995; 996; 997; 998; 999; 1000; 1001; 1002; 1007;
  1008; 1009; 1010; 1015; 1016; 1017; 1018; 1021; 1022; 1023; 1024; 1029; 1030; 1031; 1032;
  1033; 1034; 1035; 1036; 1041; 1042; 1043; 1044; 1045; 1046; 1047; 1048; 1057; 1058; 1060;
  1061; 1063; 1065; 1066; 1067; 1068; 1069; 1070; 1071; 1072; 1073; 1074; 1075; 1076; 1077;
  1078; 1079; 1080; 1081; 1082; 1083; 1084; 1085; 1086; 1087; 1088; 1089; 1090; 1104; 1105;
  1106; 1107; 1108; 1109; 1110; 1111; 1112; 1113; 1114; 1115; 1116; 1117; 1118; 1119; 1120;
  1121; 1122; 1123; 1124; 1125; 1126; 1127; 1128; 1129; 1130; 1131; 1132; 1133; 1134; 1135;
  1136; 1137; 1138; 1139; 1140; 1141; 1142; 1143; 1144; 1145; 1146; 1147; 1148; 1149; 1150;
  1151; 1152; 1153; 1154; 1155; 1156; 1157; 1158; 1159; 1160; 1161; 1162; 1163; 1164; 1165;
  1166; 1167; 1168; 1182; 1183; 1184; 1185; 1186; 1187; 1188; 1189; 1190; 1191; 1192; 1193;
  1194; 1208; 1209; 1210; 1211; 1212; 1213; 1214; 1215; 1220; 1221; 1222; 1223; 1224; 1225;
  1226; 1227; 1228; 1229; 1230; 1231; 1240; 1241; 1242; 1243; 1248; 1249; 1250; 1251; 1256;
  1257; 1258; 1259; 1260; 1261; 1262; 1263; 1268; 1269; 1270; 1271; 1276; 1278
]%N.

(** [binary_search] on a sorted slice finds exactly its elements. *)
Definition prediction_usable (right_id : nat) : bool :=
  bool_decide (N.of_nat right_id ∉ PREDICTION_UNUSABLE_RIGHT_IDS).

Definition within (from to class_id : nat) : bool := (from <=? class_id) && (class_id <? to).

(** [word_type] *)
Definition word_type (class_id : nat) : nat :=
  if bool_decide (class_id ∈ [0; 1316]) then 3
  else if bool_decide (class_id ∈ [1315; 6; 557; 558; 559; 560]) then 0
  else if within 561 868 class_id || within 1283 1297 class_id || within 1306 1310 class_id
          || within 11 53 class_id || within 555 557 class_id || within 1281 1283 class_id
          || bool_decide (class_id ∈ [1314; 3; 2; 4; 5; 1; 9]) then 1
  else 2.

Definition is_clause (former latter : nat) : bool :=
  if word_type latter =? 3 then false
  else if word_type former =? 3 then false
  else bool_decide (word_type latter ∈ [0; 1]) && negb (word_type former =? 0).

Definition includes_meaning (e : DictionaryEntry) : bool :=
  within 895 1281 (left_id e) || within 895 1281 (right_id e)
  || within 1297 1306 (left_id e) || within 1297 1306 (right_id e)
  || (word_type (left_id e) =? 1) || (word_type (right_id e) =? 1).

(** [u16::try_from(n).unwrap_or(u16::MAX)] *)
Definition saturate_u16 (n : nat) : nat :=
  if (N.of_nat n <? 65536)%N then n else N.to_nat 65535.

(** ** Data *)

Record ConversionContext := { context_right_id : nat; context_meaning_id : nat }.

Definition default_context : ConversionContext :=
  {| context_right_id := BOS_CLASS_ID; context_meaning_id := BOS_MEANING_ID |}.

Record FirstClause := {
  fc_text : ustring;
  fc_value : f32;
  fc_meaning_id : nat;
  fc_ranges : list LatticeRange;
  fc_entry_end : nat;
}.

Record Candidate := {
  text : ustring;
  cand_value : f32;
  composing_count : ComposingCount;
  last_meaning_id : nat;
  entries : list DictionaryEntry;
  ruby_count : nat;
  is_learning_target : bool;
  is_typo_correction : bool;
  first_clause : option FirstClause;
}.

(** A way through the lattice, its last step first. *)
Inductive RegisteredPath :=
  | Registered (entry : DictionaryEntry) (range : LatticeRange)
      (previous : option RegisteredPath) (total : f32).

Lemma RegisteredPath_chain_ind (P : RegisteredPath → Prop) :
  (∀ e r t, P (Registered e r None t)) →
  (∀ e r q t, P q → P (Registered e r (Some q) t)) → ∀ p, P p.
Proof. intros HNone HSome. fix IH 1. intros [e r [q|] t]; [apply HSome, IH|apply HNone]. Qed.

Definition path_entry (p : RegisteredPath) : DictionaryEntry := let '(Registered e _ _ _) := p in e.
Definition path_range (p : RegisteredPath) : LatticeRange := let '(Registered _ r _ _) := p in r.
Definition path_previous (p : RegisteredPath) : option RegisteredPath :=
  let '(Registered _ _ q _) := p in q.
Definition path_total (p : RegisteredPath) : f32 := let '(Registered _ _ _ t) := p in t.

Record Predecessor := { pred_path : option RegisteredPath; pred_total : f32 }.

Record LatticeNode := {
  node_entry : DictionaryEntry;
  node_range : LatticeRange;
  predecessors : list Predecessor;
}.

Record ConversionModifiers := {
  additional_entries : list DictionaryEntry;
  need_typo_correction : bool;
  constraint : option PrefixConstraint;
}.

(** The paths from the first step to [p]: the loop of [make_candidate] and of
    [path_bytes], reversed as they do. *)
Fixpoint path_list (p : RegisteredPath) : list RegisteredPath :=
  match p with
  | Registered _ _ previous _ =>
      match previous with Some q => path_list q | None => [] end ++ [p]
  end.

(** ** The n best predecessors of a node *)

(** [iter().rposition(p)] *)
Fixpoint rposition {A} (p : A → bool) (l : list A) : option nat :=
  match l with
  | [] => None
  | x :: l' => match rposition p l' with
               | Some i => Some (S i)
               | None => if p x then Some 0 else None
               end
  end.

(** [Vec::insert]: panics beyond the end *)
Definition vec_insert {A} (i : nat) (x : A) (l : list A) : option (list A) :=
  if decide (i ≤ length l) then Some (take i l ++ x :: drop i l) else None.

Definition insert_predecessor (values : list Predecessor) (value : Predecessor) (n_best : nat) :
    option (list Predecessor) :=
  let index := match rposition (λ e, fle (pred_total value) (pred_total e)) values with
               | Some i => i + 1 | None => 0 end in
  if decide (index = n_best) then Some values
  else vec_insert index value
         (if n_best <=? length values then take (length values - 1) values else values).

(** ** Entries and paths *)

Section entries.
Context `{Segmentation}.

Definition should_remove (e : DictionaryEntry) : bool :=
  let distance := fsub (entry_value e) DICTIONARY_THRESHOLD in
  if flt distance zero then true
  else
    let word_count := length (graphemes (word e)) in
    (word_count =? 0)
    || flt (fdiv (fopp (of_nat 2)) (of_nat word_count)) (fopp distance).

Definition typo_adjustment (e : DictionaryEntry) (penalty : f32) : f32 :=
  let word_count := of_nat (length (graphemes (word e)) `max` 1) in
  let ratio := if within 147 555 (left_id e) then lit 25 10 else of_nat 1 in
  fmul (fmul (fdiv (fopp (of_nat 1)) word_count) penalty) ratio.

Definition kana_entry (w r : ustring) (value : f32) : DictionaryEntry :=
  {| word := w; ruby := r; left_id := 1288; right_id := 1288; meaning_id := 501;
     base_value := value; adjustment := zero; metadata := no_metadata |}.

Definition single_character_entries (katakana : ustring) : list DictionaryEntry :=
  let hiragana := Kana.to_hiragana katakana in
  let words := if decide (hiragana = katakana) then [(katakana, fopp (of_nat 14))]
               else [(hiragana, fopp (of_nat 13)); (katakana, fopp (of_nat 14))] in
  (λ wv, kana_entry wv.1 katakana wv.2) <$> words.

Definition enforces_constraint (c : PrefixConstraint) (e : DictionaryEntry) : bool :=
  negb (ignore_memory_and_user_dictionary c) && negb (contains (metadata e) LEARNED)
  && negb (contains (metadata e) USER_DICTIONARY).

Definition path_bytes (p : RegisteredPath) : list byte :=
  path_list p ≫= λ q, utf8 (word (path_entry q)).

Definition path_can_continue (p : RegisteredPath) (c : PrefixConstraint) : bool :=
  can_continue c (path_bytes p).

Definition path_matches_fixed_prefix (p : RegisteredPath) (c : PrefixConstraint) : bool :=
  match fixed_prefix c with None => true | Some _ => bytes_match_fixed_prefix (path_bytes p) c end.

Definition path_and_word_can_continue (p : RegisteredPath) (w : ustring) (c : PrefixConstraint) :
    bool := can_continue c (path_bytes p ++ utf8 w).

Definition path_and_word_matches_fixed_prefix (p : RegisteredPath) (w : ustring)
    (c : PrefixConstraint) : bool :=
  match fixed_prefix c with
  | None => true
  | Some _ => bytes_match_fixed_prefix (path_bytes p ++ utf8 w) c
  end.

Definition path_satisfies (p : RegisteredPath) (c : PrefixConstraint) : bool :=
  is_satisfied_by c (path_bytes p).

(** The constraint tests of the conversion, on a path that ends with [e]. *)
Definition keeps_path (c : option PrefixConstraint) (e : DictionaryEntry) (p : RegisteredPath) :
    bool :=
  match c with
  | None => true
  | Some c => if enforces_constraint c e then path_can_continue p c
              else path_matches_fixed_prefix p c
  end.

Definition accepts_path (c : option PrefixConstraint) (e : DictionaryEntry) (p : RegisteredPath) :
    bool :=
  match c with
  | None => true
  | Some c => if enforces_constraint c e then path_satisfies p c
              else path_matches_fixed_prefix p c
  end.

(** The test on a path extended by the entry [next]. *)
Definition keeps_extension (c : option PrefixConstraint) (next : DictionaryEntry)
    (p : RegisteredPath) : bool :=
  match c with
  | None => true
  | Some c => if enforces_constraint c next then path_and_word_can_continue p (word next) c
              else path_and_word_matches_fixed_prefix p (word next) c
  end.

(** ** Candidates *)

Definition combine_counts (l r : ComposingCount) : ComposingCount :=
  match l, r with
  | CInput a, CInput b => CInput (a + b)
  | CSurface a, CSurface b => CSurface (a + b)
  | _, _ => CComposite l r
  end.

(** [reduce(combine_counts).unwrap_or(Input(0))] *)
Definition reduce_counts (cs : list ComposingCount) : ComposingCount :=
  match cs with [] => CInput 0 | c :: cs => foldl combine_counts c cs end.

Definition count_ruby (es : list DictionaryEntry) : nat :=
  sum_list ((λ e, length (graphemes (ruby e))) <$> es).

(** [Candidate::single] (and [Candidate::prediction]) *)
Definition candidate_single (t : ustring) (v : f32) (count : ComposingCount) (meaning : nat)
    (es : list DictionaryEntry) : Candidate :=
  {| text := t; cand_value := v; composing_count := count; last_meaning_id := meaning;
     entries := es; ruby_count := count_ruby es; is_learning_target := true;
     is_typo_correction := false; first_clause := None |}.

(** [Candidate::first_clause_candidate] *)
Definition first_clause_candidate (c : Candidate) : option (option Candidate) :=
  match first_clause c with
  | None => Some None
  | Some first =>
      if fc_entry_end first + 1 =? length (entries c) then Some None
      else
        es ← slice 0 (fc_entry_end first + 1) (entries c);
        counts ← mapM range_count (fc_ranges first);
        Some (Some {| text := fc_text first; cand_value := fc_value first;
                      composing_count := reduce_counts counts;
                      last_meaning_id := saturate_u16 (fc_meaning_id first); entries := es;
                      ruby_count := count_ruby es;
                      is_learning_target := is_learning_target c;
                      is_typo_correction := is_typo_correction c; first_clause := None |})
  end.

(** [unique_candidates]: the candidates with a text, the better or longer one of
    those with the same text at the place of the first; [indices] of the code maps
    each text to its place in the output. *)
Definition unique_step (output : list Candidate) (c : Candidate) : list Candidate :=
  match list_find (λ d, text d = text c) output with
  | Some (i, existing) =>
      if flt (cand_value existing) (cand_value c) || (ruby_count existing <? ruby_count c)
      then <[i := c]> output else output
  | None => output ++ [c]
  end.

(** [right.value.total_cmp(&left.value)] *)
Definition by_value (l r : Candidate) : comparison := total_cmp (cand_value r) (cand_value l).

Definition has_text (c : Candidate) : bool := negb (bool_decide (text c = [])).

Definition unique_candidates (cs : list Candidate) : list Candidate :=
  sort_by by_value (foldl unique_step [] (filter has_text cs)).
End entries.

(** ** The conversion *)

Record Nodes := {
  nodes : list LatticeNode;
  surface_nodes : list (list nat);
  input_nodes : list (list nat);
}.

Definition start_predecessors (start : nat) : list Predecessor :=
  if start =? 0 then [ {| pred_path := None; pred_total := zero |} ] else [].

Section convert.
Context `{Segmentation} `{IterationOrder} {E : Type} `{Dictionary E}.
Context (memory : option (MemoryLookup E)).
Context (tables : InputTableRegistry).

(** The two ways a node is added: [surface_nodes[start].push(node_index)] and
    the same on [input_nodes]. *)
Definition push_surface (start : nat) (st : Nodes) (e : DictionaryEntry) (to : nat) :
    outcome E Nodes :=
  let index := length (nodes st) in
  row ← panicking (surface_nodes st !! start);
  mret {| nodes := nodes st ++ [ {| node_entry := e; node_range := RSurface start to;
                                    predecessors := start_predecessors start |} ];
          surface_nodes := <[start := row ++ [index]]> (surface_nodes st);
          input_nodes := input_nodes st |}.

Definition push_input (start : nat) (st : Nodes) (e : DictionaryEntry) (to : nat) :
    outcome E Nodes :=
  let index := length (nodes st) in
  row ← panicking (input_nodes st !! start);
  mret {| nodes := nodes st ++ [ {| node_entry := e; node_range := RInput start to;
                                    predecessors := start_predecessors start |} ];
          surface_nodes := surface_nodes st;
          input_nodes := <[start := row ++ [index]]> (input_nodes st) |}.

Definition push_match (start : nat) (st : Nodes) (m : DictionaryMatch) : outcome E Nodes :=
  for_each (λ st e, if should_remove e then mret st
                    else push_surface start st e (start + surface_end m))
    st (match_entries m).

(** The entries that come from outside the dictionary. *)
Definition push_additional (surface_count start : nat) (suffix : ustring) (st : Nodes)
    (e : DictionaryEntry) : outcome E Nodes :=
  let n := length (graphemes (ruby e)) in
  if (n =? 0) || (MAXIMUM_DICTIONARY_LENGTH <? n) || (surface_count - start <? n)
     || negb (bool_decide (ruby e `prefix_of` suffix)) || should_remove e
  then mret st
  else push_surface start st e (start + n).

(** One iteration of the loop over the surface positions. *)
Definition add_surface_nodes (additional : list DictionaryEntry) (katakana : list Grapheme)
    (surface_count : nat) (st : Nodes) (start : nat) : outcome E Nodes :=
  rest ← panicking (slice start (length katakana) katakana);
  let suffix := concat rest in
  found ← fallible (matches_from_start suffix MAXIMUM_DICTIONARY_LENGTH);
  st ← for_each (push_match start) st found;
  single ← panicking (katakana !! start);
  st ← for_each (λ st e, push_surface start st e (start + 1)) st (single_character_entries single);
  learned ← match memory with
            | None => mret []
            | Some m => memory_matches m suffix MAXIMUM_DICTIONARY_LENGTH
            end;
  for_each (push_additional surface_count start suffix) st (additional ++ learned).

(** One iteration of the loop over the input positions (typing correction). *)
Definition add_input_nodes (additional : list DictionaryEntry) (input : list InputElement)
    (st : Nodes) (start : nat) : outcome E Nodes :=
  prefixes ← panicking (typo_prefixes tables (drop start input) MAXIMUM_DICTIONARY_LENGTH);
  for_each (λ st (p : TypoPrefix),
      exact ← fallible (exact_match (typo_ruby p));
      learned ← match memory with
                | None => mret [] | Some m => memory_exact m (typo_ruby p) end;
      let es := exact ++ filter (λ e, ruby e = typo_ruby p) additional ++ learned in
      for_each (λ st e,
          let e := adjusted e (typo_adjustment e (penalty p)) in
          if should_remove e then mret st else push_input start st e (start + consumed p))
        st es)
    st prefixes.

Definition build_nodes (mods : ConversionModifiers) (ct : ComposingText)
    (katakana : list Grapheme) : outcome E Nodes :=
  let surface_count := length (surface ct) in
  let input_count := length (input ct) in
  st ← for_each (add_surface_nodes (additional_entries mods) katakana surface_count)
         {| nodes := []; surface_nodes := replicate surface_count [];
            input_nodes := replicate input_count [] |} (seq 0 surface_count);
  if need_typo_correction mods
  then for_each (add_input_nodes (additional_entries mods) (input ct)) st (seq 0 input_count)
  else mret st.

(** The nodes that start at a position. *)
Definition nodes_at (st : Nodes) (index : DualIndex) : outcome E (list nat) :=
  s ← match dual_surface index with
      | Some s => panicking (surface_nodes st !! s) | None => mret [] end;
  i ← match dual_input index with
      | Some i => panicking (input_nodes st !! i) | None => mret [] end;
  mret (s ++ i).

(** The paths that end with a node. *)
Definition complete_node (context : ConversionContext) (c : option PrefixConstraint)
    (n : LatticeNode) : outcome E (list RegisteredPath) :=
  for_each (λ completed (p : Predecessor),
      head_connection ←
        (if starts_at_zero (node_range n)
         then fallible (connection_cost (context_right_id context) (left_id (node_entry n)))
         else mret zero);
      let total := fadd (fadd (pred_total p) (entry_value (node_entry n))) head_connection in
      let path := Registered (node_entry n) (node_range n) (pred_path p) total in
      mret (if keeps_path c (node_entry n) path then completed ++ [path] else completed))
    [] (predecessors n).

Definition with_predecessors (n : LatticeNode) (ps : list Predecessor) : LatticeNode :=
  {| node_entry := node_entry n; node_range := node_range n; predecessors := ps |}.

(** Extends the completed paths of a node by one following node. *)
Definition extend_to (n_best : nat) (c : option PrefixConstraint) (from : DictionaryEntry)
    (completed : list RegisteredPath) (ns : list LatticeNode) (next : nat) :
    outcome E (list LatticeNode) :=
  n ← panicking (ns !! next);
  connection ← fallible (connection_cost (right_id from) (left_id (node_entry n)));
  ps ← for_each (λ ps path,
      if keeps_extension c (node_entry n) path then
        panicking (insert_predecessor ps
          {| pred_path := Some path; pred_total := fadd (path_total path) connection |} n_best)
      else mret ps)
    (predecessors n) completed;
  mret (<[next := with_predecessors n ps]> ns).

Definition with_nodes (st : Nodes) (ns : list LatticeNode) : Nodes :=
  {| nodes := ns; surface_nodes := surface_nodes st; input_nodes := input_nodes st |}.

Definition at_end (ct : ComposingText) (next : DualIndex) : bool :=
  bool_decide (dual_surface next = Some (length (surface ct)))
  || bool_decide (dual_input next = Some (length (input ct))).

(** The processing of one node; the state is the lattice and the paths found. *)
Definition process_node (n_best : nat) (context : ConversionContext) (c : option PrefixConstraint)
    (m : DualIndexMap) (ct : ComposingText) (st : Nodes * list RegisteredPath) (node_index : nat) :
    outcome E (Nodes * list RegisteredPath) :=
  let '(ns, results) := st in
  n ← panicking (nodes ns !! node_index);
  match predecessors n with
  | [] => mret st
  | _ =>
      completed ← complete_node context c n;
      let next_index := dual m (range_end (node_range n)) in
      if at_end ct next_index
      then mret (ns, results ++ filter (accepts_path c (node_entry n)) completed)
      else
        next_nodes ← nodes_at ns next_index;
        ns' ← for_each (extend_to n_best c (node_entry n) completed) (nodes ns) next_nodes;
        mret (with_nodes ns ns', results)
  end.

Definition process_index (n_best : nat) (context : ConversionContext) (c : option PrefixConstraint)
    (m : DualIndexMap) (ct : ComposingText) (st : Nodes * list RegisteredPath) (index : DualIndex) :
    outcome E (Nodes * list RegisteredPath) :=
  current ← nodes_at st.1 index;
  for_each (process_node n_best context c m ct) st current.

(** The clauses of a path, the last one first. *)
Definition clause_meaning (current : nat) (e : DictionaryEntry) : nat :=
  if ((current =? BOS_MEANING_ID) && negb (meaning_id e =? BOS_MEANING_ID)) || includes_meaning e
  then meaning_id e else current.

Definition clause_step (st : list FirstClause * list DictionaryEntry * nat) (p : RegisteredPath) :
    option (list FirstClause * list DictionaryEntry * nat) :=
  let '(clauses, es, previous_right) := st in
  let e := path_entry p in
  let continue_clause :=
    match clauses with c :: _ => bool_decide (fc_text c = []) | [] => false end
    || negb (is_clause previous_right (left_id e)) in
  let clauses :=
    if continue_clause then clauses
    else {| fc_text := []; fc_value := path_total p;
            fc_meaning_id := if includes_meaning e then meaning_id e else BOS_MEANING_ID;
            fc_ranges := []; fc_entry_end := length es |} :: clauses in
  match clauses with
  | [] => None
  | c :: rest =>
      Some ({| fc_text := fc_text c ++ word e; fc_value := path_total p;
               fc_meaning_id := clause_meaning (fc_meaning_id c) e;
               fc_ranges := fc_ranges c ++ [path_range p]; fc_entry_end := length es |} :: rest,
            es ++ [e], right_id e)
  end.

Definition is_input_range (r : LatticeRange) : bool :=
  match r with RInput _ _ => true | RSurface _ _ => false end.

(** [make_candidate] *)
Definition make_candidate (context : ConversionContext) (p : RegisteredPath) : option Candidate :=
  let paths := path_list p in
  '(clauses, es, _) ← foldl (λ st q, st ← st; clause_step st q)
    (Some ([ {| fc_text := []; fc_value := zero; fc_meaning_id := context_meaning_id context;
                fc_ranges := []; fc_entry_end := 0 |} ], [], BOS_CLASS_ID)) paths;
  let clauses := reverse clauses in
  let '(meaning_value, previous_meaning) :=
    foldl (λ st c, (fadd st.1 (default zero (meaning_cost st.2 (fc_meaning_id c))),
                    fc_meaning_id c)) (zero, BOS_MEANING_ID) clauses in
  counts ← mapM range_count (clauses ≫= fc_ranges);
  Some {| text := clauses ≫= fc_text;
          cand_value := match last clauses with
                        | Some c => fadd (fc_value c) meaning_value | None => meaning_value end;
          composing_count := reduce_counts counts;
          last_meaning_id := saturate_u16 previous_meaning; entries := es;
          ruby_count := count_ruby es; is_learning_target := true;
          is_typo_correction := existsb (λ q, is_input_range (path_range q)) paths;
          first_clause := head clauses |}.

(** [convert_with_entries_typo_and_constraint] *)
Definition convert (mods : ConversionModifiers) (ct : ComposingText) (n_best : nat)
    (context : ConversionContext) : outcome E (list Candidate) :=
  if (n_best =? 0) || is_empty ct then mret []
  else
    let surface_count := length (surface ct) in
    let input_count := length (input ct) in
    m ← panicking (dual_index_map_new tables ct);
    let katakana := graphemes (Kana.to_katakana (concat (surface ct))) in
    st ← build_nodes mods ct katakana;
    '(_, results) ← for_each (process_index n_best context (constraint mods) m ct) (st, [])
                      (indices m input_count surface_count);
    candidates ← panicking (mapM (make_candidate context) results);
    mret (unique_candidates (sort_by by_value candidates)).

(** The conversions of [NormalConverter] by what they are given *)
Definition convert_with_entries_and_typo (ct : ComposingText) (n_best : nat) (context : ConversionContext)
    (additional : list DictionaryEntry) (typo : bool) : outcome E (list Candidate) :=
  convert {| additional_entries := additional; need_typo_correction := typo; constraint := None |} ct n_best context.

Definition convert_with_entries (ct : ComposingText) (n_best : nat) (context : ConversionContext)
    (additional : list DictionaryEntry) : outcome E (list Candidate) :=
  convert_with_entries_and_typo ct n_best context additional false.

Definition convert_with_entries_and_prefix_constraint (ct : ComposingText) (n_best : nat)
    (context : ConversionContext) (additional : list DictionaryEntry) (c : PrefixConstraint) :
    outcome E (list Candidate) :=
  convert {| additional_entries := additional; need_typo_correction := false; constraint := Some c |} ct n_best context.

Definition convert_with_prefix_constraint (ct : ComposingText) (n_best : nat) (context : ConversionContext)
    (c : PrefixConstraint) : outcome E (list Candidate) :=
  convert {| additional_entries := []; need_typo_correction := false; constraint := Some c |} ct n_best context.

Definition convert_with_typo_correction (ct : ComposingText) (n_best : nat) (context : ConversionContext) :
    outcome E (list Candidate) :=
  convert_with_entries_and_typo ct n_best context [] true.

Definition convert_with_context (ct : ComposingText) (n_best : nat) (context : ConversionContext) :
    outcome E (list Candidate) :=
  convert_with_entries ct n_best context [].

(** [convert] without a context *)
Definition convert_alone (ct : ComposingText) (n_best : nat) : outcome E (list Candidate) :=
  convert_with_context ct n_best default_context.
End convert.
