(* ===== verification/LatticeSpec.v ===== *)
(** * What the lattice conversion promises

    The conversion of lattice.rs never panics on texts whose clusters are single
    characters, and every candidate it returns is a chain of words that covers
    the whole text: read one after the other they read as the text, and the
    constraint of the conversion holds for them. *)

From S2P Require Import Prelude Unicode InputTable DefaultTables Composing ComposingSpec F32 Dictionary Constraint Typo LatticeIndex Lattice.

(** ** The n best predecessors *)

Lemma rposition_lt {A} (p : A → bool) l i : rposition p l = Some i → i < length l.
Proof.
  revert i. induction l as [|x l IH]; intros i; simpl; [done|].
  destruct (rposition p l) as [j|]; [intros [= <-]; specialize (IH j eq_refl); lia|].
  destruct (p x); [intros [= <-]; lia|done].
Qed.

Lemma insert_predecessor_ok values value n_best :
  length values ≤ n_best → 0 < n_best →
  ∃ ps, insert_predecessor values value n_best = Some ps ∧ length ps ≤ n_best ∧
    ∀ p, p ∈ ps → p ∈ values ∨ p = value.
Proof.
  intros Hlen Hn. unfold insert_predecessor.
  set (index := match rposition _ values with Some i => i + 1 | None => 0 end).
  assert (Hindex : index ≤ length values).
  { unfold index. destruct (rposition _ values) eqn:E; [|lia]. apply rposition_lt in E. lia. }
  destruct (decide (index = n_best)) as [_|Hne]; [by eauto|].
  unfold vec_insert. destruct (Nat.leb_spec n_best (length values)) as [Hfull|Hroom].
  - rewrite decide_True by (rewrite length_take; lia). eexists. split_and!; [done|
      clearbody index; rewrite length_app; cbn [length]; rewrite !length_take, ?length_drop, ?length_take; lia|].
    intros p. rewrite elem_of_app, elem_of_cons.
    intros [Hp|[-> |Hp]]; [left|by right|left].
    + eauto with bean.
    + eauto with bean.
  - rewrite decide_True by lia. eexists. split_and!; [done|
      clearbody index; rewrite length_app; cbn [length]; rewrite length_take, length_drop; lia|].
    intros p. rewrite elem_of_app, elem_of_cons.
    intros [Hp|[-> |Hp]]; [left|by right|left].
    + eauto with bean.
    + eauto with bean.
Qed.

(** ** Texts without combining sequences *)

(** All clusters of all parts of the text are single characters. *)
Definition plain `{Segmentation} (t : ustring) : Prop :=
  ∀ a b c, t = a ++ b ++ c → graphemes b = clusters b.

Lemma concat_clusters s : concat (clusters s) = s.
Proof. unfold clusters. induction s as [|c s IH]; [done|]. cbn. by f_equal. Qed.

Lemma concat_drop_clusters n s : concat (drop n (clusters s)) = drop n s.
Proof. unfold clusters. rewrite <- fmap_drop. apply concat_clusters. Qed.

Lemma length_clusters s : length (clusters s) = length s.
Proof. apply length_fmap. Qed.

(** ** The lattice *)

Section spec.
Context `{Segmentation} `{!IterationOrder} `{!IterationOrderLaws} {E : Type} `{!Dictionary E}.
Context `{!DictionaryLaws E}.
Context (memory : option (MemoryLookup E)) (Hmemory : memory_lawful memory).
Context (tables : InputTableRegistry).
Context (Hok : registry_ok tables) (ct : ComposingText) (Hwf : wf tables ct).
Context (m : DualIndexMap) (Hm : dual_index_map_new tables ct = Some m).
Context (typo : bool) (n_best : nat) (Hn : 0 < n_best).

(** The reading of the text. *)
Let T : ustring := Kana.to_katakana (concat (surface ct)).
Let sc : nat := length (surface ct).
Let ic : nat := length (input ct).
Context (HT : plain T) (HTlen : length T = sc).

(** A node covers a non-empty part of the text; on the surface it reads as it,
    and it stands on the input only when typing corrections are asked for. *)
Definition covers (e : DictionaryEntry) (r : LatticeRange) : Prop :=
  match r with
  | RSurface from to => from < to ≤ sc ∧ ruby e = take (to - from) (drop from T)
  | RInput from to => typo = true ∧ from < to ≤ ic
  end.

(** The position [d] is where the range starts. *)
Definition begins (d : DualIndex) (r : LatticeRange) : Prop :=
  match r with
  | RSurface from _ => dual_surface d = Some from
  | RInput from _ => dual_input d = Some from
  end.

(** A chain of words from the start of the text. *)
Fixpoint chain (p : RegisteredPath) : Prop :=
  match p with
  | Registered e r previous _ =>
      covers e r ∧
      match previous with
      | Some q => chain q ∧ begins (dual m (range_end (path_range q))) r
      | None => starts_at_zero r = true
      end
  end.

Definition predecessor_ok (r : LatticeRange) (p : Predecessor) : Prop :=
  match pred_path p with
  | Some q => chain q ∧ begins (dual m (range_end (path_range q))) r
  | None => starts_at_zero r = true
  end.

Definition node_ok (n : LatticeNode) : Prop :=
  covers (node_entry n) (node_range n) ∧ length (predecessors n) ≤ n_best ∧
  ∀ p, p ∈ predecessors n → predecessor_ok (node_range n) p.

(** The rows of node numbers list nodes that start at the row's position. *)
Definition rows_ok (ns : list LatticeNode) (surface_side : bool) (rows : list (list nat)) : Prop :=
  ∀ s row j, rows !! s = Some row → j ∈ row →
    ∃ n, ns !! j = Some n ∧
      match node_range n with
      | RSurface from _ => surface_side = true ∧ from = s
      | RInput from _ => surface_side = false ∧ from = s
      end.

Definition lattice_ok (st : Nodes) : Prop :=
  length (surface_nodes st) = sc ∧ length (input_nodes st) = ic ∧
  (∀ n, n ∈ nodes st → node_ok n) ∧
  rows_ok (nodes st) true (surface_nodes st) ∧ rows_ok (nodes st) false (input_nodes st).

(** *** Building the nodes *)

Lemma katakana_clusters : graphemes T = clusters T.
Proof. apply (HT [] T []). by rewrite app_nil_r. Qed.

Lemma suffix_clusters start : graphemes (drop start T) = clusters (drop start T).
Proof. apply (HT (take start T) (drop start T) []). by rewrite app_nil_r, take_drop. Qed.

Lemma part_clusters start r : r `prefix_of` drop start T → graphemes r = clusters r.
Proof.
  intros [k Hk]. apply (HT (take start T) r k). by rewrite <- Hk, take_drop.
Qed.

Lemma start_predecessors_ok start r :
  (starts_at_zero r = (start =? 0)) →
  length (start_predecessors start) ≤ n_best ∧
  ∀ p, p ∈ start_predecessors start → predecessor_ok r p.
Proof.
  intros Hr. unfold start_predecessors. destruct (Nat.eqb_spec start 0) as [-> |Hs]; simpl.
  - split; [lia|]. intros p ->%list_elem_of_singleton. unfold predecessor_ok. simpl. done.
  - split; [lia|]. by intros p ?%not_elem_of_nil.
Qed.

Lemma rows_ok_push ns side rows start row n :
  rows_ok ns side rows → rows !! start = Some row →
  match node_range n with
  | RSurface from _ => side = true ∧ from = start
  | RInput from _ => side = false ∧ from = start
  end →
  rows_ok (ns ++ [n]) side (<[start := row ++ [length ns]]> rows).
Proof.
  intros Hr Hrow Hside s row' j Hs Hj.
  assert (Hold : ∀ s row j, rows !! s = Some row → j ∈ row → ∃ n0, (ns ++ [n]) !! j = Some n0 ∧
    match node_range n0 with
    | RSurface from _ => side = true ∧ from = s | RInput from _ => side = false ∧ from = s end).
  { intros s0 row0 j0 Hs0 Hj0. destruct (Hr s0 row0 j0 Hs0 Hj0) as (n0 & Hn0 & ?).
    exists n0. split; [|done]. by apply lookup_app_l_Some. }
  destruct (decide (s = start)) as [-> |Hne].
  - rewrite list_lookup_insert_eq in Hs by (by eapply lookup_lt_Some). injection Hs as <-.
    apply elem_of_app in Hj as [Hj| ->%list_elem_of_singleton]; [by eapply Hold|].
    exists n. split; [|done]. by rewrite lookup_app_r, Nat.sub_diag by lia.
  - rewrite list_lookup_insert_ne in Hs by done. by eapply Hold.
Qed.

Lemma rows_ok_grow ns side rows n : rows_ok ns side rows → rows_ok (ns ++ [n]) side rows.
Proof.
  intros Hr s row j Hs Hj. destruct (Hr s row j Hs Hj) as (n0 & Hn0 & ?).
  exists n0. split; [|done]. by apply lookup_app_l_Some.
Qed.

Lemma push_surface_ok st start e to :
  lattice_ok st → covers e (RSurface start to) →
  safe (E:=E) (push_surface start st e to) lattice_ok.
Proof.
  intros (Hs & Hi & Hnodes & Hsn & Hin) Hc. unfold push_surface.
  destruct (lookup_lt_is_Some_2 (surface_nodes st) start) as [row Hrow].
  { rewrite Hs. destruct Hc as [Hc _]. lia. }
  apply safe_bind, (safe_panicking _ row); [done|]. apply safe_ret.
  split_and!; simpl; [by rewrite length_insert|done| | |by apply rows_ok_grow].
  - intros n [Hn0| ->%list_elem_of_singleton]%elem_of_app; [by apply Hnodes|].
    split; [done|]. simpl. by apply start_predecessors_ok.
  - by apply rows_ok_push.
Qed.

Lemma push_input_ok st start e to :
  lattice_ok st → covers e (RInput start to) →
  safe (E:=E) (push_input start st e to) lattice_ok.
Proof.
  intros (Hs & Hi & Hnodes & Hsn & Hin) Hc. unfold push_input.
  destruct (lookup_lt_is_Some_2 (input_nodes st) start) as [row Hrow].
  { rewrite Hi. destruct Hc as [_ Hc]. lia. }
  apply safe_bind, (safe_panicking _ row); [done|]. apply safe_ret.
  split_and!; simpl; [done|by rewrite length_insert| |by apply rows_ok_grow|].
  - intros n [Hn0| ->%list_elem_of_singleton]%elem_of_app; [by apply Hnodes|].
    split; [done|]. simpl. by apply start_predecessors_ok.
  - by apply rows_ok_push.
Qed.

Lemma push_match_ok st start found mt :
  start < sc → lattice_ok st →
  matches_from_start (drop start T) MAXIMUM_DICTIONARY_LENGTH = Ok found → mt ∈ found →
  safe (E:=E) (push_match start st mt) lattice_ok.
Proof.
  intros Hst Hl Hf Hmt. apply (safe_for_each lattice_ok); [|done|done].
  intros e st1 He Hl1. destruct (should_remove e); [done|].
  apply push_surface_ok; [done|].
  destruct (matches_from_start_ruby _ _ _ _ _ Hf Hmt He) as [Hend Hr].
  rewrite suffix_clusters, length_clusters, length_drop in Hend.
  split; [lia|]. rewrite Hr, suffix_clusters. unfold clusters.
  rewrite <- fmap_take. replace (start + surface_end mt - start) with (surface_end mt) by lia.
  apply concat_clusters.
Qed.

Lemma push_additional_ok st start e :
  start < sc → lattice_ok st →
  safe (E:=E) (push_additional sc start (drop start T) st e) lattice_ok.
Proof.
  intros Hst Hl. unfold push_additional.
  destruct (_ || _) eqn:Hcond; [done|].
  apply orb_false_iff in Hcond as [Hcond _]. apply orb_false_iff in Hcond as [Hcond Hp].
  apply orb_false_iff in Hcond as [Hcond Hroom%Nat.ltb_ge].
  apply orb_false_iff in Hcond as [Hne%Nat.eqb_neq _].
  apply negb_false_iff, bool_decide_eq_true in Hp.
  rewrite (part_clusters start) in * by done. rewrite length_clusters in *.
  apply push_surface_ok; [done|]. split; [lia|]. destruct Hp as [k Hk].
  rewrite Hk. replace (start + length (ruby e) - start) with (length (ruby e)) by lia.
  by rewrite take_app_length.
Qed.

Lemma single_character_ok start st e :
  start < sc → lattice_ok st →
  (∀ c, T !! start = Some c → e ∈ single_character_entries [c]) →
  safe (E:=E) (push_surface start st e (start + 1)) lattice_ok.
Proof.
  intros Hst Hl He. apply push_surface_ok; [done|]. split; [lia|].
  destruct (lookup_lt_is_Some_2 T start) as [c Hc]; [lia|]. specialize (He c Hc).
  replace (start + 1 - start) with 1 by lia. rewrite (drop_S _ c) by done. simpl.
  unfold single_character_entries in He. apply list_elem_of_fmap in He as (wv & -> & _).
  by rewrite take_0.
Qed.

Lemma add_surface_nodes_ok additional st start :
  start < sc → lattice_ok st →
  safe (add_surface_nodes memory additional (graphemes T) sc st start) lattice_ok.
Proof.
  intros Hst Hl. unfold add_surface_nodes. rewrite katakana_clusters.
  destruct (lookup_lt_is_Some_2 T start) as [c Hc]; [lia|].
  apply safe_bind. eapply safe_panicking.
  { apply slice_ok; rewrite length_clusters; lia. }
  rewrite take_ge by (rewrite length_drop; lia). rewrite concat_drop_clusters.
  apply safe_bind, safe_fallible. intros found Hfound.
  apply safe_bind, (safe_for_each lattice_ok); [|done|].
  { intros mt st1 Hmt Hl1. by eapply push_match_ok. }
  intros st1 Hl1. apply safe_bind, (safe_panicking _ [c]).
  { unfold clusters. by rewrite list_lookup_fmap, Hc. }
  apply safe_bind, (safe_for_each lattice_ok); [|done|].
  { intros e st2 He Hl2. apply single_character_ok; [done|done|].
    intros c' Hc'. by rewrite Hc in Hc'; simplify_eq. }
  intros st2 Hl2. apply safe_bind. destruct memory as [mem|].
  - eapply safe_mono; [by apply (memory_matches_safe (Hmemory mem eq_refl))|]. intros learned _. apply (safe_for_each lattice_ok); [|done|done].
    intros e st3 _ Hl3. by apply push_additional_ok.
  - apply safe_ret, (safe_for_each lattice_ok); [|done|done].
    intros e st3 _ Hl3. by apply push_additional_ok.
Qed.

Lemma add_input_nodes_ok additional st start :
  typo = true → start < ic → lattice_ok st →
  safe (add_input_nodes memory tables additional (input ct) st start) lattice_ok.
Proof.
  intros Htypo Hst Hl. unfold add_input_nodes.
  destruct (typo_prefixes_ok tables Hok (drop start (input ct)) MAXIMUM_DICTIONARY_LENGTH)
    as (ps & -> & _ & Hps).
  apply safe_bind, (safe_panicking _ ps); [done|].
  apply (safe_for_each lattice_ok); [|done|done]. intros p st1 Hp Hl1.
  assert (Hused : 0 < consumed p ≤ length (drop start (input ct))).
  { destruct (Hps p Hp) as (? & ? & _ & ? & _). done. }
  rewrite length_drop in Hused.
  apply safe_bind, safe_fallible. intros es _. apply safe_bind.
  assert (Hpush : ∀ es, safe (E:=E) (for_each (λ st e,
      let e := adjusted e (typo_adjustment e (penalty p)) in
      if should_remove e then mret st else push_input start st e (start + consumed p)) st1 es)
    lattice_ok).
  { intros es'. apply (safe_for_each lattice_ok); [|done|done]. intros e st2 _ Hl2. simpl.
    destruct (should_remove _); [done|]. apply push_input_ok; [done|]. simpl. unfold ic in *. split; [done|lia]. }
  destruct memory as [mem|]; [|apply safe_ret, Hpush].
  eapply safe_mono; [by apply (memory_exact_safe (Hmemory mem eq_refl))|]. intros learned _. apply Hpush.
Qed.

Lemma build_nodes_ok mods :
  typo = need_typo_correction mods →
  safe (build_nodes memory tables mods ct (graphemes T)) lattice_ok.
Proof.
  intros Htypo. unfold build_nodes. fold sc ic. apply safe_bind, (safe_for_each lattice_ok).
  - intros start st Hin Hl. apply elem_of_seq in Hin. apply add_surface_nodes_ok; [lia|done].
  - split_and!; simpl; [by rewrite length_replicate..| | |].
    + by intros n ?%not_elem_of_nil.
    + intros s row j Hs Hj. apply lookup_replicate in Hs as [-> _]. by apply not_elem_of_nil in Hj.
    + intros s row j Hs Hj. apply lookup_replicate in Hs as [-> _]. by apply not_elem_of_nil in Hj.
  - intros st Hl. destruct (need_typo_correction mods); [|done].
    apply (safe_for_each lattice_ok); [|done|done].
    intros start st1 Hin Hl1. apply elem_of_seq in Hin. apply add_input_nodes_ok; [done|lia|done].
Qed.

(** *** Walking the lattice *)

Lemma nodes_at_ok st d :
  lattice_ok st →
  (∀ s, dual_surface d = Some s → s < sc) → (∀ i, dual_input d = Some i → i < ic) →
  safe (E:=E) (nodes_at st d) (λ js, ∀ j, j ∈ js →
    ∃ n, nodes st !! j = Some n ∧ begins d (node_range n)).
Proof.
  intros (Hs & Hi & _ & Hsn & Hin) Hds Hdi. unfold nodes_at.
  assert (Hsurf : safe (E:=E) (match dual_surface d with
      | Some s => panicking (surface_nodes st !! s) | None => mret [] end)
    (λ js, ∀ j, j ∈ js → ∃ n, nodes st !! j = Some n ∧ begins d (node_range n))).
  { destruct (dual_surface d) as [s|] eqn:Hd; [|by intros j ?%not_elem_of_nil].
    destruct (lookup_lt_is_Some_2 (surface_nodes st) s) as [row Hrow]; [rewrite Hs; auto|].
    apply (safe_panicking _ row); [done|]. intros j Hj.
    destruct (Hsn s row j Hrow Hj) as (n & Hn0 & Hr). exists n. split; [done|].
    destruct (node_range n); destruct Hr as [Hr ->]; [done|]. simpl. done. }
  assert (Hinp : safe (E:=E) (match dual_input d with
      | Some i => panicking (input_nodes st !! i) | None => mret [] end)
    (λ js, ∀ j, j ∈ js → ∃ n, nodes st !! j = Some n ∧ begins d (node_range n))).
  { destruct (dual_input d) as [i|] eqn:Hd; [|by intros j ?%not_elem_of_nil].
    destruct (lookup_lt_is_Some_2 (input_nodes st) i) as [row Hrow]; [rewrite Hi; auto|].
    apply (safe_panicking _ row); [done|]. intros j Hj.
    destruct (Hin i row j Hrow Hj) as (n & Hn0 & Hr). exists n. split; [done|].
    destruct (node_range n); destruct Hr as [Hr ->]; [|done]. simpl. done. }
  apply safe_bind. eapply safe_mono; [exact Hsurf|]. intros js1 H1'.
  apply safe_bind. eapply safe_mono; [exact Hinp|]. intros js2 H2'.
  apply safe_ret. intros j [?|?]%elem_of_app; auto.
Qed.

Lemma complete_node_ok context c n :
  node_ok n →
  safe (complete_node context c n) (Forall (λ p, chain p ∧ path_entry p = node_entry n ∧
    path_range p = node_range n ∧ keeps_path c (node_entry n) p = true)).
Proof.
  intros (Hcov & _ & Hpreds). unfold complete_node.
  apply (safe_for_each (Forall (λ p, chain p ∧ path_entry p = node_entry n ∧
    path_range p = node_range n ∧ keeps_path c (node_entry n) p = true)));
    [|constructor|done].
  intros p completed Hp Hall. apply safe_bind.
  assert (Hstep : ∀ total, safe (E:=E) (mret (
      let path := Registered (node_entry n) (node_range n) (pred_path p) total in
      if keeps_path c (node_entry n) path then completed ++ [path] else completed))
    (Forall (λ p, chain p ∧ path_entry p = node_entry n ∧
       path_range p = node_range n ∧ keeps_path c (node_entry n) p = true))).
  { intros total. apply safe_ret. simpl. destruct (keeps_path _ _ _) eqn:Hk; [|done].
    apply Forall_app_2; [done|]. constructor; [|constructor].
    split_and!; [|done|done|done]. simpl. split; [done|].
    specialize (Hpreds p Hp). unfold predecessor_ok in Hpreds. by destruct (pred_path p). }
  destruct (starts_at_zero (node_range n)).
  - apply safe_fallible. intros a _. apply Hstep.
  - apply safe_ret. apply Hstep.
Qed.

Lemma rows_ok_update ns side rows next n ps :
  rows_ok ns side rows → ns !! next = Some n →
  rows_ok (<[next := with_predecessors n ps]> ns) side rows.
Proof.
  intros Hr Hnext s row j Hs Hj. destruct (Hr s row j Hs Hj) as (n0 & Hn0 & Hside).
  destruct (decide (j = next)) as [-> |Hne].
  - rewrite list_lookup_insert_eq by (by eapply lookup_lt_Some).
    eexists. split; [done|]. simpl. by simplify_eq.
  - rewrite list_lookup_insert_ne by done. eauto.
Qed.

(** What the extensions keep of the lattice: the rows, and each node's range. *)
Definition same_shape (ns ns' : list LatticeNode) : Prop :=
  ∀ j n, ns !! j = Some n → ∃ n', ns' !! j = Some n' ∧
    node_range n' = node_range n ∧ node_entry n' = node_entry n.

Lemma extend_to_ok c from completed st ns next r :
  lattice_ok (with_nodes st ns) →
  Forall (λ p, chain p ∧ path_range p = r) completed →
  (∃ n, ns !! next = Some n ∧ begins (dual m (range_end r)) (node_range n)) →
  safe (extend_to n_best c from completed ns next) (λ ns',
    lattice_ok (with_nodes st ns') ∧ same_shape ns ns').
Proof.
  intros (Hs & Hi & Hnodes & Hsn & Hin) Hcompleted (n & Hnext & Hbegins). unfold extend_to.
  apply safe_bind, (safe_panicking _ n); [done|].
  apply safe_bind, safe_fallible. intros connection _. apply safe_bind.
  assert (Hnode : node_ok n) by (apply Hnodes; by eapply list_elem_of_lookup_2).
  destruct Hnode as (Hcov & Hlen & Hpreds).
  apply (safe_for_each (λ ps, length ps ≤ n_best ∧
    ∀ p, p ∈ ps → predecessor_ok (node_range n) p)); [|done|].
  - intros path ps Hpath [Hl Hall]. destruct (keeps_extension _ _ _); [|done].
    destruct (insert_predecessor_ok ps
      {| pred_path := Some path; pred_total := fadd (path_total path) connection |} n_best)
      as (ps' & Hps' & Hl' & Hmem); [done..|].
    apply (safe_panicking _ ps'); [done|]. split; [done|].
    intros p [Hp| ->]%Hmem; [by apply Hall|]. unfold predecessor_ok. simpl.
    rewrite Forall_forall in Hcompleted. by destruct (Hcompleted path Hpath) as [? ->].
  - intros ps [Hl Hall]. apply safe_ret. split.
    + split_and!; [done|done| |by apply rows_ok_update|by apply rows_ok_update].
      intros n' Hn'. apply list_elem_of_lookup in Hn' as [j Hj]. simpl in Hj.
      destruct (decide (j = next)) as [-> |Hne].
      * rewrite list_lookup_insert_eq in Hj by (by eapply lookup_lt_Some).
        injection Hj as <-. by split_and!.
      * rewrite list_lookup_insert_ne in Hj by done. apply Hnodes.
        by eapply list_elem_of_lookup_2.
    + intros j n0 Hj. destruct (decide (j = next)) as [-> |Hne].
      * rewrite list_lookup_insert_eq by (by eapply lookup_lt_Some). eexists. split; [done|].
        by simplify_eq.
      * rewrite list_lookup_insert_ne by done. eauto.
Qed.

(** The results: complete chains that pass the constraint. *)
Definition result_ok (c : option PrefixConstraint) (p : RegisteredPath) : Prop :=
  chain p ∧ at_end ct (dual m (range_end (path_range p))) = true ∧
  keeps_path c (path_entry p) p = true ∧ accepts_path c (path_entry p) p = true.

Definition search_ok (c : option PrefixConstraint) (st : Nodes * list RegisteredPath) : Prop :=
  lattice_ok st.1 ∧ Forall (result_ok c) st.2.

Lemma covers_end e r :
  covers e r → match range_end r with LInput i => i ≤ ic | LSurface s => s ≤ sc end.
Proof. destruct r; simpl; lia. Qed.

Lemma next_inside e r :
  covers e r → at_end ct (dual m (range_end r)) = false →
  (∀ s, dual_surface (dual m (range_end r)) = Some s → s < sc) ∧
  (∀ i, dual_input (dual m (range_end r)) = Some i → i < ic).
Proof.
  intros Hcov [Hs Hi]%orb_false_iff. apply bool_decide_eq_false in Hs, Hi.
  destruct (dual_inside tables ct m (range_end r) Hok Hwf Hm (covers_end e r Hcov)) as [H1' H2'].
  split.
  - intros s Hd. specialize (H1' s Hd). rewrite Hd in Hs. fold sc in H1', Hs.
    assert (s ≠ sc) by congruence. lia.
  - intros i Hd. specialize (H2' i Hd). rewrite Hd in Hi. fold ic in H2', Hi.
    assert (i ≠ ic) by congruence. lia.
Qed.

Lemma process_node_ok context c st j :
  search_ok c st → (∃ n, nodes st.1 !! j = Some n) →
  safe (process_node n_best context c m ct st j) (λ st',
    search_ok c st' ∧ same_shape (nodes st.1) (nodes st'.1)).
Proof.
  destruct st as [ns results]. intros [Hl Hres] [n Hj]. unfold process_node. cbn [fst snd] in *.
  apply safe_bind, (safe_panicking _ n); [done|].
  assert (Hnode : node_ok n) by (apply Hl; by eapply list_elem_of_lookup_2).
  destruct (predecessors n) as [|p0 ps0] eqn:Hp0.
  { split; [done|]. intros j0 n0 Hj0. by exists n0. }
  apply safe_bind. eapply safe_mono; [by apply complete_node_ok|]. intros completed Hcompleted.
  destruct (at_end ct (dual m (range_end (node_range n)))) eqn:Hend.
  - apply safe_ret. split; [|intros j0 n0 Hj0; by exists n0].
    split; [done|]. cbn [snd]. apply Forall_app_2; [done|].
    rewrite Forall_forall in *. intros q [Hq1 Hq2]%list_elem_of_filter.
    destruct (Hcompleted q Hq2) as (Hc & He & Hr & Hk). unfold result_ok.
    rewrite He, Hr. split_and!; try done. by destruct (accepts_path _ _ _).
  - destruct (next_inside _ _ (proj1 Hnode) Hend) as [Hds Hdi].
    apply safe_bind. eapply safe_mono; [by apply nodes_at_ok|]. intros js Hjs. apply safe_bind.
    apply (safe_for_each (λ ns', lattice_ok (with_nodes ns ns') ∧ same_shape (nodes ns) ns')).
    + intros next ns' Hnext [Hl' Hshape].
      destruct (Hjs next Hnext) as (n1 & Hn1 & Hb). destruct (Hshape next n1 Hn1) as (n2 & Hn2 & Hr2 & _).
      eapply safe_mono.
      { apply (extend_to_ok c (node_entry n) completed ns ns' next (node_range n)); [done| |].
        - eapply Forall_impl; [exact Hcompleted|]. cbn. naive_solver.
        - exists n2. split; [done|]. by rewrite Hr2. }
      cbn. intros ns2 [Hl2 Hshape2]. split; [done|]. intros j0 n0 Hj0.
      destruct (Hshape j0 n0 Hj0) as (n3 & Hn3 & Hr3 & He3).
      destruct (Hshape2 j0 n3 Hn3) as (n4 & Hn4 & Hr4 & He4). exists n4. split; [done|]. split; congruence.
    + split; [by destruct ns|]. intros j0 n0 Hj0. by exists n0.
    + intros ns' [Hl' Hshape]. by apply safe_ret.
Qed.

Lemma process_index_ok context c st d :
  (∀ s, dual_surface d = Some s → s < sc) → (∀ i, dual_input d = Some i → i < ic) →
  search_ok c st → safe (process_index n_best context c m ct st d) (search_ok c).
Proof.
  intros Hds Hdi Hst. unfold process_index.
  apply safe_bind. eapply safe_mono; [apply nodes_at_ok; [apply Hst|done|done]|].
  intros js Hjs.
  apply (safe_for_each (λ st', search_ok c st' ∧ same_shape (nodes st.1) (nodes st'.1)));
    [|split; [done|intros j n Hj; by exists n]|naive_solver].
  intros j st1 Hj [Hst1 Hshape]. destruct (Hjs j Hj) as (n & Hn1 & _).
  destruct (Hshape j n Hn1) as (n1 & Hn2 & _).
  eapply safe_mono; [apply process_node_ok; [done|by exists n1]|].
  cbn. intros st2 [Hst2 Hshape2]. split; [done|]. intros j0 n0 Hj0.
  destruct (Hshape j0 n0 Hj0) as (n3 & Hn3 & Hr3 & He3).
  destruct (Hshape2 j0 n3 Hn3) as (n4 & Hn4 & Hr4 & He4).
  exists n4. split; [done|]. split; congruence.
Qed.

Lemma search_ok_all context c st :
  lattice_ok st →
  safe (for_each (process_index n_best context c m ct) (st, []) (indices m ic sc)) (search_ok c).
Proof.
  intros Hst.
  destruct (dual_index_map_new_Some tables ct) as (m' & Hm' & Hi2s & Hid).
  rewrite Hm in Hm'. injection Hm' as <-.
  destruct (indices_listed m ic sc) as [Hli Hls]; [|done|].
  { by apply (input_to_surface_map_monotone tables ct). }
  apply (safe_for_each (search_ok c)); [|split; [done|constructor]|done].
  intros d st1 Hd Hst1. apply process_index_ok; [| |done].
  - intros s Hs. assert (s ∈ seq 0 sc) as Hin%elem_of_seq; [|lia].
    rewrite <- Hls. apply list_elem_of_omap. eauto.
  - intros i Hi. assert (i ∈ seq 0 ic) as Hin%elem_of_seq; [|lia].
    rewrite <- Hli. apply list_elem_of_omap. eauto.
Qed.

(** *** What a complete chain reads *)

Definition is_surface (r : LatticeRange) : Prop :=
  match r with RSurface _ _ => True | RInput _ _ => False end.

Lemma dual_of_surface s : dual_surface (dual m (LSurface s)) = Some s.
Proof. unfold dual. destruct (identity m); [done|]. by destruct (surface_to_input m !! s). Qed.

(** A chain of surface words reads as the beginning of the text it covers. *)
Lemma chain_reads p :
  chain p → Forall is_surface (path_range <$> path_list p) →
  ∃ to, range_end (path_range p) = LSurface to ∧ to ≤ sc ∧
    concat (ruby ∘ path_entry <$> path_list p) = take to T ∧
    ∃ counts, mapM range_count (path_range <$> path_list p) = Some counts ∧
      reduce_counts counts = CSurface to ∧ counts ≠ [].
Proof.
  clear n_best Hn.
  induction p as [e r total|e r q total IH] using RegisteredPath_chain_ind;
    cbn [chain path_list path_range];
    rewrite ?fmap_app, ?Forall_app; cbn [app fmap list_fmap path_range path_entry compose].
  - intros [Hcov Hz] [_ Hr].
    rewrite Forall_singleton in Hr.
    destruct r as [|f to]; [destruct Hr|].
    destruct Hcov as [Hft Hruby]. simpl in Hz. apply Nat.eqb_eq in Hz as ->.
    exists to. split_and!; [done|lia| |].
    + cbn. by rewrite app_nil_r, Hruby, Nat.sub_0_r.
    + exists [CSurface to]. cbn. rewrite usub_ok by lia. cbn. by rewrite Nat.sub_0_r.
  - intros [Hcov [Hq Hb]] [Hqs Hr]. rewrite Forall_singleton in Hr.
    destruct (IH Hq Hqs) as (from & Hend & Hfrom & Hread & counts & Hcounts & Hred & Hne).
    destruct r as [|f to]; [destruct Hr|]. destruct Hcov as [Hft Hruby]. rewrite Hend in Hb.
    simpl in Hb. rewrite dual_of_surface in Hb. injection Hb as ->.
    exists to. split_and!; [done|lia| |].
    + rewrite concat_snoc, Hread, Hruby.
      rewrite (take_drop_app f to T) by lia. done.
    + exists (counts ++ [CSurface (to - f)]). split_and!; [| |by destruct counts].
      * apply mapM_app_Some; [done|]. cbn. by rewrite usub_ok by lia.
      * destruct counts as [|c0 counts]; [done|]. simpl in *. rewrite foldl_app, Hred. simpl.
        f_equal. lia.
Qed.

(** A surface word reaches the end only at the last surface position. *)
Lemma at_end_surface to :
  to ≤ sc → at_end ct (dual m (LSurface to)) = true → to = sc.
Proof.
  clear n_best Hn.
  intros Hto Hend.
  destruct (dual_index_map_new_Some tables ct) as (m' & Hm' & Hi2s & Hid).
  rewrite Hm in Hm'. injection Hm' as <-.
  apply orb_true_iff in Hend as [Hs|Hi].
  { apply bool_decide_eq_true in Hs. rewrite dual_of_surface in Hs. by injection Hs. }
  apply bool_decide_eq_true in Hi. unfold dual in Hi. destruct (identity m) eqn:Hident.
  { specialize (Hid eq_refl). simpl in Hi. injection Hi as Hi. unfold sc. lia. }
  destruct (surface_to_input m !! to) as [i|] eqn:Hs; [|done]. simpl in Hi. injection Hi as ->.
  apply (input_to_surface_map_end tables ct (input_to_surface m)); [done..|].
  unfold dual_index_map_new in Hm. rewrite Hi2s in Hm. simpl in Hm. injection Hm as Hm'.
  rewrite <- Hm' in Hs. simpl in Hs. apply or_insert_spec in Hs as [Hs|Hs]; [done|].
  rewrite iteration_perm in Hs. by apply elem_of_map_to_list in Hs.
Qed.

(** *** Candidates *)

Lemma chain_surface p : typo = false → chain p → Forall is_surface (path_range <$> path_list p).
Proof.
  intros Ht. induction p as [e r total|e r q total IH] using RegisteredPath_chain_ind;
    cbn [chain path_list]; rewrite ?fmap_app.
  - intros [Hc _]. constructor; [|constructor]. destruct r; [|done]. destruct Hc as [Hc _]. congruence.
  - intros [Hc [Hq _]]. apply Forall_app_2; [by apply IH|]. constructor; [|constructor].
    destruct r; [|done]. destruct Hc as [Hc _]. congruence.
Qed.

Lemma chain_counts p :
  chain p → ∃ counts, mapM range_count (path_range <$> path_list p) = Some counts.
Proof.
  clear n_best Hn.
  assert (Hrange : ∀ e r, covers e r → ∃ k, range_count r = Some k).
  { intros e [f t|f t]; simpl; intros Hc; rewrite usub_ok by lia; by eexists. }
  induction p as [e r total|e r q total IH] using RegisteredPath_chain_ind;
    cbn [chain path_list]; rewrite ?fmap_app.
  - intros [Hc _]. destruct (Hrange e r Hc) as [k Hk]. exists [k]. cbn. by rewrite Hk.
  - intros [Hc [Hq _]]. destruct (IH Hq) as [ks Hks], (Hrange e r Hc) as [k Hk].
    exists (ks ++ [k]). apply mapM_app_Some; [done|]. cbn. by rewrite Hk.
Qed.

Lemma clause_step_ok clauses es prev p :
  clauses ≠ [] → ∃ clauses' prev', clause_step (clauses, es, prev) p =
    Some (clauses', es ++ [path_entry p], prev') ∧ clauses' ≠ [] ∧
    reverse clauses' ≫= fc_text = (reverse clauses ≫= fc_text) ++ word (path_entry p) ∧
    reverse clauses' ≫= fc_ranges = (reverse clauses ≫= fc_ranges) ++ [path_range p].
Proof.
  intros Hne. unfold clause_step. destruct (_ || _).
  - destruct clauses as [|c rest]; [done|]. eexists _, _. split_and!; [done|done| |];
      rewrite !reverse_cons, !bind_app; csimpl; by rewrite ?app_nil_r, ?app_assoc.
  - eexists _, _. split_and!; [done|done| |];
      rewrite !reverse_cons, !bind_app; csimpl; by rewrite ?app_nil_r.
Qed.

Lemma clauses_ok clauses es prev ps :
  clauses ≠ [] → ∃ clauses' prev',
    foldl (λ st q, st ← st; clause_step st q) (Some (clauses, es, prev)) ps =
      Some (clauses', es ++ (path_entry <$> ps), prev') ∧ clauses' ≠ [] ∧
    reverse clauses' ≫= fc_text = (reverse clauses ≫= fc_text) ++ concat (word ∘ path_entry <$> ps) ∧
    reverse clauses' ≫= fc_ranges = (reverse clauses ≫= fc_ranges) ++ (path_range <$> ps).
Proof.
  revert clauses es prev. induction ps as [|p ps IH]; intros clauses es prev Hne.
  { exists clauses, prev. simpl. by rewrite !app_nil_r. }
  destruct (clause_step_ok clauses es prev p Hne) as (c1 & p1 & Hstep & Hne1 & Ht1 & Hr1).
  destruct (IH c1 (es ++ [path_entry p]) p1 Hne1) as (c2 & p2 & Hfold & Hne2 & Ht2 & Hr2).
  exists c2, p2. cbn [foldl mbind option_bind]. rewrite Hstep, Hfold, Ht2, Hr2, Ht1, Hr1.
  cbn [fmap list_fmap concat compose]. by rewrite <- !app_assoc.
Qed.

Lemma make_candidate_ok context p :
  chain p → ∃ c, make_candidate context p = Some c ∧
    entries c = path_entry <$> path_list p ∧ text c = concat (word ∘ path_entry <$> path_list p) ∧
    is_typo_correction c = existsb (λ q, is_input_range (path_range q)) (path_list p) ∧
    ∃ counts, mapM range_count (path_range <$> path_list p) = Some counts ∧
      composing_count c = reduce_counts counts.
Proof.
  clear n_best Hn.
  intros Hp. unfold make_candidate.
  edestruct (clauses_ok [ {| fc_text := []; fc_value := zero;
      fc_meaning_id := context_meaning_id context; fc_ranges := []; fc_entry_end := 0 |} ] []
      BOS_CLASS_ID (path_list p)) as (clauses & prev & -> & Hne & Ht & Hr); [done|].
  cbn [mbind option_bind]. destruct (foldl _ _ (reverse clauses)) as [mv pm].
  cbn in Hr. rewrite Hr. destruct (chain_counts p Hp) as [counts Hcounts]. rewrite Hcounts.
  cbn [mbind option_bind]. eexists. split_and!; [done|done|by rewrite Ht|done|].
  exists counts. done.
Qed.
End spec.

(** ** Removing duplicates *)

Lemma unique_step_spec output c :
  NoDup (text <$> output) →
  NoDup (text <$> unique_step output c) ∧
  (∀ d, d ∈ unique_step output c → d ∈ output ∨ d = c) ∧
  (∀ t, t ∈ text <$> unique_step output c ↔ t ∈ text <$> output ∨ t = text c).
Proof.
  intros Hnd. unfold unique_step.
  destruct (list_find (λ d, text d = text c) output) as [[i existing]|] eqn:Hfind.
  - apply list_find_Some in Hfind as (Hi & Htext & _).
    assert (Hin : text c ∈ text <$> output).
    { rewrite <- Htext. apply list_elem_of_fmap. exists existing. split; [done|].
      by eapply list_elem_of_lookup_2. }
    destruct (_ || _); [|naive_solver].
    assert (Hsame : text <$> <[i := c]> output = text <$> output).
    { rewrite list_fmap_insert, <- Htext. apply list_insert_id.
      by rewrite list_lookup_fmap, Hi. }
    rewrite Hsame. split_and!; [done| |naive_solver].
    intros d [j Hj]%list_elem_of_lookup. destruct (decide (i = j)) as [<-|Hne].
    + rewrite list_lookup_insert_eq in Hj by (by eapply lookup_lt_Some). naive_solver.
    + rewrite list_lookup_insert_ne in Hj by done. left. by eapply list_elem_of_lookup_2.
  - rewrite fmap_app. apply list_find_None in Hfind. rewrite Forall_forall in Hfind.
    split_and!.
    + apply NoDup_app. split_and!; [done| |apply NoDup_singleton].
      intros t (d & -> & Hd)%list_elem_of_fmap Hin%list_elem_of_singleton. by apply (Hfind d).
    + intros d [?| ->%list_elem_of_singleton]%elem_of_app; auto.
    + intros t. rewrite elem_of_app. cbn. by rewrite list_elem_of_singleton.
Qed.

Lemma unique_fold_spec l out :
  NoDup (text <$> out) →
  NoDup (text <$> foldl unique_step out l) ∧
  (∀ d, d ∈ foldl unique_step out l → d ∈ out ∨ d ∈ l) ∧
  (∀ t, t ∈ text <$> foldl unique_step out l ↔ t ∈ text <$> out ∨ t ∈ text <$> l).
Proof.
  revert out. induction l as [|c l IH]; intros out Hout; cbn [foldl].
  { split_and!; [done|by left|]. intros t. cbn. rewrite elem_of_nil. naive_solver. }
  destruct (unique_step_spec out c Hout) as (H1 & H2 & H3).
  destruct (IH _ H1) as (H4 & H5 & H6). split_and!; [done| |].
  - intros d Hd. destruct (H5 d Hd) as [Hd1|]; [|right; by apply elem_of_cons; right].
    destruct (H2 d Hd1) as [| ->]; [by left|right; by apply elem_of_cons; left].
  - intros t. rewrite H6, H3, fmap_cons, elem_of_cons. naive_solver.
Qed.

(** The candidates with a text, once each *)
Lemma unique_texts_spec cs :
  let out := foldl unique_step [] (filter has_text cs) in
  NoDup (text <$> out) ∧ (∀ d, d ∈ out → d ∈ cs ∧ text d ≠ []) ∧
  (∀ c, c ∈ cs → text c ≠ [] → text c ∈ text <$> out).
Proof.
  intros out. destruct (unique_fold_spec (filter has_text cs) [] (NoDup_nil_2)) as (Hnd & Hin & Htexts).
  fold out in Hnd, Hin, Htexts. split_and!; [done| |].
  - intros d [?%not_elem_of_nil|Hd]%Hin; [done|].
    apply list_elem_of_filter in Hd as [Ht Hd]. split; [done|]. intros E.
    unfold has_text in Ht. by rewrite E in Ht.
  - intros c Hc Ht. apply Htexts. right. apply list_elem_of_fmap.
    exists c. split; [done|]. apply list_elem_of_filter. split; [|done].
    unfold has_text. by rewrite bool_decide_eq_false_2.
Qed.

Lemma unique_candidates_spec cs :
  NoDup (text <$> unique_candidates cs) ∧
  StronglySorted (λ a b, by_value a b ≠ Gt) (unique_candidates cs) ∧
  (∀ d, d ∈ unique_candidates cs → d ∈ cs ∧ text d ≠ []) ∧
  (∀ c, c ∈ cs → text c ≠ [] → text c ∈ text <$> unique_candidates cs).
Proof.
  unfold unique_candidates. destruct (unique_texts_spec cs) as (Hnd & Hin & Htexts). split_and!.
  - by rewrite sort_by_perm.
  - apply sort_by_sorted; intros; unfold by_value in *;
      [apply total_cmp_flip|by eapply total_cmp_trans].
  - intros d. rewrite elem_of_sort_by. apply Hin.
  - intros c Hc Ht. rewrite sort_by_perm. by apply Htexts.
Qed.

(** ** The conversion *)

(** What a candidate of the conversion of [ct] is. *)
Definition candidate_ok (mods : ConversionModifiers) (ct : ComposingText) (c : Candidate) : Prop :=
  text c = concat (word <$> entries c) ∧
  (need_typo_correction mods = false → is_typo_correction c = false) ∧
  (is_typo_correction c = false →
     concat (ruby <$> entries c) = Kana.to_katakana (concat (surface ct)) ∧
     composing_count c = CSurface (length (surface ct))) ∧
  (∀ k e, constraint mods = Some k → last (entries c) = Some e → enforces_constraint k e = true →
     is_satisfied_by k (utf8 (text c)) = true).

Lemma path_list_last p : last (path_list p) = Some p.
Proof. destruct p as [e r [q|] t]; cbn [path_list]; [by rewrite last_snoc|done]. Qed.

Lemma utf8_concat ws : utf8 (concat ws) = ws ≫= utf8.
Proof. induction ws as [|w ws IH]; [done|]. cbn. by rewrite utf8_app, IH. Qed.

Lemma path_bytes_text p : path_bytes p = utf8 (concat (word ∘ path_entry <$> path_list p)).
Proof.
  rewrite utf8_concat. unfold path_bytes. generalize (path_list p) as l. intros l.
  induction l as [|q l IH]; [done|]. csimpl. by rewrite IH.
Qed.

Lemma existsb_surface ps :
  existsb (λ q, is_input_range (path_range q)) ps = false → Forall is_surface (path_range <$> ps).
Proof.
  induction ps as [|p ps IH]; csimpl; [constructor|]. intros [Hp Hps]%orb_false_iff.
  constructor; [by destruct (path_range p)|auto].
Qed.

Lemma surface_existsb ps :
  Forall is_surface (path_range <$> ps) → existsb (λ q, is_input_range (path_range q)) ps = false.
Proof.
  induction ps as [|p ps IH]; csimpl; [done|]. intros [Hp Hps]%Forall_cons.
  rewrite IH by done. by destruct (path_range p).
Qed.

Section convert.
Context `{Segmentation} `{!IterationOrder} `{!IterationOrderLaws} {E : Type} `{!Dictionary E}.
Context `{!DictionaryLaws E}.
Context (tables : InputTableRegistry) (ct : ComposingText).
Context (Hok : registry_ok tables) (Hwf : wf tables ct).
Context (Hplain : plain (Kana.to_katakana (concat (surface ct)))).
Context (Hlen : length (concat (surface ct)) = length (surface ct)).

Lemma reading_length : length (Kana.to_katakana (concat (surface ct))) = length (surface ct).
Proof. unfold Kana.to_katakana. by rewrite length_fmap. Qed.

Lemma result_candidate mods context m p :
  dual_index_map_new tables ct = Some m → result_ok ct m (need_typo_correction mods) (constraint mods) p →
  ∃ c, make_candidate context p = Some c ∧ candidate_ok mods ct c.
Proof.
  intros Hm (Hchain & Hend & _ & Haccept).
  destruct (make_candidate_ok ct m _ reading_length context p Hchain)
    as (c & Hc & Hes & Htext & Htypo & counts & Hcounts & Hcount).
  exists c. split; [done|]. split_and!.
  - by rewrite Htext, Hes, <- list_fmap_compose.
  - intros Hnt. rewrite Htypo. eapply surface_existsb, chain_surface; eauto using reading_length.
  - intros Hnt. rewrite Htypo in Hnt. apply existsb_surface in Hnt.
    destruct (chain_reads ct m _ reading_length p Hchain Hnt)
      as (to & Hto & Hle & Hread & counts' & Hcounts' & Hred & _).
    rewrite Hto in Hend.
    assert (to = length (surface ct)) as -> 
      by (eapply at_end_surface; eauto using reading_length).
    rewrite Hes, <- list_fmap_compose, Hread. split.
    + apply take_ge. by rewrite reading_length.
    + rewrite Hcount. by rewrite Hcounts in Hcounts'; simplify_eq.
  - intros k e Hk Hlast Henf. rewrite Hk in Haccept.
    rewrite Hes, fmap_last, path_list_last in Hlast. injection Hlast as <-.
    unfold accepts_path in Haccept. rewrite Henf in Haccept. unfold path_satisfies in Haccept.
    by rewrite path_bytes_text, <- Htext in Haccept.
Qed.

Lemma results_candidates mods context m results :
  dual_index_map_new tables ct = Some m → Forall (result_ok ct m (need_typo_correction mods) (constraint mods)) results →
  ∃ cs, mapM (make_candidate context) results = Some cs ∧ Forall (candidate_ok mods ct) cs.
Proof.
  intros Hm. induction 1 as [|p ps Hp _ (cs & Hcs & Hall)].
  { exists []. split; [done|constructor]. }
  destruct (result_candidate mods context m p Hm Hp) as (c & Hc & Hcok).
  exists (c :: cs). split; [|by constructor].
  change (p :: ps) with ([p] ++ ps). change (c :: cs) with ([c] ++ cs).
  apply mapM_app_Some; [|done]. cbn. by rewrite Hc.
Qed.

Lemma convert_ok memory mods n_best context :
  memory_lawful memory →
  safe (convert (E:=E) memory tables mods ct n_best context) (λ cs,
    NoDup (text <$> cs) ∧ StronglySorted (λ a b, by_value a b ≠ Gt) cs ∧
    ∀ c, c ∈ cs → text c ≠ [] ∧ candidate_ok mods ct c).
Proof.
  intros Hmemory. unfold convert. destruct (_ || _) eqn:Hempty.
  { split_and!; [constructor|constructor|]. by intros c ?%not_elem_of_nil. }
  apply orb_false_iff in Hempty as [Hn%Nat.eqb_neq _]. assert (Hpos : 0 < n_best) by lia.
  destruct (dual_index_map_new_Some tables ct) as (m & Hm & _).
  apply safe_bind, (safe_panicking _ m); [done|].
  apply safe_bind. eapply safe_mono.
  { eapply build_nodes_ok; eauto using reading_length. }
  intros st Hst. apply safe_bind. eapply safe_mono.
  { eapply search_ok_all; eauto using reading_length. }
  intros [st' results] [_ Hresults]. cbn [snd] in Hresults.
  destruct (results_candidates mods context m results Hm Hresults) as (cs & Hcs & Hall).
  apply safe_bind, (safe_panicking _ cs); [done|]. apply safe_ret.
  destruct (unique_candidates_spec (sort_by by_value cs)) as (Hnd & Hsorted & Hin & _).
  split_and!; [done|done|]. intros c [Hc Ht]%Hin. split; [done|].
  rewrite Forall_forall in Hall. by apply Hall, (elem_of_sort_by by_value).
Qed.

(** C11. Over a lawful dictionary and a lawful learning memory (they find words under the
    readings asked for, and the memory does not panic), the conversion of a well-formed
    text whose clusters are single characters never panics, with or without typing
    corrections. Its candidates have distinct non-empty texts, best value first. The text
    of a candidate is the concatenation of its words; unless it contains a typing
    correction (it has none when none are asked for), its words read exactly as the
    composing text and it covers the whole surface; and when its last word enforces the
    constraint of the conversion - the constraint does not ignore personal words, and the
    word is not one -, its text satisfies the constraint. *)
Theorem convert_sound memory mods n_best context :
  memory_lawful memory →
  convert (E:=E) memory tables mods ct n_best context ≠ Panic ∧
  ∀ cs, convert memory tables mods ct n_best context = Return cs →
    NoDup (text <$> cs) ∧ StronglySorted (λ a b, by_value a b ≠ Gt) cs ∧
    ∀ c, c ∈ cs → text c ≠ [] ∧ candidate_ok mods ct c.
Proof.
  intros Hmemory. pose proof (convert_ok memory mods n_best context Hmemory) as Hsafe.
  split; [by intros E0; rewrite E0 in Hsafe|].
  intros cs Hcs. by apply (safe_Return _ _ _ Hsafe Hcs).
Qed.
End convert.

(** ** Concrete dictionaries *)

(** The dictionary whose words are the elements of a list. *)
Section list_dictionary.
Context `{Segmentation} (es : list DictionaryEntry).

Definition list_matches (r : ustring) (n : nat) : list DictionaryMatch :=
  filter (λ m, match_entries m ≠ [])
    ((λ k, {| surface_end := k;
              match_entries := filter (λ e, ruby e = concat (take k (graphemes r))) es |})
       <$> seq 1 (n `min` length (graphemes r))).

Definition list_dictionary : Dictionary unit := {|
  matches_from_start := λ r n, Ok (list_matches r n);
  exact_match := λ r, Ok (filter (λ e, ruby e = r) es);
  entries_after_prefix := λ r _ n, Ok (take n (filter (λ e, r `prefix_of` ruby e) es));
  connection_cost := λ _ _, Ok zero;
  meaning_cost := λ _ _, None;
|}.

Lemma list_dictionary_laws : @DictionaryLaws _ unit list_dictionary.
Proof.
  split.
  - intros r n ms m e [= <-] [_ Hm]%list_elem_of_filter He.
    apply list_elem_of_fmap in Hm as (k & -> & Hk%elem_of_seq). cbn in *.
    apply list_elem_of_filter in He as [He _]. split; [lia|done].
  - intros r es' e [= <-] [He _]%list_elem_of_filter. done.
  - intros r depth n es' e [= <-] He%elem_of_take_in.
    by apply list_elem_of_filter in He as [He _].
Qed.
End list_dictionary.

Definition toy_entry (w r : string) (value : Z) : DictionaryEntry :=
  {| word := u w; ruby := u r; left_id := 1288; right_id := 1288; meaning_id := 501;
     base_value := of_Z value; adjustment := zero; metadata := no_metadata |}.

Definition toy_entries : list DictionaryEntry :=
  [toy_entry "蚊" "カ" (-9); toy_entry "柿" "カキ" (-7); toy_entry "木" "キ" (-8)].

Definition toy_dictionary : Dictionary unit := @list_dictionary scalar_clusters toy_entries.

(** "kaki" typed in romaji. *)
Definition kaki : ComposingText :=
  {| cursor := 2; input := typed_text RomanToKana "kaki"; surface := [u "か"; u "き"] |}.

Lemma kaki_wf : wf default_registry kaki.
Proof. split; [by vm_compute|simpl; lia]. Qed.

Definition no_modifiers : ConversionModifiers :=
  {| additional_entries := []; need_typo_correction := false; constraint := None |}.

Definition convert_toy (mods : ConversionModifiers) : outcome unit (list Candidate) :=
  @convert scalar_clusters map_order unit toy_dictionary None default_registry mods kaki 10
    default_context.

Lemma convert_sound_witness :
  (convert_toy no_modifiers ≠ Panic ∧
   ∀ cs, convert_toy no_modifiers = Return cs →
     NoDup (text <$> cs) ∧ StronglySorted (λ a b, by_value a b ≠ Gt) cs ∧
     ∀ c, c ∈ cs → text c ≠ [] ∧ candidate_ok no_modifiers kaki c) ∧
  match convert_toy no_modifiers with
  | Return cs => text <$> take 3 cs = [u "柿"; u "蚊木"; u "か木"]
  | _ => False
  end.
Proof.
  split; [|vm_compute; reflexivity].
  assert (Hplain : @plain scalar_clusters (Kana.to_katakana (concat (surface kaki))))
    by (intros a b c _; reflexivity).
  unfold convert_toy.
  exact (@convert_sound scalar_clusters map_order map_order_laws unit toy_dictionary
    (list_dictionary_laws _) default_registry kaki default_registry_ok kaki_wf Hplain eq_refl
    None no_modifiers 10 default_context no_memory_lawful).
Defined.

(** ** Combining marks *)

(** The clusters of texts whose only combining characters are the combining
    voiced and semi-voiced sound marks: a mark joins the character before it. *)
Definition is_sound_mark (c : char) : bool := (c =? 0x3099)%N || (c =? 0x309A)%N.

Definition join_mark (c : char) (gs : list Grapheme) : list Grapheme :=
  match gs with
  | (m :: g) :: gs' => if is_sound_mark m then (c :: m :: g) :: gs' else [c] :: gs
  | _ => [c] :: gs
  end.

Definition mark_clusters : Segmentation := foldr join_mark [].

Lemma mark_clusters_laws : @SegmentationLaws mark_clusters.
Proof.
  assert (Hstep : ∀ c gs, [] ∉ gs →
    concat (join_mark c gs) = c :: concat gs ∧ [] ∉ join_mark c gs).
  { intros c gs Hgs. unfold join_mark. destruct gs as [|[|m g] gs'].
    - split; [done|]. set_solver.
    - exfalso. apply Hgs, elem_of_cons. by left.
    - apply not_elem_of_cons in Hgs as [_ Hgs].
      destruct (is_sound_mark m); (split; [done|]); rewrite !not_elem_of_cons; by split_and?. }
  assert (Hall : ∀ s, concat (mark_clusters s) = s ∧ [] ∉ mark_clusters s).
  { induction s as [|c s [IH1 IH2]]; [split; [done|apply not_elem_of_nil]|].
    destruct (Hstep c (mark_clusters s) IH2) as [Hc Hn]. cbn. split; [|done].
    unfold mark_clusters in *. cbn. by rewrite Hc, IH1. }
  split; intros s; apply Hall.
Qed.

Definition type_marked : option ComposingText :=
  ct ← @insert_str default_registry mark_clusters composing_new (u "か") Direct;
  @insert_str default_registry mark_clusters ct [0x3099%N] Direct.

(** The surface counts the clusters of each insertion, the conversion
    those of the whole reading. A kana and a combining voiced sound mark typed one
    after the other are two surface clusters and one cluster of the reading: the
    conversion then indexes the reading behind its end and panics. *)
Theorem convert_panics_on_combining_mark :
  match type_marked with
  | Some ct =>
      length (surface ct) = 2 ∧
      length (@graphemes mark_clusters (Kana.to_katakana (concat (surface ct)))) = 1 ∧
      @convert mark_clusters map_order unit (@list_dictionary mark_clusters toy_entries) None
        default_registry no_modifiers ct 10 default_context = Panic
  | None => False
  end.
Proof. vm_compute. by split_and!. Qed.
