(* ===== verification/Prediction.v ===== *)
(** * Predictions and other candidates

    The rest of src/crates/converter/src/lattice.rs: the words that begin with
    the text typed so far, the single words at the start of the text, and the
    text itself in the other scripts and widths. *)

From S2P Require Import Prelude Unicode InputTable DefaultTables Composing ComposingSpec F32 Dictionary Constraint Typo LatticeIndex Lattice.

(** ** Widths *)

(** [to_full_width], one character; the [expect] is a possible panic. *)
Definition full_width_char (c : char) : option char :=
  if (c =? 0x20)%N then Some 0x3000%N
  else if (c =? 0xA5)%N then Some 0xFFE5%N
  else if (0x21 <=? c)%N && (c <=? 0x7E)%N then from_u32 (c + 0xFEE0)
  else Some c.

Definition to_full_width (value : ustring) : option ustring := mapM full_width_char value.

Definition half_width_rows : list (string * string) := [
  ("。", "｡"); ("「", "｢"); ("」", "｣"); ("、", "､"); ("・", "･"); ("ヲ", "ｦ");
  ("ァ", "ｧ"); ("ィ", "ｨ"); ("ゥ", "ｩ"); ("ェ", "ｪ"); ("ォ", "ｫ"); ("ャ", "ｬ");
  ("ュ", "ｭ"); ("ョ", "ｮ"); ("ッ", "ｯ"); ("ー", "ｰ"); ("ア", "ｱ"); ("イ", "ｲ");
  ("ウ", "ｳ"); ("エ", "ｴ"); ("オ", "ｵ"); ("カ", "ｶ"); ("キ", "ｷ"); ("ク", "ｸ");
  ("ケ", "ｹ"); ("コ", "ｺ"); ("サ", "ｻ"); ("シ", "ｼ"); ("ス", "ｽ"); ("セ", "ｾ");
  ("ソ", "ｿ"); ("タ", "ﾀ"); ("チ", "ﾁ"); ("ツ", "ﾂ"); ("テ", "ﾃ"); ("ト", "ﾄ");
  ("ナ", "ﾅ"); ("ニ", "ﾆ"); ("ヌ", "ﾇ"); ("ネ", "ﾈ"); ("ノ", "ﾉ"); ("ハ", "ﾊ");
  ("ヒ", "ﾋ"); ("フ", "ﾌ"); ("ヘ", "ﾍ"); ("ホ", "ﾎ"); ("マ", "ﾏ"); ("ミ", "ﾐ");
  ("ム", "ﾑ"); ("メ", "ﾒ"); ("モ", "ﾓ"); ("ヤ", "ﾔ"); ("ユ", "ﾕ"); ("ヨ", "ﾖ");
  ("ラ", "ﾗ"); ("リ", "ﾘ"); ("ル", "ﾙ"); ("レ", "ﾚ"); ("ロ", "ﾛ"); ("ワ", "ﾜ");
  ("ン", "ﾝ"); ("ヴ", "ｳﾞ"); ("ガ", "ｶﾞ"); ("ギ", "ｷﾞ"); ("グ", "ｸﾞ"); ("ゲ", "ｹﾞ");
  ("ゴ", "ｺﾞ"); ("ザ", "ｻﾞ"); ("ジ", "ｼﾞ"); ("ズ", "ｽﾞ"); ("ゼ", "ｾﾞ"); ("ゾ", "ｿﾞ");
  ("ダ", "ﾀﾞ"); ("ヂ", "ﾁﾞ"); ("ヅ", "ﾂﾞ"); ("デ", "ﾃﾞ"); ("ド", "ﾄﾞ"); ("バ", "ﾊﾞ");
  ("ビ", "ﾋﾞ"); ("ブ", "ﾌﾞ"); ("ベ", "ﾍﾞ"); ("ボ", "ﾎﾞ"); ("パ", "ﾊﾟ"); ("ピ", "ﾋﾟ");
  ("プ", "ﾌﾟ"); ("ペ", "ﾍﾟ"); ("ポ", "ﾎﾟ")
].

Definition half_width_table : list (char * ustring) :=
  Eval vm_compute in omap (λ r, c ← head (u r.1); Some (c, u r.2)) half_width_rows.

Definition half_width_char (c : char) : ustring :=
  match list_find (λ r, r.1 = c) half_width_table with Some (_, r) => r.2 | None => [c] end.

Definition to_half_width (value : ustring) : ustring := value ≫= half_width_char.

(** ** Representations of the text *)

Definition score_factor (c : char) : f32 :=
  if bool_decide (c ∈ u "プヴペィフ") then lit 5 10
  else if bool_decide (c ∈ u "ュピポ") then lit 6 10
  else if bool_decide (c ∈ u "パォグーム") then lit 7 10
  else of_nat 1.

Definition katakana_score (value : ustring) : f32 :=
  foldl (λ score c, fmul score (score_factor c)) (of_nat 1) value.

Section prediction.
Context `{Segmentation} `{IterationOrder} {E : Type} `{Dictionary E}.
Context (memory : option (MemoryLookup E)) (tables : InputTableRegistry).
(** [str::to_uppercase] *)
Context (to_uppercase : ustring → ustring).

Definition representation_candidate (w r : ustring) (value : f32) (count : ComposingCount) :
    Candidate :=
  candidate_single w value count 501 [kana_entry w r value].

Definition representation_candidates (ct : ComposingText) (full_width_roman half_width_kana : bool) :
    option (list Candidate) :=
  let katakana := Kana.to_katakana (concat (surface ct)) in
  let count := CInput (length (input ct)) in
  let katakana_value := fmul (fopp (of_nat 14)) (katakana_score katakana) in
  full ← (if full_width_roman then
            wide ← to_full_width katakana;
            Some [representation_candidate wide katakana (fopp (lit 147 10)) count]
          else Some []);
  Some ([ representation_candidate katakana katakana katakana_value count;
          representation_candidate (Kana.to_hiragana katakana) katakana (fopp (lit 145 10)) count;
          representation_candidate (to_uppercase katakana) katakana (fopp (lit 146 10)) count ] ++
        full ++
        (if half_width_kana
         then [representation_candidate (to_half_width katakana) katakana (fopp (of_nat 15)) count]
         else [])).

(** [right.ruby_count.cmp(&left.ruby_count).then_with(by value)] *)
Definition by_ruby_count (l r : Candidate) : comparison :=
  then_with (Nat.compare (ruby_count r) (ruby_count l)) (by_value l r).

Definition word_candidates (ct : ComposingText) : outcome E (list Candidate) :=
  if is_empty ct then mret []
  else
    let katakana := Kana.to_katakana (concat (surface ct)) in
    found ← fallible (matches_from_start katakana MAXIMUM_DICTIONARY_LENGTH);
    let output := found ≫= λ m, (λ e, candidate_single (word e) (entry_value e)
      (CSurface (surface_end m)) (meaning_id e) [e]) <$> match_entries m in
    mret (sort_by by_ruby_count (unique_candidates output)).

(** ** Predictions *)

(** [score_entries]: value, right id and meaning of the words before a
    prediction; the meanings of the clauses are kept last one first. *)
Definition score_step (st : f32 * nat * list nat) (ie : nat * DictionaryEntry) :
    outcome E (f32 * nat * list nat) :=
  let '(value, previous_right, meanings) := st in
  let '(index, e) := ie in
  let starts_clause := (0 <? index) && is_clause previous_right (left_id e) in
  let meanings := if starts_clause
                  then (if includes_meaning e then meaning_id e else BOS_MEANING_ID) :: meanings
                  else meanings in
  current ← panicking (head meanings);
  cost ← fallible (connection_cost previous_right (left_id e));
  mret (fadd value (fadd cost (entry_value e)), right_id e,
        clause_meaning current e :: tail meanings).

Definition score_entries (es : list DictionaryEntry) (context : ConversionContext) :
    outcome E (f32 * nat * nat) :=
  match es with
  | [] => mret (zero, context_right_id context, context_meaning_id context)
  | _ =>
      '(value, previous_right, meanings) ←
        for_each score_step (zero, context_right_id context, [context_meaning_id context])
          (imap pair es);
      let '(value, previous_meaning) :=
        foldl (λ st meaning, (fadd st.1 (default zero (meaning_cost st.2 meaning)), meaning))
          (value, context_meaning_id context) (reverse meanings) in
      mret (value, previous_right, saturate_u16 previous_meaning)
  end.

Definition usize_max : N := 18446744073709551615.

Definition maximum_depth (prefix_count : nat) : N :=
  match prefix_count with 1 => 3%N | 2 => 5%N | _ => usize_max end.

(** The predictions for one reading that the words must extend. *)
Definition prefix_entries_of (additional : list DictionaryEntry) (reading : ustring) :
    outcome E (list DictionaryEntry) :=
  let prefix_count := length (graphemes reading) in
  found ← fallible (entries_after_prefix reading (maximum_depth prefix_count) 700);
  learned ← match memory with None => mret [] | Some m => memory_predict m reading end;
  mret (filter (λ e, prediction_usable (right_id e)) found ++
        filter (λ e, reading `prefix_of` ruby e ∧ ruby e ≠ reading) additional ++ learned).

Definition predict_entry (prefix_entries : list DictionaryEntry) (consumed prefix_count : nat)
    (score : f32 * nat * nat) (e : DictionaryEntry) : outcome E Candidate :=
  let '(prefix_value, prefix_right, prefix_meaning) := score in
  let penalty := fopp (of_nat (length (graphemes (ruby e)) - prefix_count)) in
  let meaning := if includes_meaning e
                 then default zero (meaning_cost prefix_meaning (meaning_id e)) else zero in
  cost ← fallible (connection_cost prefix_right (left_id e));
  let value := fadd (fadd (fadd (fadd prefix_value cost) (entry_value e)) meaning) penalty in
  mret (candidate_single ((prefix_entries ≫= word) ++ word e) value (CSurface consumed)
          (if includes_meaning e then meaning_id e else prefix_meaning)
          (prefix_entries ++ [e])).

Definition predict_for_ruby_prefixes (ruby_prefixes : list ustring)
    (prefix_entries : list DictionaryEntry) (consumed n_best : nat) (context : ConversionContext)
    (additional : list DictionaryEntry) : outcome E (list Candidate) :=
  score ← score_entries prefix_entries context;
  output ← for_each (λ output reading,
      es ← prefix_entries_of additional reading;
      for_each (λ output e,
          c ← predict_entry prefix_entries consumed (length (graphemes reading)) score e;
          mret (output ++ [c]))
        output es)
    [] ruby_prefixes;
  mret (take n_best (unique_candidates (sort_by by_value output))).

(** [character.is_ascii_alphabetic()] *)
Definition is_ascii_alphabetic (c : char) : bool :=
  ((0x41 <=? c)%N && (c <=? 0x5A)%N) || ((0x61 <=? c)%N && (c <=? 0x7A)%N).

(** [iter().rev().take_while(p).count()] *)
Fixpoint count_while {A} (p : A → bool) (l : list A) : nat :=
  match l with x :: l' => if p x then S (count_while p l') else 0 | [] => 0 end.

(** The readings a prediction for the whole input extends; [None] when the code
    returns no prediction at all. *)
Definition whole_input_prefixes (ct : ComposingText) : option (list ustring) :=
  let style := match last (input ct) with Some e => input_style e | None => Direct end in
  let shown := concat (surface ct) in
  if decide (style = Direct) then Some [Kana.to_katakana shown]
  else
    let roman_count := count_while is_ascii_alphabetic (reverse shown) in
    if roman_count =? 0 then Some [Kana.to_katakana shown]
    else
      let split := length shown - roman_count in
      let base := take split shown in
      if decide (base = []) then None
      else
        let roman := drop split shown in
        Some match resolve tables style with
             | Some table => (λ s, Kana.to_katakana base ++ s) <$> possible_nexts table roman
             | None => []
             end.

Definition predict_whole_input (ct : ComposingText) (n_best : nat) (context : ConversionContext)
    (additional : list DictionaryEntry) : outcome E (list Candidate) :=
  match whole_input_prefixes ct with
  | None => mret []
  | Some prefixes =>
      predict_for_ruby_prefixes prefixes [] (length (graphemes (concat (surface ct)))) n_best
        context additional
  end.

(** The indices at which a clause of the candidate starts. *)
Definition clause_starts (es : list DictionaryEntry) : option (list nat) :=
  starts ← mapM (λ i, former ← es !! (i - 1); latter ← es !! i;
                      Some (if is_clause (right_id former) (left_id latter) then [i] else []))
             (seq 1 (length es - 1));
  Some (0 :: concat starts).

Fixpoint predict_clauses (es : list DictionaryEntry) (consumed : nat)
    (context : ConversionContext) (additional : list DictionaryEntry) (starts : list nat)
    (output : list Candidate) (successful_groups : nat) : outcome E (list Candidate) :=
  match starts with
  | [] => mret output
  | start :: starts' =>
      suffix ← panicking (slice start (length es) es);
      predictions ← predict_for_ruby_prefixes [suffix ≫= ruby] (take start es) consumed 5 context
                      additional;
      let '(output, successful_groups) :=
        match predictions with
        | [] => (output, successful_groups)
        | _ => (output ++ predictions, successful_groups + 1)
        end in
      if successful_groups =? 2 then
        if 0 <? start then
          whole ← predict_for_ruby_prefixes [es ≫= ruby] [] consumed 5 context additional;
          mret (output ++ whole)
        else mret output
      else predict_clauses es consumed context additional starts' output successful_groups
  end.

Definition predict_from_candidate (ct : ComposingText) (c : Candidate) (n_best : nat)
    (context : ConversionContext) (additional : list DictionaryEntry) : outcome E (list Candidate) :=
  match entries c with
  | [] => mret []
  | _ =>
      starts ← panicking (clause_starts (entries c));
      output ← predict_clauses (entries c) (length (surface ct)) context additional
                 (reverse starts) [] 0;
      mret (take n_best (sort_by by_value (unique_candidates output)))
  end.

(** [predict_with_entries] *)
Definition predict (ct : ComposingText) (n_best : nat) (context : ConversionContext)
    (additional : list DictionaryEntry) : outcome E (list Candidate) :=
  if (n_best =? 0) || is_empty ct then mret []
  else
    converted ← convert_with_entries memory tables ct 1 context additional;
    predictions ← match converted with
                  | c :: _ => predict_from_candidate ct c n_best context additional
                  | [] => mret []
                  end;
    match predictions with
    | [] => predict_whole_input ct n_best context additional
    | _ => mret predictions
    end.

(** [predict] without further entries *)
Definition predict_alone (ct : ComposingText) (n_best : nat) (context : ConversionContext) : outcome E (list Candidate) :=
  predict ct n_best context [].
End prediction.
