(* ===== verification/PredictionSpec.v ===== *)
(** * What the predictions promise

    Every prediction continues the text: its words read as the text typed so
    far followed by more; there are at most [n_best] of them, and no two have the
    same text. *)

From S2P Require Import Prelude Unicode InputTable DefaultTables Composing ComposingSpec F32 Dictionary Constraint Typo LatticeIndex Lattice LatticeSpec Prediction.

(** Lists that come out of [unique_candidates] and [truncate]. *)
Definition tidy (n : nat) (cs : list Candidate) : Prop :=
  length cs ≤ n ∧ NoDup (text <$> cs) ∧ ∀ c, c ∈ cs → text c ≠ [].

Lemma tidy_nil n : tidy n [].
Proof. split_and!; [simpl; lia|constructor|]. by intros c ?%not_elem_of_nil. Qed.

Lemma tidy_take n cs : NoDup (text <$> cs) → (∀ c, c ∈ cs → text c ≠ []) → tidy n (take n cs).
Proof.
  intros Hnd Hne. split_and!; [rewrite length_take; lia| |].
  - rewrite <- (take_drop n cs), fmap_app in Hnd. by apply NoDup_app in Hnd as [? _].
  - intros c Hc%elem_of_take_in. by apply Hne.
Qed.

Section spec.
Context `{Segmentation} `{!IterationOrder} `{!IterationOrderLaws} {E : Type} `{!Dictionary E}.
Context `{!DictionaryLaws E}.
Context (memory : option (MemoryLookup E)) (Hmemory : memory_lawful memory).
Context (tables : InputTableRegistry).

(** A candidate made of given words and one word more whose reading extends [reading]. *)
Definition extends (before : list DictionaryEntry) (reading : ustring) (c : Candidate) : Prop :=
  ∃ e, entries c = before ++ [e] ∧ text c = concat (word <$> entries c) ∧
    reading `prefix_of` ruby e ∧ first_clause c = None.

Lemma text_bind_concat {A} (f : A → ustring) l : l ≫= f = concat (f <$> l).
Proof. induction l as [|x l IH]; [done|]. cbn. f_equal. apply IH. Qed.

Lemma score_entries_safe es context : safe (E:=E) (score_entries es context) (λ _, True).
Proof.
  unfold score_entries. destruct es as [|e0 es]; [done|].
  apply safe_bind, (safe_for_each (λ st : f32 * nat * list nat, st.2 ≠ [])); [|done|].
  - intros [i e] [[v r] meanings] _ Hm. cbn [snd] in Hm. unfold score_step.
    set (ms := if (0 <? i) && is_clause r (left_id e) then _ else meanings).
    assert (∃ k ks, ms = k :: ks) as (k & ks & ->).
    { subst ms. destruct meanings as [|k ks]; [done|]. destruct (_ && _); eauto. }
    apply safe_bind, (safe_panicking _ k); [done|]. apply safe_bind, safe_fallible.
    intros cost _. by apply safe_ret.
  - intros [[v r] ms] _. by destruct (foldl _ _ _).
Qed.

Lemma prefix_entries_of_safe additional reading :
  safe (E:=E) (prefix_entries_of memory additional reading)
    (Forall (λ e, reading `prefix_of` ruby e)).
Proof.
  unfold prefix_entries_of. apply safe_bind, safe_fallible. intros found Hfound.
  assert (Hall : ∀ learned, Forall (λ e, reading `prefix_of` ruby e) learned →
    Forall (λ e, reading `prefix_of` ruby e)
      (filter (λ e, prediction_usable (right_id e)) found ++
       filter (λ e, reading `prefix_of` ruby e ∧ ruby e ≠ reading) additional ++ learned)).
  { intros learned Hl. rewrite !Forall_app. split_and!; [| |done]; apply Forall_forall.
    - intros e [_ He]%list_elem_of_filter. by eapply entries_after_prefix_ruby.
    - by intros e [[He _] _]%list_elem_of_filter. }
  apply safe_bind. destruct memory as [mem|] eqn:Hmem.
  - eapply safe_mono; [by apply (memory_predict_safe (Hmemory mem eq_refl))|].
    intros learned Hl. by apply safe_ret, Hall.
  - by apply safe_ret, safe_ret, Hall.
Qed.

Lemma predict_entry_safe before consumed n score e reading :
  reading `prefix_of` ruby e →
  safe (E:=E) (predict_entry before consumed n score e) (λ c,
    extends before reading c ∧ composing_count c = CSurface consumed).
Proof.
  intros Hp. destruct score as [[v r] meaning]. unfold predict_entry.
  apply safe_bind, safe_fallible. intros cost _. apply safe_ret. split; [|done].
  exists e. split_and!; [done| |done|done].
  cbn. by rewrite fmap_app, concat_app, text_bind_concat; cbn; rewrite app_nil_r.
Qed.

Lemma predict_for_ruby_prefixes_safe prefixes before consumed n_best context additional :
  safe (E:=E) (predict_for_ruby_prefixes memory prefixes before consumed n_best context additional)
    (λ cs, tidy n_best cs ∧ Forall (λ c, composing_count c = CSurface consumed ∧
       ∃ reading, reading ∈ prefixes ∧ extends before reading c) cs).
Proof.
  unfold predict_for_ruby_prefixes. apply safe_bind.
  eapply safe_mono; [apply score_entries_safe|]. intros score _.
  set (Q := λ c, composing_count c = CSurface consumed ∧
    ∃ reading, reading ∈ prefixes ∧ extends before reading c).
  apply safe_bind, (safe_for_each (Forall Q)); [|constructor|].
  - intros reading output Hreading Hout. apply safe_bind.
    eapply safe_mono; [apply prefix_entries_of_safe|]. intros es Hes.
    apply (safe_for_each (Forall Q)); [|done|done]. intros e out He Ho.
    rewrite Forall_forall in Hes. apply safe_bind.
    eapply safe_mono; [by apply predict_entry_safe, Hes|]. intros c [Hc Hcount].
    apply safe_ret, Forall_app_2; [done|]. constructor; [|constructor]. split; [done|]. by exists reading.
  - intros output Hout. apply safe_ret.
    destruct (unique_candidates_spec (sort_by by_value output)) as (Hnd & _ & Hin & _).
    split; [apply tidy_take; [done|]; by intros c [_ Ht]%Hin|].
    apply Forall_forall. intros c Hc%elem_of_take_in.
    apply Hin in Hc as [Hc _]. rewrite Forall_forall in Hout.
    by apply Hout, (elem_of_sort_by by_value).
Qed.

(** What the words of a candidate read. *)
Definition reading_of (es : list DictionaryEntry) : ustring := concat (ruby <$> es).

Lemma extends_reading before reading c :
  extends before reading c → (reading_of before ++ reading) `prefix_of` reading_of (entries c).
Proof.
  intros (e & -> & _ & (k & Hk) & _). exists k. unfold reading_of.
  rewrite fmap_app, concat_app. cbn. by rewrite app_nil_r, Hk, app_assoc.
Qed.

Definition continues (reading : ustring) (consumed : nat) (c : Candidate) : Prop :=
  text c = concat (word <$> entries c) ∧ composing_count c = CSurface consumed ∧
  reading `prefix_of` reading_of (entries c) ∧ first_clause c = None.

Lemma predict_clauses_safe es consumed context additional starts output groups :
  Forall (λ i, i ≤ length es) starts → Forall (continues (reading_of es) consumed) output →
  safe (E:=E) (predict_clauses memory es consumed context additional starts output groups)
    (Forall (continues (reading_of es) consumed)).
Proof.
  intros Hstarts. revert output groups. induction Hstarts as [|start starts Hstart _ IH];
    intros output groups Hout; cbn [predict_clauses]; [done|].
  apply safe_bind. eapply safe_panicking; [by apply slice_ok|].
  apply safe_bind. eapply safe_mono; [apply predict_for_ruby_prefixes_safe|].
  intros predictions [_ Hpred].
  assert (Hnew : Forall (continues (reading_of es) consumed) predictions).
  { eapply Forall_impl; [exact Hpred|]. cbn.
    intros c (Hcount & r & ->%list_elem_of_singleton & Hext).
    pose proof Hext as (e & _ & Ht & _ & Hfc). split_and!; [done|done| |done].
    apply extends_reading in Hext. etrans; [|exact Hext].
    rewrite text_bind_concat, (take_ge (drop start es)) by (rewrite length_drop; lia).
    unfold reading_of. rewrite <- concat_app, <- fmap_app, take_drop. done. }
  assert (Hbase : ∀ out' g', Forall (continues (reading_of es) consumed) out' →
    safe (E:=E) (if g' =? 2 then
        if 0 <? start then
          predict_for_ruby_prefixes memory [es ≫= ruby] [] consumed 5 context additional ≫=
            λ whole, mret (out' ++ whole)
        else mret out'
      else predict_clauses memory es consumed context additional starts out' g')
    (Forall (continues (reading_of es) consumed))).
  { intros out' g' Ho. destruct (g' =? 2); [|by apply IH]. destruct (0 <? start); [|done].
    apply safe_bind. eapply safe_mono; [apply predict_for_ruby_prefixes_safe|].
    intros whole [_ Hwhole]. apply safe_ret, Forall_app_2; [done|].
    eapply Forall_impl; [exact Hwhole|]. cbn.
    intros c (Hcount & r & ->%list_elem_of_singleton & Hext).
    pose proof Hext as (e & _ & Ht & _ & Hfc). split_and!; [done|done| |done].
    apply extends_reading in Hext. by rewrite text_bind_concat in Hext. }
  destruct predictions as [|p ps]; [by apply Hbase|].
  apply Hbase, Forall_app_2; [done|done].
Qed.

Lemma clause_starts_ok es :
  es ≠ [] → ∃ starts, clause_starts es = Some starts ∧ Forall (λ i, i ≤ length es) starts.
Proof.
  intros Hne. unfold clause_starts.
  assert (Hmap : ∀ is_, Forall (λ i, 0 < i < length es) is_ → ∃ starts,
    mapM (λ i, former ← es !! (i - 1); latter ← es !! i;
               Some (if is_clause (right_id former) (left_id latter) then [i] else [])) is_ =
      Some starts ∧ Forall (Forall (λ i, i ≤ length es)) starts).
  { induction 1 as [|i is_ Hi _ (starts & Hs & Hall)]; [by exists []|].
    destruct (lookup_lt_is_Some_2 es (i - 1)) as [f Hf]; [lia|].
    destruct (lookup_lt_is_Some_2 es i) as [l Hl]; [lia|].
    eexists (_ :: starts). change (i :: is_) with ([i] ++ is_). split.
    - rewrite (mapM_app_Some _ [i] is_
        [if is_clause (right_id f) (left_id l) then [i] else []] starts); [done| |done].
      cbn. by rewrite Hf, Hl.
    - constructor; [|done]. destruct (is_clause _ _); repeat constructor. lia. }
  destruct (Hmap (seq 1 (length es - 1))) as (starts & -> & Hall).
  { apply Forall_forall. intros i Hi%elem_of_seq. lia. }
  eexists. split; [done|]. constructor; [lia|]. by apply Forall_concat.
Qed.

Context (ct : ComposingText) (Hok : registry_ok tables) (Hwf : wf tables ct).
Context (Hplain : plain (Kana.to_katakana (concat (surface ct)))).
Context (Hlen : length (concat (surface ct)) = length (surface ct)).

(** The readings the predictions extend: the whole text, or the text with its
    unfinished romaji completed. *)
Definition prediction_reading (reading : ustring) : Prop :=
  reading = Kana.to_katakana (concat (surface ct)) ∨
  ∃ prefixes, whole_input_prefixes tables ct = Some prefixes ∧ reading ∈ prefixes.

Definition prediction_ok (c : Candidate) : Prop :=
  text c = concat (word <$> entries c) ∧
  composing_count c ∈ [CSurface (length (surface ct));
                       CSurface (length (graphemes (concat (surface ct))))] ∧
  (∃ reading, prediction_reading reading ∧ reading `prefix_of` reading_of (entries c)) ∧
  first_clause c = None.

Lemma predict_from_candidate_safe c n_best context additional :
  reading_of (entries c) = Kana.to_katakana (concat (surface ct)) →
  safe (E:=E) (predict_from_candidate memory ct c n_best context additional)
    (λ cs, tidy n_best cs ∧ Forall prediction_ok cs).
Proof.
  intros Hread. unfold predict_from_candidate.
  destruct (entries c) as [|e0 es0] eqn:Hes.
  { split; [apply tidy_nil|constructor]. }
  destruct (clause_starts_ok (e0 :: es0)) as (starts & Hs & Hall); [done|].
  apply safe_bind, (safe_panicking _ starts); [done|]. apply safe_bind.
  eapply safe_mono; [apply predict_clauses_safe|].
  - by apply Forall_reverse.
  - constructor.
  - intros out Hout. apply safe_ret.
    destruct (unique_candidates_spec out) as (Hnd & _ & Hin & _). split.
    + apply tidy_take; [by rewrite sort_by_perm|]. by intros d [_ Ht]%elem_of_sort_by%Hin.
    + apply Forall_forall. intros d Hd%elem_of_take_in.
      apply elem_of_sort_by, Hin in Hd as [Hd _]. rewrite Forall_forall in Hout.
      destruct (Hout d Hd) as (Ht & Hc & Hp & Hfc). split_and!; [done| | |done].
      * rewrite Hc. apply elem_of_cons. by left.
      * rewrite Hread in Hp.
        exists (Kana.to_katakana (concat (surface ct))). split; [by left|done].
Qed.

Lemma predict_whole_input_safe n_best context additional :
  safe (E:=E) (predict_whole_input memory tables ct n_best context additional)
    (λ cs, tidy n_best cs ∧ Forall prediction_ok cs).
Proof.
  unfold predict_whole_input. destruct (whole_input_prefixes tables ct) as [prefixes|] eqn:Hp.
  2: { split; [apply tidy_nil|constructor]. }
  eapply safe_mono; [apply predict_for_ruby_prefixes_safe|]. intros cs [Htidy Hcs].
  split; [done|]. eapply Forall_impl; [exact Hcs|]. intros c (Hcount & r & Hr & Hext).
  pose proof Hext as (e & _ & Ht & _ & Hfc). split_and!; [done| | |done].
  - rewrite Hcount. apply elem_of_cons. right. by apply elem_of_cons; left.
  - exists r. split; [right; eauto|]. by apply extends_reading in Hext.
Qed.

Lemma predict_safe n_best context additional :
  safe (E:=E) (predict memory tables ct n_best context additional)
    (λ cs, tidy n_best cs ∧ Forall prediction_ok cs).
Proof.
  unfold predict. destruct (_ || _).
  { split; [apply tidy_nil|constructor]. }
  apply safe_bind. eapply safe_mono; [by apply convert_ok|]. intros converted (_ & _ & Hconv).
  assert (Hnext : safe (E:=E) (match converted with
      | c :: _ => predict_from_candidate memory ct c n_best context additional
      | [] => mret [] end) (λ cs, tidy n_best cs ∧ Forall prediction_ok cs)).
  { destruct converted as [|c cs].
    { split; [apply tidy_nil|constructor]. }
    apply predict_from_candidate_safe.
    destruct (Hconv c) as (_ & _ & Hnt & Hread & _); [apply elem_of_cons; by left|].
    destruct (Hread (Hnt eq_refl)) as [Hr _]. done. }
  apply safe_bind. eapply safe_mono; [exact Hnext|]. intros predictions Hp.
  destruct predictions; [apply predict_whole_input_safe|done].
Qed.

(** C39. Over a lawful dictionary and a lawful learning memory, predicting never panics on
    a well-formed text whose clusters are single characters (where the conversion it
    starts from does not). There are at most [n_best] predictions, with distinct texts that are
    not empty; the text of a prediction is the concatenation of its words, it covers the whole
    surface, and its words read as the text, or as the text with its unfinished
    romaji completed, possibly followed by more. *)
Theorem predict_continues n_best context additional :
  predict memory tables ct n_best context additional ≠ (Panic : outcome E _) ∧
  ∀ cs, predict memory tables ct n_best context additional = (Return cs : outcome E _) →
    tidy n_best cs ∧ Forall prediction_ok cs.
Proof.
  pose proof (predict_safe n_best context additional) as Hsafe.
  split; [by intros E0; rewrite E0 in Hsafe|].
  intros cs Hcs. by apply (safe_Return _ _ _ Hsafe Hcs).
Qed.
End spec.

(** "ka" typed, one word that continues it. *)
Lemma predict_continues_witness :
  let kak := {| cursor := 1; input := typed_text RomanToKana "ka"; surface := [u "か"] |} in
  let result := @predict scalar_clusters map_order unit toy_dictionary None default_registry kak 5
                  default_context [] in
  (result ≠ Panic ∧ ∀ cs, result = Return cs →
     tidy 5 cs ∧ Forall (prediction_ok default_registry kak (H := scalar_clusters)) cs) ∧
  match result with Return cs => text <$> cs = [u "柿"; u "蚊"] | _ => False end.
Proof.
  cbv zeta. split; [|vm_compute; reflexivity].
  set (kak := {| cursor := 1; input := typed_text RomanToKana "ka"; surface := [u "か"] |}).
  assert (Hwf : wf default_registry kak) by (split; [vm_compute; reflexivity|simpl; lia]).
  assert (Hplain : @plain scalar_clusters (Kana.to_katakana (concat (surface kak))))
    by (intros a b c _; reflexivity).
  exact (@predict_continues scalar_clusters map_order map_order_laws unit toy_dictionary
    (list_dictionary_laws _) None no_memory_lawful default_registry kak default_registry_ok Hwf Hplain eq_refl
    5 default_context []).
Defined.

(** ** Representations of the text *)

Lemma full_width_char_ok c :
  ∃ w, full_width_char c = Some w ∧ ¬ (0x20 <= w <= 0x7E)%N ∧ w ≠ 0xA5%N.
Proof.
  unfold full_width_char.
  destruct (N.eqb_spec c 0x20); [exists 0x3000%N; split_and!; [done|lia|done]|].
  destruct (N.eqb_spec c 0xA5); [exists 0xFFE5%N; split_and!; [done|lia|done]|].
  destruct (N.leb_spec 0x21 c), (N.leb_spec c 0x7E); simpl.
  - exists (c + 0xFEE0)%N. unfold from_u32, is_scalar.
    rewrite (proj2 (N.ltb_ge _ _)), (proj2 (N.ltb_lt _ _)), (proj2 (N.leb_le _ _)) by lia.
    split_and!; [done|lia..].
  - exists c. split_and!; [done|lia|done].
  - exists c. split_and!; [done|lia|done].
  - lia.
Qed.

(** The representations of a text in other scripts and widths are always
    available: widening never panics, keeps the number of characters and leaves no
    printable ASCII character or yen sign; and every representation reads as the
    text and covers its whole input. *)
Theorem representations_total `{Segmentation} to_uppercase ct full half :
  (∀ value, ∃ wide, to_full_width value = Some wide ∧ length wide = length value ∧
     ∀ c, c ∈ wide → ¬ (0x20 <= c <= 0x7E)%N ∧ c ≠ 0xA5%N) ∧
  ∃ cs, representation_candidates to_uppercase ct full half = Some cs ∧
    length cs = 3 + Nat.b2n full + Nat.b2n half ∧
    ∀ c, c ∈ cs → composing_count c = CInput (length (input ct)) ∧
      concat (ruby <$> entries c) = Kana.to_katakana (concat (surface ct)) ∧
      text c = concat (word <$> entries c).
Proof.
  assert (Hwide : ∀ value, ∃ wide, to_full_width value = Some wide ∧ length wide = length value ∧
     ∀ c, c ∈ wide → ¬ (0x20 <= c <= 0x7E)%N ∧ c ≠ 0xA5%N).
  { unfold to_full_width. induction value as [|c value (wide & Hw & Hl & Hc)].
    { exists []. split_and!; [done|done|]. by intros c ?%not_elem_of_nil. }
    destruct (full_width_char_ok c) as (w & Hw1 & Hr). exists (w :: wide).
    change (c :: value) with ([c] ++ value). change (w :: wide) with ([w] ++ wide). split_and!.
    - apply mapM_app_Some; [cbn; by rewrite Hw1|done].
    - cbn. by rewrite Hl.
    - intros d [->|Hd]%elem_of_cons; [done|by apply Hc]. }
  split; [done|]. unfold representation_candidates.
  assert (Hone : ∀ w r v n c, c = representation_candidate w r v n → composing_count c = n ∧
    concat (ruby <$> entries c) = r ∧ text c = concat (word <$> entries c)).
  { intros w r v n c ->. cbn. by rewrite !app_nil_r. }
  destruct (Hwide (Kana.to_katakana (concat (surface ct)))) as (wide & Hw & _).
  destruct full; [rewrite Hw|]; cbn [mbind option_bind]; eexists; (split; [done|]);
    (split; [destruct half; done|]); intros c;
    rewrite !elem_of_app, !elem_of_cons; destruct half;
    rewrite ?elem_of_cons, ?elem_of_nil; intros Hc;
    repeat destruct Hc as [Hc|Hc]; try done; by eapply Hone.
Qed.
