(* ===== verification/Frame.v ===== *)
(** * Frames of the daemon protocol

    src/crates/daemon/src/lib.rs: a message is a varint length and that many
    bytes of a protobuf envelope. The reader is the list of bytes still to come;
    the encoding of envelopes is generated code, a parameter with its round trip
    as law. [usize] has 64 bits. *)

From S2P Require Import Prelude Unicode.

Open Scope N_scope.

Definition PROTOCOL_VERSION : N := 1.
Definition MAXIMUM_MESSAGE_SIZE : N := 1024 * 1024.

Inductive FrameError (D : Type) :=
  | Io
  | InvalidLength
  | MessageTooLarge (size : N)
  | InvalidProtobuf (e : D)
  | UnsupportedVersion (version : N)
  | MissingPayload.
Arguments Io {D}.
Arguments InvalidLength {D}.
Arguments MessageTooLarge {D}.
Arguments InvalidProtobuf {D}.
Arguments UnsupportedVersion {D}.
Arguments MissingPayload {D}.

Definition u64_max : N := N.ones 64.

(** [reader.read_exact] of [n] bytes: the bytes, and the reader after them. *)
Definition read_exact {D} (n : nat) (reader : list byte) : result (FrameError D) (list byte * list byte) :=
  if decide (n ≤ length reader)%nat then Ok (take n reader, drop n reader) else Err Io.

Lemma read_exact_1 {D} b reader : read_exact (D:=D) 1 (b :: reader) = Ok ([b], reader).
Proof. unfold read_exact. by rewrite decide_True by (simpl; lia). Qed.

(** The loop of [read_varint] over the shifts 0, 7, .., 63. *)
Fixpoint read_varint_loop {D} (shifts : list N) (value : N) (reader : list byte) :
    result (FrameError D) (N * list byte) :=
  match shifts with
  | [] => Err InvalidLength
  | shift :: shifts' =>
      match read_exact 1 reader with
      | Ok ([b], reader) =>
          if (shift =? 63) && (1 <? b) then Err InvalidLength
          else
            let value := N.lor value (N.land (N.shiftl (N.land b 0x7f) shift) u64_max) in
            if N.land b 0x80 =? 0 then Ok (value, reader)
            else read_varint_loop shifts' value reader
      | Ok _ => Err Io
      | Err e => Err e
      end
  end.

Definition varint_shifts : list N := [0; 7; 14; 21; 28; 35; 42; 49; 56; 63].

Definition read_varint {D} (reader : list byte) : result (FrameError D) (N * list byte) :=
  read_varint_loop varint_shifts 0 reader.

(** The loop of [write_varint], what it writes; a [u64] has at most ten groups
    of seven bits, so ten units of fuel are enough. *)
Fixpoint write_varint_loop (fuel : nat) (value : N) : list byte :=
  match fuel with
  | 0%nat => []
  | S fuel =>
      let b := N.land value 0x7f in
      let value := N.shiftr value 7 in
      if value =? 0 then [b] else N.lor b 0x80 :: write_varint_loop fuel value
  end.

Definition write_varint (value : N) : list byte := write_varint_loop 10 value.

(** ** The varint round trip *)

Lemma group_bits v : N.land v 0x7f = v mod 128 ∧ N.shiftr v 7 = v / 128.
Proof.
  change 0x7f with (N.ones 7). by rewrite N.land_ones, N.shiftr_div_pow2.
Qed.

Lemma low_group g : g < 128 → N.land g 0x7f = g ∧ N.land g 0x80 = 0.
Proof.
  intros Hg. assert (N.land g 0x7f = g) as Hl.
  { change 0x7f with (N.ones 7). rewrite N.land_ones. by apply N.mod_small. }
  split; [done|]. rewrite <- Hl, <- N.land_assoc. by rewrite N.land_0_r.
Qed.

Lemma high_group g : g < 128 → N.land (N.lor g 0x80) 0x7f = g ∧ N.land (N.lor g 0x80) 0x80 = 0x80.
Proof.
  intros Hg. destruct (low_group g Hg) as [H7 H8].
  rewrite !N.land_lor_distr_l, H7, H8. by rewrite N.lor_0_r.
Qed.

(** Appending a group above [k] known bits. *)
Lemma lor_group acc g k :
  acc < 2 ^ k → N.lor acc (N.shiftl g k) = acc + g * 2 ^ k.
Proof.
  intros Hacc. rewrite N.shiftl_mul_pow2.
  assert (Hd : N.land acc (g * 2 ^ k) = 0); [|by rewrite N.add_nocarry_lxor, N.lxor_lor].
  apply N.bits_inj. intros i. rewrite N.land_spec, N.bits_0.
  destruct (N.lt_ge_cases i k) as [Hi|Hi].
  - by rewrite N.mul_pow2_bits_low, andb_false_r.
  - destruct (N.eq_dec acc 0) as [->|Hne]; [by rewrite N.bits_0|].
    rewrite (N.bits_above_log2 acc i); [done|].
    assert (N.log2 acc < k); [|lia]. apply N.log2_lt_pow2; [lia|done].
Qed.

Lemma varint_shifts_cons i :
  (i < 10)%nat → drop i varint_shifts = 7 * N.of_nat i :: drop (S i) varint_shifts.
Proof. intros Hi. do 10 (destruct i as [|i]; [done|]). lia. Qed.

Lemma land_u64 v : v < 2 ^ 64 → N.land v u64_max = v.
Proof. intros Hv. unfold u64_max. rewrite N.land_ones. by apply N.mod_small. Qed.

Lemma read_varint_loop_written {D} n i acc v rest :
  (n + i = 10)%nat → acc < 2 ^ (7 * N.of_nat i) → v * 2 ^ (7 * N.of_nat i) < 2 ^ 64 →
  (n = 0%nat → v = 0) → (0 < n)%nat →
  read_varint_loop (D:=D) (drop i varint_shifts) acc (write_varint_loop n v ++ rest) =
    Ok (acc + v * 2 ^ (7 * N.of_nat i), rest).
Proof.
  revert i acc v. induction n as [|n IH]; intros i acc v Hni Hacc Hv _ Hpos; [lia|].
  set (k := 7 * N.of_nat i) in *. rewrite varint_shifts_cons by lia. fold k.
  cbn [write_varint_loop]. destruct (group_bits v) as [-> ->].
  assert (Hg : v mod 128 < 128) by (by apply N.mod_lt).
  pose proof (N.div_mod' v 128) as Hdm.
  set (g := v mod 128) in *. set (q := v / 128) in *.
  destruct (low_group g Hg) as [H7 H8]. destruct (high_group g Hg) as [H7' H8'].
  assert (Hgk : g * 2 ^ k < 2 ^ 64).
  { eapply N.le_lt_trans; [apply N.mul_le_mono_r|exact Hv]. lia. }
  destruct (N.eqb_spec q 0) as [Hq|Hq].
  - cbn [app read_varint_loop]. rewrite read_exact_1.
    assert (Hlast : (k =? 63) && (1 <? g) = false).
    { apply andb_false_iff. destruct (N.eqb_spec k 63) as [Hk|]; [right|by left].
      apply N.ltb_ge. rewrite Hk in Hgk. nia. }
    rewrite Hlast, H7, H8, N.eqb_refl, land_u64 by (by rewrite N.shiftl_mul_pow2).
    rewrite lor_group by done. do 2 f_equal. nia.
  - cbn [app read_varint_loop]. rewrite read_exact_1.
    assert (Hn : (0 < n)%nat).
    { destruct n as [|n]; [|lia]. assert (k = 63) as Hk by lia. rewrite Hk in Hv. nia. }
    assert (Hlast : (k =? 63) = false) by (apply N.eqb_neq; lia).
    rewrite Hlast, H7', H8'. cbn [andb]. cbn [N.eqb].
    rewrite land_u64 by (by rewrite N.shiftl_mul_pow2). rewrite lor_group by done.
    assert (Hk : 2 ^ (7 * N.of_nat (S i)) = 128 * 2 ^ k).
    { replace (7 * N.of_nat (S i)) with (7 + k) by lia. by rewrite N.pow_add_r. }
    rewrite IH; [|lia|rewrite Hk; nia|rewrite Hk; nia|lia|done].
    rewrite Hk. do 2 f_equal. nia.
Qed.

Lemma read_varint_written {D} v rest :
  v < 2 ^ 64 → read_varint (D:=D) (write_varint v ++ rest) = Ok (v, rest).
Proof.
  intros Hv. unfold read_varint, write_varint.
  rewrite (read_varint_loop_written 10 0 0 v rest); simpl; [do 2 f_equal; lia|done|lia..].
Qed.

Lemma write_varint_length v : (1 ≤ length (write_varint v) ≤ 10)%nat.
Proof.
  unfold write_varint. assert (H : ∀ n w, (length (write_varint_loop n w) ≤ n)%nat).
  { induction n as [|n IH]; intros w; cbn [write_varint_loop]; [done|].
    destruct (_ =? 0); cbn [length]; [lia|]. specialize (IH (N.shiftr w 7)). lia. }
  split; [|apply H]. cbn [write_varint_loop]. destruct (_ =? 0); cbn [length]; lia.
Qed.

Lemma write_varint_bytes v : Forall (λ b, b < 256) (write_varint v).
Proof.
  unfold write_varint. generalize 10%nat as n. intros n. revert v.
  induction n as [|n IH]; intros v; cbn [write_varint_loop]; [constructor|].
  destruct (group_bits v) as [-> _]. pose proof (N.mod_lt v 128 ltac:(done)) as Hg.
  destruct (_ =? 0); constructor; try constructor; [by eapply N.lt_trans| |apply IH].
  revert Hg. generalize (v mod 128) as g. intros g Hg. change 0x80 with (N.shiftl 1 7).
  rewrite lor_group by done. lia.
Qed.

(** What a varint reader returns fits in 64 bits, and it reads at most ten
    bytes, whatever the bytes are. *)
Lemma read_varint_loop_bound {D} shifts acc reader v rest :
  Forall (λ s, s <= 63) shifts → acc < 2 ^ 64 →
  read_varint_loop (D:=D) shifts acc reader = Ok (v, rest) →
  v < 2 ^ 64 ∧ ∃ used, reader = used ++ rest ∧ (1 ≤ length used ≤ length shifts)%nat.
Proof.
  intros Hs. revert acc reader. induction Hs as [|s shifts Hs _ IH]; intros acc reader Hacc;
    cbn [read_varint_loop]; [done|].
  destruct reader as [|b reader]; [done|]. rewrite read_exact_1.
  destruct ((s =? 63) && (1 <? b)); [done|].
  assert (Hor : N.lor acc (N.land (N.shiftl (N.land b 0x7f) s) u64_max) < 2 ^ 64).
  { destruct (N.eq_dec (N.lor acc (N.land (N.shiftl (N.land b 0x7f) s) u64_max)) 0) as [->|Hne];
      [done|]. apply N.log2_lt_pow2; [lia|]. rewrite N.log2_lor. apply N.max_lub_lt.
    - destruct (N.eq_dec acc 0) as [->|]; [done|]. apply N.log2_lt_pow2; [lia|done].
    - set (x := N.land _ u64_max). destruct (N.eq_dec x 0) as [->|]; [done|].
      apply N.log2_lt_pow2; [lia|]. unfold x, u64_max. rewrite N.land_ones. by apply N.mod_lt. }
  destruct (N.land b 0x80 =? 0).
  - intros [= <- <-]. split; [done|]. exists [b]. simpl. split; [done|lia].
  - intros Hr. destruct (IH _ _ Hor Hr) as (? & used & -> & Hlen). split; [done|].
    exists (b :: used). simpl. split; [done|lia].
Qed.

Lemma read_varint_loop_front {D} shifts acc reader v rest rest' :
  read_varint_loop (D:=D) shifts acc reader = Ok (v, rest) →
  read_varint_loop (D:=D) shifts acc (take (length reader - length rest) reader ++ rest') =
    Ok (v, rest').
Proof.
  revert acc reader. induction shifts as [|s shifts IH]; intros acc reader;
    cbn [read_varint_loop]; [done|].
  destruct reader as [|b reader]; [done|]. rewrite read_exact_1.
  assert (Hle : ∀ v rest, read_varint_loop (D:=D) shifts v reader = Ok rest →
    (length rest.2 ≤ length reader)%nat).
  { clear. revert reader. induction shifts as [|s shifts IH]; intros reader v rest;
      cbn [read_varint_loop]; [done|]. destruct reader as [|b reader]; [done|].
    rewrite read_exact_1.
    destruct (_ && _); [done|]. destruct (_ =? 0); [intros [= <-]; simpl; lia|].
    intros Hr. apply IH in Hr. simpl. lia. }
  destruct ((s =? 63) && (1 <? b)) eqn:Hlast; [done|].
  destruct (N.land b 0x80 =? 0) eqn:Hstop.
  - intros [= <- <-]. replace (length (b :: reader) - length reader)%nat with 1%nat by (simpl; lia).
    cbn [take app]. rewrite read_exact_1. by rewrite Hlast, Hstop.
  - intros Hr. pose proof (Hle _ _ Hr) as Hl. cbn [snd] in Hl.
    replace (length (b :: reader) - length rest)%nat with (S (length reader - length rest))
      by (simpl; lia).
    cbn [take app]. rewrite read_exact_1. rewrite Hlast, Hstop.
    by apply IH.
Qed.

Lemma read_varint_front {D} reader v rest rest' :
  read_varint (D:=D) reader = Ok (v, rest) →
  read_varint (D:=D) (take (length reader - length rest) reader ++ rest') = Ok (v, rest').
Proof. apply read_varint_loop_front. Qed.

(** Lengths: every 64-bit length is written in one to ten bytes and
    read back from the front of the stream; conversely every length the reader
    accepts fits in 64 bits and takes at most ten bytes, whatever the stream is. *)
Theorem varint_roundtrip {D} v rest :
  v < 2 ^ 64 →
  read_varint (D:=D) (write_varint v ++ rest) = Ok (v, rest) ∧
  (1 ≤ length (write_varint v) ≤ 10)%nat ∧ Forall (λ b, b < 256) (write_varint v) ∧
  ∀ reader w rest', read_varint (D:=D) reader = Ok (w, rest') →
    w < 2 ^ 64 ∧ ∃ used, reader = used ++ rest' ∧ (1 ≤ length used ≤ 10)%nat.
Proof.
  intros Hv. split_and!; [by apply read_varint_written|apply write_varint_length..|
    apply write_varint_bytes|].
  intros reader w rest' Hr. apply (read_varint_loop_bound (D:=D) varint_shifts 0 reader); [|done|done].
  repeat constructor; lia.
Qed.

Lemma varint_roundtrip_witness :
  read_varint (D:=unit) (write_varint 300 ++ [7]) = Ok (300, [7]) ∧ write_varint 300 = [0xAC; 2].
Proof. split; [|reflexivity]. exact (proj1 (varint_roundtrip (D:=unit) 300 [7] eq_refl)). Defined.

(** ** Envelopes *)

(** The generated protobuf code. *)
Class Protobuf := {
  Envelope : Type;
  DecodeError : Type;
  protocol_version : Envelope → N;
  payload_is_some : Envelope → bool;
  encode : Envelope → list byte;
  decode : list byte → result DecodeError Envelope;
}.

Class ProtobufLaws `{Protobuf} : Prop := decode_encode e : decode (encode e) = Ok e.

Section envelopes.
Context `{Protobuf}.

Definition validate_envelope (e : Envelope) : result (FrameError DecodeError) () :=
  if negb (protocol_version e =? PROTOCOL_VERSION) then Err (UnsupportedVersion (protocol_version e))
  else if negb (payload_is_some e) then Err MissingPayload
  else Ok tt.

(** [read_envelope]: the envelope and the rest of the stream. *)
Definition read_envelope (reader : list byte) :
    result (FrameError DecodeError) (Envelope * list byte) :=
  match read_varint reader with
  | Err e => Err e
  | Ok (size, reader) =>
      if MAXIMUM_MESSAGE_SIZE <? size then Err (MessageTooLarge size)
      else
        match read_exact (N.to_nat size) reader with
        | Err e => Err e
        | Ok (bytes, reader) =>
            match decode bytes with
            | Err e => Err (InvalidProtobuf e)
            | Ok e => match validate_envelope e with Err x => Err x | Ok _ => Ok (e, reader) end
            end
        end
  end.

(** [write_envelope]: the bytes written. *)
Definition write_envelope (e : Envelope) : result (FrameError DecodeError) (list byte) :=
  match validate_envelope e with
  | Err x => Err x
  | Ok _ =>
      let size := N.of_nat (length (encode e)) in
      if MAXIMUM_MESSAGE_SIZE <? size then Err (MessageTooLarge size)
      else Ok (write_varint size ++ encode e)
  end.

(** Reading frames until the stream ends. *)
Fixpoint read_envelopes (fuel : nat) (reader : list byte) :
    result (FrameError DecodeError) (list Envelope) :=
  match reader, fuel with
  | [], _ => Ok []
  | _, 0%nat => Ok []
  | _, S fuel =>
      match read_envelope reader with
      | Err e => Err e
      | Ok (e, reader) =>
          match read_envelopes fuel reader with Ok es => Ok (e :: es) | Err x => Err x end
      end
  end.

(** An envelope the code of protobuf reads back is read back from its frame. *)
Lemma read_frame e bytes rest :
  decode (encode e) = Ok e → write_envelope e = Ok bytes → read_envelope (bytes ++ rest) = Ok (e, rest).
Proof.
  intros He. unfold write_envelope. destruct (validate_envelope e) as [[]|] eqn:Hv; [|done].
  destruct (N.ltb_spec MAXIMUM_MESSAGE_SIZE (N.of_nat (length (encode e)))) as [|Hs]; [done|].
  intros [= <-]. unfold read_envelope.
  rewrite <- app_assoc, read_varint_written by (unfold MAXIMUM_MESSAGE_SIZE in Hs; lia).
  rewrite (proj2 (N.ltb_ge _ _)) by done. unfold read_exact.
  rewrite Nat2N.id, decide_True by (rewrite length_app; lia).
  by rewrite take_app_length, drop_app_length, He, Hv.
Qed.
Lemma read_written `{!ProtobufLaws} e bytes rest :
  write_envelope e = Ok bytes → read_envelope (bytes ++ rest) = Ok (e, rest).
Proof. apply read_frame, decode_encode. Qed.

(** C40. Framing: a stream of written envelopes is read back as the same
    envelopes in the same order. Every frame is refused that announces more than a
    mebibyte, before its payload is read; and an envelope that is read has the
    protocol version and a payload. *)
Theorem frames_roundtrip `{!ProtobufLaws} es frames :
  Forall2 (λ e bytes, write_envelope e = Ok bytes) es frames →
  read_envelopes (length es) (concat frames) = Ok es ∧
  (∀ reader size rest, read_varint (D:=DecodeError) reader = Ok (size, rest) → MAXIMUM_MESSAGE_SIZE < size →
     ∀ rest', read_envelope (take (length reader - length rest) reader ++ rest') =
       Err (MessageTooLarge size)) ∧
  (∀ reader e rest, read_envelope reader = Ok (e, rest) →
     protocol_version e = PROTOCOL_VERSION ∧ payload_is_some e = true).
Proof.
  intros Hes. split_and!.
  - induction Hes as [|e bytes es frames He _ IH]; [done|]. cbn [length concat].
    assert (Hne : bytes ++ concat frames ≠ []).
    { unfold write_envelope in He. destruct (validate_envelope e); [|done].
      destruct (_ <? _); [done|]. injection He as <-.
      pose proof (write_varint_length (N.of_nat (length (encode e)))) as [Hl _].
      intros E. apply app_eq_nil in E as [E _]. apply app_eq_nil in E as [E _].
      rewrite E in Hl. simpl in Hl. lia. }
    destruct (bytes ++ concat frames) as [|b s] eqn:Hb; [done|]. cbn [read_envelopes].
    rewrite <- Hb, (read_written e) by done. by rewrite IH.
  - intros reader size rest Hr Hsize rest'. unfold read_envelope.
    rewrite (read_varint_front reader size rest rest' Hr).
    by rewrite (proj2 (N.ltb_lt _ _)).
  - intros reader e rest. unfold read_envelope.
    destruct (read_varint reader) as [[size r]|]; [|done].
    destruct (_ <? _); [done|]. destruct (read_exact _ r) as [[bytes r']|]; [|done].
    destruct (decode bytes) as [e'|]; [|done]. unfold validate_envelope.
    destruct (N.eqb_spec (protocol_version e') PROTOCOL_VERSION); [|done]. cbn [negb].
    destruct (payload_is_some e') eqn:Hp; [|done]. cbn [negb]. intros [= <- _]. done.
Qed.
End envelopes.

(** A protobuf whose envelopes are their bytes. *)
Definition toy_protobuf : Protobuf := {|
  Envelope := list byte; DecodeError := unit;
  protocol_version := λ _, 1; payload_is_some := λ _, true;
  encode := λ e, e; decode := λ e, Ok e;
|}.

Lemma frames_roundtrip_witness :
  @read_envelopes toy_protobuf 2 (concat [[3; 1; 2; 3]; [0]]) = Ok [[1; 2; 3]; []].
Proof.
  assert (Hlaws : @ProtobufLaws toy_protobuf) by (intros e; reflexivity).
  assert (Hw : Forall2 (λ e bytes, @write_envelope toy_protobuf e = Ok bytes)
    [[1; 2; 3]; []] [[3; 1; 2; 3]; [0]]) by (repeat constructor).
  exact (proj1 (@frames_roundtrip toy_protobuf Hlaws _ _ Hw)).
Defined.

Close Scope N_scope.
