(* ===== verification/Collections.v ===== *)
(** * Ordered maps, chunks and little-endian integers

    The parts of Rust's standard library the dictionary files and the learning
    memory use: [BTreeMap] as the list of its entries in key order, [chunks],
    [to_le_bytes] and [from_le_bytes]. *)

From S2P Require Import Prelude Unicode.

(** ** [BTreeMap] with natural number keys *)

Module BTree.
Section btree.
Context {V : Type}.

Fixpoint get (k : N) (m : list (N * V)) : option V :=
  match m with
  | [] => None
  | (k', v) :: m' => if (k =? k')%N then Some v else get k m'
  end.

Fixpoint insert (k : N) (v : V) (m : list (N * V)) : list (N * V) :=
  match m with
  | [] => [(k, v)]
  | (k', v') :: m' =>
      if (k <? k')%N then (k, v) :: m
      else if (k =? k')%N then (k, v) :: m'
      else (k', v') :: insert k v m'
  end.

(** The entries are in strictly increasing key order. *)
Definition ordered (m : list (N * V)) : Prop := StronglySorted N.lt m.*1.

Lemma get_insert k k' v m : get k (insert k' v m) = if (k =? k')%N then Some v else get k m.
Proof.
  induction m as [|[k1 v1] m IH]; simpl; [done|].
  destruct (N.ltb_spec k' k1); simpl; [done|].
  destruct (N.eqb_spec k' k1) as [->|]; simpl; [by destruct (k =? k1)%N|].
  rewrite IH. destruct (N.eqb_spec k k1) as [->|]; [|done].
  by rewrite (proj2 (N.eqb_neq k1 k')) by done.
Qed.

Lemma elem_of_keys_insert k k' v m : k ∈ (insert k' v m).*1 ↔ k = k' ∨ k ∈ m.*1.
Proof.
  induction m as [|[k1 v1] m IH]; simpl; [set_solver|].
  destruct (N.ltb_spec k' k1); simpl; [set_solver|].
  destruct (N.eqb_spec k' k1) as [->|]; simpl; set_solver.
Qed.

Lemma insert_ordered k v m : ordered m → ordered (insert k v m).
Proof.
  unfold ordered. induction m as [|[k1 v1] m IH]; simpl; [repeat constructor|].
  intros [Hs Hall]%StronglySorted_inv. rewrite Forall_forall in Hall.
  destruct (N.ltb_spec k k1); simpl.
  { constructor; [by constructor; [|apply Forall_forall]|]. constructor; [done|].
    apply Forall_forall. intros x Hx. specialize (Hall x Hx). lia. }
  destruct (N.eqb_spec k k1) as [->|]; simpl; [by constructor; [|apply Forall_forall]|].
  constructor; [by apply IH|]. apply Forall_forall. intros x [->|Hx]%elem_of_keys_insert; [lia|auto].
Qed.

Lemma ordered_NoDup m : ordered m → NoDup m.*1.
Proof.
  unfold ordered. induction 1 as [|k l Hs IH Hall]; constructor; [|done].
  rewrite Forall_forall in Hall. intros Hk. specialize (Hall k Hk). lia.
Qed.

Lemma elem_of_get k v m : ordered m → (k, v) ∈ m ↔ get k m = Some v.
Proof.
  intros Hm%ordered_NoDup. induction m as [|[k1 v1] m IH]; simpl; [split; [set_solver|done]|].
  simpl in Hm. apply NoDup_cons in Hm as [Hk1 Hm]. rewrite elem_of_cons, (IH Hm).
  destruct (N.eqb_spec k k1) as [->|Hne].
  - split; [intros [[= ->]|Hg]|intros [= ->]; by left]; [done|]. destruct Hk1.
    apply list_elem_of_fmap. exists (k1, v). split; [done|]. by apply (IH Hm).
  - split; [intros [[= ->]|Hg]|by right]; done.
Qed.

(** A new key puts its entry among the others. *)
Lemma insert_fresh_perm k v m : get k m = None → insert k v m ≡ₚ (k, v) :: m.
Proof.
  induction m as [|[k1 v1] m IH]; simpl; [done|].
  destruct (N.ltb_spec k k1); [done|].
  destruct (N.eqb_spec k k1); [done|]. intros Hg. rewrite (IH Hg). constructor.
Qed.
End btree.
End BTree.

(** ** [slice::chunks] and [slice::chunks_exact] *)

Fixpoint chunks_fuel {A} (fuel size : nat) (l : list A) : list (list A) :=
  match fuel, l with
  | _, [] | 0, _ => []
  | S fuel, _ => take size l :: chunks_fuel fuel size (drop size l)
  end.

(** [l.chunks(size)]; a chunk is not empty, so the length of the list is enough
    fuel. *)
Definition chunks {A} (size : nat) (l : list A) : list (list A) := chunks_fuel (length l) size l.

(** [l.chunks_exact(size)] and its remainder *)
Definition chunks_exact {A} (size : nat) (l : list A) : list (list A) :=
  filter (λ c, length c = size) (chunks size l).
Definition chunks_remainder {A} (size : nat) (l : list A) : list A :=
  drop (length l - length l mod size) l.

Lemma bind_concat {A B} (f : A → list B) l : l ≫= f = concat (f <$> l).
Proof. induction l as [|x l IH]; [done|]. csimpl. by rewrite IH. Qed.

Lemma elem_of_concat {A} (x : A) ls : x ∈ concat ls ↔ ∃ l, l ∈ ls ∧ x ∈ l.
Proof.
  induction ls as [|l ls IH]; simpl; [set_solver|]. rewrite elem_of_app, IH. set_solver.
Qed.

(** ** Little-endian integers *)

Fixpoint to_le_bytes (width : nat) (v : N) : list byte :=
  match width with
  | 0 => []
  | S width => (v mod 256)%N :: to_le_bytes width (v / 256)%N
  end.

Fixpoint from_le_bytes (bs : list byte) : N :=
  match bs with
  | [] => 0%N
  | b :: bs => (b + 256 * from_le_bytes bs)%N
  end.

Lemma length_to_le_bytes w v : length (to_le_bytes w v) = w.
Proof. revert v. induction w as [|w IH]; intros v; simpl; [done|]. by rewrite IH. Qed.

Lemma from_to_le_bytes w v : (v < 256 ^ N.of_nat w)%N → from_le_bytes (to_le_bytes w v) = v.
Proof.
  revert v. induction w as [|w IH]; intros v Hv.
  { simpl in *. lia. }
  cbn [to_le_bytes from_le_bytes]. pose proof (N.div_mod' v 256) as Hd.
  rewrite IH; [lia|]. rewrite Nat2N.inj_succ, N.pow_succ_r' in Hv.
  by apply N.Div0.div_lt_upper_bound.
Qed.

Lemma to_le_bytes_bytes w v : Forall (λ b, (b < 256)%N) (to_le_bytes w v).
Proof.
  revert v. induction w as [|w IH]; intros v; simpl; constructor; [by apply N.mod_lt|done].
Qed.

#[export] Hint Rewrite length_to_le_bytes : bean_len.

(** ** Chunk lemmas *)

Section chunks.
Context {A : Type} (size : nat) (Hsize : 0 < size).

Lemma chunks_fuel_enough fuel (l : list A) :
  length l ≤ fuel → chunks_fuel fuel size l = chunks size l.
Proof.
  unfold chunks. revert l. induction fuel as [fuel IH] using lt_wf_ind.
  intros l Hl. destruct fuel as [|fuel], l as [|x l]; try done; simpl in Hl; [lia|].
  cbn [length chunks_fuel]. f_equal. set (d := drop size (x :: l)).
  assert (Hd : length d ≤ length l) by (subst d; rewrite length_drop; simpl; lia).
  rewrite (IH fuel) by lia. destruct (decide (length l = fuel)) as [->|].
  - symmetry. apply IH; lia.
  - symmetry. apply IH; [lia|done].
Qed.

Lemma chunks_cons (l : list A) : l ≠ [] → chunks size l = take size l :: chunks size (drop size l).
Proof.
  destruct l as [|x l]; [done|]. intros _. unfold chunks at 1. cbn [length chunks_fuel].
  f_equal. apply chunks_fuel_enough. rewrite length_drop. simpl. lia.
Qed.

(** Induction along the chunks. *)
Lemma chunks_ind (P : list A → Prop) :
  P [] → (∀ l, l ≠ [] → P (drop size l) → P l) → ∀ l, P l.
Proof.
  intros H0 HS l. induction l as [l IH] using (induction_ltof1 _ (@length A)); unfold ltof in IH.
  destruct l as [|x l]; [done|]. apply HS; [done|]. apply IH. rewrite length_drop. simpl. lia.
Qed.

Lemma concat_chunks (l : list A) : concat (chunks size l) = l.
Proof.
  induction l as [|l Hl IH] using chunks_ind; [done|].
  rewrite chunks_cons by done. cbn [concat]. by rewrite IH, take_drop.
Qed.

Lemma chunks_app (c l : list A) : length c = size → chunks size (c ++ l) = c :: chunks size l.
Proof.
  intros Hc. rewrite chunks_cons by (destruct c; simpl in *; [lia|done]).
  by rewrite take_app_length', drop_app_length'.
Qed.

Lemma chunks_concat (cs : list (list A)) :
  Forall (λ c, length c = size) cs → chunks size (concat cs) = cs.
Proof.
  induction 1 as [|c cs Hc _ IH]; [done|]. cbn [concat]. by rewrite chunks_app, IH.
Qed.

Lemma chunks_exact_concat (cs : list (list A)) :
  Forall (λ c, length c = size) cs → chunks_exact size (concat cs) = cs.
Proof.
  intros Hcs. unfold chunks_exact. rewrite chunks_concat by done.
  induction Hcs as [|c cs Hc _ IH]; [done|]. by rewrite filter_cons_True, IH.
Qed.

(** The [i]-th chunk holds the elements [i * size, ..]. *)
Lemma chunks_lookup (l : list A) i :
  i * size < length l → chunks size l !! i = Some (take size (drop (i * size) l)).
Proof.
  revert i. induction l as [|l Hl IH] using chunks_ind; intros i Hi; [simpl in Hi; lia|].
  rewrite chunks_cons by done. destruct i as [|i]; [done|]. cbn [lookup list_lookup].
  rewrite IH by (rewrite length_drop; lia). by rewrite drop_drop.
Qed.

Lemma length_concat_uniform (cs : list (list A)) :
  Forall (λ c, length c = size) cs → length (concat cs) = length cs * size.
Proof. induction 1 as [|c cs Hc _ IH]; [done|]. simpl. rewrite length_app, IH. lia. Qed.
End chunks.

(** ** One element per key, at the place of its first occurrence

    The loop of several functions of the source: a map from keys to places in the
    output; an element with a known key replaces the one in the output when it is
    better. *)

Section dedup.
Context {K A : Type} `{EqDecision K} (key : A → K) (better : A → A → bool).

Definition dedup_step (output : list A) (x : A) : list A :=
  match list_find (λ y, key y = key x) output with
  | Some (i, y) => if better y x then <[i := x]> output else output
  | None => output ++ [x]
  end.

Definition dedup (l : list A) : list A := foldl dedup_step [] l.

Lemma insert_same_key (output : list A) (i : nat) x y :
  output !! i = Some y → key y = key x → key <$> <[i := x]> output = key <$> output.
Proof.
  intros Hi Hk. rewrite list_fmap_insert, <- Hk. apply list_insert_id. by rewrite list_lookup_fmap, Hi.
Qed.

Lemma dedup_step_spec output x :
  NoDup (key <$> output) →
  NoDup (key <$> dedup_step output x) ∧
  (∀ y, y ∈ dedup_step output x → y ∈ output ∨ y = x) ∧
  (∀ k, k ∈ key <$> dedup_step output x ↔ k ∈ key <$> output ∨ k = key x).
Proof.
  intros Hnd. unfold dedup_step. destruct (list_find _ _) as [[i y]|] eqn:Hf.
  - apply list_find_Some in Hf as (Hi & Hk & _).
    assert (Hx : key x ∈ key <$> output).
    { rewrite <- Hk. by eapply list_elem_of_fmap_2, list_elem_of_lookup_2. }
    destruct (better y x); [rewrite (insert_same_key _ _ _ _ Hi Hk)|]; (split_and!; [done| |naive_solver]).
    + intros z [j Hj]%list_elem_of_lookup. apply list_lookup_insert_Some in Hj as [(_ & -> & _)|[_ Hj]];
        [by right|left; by eapply list_elem_of_lookup_2].
    + by left.
  - apply list_find_None in Hf. rewrite Forall_forall in Hf. rewrite fmap_app. split_and!.
    + apply NoDup_app. split_and!; [done| |apply NoDup_singleton].
      intros k (y & -> & Hy)%list_elem_of_fmap Hk%list_elem_of_singleton. by apply (Hf y).
    + set_solver.
    + intros k. rewrite elem_of_app. set_solver.
Qed.

Lemma dedup_spec l :
  NoDup (key <$> dedup l) ∧ (∀ y, y ∈ dedup l → y ∈ l) ∧
  ∀ k, k ∈ key <$> dedup l ↔ k ∈ key <$> l.
Proof.
  unfold dedup. induction l as [|x l IH] using rev_ind; [split_and!; [constructor|done|done]|].
  rewrite foldl_app. cbn [foldl]. destruct IH as (Hnd & Hin & Hk).
  destruct (dedup_step_spec (foldl dedup_step [] l) x Hnd) as (H1 & H2 & H3). split_and!; [done| |].
  - intros y [Hy| ->]%H2; set_solver.
  - intros k. rewrite H3, Hk, fmap_app, elem_of_app. set_solver.
Qed.
End dedup.
