(* ===== verification/Louds.v ===== *)
(** * LOUDS tries

    src/crates/converter/src/dictionary/louds.rs: the identifiers of the
    characters, the level-order unary degree sequence of a trie, the walk from
    its root, the enumeration below a node, and the names of the dictionary
    files. *)

From S2P Require Import Prelude Unicode Collections.

Inductive LoudsError :=
  | InvalidWordLength (length : nat)
  | MissingZeroDelimiters (needed found : nat)
  | NodeTableTooLarge (length : nat)
  | InvalidTopology (node zero_position : nat).

(** ** Character identifiers *)

Module CharacterIdMap.

Record t := { ids : gmap Grapheme byte }.

Section segmentation.
Context `{Segmentation}.

(** The later of two equal clusters wins, as [collect] into a [HashMap] has it. *)
Definition parse (content : ustring) : result LoudsError t :=
  let gs := graphemes content in
  if decide (256 < length gs) then Err (NodeTableTooLarge (length gs))
  else Ok {| ids := foldl (λ m p, <[p.2 := N.of_nat p.1]> m) ∅ (imap pair gs) |}.

Definition id (m : t) (grapheme : Grapheme) : option byte := ids m !! grapheme.

Definition encode (m : t) (value : ustring) : option (list byte) := mapM (id m) (graphemes value).
End segmentation.

Definition len (m : t) : nat := size (ids m).
Definition is_empty (m : t) : bool := bool_decide (ids m = ∅).
End CharacterIdMap.

(** ** The trie *)

Record Louds := { node_ids : list byte; child_ranges : list (nat * nat) }.

(** The shifts 63, 62, .., 0. *)
Definition word_shifts : list N := reverse (N.of_nat <$> seq 0 64).

(** The inner loop of [parse] over the bits of a word. *)
Fixpoint scan_word (needed : nat) (word : N) (shifts : list N) (bit_position : nat)
    (zero_positions : list nat) : nat * list nat :=
  match shifts with
  | [] => (bit_position, zero_positions)
  | shift :: shifts =>
      if (N.land word (N.shiftl 1 shift) =? 0)%N then
        let zero_positions := zero_positions ++ [bit_position] in
        if decide (length zero_positions = needed) then (bit_position, zero_positions)
        else scan_word needed word shifts (S bit_position) zero_positions
      else scan_word needed word shifts (S bit_position) zero_positions
  end.

(** The outer loop, over the chunks of eight bytes. *)
Fixpoint scan_words (needed : nat) (words : list (list byte)) (bit_position : nat)
    (zero_positions : list nat) : list nat :=
  match words with
  | [] => zero_positions
  | chunk :: words =>
      let '(bit_position, zero_positions) :=
        scan_word needed (from_le_bytes chunk) word_shifts bit_position zero_positions in
      if decide (length zero_positions = needed) then zero_positions
      else scan_words needed words bit_position zero_positions
  end.

(** [value.checked_sub(node).and_then(|value| value.checked_add(add))]; a bit
    position plus two fits in a [usize]. *)
Definition topology (node zero_position add : nat) : result LoudsError nat :=
  match usub zero_position node with
  | Some value => Ok (value + add)
  | None => Err (InvalidTopology node zero_position)
  end.

(** One iteration of the loop that fills [child_ranges]. *)
Definition range_step (zero_positions : list nat) (count : nat) (ranges : list (nat * nat))
    (node : nat) : outcome LoudsError (list (nat * nat)) :=
  previous ← panicking (zero_positions !! (node - 1));
  start ← fallible (topology node previous 2);
  current ← panicking (zero_positions !! node);
  stop ← fallible (topology node current 1);
  if decide (node < length ranges)
  then mret (<[node := (start `min` count, stop `min` count)]> ranges) else Panic.

(** [Louds::parse] *)
Definition parse (bits node_ids : list byte) : outcome LoudsError Louds :=
  if decide (length bits `mod` 8 ≠ 0) then Raise (InvalidWordLength (length bits))
  else
    let needed_zeros := length node_ids in
    let zero_positions := scan_words needed_zeros (chunks_exact 8 bits) 0 [] in
    if decide (length zero_positions < needed_zeros)
    then Raise (MissingZeroDelimiters needed_zeros (length zero_positions))
    else
      ranges ← for_each (range_step zero_positions (length node_ids))
        (replicate (length node_ids) (0, 0)) (seq 1 (length node_ids - 1));
      mret {| node_ids := node_ids; child_ranges := ranges |}.

Definition child_range (l : Louds) (parent : nat) : nat * nat :=
  default (0, 0) (child_ranges l !! parent).

Definition node_count (l : Louds) : nat := length (node_ids l).

(** The nodes of a range. *)
Definition range_nodes (r : nat * nat) : list nat := seq r.1 (r.2 - r.1).

Definition search_child (l : Louds) (parent : nat) (character_id : byte) : option nat :=
  snd <$> list_find (λ index, node_ids l !! index = Some character_id)
            (range_nodes (child_range l parent)).

(** The loop of [search]. *)
Fixpoint search_from (l : Louds) (node : nat) (character_ids : list byte) : option nat :=
  match character_ids with
  | [] => Some node
  | character_id :: character_ids =>
      node ← search_child l node character_id; search_from l node character_ids
  end.

Definition search (l : Louds) (character_ids : list byte) : option nat :=
  search_from l 1 character_ids.

(** The loop of [descendants_from] over the children, with the recursive call. *)
Fixpoint extend_children (recurse : nat → nat → option (list nat)) (max_count : nat)
    (direct output : list nat) : option (list nat) :=
  match direct with
  | [] => Some output
  | child :: direct =>
      if decide (max_count < length output) then Some output
      else
        below ← recurse child (max_count - length output);
        extend_children recurse max_count direct (output ++ below)
  end.

(** [descendants_from]; [None] is a lack of fuel. A call that recurses passes on
    less than its own [max_count]: its output holds at least the child. *)
Fixpoint descendants_from (fuel : nat) (l : Louds) (parent : nat) (depth max_depth : N)
    (max_count : nat) : option (list nat) :=
  match fuel with
  | 0 => None
  | S fuel =>
      let direct := range_nodes (child_range l parent) in
      if (depth =? max_depth)%N then Some direct
      else extend_children (λ child count, descendants_from fuel l child (depth + 1) max_depth count)
             max_count direct direct
  end.

(** [Louds::descendants] *)
Definition descendants (l : Louds) (character_ids : list byte) (max_depth : N) (max_count : nat) :
    option (list nat) :=
  match search l character_ids with
  | Some root => descendants_from (S max_count) l root 0 max_depth max_count
  | None => Some []
  end.

(** ** File names *)

(** [str::encode_utf16] of one character *)
Definition encode_utf16_char (c : char) : list N :=
  if (c <? 0x10000)%N then [c]
  else [(0xD800 + N.shiftr (c - 0x10000) 10)%N; (0xDC00 + N.land (c - 0x10000) 0x3FF)%N].

Definition hex_digit (d : N) : char := if (d <? 10)%N then (48 + d)%N else (55 + d)%N.

(** [format!("{unit:04X}")]; a unit has 16 bits. *)
Definition hex4 (unit : N) : ustring :=
  (λ shift, hex_digit (N.land (N.shiftr unit shift) 15)) <$> [12; 8; 4; 0]%N.

Fixpoint join_units (units : list ustring) : ustring :=
  match units with
  | [] => []
  | [x] => x
  | x :: units => x ++ 95%N :: join_units units
  end.

Definition reserved_identifiers : list ustring :=
  Eval vm_compute in [u "user"; u "memory"; u "user_shortcuts"].

Definition escaped_identifier (value : ustring) : ustring :=
  if decide (value ∈ reserved_identifiers) then value
  else 91%N :: join_units (hex4 <$> (value ≫= encode_utf16_char)) ++ [93%N].

Example escaped_names :
  escaped_identifier (u "あ") = u "[3042]" ∧ escaped_identifier (u "AB") = u "[0041_0042]" ∧
  escaped_identifier (u "🇯🇵") = u "[D83C_DDEF_D83C_DDF5]" ∧
  escaped_identifier (u "memory") = u "memory".
Proof. vm_compute. by split_and!. Qed.

(** ** Parsing never panics *)

Lemma range_step_safe zeros count ranges node :
  node - 1 < length zeros → node < length zeros → node < length ranges →
  safe (range_step zeros count ranges node) (λ ranges', length ranges' = length ranges).
Proof.
  intros Hp Hn Hr. unfold range_step.
  destruct (lookup_lt_is_Some_2 zeros (node - 1) Hp) as [p ->].
  destruct (lookup_lt_is_Some_2 zeros node Hn) as [z ->]. apply safe_bind; cbn [panicking safe].
  apply safe_bind, safe_fallible. intros start _. apply safe_bind; cbn [panicking safe].
  apply safe_bind, safe_fallible. intros stop _. rewrite decide_True by done.
  apply safe_ret. by rewrite length_insert.
Qed.

Lemma parse_safe bits ids :
  safe (parse bits ids) (λ l, node_ids l = ids ∧ length (child_ranges l) = length ids).
Proof.
  unfold parse. case_decide; [done|]. case_decide as Hz; [done|]. set (zeros := scan_words _ _ _ _) in *.
  apply safe_bind. apply (safe_for_each (λ r, length r = length ids)).
  - intros node r [Hlo Hhi]%elem_of_seq Hr. eapply safe_mono; [apply range_step_safe; lia|].
    cbn. lia.
  - apply length_replicate.
  - intros r Hr. by apply safe_ret.
Qed.

(** ** The enumeration below a node ends *)

Lemma extend_children_total recurse max_count direct output :
  output ≠ [] →
  (∀ child count, count < max_count → ∃ below, recurse child count = Some below) →
  ∃ out, extend_children recurse max_count direct output = Some out.
Proof.
  intros Hout Hrec. revert output Hout.
  induction direct as [|child direct IH]; intros output Hout; cbn [extend_children]; [by eexists|].
  case_decide as Hd; [by eexists|].
  assert (0 < length output) by (destruct output; simpl; [done|lia]).
  destruct (Hrec child (max_count - length output)) as [below ->]; [lia|]. cbn [mbind option_bind].
  apply IH. by destruct output.
Qed.

Lemma descendants_from_total fuel l parent depth max_depth max_count :
  max_count < fuel → ∃ out, descendants_from fuel l parent depth max_depth max_count = Some out.
Proof.
  revert parent depth max_count.
  induction fuel as [|fuel IH]; intros parent depth max_count Hf; [lia|]. cbn [descendants_from].
  destruct (depth =? max_depth)%N; [by eexists|].
  destruct (range_nodes _) as [|n direct] eqn:Hr; [by eexists|].
  apply extend_children_total; [done|]. intros child count Hc. apply IH. lia.
Qed.

Lemma descendants_total l ids max_depth max_count :
  ∃ out, descendants l ids max_depth max_count = Some out.
Proof.
  unfold descendants. destruct (search l ids); [|by eexists]. apply descendants_from_total. lia.
Qed.
