(* ===== verification/MemoryIndex.v ===== *)
(** * The index of the learning memory

    src/crates/converter/src/learning/index.rs: the trie of the records of a
    session, and the LOUDS form of the trie of the persisted records. The abstract
    specification of both is a search through the list of the encoded readings;
    MemoryIndexSpec.v proves that they implement it. *)

From S2P Require Import Prelude Unicode Collections Louds.

Inductive MatchKind := Exact | Prefixes | Completions.

#[export] Instance match_kind_eq_dec : EqDecision MatchKind.
Proof. solve_decision. Defined.

Record TrieNode := { children : list (byte * nat); records : list nat }.

(** [MemoryTrie]: its nodes; the root is the first. *)
Abbreviation MemoryTrie := (list TrieNode) (only parsing).

Definition default_node : TrieNode := {| children := []; records := [] |}.

(** [MemoryTrie::default] *)
Definition empty_trie : MemoryTrie := [default_node].

(** [records.sort_unstable()] *)
Definition sort_records : list nat → list nat := sort_by Nat.compare.

(** One step of the walk of [insert]: the child, created when it is missing. *)
Definition insert_step (st : MemoryTrie * nat) (id : byte) : option (MemoryTrie * nat) :=
  let '(nodes, node) := st in
  current ← nodes !! node;
  match BTree.get id (children current) with
  | Some child => Some (nodes, child)
  | None =>
      let child := length nodes in
      let nodes := nodes ++ [default_node] in
      Some (<[node := {| children := BTree.insert id child (children current);
                         records := records current |}]> nodes, child)
  end.

(** [MemoryTrie::insert] *)
Definition insert (nodes : MemoryTrie) (ids : list byte) (record : nat) : option MemoryTrie :=
  '(nodes, node) ← foldl (λ st id, st ← st; insert_step st id) (Some (nodes, 0)) ids;
  current ← nodes !! node;
  Some (<[node := {| children := children current; records := records current ++ [record] |}]> nodes).

(** The loop of [MemoryTrie::new]; a record is its encoded reading here, absent
    when a character of the reading has no identifier. *)
Definition new_step (nodes : MemoryTrie) (indexed : nat * option (list byte)) : option MemoryTrie :=
  match indexed.2 with
  | Some ids => insert nodes ids indexed.1
  | None => Some nodes
  end.

(** [MemoryTrie::new] *)
Definition trie_new (encoded : list (option (list byte))) : option MemoryTrie :=
  foldl (λ nodes p, nodes ← nodes; new_step nodes p) (Some empty_trie) (imap pair encoded).

(** The walk of [lookup]: the node it reaches, if it reaches the end, and the
    records collected on the way. *)
Fixpoint walk (nodes : MemoryTrie) (kind : MatchKind) (node : nat) (acc : list nat)
    (ids : list byte) : option (option nat * list nat) :=
  match ids with
  | [] => Some (Some node, acc)
  | id :: ids =>
      current ← nodes !! node;
      match BTree.get id (children current) with
      | None => Some (None, acc)
      | Some child =>
          match kind with
          | Prefixes => found ← nodes !! child; walk nodes kind child (acc ++ records found) ids
          | _ => walk nodes kind child acc ids
          end
      end
  end.

(** The loop over the [pending] stack, whose top is the head of the list here;
    every node is pushed once, so the number of nodes is enough fuel. *)
Fixpoint pending_loop (fuel : nat) (nodes : MemoryTrie) (pending acc : list nat) :
    option (list nat) :=
  match pending, fuel with
  | [], _ => Some acc
  | _, 0 => None
  | node :: pending, S fuel =>
      current ← nodes !! node;
      pending_loop fuel nodes (reverse ((children current).*2) ++ pending) (acc ++ records current)
  end.

(** [MemoryTrie::lookup] *)
Definition trie_lookup (nodes : MemoryTrie) (ids : list byte) (kind : MatchKind) :
    option (list nat) :=
  '(end_node, acc) ← walk nodes kind 0 [] ids;
  match end_node with
  | None => Some (sort_records acc)
  | Some node =>
      match kind with
      | Exact => current ← nodes !! node; Some (sort_records (acc ++ records current))
      | Completions => acc ← pending_loop (length nodes) nodes [node] acc; Some (sort_records acc)
      | Prefixes => Some (sort_records acc)
      end
  end.

(** ** Encoding *)

Record EncodedIndex := {
  louds_bytes : list byte;
  characters : list byte;
  blocks : list (list nat);
}.

(** [encode_louds] of learning.rs: a word of 64 bits, most significant first,
    padded with ones. *)
Definition word_of_bits (chunk : list bool) : N :=
  let word := foldl (λ word p, if p.2 : bool then N.lor word (N.shiftl 1 (63 - N.of_nat p.1)) else word)
                0%N (imap pair chunk) in
  foldl (λ word index, N.lor word (N.shiftl 1 (63 - N.of_nat index)))
    word (seq (length chunk) (64 - length chunk)).

Definition encode_louds (bits : list bool) : list byte :=
  chunks 64 bits ≫= λ chunk, to_le_bytes 8 (word_of_bits chunk).

Record EncodeState := { enc_bits : list bool; enc_characters : list byte; enc_blocks : list (list nat) }.

(** The bits of a node: its degree in unary. *)
Definition degree_bits (n : TrieNode) : list bool := replicate (length (children n)) true ++ [false].

(** The inner loop of [encode] over a level; it returns the next level. *)
Definition level_step (nodes : MemoryTrie) (st : EncodeState * list (byte * nat))
    (p : byte * nat) : option (EncodeState * list (byte * nat)) :=
  let '(st, next) := st in
  current ← nodes !! p.2;
  Some ({| enc_bits := enc_bits st ++ degree_bits current;
           enc_characters := enc_characters st ++ [p.1];
           enc_blocks := enc_blocks st ++ [records current] |}, next ++ children current).

(** The outer loop; every level is deeper than the one before, so the number of
    nodes is enough fuel. *)
Fixpoint levels (fuel : nat) (nodes : MemoryTrie) (st : EncodeState) (current : list (byte * nat)) :
    option EncodeState :=
  match current, fuel with
  | [], _ => Some st
  | _, 0 => None
  | _, S fuel =>
      '(st, next) ← foldl (λ st p, st ← st; level_step nodes st p) (Some (st, [])) current;
      levels fuel nodes st next
  end.

(** [MemoryTrie::encode] *)
Definition encode (nodes : MemoryTrie) : option EncodedIndex :=
  root ← nodes !! 0;
  st ← levels (length nodes) nodes
         {| enc_bits := [true; false] ++ degree_bits root;
            enc_characters := [0%N; 0%N]; enc_blocks := [[]; []] |} (children root);
  Some {| louds_bytes := encode_louds (enc_bits st);
          characters := enc_characters st; blocks := enc_blocks st |}.

(** ** The persisted index *)

Record MemoryLouds := { memory_louds : Louds; memory_blocks : list (list nat) }.

(** [MemoryLouds::new]; [None] is the failure of its [expect] as well. *)
Definition memory_louds_new (encoded : list (option (list byte))) : option MemoryLouds :=
  nodes ← trie_new encoded;
  index ← encode nodes;
  match Louds.parse (louds_bytes index) (characters index) with
  | Return louds => Some {| memory_louds := louds; memory_blocks := blocks index |}
  | _ => None
  end.

(** The walk of [MemoryLouds::lookup]. *)
Fixpoint louds_walk (m : MemoryLouds) (kind : MatchKind) (node : nat) (acc : list nat)
    (ids : list byte) : option (option nat * list nat) :=
  match ids with
  | [] => Some (Some node, acc)
  | id :: ids =>
      match search_child (memory_louds m) node id with
      | None => Some (None, acc)
      | Some child =>
          match kind with
          | Prefixes =>
              found ← memory_blocks m !! child; louds_walk m kind child (acc ++ found) ids
          | _ => louds_walk m kind child acc ids
          end
      end
  end.

Definition usize_max : N := N.ones 64.

(** [MemoryLouds::lookup] *)
Definition louds_lookup (m : MemoryLouds) (ids : list byte) (kind : MatchKind) :
    option (list nat) :=
  '(end_node, acc) ← louds_walk m kind 1 [] ids;
  match end_node with
  | None => Some (sort_records acc)
  | Some node =>
      match kind with
      | Exact => found ← memory_blocks m !! node; Some (sort_records (acc ++ found))
      | Completions =>
          below ← descendants (memory_louds m) ids usize_max 700;
          found ← mapM (λ node, memory_blocks m !! node) below;
          Some (sort_records (acc ++ concat found))
      | Prefixes => Some (sort_records acc)
      end
  end.

(** ** The specification

    The records whose encoded reading matches, in increasing order. *)

Definition matches_kind (kind : MatchKind) (ids : list byte) (encoded : option (list byte)) : Prop :=
  match encoded with
  | None => False
  | Some e =>
      match kind with
      | Exact => e = ids
      | Prefixes => e ≠ [] ∧ e `prefix_of` ids
      | Completions => ids `prefix_of` e
      end
  end.

#[export] Instance matches_kind_dec kind ids e : Decision (matches_kind kind ids e).
Proof. destruct e, kind; simpl; apply _. Defined.

Definition matching (P : option (list byte) → Prop) `{!∀ e, Decision (P e)}
    (encoded : list (option (list byte))) : list nat :=
  fst <$> filter (λ p, P p.2) (imap pair encoded).

Definition spec_lookup (encoded : list (option (list byte))) (ids : list byte) (kind : MatchKind) :
    list nat :=
  matching (matches_kind kind ids) encoded.

(** The persisted index leaves out the exact node among the completions. *)
Definition strictly_extends (ids : list byte) (encoded : option (list byte)) : Prop :=
  match encoded with Some e => ids `prefix_of` e ∧ e ≠ ids | None => False end.

#[export] Instance strictly_extends_dec ids e : Decision (strictly_extends ids e).
Proof. destruct e; simpl; apply _. Defined.

(** ** Examples *)

Definition sample_readings : list (option (list byte)) :=
  [Some [1; 2]; Some [1]; None; Some [1; 2; 3]; Some [2]; Some [1; 2]]%N.

Example sample_lookups :
  (t ← trie_new sample_readings; trie_lookup t [1; 2]%N Exact) = Some [0; 5] ∧
  (t ← trie_new sample_readings; trie_lookup t [1; 2; 9]%N Prefixes) = Some [0; 1; 5] ∧
  (t ← trie_new sample_readings; trie_lookup t [1]%N Completions) = Some [0; 1; 3; 5] ∧
  (m ← memory_louds_new sample_readings; louds_lookup m [1; 2]%N Exact) = Some [0; 5] ∧
  (m ← memory_louds_new sample_readings; louds_lookup m [1; 2; 9]%N Prefixes) = Some [0; 1; 5] ∧
  (m ← memory_louds_new sample_readings; louds_lookup m [1]%N Completions) = Some [0; 3; 5].
Proof. vm_compute. by split_and!. Qed.
