(* ===== verification/MemoryIndexSpec.v ===== *)
(** * The learning index implements its specification

    The trie and its LOUDS form find the records whose encoded reading matches.
    The invariant labels every node of the trie with the path to it. *)

From stdpp Require Import sorting.
From S2P Require Import Prelude Unicode Collections Louds MemoryIndex.

(** ** Sorted lists of records *)

Lemma StronglySorted_weaken {A} (R S : A → A → Prop) l :
  (∀ a b, R a b → S a b) → StronglySorted R l → StronglySorted S l.
Proof.
  intros HRS. induction 1 as [|a l _ IH Ha]; constructor; [done|].
  eapply Forall_impl; [exact Ha|]. auto.
Qed.

Lemma sort_records_unique l k : l ≡ₚ k → StronglySorted lt k → sort_records l = k.
Proof.
  intros Hp Hk. apply (StronglySorted_unique le).
  - apply (StronglySorted_weaken (λ a b, Nat.compare a b ≠ Gt)).
    { intros a b. by rewrite Nat.compare_le_iff. }
    apply sort_by_sorted; [intros; apply Nat.compare_antisym|].
    intros x y z. rewrite !Nat.compare_le_iff. lia.
  - eapply StronglySorted_weaken; [|exact Hk]. intros. by apply Nat.lt_le_incl.
  - unfold sort_records. by rewrite sort_by_perm.
Qed.

Section matching.
Context (P : option (list byte) → Prop) `{!∀ e, Decision (P e)}.

Lemma matching_nil : matching P [] = [].
Proof. done. Qed.

Lemma matching_snoc l e :
  matching P (l ++ [e]) = matching P l ++ (if decide (P e) then [length l] else []).
Proof.
  unfold matching. rewrite imap_app, filter_app, fmap_app. f_equal. simpl.
  rewrite Nat.add_0_r. unfold filter. simpl. by destruct (decide (P e)).
Qed.

Lemma elem_of_matching l i : i ∈ matching P l ↔ ∃ e, l !! i = Some e ∧ P e.
Proof.
  unfold matching. rewrite list_elem_of_fmap. setoid_rewrite list_elem_of_filter.
  setoid_rewrite elem_of_lookup_imap. split.
  - intros ([i' e] & -> & HP & (j & x & [= -> ->] & Hl)). eauto.
  - intros (e & Hl & HP). exists (i, e). naive_solver.
Qed.

Lemma matching_sorted l : StronglySorted lt (matching P l).
Proof.
  induction l as [|e l IH] using rev_ind; [constructor|]. rewrite matching_snoc.
  destruct (decide (P e)) as [HP|HP]; [|by rewrite app_nil_r].
  assert (Hall : Forall (λ i, i < length l) (matching P l)).
  { apply Forall_forall. intros i (e' & Hl & _)%elem_of_matching. by eapply lookup_lt_Some. }
  revert IH Hall. generalize (matching P l) (length l). clear. intros k n.
  induction 1 as [|i k Hk IH Hi]; intros Hn; simpl; [repeat constructor|].
  apply Forall_cons in Hn as [Hin Hn]. constructor; [by apply IH|].
  apply Forall_app. split; [done|]. by repeat constructor.
Qed.

Lemma matching_NoDup l : NoDup (matching P l).
Proof.
  pose proof (matching_sorted l) as Hs. induction Hs as [|i k _ IH Hi]; constructor; [|done].
  rewrite Forall_forall in Hi. intros Hin. specialize (Hi i Hin). lia.
Qed.
End matching.

(** The records with a given encoded reading. *)
Definition holding (encoded : list (option (list byte))) (path : list byte) : list nat :=
  matching (λ e, e = Some path) encoded.

Lemma elem_of_holding encoded p i : i ∈ holding encoded p ↔ encoded !! i = Some (Some p).
Proof. unfold holding. rewrite elem_of_matching. naive_solver. Qed.

Lemma NoDup_holding encoded ps : NoDup ps → NoDup (ps ≫= holding encoded).
Proof.
  intros Hps. apply NoDup_bind; [|intros p _; apply matching_NoDup|done].
  intros p q i _ _ Hp%elem_of_holding Hq%elem_of_holding. by simplify_eq.
Qed.

(** What is collected along distinct paths, sorted, is a search of the list. *)
Lemma collect_matching encoded ps l (P : option (list byte) → Prop) `{!∀ e, Decision (P e)} :
  l ≡ₚ ps ≫= holding encoded →
  NoDup ps → ¬ P None → (∀ p, Some p ∈ encoded → P (Some p) ↔ p ∈ ps) →
  sort_records l = matching P encoded.
Proof.
  intros Hl Hps HN HP. apply sort_records_unique; [|apply matching_sorted].
  rewrite Hl. apply NoDup_Permutation; [by apply NoDup_holding|apply matching_NoDup|].
  intros i. rewrite list_elem_of_bind, elem_of_matching. split.
  - intros (p & Hi%elem_of_holding & Hp). exists (Some p). split; [done|].
    apply HP; [by eapply list_elem_of_lookup_2|done].
  - intros ([p|] & Hi & HPp); [|done]. exists p. rewrite elem_of_holding. split; [done|].
    apply HP; [by eapply list_elem_of_lookup_2|done].
Qed.

(** ** The invariant of the trie

    [paths] gives the path to each node, [held] the records at each path. *)
Record trie_inv (held : list byte → list nat) (paths : list (list byte)) (nodes : MemoryTrie) : Prop := {
  inv_length : length paths = length nodes;
  inv_root : paths !! 0 = Some [];
  inv_NoDup : NoDup paths;
  inv_node n p nd : paths !! n = Some p → nodes !! n = Some nd →
    BTree.ordered (children nd) ∧ records nd = held p ∧
    ∀ c m, BTree.get c (children nd) = Some m ↔ paths !! m = Some (p ++ [c]);
  inv_parent m p c : paths !! m = Some (p ++ [c]) → ∃ n, n < m ∧ paths !! n = Some p;
  inv_absent p : p ∉ paths → held p = [];
}.

Lemma empty_trie_inv : trie_inv (λ _, []) [[]] empty_trie.
Proof.
  constructor; try done.
  - repeat constructor; set_solver.
  - intros [|n] p nd Hp Hnd; [|done]. simpl in Hp, Hnd. simplify_eq. simpl. split_and!; [constructor|done|].
    intros c m. split; [done|]. destruct m as [|[|m]]; intros [=].
  - intros m p c. destruct m as [|m]; simpl; [|done]. intros [= Hp]. by destruct p.
Qed.

Section trie.
Context (held : list byte → list nat) (paths : list (list byte)) (nodes : MemoryTrie).
Context (Hinv : trie_inv held paths nodes).

Lemma inv_lookup n p : paths !! n = Some p → ∃ nd, nodes !! n = Some nd.
Proof using Hinv.
  intros Hp. apply lookup_lt_is_Some. rewrite <- (inv_length _ _ _ Hinv). eauto using lookup_lt_Some.
Qed.

Lemma inv_prefix_closed p q : p ++ q ∈ paths → p ∈ paths.
Proof using Hinv.
  induction q as [|c q IH] using rev_ind; [by rewrite app_nil_r|].
  rewrite app_assoc. intros [m Hm]%list_elem_of_lookup. apply IH.
  destruct (inv_parent _ _ _ Hinv m _ _ Hm) as (n & _ & Hn). by eapply list_elem_of_lookup_2.
Qed.

(** The paths that a walk along [ids] from [p] passes. *)
Definition passed (p ids : list byte) : list (list byte) := (λ k, p ++ take k ids) <$> seq 1 (length ids).

Lemma passed_cons p c ids : passed p (c :: ids) = (p ++ [c]) :: passed (p ++ [c]) ids.
Proof.
  unfold passed. simpl. f_equal. rewrite <- (fmap_S_seq 1), <- list_fmap_compose.
  apply list_fmap_ext. intros _ k _. simpl. by rewrite <- app_assoc.
Qed.

Lemma passed_absent p ids : p ∉ paths → passed p ids ≫= held = [].
Proof using Hinv.
  intros Hp. unfold passed. induction (seq 1 (length ids)) as [|k ks IH]; [done|]. csimpl.
  rewrite IH, app_nil_r. apply (inv_absent _ _ _ Hinv). intros Hk. by apply inv_prefix_closed in Hk.
Qed.
(** What a walk collects: the records it passes, for [Prefixes]. *)
Definition collected (kind : MatchKind) (p ids : list byte) : list nat :=
  match kind with Prefixes => passed p ids ≫= held | _ => [] end.

Lemma collected_cons kind p c ids :
  collected kind p (c :: ids) =
    (if decide (kind = Prefixes) then held (p ++ [c]) else []) ++ collected kind (p ++ [c]) ids.
Proof. destruct kind; [done| |done]. unfold collected. by rewrite passed_cons. Qed.

Lemma walk_spec kind ids n p acc :
  paths !! n = Some p →
  ∃ e, walk nodes kind n acc ids = Some (e, acc ++ collected kind p ids) ∧
    ∀ m, e = Some m ↔ paths !! m = Some (p ++ ids).
Proof using Hinv.
  revert n p acc. induction ids as [|c ids IH]; intros n p acc Hp; cbn [walk].
  { exists (Some n). rewrite !app_nil_r. split; [by destruct kind; rewrite ?app_nil_r|].
    intros m. split; [by intros [= ->]|]. intros Hm. f_equal.
    by apply (NoDup_lookup paths n m p); [apply (inv_NoDup _ _ _ Hinv)|..]. }
  destruct (inv_lookup n p Hp) as [nd Hnd]. rewrite Hnd. cbn [mbind option_bind].
  destruct (inv_node _ _ _ Hinv n p nd Hp Hnd) as (_ & _ & Hch).
  rewrite collected_cons. replace (p ++ c :: ids) with ((p ++ [c]) ++ ids) by (by rewrite <- app_assoc).
  destruct (BTree.get c (children nd)) as [child|] eqn:Hget.
  - apply Hch in Hget. destruct (inv_lookup child _ Hget) as [cd Hcd].
    destruct (inv_node _ _ _ Hinv _ _ _ Hget Hcd) as (_ & Hrec & _).
    destruct kind; [|rewrite Hcd; cbn [mbind option_bind]; rewrite Hrec|].
    all: match goal with |- context [walk _ _ _ ?a _] =>
           destruct (IH child (p ++ [c]) a Hget) as (e & -> & Hm) end.
    all: exists e; split; [|done]; simpl; by rewrite ?app_assoc.
  - assert (Habs : p ++ [c] ∉ paths).
    { intros [m Hm]%list_elem_of_lookup. apply Hch in Hm. congruence. }
    exists None. split.
    + do 2 f_equal. rewrite (inv_absent _ _ _ Hinv) by done.
      unfold collected. rewrite passed_absent by done. by destruct kind; rewrite app_nil_r.
    + intros m. split; [done|]. intros Hm. destruct Habs. eapply inv_prefix_closed.
      by eapply list_elem_of_lookup_2.
Qed.
End trie.

(** ** Insertion keeps the invariant *)

Section insert.
Context (held : list byte → list nat).

(** A missing child is a new node at the end. *)
Lemma inv_extend paths nodes n p c cur :
  trie_inv held paths nodes → paths !! n = Some p → nodes !! n = Some cur →
  BTree.get c (children cur) = None →
  trie_inv held (paths ++ [p ++ [c]])
    (<[n := {| children := BTree.insert c (length nodes) (children cur); records := records cur |}]>
       (nodes ++ [default_node])).
Proof.
  intros Hinv Hp Hcur Hget. pose proof (inv_length _ _ _ Hinv) as Hlen.
  destruct (inv_node _ _ _ Hinv n p cur Hp Hcur) as (Hord & Hrec & Hch).
  assert (Habs : p ++ [c] ∉ paths).
  { intros [m Hm]%list_elem_of_lookup. apply Hch in Hm. congruence. }
  assert (Hn : n < length nodes) by (by eapply lookup_lt_Some).
  constructor.
  - rewrite length_insert, !length_app. simpl. lia.
  - rewrite lookup_app_l; [apply (inv_root _ _ _ Hinv)|lia].
  - apply NoDup_app. split_and!; [apply (inv_NoDup _ _ _ Hinv)|set_solver|apply NoDup_singleton].
  - intros k q nd Hq Hnd. setoid_rewrite lookup_snoc_Some.
    apply lookup_snoc_Some in Hq as [[Hk Hq]|[-> <-]].
    + destruct (decide (k = n)) as [->|Hkn].
      * rewrite list_lookup_insert_eq in Hnd by (rewrite length_app; lia). simplify_eq. simpl.
        split_and!; [by apply BTree.insert_ordered|done|]. intros c' m. rewrite BTree.get_insert.
        destruct (N.eqb_spec c' c) as [->|Hc].
        -- split; [intros [= <-]; right; by rewrite Hlen|].
           intros [[_ Hm]|[-> _]]; [|by rewrite Hlen].
           destruct Habs. by eapply list_elem_of_lookup_2.
        -- rewrite Hch. split; [intros Hm; left; split; [by eapply lookup_lt_Some|done]|].
           intros [[_ ?]|[_ [_ [= ]]%app_inj_tail]]; [done|congruence].
      * rewrite list_lookup_insert_ne, lookup_app_l in Hnd by lia.
        destruct (inv_node _ _ _ Hinv k q nd Hq Hnd) as (? & ? & Hchk). split_and!; [done..|].
        intros c' m. rewrite Hchk. split; [intros Hm; left; split; [by eapply lookup_lt_Some|done]|].
        intros [[_ ?]|[_ [<- _]%app_inj_tail]]; [done|]. destruct Hkn.
        by apply (NoDup_lookup paths k n p); [apply (inv_NoDup _ _ _ Hinv)|..].
    + rewrite list_lookup_insert_ne, Hlen, lookup_app_r, Nat.sub_diag in Hnd by lia.
      simpl in Hnd. simplify_eq. simpl. split_and!; [constructor|by rewrite (inv_absent _ _ _ Hinv)|].
      intros c' m. split; [done|]. intros [[_ Hm]|[_ E%(f_equal length)]].
      * destruct (inv_parent _ _ _ Hinv _ _ _ Hm) as (k & _ & Hk).
        destruct Habs. by eapply list_elem_of_lookup_2.
      * rewrite !length_app in E. simpl in E. lia.
  - intros m q c'. rewrite lookup_snoc_Some. intros [[Hm Hq]|[-> [<- <-]%app_inj_tail]].
    + destruct (inv_parent _ _ _ Hinv _ _ _ Hq) as (k & Hk & Hkq). exists k. split; [done|].
      rewrite lookup_app_l; [done|lia].
    + exists n. split; [by eapply lookup_lt_Some|]. rewrite lookup_app_l; [done|lia].
  - intros q Hq. apply (inv_absent _ _ _ Hinv). set_solver.
Qed.

Lemma insert_step_spec paths nodes n p c :
  trie_inv held paths nodes → paths !! n = Some p →
  ∃ nodes' m paths', insert_step (nodes, n) c = Some (nodes', m) ∧ trie_inv held paths' nodes' ∧
    paths' !! m = Some (p ++ [c]) ∧ ∀ q, q ∈ paths' → q ∈ paths ∨ q = p ++ [c].
Proof.
  intros Hinv Hp. destruct (inv_lookup _ _ _ Hinv n p Hp) as [cur Hcur].
  unfold insert_step. rewrite Hcur. cbn [mbind option_bind].
  destruct (inv_node _ _ _ Hinv n p cur Hp Hcur) as (_ & _ & Hch).
  destruct (BTree.get c (children cur)) as [m|] eqn:Hget.
  - exists nodes, m, paths. apply Hch in Hget. split_and!; auto.
  - exists (<[n:={| children := BTree.insert c (length nodes) (children cur); records := records cur |}]>
       (nodes ++ [default_node])), (length nodes), (paths ++ [p ++ [c]]).
    split_and!; [done|by apply inv_extend| |set_solver].
    rewrite <- (inv_length _ _ _ Hinv), lookup_app_r, Nat.sub_diag by lia. done.
Qed.

Lemma insert_walk_spec ids paths nodes n p :
  trie_inv held paths nodes → paths !! n = Some p →
  ∃ nodes' m paths', foldl (λ st id, st ← st; insert_step st id) (Some (nodes, n)) ids = Some (nodes', m) ∧
    trie_inv held paths' nodes' ∧ paths' !! m = Some (p ++ ids) ∧
    ∀ q, q ∈ paths' → q ∈ paths ∨ q `prefix_of` p ++ ids.
Proof.
  revert paths nodes n p. induction ids as [|c ids IH]; intros paths nodes n p Hinv Hp.
  { exists nodes, n, paths. rewrite app_nil_r. split_and!; auto. }
  cbn [foldl]. change (x ← Some (nodes, n); insert_step x c) with (insert_step (nodes, n) c).
  destruct (insert_step_spec paths nodes n p c Hinv Hp) as (nodes1 & m1 & paths1 & -> & Hinv1 & Hm1 & Hq1).
  destruct (IH paths1 nodes1 m1 (p ++ [c]) Hinv1 Hm1) as (nodes' & m & paths' & Hf & Hinv' & Hm & Hq).
  rewrite <- app_assoc in Hm, Hq. exists nodes', m, paths'. split_and!; [done..|].
  intros q [Hq'| Hq']%Hq; [|by right]. apply Hq1 in Hq' as [?| ->]; [by left|].
  right. exists ids. by rewrite <- app_assoc.
Qed.

Lemma inv_hold paths nodes n ids r cur :
  trie_inv held paths nodes → paths !! n = Some ids → nodes !! n = Some cur →
  trie_inv (λ q, held q ++ (if decide (q = ids) then [r] else [])) paths
    (<[n := {| children := children cur; records := records cur ++ [r] |}]> nodes).
Proof.
  intros Hinv Hn Hcur. assert (Hlt : n < length nodes) by (by eapply lookup_lt_Some). constructor.
  - rewrite length_insert. apply (inv_length _ _ _ Hinv).
  - apply (inv_root _ _ _ Hinv).
  - apply (inv_NoDup _ _ _ Hinv).
  - intros k q nd Hq Hnd. destruct (decide (k = n)) as [->|Hkn].
    + rewrite list_lookup_insert_eq in Hnd by done. simplify_eq. simpl.
      destruct (inv_node _ _ _ Hinv _ _ _ Hn Hcur) as (? & -> & ?). by rewrite decide_True.
    + rewrite list_lookup_insert_ne in Hnd by done.
      destruct (inv_node _ _ _ Hinv _ _ _ Hq Hnd) as (? & -> & ?). split_and!; [done| |done].
      rewrite decide_False; [by rewrite app_nil_r|]. intros ->. destruct Hkn.
      by apply (NoDup_lookup paths k n ids); [apply (inv_NoDup _ _ _ Hinv)|..].
  - apply (inv_parent _ _ _ Hinv).
  - intros q Hq. rewrite (inv_absent _ _ _ Hinv) by done. rewrite decide_False; [done|].
    intros ->. destruct Hq. by eapply list_elem_of_lookup_2.
Qed.

Lemma insert_spec paths nodes ids r :
  trie_inv held paths nodes →
  ∃ nodes' paths', insert nodes ids r = Some nodes' ∧
    trie_inv (λ q, held q ++ (if decide (q = ids) then [r] else [])) paths' nodes' ∧
    ∀ q, q ∈ paths' → q ∈ paths ∨ q `prefix_of` ids.
Proof.
  intros Hinv. unfold insert.
  destruct (insert_walk_spec ids paths nodes 0 [] Hinv (inv_root _ _ _ Hinv))
    as (nodes' & m & paths' & -> & Hinv' & Hm & Hq). cbn [mbind option_bind].
  destruct (inv_lookup _ _ _ Hinv' m _ Hm) as [cur Hcur]. rewrite Hcur. cbn [mbind option_bind].
  eexists _, paths'. split_and!; [done|by apply inv_hold|done].
Qed.
End insert.

(** The invariant does not depend on how the records are computed. *)
Lemma trie_inv_ext held held' paths nodes :
  (∀ q, held q = held' q) → trie_inv held paths nodes → trie_inv held' paths nodes.
Proof.
  intros Hext [? ? ? Hnode ? Habs]. constructor; try done.
  - intros n p nd Hp Hnd. rewrite <- Hext. by apply (Hnode n p).
  - intros p Hp. rewrite <- Hext. by apply Habs.
Qed.

(** [MemoryTrie::new] builds the trie of the readings. *)
Lemma trie_new_spec encoded :
  ∃ nodes paths, trie_new encoded = Some nodes ∧ trie_inv (holding encoded) paths nodes ∧
    ∀ q, q ∈ paths → q = [] ∨ ∃ e, Some e ∈ encoded ∧ q `prefix_of` e.
Proof.
  unfold trie_new. induction encoded as [|e encoded IH] using rev_ind.
  { exists empty_trie, [[]]. split_and!; [done|apply empty_trie_inv|]. set_solver. }
  destruct IH as (nodes & paths & Hnew & Hinv & Hpaths).
  rewrite imap_app, foldl_app, Hnew. simpl. rewrite Nat.add_0_r. unfold new_step. simpl.
  assert (Hin : ∀ q, q ∈ paths → q = [] ∨ ∃ e', Some e' ∈ encoded ++ [e] ∧ q `prefix_of` e').
  { intros q [->|(e' & He' & Hq)]%Hpaths; [by left|]. right. exists e'. set_solver. }
  destruct e as [ids|]; cbn [mbind option_bind].
  - destruct (insert_spec _ paths nodes ids (length encoded) Hinv)
      as (nodes' & paths' & -> & Hinv' & Hq). exists nodes', paths'. split_and!; [done| |].
    + eapply trie_inv_ext; [|exact Hinv']. intros q. unfold holding. rewrite matching_snoc.
      f_equal. by destruct (decide (q = ids)), (decide (Some ids = Some q)); simplify_eq.
    + intros q [?| ?]%Hq; [auto|]. right. exists ids. set_solver.
  - exists nodes, paths. split_and!; [done| |done]. eapply trie_inv_ext; [|exact Hinv].
    intros q. unfold holding. rewrite matching_snoc, decide_False by done. by rewrite app_nil_r.
Qed.

(** ** The trie finds the matching records *)

Section search.
Context (held : list byte → list nat) (paths : list (list byte)) (nodes : MemoryTrie).
Context (Hinv : trie_inv held paths nodes).

(** The paths at and below [p]. *)
Definition subtree (p : list byte) : list (list byte) := filter (λ q, p `prefix_of` q) paths.

Lemma elem_of_subtree p q : q ∈ subtree p ↔ p `prefix_of` q ∧ q ∈ paths.
Proof. apply list_elem_of_filter. Qed.

(** The paths of the children of a node. *)
Definition child_paths (p : list byte) (nd : TrieNode) : list (list byte) :=
  (λ c, p ++ [c]) <$> (children nd).*1.

Lemma child_paths_spec n p nd :
  paths !! n = Some p → nodes !! n = Some nd →
  Forall2 (λ m q, paths !! m = Some q) (children nd).*2 (child_paths p nd).
Proof using Hinv.
  intros Hp Hnd. destruct (inv_node _ _ _ Hinv n p nd Hp Hnd) as (Hord & _ & Hch).
  unfold child_paths. rewrite <- list_fmap_compose. apply Forall2_fmap, Forall_Forall2_diag.
  apply Forall_forall. intros [c m] Hm. simpl. by apply Hch, BTree.elem_of_get.
Qed.

Lemma elem_of_child_paths n p nd q :
  paths !! n = Some p → nodes !! n = Some nd →
  q ∈ child_paths p nd ↔ q ∈ paths ∧ ∃ c, q = p ++ [c].
Proof using Hinv.
  intros Hp Hnd. destruct (inv_node _ _ _ Hinv n p nd Hp Hnd) as (Hord & _ & Hch).
  unfold child_paths. rewrite list_elem_of_fmap. split.
  - intros (c & -> & ([c' m] & -> & Hm)%list_elem_of_fmap). split; [|by eexists].
    apply (list_elem_of_lookup_2 _ m), Hch. by apply BTree.elem_of_get.
  - intros [[m Hm]%list_elem_of_lookup [c ->]]. exists c. split; [done|].
    apply list_elem_of_fmap. exists (c, m). split; [done|]. apply BTree.elem_of_get; [done|]. by apply Hch.
Qed.

Lemma NoDup_child_paths n p nd :
  paths !! n = Some p → nodes !! n = Some nd → NoDup (child_paths p nd).
Proof using Hinv.
  intros Hp Hnd. destruct (inv_node _ _ _ Hinv n p nd Hp Hnd) as (Hord & _ & _).
  apply NoDup_fmap_2; [|by apply BTree.ordered_NoDup].
  by intros c c' [_ [= ->]]%app_inj_tail.
Qed.

(** Extensions of different children are different. *)
Lemma extends_snoc_inj (p : list byte) c c' q :
  p ++ [c] `prefix_of` q → p ++ [c'] `prefix_of` q → c = c'.
Proof using.
  intros [k ->] [k' E]. rewrite <- !app_assoc in E. apply app_inv_head in E. by injection E.
Qed.

Lemma strict_extension (p q : list byte) :
  p `prefix_of` q → q = p ∨ ∃ c, p ++ [c] `prefix_of` q.
Proof using.
  intros [[|c k] ->]; [left; by rewrite app_nil_r|right]. exists c, k. by rewrite <- app_assoc.
Qed.

Lemma subtree_unfold n p nd :
  paths !! n = Some p → nodes !! n = Some nd →
  subtree p ≡ₚ p :: (child_paths p nd ≫= subtree).
Proof using Hinv.
  intros Hp Hnd. pose proof (inv_NoDup _ _ _ Hinv) as HNd. apply NoDup_Permutation.
  - by apply NoDup_filter.
  - constructor.
    + rewrite list_elem_of_bind. intros (q & [Hpq _]%elem_of_subtree & Hq).
      eapply elem_of_child_paths in Hq as [_ [c ->]]; [|done..]. by apply prefix_snoc_not in Hpq.
    + apply NoDup_bind; [|intros q _; by apply NoDup_filter|by eapply NoDup_child_paths].
      intros q1 q2 r Hq1 Hq2 [H1 _]%elem_of_subtree [H2 _]%elem_of_subtree.
      eapply elem_of_child_paths in Hq1 as [_ [c1 ->]]; [|done..].
      eapply elem_of_child_paths in Hq2 as [_ [c2 ->]]; [|done..].
      by rewrite (extends_snoc_inj p c1 c2 r).
  - intros q. rewrite elem_of_cons, elem_of_subtree, list_elem_of_bind. split.
    + intros [Hpq Hq]. destruct (strict_extension p q Hpq) as [->|[c Hc]]; [by left|right].
      exists (p ++ [c]). rewrite elem_of_subtree. split; [done|].
      eapply elem_of_child_paths; [done..|]. split; [|by eexists].
      destruct Hc as [k ->]. by eapply inv_prefix_closed.
    + intros [->|(q' & [Hq' Hq]%elem_of_subtree & Hch)].
      { split; [done|by eapply list_elem_of_lookup_2]. }
      split; [|done]. eapply elem_of_child_paths in Hch as [_ [c ->]]; [|done..].
      etrans; [|exact Hq']. by apply prefix_app_r.
Qed.

Lemma pending_loop_spec fuel pending ps acc :
  Forall2 (λ n p, paths !! n = Some p) pending ps → length (ps ≫= subtree) ≤ fuel →
  ∃ out, pending_loop fuel nodes pending acc = Some out ∧
    out ≡ₚ acc ++ ((ps ≫= subtree) ≫= held).
Proof using Hinv.
  revert pending ps acc. induction fuel as [|fuel IH]; intros pending ps acc Hps Hfuel;
    destruct Hps as [|n p pending ps Hp Hps]; cbn [pending_loop];
    try (exists acc; by rewrite app_nil_r).
  all: destruct (inv_lookup _ _ _ Hinv n p Hp) as [nd Hnd].
  all: pose proof (subtree_unfold n p nd Hp Hnd) as Hsub.
  - revert Hfuel. csimpl. rewrite Hsub. simpl. lia.
  - rewrite Hnd. cbn [mbind option_bind].
    destruct (inv_node _ _ _ Hinv n p nd Hp Hnd) as (_ & Hrec & _).
    destruct (IH (reverse (children nd).*2 ++ pending) (reverse (child_paths p nd) ++ ps)
      (acc ++ records nd)) as (out & -> & Hout).
    + apply Forall2_app; [|done]. by apply Forall2_reverse, (child_paths_spec n).
    + revert Hfuel. csimpl. rewrite Hsub, !bind_app, !length_app, reverse_Permutation. simpl. lia.
    + exists out. split; [done|]. rewrite Hout, Hrec. csimpl.
      rewrite Hsub, <- app_assoc. csimpl. by rewrite bind_app, reverse_Permutation.
Qed.
End search.

Lemma elem_of_passed ids q : q ∈ passed [] ids ↔ q ≠ [] ∧ q `prefix_of` ids.
Proof.
  unfold passed. rewrite list_elem_of_fmap. setoid_rewrite elem_of_seq. split.
  - intros (k & -> & Hk). split; [|apply prefix_take]. simpl.
    intros E%(f_equal length). rewrite length_take in E. simpl in E. lia.
  - intros [Hq [k ->]]. exists (length q). simpl. rewrite take_app_length. split; [done|].
    rewrite length_app. destruct q; simpl; [done|lia].
Qed.

Lemma NoDup_passed ids : NoDup (passed [] ids).
Proof.
  unfold passed. apply NoDup_fmap_2_strong; [|apply NoDup_seq].
  intros k k' Hk%elem_of_seq Hk'%elem_of_seq E%(f_equal length).
  simpl in E. rewrite !length_take in E. lia.
Qed.

(** The results of the three kinds of lookup from what they collect. *)
Lemma exact_matching encoded ids :
  sort_records (holding encoded ids) = matching (matches_kind Exact ids) encoded.
Proof.
  apply (collect_matching encoded [ids]); [|apply NoDup_singleton|by intros []|].
  - csimpl. by rewrite app_nil_r.
  - intros p _. simpl. set_solver.
Qed.

Lemma prefixes_matching encoded ids :
  sort_records (passed [] ids ≫= holding encoded) = matching (matches_kind Prefixes ids) encoded.
Proof.
  apply (collect_matching encoded (passed [] ids)); [done|apply NoDup_passed|by intros []|].
  intros p _. simpl. by rewrite elem_of_passed.
Qed.

Section built.
Context (encoded : list (option (list byte))) (paths : list (list byte)) (nodes : MemoryTrie).
Context (Hinv : trie_inv (holding encoded) paths nodes).

Lemma encoded_in_paths p : Some p ∈ encoded → p ∈ paths.
Proof using Hinv.
  intros [i Hi]%list_elem_of_lookup. destruct (decide (p ∈ paths)) as [|Hp]; [done|].
  apply (inv_absent _ _ _ Hinv) in Hp. apply elem_of_holding in Hi. rewrite Hp in Hi. set_solver.
Qed.

(** A path that is not in the trie has no record below it. *)
Lemma no_match ids (P : option (list byte) → Prop) `{!∀ e, Decision (P e)} :
  ids ∉ paths → ¬ P None → (∀ e, P (Some e) → ids `prefix_of` e) → [] = matching P encoded.
Proof using Hinv.
  intros Hids HN HP. apply (collect_matching encoded [] []); [done|constructor|done|].
  intros p Hp%encoded_in_paths. split; [|set_solver]. intros [k ->]%HP.
  destruct Hids. by eapply inv_prefix_closed.
Qed.

Lemma completions_matching ids l :
  l ≡ₚ subtree paths ids ≫= holding encoded →
  sort_records l = matching (matches_kind Completions ids) encoded.
Proof using Hinv.
  intros Hl. apply (collect_matching _ _ _ _ Hl).
  - apply NoDup_filter, (inv_NoDup _ _ _ Hinv).
  - by intros [].
  - intros p Hp%encoded_in_paths. simpl. rewrite elem_of_subtree. naive_solver.
Qed.
End built.

(** A lookup in the trie implements the specification, and does not panic. *)
Lemma trie_implements encoded :
  ∃ t, trie_new encoded = Some t ∧
    ∀ ids kind, trie_lookup t ids kind = Some (spec_lookup encoded ids kind).
Proof.
  destruct (trie_new_spec encoded) as (nodes & paths & -> & Hinv & _).
  exists nodes. split; [done|]. intros ids kind. unfold trie_lookup, spec_lookup.
  destruct (walk_spec _ _ _ Hinv kind ids 0 [] [] (inv_root _ _ _ Hinv)) as (e & -> & He).
  cbn [mbind option_bind]. simpl in He. destruct e as [n|].
  - assert (Hn : paths !! n = Some ids) by (by apply He).
    destruct (inv_lookup _ _ _ Hinv n ids Hn) as [nd Hnd].
    destruct (inv_node _ _ _ Hinv n ids nd Hn Hnd) as (_ & Hrec & _).
    destruct kind; simpl.
    + rewrite Hnd. simpl. by rewrite Hrec, exact_matching.
    + by rewrite prefixes_matching.
    + destruct (pending_loop_spec _ _ _ Hinv (length nodes) [n] [ids] []) as (out & -> & Hout).
      * by repeat constructor.
      * rewrite <- (inv_length _ _ _ Hinv). csimpl. rewrite app_nil_r. apply length_filter.
      * simpl. f_equal. eapply completions_matching; [done|]. by rewrite Hout; csimpl; rewrite app_nil_r.
  - assert (Hids : ids ∉ paths).
    { intros [m Hm]%list_elem_of_lookup. by apply He in Hm. }
    destruct kind; simpl.
    + rewrite <- exact_matching. by rewrite (inv_absent _ _ _ Hinv).
    + by rewrite prefixes_matching.
    + f_equal. apply (no_match _ _ _ Hinv ids); [done|by intros []|by intros e].
Qed.
