(* ===== verification/MemoryLoudsSpec.v ===== *)
(** * The LOUDS form of the learning index

    Parsing the bits that the learning trie writes gives back the tree: the
    children of a LOUDS node are the children of the trie node it stands for. So a
    lookup in the persisted index finds the records the specification names. *)

From S2P Require Import Prelude Unicode Collections Louds MemoryIndex MemoryIndexSpec.

(** ** The bits of a word *)

(** The word has the bits of the chunk, most significant first, then ones. *)
Definition padded (chunk : list bool) : list bool := chunk ++ replicate (64 - length chunk) true.

Lemma testbit_lor_step w i k :
  N.testbit (N.lor w (N.shiftl 1 i)) k = N.testbit w k || (k =? i)%N.
Proof.
  rewrite N.lor_spec, N.shiftl_1_l, N.pow2_bits_eqb. by rewrite N.eqb_sym.
Qed.

Lemma testbit_chunk_loop chunk start w k :
  N.testbit (foldl (λ word p, if p.2 : bool then N.lor word (N.shiftl 1 (63 - N.of_nat p.1)) else word)
               w (imap (λ i, pair (start + i)) chunk)) k =
  N.testbit w k || existsb (λ p, p.2 && (k =? 63 - N.of_nat p.1)%N) (imap (λ i, pair (start + i)) chunk).
Proof.
  revert start w. induction chunk as [|b chunk IH]; intros start w; cbn -[N.sub]; [by rewrite orb_false_r|].
  rewrite (imap_ext _ (λ i, pair (S start + i))) by (intros; simpl; f_equal; lia).
  rewrite IH. destruct b; [|done]. by rewrite testbit_lor_step, orb_assoc.
Qed.

Lemma testbit_pad_loop ks w k :
  N.testbit (foldl (λ word index, N.lor word (N.shiftl 1 (63 - N.of_nat index))) w ks) k =
  N.testbit w k || existsb (λ i, (k =? 63 - N.of_nat i)%N) ks.
Proof.
  revert w. induction ks as [|i ks IH]; intros w; cbn -[N.sub]; [by rewrite orb_false_r|].
  by rewrite IH, testbit_lor_step, orb_assoc.
Qed.

Lemma word_testbit_true chunk k :
  length chunk ≤ 64 →
  N.testbit (word_of_bits chunk) k = true ↔
    ∃ i, i < 64 ∧ k = (63 - N.of_nat i)%N ∧ default true (chunk !! i) = true.
Proof.
  intros Hlen. unfold word_of_bits. rewrite testbit_pad_loop.
  change (imap pair chunk) with (imap (λ i, pair (0 + i)) chunk).
  rewrite testbit_chunk_loop, N.bits_0, orb_true_iff. cbn [orb].
  rewrite !existsb_exists. setoid_rewrite <- list_elem_of_In.
  setoid_rewrite elem_of_lookup_imap. setoid_rewrite elem_of_seq. split.
  - intros [(p & (i & b & -> & Hi) & [Hb Hk%N.eqb_eq]%andb_true_iff)|(i & Hi & Hk%N.eqb_eq)];
      exists i; simpl in *.
    + rewrite Hi. split_and!; [|done..]. apply lookup_lt_Some in Hi. lia.
    + rewrite lookup_ge_None_2 by lia. split_and!; [lia|done..].
  - intros (i & Hi & -> & Hb). destruct (chunk !! i) as [b|] eqn:Hci; simpl in Hb.
    + left. exists (i, b). split; [eauto|]. simpl. by rewrite Hb, N.eqb_refl.
    + right. apply lookup_ge_None in Hci. exists i. rewrite N.eqb_refl. split; [lia|done].
Qed.

Lemma word_testbit chunk i :
  length chunk ≤ 64 → i < 64 →
  N.testbit (word_of_bits chunk) (63 - N.of_nat i) = default true (chunk !! i).
Proof.
  intros Hlen Hi. apply eq_true_iff_eq. rewrite word_testbit_true by done. split.
  - intros (j & Hj & E & Hb). by replace i with j by lia.
  - eauto.
Qed.

Lemma word_bound chunk : length chunk ≤ 64 → (word_of_bits chunk < 256 ^ 8)%N.
Proof.
  intros Hlen. destruct (N.eq_dec (word_of_bits chunk) 0) as [->|Hne]; [done|].
  change (256 ^ 8)%N with (2 ^ 64)%N. apply N.log2_lt_pow2; [lia|].
  pose proof (N.bit_log2 _ Hne) as Hb. apply word_testbit_true in Hb as (i & ? & -> & _); [lia|done].
Qed.

(** Reading the bits of the word back gives the padded chunk. *)
Lemma word_bits chunk :
  length chunk ≤ 64 → N.testbit (word_of_bits chunk) <$> word_shifts = padded chunk.
Proof.
  intros Hlen. apply list_eq_same_length with 64.
  { unfold padded. rewrite length_app, length_replicate. lia. }
  { done. }
  intros i x y Hi Hx Hy. rewrite list_lookup_fmap in Hx.
  assert (Hs : word_shifts !! i = Some (63 - N.of_nat i)%N).
  { unfold word_shifts. rewrite reverse_lookup by (simpl; lia). rewrite length_fmap, length_seq.
    rewrite list_lookup_fmap, lookup_seq_lt by lia. simpl. f_equal. lia. }
  rewrite Hs in Hx. simpl in Hx. injection Hx as <-. rewrite word_testbit by done.
  unfold padded in Hy. destruct (chunk !! i) as [b|] eqn:Hb.
  - rewrite (lookup_app_l_Some _ _ _ _ Hb) in Hy. by simplify_eq.
  - apply lookup_ge_None in Hb. rewrite lookup_app_r in Hy by done.
    by apply lookup_replicate in Hy as [-> _].
Qed.

(** ** The positions of the zeros *)

Fixpoint zeros_at (position : nat) (bits : list bool) : list nat :=
  match bits with
  | [] => []
  | b :: bits => (if b then [] else [position]) ++ zeros_at (S position) bits
  end.

Lemma zeros_at_app pos a b : zeros_at pos (a ++ b) = zeros_at pos a ++ zeros_at (pos + length a) b.
Proof.
  revert pos. induction a as [|x a IH]; intros pos; simpl; [by rewrite Nat.add_0_r|].
  rewrite IH, <- app_assoc. do 3 f_equal. lia.
Qed.

Lemma zeros_at_ones pos n : zeros_at pos (replicate n true) = [].
Proof. revert pos. induction n; intros pos; simpl; auto. Qed.

Lemma scan_word_spec needed word shifts pos zs :
  length zs < needed →
  let r := scan_word needed word shifts pos zs in
  r.2 = zs ++ take (needed - length zs) (zeros_at pos (N.testbit word <$> shifts)) ∧
  (length r.2 < needed → r.1 = pos + length shifts).
Proof.
  revert pos zs. induction shifts as [|shift shifts IH]; intros pos zs Hzs; cbn [scan_word fmap list_fmap zeros_at].
  { simpl. rewrite take_nil, app_nil_r. split; [done|]. intros _. lia. }
  assert (Hb : (N.land word (N.shiftl 1 shift) =? 0)%N = negb (N.testbit word shift)).
  { apply eq_true_iff_eq. rewrite N.eqb_eq, negb_true_iff. rewrite N.shiftl_1_l. split.
    - intros E. rewrite <- (N.bits_0 shift), <- E, N.land_spec, N.pow2_bits_true. by rewrite andb_true_r.
    - intros E. apply N.bits_inj. intros i. rewrite N.land_spec, N.bits_0, N.pow2_bits_eqb.
      destruct (N.eqb_spec shift i) as [->|]; [by rewrite E|by rewrite andb_false_r]. }
  rewrite Hb. destruct (N.testbit word shift); simpl.
  - destruct (IH (S pos) zs Hzs) as [-> Hp]. split; [done|]. intros Hlt. rewrite Hp by done. lia.
  - case_decide as Hd; simpl.
    + rewrite length_app in Hd. simpl in Hd. replace (needed - length zs) with 1 by lia.
      simpl. rewrite take_0. split; [done|]. rewrite length_app. simpl. lia.
    + destruct (IH (S pos) (zs ++ [pos])) as [-> Hp].
      { rewrite length_app in *. simpl in *. lia. }
      split.
      * rewrite <- app_assoc. simpl. f_equal.
        replace (needed - length zs) with (S (needed - length (zs ++ [pos]))); [done|].
        rewrite length_app in *. simpl in *. lia.
      * intros Hlt. rewrite Hp by done. lia.
Qed.

Lemma scan_words_spec needed words pos zs :
  Forall (λ c, length c ≤ 64) words → length zs < needed →
  scan_words needed (to_le_bytes 8 ∘ word_of_bits <$> words) pos zs =
    zs ++ take (needed - length zs) (zeros_at pos (concat (padded <$> words))).
Proof.
  intros Hwords. revert pos zs.
  induction Hwords as [|chunk words Hchunk _ IH]; intros pos zs Hzs; cbn [fmap list_fmap scan_words concat].
  { simpl. by rewrite take_nil, app_nil_r. }
  rewrite zeros_at_app. unfold compose at 1.
  rewrite from_to_le_bytes by (by apply word_bound).
  destruct (scan_word_spec needed (word_of_bits chunk) word_shifts pos zs Hzs) as [H2 H1].
  destruct (scan_word _ _ _ _ _) as [pos' zs']. cbn [fst snd] in *.
  rewrite word_bits in H2 by done. set (z := zeros_at pos (padded chunk)) in *.
  assert (Hl : length zs' = length zs + (needed - length zs) `min` length z).
  { by rewrite H2, length_app, length_take. }
  case_decide as Hd.
  - rewrite take_app_le by lia. done.
  - rewrite IH by lia. rewrite H2, <- app_assoc. f_equal.
    rewrite H1 by lia. replace (length (padded chunk)) with (length word_shifts).
    2: { unfold padded. rewrite length_app, length_replicate. simpl. lia. }
    rewrite (take_ge z) by lia. rewrite take_app_ge by lia. do 2 f_equal.
    rewrite length_app. lia.
Qed.

(** ** Writing the words and reading them back *)

Lemma chunks_small {A} size (l : list A) : Forall (λ c, length c ≤ size) (chunks size l).
Proof.
  unfold chunks. generalize (length l) as fuel. intros fuel. revert l.
  induction fuel as [|fuel IH]; intros [|x l]; cbn [chunks_fuel]; constructor; [|done].
  rewrite length_take. lia.
Qed.

Lemma encode_louds_words bits :
  chunks_exact 8 (encode_louds bits) = to_le_bytes 8 ∘ word_of_bits <$> chunks 64 bits ∧
  length (encode_louds bits) `mod` 8 = 0.
Proof.
  assert (E : encode_louds bits = concat (to_le_bytes 8 ∘ word_of_bits <$> chunks 64 bits)).
  { unfold encode_louds. by rewrite bind_concat. }
  assert (Hall : Forall (λ c, length c = 8) (to_le_bytes 8 ∘ word_of_bits <$> chunks 64 bits)).
  { apply Forall_fmap, Forall_true. intros c. apply length_to_le_bytes. }
  rewrite E. split; [apply chunks_exact_concat; [lia|done]|].
  rewrite (length_concat_uniform 8 ltac:(lia) _ Hall). by rewrite Nat.Div0.mod_mul.
Qed.

Lemma padded_chunks bits :
  ∃ k, concat (padded <$> chunks 64 bits) = bits ++ replicate k true.
Proof.
  induction bits as [|bits Hne [k IH]] using (chunks_ind 64 ltac:(lia)); [by exists 0|].
  rewrite chunks_cons by (done || lia). cbn [fmap list_fmap concat].
  destruct (decide (length bits ≤ 64)) as [Hle|Hgt].
  - exists (64 - length bits). rewrite drop_ge, take_ge by lia. simpl. by rewrite app_nil_r.
  - exists k. rewrite IH. unfold padded. rewrite length_take, Nat.min_l, Nat.sub_diag by lia. simpl.
    rewrite app_nil_r, app_assoc. by rewrite take_drop.
Qed.

(** The zeros of what [encode_louds] writes. *)
Lemma scan_encoded bits needed :
  0 < needed → length (zeros_at 0 bits) = needed →
  scan_words needed (chunks_exact 8 (encode_louds bits)) 0 [] = zeros_at 0 bits.
Proof.
  intros Hpos Hz. rewrite (proj1 (encode_louds_words bits)).
  rewrite scan_words_spec by (apply chunks_small || done). simpl.
  destruct (padded_chunks bits) as [k ->].
  rewrite zeros_at_app, zeros_at_ones, app_nil_r, Nat.sub_0_r. by apply take_ge; lia.
Qed.

(** ** The level order *)

Section levels.
Context (held : list byte → list nat) (paths : list (list byte)) (nodes : MemoryTrie).
Context (Hinv : trie_inv held paths nodes).

(** The children and the records of the node an entry of the level order names. *)
Definition kids (p : byte * nat) : list (byte * nat) :=
  match nodes !! p.2 with Some nd => children nd | None => [] end.
Definition kept (p : byte * nat) : list nat :=
  match nodes !! p.2 with Some nd => records nd | None => [] end.
Definition node_bits (p : byte * nat) : list bool := replicate (length (kids p)) true ++ [false].

Lemma kids_deeper p q : p.2 < length nodes → q ∈ kids p → p.2 < q.2 < length nodes.
Proof using Hinv.
  destruct p as [c n], q as [c' m]. unfold kids. simpl. intros Hn.
  destruct (nodes !! n) as [nd|] eqn:Hnd; [|set_solver]. intros Hm.
  assert (Hp : is_Some (paths !! n)).
  { apply lookup_lt_is_Some. by rewrite (inv_length _ _ _ Hinv). }
  destruct Hp as [p Hp].
  destruct (inv_node _ _ _ Hinv n p nd Hp Hnd) as (Hord & _ & Hch).
  apply BTree.elem_of_get in Hm; [|done]. apply Hch in Hm. split.
  - destruct (inv_parent _ _ _ Hinv _ _ _ Hm) as (n' & Hlt & Hn').
    by rewrite (NoDup_lookup paths n n' p (inv_NoDup _ _ _ Hinv) Hp Hn').
  - rewrite <- (inv_length _ _ _ Hinv). by eapply lookup_lt_Some.
Qed.

Definition state_after (st : EncodeState) (l : list (byte * nat)) : EncodeState := {|
  enc_bits := enc_bits st ++ concat (node_bits <$> l);
  enc_characters := enc_characters st ++ l.*1;
  enc_blocks := enc_blocks st ++ (kept <$> l) |}.

Lemma level_spec l st next :
  (∀ p, p ∈ l → p.2 < length nodes) →
  foldl (λ st p, st ← st; level_step nodes st p) (Some (st, next)) l =
    Some (state_after st l, next ++ (l ≫= kids)).
Proof using.
  clear Hinv. revert st next. induction l as [|p l IH]; intros st next Hl.
  { unfold state_after. cbn. rewrite !app_nil_r. by destruct st. }
  destruct (lookup_lt_is_Some_2 nodes p.2) as [nd Hnd]; [apply Hl; set_solver|].
  assert (Hstep : level_step nodes (st, next) p = Some (state_after st [p], next ++ kids p)).
  { unfold level_step, state_after, node_bits, kept, kids, degree_bits. cbn. rewrite Hnd. cbn.
    by rewrite app_nil_r. }
  cbn [foldl]. change (x ← Some (st, next); level_step nodes x p) with (level_step nodes (st, next) p).
  rewrite Hstep, IH by set_solver. unfold state_after. cbn. by rewrite app_nil_r, <- !app_assoc.
Qed.

Lemma levels_spec fuel k st current :
  (∀ p, p ∈ current → k ≤ p.2 < length nodes) → length nodes ≤ k + fuel →
  ∃ order, levels fuel nodes st current = Some (state_after st order) ∧
    order = current ++ (order ≫= kids) ∧ ∀ p, p ∈ order → p.2 < length nodes.
Proof using Hinv.
  revert k st current. induction fuel as [|fuel IH]; intros k st current Hcur Hfuel;
    destruct current as [|p0 current]; cbn [levels];
    try (exists []; unfold state_after; cbn; rewrite !app_nil_r; split_and!; [by destruct st|done|set_solver]).
  - specialize (Hcur p0 ltac:(set_solver)). lia.
  - rewrite level_spec by (intros; by apply Hcur). cbn [mbind option_bind app].
    set (cur := p0 :: current) in *. change (list_bind _ _ kids cur) with (cur ≫= kids).
    change (p0 :: current ++ ?x) with (cur ++ x).
    destruct (IH (S k) (state_after st cur) (cur ≫= kids)) as (order & -> & Ho & Hb); [|lia|].
    + intros q (p & Hq & Hp)%list_elem_of_bind. specialize (Hcur p Hp).
      apply kids_deeper in Hq; lia.
    + exists (cur ++ order). split_and!.
      * unfold state_after. cbn [enc_bits enc_characters enc_blocks].
        by rewrite !fmap_app, concat_app, !app_assoc.
      * rewrite bind_app. by rewrite <- Ho.
      * intros p [Hp|Hp]%elem_of_app; [by apply Hcur|by apply Hb].
Qed.

(** The level order, root first: its tail is the children of its elements. *)
Lemma encode_spec :
  ∃ order, let full := (0%N, 0) :: order in
    encode nodes = Some {|
      louds_bytes := encode_louds ([true; false] ++ concat (node_bits <$> full));
      characters := [0; 0]%N ++ order.*1;
      blocks := [[]; []] ++ (kept <$> order) |} ∧
    order = full ≫= kids ∧ ∀ p, p ∈ full → p.2 < length nodes.
Proof using Hinv.
  destruct (inv_lookup _ _ _ Hinv 0 [] (inv_root _ _ _ Hinv)) as [root Hroot].
  assert (H0 : 0 < length nodes) by (by eapply lookup_lt_Some).
  assert (Hk : kids (0%N, 0) = children root) by (unfold kids; simpl; by rewrite Hroot).
  destruct (levels_spec (length nodes) 0
    {| enc_bits := [true; false] ++ degree_bits root; enc_characters := [0%N; 0%N]; enc_blocks := [[]; []] |}
    (children root)) as (order & Hl & Ho & Hb); [|lia|].
  { intros p Hp. rewrite <- Hk in Hp. apply kids_deeper in Hp; simpl in *; lia. }
  exists order. cbn zeta. split_and!.
  - unfold encode. rewrite Hroot. cbn [mbind option_bind]. rewrite Hl. cbn [mbind option_bind].
    do 2 f_equal. unfold state_after. cbn [enc_bits fmap list_fmap concat].
    unfold node_bits at 2. rewrite Hk. by rewrite <- app_assoc.
  - cbn [mbind list_bind]. rewrite Hk. exact Ho.
  - intros p [->|Hp]%elem_of_cons; [done|by apply Hb].
Qed.
End levels.

(** ** Parsing a level order

    [full] is a level order whose tail is the children of its elements. *)

Section parse.
Context {N' : Type} (kids : byte * N' → list (byte * N')) (root : byte * N')
  (order : list (byte * N')).
Let full := root :: order.
Context (Horder : order = full ≫= kids).

Let degrees (p : byte * N') : list bool := replicate (length (kids p)) true ++ [false].
Let chars : list byte := [0; 0]%N ++ order.*1.
Let bits : list bool := [true; false] ++ concat (degrees <$> full).

(** The number of children of the first [k] nodes. *)
Let before (k : nat) : nat := length (take k full ≫= kids).

Lemma zeros_degrees pos l k :
  k < length l → zeros_at pos (concat (degrees <$> l)) !! k =
    Some (pos + k + length (take (S k) l ≫= kids)).
Proof using.
  clear Horder. revert pos k. induction l as [|p l IH]; intros pos k Hk; simpl in Hk; [lia|].
  cbn [fmap list_fmap concat]. unfold degrees at 1.
  rewrite !zeros_at_app, zeros_at_ones, length_replicate. cbn [app zeros_at].
  destruct k as [|k]; cbn [lookup list_lookup].
  - f_equal. cbn. rewrite app_nil_r. lia.
  - rewrite IH by lia. f_equal. rewrite firstn_cons. csimpl. rewrite !length_app, length_replicate.
    simpl. lia.
Qed.

Lemma length_zeros_degrees pos l : length (zeros_at pos (concat (degrees <$> l))) = length l.
Proof using.
  clear Horder. revert pos. induction l as [|p l IH]; intros pos; [done|].
  cbn [fmap list_fmap concat]. unfold degrees at 1.
  rewrite !zeros_at_app, zeros_at_ones. simpl. by rewrite IH.
Qed.

Lemma length_chars : length chars = S (length full).
Proof using. unfold chars, full. rewrite length_app, length_fmap. simpl. lia. Qed.

(** Zero number [k] is behind the degrees of the first [k] nodes. *)
Lemma zeros_bits k :
  k < length chars → zeros_at 0 bits !! k = Some (1 + k + before k).
Proof using.
  clear Horder. rewrite length_chars. intros Hk. unfold bits. rewrite zeros_at_app.
  change (zeros_at 0 [true; false]) with [1]. change (0 + length [true; false]) with 2.
  destruct k as [|k]; [done|]. cbn [app lookup list_lookup]. by rewrite zeros_degrees by lia.
Qed.

Lemma before_le k : before k ≤ length order.
Proof using Horder.
  rewrite Horder. unfold before. apply sublist_length, bind_sublist, sublist_take.
Qed.

Lemma range_step_ok ranges node :
  0 < node < length chars → length ranges = length chars →
  range_step (zeros_at 0 bits) (length chars) ranges node =
    Return (<[node := (2 + before (node - 1), 2 + before node)]> ranges).
Proof using Horder.
  intros Hn Hr. unfold range_step. rewrite !zeros_bits by lia. cbn [panicking mbind outcome_mbind].
  unfold topology. rewrite !usub_ok by lia. cbn [fallible mbind outcome_mbind].
  rewrite decide_True by lia. pose proof (before_le (node - 1)). pose proof (before_le node).
  assert (length chars = 2 + length order) by (rewrite length_chars; done).
  rewrite !Nat.min_l by lia. unfold mret, outcome_ret. do 3 f_equal; lia.
Qed.

Lemma ranges_loop m start ranges :
  0 < start → start + m = length chars → length ranges = length chars →
  ∃ ranges', for_each (range_step (zeros_at 0 bits) (length chars)) ranges (seq start m) = Return ranges' ∧
    (∀ k, start ≤ k < length chars → ranges' !! k = Some (2 + before (k - 1), 2 + before k)) ∧
    ∀ k, k < start → ranges' !! k = ranges !! k.
Proof using Horder.
  revert start ranges. induction m as [|m IH]; intros start ranges Hs Hsm Hr; cbn [seq for_each].
  { exists ranges. split_and!; [done|intros; lia|done]. }
  rewrite range_step_ok by lia. cbn [mbind outcome_mbind].
  destruct (IH (S start) (<[start := (2 + before (start - 1), 2 + before start)]> ranges))
    as (ranges' & -> & Hge & Hlt); [lia..|by rewrite length_insert|].
  exists ranges'. split_and!; [done| |].
  - intros k Hk. destruct (decide (k = start)) as [->|]; [|apply Hge; lia].
    rewrite Hlt by lia. apply list_lookup_insert_eq. lia.
  - intros k Hk. rewrite Hlt by lia. apply list_lookup_insert_ne. lia.
Qed.

(** The parsed LOUDS: its nodes from 1 on are the elements of the level order,
    and their children are in their ranges. *)
Lemma parse_level_order :
  ∃ louds, Louds.parse (encode_louds bits) chars = Return louds ∧ node_ids louds = chars ∧
    ∀ k, 0 < k < length chars → child_range louds k = (2 + before (k - 1), 2 + before k).
Proof using Horder.
  unfold Louds.parse. rewrite (proj2 (encode_louds_words bits)). rewrite decide_False by lia.
  assert (Hz : length (zeros_at 0 bits) = length chars).
  { unfold bits. rewrite zeros_at_app, length_chars. change (zeros_at 0 [true; false]) with [1].
    by rewrite length_app, length_zeros_degrees. }
  rewrite scan_encoded by first [exact Hz | rewrite length_chars; lia].
  rewrite decide_False by lia. pose proof length_chars as Hc.
  destruct (ranges_loop (length chars - 1) 1 (replicate (length chars) (0, 0)))
    as (ranges & -> & Hr & _); [lia..|by rewrite length_replicate|].
  eexists. split_and!; [reflexivity|done|]. intros k Hk. unfold child_range. cbn [child_ranges].
  by rewrite Hr by lia.
Qed.
End parse.

(** ** The persisted index stands for the trie *)

Section index.
Context (held : list byte → list nat) (paths : list (list byte)) (nodes : MemoryTrie).
Context (Hinv : trie_inv held paths nodes) (Hempty : held [] = []).
Context (order : list (byte * nat)).
Let full := (0%N, 0) :: order.
Context (Horder : order = full ≫= kids nodes) (Hfull : ∀ p, p ∈ full → p.2 < length nodes).
Context (m : MemoryLouds) (Hids : node_ids (memory_louds m) = [0; 0]%N ++ order.*1).
Context (Hblocks : memory_blocks m = [[]; []] ++ (kept nodes <$> order)).
Context (Hranges : ∀ k, 0 < k < length ([0; 0]%N ++ order.*1) →
  child_range (memory_louds m) k =
    (2 + length (take (k - 1) full ≫= kids nodes), 2 + length (take k full ≫= kids nodes))).

(** LOUDS node [k] stands for the trie node at the path [p]. *)
Definition stands_for (k : nat) (p : list byte) : Prop :=
  ∃ e, 0 < k ∧ full !! (k - 1) = Some e ∧ paths !! e.2 = Some p.

Lemma stands_for_root : stands_for 1 [].
Proof using Hinv. exists (0%N, 0). split_and!; [lia|done|apply (inv_root _ _ _ Hinv)]. Qed.

(** Where the children of an element of the level order are. *)
Lemma order_split k e :
  0 < k → full !! (k - 1) = Some e →
  ∃ post, order = (take (k - 1) full ≫= kids nodes) ++ kids nodes e ++ post ∧
    child_range (memory_louds m) k =
      let a := 2 + length (take (k - 1) full ≫= kids nodes) in (a, a + length (kids nodes e)).
Proof using Horder Hranges.
  intros Hk He. assert (Htake : take k full = take (k - 1) full ++ [e]).
  { replace k with (S (k - 1)) at 1 by lia. by apply take_S_r. }
  exists (drop k full ≫= kids nodes). split.
  - rewrite Horder at 1. rewrite <- (take_drop k full) at 1.
    rewrite Htake, !bind_app, <- app_assoc. csimpl. by rewrite app_nil_r.
  - rewrite Hranges.
    + rewrite Htake, bind_app, length_app. csimpl. rewrite app_nil_r. f_equal.
    + apply lookup_lt_Some in He. unfold full in He. rewrite length_app, length_fmap.
      simpl in *. lia.
Qed.

Lemma find_child ks a c :
  (∀ j, j < length ks → node_ids (memory_louds m) !! (a + j) = ks.*1 !! j) →
  match BTree.get c ks with
  | Some n => ∃ j, list_find (λ i, node_ids (memory_louds m) !! i = Some c) (seq a (length ks)) = Some (j, a + j)
      ∧ ks !! j = Some (c, n : nat)
  | None => list_find (λ i, node_ids (memory_louds m) !! i = Some c) (seq a (length ks)) = None
  end.
Proof using.
  clear. revert a. induction ks as [|[c' n'] ks IH]; intros a Hks; [done|].
  pose proof (Hks 0 ltac:(simpl; lia)) as H0. rewrite Nat.add_0_r in H0. simpl in H0.
  cbn [BTree.get length seq list_find]. rewrite H0.
  destruct (N.eqb_spec c c') as [->|Hc].
  - exists 0. rewrite decide_True, Nat.add_0_r by done. done.
  - rewrite decide_False by congruence. specialize (IH (S a)). ospecialize* IH.
    { intros j Hj. replace (S a + j) with (a + S j) by lia. rewrite Hks by (simpl; lia). done. }
    destruct (BTree.get c ks) as [n|].
    + destruct IH as (j & -> & Hj). exists (S j). split; [|done]. simpl. do 2 f_equal. lia.
    + by rewrite IH.
Qed.

Lemma search_child_spec k p c :
  stands_for k p →
  match search_child (memory_louds m) k c with
  | Some k' => stands_for k' (p ++ [c])
  | None => p ++ [c] ∉ paths
  end.
Proof using Hinv Horder Hranges Hfull Hids.
  intros (e & Hk & He & Hp). destruct (order_split k e Hk He) as (post & Hsplit & Hr).
  unfold search_child. rewrite Hr. cbn zeta. set (pre := take (k - 1) full ≫= kids nodes) in *.
  unfold range_nodes. cbn [fst snd].
  replace (2 + length pre + length (kids nodes e) - (2 + length pre)) with (length (kids nodes e)) by lia.
  destruct (inv_lookup _ _ _ Hinv _ _ Hp) as [nd Hnd].
  assert (Hkids : kids nodes e = children nd) by (unfold kids; by rewrite Hnd).
  destruct (inv_node _ _ _ Hinv _ _ _ Hp Hnd) as (_ & _ & Hch).
  pose proof (find_child (kids nodes e) (2 + length pre) c) as Hf. ospecialize* Hf.
  { intros j Hj. rewrite Hids.
    change (([0%N; 0%N] ++ order.*1) !! (2 + length pre + j)) with (order.*1 !! (length pre + j)).
    rewrite Hsplit, !fmap_app, lookup_app_r by (rewrite length_fmap; lia). rewrite length_fmap.
    replace (length pre + j - length pre) with j by lia.
    rewrite lookup_app_l; [done|by rewrite length_fmap]. }
  rewrite <- Hkids in Hch. destruct (BTree.get c (kids nodes e)) as [n|] eqn:Hget.
  - destruct Hf as (j & -> & Hj). cbn. exists (c, n). split_and!; [lia| |by apply Hch].
    replace (S (S (length pre + j)) - 1) with (S (length pre + j)) by lia.
    change (full !! S (length pre + j)) with (order !! (length pre + j)). rewrite Hsplit, lookup_app_r by lia.
    replace (length pre + j - length pre) with j by lia.
    by apply lookup_app_l_Some.
  - rewrite Hf. cbn. intros [n Hn]%list_elem_of_lookup. apply Hch in Hn. congruence.
Qed.

Lemma block_spec k p : stands_for k p → memory_blocks m !! k = Some (held p).
Proof using Hinv Hempty Hblocks.
  intros (e & Hk & He & Hp). rewrite Hblocks. destruct k as [|[|k]]; [lia| |].
  - simpl in He. injection He as <-. simpl in Hp. rewrite (inv_root _ _ _ Hinv) in Hp.
    injection Hp as <-. by rewrite Hempty.
  - change (full !! (S (S k) - 1)) with (order !! k) in He.
    change (([[]; []] ++ (kept nodes <$> order)) !! S (S k)) with ((kept nodes <$> order) !! k).
    rewrite list_lookup_fmap, He. simpl. f_equal. unfold kept.
    destruct (inv_lookup _ _ _ Hinv _ _ Hp) as [nd Hnd]. rewrite Hnd.
    by destruct (inv_node _ _ _ Hinv _ _ _ Hp Hnd) as (_ & ? & _).
Qed.

Lemma louds_walk_spec kind ids k p acc :
  stands_for k p →
  ∃ e, louds_walk m kind k acc ids = Some (e, acc ++ collected held kind p ids) ∧
    match e with Some k' => stands_for k' (p ++ ids) | None => p ++ ids ∉ paths end.
Proof using Hinv Hempty Horder Hranges Hfull Hids Hblocks.
  revert k p acc. induction ids as [|c ids IH]; intros k p acc Hk; cbn [louds_walk].
  { exists (Some k). rewrite app_nil_r. split; [by destruct kind; rewrite ?app_nil_r|done]. }
  rewrite collected_cons. replace (p ++ c :: ids) with ((p ++ [c]) ++ ids) by (by rewrite <- app_assoc).
  pose proof (search_child_spec k p c Hk) as Hs.
  destruct (search_child (memory_louds m) k c) as [k'|].
  - pose proof (block_spec k' _ Hs) as Hb.
    destruct kind; [|rewrite Hb; cbn [mbind option_bind]|].
    all: match goal with |- context [louds_walk _ _ _ ?a _] =>
           destruct (IH k' (p ++ [c]) a Hs) as (e & -> & He) end.
    all: exists e; split; [|done]; simpl; by rewrite ?app_assoc.
  - exists None. split.
    + do 2 f_equal. rewrite (inv_absent _ _ _ Hinv) by done.
      unfold collected. rewrite (passed_absent _ _ _ Hinv) by done. by destruct kind; rewrite app_nil_r.
    + intros Hn. destruct Hs. by eapply inv_prefix_closed.
Qed.

Lemma search_walk kind k acc ids :
  kind ≠ Prefixes → louds_walk m kind k acc ids = Some (search_from (memory_louds m) k ids, acc).
Proof using.
  clear. intros Hkind. revert k. induction ids as [|c ids IH]; intros k; cbn [louds_walk search_from]; [done|].
  destruct (search_child _ k c) as [k'|]; [|done]. destruct kind; [apply IH|done|apply IH].
Qed.
(** The nodes in the range of a node stand for its children. *)
Lemma direct_stand k p :
  stands_for k p →
  ∃ nd n, paths !! n = Some p ∧ nodes !! n = Some nd ∧
    Forall2 stands_for (range_nodes (child_range (memory_louds m) k)) (child_paths p nd).
Proof using Hinv Horder Hranges.
  intros (e & Hk & He & Hp). destruct (order_split k e Hk He) as (post & Hsplit & Hr).
  destruct (inv_lookup _ _ _ Hinv _ _ Hp) as [nd Hnd]. exists nd, e.2. split_and!; [done..|].
  rewrite Hr. cbn zeta. set (pre := take (k - 1) full ≫= kids nodes) in *.
  unfold range_nodes. cbn [fst snd].
  replace (2 + length pre + length (kids nodes e) - (2 + length pre)) with (length (kids nodes e)) by lia.
  assert (Hkids : kids nodes e = children nd) by (unfold kids; by rewrite Hnd).
  destruct (inv_node _ _ _ Hinv _ _ _ Hp Hnd) as (Hord & _ & Hch). rewrite <- Hkids in Hch, Hord.
  unfold child_paths. rewrite <- list_fmap_compose, <- Hkids. apply Forall2_fmap_r, Forall2_same_length_lookup.
  split; [by rewrite length_seq|].
  intros j i [c n] [-> Hj]%lookup_seq Hn. simpl.
  exists (c, n). split_and!; [lia| |].
  - replace (S (S (length pre + j)) - 1) with (S (length pre + j)) by lia.
    change (full !! S (length pre + j)) with (order !! (length pre + j)).
    rewrite Hsplit, lookup_app_r by lia. replace (length pre + j - length pre) with j by lia.
    by apply lookup_app_l_Some.
  - apply Hch, BTree.elem_of_get; [done|]. by eapply list_elem_of_lookup_2.
Qed.

(** The paths strictly below [p]. *)
Definition below (p : list byte) : list (list byte) := filter (λ q, p `prefix_of` q ∧ q ≠ p) paths.

Lemma elem_of_below p q : q ∈ below p ↔ (p `prefix_of` q ∧ q ≠ p) ∧ q ∈ paths.
Proof using. unfold below. by rewrite list_elem_of_filter. Qed.

Lemma NoDup_below p : NoDup (below p).
Proof using Hinv. apply NoDup_filter, (inv_NoDup _ _ _ Hinv). Qed.

Lemma NoDup_length_le {A} (l k : list A) : NoDup l → (∀ x, x ∈ l → x ∈ k) → length l ≤ length k.
Proof using. intros Hl Hk. by apply submseteq_length, NoDup_submseteq. Qed.

(** What an enumeration below [p] returns: nodes strictly below, each once, and
    all of them when the bound on the count allows it. *)
Definition enumerates (p : list byte) (depth : N) (max_count : nat) (out : list nat) : Prop :=
  ∃ qs, Forall2 stands_for out qs ∧ NoDup qs ∧ (∀ q, q ∈ qs → q ∈ below p) ∧
    (length (below p) ≤ max_count → (depth + N.of_nat (length (below p)) < usize_max)%N →
     ∀ q, q ∈ below p → q ∈ qs).

Lemma below_child p c q : q ∈ below (p ++ [c]) → q ∈ below p.
Proof using.
  clear. rewrite !elem_of_below. intros [[Hpre Hne] Hq]. split; [|done]. split.
  - etrans; [|exact Hpre]. by apply prefix_app_r.
  - intros ->. by apply prefix_snoc_not in Hpre.
Qed.

Lemma extend_children_spec p depth max_count recurse direct ds output qs :
  (∀ child d count, stands_for child d → count < max_count →
     ∃ out, recurse child count = Some out ∧ enumerates d (depth + 1) count out) →
  Forall2 stands_for direct ds → NoDup ds →
  (∀ d, d ∈ ds → d ∈ below p ∧ d ∈ qs ∧ (∃ c, d = p ++ [c]) ∧ ∀ q, q ∈ qs → q ∉ below d) →
  output ≠ [] → Forall2 stands_for output qs → NoDup qs → (∀ q, q ∈ qs → q ∈ below p) →
  ∃ out qs', extend_children recurse max_count direct output = Some out ∧
    Forall2 stands_for out qs' ∧ NoDup qs' ∧ (∀ q, q ∈ qs' → q ∈ below p) ∧ (∀ q, q ∈ qs → q ∈ qs') ∧
    (length (below p) ≤ max_count → (depth + N.of_nat (length (below p)) < usize_max)%N →
     ∀ d q, d ∈ ds → q ∈ below d → q ∈ qs').
Proof using All.
  intros Hrec Hds. revert output qs. induction Hds as [|child d direct ds Hchild Hds IH];
    intros output qs Hnd Hd Hout Hqs Hndq Hbelow; cbn [extend_children].
  { exists output, qs. split_and!; [done..|]. set_solver. }
  apply NoDup_cons in Hnd as [Hdn Hnd].
  pose proof (Forall2_length _ _ _ Hqs) as Hlen.
  pose proof (NoDup_length_le qs (below p) Hndq Hbelow) as Hle.
  case_decide as Hmax.
  { exists output, qs. split_and!; [done..|]. lia. }
  assert (Hout0 : 0 < length output) by (destruct output; simpl; [done|lia]).
  destruct (Hrec child d (max_count - length output) Hchild) as (out1 & -> & qs1 & Hs1 & Hn1 & Hb1 & Hc1); [lia|].
  cbn [mbind option_bind].
  destruct (Hd d ltac:(set_solver)) as (Hdp & Hdq & [c ->] & Hdis).
  assert (Hnd1 : NoDup (qs ++ qs1)).
  { apply NoDup_app. split_and!; [done| |done]. intros q Hq Hq1. by apply (Hdis q Hq), Hb1. }
  destruct (IH (output ++ out1) (qs ++ qs1)) as (out & qs' & Hex & Hs & Hn & Hb & Hsub & Hc); try done.
  - intros d' Hd'. destruct (Hd d' ltac:(set_solver)) as (H1 & H2 & [c' ->] & H4).
    split_and!; [done|set_solver|by exists c'|]. intros q [Hq|Hq]%elem_of_app; [by apply H4|].
    apply Hb1, elem_of_below in Hq as [[Hq _] _]. rewrite elem_of_below. intros [[Hq' _] _].
    rewrite (extends_snoc_inj p c c' q) in Hdn; set_solver.
  - by destruct output.
  - by apply Forall2_app.
  - intros q [Hq|Hq]%elem_of_app; [by apply Hbelow|]. by eapply below_child, Hb1.
  - exists out, qs'. split_and!; [done..|set_solver|].
    intros Hcount Hdepth d' q [->|Hd']%elem_of_cons Hq; [|by eapply Hc].
    apply Hsub, elem_of_app. right. apply Hc1; [| |done].
    + pose proof (NoDup_length_le (qs ++ below (p ++ [c])) (below p)) as Hl.
      rewrite length_app in Hl. rewrite Hlen. enough (length qs + length (below (p ++ [c])) ≤ length (below p)) by lia.
      apply Hl.
      * apply NoDup_app. split_and!; [done|done|apply NoDup_below].
      * intros x [Hx|Hx]%elem_of_app; [by apply Hbelow|by eapply below_child].
    + assert (length (below (p ++ [c])) < length (below p)); [|lia].
      pose proof (NoDup_length_le ((p ++ [c]) :: below (p ++ [c])) (below p)) as Hl. simpl in Hl. apply Hl.
      * constructor; [|apply NoDup_below]. rewrite elem_of_below. naive_solver.
      * intros x [->|Hx]%elem_of_cons; [done|by eapply below_child].
Qed.

Lemma descendants_spec fuel k p depth max_count :
  max_count < fuel → stands_for k p →
  ∃ out, descendants_from fuel (memory_louds m) k depth usize_max max_count = Some out ∧
    enumerates p depth max_count out.
Proof using All.
  revert k p depth max_count. induction fuel as [|fuel IH]; intros k p depth max_count Hf Hk; [lia|].
  cbn [descendants_from]. destruct (direct_stand k p Hk) as (nd & n & Hp & Hnd & Hdir).
  pose proof (NoDup_child_paths _ _ _ Hinv n p nd Hp Hnd) as HNd.
  assert (Hch : ∀ q, q ∈ child_paths p nd → q ∈ below p ∧ ∃ c, q = p ++ [c]).
  { intros q Hq. eapply elem_of_child_paths in Hq as [Hq [c ->]]; [|done..].
    split; [|by eexists]. apply elem_of_below. split; [|done].
    split; [by apply prefix_app_r|]. intros E%(f_equal length). rewrite length_app in E. simpl in E. lia. }
  destruct (N.eqb_spec depth usize_max) as [->|Hdepth].
  { eexists. split; [done|]. exists (child_paths p nd). split_and!; [done..| |lia].
    intros q Hq. by apply Hch. }
  set (direct := range_nodes _) in *. destruct (decide (direct = [])) as [Hd0|Hd0].
  { rewrite Hd0. exists []. split; [done|]. rewrite Hd0 in Hdir. apply Forall2_nil_inv_l in Hdir.
    exists []. split_and!; [constructor|constructor|set_solver|]. intros _ _ q Hq.
    apply elem_of_below in Hq as [[Hpre Hne] Hq].
    destruct (strict_extension p q Hpre) as [->|[c [r Hc]]]; [done|].
    assert (p ++ [c] ∈ child_paths p nd) as Hin; [|rewrite Hdir in Hin; set_solver].
    eapply elem_of_child_paths; [done..|]. split; [|by eexists].
    eapply (inv_prefix_closed _ _ _ Hinv _ r). by rewrite <- Hc. }
  destruct (extend_children_spec p depth max_count
    (λ child count, descendants_from fuel (memory_louds m) child (depth + 1) usize_max count)
    direct (child_paths p nd) direct (child_paths p nd)) as (out & qs & -> & Hs & Hn & Hb & Hsub & Hc); try done.
  - intros child d count Hst Hcount. apply IH; [lia|done].
  - intros d Hd. destruct (Hch d Hd) as [Hb [c ->]]. split_and!; [done|done|by exists c|].
    intros q Hq. destruct (Hch q Hq) as [_ [c' ->]]. rewrite elem_of_below.
    intros [[Hpre Hne] _]. rewrite (extends_snoc_inj p c c' (p ++ [c'])) in Hne; [done|done|reflexivity].
  - intros q Hq. by apply Hch.
  - exists out. split; [done|]. exists qs. split_and!; [done..|].
    intros Hcount Hdep q Hq. pose proof Hq as [[Hpre Hne] Hqp]%elem_of_below.
    destruct (strict_extension p q Hpre) as [->|[c Hpc]]; [done|].
    assert (Hin : p ++ [c] ∈ child_paths p nd).
    { eapply elem_of_child_paths; [done..|]. split; [|by eexists]. destruct Hpc as [r ->].
      by eapply inv_prefix_closed. }
    destruct (decide (q = p ++ [c])) as [->|Hne']; [by apply Hsub|].
    apply (Hc Hcount Hdep (p ++ [c])); [done|]. by apply elem_of_below.
Qed.
End index.

(** ** The persisted index finds the matching records *)

(** The distinct paths strictly below [ids]: the nodes an enumeration visits. *)
Definition prefixes (e : list byte) : list (list byte) := (λ k, take k e) <$> seq 0 (S (length e)).

Definition nodes_below (ids : list byte) (encoded : list (option (list byte))) : list (list byte) :=
  filter (λ q, ids `prefix_of` q ∧ q ≠ ids) (remove_dups (omap id encoded ≫= prefixes)).

Lemma elem_of_prefixes q e : q ∈ prefixes e ↔ q `prefix_of` e.
Proof.
  unfold prefixes. rewrite list_elem_of_fmap. split.
  - intros (k & -> & _). apply prefix_take.
  - intros [r ->]. exists (length q). rewrite take_app_length. split; [done|].
    apply elem_of_seq. rewrite length_app. lia.
Qed.

Lemma elem_of_nodes_below ids encoded e q :
  Some e ∈ encoded → q `prefix_of` e → ids `prefix_of` q → q ≠ ids → q ∈ nodes_below ids encoded.
Proof.
  intros He Hqe Hids Hne. unfold nodes_below. apply list_elem_of_filter. split; [done|].
  apply elem_of_remove_dups, list_elem_of_bind. exists e. rewrite elem_of_prefixes.
  split; [done|]. apply list_elem_of_omap. by exists (Some e).
Qed.

Lemma matching_sublist (P Q : option (list byte) → Prop) `{!∀ e, Decision (P e)} `{!∀ e, Decision (Q e)}
    encoded :
  (∀ e, e ∈ encoded → P e → Q e) → matching P encoded `sublist_of` matching Q encoded.
Proof.
  induction encoded as [|e encoded IH] using rev_ind; intros HPQ; [done|].
  rewrite !matching_snoc. apply sublist_app; [apply IH; set_solver|].
  destruct (decide (P e)) as [HP|]; [|apply sublist_nil_l].
  rewrite decide_True; [done|]. apply HPQ; [set_solver|done].
Qed.

(** The readings of a list of paths. *)
Definition among (qs : list (list byte)) (encoded : option (list byte)) : Prop :=
  match encoded with Some p => p ∈ qs | None => False end.

#[local] Instance among_dec qs e : Decision (among qs e).
Proof. destruct e; simpl; apply _. Defined.

Section louds.
Context (encoded : list (option (list byte))) (Hrecords : Forall (λ e, e ≠ Some []) encoded).

Lemma holding_root : holding encoded [] = [].
Proof using Hrecords.
  destruct (holding encoded []) as [|i l] eqn:E; [done|]. exfalso.
  assert (Hi : i ∈ holding encoded []) by (rewrite E; set_solver).
  apply elem_of_holding in Hi. rewrite Forall_lookup in Hrecords. by apply (Hrecords i _ Hi).
Qed.

(** What an enumeration returns, looked up in the blocks and sorted. *)
Lemma enumerated_matching paths ids qs l :
  NoDup qs → (∀ q, q ∈ qs → q ∈ below paths ids) → l ≡ₚ qs ≫= holding encoded →
  sort_records l `sublist_of` matching (strictly_extends ids) encoded ∧
  ((∀ p, Some p ∈ encoded → p ∈ paths) → (∀ q, q ∈ below paths ids → q ∈ qs) →
   sort_records l = matching (strictly_extends ids) encoded).
Proof using.
  clear Hrecords. intros Hnd Hqs Hl. split.
  - rewrite (collect_matching encoded qs l (among qs));
      [|done|done|by intros []|done].
    apply matching_sublist. intros [p|] _ Hp; [|done].
    apply Hqs, elem_of_below in Hp as [[? ?] _]. done.
  - intros Hall Hsub. apply (collect_matching encoded qs); [done|done|by intros []|].
    intros p Hp%Hall. simpl. split; [intros [? ?]; by apply Hsub, elem_of_below|].
    intros Hq%Hqs. by apply elem_of_below in Hq as [? _].
Qed.

Lemma memory_louds_new_spec :
  ∃ m nodes paths order, memory_louds_new encoded = Some m ∧
    trie_inv (holding encoded) paths nodes ∧
    (∀ q, q ∈ paths → q = [] ∨ ∃ e, Some e ∈ encoded ∧ q `prefix_of` e) ∧
    order = ((0%N, 0) :: order) ≫= kids nodes ∧ (∀ p, p ∈ (0%N, 0) :: order → p.2 < length nodes) ∧
    node_ids (memory_louds m) = [0; 0]%N ++ order.*1 ∧
    memory_blocks m = [[]; []] ++ (kept nodes <$> order) ∧
    ∀ k, 0 < k < length ([0; 0]%N ++ order.*1) → child_range (memory_louds m) k =
      (2 + length (take (k - 1) ((0%N, 0) :: order) ≫= kids nodes),
       2 + length (take k ((0%N, 0) :: order) ≫= kids nodes)).
Proof using.
  clear Hrecords. destruct (trie_new_spec encoded) as (nodes & paths & Hnew & Hinv & Hpaths).
  destruct (encode_spec _ _ _ Hinv) as (order & Henc & Horder & Hfull).
  destruct (parse_level_order (kids nodes) (0%N, 0) order Horder) as (louds & Hparse & Hids & Hranges).
  unfold memory_louds_new. rewrite Hnew. cbn [mbind option_bind]. rewrite Henc.
  cbn [mbind option_bind louds_bytes characters blocks].
  eexists {| memory_louds := louds; memory_blocks := _ |}, nodes, paths, order.
  split_and!; [|done..]. unfold node_bits. by rewrite Hparse.
Qed.

(** A lookup in the persisted index implements the specification; completions
    leave out the query itself and stop at some bound. *)
Lemma louds_implements :
  ∃ m, memory_louds_new encoded = Some m ∧ ∀ ids,
    louds_lookup m ids Exact = Some (spec_lookup encoded ids Exact) ∧
    louds_lookup m ids Prefixes = Some (spec_lookup encoded ids Prefixes) ∧
    ∃ found, louds_lookup m ids Completions = Some found ∧
      found `sublist_of` matching (strictly_extends ids) encoded ∧
      (length (nodes_below ids encoded) ≤ 700 → found = matching (strictly_extends ids) encoded).
Proof using Hrecords.
  destruct memory_louds_new_spec
    as (m & nodes & paths & order & -> & Hinv & Hpaths & Horder & Hfull & Hids & Hblocks & Hranges).
  exists m. split; [done|]. intros ids. pose proof holding_root as Hroot.
  pose proof (stands_for_root _ _ _ Hinv order) as Hr1.
  pose proof (block_spec _ _ _ Hinv Hroot order m Hblocks) as Hblock.
  pose proof (λ kind, louds_walk_spec _ _ _ Hinv Hroot order Horder Hfull m Hids Hblocks Hranges
    kind ids 1 [] [] Hr1) as Hwalk.
  unfold louds_lookup, spec_lookup. split_and!.
  - destruct (Hwalk Exact) as (e & -> & He). cbn [mbind option_bind].
    rewrite <- exact_matching. destruct e as [k|].
    + rewrite (Hblock k _ He). done.
    + simpl. by rewrite (inv_absent _ _ _ Hinv ids He).
  - destruct (Hwalk Prefixes) as (e & -> & He). cbn [mbind option_bind].
    by destruct e; rewrite <- prefixes_matching.
  - destruct (Hwalk Completions) as (e & He' & He). pose proof He' as Hsearch.
    rewrite search_walk in Hsearch by done. injection Hsearch as Hsearch. rewrite He'.
    cbn [mbind option_bind]. unfold descendants, search. rewrite Hsearch. destruct e as [k|].
    + destruct (descendants_spec _ _ _ Hinv Hroot order Horder Hfull m Hids Hblocks Hranges
        701 k ids 0 700 ltac:(lia) He) as (out & -> & qs & Hst & Hnd & Hqs & Hall).
      cbn [mbind option_bind].
      assert (Hfound : mapM (λ n, memory_blocks m !! n) out = Some (holding encoded <$> qs)).
      { apply mapM_Some. clear -Hst Hblock. induction Hst; constructor; auto. }
      rewrite Hfound. cbn [mbind option_bind]. eexists. split; [done|].
      destruct (enumerated_matching paths ids qs (concat (holding encoded <$> qs)) Hnd Hqs)
        as [Hsub Heq]; [by rewrite bind_concat|].
      split; [done|]. intros Hcount. apply Heq; [intros p; by apply (encoded_in_paths _ _ _ Hinv)|].
      assert (Hlen : length (below paths ids) ≤ length (nodes_below ids encoded)).
      { apply NoDup_length_le; [by eapply NoDup_below|]. intros q [[Hpre Hne] Hq]%elem_of_below.
        apply Hpaths in Hq as [->|(e & Hin & Hq)]; [by apply prefix_nil_inv in Hpre as ->|].
        by eapply elem_of_nodes_below. }
      apply Hall; [lia|]. unfold usize_max. change (N.ones 64) with 18446744073709551615%N. lia.
    + exists []. split; [done|]. rewrite <- (no_match _ _ _ Hinv ids (strictly_extends ids));
        [done|exact He|by intros []|intros p Hp; exact (proj1 Hp)].
Qed.
End louds.

(** C21. The persisted index, the trie written as LOUDS bits and parsed back,
    refines the trie: neither panics, and a lookup of a reading or of the prefixes of
    a query returns the same records from both, exactly those whose encoded reading
    matches, in increasing order. Completions come from the trie with the query
    itself and from the persisted index without it; the latter are matching records
    in increasing order, and all of them when at most 700 nodes are below the query. *)
Theorem louds_refines_trie encoded :
  Forall (λ e, e ≠ Some []) encoded →
  ∃ t m, trie_new encoded = Some t ∧ memory_louds_new encoded = Some m ∧ ∀ ids,
    (∀ kind, kind ≠ Completions →
       louds_lookup m ids kind = trie_lookup t ids kind ∧
       trie_lookup t ids kind = Some (spec_lookup encoded ids kind)) ∧
    trie_lookup t ids Completions = Some (spec_lookup encoded ids Completions) ∧
    ∃ found, louds_lookup m ids Completions = Some found ∧
      found `sublist_of` matching (strictly_extends ids) encoded ∧
      (length (nodes_below ids encoded) ≤ 700 → found = matching (strictly_extends ids) encoded).
Proof.
  intros Hrecords. destruct (trie_implements encoded) as (t & Ht & Htl).
  destruct (louds_implements encoded Hrecords) as (m & Hm & Hml).
  exists t, m. split_and!; [done..|]. intros ids. destruct (Hml ids) as (He & Hp & Hc).
  split_and!; [|by apply Htl|done]. intros kind Hkind. rewrite Htl. by destruct kind.
Qed.

(** The readings of five records and one that cannot be encoded. *)
Lemma louds_refines_trie_witness :
  ∃ t m, trie_new sample_readings = Some t ∧ memory_louds_new sample_readings = Some m ∧
     louds_lookup m [1; 2]%N Exact = trie_lookup t [1; 2]%N Exact ∧
     louds_lookup m [1]%N Completions = Some [0; 3; 5].
Proof.
  assert (Hs : Forall (λ e, e ≠ Some []) sample_readings) by (repeat constructor; intros [=]).
  destruct (louds_refines_trie sample_readings Hs) as (t & m & Ht & Hm & Hl).
  exists t, m. split; [exact Ht|]. split; [exact Hm|]. split.
  - destruct (Hl [1; 2]%N) as (Hk & _). apply Hk. discriminate.
  - destruct (Hl [1]%N) as (_ & _ & found & Hf & _ & Hall).
    rewrite Hf, Hall; [vm_compute; reflexivity|]. vm_compute. lia.
Defined.
