(* ===== verification/DictBinary.v ===== *)
(** * Binary dictionary files

    src/crates/converter/src/dictionary/binary.rs: blocks and shards of entries,
    lines of connection costs, and the matrix of meaning costs. *)

From Stdlib Require Import String.
From S2P Require Import Prelude Unicode F32 Dictionary Collections.

Definition ENTRY_HEADER_SIZE : nat := 10.
Definition MEANING_COUNT : N := 502.
Definition CONNECTION_COUNT : nat := Eval vm_compute in N.to_nat 1319.

Definition TAB_BYTE : byte := 9%N.

Inductive DictionaryBinaryError :=
  | Truncated (context : string) (needed available : nat)
  | InvalidShardIndex (index slot_count : nat)
  | InvalidOffset (start stop length : nat)
  | MissingEntryFields (expected found : nat)
  | InvalidConnectionId (value : Z)
  | InvalidMeaningMatrixLength (expected found : N).

(** ** Fixed width fields *)

Definition require (binary : list byte) (needed : nat) (context : string) :
    outcome DictionaryBinaryError () :=
  if decide (length binary < needed) then Raise (Truncated context needed (length binary)) else mret ().

(** [uN::from_le_bytes(binary[offset..offset + width].try_into()..)] *)
Definition read_uint (width : nat) (binary : list byte) (offset : nat) (context : string) :
    outcome DictionaryBinaryError N :=
  require binary (offset + width) context;;
  bs ← panicking (slice offset (offset + width) binary);
  mret (from_le_bytes bs).

Definition read_u16 (binary : list byte) (offset : nat) (context : string) :
    outcome DictionaryBinaryError nat :=
  v ← read_uint 2 binary offset context; mret (N.to_nat v).

Definition read_u32 (binary : list byte) (offset : nat) (context : string) :
    outcome DictionaryBinaryError N := read_uint 4 binary offset context.

Definition f32_of_bits (v : N) : f32 := from_bits (Z.of_N v).

Definition read_f32 (binary : list byte) (offset : nat) (context : string) :
    outcome DictionaryBinaryError f32 :=
  v ← read_u32 binary offset context; mret (f32_of_bits v).

(** ** Blocks and shards of entries *)

(** The header of entry [index]; its text comes later. *)
Definition read_header (binary : list byte) (index : nat) :
    outcome DictionaryBinaryError DictionaryEntry :=
  let offset := 2 + index * ENTRY_HEADER_SIZE in
  left ← read_u16 binary offset "left connection identifier";
  right ← read_u16 binary (offset + 2) "right connection identifier";
  meaning ← read_u16 binary (offset + 4) "meaning identifier";
  value ← read_f32 binary (offset + 6) "entry value";
  mret {| word := []; ruby := []; left_id := left; right_id := right; meaning_id := meaning;
          base_value := value; adjustment := zero; metadata := no_metadata |}.

Definition push_header (binary : list byte) (entries : list DictionaryEntry) (index : nat) :
    outcome DictionaryBinaryError (list DictionaryEntry) :=
  e ← read_header binary index; mret (entries ++ [e]).

(** The text of an entry: the shared reading, and the word unless it is the
    reading. *)
Definition with_text (ruby_text : ustring) (e : DictionaryEntry) (field : list byte) : DictionaryEntry :=
  {| word := match field with [] => ruby_text | _ => from_utf8_lossy field end;
     ruby := ruby_text; left_id := left_id e; right_id := right_id e; meaning_id := meaning_id e;
     base_value := base_value e; adjustment := adjustment e; metadata := metadata e |}.

Definition parse_entry_block (binary : list byte) :
    outcome DictionaryBinaryError (list DictionaryEntry) :=
  count ← read_u16 binary 0 "entry count";
  let text_offset := 2 + count * ENTRY_HEADER_SIZE in
  require binary text_offset "entry headers";;
  entries ← for_each (push_header binary) [] (seq 0 count);
  text ← panicking (slice text_offset (length binary) binary);
  let fields := Text.split_on TAB_BYTE text in
  let expected := count + 1 in
  if decide (length fields < expected) then Raise (MissingEntryFields expected (length fields))
  else
    first ← panicking (fields !! 0);
    let ruby_text := from_utf8_lossy first in
    words ← panicking (slice 1 (count + 1) fields);
    mret (zip_with (with_text ruby_text) entries words).

(** The block of one slot of a shard. *)
Definition parse_slot (binary : list byte) (slot_count : nat) (output : list DictionaryEntry)
    (index : nat) : outcome DictionaryBinaryError (list DictionaryEntry) :=
  if decide (slot_count ≤ index) then Raise (InvalidShardIndex index slot_count)
  else
    start ← read_u32 binary (2 + index * 4) "shard block offset";
    stop ← if decide (index + 1 = slot_count) then mret (N.of_nat (length binary))
           else read_u32 binary (2 + (index + 1) * 4) "shard block offset";
    if decide (stop < start ∨ N.of_nat (length binary) < stop)%N then
      Raise (InvalidOffset (N.to_nat start) (N.to_nat stop) (length binary))
    else
      block ← panicking (slice (N.to_nat start) (N.to_nat stop) binary);
      entries ← parse_entry_block block;
      mret (output ++ entries).

Definition parse_entry_shard (binary : list byte) (indices : list nat) :
    outcome DictionaryBinaryError (list DictionaryEntry) :=
  slot_count ← read_u16 binary 0 "shard slot count";
  require binary (2 + slot_count * 4) "shard offset table";;
  for_each (parse_slot binary slot_count) [] indices.

(** ** Connection costs *)

(** [i32::from_le_bytes] *)
Definition signed32 (bs : list byte) : Z :=
  let v := Z.of_N (from_le_bytes bs) in if (v <? 2 ^ 31)%Z then v else (v - 2 ^ 32)%Z.

Definition f32_le (bs : list byte) : f32 := f32_of_bits (from_le_bytes bs).

(** A record of the line: an identifier and its value. *)
Definition cost_step (line : list f32) (record : list byte) :
    outcome DictionaryBinaryError (list f32) :=
  let id := signed32 (take 4 record) in
  if decide (id < 0)%Z then Raise (InvalidConnectionId id)
  else if decide (Z.of_nat (length line) ≤ id)%Z then Raise (InvalidConnectionId id)
  else mret (<[Z.to_nat id := f32_le (drop 4 record)]> line).

(** [n.next_multiple_of(8)] *)
Definition next_multiple_of_8 (n : nat) : nat := if decide (n `mod` 8 = 0) then n else n + (8 - n `mod` 8).

Definition parse_connection_cost_line (binary : list byte) :
    outcome DictionaryBinaryError (list f32) :=
  require binary 8 "connection cost default record";;
  if decide (chunks_remainder 8 binary ≠ []) then
    Raise (Truncated "connection cost record" (next_multiple_of_8 (length binary)) (length binary))
  else
    match chunks_exact 8 binary with
    | [] => Panic
    | first :: rest =>
        let default_id := signed32 (take 4 first) in
        if decide (default_id ≠ -1)%Z then Raise (InvalidConnectionId default_id)
        else for_each cost_step (replicate CONNECTION_COUNT (f32_le (drop 4 first))) rest
    end.

(** ** Meaning costs *)

Record MeaningMatrix := { values : list f32 }.

Definition meaning_matrix_parse (binary : list byte) : result DictionaryBinaryError MeaningMatrix :=
  let values := f32_le <$> chunks_exact 4 binary in
  let expected := (MEANING_COUNT * MEANING_COUNT)%N in
  if decide (chunks_remainder 4 binary ≠ [] ∨ N.of_nat (length values) < expected)%N
  then Err (InvalidMeaningMatrixLength expected (N.of_nat (length values)))
  else Ok {| values := values |}.

(** A product beyond a [usize] is beyond the values as well. *)
Definition meaning_matrix_get (m : MeaningMatrix) (former latter : nat) : option f32 :=
  if decide (former = 500 ∨ latter = 500) then Some zero
  else values m !! (former * N.to_nat MEANING_COUNT + latter).

(** ** Reading never panics *)

Lemma require_safe binary needed context (Q : () → Prop) :
  (needed ≤ length binary → Q ()) → safe (require binary needed context) Q.
Proof. intros HQ. unfold require. case_decide; [done|]. apply safe_ret, HQ. lia. Qed.

Lemma read_uint_safe width binary offset context (Q : N → Prop) :
  (∀ v, Q v) → safe (read_uint width binary offset context) Q.
Proof.
  intros HQ. unfold read_uint. apply safe_bind, require_safe. intros Hlen.
  apply safe_bind. rewrite slice_ok by lia. cbn [panicking safe]. by apply safe_ret.
Qed.

Lemma read_u16_safe binary offset context (Q : nat → Prop) :
  (∀ v, Q v) → safe (read_u16 binary offset context) Q.
Proof. intros HQ. apply safe_bind, read_uint_safe. intros v. by apply safe_ret. Qed.

Lemma push_header_safe binary n entries index :
  length entries = n → safe (push_header binary entries index) (λ es, length es = S n).
Proof.
  intros Hn. unfold push_header, read_header. apply safe_bind.
  do 3 (apply safe_bind, read_u16_safe; intros ?). apply safe_bind. apply safe_bind, read_uint_safe.
  intros ?. do 3 apply safe_ret. rewrite length_app. simpl. lia.
Qed.

Lemma headers_safe binary start count entries :
  length entries = start →
  safe (for_each (push_header binary) entries (seq start count)) (λ es, length es = start + count).
Proof.
  revert start entries. induction count as [|count IH]; intros start entries Hlen; cbn [seq for_each].
  { apply safe_ret. lia. }
  apply safe_bind. eapply safe_mono; [by apply push_header_safe|]. intros es Hes.
  eapply safe_mono; [by apply (IH (S start))|]. cbn. lia.
Qed.

Lemma parse_entry_block_safe binary (Q : list DictionaryEntry → Prop) :
  (∀ es, Q es) → safe (parse_entry_block binary) Q.
Proof.
  intros HQ. unfold parse_entry_block. apply safe_bind, read_u16_safe. intros count.
  apply safe_bind, require_safe. intros Hlen. apply safe_bind.
  eapply safe_mono; [by apply headers_safe|]. cbn beta. intros es Hes.
  apply safe_bind. rewrite slice_ok by lia. cbn [panicking safe].
  case_decide as Hf; [done|]. apply safe_bind.
  destruct (lookup_lt_is_Some_2 (Text.split_on TAB_BYTE (take (length binary - (2 + count * ENTRY_HEADER_SIZE))
    (drop (2 + count * ENTRY_HEADER_SIZE) binary))) 0) as [first ->]; [lia|]. cbn [panicking safe].
  apply safe_bind. rewrite slice_ok by lia. cbn [panicking safe]. apply safe_ret, HQ.
Qed.

Lemma parse_entry_shard_safe binary indices :
  safe (parse_entry_shard binary indices) (λ _, True).
Proof.
  unfold parse_entry_shard. apply safe_bind, read_u16_safe. intros slot_count.
  apply safe_bind, require_safe. intros Hlen. apply (safe_for_each (λ _, True)); [|done|done].
  intros index output _ _. unfold parse_slot. case_decide; [done|].
  apply safe_bind, read_uint_safe. intros start. apply safe_bind.
  assert (Hstop : ∀ Q : N → Prop, (∀ v, Q v) → safe (E:=DictionaryBinaryError)
    (if decide (index + 1 = slot_count) then mret (N.of_nat (length binary))
     else read_u32 binary (2 + (index + 1) * 4) "shard block offset") Q).
  { intros Q HQ. case_decide; [by apply safe_ret|by apply read_uint_safe]. }
  apply Hstop. intros stop. clear Hstop. case_decide as Hb; [done|]. apply safe_bind. rewrite slice_ok by lia.
  cbn [panicking safe]. apply safe_bind, parse_entry_block_safe. intros es. by apply safe_ret.
Qed.

Lemma cost_step_safe line record :
  safe (cost_step line record) (λ line', length line' = length line).
Proof.
  unfold cost_step. case_decide; [done|]. case_decide; [done|]. apply safe_ret. by rewrite length_insert.
Qed.
