(* ===== verification/TextReplacer.v ===== *)
(** * Emoji lookup

    src/crates/converter/src/text_replacer.rs: the emoji dictionary, its search by
    reading, and the variations of an emoji. [str::to_lowercase] is a parameter. *)

From S2P Require Import Prelude Unicode CustomTsv.

Inductive TextReplacerError := MalformedLine (line field_count : nat).

Record TextSearchResult := { query : ustring; found_text : ustring }.

Record ReplacementCandidate := { target : ustring; replacement : ustring; base : ustring }.

Record EmojiGroup := { group_base : ustring; variations : list ustring }.

(** [EmojiGroup::contains] *)
Definition group_contains (g : EmojiGroup) (emoji : ustring) : bool :=
  bool_decide (group_base g = emoji) || bool_decide (emoji ∈ variations g).

(** [EmojiGroup::alternatives] *)
Definition alternatives (g : EmojiGroup) (emoji : ustring) : list ustring :=
  filter (λ item, item ≠ emoji) (group_base g :: variations g).

Record TextReplacer := {
  emoji_search : gmap ustring (list ustring);
  emoji_groups : list EmojiGroup;
  non_base_emojis : gset ustring;
}.

Definition empty_replacer : TextReplacer :=
  {| emoji_search := ∅; emoji_groups := []; non_base_emojis := ∅ |}.

(** [TextReplacer::is_empty] *)
Definition replacer_is_empty (r : TextReplacer) : bool :=
  bool_decide (emoji_search r = ∅) && bool_decide (emoji_groups r = [])
  && bool_decide (non_base_emojis r = ∅).

Definition split_list (value : ustring) : list ustring :=
  filter (λ item, item ≠ []) (Text.split_on 44%N value).

(** What a line adds to the answers of one query. *)
Definition add_query (base : ustring) (variations : list ustring)
    (m : gmap ustring (list ustring)) (query : ustring) : gmap ustring (list ustring) :=
  <[query := default [] (m !! query) ++ base :: variations]> m.

Definition parse_line (r : TextReplacer) (indexed : nat * ustring) :
    result TextReplacerError TextReplacer :=
  let '(index, line) := indexed in
  if decide (line = []) then Ok r
  else
    match Text.split_on TAB line with
    | [base; queries; variations] =>
        let variations := split_list variations in
        Ok {| emoji_search := foldl (add_query base variations) (emoji_search r) (split_list queries);
              emoji_groups := emoji_groups r ++ [ {| group_base := base; variations := variations |} ];
              non_base_emojis := non_base_emojis r ∪ list_to_set variations |}
    | fields => Err (MalformedLine (index + 1) (length fields))
    end.

(** [TextReplacer::parse] *)
Fixpoint parse_lines (r : TextReplacer) (ls : list (nat * ustring)) :
    result TextReplacerError TextReplacer :=
  match ls with
  | [] => Ok r
  | l :: ls => result_bind (parse_line r l) (λ r, parse_lines r ls)
  end.

Definition parse (contents : ustring) : result TextReplacerError TextReplacer :=
  parse_lines empty_replacer (imap pair (Text.lines contents)).

Section replacer.
Context `{Segmentation} (to_lowercase : ustring → ustring).

Definition normalize_query (value : ustring) : ustring := Kana.to_hiragana (to_lowercase value).

(** [TextReplacer::search] *)
Definition search (r : TextReplacer) (value : ustring) (ignore_non_base_emoji : bool) :
    list TextSearchResult :=
  let q := normalize_query value in
  (λ emoji, {| query := q; found_text := emoji |}) <$>
    filter (λ emoji, ignore_non_base_emoji = false ∨ emoji ∉ non_base_emojis r)
      (default [] (emoji_search r !! q)).

(** [TextReplacer::replacements] *)
Definition replacements (r : TextReplacer) (left center right : ustring) : list ReplacementCandidate :=
  match (match graphemes center with [g] => Some g | _ => last (graphemes left) end) with
  | None => []
  | Some target =>
      match list_find (λ g, group_contains g target = true) (emoji_groups r) with
      | None => []
      | Some (_, group) =>
          (λ replacement, {| target := target; replacement := replacement; base := group_base group |})
            <$> alternatives group target
      end
  end.
End replacer.

(** ** What the index holds *)

(** The answers to a query are the emojis of the lines that list it, in the
    order of the file. *)
Definition line_answers (q : ustring) (line : ustring) : list ustring :=
  match Text.split_on TAB line with
  | [base; queries; variations] =>
      concat (replicate (length (filter (λ x, x = q) (split_list queries)))
                (base :: split_list variations))
  | _ => []
  end.

Lemma add_queries_lookup base variations m qs q :
  default [] (foldl (add_query base variations) m qs !! q) =
    default [] (m !! q) ++ concat (replicate (length (filter (λ x, x = q) qs)) (base :: variations)).
Proof.
  revert m. induction qs as [|x qs IH]; intros m; cbn [foldl]; [by rewrite app_nil_r|].
  rewrite IH. unfold add_query at 1. destruct (decide (x = q)) as [->|Hne].
  - rewrite lookup_insert_eq, filter_cons_True by done. simpl.
    by rewrite <- app_assoc.
  - by rewrite lookup_insert_ne, filter_cons_False.
Qed.

(** The base emoji of a line and its variations. *)
Definition line_group (line : ustring) : list EmojiGroup :=
  match Text.split_on TAB line with
  | [base; _; variations] => [ {| group_base := base; variations := split_list variations |} ]
  | _ => []
  end.

Lemma parse_line_spec r i line r' q :
  parse_line r (i, line) = Ok r' →
  default [] (emoji_search r' !! q) = default [] (emoji_search r !! q) ++ line_answers q line ∧
  emoji_groups r' = emoji_groups r ++ line_group line ∧
  non_base_emojis r' = non_base_emojis r ∪ list_to_set (line_group line ≫= variations).
Proof.
  unfold parse_line, line_answers, line_group. case_decide as Hl.
  { intros [= <-]. subst line. simpl. rewrite !app_nil_r. split_and!; [done..|set_solver]. }
  destruct (Text.split_on TAB line) as [|b [|qs [|v [|? ?]]]]; try done. intros [= <-]. cbn.
  rewrite add_queries_lookup, app_nil_r. done.
Qed.

Lemma parse_lines_spec r ls r' q :
  parse_lines r ls = Ok r' →
  default [] (emoji_search r' !! q) = default [] (emoji_search r !! q) ++ (ls.*2 ≫= line_answers q) ∧
  emoji_groups r' = emoji_groups r ++ (ls.*2 ≫= line_group) ∧
  non_base_emojis r' = non_base_emojis r ∪ list_to_set ((ls.*2 ≫= line_group) ≫= variations).
Proof.
  revert r. induction ls as [|[i line] ls IH]; intros r; cbn [parse_lines].
  { intros [= <-]. simpl. rewrite !app_nil_r. split_and!; [done..|set_solver]. }
  destruct (parse_line r (i, line)) as [r1|] eqn:Hp; [|done]. cbn [result_bind]. intros Hr.
  apply IH in Hr as (-> & -> & ->). apply (parse_line_spec _ _ _ _ q) in Hp as (-> & -> & ->).
  csimpl. rewrite bind_app, list_to_set_app_L. split_and!; [by rewrite app_assoc..|set_solver].
Qed.

Lemma lines_of_imap (ls : list ustring) : (imap pair ls).*2 = ls.
Proof. rewrite fmap_imap. apply list_eq. intros i. rewrite list_lookup_imap. by destruct (ls !! i). Qed.

(** The emoji dictionary: a search returns the emojis of the lines that list
    the normalized query, in the order of the file and without the variations when
    they are not wanted; a replacement is another emoji of the line of its target. *)
Theorem text_replacer_correct `{Segmentation} to_lowercase contents r :
  parse contents = Ok r →
  (∀ q ignore_non_base,
     found_text <$> search to_lowercase r q ignore_non_base =
       filter (λ e, ignore_non_base = false ∨ e ∉ (Text.lines contents ≫= line_group) ≫= variations)
         (Text.lines contents ≫= line_answers (normalize_query to_lowercase q))) ∧
  (∀ left center right c, c ∈ replacements r left center right →
     replacement c ≠ target c ∧ ∃ g, g ∈ (Text.lines contents ≫= line_group) ∧
       base c = group_base g ∧ target c ∈ group_base g :: variations g ∧
       replacement c ∈ group_base g :: variations g).
Proof.
  intros Hp. unfold parse in Hp. split.
  - intros q ignore.
    destruct (parse_lines_spec _ _ _ (normalize_query to_lowercase q) Hp) as (Hs & _ & Hn).
    rewrite lines_of_imap in *. unfold search. rewrite <- list_fmap_compose, Hs.
    unfold compose. cbn [found_text]. rewrite list_fmap_id. simpl. apply list_filter_iff.
    intros e. rewrite Hn. simpl. set_solver.
  - intros left center right c. destruct (parse_lines_spec _ _ _ [] Hp) as (_ & Hg & _).
    rewrite lines_of_imap in Hg. unfold replacements.
    destruct (match graphemes center with [g] => Some g | _ => last (graphemes left) end) as [t|]; [|set_solver].
    destruct (list_find (λ g, group_contains g t = true) (emoji_groups r)) as [[i g]|] eqn:Hf; [|set_solver]. apply list_find_Some in Hf as (Hi & Hc & _).
    intros (x & -> & [Hx Hin]%list_elem_of_filter)%list_elem_of_fmap. simpl. split; [done|].
    exists g. apply list_elem_of_lookup_2 in Hi. rewrite Hg in Hi. split_and!; [done|done| |done].
    unfold group_contains in Hc. apply orb_true_iff in Hc as [Hc|Hc]; apply bool_decide_eq_true in Hc; set_solver.
Qed.

Definition sample_emojis : ustring := u "😀	えがお,かお	😃,😄
🐶	いぬ	".

Lemma text_replacer_correct_witness :
  match parse sample_emojis with
  | Ok r =>
      found_text <$> @search id r (u "えがお") true = [u "😀"] ∧
      found_text <$> @search id r (u "カオ") false = [u "😀"; u "😃"; u "😄"]
  | Err _ => False
  end.
Proof.
  destruct (parse sample_emojis) as [r|] eqn:Hp; [|vm_compute in Hp; discriminate].
  pose proof (@text_replacer_correct scalar_clusters id sample_emojis r Hp) as [Hs _].
  split; rewrite Hs; vm_compute; reflexivity.
Defined.
