(* ===== verification/PostPrediction.v ===== *)
(** * Predictions after a composition

    src/crates/converter/src/post_prediction.rs: what may follow a committed
    candidate. The entries that follow a class are read from a file of the
    dictionary: they are an operation of its interface here. *)

From S2P Require Import Prelude Unicode Collections F32 Dictionary TextReplacer Composing Lattice Prediction.

(** [DictionaryStore::zero_hint_entries] *)
Class ZeroHints (E : Type) := zero_hint_entries : nat → result E (list DictionaryEntry).

Inductive PostPredictionKind :=
  | Additional (entries : list DictionaryEntry)
  | Replacement (target_entries replacement_entries : list DictionaryEntry).

Record PostCompositionPrediction := {
  post_text : ustring;
  post_value : f32;
  post_kind : PostPredictionKind;
  is_terminal : bool;
}.

Definition terminal_texts : list ustring := Eval vm_compute in [u "。"; u "."; u "．"].

(** [PostCompositionPrediction::new] *)
Definition post_new (text : ustring) (value : f32) (kind : PostPredictionKind) :
    PostCompositionPrediction :=
  {| post_text := text; post_value := value; post_kind := kind;
     is_terminal := bool_decide (text ∈ terminal_texts) |}.

Definition POST_BOS_CLASS_ID : nat := 0.
Definition POST_BOS_MEANING_ID : nat := 500.

(** The meaning of the last word that has one. *)
Definition last_meaning (es : list DictionaryEntry) : nat :=
  match list_find (λ e, includes_meaning e = true) (reverse es) with
  | Some (_, e) => meaning_id e
  | None => POST_BOS_MEANING_ID
  end.

(** [insert_str(0, ..)], [insert(0, ..)] put in front. *)
Record ReplacementState := {
  prefix_entries : list DictionaryEntry;
  prefix_value : f32;
  prefix_meaning : nat;
  total_word : ustring;
  total_ruby : ustring;
  target_entries : list DictionaryEntry;
}.

Definition by_post_value (l r : PostCompositionPrediction) : comparison :=
  total_cmp (post_value r) (post_value l).

Definition unique (values : list PostCompositionPrediction) : list PostCompositionPrediction :=
  sort_by by_post_value
    (dedup post_text (λ old new, flt (post_value old) (post_value new))
       (filter (λ v, post_text v ≠ []) values)).

(** Whether a zero hint ends in a particle. *)
Definition ends_in_particle (p : PostCompositionPrediction) : bool :=
  match post_kind p with
  | Additional es =>
      match last es with
      | Some e => (147 <=? right_id e) && (right_id e <=? 368)
      | None => false
      end
  | Replacement _ _ => false
  end.

(** The filter that keeps three of the hints that end in a particle. *)
Fixpoint limit_particles (particle_count : nat) (l : list PostCompositionPrediction) :
    list PostCompositionPrediction :=
  match l with
  | [] => []
  | p :: l =>
      if ends_in_particle p then
        if particle_count =? 3 then limit_particles particle_count l
        else p :: limit_particles (S particle_count) l
      else p :: limit_particles particle_count l
  end.

Section post.
Context `{Segmentation} {E : Type} `{Dictionary E, ZeroHints E}.
Context (to_lowercase : ustring → ustring) (text_replacer : option TextReplacer).

(** [PostCompositionPrediction::join] *)
Definition join_entries_of (p : PostCompositionPrediction) (es : list DictionaryEntry) :
    list DictionaryEntry :=
  match post_kind p with
  | Additional additional => es ++ additional
  | Replacement targets replacements => take (length es - length targets) es ++ replacements
  end.

Definition post_join (p : PostCompositionPrediction) (c : Candidate) : Candidate :=
  let es := join_entries_of p (entries c) in
  candidate_single (es ≫= word) (post_value p) (CSurface (count_ruby es)) (last_meaning es) es.

(** [emoji_candidates] *)
Definition EMOJI_RUBY : ustring := Eval vm_compute in u "エモジ".

Definition emoji_entry (text : ustring) : DictionaryEntry :=
  {| word := text; ruby := EMOJI_RUBY; left_id := 5; right_id := 5; meaning_id := 501;
     base_value := fopp (of_nat 3); adjustment := zero; metadata := no_metadata |}.

Definition emoji_candidates (c : Candidate) : list PostCompositionPrediction :=
  match text_replacer with
  | None => []
  | Some replacer =>
      (λ emoji, post_new (found_text emoji) (fopp (of_nat 3)) (Additional [emoji_entry (found_text emoji)])) <$>
        (filter (λ e, includes_meaning e = true) (entries c) ≫= λ e, search to_lowercase replacer (word e) true)
  end.

(** The cost of the meaning of a word behind another. *)
Definition meaning_of (former : nat) (e : DictionaryEntry) : f32 :=
  if includes_meaning e then default zero (meaning_cost former (meaning_id e)) else zero.

Definition zero_hint (c : Candidate) (last_right : nat) (output : list PostCompositionPrediction)
    (e : DictionaryEntry) : outcome E (list PostCompositionPrediction) :=
  let meaning := meaning_of (last_meaning_id c) e in
  cost ← fallible (connection_cost last_right (left_id e));
  let value := fadd (fadd (fadd (cand_value c) cost) meaning) (entry_value e) in
  mret (output ++ [post_new (word e) value (Additional [e])]).

Definition zero_hints (c : Candidate) (n_best : nat) : outcome E (list PostCompositionPrediction) :=
  match last (entries c) with
  | None => mret []
  | Some l =>
      found ← fallible (zero_hint_entries (right_id l));
      output ← for_each (zero_hint c (right_id l)) [] found;
      mret (take n_best (sort_by by_post_value output))
  end.

(** The state of [replacements] after it moved the last word of the prefix to
    the words to replace, and the class before it. *)
Definition pop_entry (st : ReplacementState) (front : list DictionaryEntry) (e : DictionaryEntry) :
    outcome E (ReplacementState * nat) :=
  let value := fsub (prefix_value st) (entry_value e) in
  let prior_right := match last front with Some l => right_id l | None => POST_BOS_CLASS_ID end in
  cost ← fallible (connection_cost prior_right (left_id e));
  let value := fsub value cost in
  let meaning := if includes_meaning e then last_meaning front else prefix_meaning st in
  let value := if includes_meaning e
               then fsub value (default zero (meaning_cost meaning (meaning_id e))) else value in
  mret ({| prefix_entries := front; prefix_value := value; prefix_meaning := meaning;
           total_word := word e ++ total_word st; total_ruby := ruby e ++ total_ruby st;
           target_entries := e :: target_entries st |}, prior_right).

Definition replacement_depth (ruby_count : nat) : N :=
  match ruby_count with 1 => 3 | 2 => 5 | _ => usize_max end.

(** One replacement word for the words at the end. *)
Definition push_replacement (st : ReplacementState) (prior_right : nat)
    (output : list PostCompositionPrediction) (e : DictionaryEntry) :
    outcome E (list PostCompositionPrediction) :=
  let meaning := meaning_of (prefix_meaning st) e in
  cost ← fallible (connection_cost prior_right (left_id e));
  let value := fadd (fadd (fadd (prefix_value st) cost) meaning) (entry_value e) in
  mret (output ++ [post_new (drop (length (total_word st)) (word e)) value
                     (Replacement (target_entries st) [e])]).

Definition replacement_usable (st : ReplacementState) (e : DictionaryEntry) : Prop :=
  prediction_usable (right_id e) = true ∧ total_word st `prefix_of` word e.

(** The loop of [replacements], once per word, at most three. *)
Fixpoint replacement_loop (rounds : nat) (st : ReplacementState)
    (output : list PostCompositionPrediction) : outcome E (list PostCompositionPrediction) :=
  match rounds with
  | 0 => mret output
  | S rounds =>
      match reverse (prefix_entries st) with
      | [] => mret output
      | e :: front =>
          '(st, prior_right) ← pop_entry st (reverse front) e;
          let depth := replacement_depth (length (graphemes (total_ruby st))) in
          found ← fallible (entries_after_prefix (total_ruby st) depth 700);
          output ← for_each (push_replacement st prior_right) output (filter (replacement_usable st) found);
          replacement_loop rounds st output
      end
  end.

Definition replacements (c : Candidate) (n_best : nat) : outcome E (list PostCompositionPrediction) :=
  output ← replacement_loop (length (entries c) `min` 3)
    {| prefix_entries := entries c; prefix_value := cand_value c; prefix_meaning := last_meaning_id c;
       total_word := []; total_ruby := []; target_entries := [] |} [];
  mret (take n_best (sort_by by_post_value output)).

(** [PostCompositionPredictor::predict] *)
Definition post_predict (c : Candidate) : outcome E (list PostCompositionPrediction) :=
  hints ← zero_hints c 15;
  let hints := limit_particles 0 (unique hints) in
  replaced ← replacements c 15;
  let output := reverse (take 3 (reverse (unique (emoji_candidates c)))) in
  room ← panicking (usub 10 (length output));
  let prediction_count := (room / 2) `max` (10 - (length output + length hints)) in
  let seen := post_text <$> output in
  let predictions := take prediction_count (filter (λ p, post_text p ∉ seen) (unique replaced)) in
  let seen := seen ++ (post_text <$> predictions) in
  let output := output ++ predictions in
  mret (output ++ take (10 - length output) (filter (λ p, post_text p ∉ seen) (unique hints))).
End post.

(** ** What is predicted continues the candidate *)

Lemma unique_spec values :
  NoDup (post_text <$> unique values) ∧
  ∀ p, p ∈ unique values → p ∈ values ∧ post_text p ≠ [].
Proof.
  unfold unique. set (l := filter _ values).
  destruct (dedup_spec post_text (λ old new, flt (post_value old) (post_value new)) l) as (Hnd & Hin & _).
  split.
  - by rewrite sort_by_perm.
  - intros p Hp. rewrite sort_by_perm in Hp. apply Hin, list_elem_of_filter in Hp. by destruct Hp.
Qed.

Lemma limit_particles_sublist n l : limit_particles n l `sublist_of` l.
Proof.
  revert n. induction l as [|p l IH]; intros n; cbn [limit_particles]; [done|].
  destruct (ends_in_particle p); [destruct (n =? 3)|]; by constructor.
Qed.

Section post_spec.
Context `{Segmentation} {E : Type} `{Dictionary E, !ZeroHints E}.
Context (to_lowercase : ustring → ustring) (text_replacer : option TextReplacer) (c : Candidate).

(** Joined to the candidate, the prediction adds its text. *)
Definition continues (p : PostCompositionPrediction) : Prop :=
  text (post_join p c) = (entries c ≫= word) ++ post_text p.

Lemma additional_continues e v : continues (post_new (word e) v (Additional [e])).
Proof. unfold continues, post_join, join_entries_of. csimpl. rewrite bind_app. csimpl. by rewrite app_nil_r. Qed.

Lemma zero_hints_continue n : safe (zero_hints c n) (λ ps, ∀ p, p ∈ ps → continues p).
Proof.
  unfold zero_hints. destruct (last (entries c)) as [l|]; [|apply safe_ret; set_solver].
  apply safe_bind, safe_fallible. intros found _. apply safe_bind.
  apply (safe_for_each (λ ps, ∀ p, p ∈ ps → continues p)).
  - intros e ps _ Hps. unfold zero_hint. apply safe_bind, safe_fallible. intros cost _. apply safe_ret.
    intros p [Hp| ->%list_elem_of_singleton]%elem_of_app; [auto|apply additional_continues].
  - set_solver.
  - intros ps Hps. apply safe_ret. intros p Hp%elem_of_take_in. rewrite sort_by_perm in Hp. auto.
Qed.

Definition replacing (st : ReplacementState) : Prop :=
  entries c = prefix_entries st ++ target_entries st ∧ total_word st = target_entries st ≫= word.

Lemma replacement_continues st e v :
  replacing st → replacement_usable st e →
  continues (post_new (drop (length (total_word st)) (word e)) v (Replacement (target_entries st) [e])).
Proof.
  intros [He Hw] [_ [suffix Hs]]. unfold continues, post_join, join_entries_of. cbn [text post_kind post_new candidate_single post_text].
  rewrite Hs, drop_app_length, He, length_app, Nat.add_sub, take_app_length, !bind_app.
  csimpl. by rewrite Hs, Hw, app_nil_r, <- app_assoc.
Qed.

Lemma replacement_loop_continues rounds st output :
  replacing st → (∀ p, p ∈ output → continues p) →
  safe (replacement_loop rounds st output) (λ ps, ∀ p, p ∈ ps → continues p).
Proof.
  revert st output. induction rounds as [|rounds IH]; intros st output Hst Hout; cbn [replacement_loop];
    [by apply safe_ret|].
  destruct (reverse (prefix_entries st)) as [|e front] eqn:Hrev; [by apply safe_ret|].
  apply safe_bind. unfold pop_entry at 1. apply safe_bind, safe_fallible. intros cost _. apply safe_ret.
  set (st' := {| prefix_entries := reverse front |}).
  assert (Hst' : replacing st').
  { destruct Hst as [He Hw]. unfold replacing. subst st'. cbn. rewrite Hw. split; [|done].
    rewrite He, <- (reverse_involutive (prefix_entries st)), Hrev, reverse_cons. by rewrite <- app_assoc. }
  apply safe_bind, safe_fallible. intros found _. apply safe_bind.
  apply (safe_for_each (λ ps, ∀ p, p ∈ ps → continues p)); [|done|intros ps Hps; by apply IH].
  intros r ps [Hr _]%list_elem_of_filter Hps. unfold push_replacement.
  apply safe_bind, safe_fallible. intros cost' _. apply safe_ret.
  intros p [Hp| ->%list_elem_of_singleton]%elem_of_app; [auto|by apply replacement_continues].
Qed.

Lemma replacements_continue n : safe (replacements c n) (λ ps, ∀ p, p ∈ ps → continues p).
Proof.
  unfold replacements. apply safe_bind. eapply safe_mono; [apply replacement_loop_continues|].
  - split; [by rewrite app_nil_r|done].
  - set_solver.
  - intros ps Hps. apply safe_ret. intros p Hp%elem_of_take_in. rewrite sort_by_perm in Hp. auto.
Qed.

Lemma emoji_continues p : p ∈ emoji_candidates to_lowercase text_replacer c → continues p.
Proof.
  unfold emoji_candidates. destruct text_replacer as [replacer|]; [|set_solver].
  intros (emoji & -> & _)%list_elem_of_fmap. apply (additional_continues (emoji_entry (found_text emoji))).
Qed.

(** Some of the distinct predictions whose text was not seen. *)
Lemma unseen_spec n (seen : list ustring) ps :
  NoDup (post_text <$> ps) →
  let taken := take n (filter (λ p, post_text p ∉ seen) ps) in
  NoDup (post_text <$> taken) ∧ ∀ p, p ∈ taken → p ∈ ps ∧ post_text p ∉ seen.
Proof.
  intros Hnd taken. split.
  - eapply sublist_NoDup; [exact Hnd|]. apply fmap_sublist. etrans; [apply sublist_take|apply sublist_filter].
  - intros p Hp%elem_of_take_in. apply list_elem_of_filter in Hp as [? ?]. done.
Qed.

(** The last emojis, none of them twice *)
Lemma last_emojis (out := reverse (take 3 (reverse (unique (emoji_candidates to_lowercase text_replacer c))))) :
  NoDup (post_text <$> out) ∧ ∀ p, p ∈ out → continues p ∧ post_text p ≠ [].
Proof.
  destruct (unique_spec (emoji_candidates to_lowercase text_replacer c)) as [He1 He2]. subst out. split.
  - rewrite reverse_Permutation. eapply sublist_NoDup; [|apply fmap_sublist, sublist_take].
    by rewrite reverse_Permutation.
  - intros p Hp. rewrite elem_of_reverse in Hp. apply elem_of_take_in in Hp. rewrite elem_of_reverse in Hp.
    apply He2 in Hp as [Hp ?]. split; [by apply emoji_continues|done].
Qed.

(** Predictions after a composition never panic; there are at most ten, with
    distinct texts that are not empty; and joining one to the candidate gives the
    words of the candidate followed by the text of the prediction, whether it adds
    words or replaces the last ones by longer words. *)
Theorem post_predict_continues :
  safe (post_predict to_lowercase text_replacer c) (λ ps,
    length ps ≤ 10 ∧ NoDup (post_text <$> ps) ∧
    ∀ p, p ∈ ps → post_text p ≠ [] ∧ text (post_join p c) = (entries c ≫= word) ++ post_text p).
Proof.
  unfold post_predict. apply safe_bind. eapply safe_mono; [apply zero_hints_continue|].
  cbn beta. intros hints Hhints. apply safe_bind. eapply safe_mono; [apply replacements_continue|].
  cbn beta. intros replaced Hreplaced.
  set (hs := limit_particles 0 (unique hints)).
  assert (Hhs : ∀ p, p ∈ hs → continues p).
  { intros p Hp. apply Hhints, unique_spec. by eapply sublist_subseteq; [apply limit_particles_sublist|]. }
  set (out := reverse (take 3 (reverse (unique (emoji_candidates to_lowercase text_replacer c))))).
  assert (Hlen : length out ≤ 3) by (subst out; rewrite length_reverse, length_take; lia).
  pose proof last_emojis as Hout. fold out in Hout.
  rewrite usub_ok by lia. apply safe_bind. cbn [panicking safe].
  set (n := ((10 - length out) / 2) `max` (10 - (length out + length hs))).
  assert (Hn : n ≤ 10 - length out).
  { subst n. apply Nat.max_lub; [by apply Nat.Div0.div_le_upper_bound; lia|lia]. }
  destruct (unique_spec replaced) as [Hr1 Hr2].
  destruct (unseen_spec n (post_text <$> out) (unique replaced) Hr1) as [Hp1 Hp2].
  set (predictions := take n _) in *.
  assert (Hplen : length predictions ≤ n) by (subst predictions; rewrite length_take; lia).
  destruct (unique_spec hs) as [Hh1 Hh2].
  destruct (unseen_spec (10 - length (out ++ predictions)) ((post_text <$> out) ++ (post_text <$> predictions))
    (unique hs) Hh1) as [Hz1 Hz2].
  set (zeros := take (10 - _) _) in *.
  assert (Hzlen : length zeros ≤ 10 - length (out ++ predictions)) by (subst zeros; rewrite length_take; lia).
  destruct Hout as [Ho1 Ho2]. apply safe_ret. split_and!.
  - rewrite !length_app in *. lia.
  - rewrite !fmap_app. apply NoDup_app. split_and!; [|intros t Ht|done].
    + apply NoDup_app. split_and!; [done| |done].
      intros t Ht (p & -> & Hp)%list_elem_of_fmap. by apply Hp2 in Hp as [_ []].
    + intros (p & -> & Hp)%list_elem_of_fmap. by apply Hz2 in Hp as [_ []].
  - intros p Hp. change (post_text p ≠ [] ∧ continues p).
    rewrite !elem_of_app in Hp. destruct Hp as [[Hp|Hp]|Hp].
    + by apply Ho2 in Hp as [? ?].
    + apply Hp2 in Hp as [Hp _]. apply Hr2 in Hp as [Hp ?]. split; [done|by apply Hreplaced].
    + apply Hz2 in Hp as [Hp _]. apply Hh2 in Hp as [Hp ?]. split; [done|by apply Hhs].
Qed.
End post_spec.
