(* ===== verification/LearningRecords.v ===== *)
(** * Learned records

    The pure part of src/crates/converter/src/learning.rs: what is learned from a
    candidate, how a record ages, how records are merged, and the value a record
    gives its entry. Days and counts are machine integers of 16 and 8 bits. *)

From Stdlib Require Import Floats.SpecFloat.
From S2P Require Import Prelude Unicode Collections F32 Dictionary Louds Lattice.

(** ** Modes *)

Inductive LearningMode := InputAndOutput | OnlyOutput | Nothing.

#[export] Instance learning_mode_eq_dec : EqDecision LearningMode.
Proof. solve_decision. Defined.

Definition uses_memory (m : LearningMode) : bool := negb (bool_decide (m = Nothing)).
Definition updates_memory (m : LearningMode) : bool := bool_decide (m = InputAndOutput).

(** ** Records *)

Record LearningRecord := {
  entry : DictionaryEntry;
  last_used_day : N;
  last_updated_day : N;
  count : N;
}.

Definition u8_max : N := 255.
Definition u16_max : N := 65535.

(** [saturating_add] at 8 and 16 bits; [saturating_sub] is the subtraction of [N]. *)
Definition saturating_add8 (a b : N) : N := N.min (a + b) u8_max.
Definition saturating_add16 (a b : N) : N := N.min (a + b) u16_max.

Definition same_entry (l r : DictionaryEntry) : bool :=
  bool_decide (ruby l = ruby r) && bool_decide (word l = word r)
  && bool_decide (left_id l = left_id r) && bool_decide (right_id l = right_id r).

(** ** What is learned *)

Definition between (from to class_id : nat) : bool := (from <=? class_id) && (class_id <=? to).

Definition learns_individual_word (e : DictionaryEntry) : bool :=
  let left := left_id e in
  negb (between 147 554 left) && negb (between 557 560 left) && negb (between 1297 1305 left)
  && negb (between 6 9 left) && negb (bool_decide (left ∈ [0; 1316])).

(** [iter().sum()] of floats starts from negative zero. *)
Definition sum_f32 (l : list f32) : f32 := foldl fadd (S754_zero true) l.

(** [join_entries]; the [expect]s fail on no entries. *)
Definition join_entries (es : list DictionaryEntry) : option DictionaryEntry :=
  first ← head es;
  last_entry ← last es;
  Some {| word := es ≫= word; ruby := es ≫= ruby; left_id := left_id first;
          right_id := right_id last_entry; meaning_id := meaning_id last_entry;
          base_value := sum_f32 (base_value <$> es); adjustment := zero; metadata := no_metadata |}.

(** The loop of [learned_clause_ranges]: the last entry of the last clause and
    the ranges, the last one first. *)
Definition clause_range_step (st : option DictionaryEntry * list (nat * nat))
    (indexed : nat * DictionaryEntry) : option DictionaryEntry * list (nat * nat) :=
  let '(previous, ranges) := st in
  let '(index, e) := indexed in
  let starts := match previous with
                | None => true
                | Some p => is_clause (right_id p) (left_id e)
                end in
  (Some e, match starts, ranges with
           | false, (from, _) :: ranges => (from, index + 1) :: ranges
           | _, _ => (index, index + 1) :: ranges
           end).

Definition learned_clause_ranges (es : list DictionaryEntry) : list (nat * nat) :=
  reverse (foldl clause_range_step (None, []) (imap pair es)).2.

(** [windows(2)] *)
Fixpoint pairs {A} (l : list A) : list (A * A) :=
  match l with
  | x :: ((y :: _) as l') => (x, y) :: pairs l'
  | _ => []
  end.

(** The entry of two adjacent clauses. *)
Definition join_pair (es : list DictionaryEntry) (p : (nat * nat) * (nat * nat)) :
    option DictionaryEntry :=
  part ← slice p.1.1 p.2.2 es; join_entries part.

Definition learned_clause_entries (es : list DictionaryEntry) : option (list DictionaryEntry) :=
  mapM (join_pair es) (pairs (learned_clause_ranges es)).

Definition learned_clause_entries_after (es : list DictionaryEntry) (update_start : nat) :
    option (list DictionaryEntry) :=
  mapM (join_pair es) (filter (λ p, update_start < p.2.2) (pairs (learned_clause_ranges es))).

(** [char::is_control] *)
Definition is_control (c : char) : bool :=
  ((c <=? 0x1F) || ((0x7F <=? c) && (c <=? 0x9F)))%N.

Section segmentation.
Context `{Segmentation}.

Definition valid_learning_entry (ids : CharacterIdMap.t) (e : DictionaryEntry) : bool :=
  negb (existsb is_control (word e)) && negb (bool_decide (ruby e = []))
  && negb (existsb is_control (ruby e)) && bool_decide (is_Some (CharacterIdMap.encode ids (ruby e))).

(** ** The value of a record, in double precision *)

Definition f64_of_Z (z : Z) : spec_float := binary_normalize 53 1024 z 0 false.

(** [value as f32] *)
Definition f64_as_f32 (a : spec_float) : f32 :=
  match a with S754_finite s m e => binary_round 24 128 s m e | _ => a end.

(** [x.powi(3)] *)
Definition powi3 (x : spec_float) : spec_float := SFmul 53 1024 x (SFmul 53 1024 x x).

Definition learning_value (count : N) (reading : ustring) : f32 :=
  let length := f64_of_Z (Z.of_nat (length (graphemes reading) `max` 1)) in
  let distance := SFsub 53 1024 (f64_of_Z 1) (SFdiv 53 1024 (f64_of_Z (Z.of_N count)) (f64_of_Z 255)) in
  f64_as_f32 (SFsub 53 1024 (SFsub 53 1024 (f64_of_Z (-1)) (SFdiv 53 1024 (f64_of_Z 4) length))
                (SFmul 53 1024 (f64_of_Z 3) (powi3 distance))).

Definition with_adjustment (e : DictionaryEntry) (value : f32) : DictionaryEntry :=
  {| word := word e; ruby := ruby e; left_id := left_id e; right_id := right_id e;
     meaning_id := meaning_id e; base_value := base_value e; adjustment := value;
     metadata := metadata e |}.

Definition learned_entry (r : LearningRecord) : DictionaryEntry :=
  let value := learning_value (count r) (ruby (entry r)) in
  with_metadata (with_adjustment (entry r) (fsub value (base_value (entry r)))) LEARNED.
End segmentation.

(** ** Ageing *)

(** The [while] loop of [decay]; a record is at most 65535 days old, so 2048
    rounds are enough. *)
Fixpoint halve (fuel : nat) (today last_updated count : N) : N * N :=
  match fuel with
  | 0 => (last_updated, count)
  | S fuel =>
      if (32 <? today - last_updated)%N
      then halve fuel today (saturating_add16 last_updated 32) (N.shiftr count 1)
      else (last_updated, count)
  end.

Definition HALVINGS : nat := 2048.

(** [decay], one record: what is kept of it. *)
Definition decay_record (today : N) (r : LearningRecord) : option LearningRecord :=
  let r := if (today <? last_used_day r)%N || (today <? last_updated_day r)%N
           then {| entry := entry r; last_used_day := today; last_updated_day := today; count := 1 |}
           else r in
  if (128 <=? today - last_used_day r)%N then None
  else
    let '(updated, count) := halve HALVINGS today (last_updated_day r) (count r) in
    if (0 <? count)%N
    then Some {| entry := entry r; last_used_day := last_used_day r; last_updated_day := updated;
                 count := count |}
    else None.

Definition decay (today : N) (records : list LearningRecord) : list LearningRecord :=
  omap (decay_record today) records.

(** ** Merging *)

Definition merge_into (record incoming : LearningRecord) : LearningRecord :=
  {| entry := entry incoming;
     last_used_day := N.max (last_used_day record) (last_used_day incoming);
     last_updated_day := N.max (last_updated_day record) (last_updated_day incoming);
     count := saturating_add8 (count record) (count incoming) |}.

Definition merge_record (records : list LearningRecord) (incoming : LearningRecord) :
    list LearningRecord :=
  match list_find (λ r, same_entry (entry r) (entry incoming) = true) records with
  | Some (i, r) => <[i := merge_into r incoming]> records
  | None => records ++ [incoming]
  end.

(** The key of [deduplicate_entries]. *)
Definition entry_key (e : DictionaryEntry) : ustring * ustring * nat * nat :=
  (ruby e, word e, left_id e, right_id e).

Definition deduplicate_entries (es : list DictionaryEntry) : list DictionaryEntry :=
  dedup entry_key (λ old new, flt (entry_value old) (entry_value new)) es.

Example learning_values :
  to_bits (@learning_value scalar_clusters 1 (u "カナ")) = 0xC0BEE001%Z ∧
  to_bits (@learning_value scalar_clusters 255 (u "カナ")) = 0xC0400000%Z.
Proof. vm_compute. by split. Qed.
