(* ===== verification/LearningFiles.v ===== *)
(** * The files of the learning memory

    src/crates/converter/src/learning.rs, the persistent part: the encoding of the
    records, the sequence of file operations of a save, the recovery of an
    interrupted save, and the reader. A directory is a map from names to contents;
    an operation may fail and leave its file in any state. *)

From Stdlib Require Import String.
From S2P Require Import Prelude Unicode Collections F32 Dictionary Louds MemoryIndex DictBinary LearningRecords.

(** ** Names *)

Definition LOUDS_FILE : ustring := Eval vm_compute in u "memory.louds".
Definition LOUDS_CHARS_FILE : ustring := Eval vm_compute in u "memory.loudschars2".
Definition METADATA_FILE : ustring := Eval vm_compute in u "memory.memorymetadata".
Definition PAUSE_FILE : ustring := Eval vm_compute in u ".pause".
Definition SHARD_SIZE : nat := Eval vm_compute in N.to_nat 2048.
Definition METADATA_ELEMENT_SIZE : nat := 6.

Definition memory_prefix : ustring := Eval vm_compute in u "memory".
Definition shard_suffix : ustring := Eval vm_compute in u ".loudstxt3".
Definition temporary_suffix : ustring := Eval vm_compute in u ".2".

(** [format!("{index}")] *)
Definition decimal (index : nat) : ustring :=
  Ascii.N_of_ascii <$> String.list_ascii_of_string (pretty (N.of_nat index)).

Definition shard_file (index : nat) : ustring := memory_prefix ++ decimal index ++ shard_suffix.

Definition temporary (name : ustring) : ustring := name ++ temporary_suffix.

Inductive LearningError :=
  | LearningIo (name : ustring)
  | InvalidData (reason : string).

(** ** Encoding *)

Record EncodedMemory := {
  mem_louds : list byte;
  mem_characters : list byte;
  mem_metadata : list byte;
  mem_shards : list (list byte);
}.

(** [u8::try_from(n).unwrap_or(u8::MAX)] and its kin *)
Definition saturate (bound n : N) : N := if (n <=? bound)%N then n else bound.

Definition u32_max : N := N.ones 32.

Definition f32_to_le_bytes (v : f32) : list byte := to_le_bytes 4 (Z.to_N (to_bits v)).

Definition metadata_element (r : LearningRecord) : list byte :=
  to_le_bytes 2 (last_used_day r) ++ to_le_bytes 2 (last_updated_day r) ++ [count r; 0%N].

Definition metadata_block (records : list LearningRecord) (block : list nat) : option (list byte) :=
  elements ← mapM (λ index, metadata_element <$> records !! index) block;
  Some (saturate u8_max (N.of_nat (length block)) :: concat elements).

Section files.
Context `{Segmentation}.

Definition entry_header (r : LearningRecord) : list byte :=
  to_le_bytes 2 (N.of_nat (left_id (entry r))) ++ to_le_bytes 2 (N.of_nat (right_id (entry r))) ++
  to_le_bytes 2 (N.of_nat (meaning_id (entry r))) ++
  f32_to_le_bytes (learning_value (count r) (ruby (entry r))).

Definition word_field (reading : ustring) (r : LearningRecord) : list byte :=
  TAB_BYTE :: (if decide (word (entry r) = reading) then [] else utf8 (word (entry r))).

Definition encode_entry_block (records : list LearningRecord) (indices : list nat) :
    option (list byte) :=
  rs ← mapM (λ index, records !! index) indices;
  let reading := match rs with r :: _ => ruby (entry r) | [] => [] end in
  Some (to_le_bytes 2 (saturate u16_max (N.of_nat (length indices))) ++ (rs ≫= entry_header) ++
        utf8 reading ++ (rs ≫= word_field reading)).

(** The offsets of the payloads; the sums stay below a [usize]. *)
Fixpoint payload_offsets (offset : nat) (payloads : list (list byte)) : list byte :=
  match payloads with
  | [] => []
  | payload :: payloads =>
      to_le_bytes 4 (saturate u32_max (N.of_nat offset)) ++
      payload_offsets (offset + length payload) payloads
  end.

Definition encode_entry_shard (records : list LearningRecord) (blocks : list (list nat)) :
    option (list byte) :=
  payloads ← mapM (encode_entry_block records) blocks;
  Some (to_le_bytes 2 (saturate u16_max (N.of_nat (length payloads))) ++
        payload_offsets (2 + length payloads * 4) payloads ++ concat payloads).

(** [encode_files] *)
Definition encode_files (ids : CharacterIdMap.t) (records : list LearningRecord) :
    option EncodedMemory :=
  trie ← trie_new ((λ r, CharacterIdMap.encode ids (ruby (entry r))) <$> records);
  index ← encode trie;
  let blocks := take 255 <$> blocks index in
  metadata ← mapM (metadata_block records) blocks;
  shards ← mapM (encode_entry_shard records) (chunks SHARD_SIZE blocks);
  Some {| mem_louds := louds_bytes index; mem_characters := characters index;
          mem_metadata := to_le_bytes 4 (saturate u32_max (N.of_nat (length blocks))) ++ concat metadata;
          mem_shards := shards |}.
End files.

(** ** Directories and operations *)

Definition Directory : Type := gmap ustring (list byte).

Inductive FsOp :=
  | WriteFile (name : ustring) (content : list byte)
  | CopyFile (source destination : ustring)
  | RemoveFile (name : ustring).

Definition op_target (op : FsOp) : ustring :=
  match op with WriteFile name _ | CopyFile _ name | RemoveFile name => name end.

(** What the system does with an operation: it performs it, or it fails (or the
    process dies) and leaves the file it works on with any content or absent. *)
Inductive Fault := Performs | Fails (left_with : option (list byte)).

Definition exec_op (fault : Fault) (op : FsOp) (fs : Directory) : Directory * bool :=
  match fault with
  | Fails left_with => (partial_alter (λ _, left_with) (op_target op) fs, false)
  | Performs =>
      match op with
      | WriteFile name content => (<[name := content]> fs, true)
      | CopyFile source destination =>
          match fs !! source with
          | Some content => (<[destination := content]> fs, true)
          | None => (fs, false)
          end
      | RemoveFile name => (delete name fs, true)
      end
  end.

(** Operations in sequence ([?] after each); operations without a fault listed
    for them are performed. *)
Fixpoint run_ops (faults : list Fault) (ops : list FsOp) (fs : Directory) :
    Directory * result LearningError () :=
  match ops with
  | [] => (fs, Ok ())
  | op :: ops =>
      match exec_op (default Performs (head faults)) op fs with
      | (fs, true) => run_ops (tail faults) ops fs
      | (fs, false) => (fs, Err (LearningIo (op_target op)))
      end
  end.

Definition write_temporary (name : ustring) (content : list byte) : FsOp :=
  WriteFile (temporary name) content.
Definition restore_temporary (name : ustring) : FsOp := CopyFile (temporary name) name.

(** The operations of [save_records]. *)
Definition save_ops (files : EncodedMemory) : list FsOp :=
  [ write_temporary LOUDS_FILE (mem_louds files);
    write_temporary LOUDS_CHARS_FILE (mem_characters files);
    write_temporary METADATA_FILE (mem_metadata files) ] ++
  imap (λ index shard, write_temporary (shard_file index) shard) (mem_shards files) ++
  [ WriteFile PAUSE_FILE []; restore_temporary LOUDS_CHARS_FILE; restore_temporary METADATA_FILE ] ++
  (restore_temporary ∘ shard_file <$> seq 0 (length (mem_shards files))) ++
  [ restore_temporary LOUDS_FILE; RemoveFile PAUSE_FILE ].

(** [sort] and [truncate] of [save_records]: the most recently used records. *)
Definition by_last_used (l r : LearningRecord) : comparison :=
  N.compare (last_used_day r) (last_used_day l).

Definition records_to_save (today : N) (max_count : nat) (records : list LearningRecord) :
    list LearningRecord :=
  take max_count (sort_by by_last_used (decay today records)).

(** [save_records]; the records are what it leaves in its argument. *)
Definition save_records `{Segmentation} (faults : list Fault) (ids : CharacterIdMap.t) (today : N)
    (max_count : nat) (records : list LearningRecord) (fs : Directory) :
    option (list LearningRecord * (Directory * result LearningError ())) :=
  let records := records_to_save today max_count records in
  files ← encode_files ids records;
  Some (records, run_ops faults (save_ops files) fs).

(** ** Recovery *)

Definition starts_with (prefix name : ustring) : bool := bool_decide (prefix `prefix_of` name).
Definition ends_with (suffix name : ustring) : bool := bool_decide (suffix `suffix_of` name).

Fixpoint compare_names (l r : ustring) : comparison :=
  match l, r with
  | [], [] => Eq
  | [], _ => Lt
  | _, [] => Gt
  | x :: l, y :: r => match N.compare x y with Eq => compare_names l r | c => c end
  end.

Definition is_temporary_shard (name : ustring) : bool :=
  starts_with memory_prefix name && ends_with (temporary shard_suffix) name.

(** The shards to restore; a temporary name ends in one ".2". *)
Definition temporary_shards (fs : Directory) : list ustring :=
  sort_by compare_names (filter (λ name, is_temporary_shard name = true) (map_to_list fs).*1).

Definition recover_ops (fs : Directory) : list FsOp :=
  [ restore_temporary LOUDS_CHARS_FILE; restore_temporary METADATA_FILE ] ++
  ((λ name, CopyFile name (take (length name - 2) name)) <$> temporary_shards fs) ++
  [ restore_temporary LOUDS_FILE; RemoveFile PAUSE_FILE ].

(** [recover_if_paused] *)
Definition recover_if_paused (faults : list Fault) (fs : Directory) :
    Directory * result LearningError () :=
  match fs !! PAUSE_FILE with
  | None => (fs, Ok ())
  | Some _ => run_ops faults (recover_ops fs) fs
  end.

(** ** Decoding *)

Definition read_required (fs : Directory) (name : ustring) : outcome LearningError (list byte) :=
  match fs !! name with Some content => mret content | None => Raise (LearningIo name) end.

(** [metadata.get(cursor)] *)
Definition get_byte (bytes : list byte) (cursor : nat) (reason : string) : outcome LearningError N :=
  match bytes !! cursor with Some b => mret b | None => Raise (InvalidData reason) end.

(** [read_u16], [read_u32] over [read_array]; the cursor after it. *)
Definition read_array (width : nat) (bytes : list byte) (cursor : nat) :
    outcome LearningError (N * nat) :=
  if decide (cursor + width ≤ length bytes)
  then mret (from_le_bytes (take width (drop cursor bytes)), cursor + width)
  else Raise (InvalidData "truncated numeric field").

Definition element_step (metadata : list byte) (st : list (N * N * N) * nat) (_ : nat) :
    outcome LearningError (list (N * N * N) * nat) :=
  let '(block, cursor) := st in
  '(last_used, cursor) ← read_array 2 metadata cursor;
  '(last_updated, cursor) ← read_array 2 metadata cursor;
  count ← get_byte metadata cursor "truncated metadata count";
  let cursor := cursor + (METADATA_ELEMENT_SIZE - 4) in
  mret (block ++ [(last_used, last_updated, count)], cursor).

Definition block_step (metadata : list byte) (st : list (list (N * N * N)) * nat) (_ : nat) :
    outcome LearningError (list (list (N * N * N)) * nat) :=
  let '(blocks, cursor) := st in
  count ← get_byte metadata cursor "truncated metadata block";
  '(block, cursor) ← for_each (element_step metadata) ([], S cursor) (seq 0 (N.to_nat count));
  mret (blocks ++ [block], cursor).

(** The records of a node; the state is the records so far and the loaded shard. *)
Definition node_step (fs : Directory) (st : list LearningRecord * option (nat * list byte))
    (indexed : nat * list (N * N * N)) :
    outcome LearningError (list LearningRecord * option (nat * list byte)) :=
  let '(records, loaded) := st in
  let '(node, block) := indexed in
  let shard_index := node / SHARD_SIZE in
  shard ← match loaded with
          | Some (loaded_shard, shard) =>
              if decide (loaded_shard = shard_index) then mret shard
              else read_required fs (shard_file shard_index)
          | None => read_required fs (shard_file shard_index)
          end;
  match parse_entry_shard shard [node `mod` SHARD_SIZE] with
  | Panic => Panic
  | Raise _ => Raise (InvalidData "invalid learning entry shard")
  | Return es =>
      if decide (length es ≠ length block)
      then Raise (InvalidData "entry and metadata counts differ")
      else
        mret (records ++ zip_with (λ e d,
                {| entry := e; last_used_day := d.1.1; last_updated_day := d.1.2; count := d.2 |})
                es block, Some (shard_index, shard))
  end.

(** [decode_directory] *)
Definition decode_directory (fs : Directory) : outcome LearningError (list LearningRecord) :=
  match fs !! METADATA_FILE with
  | None => mret []
  | Some metadata =>
      louds_bytes ← read_required fs LOUDS_FILE;
      characters ← read_required fs LOUDS_CHARS_FILE;
      louds ← match Louds.parse louds_bytes characters with
              | Return l => mret l
              | Raise _ => Raise (InvalidData "invalid LOUDS topology")
              | Panic => Panic
              end;
      '(node_count, cursor) ← read_array 4 metadata 0;
      if decide (N.to_nat node_count ≠ length characters ∨ N.to_nat node_count ≠ Louds.node_count louds)
      then Raise (InvalidData "inconsistent node counts")
      else
        '(blocks, cursor) ← for_each (block_step metadata) ([], cursor) (seq 0 (N.to_nat node_count));
        if decide (cursor ≠ length metadata) then Raise (InvalidData "trailing metadata bytes")
        else
          '(records, _) ← for_each (node_step fs) ([], None) (imap pair blocks);
          mret records
  end.
