(* ===== verification/LearningMemory.v ===== *)
(** * The learning memory

    src/crates/converter/src/learning.rs, the state: persisted and temporary
    records with their indexes, and the operations of the engine on them. Every
    operation first takes the day of the clock, an argument here. [None] is a panic;
    the lock is not modelled (one thread at a time holds it). *)

From S2P Require Import Prelude Unicode Collections F32 Dictionary Louds MemoryIndex Lattice PostPrediction LearningRecords LearningFiles.

Record LearningState := {
  directory : Directory;
  character_ids : CharacterIdMap.t;
  mode : LearningMode;
  max_count : nat;
  today : N;
  persisted_index : MemoryLouds;
  persisted : list LearningRecord;
  temporary_index : MemoryTrie;
  temporaries : list LearningRecord;
}.

Section memory.
Context `{Segmentation}.

Definition encoded_readings (ids : CharacterIdMap.t) (records : list LearningRecord) :
    list (option (list byte)) :=
  (λ r, CharacterIdMap.encode ids (ruby (entry r))) <$> records.

Definition persisted_index_of (ids : CharacterIdMap.t) (records : list LearningRecord) :
    option MemoryLouds := memory_louds_new (encoded_readings ids records).
Definition temporary_index_of (ids : CharacterIdMap.t) (records : list LearningRecord) :
    option MemoryTrie := trie_new (encoded_readings ids records).

(** ** The state *)

(** [open_with_clock]; the directory after it, and the memory or the error. *)
Definition open_memory (faults : list Fault) (fs : Directory) (mode : LearningMode) (max_count : nat)
    (ids : CharacterIdMap.t) (now : N) : option (Directory * result LearningError LearningState) :=
  let build fs records :=
    index ← persisted_index_of ids records;
    Some (fs, Ok {| directory := fs; character_ids := ids; mode := mode; max_count := max_count;
                    today := now; persisted_index := index; persisted := records;
                    temporary_index := empty_trie; temporaries := [] |}) in
  if uses_memory mode then
    match recover_if_paused faults fs with
    | (fs, Err e) => Some (fs, Err e)
    | (fs, Ok _) =>
        match decode_directory fs with
        | Panic => None
        | Raise e => Some (fs, Err e)
        | Return records =>
            build fs (decay now (filter (λ r, valid_learning_entry ids (entry r) = true) records))
        end
    end
  else build fs [].

(** The state with other records. *)
Definition with_records (st : LearningState) (persisted_index : MemoryLouds)
    (persisted : list LearningRecord) (temporary_index : MemoryTrie)
    (temporaries : list LearningRecord) : LearningState :=
  {| directory := directory st; character_ids := character_ids st; mode := mode st;
     max_count := max_count st; today := today st; persisted_index := persisted_index;
     persisted := persisted; temporary_index := temporary_index; temporaries := temporaries |}.

Definition with_today (st : LearningState) (today : N) : LearningState :=
  {| directory := directory st; character_ids := character_ids st; mode := mode st;
     max_count := max_count st; today := today; persisted_index := persisted_index st;
     persisted := persisted st; temporary_index := temporary_index st; temporaries := temporaries st |}.

Definition with_directory (st : LearningState) (fs : Directory) : LearningState :=
  {| directory := fs; character_ids := character_ids st; mode := mode st;
     max_count := max_count st; today := today st; persisted_index := persisted_index st;
     persisted := persisted st; temporary_index := temporary_index st; temporaries := temporaries st |}.

(** [refresh_day], which [lock] calls *)
Definition refresh_day (now : N) (st : LearningState) : option LearningState :=
  if (today st =? now)%N then Some st
  else
    let persisted := decay now (persisted st) in
    let temporaries := decay now (temporaries st) in
    persisted_index ← persisted_index_of (character_ids st) persisted;
    temporary_index ← temporary_index_of (character_ids st) temporaries;
    Some (with_today (with_records st persisted_index persisted temporary_index temporaries) now).

(** ** Reading *)

(** [entries] *)
Definition learned_entries (now : N) (st : LearningState) :
    option (LearningState * list DictionaryEntry) :=
  st ← refresh_day now st;
  if uses_memory (mode st)
  then Some (st, deduplicate_entries (learned_entry <$> persisted st ++ temporaries st))
  else Some (st, []).

(** The loop of [lookup] that encodes the reading; [None] stops the lookup. *)
Fixpoint lookup_ids (ids : CharacterIdMap.t) (kind : MatchKind) (gs : list Grapheme) :
    option (list byte) :=
  match gs with
  | [] => Some []
  | g :: gs =>
      match CharacterIdMap.id ids g with
      | Some id => rest ← lookup_ids ids kind gs; Some (id :: rest)
      | None => match kind with Prefixes => Some [] | _ => None end
      end
  end.

(** [take(maximum_length)] *)
Definition take_at_most {A} (maximum_length : option nat) (l : list A) : list A :=
  match maximum_length with Some n => take n l | None => l end.

(** [lookup], behind [exact_match], [matches_from_start] and [predict]; no
    maximum is [usize::MAX]. *)
Definition memory_lookup (now : N) (st : LearningState) (reading : ustring) (kind : MatchKind)
    (maximum_length : option nat) : option (LearningState * list DictionaryEntry) :=
  st ← refresh_day now st;
  if negb (uses_memory (mode st)) || bool_decide (reading = []) then Some (st, [])
  else
    match lookup_ids (character_ids st) kind (take_at_most maximum_length (graphemes reading)) with
    | None => Some (st, [])
    | Some ids =>
        found ← louds_lookup (persisted_index st) ids kind;
        recent ← trie_lookup (temporary_index st) ids kind;
        found ← mapM (λ index, persisted st !! index) found;
        recent ← mapM (λ index, temporaries st !! index) recent;
        Some (st, learned_entry <$> found ++ recent)
    end.

(** The lookups of a day, as the interface of the converter: a lookup has no errors. *)
Definition answers {E A} (found : option (A * list DictionaryEntry)) : outcome E (list DictionaryEntry) :=
  panicking (snd <$> found).

Definition memory_interface {E} (now : N) (st : LearningState) : MemoryLookup E := {|
  memory_matches := λ reading n, answers (memory_lookup now st reading Prefixes (Some n));
  memory_exact := λ reading, answers (memory_lookup now st reading Exact None);
  memory_predict := λ reading, answers (memory_lookup now st reading Completions None);
|}.

(** ** Learning *)

(** [memorize] *)
Definition memorize (st : LearningState) (e : DictionaryEntry) : option LearningState :=
  if negb (valid_learning_entry (character_ids st) e) then Some st
  else
    ids ← CharacterIdMap.encode (character_ids st) (ruby e);
    candidates ← trie_lookup (temporary_index st) ids Exact;
    records ← mapM (λ index, temporaries st !! index) candidates;
    match list_find (λ ir, same_entry (entry ir.2) e = true) (zip candidates records) with
    | Some (_, (index, record)) =>
        Some (with_records st (persisted_index st) (persisted st) (temporary_index st)
          (<[index := {| entry := e; last_used_day := today st; last_updated_day := last_updated_day record;
                         count := saturating_add8 (count record) 1 |}]> (temporaries st)))
    | None =>
        temporary_index ← MemoryIndex.insert (temporary_index st) ids (length (temporaries st));
        Some (with_records st (persisted_index st) (persisted st) temporary_index
          (temporaries st ++ [ {| entry := e; last_used_day := today st; last_updated_day := today st;
                                  count := 1 |} ]))
    end.

Definition memorize_all (st : LearningState) (es : list DictionaryEntry) : option LearningState :=
  foldl (λ st e, st ← st; memorize st e) (Some st) es.

(** What [learn] memorizes, in its order. *)
Definition learned_from (es : list DictionaryEntry) : option (list DictionaryEntry) :=
  clauses ← learned_clause_entries es;
  whole ← (if 1 <? length es then e ← join_entries es; Some [e] else Some []);
  Some (filter (λ e, learns_individual_word e = true) es ++ clauses ++ whole).

(** [learn] *)
Definition learn (now : N) (st : LearningState) (c : Candidate) : option LearningState :=
  st ← refresh_day now st;
  if updates_memory (mode st)
  then es ← learned_from (entries c); memorize_all st es
  else Some st.

(** What [learn_post_prediction] memorizes. *)
Definition learned_from_update (prefix update : list DictionaryEntry) : option (list DictionaryEntry) :=
  let es := prefix ++ update in
  clauses ← learned_clause_entries_after es (length prefix);
  whole ← (if 1 <? length es then e ← join_entries es; Some [e] else Some []);
  Some (filter (λ e, learns_individual_word e = true) update ++ clauses ++ whole).

(** [learn_post_prediction] *)
Definition learn_post_prediction (now : N) (st : LearningState) (c : Candidate)
    (p : PostCompositionPrediction) : option LearningState :=
  st ← refresh_day now st;
  if updates_memory (mode st) then
    let '(prefix, update) :=
      match post_kind p with
      | Additional es => (entries c, es)
      | Replacement targets replacements =>
          (take (length (entries c) - length targets) (entries c), replacements)
      end in
    es ← learned_from_update prefix update; memorize_all st es
  else Some st.

(** ** Forgetting and saving *)

(** [forget] *)
Definition forget (faults : list Fault) (now : N) (st : LearningState) (c : Candidate) :
    option (LearningState * result LearningError ()) :=
  st ← refresh_day now st;
  if updates_memory (mode st) then
    let temporary_targets := (λ e, (ruby e, word e)) <$> entries c in
    let persistent_targets := word <$> entries c in
    let temporaries :=
      filter (λ r, (ruby (entry r), word (entry r)) ∉ temporary_targets) (temporaries st) in
    temporary_index ← temporary_index_of (character_ids st) temporaries;
    let st := with_records st (persisted_index st) (persisted st) temporary_index temporaries in
    let kept := filter (λ r, word (entry r) ∉ persistent_targets) (persisted st) in
    '(kept, (fs, r)) ← save_records faults (character_ids st) (today st) (max_count st) kept (directory st);
    let st := with_directory st fs in
    match r with
    | Err e => Some (st, Err e)
    | Ok _ =>
        index ← persisted_index_of (character_ids st) kept;
        Some (with_records st index kept temporary_index temporaries, Ok ())
    end
  else Some (st, Ok ()).
(** [commit]; whether anything was saved. *)
Definition commit (faults : list Fault) (now : N) (st : LearningState) :
    option (LearningState * result LearningError bool) :=
  st ← refresh_day now st;
  if negb (updates_memory (mode st)) || bool_decide (length (temporaries st) = 0) then Some (st, Ok false)
  else
    let merged := foldl merge_record (persisted st) (temporaries st) in
    '(merged, (fs, r)) ← save_records faults (character_ids st) (today st) (max_count st) merged (directory st);
    let st := with_directory st fs in
    match r with
    | Err e => Some (st, Err e)
    | Ok _ =>
        index ← persisted_index_of (character_ids st) merged;
        Some (with_records st index merged empty_trie [], Ok true)
    end.

(** [is_memory_file] *)
Definition memory_file_names : list ustring := Eval vm_compute in [PAUSE_FILE; u "memory.bin"; u "memory.bin.2"].
Definition memory_file_suffixes : list ustring := Eval vm_compute in
  [u ".loudstxt3"; u ".loudstxt3.2"; u ".loudschars2"; u ".loudschars2.2"; u ".memorymetadata";
   u ".memorymetadata.2"; u ".louds"; u ".louds.2"; u "learningMemory.txt"].

Definition is_memory_file (name : ustring) : bool :=
  bool_decide (name ∈ memory_file_names) || existsb (λ suffix, ends_with suffix name) memory_file_suffixes.

(** The operations of [reset], in the order of the directory listing. *)
Definition reset_ops (fs : Directory) : list FsOp :=
  RemoveFile <$> filter (λ name, is_memory_file name = true) (map_to_list fs).*1.

(** [reset] *)
Definition reset (faults : list Fault) (now : N) (st : LearningState) :
    option (LearningState * result LearningError ()) :=
  st ← refresh_day now st;
  index ← persisted_index_of (character_ids st) [];
  let st := with_records st index [] empty_trie [] in
  let '(fs, r) := run_ops faults (reset_ops (directory st)) (directory st) in
  Some (with_directory st fs, r).
End memory.
