(* ===== verification/LearningRecordsSpec.v ===== *)
(** * Learned records: what ageing and joining do

    The clauses of a candidate partition its words, so joining them never fails;
    ageing keeps the records that are recent, halves their counts once per 32 days,
    and is idempotent. *)

From S2P Require Import Prelude Unicode Collections F32 Dictionary Louds Lattice LearningRecords.

(** ** Clauses *)

(** Ranges that cover [from, to) in order, last one first, none of them empty. *)
Inductive covers (from : nat) : nat → list (nat * nat) → Prop :=
  | covers_nil : covers from from []
  | covers_cons mid to ranges : covers from mid ranges → mid < to → covers from to ((mid, to) :: ranges).

Lemma covers_le from to ranges : covers from to ranges → from ≤ to.
Proof. induction 1; lia. Qed.

Lemma clause_ranges_loop es start previous ranges :
  covers 0 start ranges → (previous = None ↔ ranges = []) →
  covers 0 (start + length es)
    (foldl clause_range_step (previous, ranges) (imap (λ i, pair (start + i)) es)).2.
Proof.
  revert start previous ranges. induction es as [|e es IH]; intros start previous ranges Hc Hp.
  { simpl. by rewrite Nat.add_0_r. }
  cbn [imap foldl length]. rewrite Nat.add_0_r.
  rewrite (imap_ext _ (λ i, pair (S start + i))) by (intros; simpl; f_equal; lia).
  replace (start + S (length es)) with (S start + length es) by lia.
  unfold clause_range_step at 2. set (starts := match previous with None => true | _ => _ end).
  assert (Hnew : covers 0 (S start) ((start, start + 1) :: ranges)).
  { replace (S start) with (start + 1) by lia. constructor; [done|lia]. }
  destruct starts eqn:Hs; [by apply IH|]. destruct ranges as [|[a b] ranges]; [by apply IH|].
  apply IH; [|done]. replace (start + 1) with (S start) by lia. inversion Hc; subst.
  constructor; [done|lia].
Qed.

Lemma covers_pairs from to ranges p :
  covers from to ranges → p ∈ pairs (reverse ranges) → from ≤ p.1.1 ∧ p.1.1 < p.2.2 ∧ p.2.2 ≤ to.
Proof.
  intros Hc. assert (Hall : ∀ r, r ∈ ranges → from ≤ r.1 ∧ r.1 < r.2 ∧ r.2 ≤ to).
  { clear p. induction Hc as [|mid to ranges Hc IH Hm]; [set_solver|]. apply covers_le in Hc.
    intros r [->|Hr]%elem_of_cons; simpl; [lia|]. apply IH in Hr. lia. }
  assert (Hsorted : StronglySorted (λ r s, r.2 ≤ s.1) (reverse ranges)).
  { clear p. induction Hc as [|mid to ranges Hc IH Hm]; [constructor|]. rewrite reverse_cons.
    assert (Hmid : ∀ r, r ∈ reverse ranges → r.2 ≤ mid).
    { clear -Hc. intros r. rewrite elem_of_reverse. revert r.
      induction Hc as [|mid to ranges Hc IH Hm]; [set_solver|].
      intros r [->|Hr]%elem_of_cons; simpl; [done|]. apply IH in Hr. lia. }
    assert (Hs : StronglySorted (λ r s : nat * nat, r.2 ≤ s.1) (reverse ranges)).
    { apply IH. intros r Hr. destruct (Hall r) as (? & ? & ?); [set_solver|].
      rewrite <- elem_of_reverse in Hr. specialize (Hmid r Hr). lia. }
    clear -Hs Hmid. induction Hs as [|r l Hs IH Hr]; simpl; [repeat constructor|].
    constructor; [apply IH; set_solver|]. apply Forall_app. split; [done|]. constructor; [|done].
    simpl. apply Hmid. set_solver. }
  revert p. assert (Hall' : ∀ r, r ∈ reverse ranges → from ≤ r.1 ∧ r.1 < r.2 ∧ r.2 ≤ to).
  { intros r. rewrite elem_of_reverse. apply Hall. }
  clear Hall Hc. generalize dependent (reverse ranges). intros l Hs Hall.
  induction Hs as [|r l Hs IH Hr]; [set_solver|]. destruct l as [|s l]; [set_solver|].
  cbn [pairs]. intros p [->|Hp]%elem_of_cons; [|apply IH; [set_solver|done]].
  apply Forall_cons in Hr as [Hrs _]. destruct (Hall r) as (? & ? & ?); [set_solver|].
  destruct (Hall s) as (? & ? & ?); [set_solver|]. simpl. lia.
Qed.

Lemma join_entries_total es : es ≠ [] → ∃ e, join_entries es = Some e ∧ ruby e = es ≫= ruby ∧ word e = es ≫= word.
Proof.
  intros Hes. unfold join_entries. destruct es as [|e es]; [done|]. cbn [head mbind option_bind].
  destruct (last (e :: es)) as [l|] eqn:Hl; [|by apply last_None in Hl]. cbn [mbind option_bind].
  eexists. split_and!; done.
Qed.

Lemma join_pair_total es p :
  p ∈ pairs (learned_clause_ranges es) → ∃ e, join_pair es p = Some e.
Proof.
  intros Hp. unfold learned_clause_ranges in Hp.
  pose proof (clause_ranges_loop es 0 None [] ltac:(constructor) ltac:(done)) as Hc.
  apply (covers_pairs _ _ _ _ Hc) in Hp as (_ & Hlt & Hle). unfold join_pair.
  rewrite slice_ok by lia. cbn [mbind option_bind].
  destruct (join_entries_total (take (p.2.2 - p.1.1) (drop p.1.1 es))) as (e & -> & _); [|by eexists].
  intros E%(f_equal length). rewrite length_take, length_drop in E. simpl in *. lia.
Qed.

Lemma learned_clause_entries_total es : ∃ l, learned_clause_entries es = Some l.
Proof.
  unfold learned_clause_entries. apply mapM_is_Some_2, Forall_forall.
  intros p Hp. exact (join_pair_total es p Hp).
Qed.

Lemma learned_clause_entries_after_total es n : ∃ l, learned_clause_entries_after es n = Some l.
Proof.
  unfold learned_clause_entries_after. apply mapM_is_Some_2, Forall_forall.
  intros p [_ Hp]%list_elem_of_filter. exact (join_pair_total es p Hp).
Qed.

(** ** Ageing *)

Open Scope N_scope.

(** The records a day accepts as they are. *)
Definition fresh (day : N) (r : LearningRecord) : Prop :=
  last_used_day r <= day ∧ day - last_used_day r < 128 ∧
  last_updated_day r <= day ∧ day - last_updated_day r <= 32 ∧ 0 < count r <= 255.

(** How often the loop of [decay] halves a count. *)
Definition halvings (day updated : N) : N := (day - updated - 1) / 32.

Lemma halve_spec fuel day updated count :
  day <= u16_max → updated <= day → (day - updated) / 32 < N.of_nat fuel →
  halve fuel day updated count =
    (updated + 32 * halvings day updated, N.shiftr count (halvings day updated)).
Proof.
  unfold halvings. revert updated count. induction fuel as [|fuel IH]; intros updated count Hday Hup Hf;
    [by apply N.nlt_0_r in Hf|].
  cbn [halve]. destruct (N.ltb_spec 32 (day - updated)) as [Hlt|Hge].
  - assert (Hs : saturating_add16 updated 32 = updated + 32).
    { unfold saturating_add16, u16_max in *. lia. }
    rewrite Hs, IH; [|done|lia|].
    + replace (day - updated - 1) with ((day - (updated + 32) - 1) + 1 * 32) by lia.
      rewrite N.div_add by done. rewrite N.shiftr_shiftr. f_equal; [lia|f_equal; lia].
    + replace (day - updated) with ((day - (updated + 32)) + 1 * 32) in Hf by lia.
      rewrite N.div_add in Hf by done. lia.
  - rewrite N.div_small by lia. by rewrite N.mul_0_r, N.add_0_r, N.shiftr_0_r.
Qed.

Lemma halvings_bound day updated :
  updated <= day → updated + 32 * halvings day updated <= day ∧
  day - (updated + 32 * halvings day updated) <= 32.
Proof.
  intros Hup. unfold halvings. pose proof (N.div_mod' (day - updated - 1) 32) as Hd.
  pose proof (N.mod_lt (day - updated - 1) 32 ltac:(done)) as Hm.
  revert Hd Hm. generalize ((day - updated - 1) / 32) ((day - updated - 1) mod 32). intros. lia.
Qed.

Lemma shiftr_le n k : N.shiftr n k <= n.
Proof.
  rewrite N.shiftr_div_pow2. apply N.Div0.div_le_upper_bound.
  assert (2 ^ k ≠ 0) by (by apply N.pow_nonzero). nia.
Qed.

(** What the code does with a record whose days are not in the future. *)
Lemma decay_record_past day r :
  day <= u16_max → last_used_day r <= day → last_updated_day r <= day →
  let k := halvings day (last_updated_day r) in
  decay_record day r =
    if (day - last_used_day r <? 128) && (0 <? N.shiftr (count r) k)
    then Some {| entry := entry r; last_used_day := last_used_day r;
                 last_updated_day := last_updated_day r + 32 * k; count := N.shiftr (count r) k |}
    else None.
Proof.
  intros Hday Hu Hup k. unfold decay_record.
  rewrite (proj2 (N.ltb_ge day (last_used_day r))), (proj2 (N.ltb_ge day (last_updated_day r))) by done.
  cbn [orb]. destruct (N.leb_spec 128 (day - last_used_day r)).
  { by rewrite (proj2 (N.ltb_ge _ 128)). }
  rewrite (proj2 (N.ltb_lt _ 128)) by done.
  rewrite halve_spec; [done|done|done|].
  apply N.Div0.div_lt_upper_bound. unfold HALVINGS, u16_max in *. lia.
Qed.

(** A record of the future is taken as used today. *)
Definition current (day : N) (r : LearningRecord) : LearningRecord :=
  if (day <? last_used_day r) || (day <? last_updated_day r)
  then {| entry := entry r; last_used_day := day; last_updated_day := day; count := 1 |} else r.

Lemma current_bounds day r :
  last_used_day (current day r) <= day ∧ last_updated_day (current day r) <= day ∧
  entry (current day r) = entry r ∧ (count r <= 255 → count (current day r) <= 255).
Proof.
  unfold current. destruct (N.ltb_spec day (last_used_day r)), (N.ltb_spec day (last_updated_day r));
    cbn [orb]; (split_and!; cbn; [lia|lia|done|intros; lia]).
Qed.

Lemma current_idemp day r : current day (current day r) = current day r.
Proof.
  unfold current at 2 3. destruct (_ || _) eqn:E; [|by unfold current; rewrite E].
  unfold current. cbn [last_used_day last_updated_day]. by rewrite N.ltb_irrefl.
Qed.

Lemma decay_record_current day r : decay_record day (current day r) = decay_record day r.
Proof.
  unfold decay_record.
  change (if (day <? last_used_day (current day r)) || (day <? last_updated_day (current day r))
          then _ else current day r) with (current day (current day r)).
  by rewrite current_idemp.
Qed.

Lemma current_past day r :
  last_used_day (current day r) <= day ∧ last_updated_day (current day r) <= day ∧
  entry (current day r) = entry r ∧ decay_record day (current day r) = decay_record day r ∧
  (count r <= 255 → count (current day r) <= 255).
Proof.
  destruct (current_bounds day r) as (? & ? & ? & ?). split_and!; try done. apply decay_record_current.
Qed.

Lemma decay_record_fresh day r r' :
  day <= u16_max → count r <= 255 → decay_record day r = Some r' → fresh day r' ∧ entry r' = entry r.
Proof.
  intros Hday Hc. destruct (current_past day r) as (Hu & Hup & He & <- & Hcc). specialize (Hcc Hc).
  rewrite decay_record_past by done. cbn zeta. set (k := halvings _ _).
  destruct (N.ltb_spec (day - last_used_day (current day r)) 128); [|done].
  destruct (N.ltb_spec 0 (N.shiftr (count (current day r)) k)); [|done]. cbn [andb]. intros [= <-].
  destruct (halvings_bound day (last_updated_day (current day r)) Hup) as [H1 H2].
  unfold fresh. cbn. fold k in H1, H2. pose proof (shiftr_le (count (current day r)) k).
  split; [|done]. split_and!; try done; lia.
Qed.

Lemma decay_record_id day r : day <= u16_max → fresh day r → decay_record day r = Some r.
Proof.
  intros Hday (Hu & Hd & Hup & Hd' & Hc & _). rewrite decay_record_past by done. cbn zeta.
  assert (Hk : halvings day (last_updated_day r) = 0).
  { unfold halvings. apply N.div_small. lia. }
  rewrite Hk, N.shiftr_0_r, N.mul_0_r, N.add_0_r.
  rewrite (proj2 (N.ltb_lt _ _)), (proj2 (N.ltb_lt _ _)) by done. by destruct r.
Qed.

Lemma decay_fresh day records :
  day <= u16_max → Forall (λ r, count r <= 255) records → Forall (fresh day) (decay day records).
Proof.
  intros Hday Hc. unfold decay. apply Forall_forall. intros r' (r & Hr & Hd)%list_elem_of_omap.
  rewrite Forall_forall in Hc. by destruct (decay_record_fresh day r r' Hday (Hc r Hr) Hd).
Qed.

Lemma decay_id day records : day <= u16_max → Forall (fresh day) records → decay day records = records.
Proof.
  intros Hday Hf. unfold decay. induction Hf as [|r records Hr _ IH]; [done|].
  cbn [omap list_omap]. rewrite decay_record_id by done. by rewrite IH.
Qed.

Lemma decay_record_entry day r r' : decay_record day r = Some r' → entry r' = entry r.
Proof.
  destruct (current_bounds day r) as (_ & _ & <- & _). unfold decay_record.
  change (if (day <? last_used_day r) || (day <? last_updated_day r) then _ else r) with (current day r).
  destruct (128 <=? _); [done|]. destruct (halve _ _ _ _) as [u n]. destruct (0 <? n); [|done].
  by intros [= <-].
Qed.

Lemma decay_entries day records r' :
  r' ∈ decay day records → ∃ r, r ∈ records ∧ entry r' = entry r.
Proof.
  intros (r & Hr & Hd)%list_elem_of_omap. exists r. split; [done|]. by eapply decay_record_entry.
Qed.

Lemma decay_keys day records :
  (entry_key ∘ entry <$> decay day records) `sublist_of` (entry_key ∘ entry <$> records).
Proof.
  unfold decay. induction records as [|r records IH]; [done|]. cbn [omap list_omap].
  destruct (decay_record day r) as [r'|] eqn:Hd; [|by constructor].
  apply decay_record_entry in Hd. rewrite !fmap_cons. replace ((entry_key ∘ entry) r') with ((entry_key ∘ entry) r) by (by simpl; rewrite Hd). by constructor.
Qed.

Close Scope N_scope.

(** ** The ageing of records *)

Open Scope N_scope.

(** A record of the past: no day of it is after [day]. *)
Definition past (day : N) (r : LearningRecord) : Prop := last_used_day r <= day ∧ last_updated_day r <= day.

(** A record is forgotten after 128 days without use; each full period of 32 days
    since the last halving, but for the last day, halves its count, and a count of
    zero is forgotten too. *)
Definition aged (day : N) (r : LearningRecord) : option LearningRecord :=
  let k := (day - last_updated_day r - 1) / 32 in
  if decide (day - last_used_day r < 128 ∧ 0 < count r / 2 ^ k)
  then Some {| entry := entry r; last_used_day := last_used_day r;
               last_updated_day := last_updated_day r + 32 * k; count := count r / 2 ^ k |}
  else None.

Lemma decay_record_aged day r : day <= u16_max → past day r → decay_record day r = aged day r.
Proof.
  intros Hday [Hu Hup]. rewrite decay_record_past by done. unfold aged, halvings.
  rewrite N.shiftr_div_pow2. case_decide as E; destruct (N.ltb_spec (day - last_used_day r) 128),
    (N.ltb_spec 0 (count r / 2 ^ ((day - last_updated_day r - 1) / 32))); cbn [andb]; tauto || lia.
Qed.

(** Halving twice is halving once for the whole time. *)
Lemma halvings_split day1 day2 updated :
  updated <= day1 → day1 <= day2 →
  let k1 := (day1 - updated - 1) / 32 in
  k1 + (day2 - (updated + 32 * k1) - 1) / 32 = (day2 - updated - 1) / 32 ∧ updated + 32 * k1 <= day1.
Proof.
  intros Hup Hle k1. destruct (halvings_bound day1 updated Hup) as [Hb _]. unfold halvings in Hb. fold k1 in Hb.
  assert (Hk : 32 * k1 <= day1 - updated - 1) by apply N.Div0.mul_div_le. clearbody k1.
  split; [|done]. destruct (decide (k1 = 0)) as [->|E]; [by rewrite N.add_0_l, N.mul_0_r, N.add_0_r|].
  replace (day2 - updated - 1) with ((day2 - (updated + 32 * k1) - 1) + k1 * 32) by lia.
  rewrite N.div_add by done. lia.
Qed.

Lemma aged_twice day1 day2 r :
  past day1 r → day1 <= day2 →
  match aged day1 r with Some r1 => past day1 r1 ∧ aged day2 r1 = aged day2 r | None => aged day2 r = None end.
Proof.
  intros [Hu Hup] Hle. destruct (halvings_split day1 day2 (last_updated_day r) Hup Hle) as [Hk Hb].
  unfold aged. set (k1 := (day1 - last_updated_day r - 1) / 32) in *.
  set (k := (day2 - last_updated_day r - 1) / 32) in *.
  assert (Hcount : ∀ k2, k1 + k2 = k → count r / 2 ^ k1 / 2 ^ k2 = count r / 2 ^ k).
  { intros k2 <-. by rewrite N.pow_add_r, N.Div0.div_div. }
  case_decide as E1.
  - split; [done|]. cbn [last_updated_day last_used_day count entry].
    rewrite (Hcount _ Hk). set (k2 := (day2 - (last_updated_day r + 32 * k1) - 1) / 32) in *. clearbody k2 k k1.
    by replace (last_updated_day r + 32 * k1 + 32 * k2) with (last_updated_day r + 32 * k) by lia.
  - rewrite decide_False; [done|]. intros [Hidle Hpos]. apply E1. split; [lia|].
    rewrite <- (Hcount _ Hk) in Hpos. destruct (decide (count r / 2 ^ k1 = 0)) as [E|E]; [|by apply N.neq_0_lt_0].
    rewrite E, N.Div0.div_0_l in Hpos. lia.
Qed.

(** Ageing: of the records of the past, [decay] keeps those that were used in
    the last 128 days and whose count, halved once for every full 32 days since it
    was last halved, is not zero; and running it on other days in between changes
    nothing, so a memory that is opened every day and one that is opened once hold
    the same records. A record of the future counts as learned today. *)
Theorem decay_correct day records :
  day <= u16_max → Forall (past day) records →
  decay day records = omap (aged day) records ∧
  ∀ earlier, earlier <= day → Forall (past earlier) records →
    decay day (decay earlier records) = decay day records.
Proof.
  intros Hday Hpast.
  assert (Hspec : ∀ d rs, d <= u16_max → Forall (past d) rs → decay d rs = omap (aged d) rs).
  { intros d rs Hd Hrs. unfold decay. induction Hrs as [|r rs Hr _ IH]; [done|].
    cbn [omap list_omap]. by rewrite decay_record_aged, IH. }
  split; [by apply Hspec|]. intros earlier Hle Hearly.
  rewrite (Hspec earlier records) by (lia || done). rewrite (Hspec day records) by done.
  clear Hpast. induction Hearly as [|r rs Hr _ IH]; [done|]. cbn [omap list_omap].
  pose proof (aged_twice earlier day r Hr Hle) as Ht. destruct (aged earlier r) as [r1|]; [|by rewrite Ht].
  destruct Ht as [[Hu1 Hup1] Ht]. unfold decay in *. cbn [omap list_omap].
  rewrite decay_record_aged, Ht by (done || (split; lia)). by rewrite IH.
Qed.

Definition old_record (used updated n : N) : LearningRecord :=
  {| entry := {| word := u "赤"; ruby := u "アカ"; left_id := 1285; right_id := 1285; meaning_id := 5;
                 base_value := zero; adjustment := zero; metadata := no_metadata |};
     last_used_day := used; last_updated_day := updated; count := n |}.

(** Sixty-five days after a halving a count is halved twice; a count of three is
    gone after one more period. *)
Lemma decay_correct_witness :
  let records := [old_record 100 100 9; old_record 30 100 9; old_record 110 100 3] in
  decay 165 records = omap (aged 165) records ∧
  decay 165 (decay 140 records) = decay 165 records ∧
  count <$> decay 165 records = [2].
Proof.
  destruct (decay_correct 165 [old_record 100 100 9; old_record 30 100 9; old_record 110 100 3]) as [H1 H2].
  - by vm_compute.
  - repeat constructor; by vm_compute.
  - cbn zeta. split_and!; [done| |by vm_compute]. apply H2; [by vm_compute|]. repeat constructor; by vm_compute.
Defined.

Close Scope N_scope.
