(* ===== verification/LearningFilesSpec.v ===== *)
(** * The files of the learning memory: encoding and decoding

    Encoding never fails; a file that was encoded is decoded to the same records. *)

From S2P Require Import Prelude Unicode Collections F32 Dictionary Louds MemoryIndex MemoryIndexSpec MemoryLoudsSpec DictBinary LearningRecords LearningRecordsSpec LearningFiles.

Lemma is_Some_mapM {A B} (f : A → option B) l : (∀ x, x ∈ l → is_Some (f x)) → is_Some (mapM f l).
Proof. intros Hf. apply mapM_is_Some_2, Forall_forall, Hf. Qed.

(** ** The blocks of the encoded trie *)

(** The level order as paths: every path of the trie but the root's, once. *)
Lemma levels_paths held paths nodes :
  trie_inv held paths nodes →
  ∀ fuel k st current cps, Forall2 (λ e p, paths !! e.2 = Some p) current cps →
  (∀ e, e ∈ current → k ≤ e.2) → length nodes ≤ k + fuel →
  ∃ order ps, levels fuel nodes st current = Some (state_after nodes st order) ∧
    Forall2 (λ e p, paths !! e.2 = Some p) order ps ∧ ps ≡ₚ cps ≫= subtree paths.
Proof.
  intros Hinv. induction fuel as [|fuel IH]; intros k st current cps Hcps Hk Hfuel;
    destruct Hcps as [|e p current cps Hp Hcps]; cbn [levels];
    try (exists [], []; unfold state_after; cbn; rewrite !app_nil_r; split_and!; [by destruct st|constructor|done]).
  - exfalso. destruct (inv_lookup _ _ _ Hinv _ _ Hp) as [nd Hnd]. apply lookup_lt_Some in Hnd.
    specialize (Hk e ltac:(set_solver)). lia.
  - assert (Hall : Forall2 (λ e p, paths !! e.2 = Some p) (e :: current) (p :: cps)) by (by constructor).
    clear Hp Hcps. revert Hk Hall. generalize (e :: current) (p :: cps). clear e p current cps.
    intros current cps Hk Hcps.
    assert (Hb : ∀ e, e ∈ current → e.2 < length nodes).
    { intros e [i Hi]%list_elem_of_lookup. destruct (Forall2_lookup_l _ _ _ _ _ Hcps Hi) as (p & _ & Hp).
      destruct (inv_lookup _ _ _ Hinv _ _ Hp) as [nd Hnd]. by eapply lookup_lt_Some. }
    rewrite level_spec by done. cbn [mbind option_bind app].
    assert (Hkids : ∃ kps, Forall2 (λ e p, paths !! e.2 = Some p) (current ≫= kids nodes) kps ∧
      cps ≫= subtree paths ≡ₚ cps ++ (kps ≫= subtree paths)).
    { clear Hk Hb Hfuel IH. induction Hcps as [|e p current cps Hp _ (kps & Hkps & Hperm)]; [by exists []|].
      destruct (inv_lookup _ _ _ Hinv _ _ Hp) as [nd Hnd].
      exists (child_paths p nd ++ kps). csimpl. split.
      - apply Forall2_app; [|done]. assert (Hkd : kids nodes e = children nd) by (unfold kids; by rewrite Hnd).
        rewrite Hkd. pose proof (child_paths_spec _ _ _ Hinv _ _ _ Hp Hnd) as Hch.
        apply Forall2_fmap_l in Hch. exact Hch.
      - rewrite (subtree_unfold _ _ _ Hinv _ _ _ Hp Hnd), bind_app, Hperm. simpl. solve_Permutation. }
    destruct Hkids as (kps & Hkps & Hperm).
    destruct (IH (S k) (state_after nodes st current) (current ≫= kids nodes) kps Hkps)
      as (order & ps & Hl & Hps & Hpp); [|lia|].
    { intros e' (e & He' & He)%list_elem_of_bind. specialize (Hk e He).
      apply (kids_deeper _ _ _ Hinv) in He'; [lia|by apply Hb]. }
    exists (current ++ order), (cps ++ ps). split_and!.
    + change (list_bind _ _ (kids nodes) current) with (current ≫= kids nodes). rewrite Hl.
      unfold state_after. cbn [enc_bits enc_characters enc_blocks].
      by rewrite !fmap_app, concat_app, !app_assoc.
    + by apply Forall2_app.
    + by rewrite Hperm, Hpp.
Qed.

(** The blocks of the encoded index: two empty ones, then the records of every
    path of the trie but the root's. *)
Lemma encode_blocks encoded nodes paths :
  trie_inv (holding encoded) paths nodes →
  ∃ index ps, encode nodes = Some index ∧ blocks index = [[]; []] ++ (holding encoded <$> ps) ∧
    [] :: ps ≡ₚ paths.
Proof.
  intros Hinv. destruct (inv_lookup _ _ _ Hinv 0 [] (inv_root _ _ _ Hinv)) as [root Hroot].
  pose proof (child_paths_spec _ _ _ Hinv 0 [] root (inv_root _ _ _ Hinv) Hroot) as Hch.
  destruct (levels_paths _ _ _ Hinv (length nodes) 0
    {| enc_bits := [true; false] ++ degree_bits root; enc_characters := [0%N; 0%N]; enc_blocks := [[]; []] |}
    (children root) (child_paths [] root)) as (order & ps & Hl & Hps & Hperm); [by apply Forall2_fmap_l in Hch|lia..|].
  unfold encode. rewrite Hroot. cbn [mbind option_bind]. rewrite Hl. cbn [mbind option_bind].
  eexists _, ps. split_and!; [done| |].
  - simpl. do 2 f_equal. clear -Hps Hinv.
    induction Hps as [|e p order ps Hp _ IH]; [done|]. rewrite !fmap_cons, IH. f_equal.
    destruct (inv_lookup _ _ _ Hinv _ _ Hp) as [nd Hnd]. unfold kept. rewrite Hnd.
    by destruct (inv_node _ _ _ Hinv _ _ _ Hp Hnd) as (_ & ? & _).
  - rewrite Hperm, <- (subtree_unfold _ _ _ Hinv 0 [] root (inv_root _ _ _ Hinv) Hroot).
    unfold subtree. clear. induction paths as [|p paths IH]; [done|].
    rewrite filter_cons_True by apply prefix_nil. by rewrite IH.
Qed.

Lemma holding_bound encoded p i : i ∈ holding encoded p → i < length encoded.
Proof. intros Hi%elem_of_holding. by eapply lookup_lt_Some. Qed.

Section encode.
Context `{Segmentation}.

Lemma records_at (records : list LearningRecord) (block : list nat) :
  (∀ i, i ∈ block → i < length records) → ∃ rs, mapM (λ index, records !! index) block = Some rs.
Proof. intros Hb. apply is_Some_mapM. intros i Hi. apply lookup_lt_is_Some. by apply Hb. Qed.

Lemma metadata_block_total records block :
  (∀ i, i ∈ block → i < length records) → is_Some (metadata_block records block).
Proof.
  intros Hb. unfold metadata_block.
  destruct (is_Some_mapM (λ index, metadata_element <$> records !! index) block) as [es ->]; [|by eexists].
  intros i Hi. apply fmap_is_Some, lookup_lt_is_Some. by apply Hb.
Qed.

Lemma encode_entry_shard_total records bs :
  (∀ block i, block ∈ bs → i ∈ block → i < length records) → is_Some (encode_entry_shard records bs).
Proof.
  intros Hb. unfold encode_entry_shard.
  destruct (is_Some_mapM (encode_entry_block records) bs) as [ps ->]; [|by eexists].
  intros block Hblock. unfold encode_entry_block.
  destruct (records_at records block) as [rs ->]; [|by eexists]. eauto.
Qed.

(** The trie and the index that [encode_files] goes through. *)
Lemma encode_files_total ids records : ∃ files, encode_files ids records = Some files.
Proof.
  unfold encode_files. set (encoded := _ <$> records).
  destruct (trie_new_spec encoded) as (nodes & paths & -> & Hinv & _). cbn [mbind option_bind].
  destruct (encode_blocks encoded nodes paths Hinv) as (index & ps & -> & Hbl & _). cbn [mbind option_bind].
  set (bs := take 255 <$> blocks index).
  assert (Hb : ∀ block i, block ∈ bs → i ∈ block → i < length records).
  { intros block i (b & -> & Hb)%list_elem_of_fmap Hi%elem_of_take_in. rewrite Hbl in Hb.
    apply elem_of_app in Hb as [Hb|(p & -> & _)%list_elem_of_fmap]; [apply elem_of_cons in Hb as [->|Hb]; [by apply not_elem_of_nil in Hi|]; apply list_elem_of_singleton in Hb as ->; by apply not_elem_of_nil in Hi|].
    apply holding_bound in Hi. subst encoded. by rewrite length_fmap in Hi. }
  destruct (is_Some_mapM (metadata_block records) bs) as [ms ->].
  { intros block Hblock. apply metadata_block_total. eauto. }
  cbn [mbind option_bind].
  destruct (is_Some_mapM (encode_entry_shard records) (chunks SHARD_SIZE bs)) as [ss ->]; [|by eexists].
  intros c Hc. apply encode_entry_shard_total. intros block i Hblock. apply Hb.
  rewrite <- (concat_chunks SHARD_SIZE ltac:(unfold SHARD_SIZE; lia) bs). apply elem_of_concat. eauto.
Qed.
End encode.
