(* ===== verification/LearningMemorySpec.v ===== *)
(** * The learning memory keeps its invariant and answers by its records

    Whatever the engine asks, in whatever order and on whatever days, the memory
    does not panic, its indexes stay the indexes of its records, and a lookup
    returns the records whose reading matches. *)

From S2P Require Import Prelude Unicode Collections F32 Dictionary Louds MemoryIndex MemoryIndexSpec MemoryLoudsSpec DictBinary Lattice PostPrediction LearningRecords LearningRecordsSpec LearningFiles LearningFilesSpec LearningMemory.

(** ** Character identifiers *)

Definition ids_ok (ids : CharacterIdMap.t) : Prop :=
  ∀ g g' b, CharacterIdMap.id ids g = Some b → CharacterIdMap.id ids g' = Some b → g = g'.

Lemma parse_ids_ok `{Segmentation} content ids : CharacterIdMap.parse content = Ok ids → ids_ok ids.
Proof.
  unfold CharacterIdMap.parse. case_decide; [done|]. intros [= <-].
  set (gs := graphemes content).
  assert (Hall : ∀ (l : list Grapheme) g b,
    foldl (λ (m : gmap Grapheme byte) p, <[p.2 := N.of_nat p.1]> m) ∅ (imap pair l) !! g = Some b →
    ∃ i, b = N.of_nat i ∧ l !! i = Some g).
  { induction l as [|x l IH] using rev_ind; intros g b; [done|].
    rewrite imap_app, foldl_app. cbn [imap foldl fst snd compose].
    rewrite lookup_insert_Some. intros [[<- <-]|[_ Hg]].
    - exists (length l). rewrite Nat.add_0_r. split; [done|]. by apply list_lookup_middle.
    - apply IH in Hg as (i & -> & Hi). exists i. split; [done|]. by apply lookup_app_l_Some. }
  intros g g' b Hg Hg'. apply Hall in Hg as (i & -> & Hi), Hg' as (j & Hij & Hj).
  apply Nat2N.inj in Hij as <-. by simplify_eq.
Qed.

Section spec.
Context `{SegmentationLaws}.

Lemma graphemes_inj s t : graphemes s = graphemes t → s = t.
Proof. intros E. by rewrite <- (graphemes_concat s), E, graphemes_concat. Qed.

Lemma graphemes_nil s : graphemes s = [] → s = [].
Proof. intros E. by rewrite <- (graphemes_concat s), E. Qed.

Lemma mapM_prefix ids gs gs' e e' :
  ids_ok ids → mapM (CharacterIdMap.id ids) gs = Some e → mapM (CharacterIdMap.id ids) gs' = Some e' →
  e `prefix_of` e' ↔ gs `prefix_of` gs'.
Proof.
  intros Hok He%mapM_Some He'%mapM_Some. revert gs' e' He'.
  induction He as [|g b gs e Hb He IH]; intros gs' e' He'; [split; intros; apply prefix_nil|].
  destruct He' as [|g' b' gs' e' Hb' He'].
  { split; intros Hp; by apply prefix_nil_inv in Hp. }
  split; intros Hp.
  - pose proof (prefix_cons_inv_1 _ _ _ _ Hp) as ->. apply prefix_cons_inv_2 in Hp.
    rewrite (Hok g g' b' Hb Hb'). by apply prefix_cons, (IH gs' e').
  - pose proof (prefix_cons_inv_1 _ _ _ _ Hp) as ->. apply prefix_cons_inv_2 in Hp.
    assert (b = b') as -> by congruence. by apply prefix_cons, (IH gs' e').
Qed.

Lemma encode_prefix ids r r' e e' :
  ids_ok ids → CharacterIdMap.encode ids r = Some e → CharacterIdMap.encode ids r' = Some e' →
  e `prefix_of` e' ↔ graphemes r `prefix_of` graphemes r'.
Proof. intros Hok He He'. by eapply mapM_prefix. Qed.

Lemma encode_inj ids r r' e :
  ids_ok ids → CharacterIdMap.encode ids r = Some e → CharacterIdMap.encode ids r' = Some e → r = r'.
Proof.
  intros Hok He He'. apply graphemes_inj. apply (anti_symm prefix).
  - by apply (encode_prefix ids r r' e e).
  - by apply (encode_prefix ids r' r e e).
Qed.

Lemma valid_entry ids e :
  valid_learning_entry ids e = true →
  ruby e ≠ [] ∧ (∃ code, CharacterIdMap.encode ids (ruby e) = Some code ∧ code ≠ []) ∧
  existsb is_control (word e) = false ∧ existsb is_control (ruby e) = false.
Proof.
  unfold valid_learning_entry. intros Hv.
  apply andb_true_iff in Hv as [Hv Henc]. apply andb_true_iff in Hv as [Hv Hc].
  apply andb_true_iff in Hv as [Hw Hr]. apply bool_decide_eq_true in Henc as [code Hcode].
  apply negb_true_iff in Hw, Hr, Hc. apply bool_decide_eq_false in Hr. split_and!; [done| |done|done].
  exists code. split; [done|]. intros ->. unfold CharacterIdMap.encode in Hcode.
  apply mapM_Some in Hcode. apply Forall2_nil_inv_r in Hcode. by apply graphemes_nil in Hcode.
Qed.

(** ** The invariant *)

Definition valid_in (ids : CharacterIdMap.t) (r : LearningRecord) : Prop :=
  valid_learning_entry ids (entry r) = true.

Record memory_inv (st : LearningState) : Prop := {
  inv_ids : ids_ok (character_ids st);
  inv_today : (today st <= u16_max)%N;
  inv_persisted_valid : Forall (valid_in (character_ids st)) (persisted st);
  inv_temporary_valid : Forall (valid_in (character_ids st)) (temporaries st);
  inv_persisted_fresh : Forall (fresh (today st)) (persisted st);
  inv_temporary_fresh : Forall (fresh (today st)) (temporaries st);
  inv_persisted_index : persisted_index_of (character_ids st) (persisted st) = Some (persisted_index st);
  inv_temporary_index : temporary_index_of (character_ids st) (temporaries st) = Some (temporary_index st);
  inv_keys : NoDup (entry_key ∘ entry <$> temporaries st);
}.

Lemma readings_nonempty ids records :
  Forall (valid_in ids) records → Forall (λ e, e ≠ Some []) (encoded_readings ids records).
Proof.
  intros Hv. apply Forall_fmap. eapply Forall_impl; [exact Hv|]. intros r Hr.
  apply valid_entry in Hr as (_ & (code & Hc & Hne) & _). simpl. rewrite Hc. congruence.
Qed.

(** The indexes can always be built. *)
Lemma persisted_index_total ids records : ∃ m, persisted_index_of ids records = Some m.
Proof.
  destruct (memory_louds_new_spec (encoded_readings ids records)) as (m & _ & _ & _ & Hm & _).
  by exists m.
Qed.

Lemma temporary_index_total ids records : ∃ t, temporary_index_of ids records = Some t.
Proof.
  destruct (trie_new_spec (encoded_readings ids records)) as (t & _ & Ht & _). by exists t.
Qed.

Lemma trie_lookup_spec ids records t code kind :
  temporary_index_of ids records = Some t →
  trie_lookup t code kind = Some (spec_lookup (encoded_readings ids records) code kind).
Proof.
  intros Ht. destruct (trie_implements (encoded_readings ids records)) as (t' & Ht' & Hl).
  unfold temporary_index_of in Ht. simplify_eq. apply Hl.
Qed.

Lemma louds_lookup_spec ids records m code :
  Forall (valid_in ids) records → persisted_index_of ids records = Some m →
  louds_lookup m code Exact = Some (spec_lookup (encoded_readings ids records) code Exact) ∧
  louds_lookup m code Prefixes = Some (spec_lookup (encoded_readings ids records) code Prefixes) ∧
  ∃ found, louds_lookup m code Completions = Some found ∧
    found `sublist_of` matching (strictly_extends code) (encoded_readings ids records).
Proof.
  intros Hv Hm. destruct (louds_implements _ (readings_nonempty ids records Hv)) as (m' & Hm' & Hl).
  unfold persisted_index_of in Hm. simplify_eq. destruct (Hl code) as (? & ? & found & ? & ? & _). eauto.
Qed.

(** The records at the matching positions. *)
Lemma matching_records ids records (P : option (list byte) → Prop) `{!∀ e, Decision (P e)} :
  mapM (λ i, records !! i) (matching P (encoded_readings ids records)) =
    Some (filter (λ r, P (CharacterIdMap.encode ids (ruby (entry r)))) records).
Proof.
  assert (Hgen : ∀ all : list LearningRecord, (∀ i r, records !! i = Some r → all !! i = Some r) →
    mapM (λ i, all !! i) (matching P (encoded_readings ids records)) =
    Some (filter (λ r, P (CharacterIdMap.encode ids (ruby (entry r)))) records)); [|by apply Hgen].
  induction records as [|r records IH] using rev_ind; intros all Hall; [done|].
  unfold encoded_readings in *. rewrite fmap_app, fmap_cons, fmap_nil, matching_snoc, filter_app.
  apply mapM_app_Some; [apply IH; intros i x Hi; by apply Hall, lookup_app_l_Some|].
  rewrite length_fmap. destruct (decide _) as [HP|HP].
  - rewrite filter_cons_True by done. cbn. by rewrite (Hall (length records) r) by (by apply list_lookup_middle).
  - by rewrite filter_cons_False.
Qed.

Lemma sublist_mapM {A B} (f : A → option B) l k ys :
  mapM f k = Some ys → l `sublist_of` k → ∃ xs, mapM f l = Some xs ∧ xs `sublist_of` ys.
Proof.
  intros Hk Hl. revert ys Hk. induction Hl as [|x l k Hl IH|x l k Hl IH]; intros ys Hk.
  - injection Hk as <-. by exists [].
  - apply mapM_Some, Forall2_cons_inv_l in Hk as (y & ys' & Hy & Hk & ->). apply mapM_Some in Hk.
    destruct (IH ys' Hk) as (xs & Hxs & Hsub). exists (y :: xs). split; [|by constructor].
    apply mapM_Some. constructor; [done|]. by apply mapM_Some.
  - apply mapM_Some, Forall2_cons_inv_l in Hk as (y & ys' & _ & Hk & ->). apply mapM_Some in Hk.
    destruct (IH ys' Hk) as (xs & Hxs & Hsub). exists xs. split; [done|by constructor].
Qed.
Lemma filter_iff_in {A} (P Q : A → Prop) `{!∀ x, Decision (P x)} `{!∀ x, Decision (Q x)} (l : list A) :
  (∀ x, x ∈ l → P x ↔ Q x) → filter P l = filter Q l.
Proof.
  induction l as [|x l IH]; intros HPQ; [done|]. pose proof (HPQ x ltac:(set_solver)) as Hx.
  destruct (decide (P x)) as [HP|HP].
  - rewrite (filter_cons_True P), (filter_cons_True Q) by tauto. f_equal. apply IH. set_solver.
  - rewrite (filter_cons_False P), (filter_cons_False Q) by tauto. apply IH. set_solver.
Qed.

Lemma lookup_ids_mapM ids kind gs :
  kind ≠ Prefixes → lookup_ids ids kind gs = mapM (CharacterIdMap.id ids) gs.
Proof.
  intros Hkind. induction gs as [|g gs IH]; [done|]. cbn [lookup_ids mapM].
  destruct (CharacterIdMap.id ids g); [by rewrite IH|]. by destruct kind.
Qed.

Lemma lookup_ids_prefixes ids gs :
  ids_ok ids → ∃ codes, lookup_ids ids Prefixes gs = Some codes ∧
    ∀ gs' e, mapM (CharacterIdMap.id ids) gs' = Some e → e `prefix_of` codes ↔ gs' `prefix_of` gs.
Proof.
  intros Hok. induction gs as [|g gs IH]; cbn [lookup_ids].
  { exists []. split; [done|]. intros gs' e He%mapM_Some. split; intros Hp%prefix_nil_inv; subst.
    - apply Forall2_nil_inv_r in He as ->. done.
    - apply Forall2_nil_inv_l in He as ->. done. }
  destruct (CharacterIdMap.id ids g) as [b|] eqn:Hg.
  - destruct IH as (codes & -> & IH). exists (b :: codes). split; [done|].
    intros [|g' gs'] e He; cbn [mapM] in He; [injection He as <-; split; intros; apply prefix_nil|].
    destruct (CharacterIdMap.id ids g') as [b'|] eqn:Hg'; [|done]. cbn [mbind option_bind] in He.
    destruct (mapM _ gs') as [e'|] eqn:He'; [|done]. injection He as <-. split; intros Hp.
    + pose proof (prefix_cons_inv_1 _ _ _ _ Hp) as ->. apply prefix_cons_inv_2 in Hp.
      rewrite (Hok g' g b Hg' Hg). by apply prefix_cons, (IH gs' e').
    + pose proof (prefix_cons_inv_1 _ _ _ _ Hp) as ->. apply prefix_cons_inv_2 in Hp.
      assert (b' = b) as -> by congruence. by apply prefix_cons, (IH gs' e').
  - exists []. split; [done|]. intros [|g' gs'] e He; cbn [mapM] in He.
    { injection He as <-. split; intros; apply prefix_nil. }
    destruct (CharacterIdMap.id ids g') as [b'|] eqn:Hg'; [|done]. cbn [mbind option_bind] in He.
    destruct (mapM _ gs') as [e'|]; [|done]. injection He as <-. split; intros Hp.
    + by apply prefix_nil_inv in Hp.
    + apply prefix_cons_inv_1 in Hp as ->. congruence.
Qed.

(** The records a lookup of each kind is meant to find. *)
Definition reading_matches (kind : MatchKind) (gs : list Grapheme) (r : LearningRecord) : Prop :=
  match kind with
  | Exact => graphemes (ruby (entry r)) = gs
  | Prefixes => graphemes (ruby (entry r)) `prefix_of` gs
  | Completions => gs `prefix_of` graphemes (ruby (entry r))
  end.

#[export] Instance reading_matches_dec kind gs r : Decision (reading_matches kind gs r).
Proof. destruct kind; simpl; apply _. Defined.

Lemma valid_matches ids kind gs codes r :
  ids_ok ids → valid_in ids r → lookup_ids ids kind gs = Some codes →
  matches_kind kind codes (CharacterIdMap.encode ids (ruby (entry r))) ↔ reading_matches kind gs r.
Proof.
  intros Hok Hv Hl. apply valid_entry in Hv as (_ & (e & He & Hne) & _). rewrite He.
  unfold CharacterIdMap.encode in He. destruct kind; simpl.
  - rewrite lookup_ids_mapM in Hl by done. split.
    + intros ->. apply (anti_symm prefix); [by apply (mapM_prefix ids _ _ codes codes)..].
    + intros <-. congruence.
  - destruct (lookup_ids_prefixes ids gs Hok) as (codes' & Hl' & Hp). simplify_eq.
    rewrite (Hp _ e He). naive_solver.
  - rewrite lookup_ids_mapM in Hl by done. by apply (mapM_prefix ids).
Qed.

(** A reading with an unknown character is the reading of no valid record. *)
Lemma unknown_matches ids kind gs r :
  valid_in ids r → lookup_ids ids kind gs = None → ¬ reading_matches kind gs r.
Proof.
  intros Hv Hl. assert (Hkind : kind ≠ Prefixes).
  { intros ->. clear Hv. revert Hl. induction gs as [|g gs IH]; cbn [lookup_ids]; [done|].
    destruct (CharacterIdMap.id ids g); [|done]. by destruct (lookup_ids ids Prefixes gs); [|intros; apply IH]. }
  apply valid_entry in Hv as (_ & (e & He & _) & _). unfold CharacterIdMap.encode in He.
  rewrite lookup_ids_mapM in Hl by done. destruct kind; simpl; [|done|].
  - intros <-. congruence.
  - intros [rest E]. rewrite E in He. apply mapM_Some, Forall2_app_inv_l in He as (e1 & e2 & He1 & _ & _).
    apply mapM_Some in He1. congruence.
Qed.

(** ** Lookups *)

Section lookup.
Context (st : LearningState) (Hinv : memory_inv st).

Lemma temporary_found kind gs codes :
  lookup_ids (character_ids st) kind gs = Some codes →
  ∃ recent, trie_lookup (temporary_index st) codes kind = Some recent ∧
    mapM (λ i, temporaries st !! i) recent = Some (filter (reading_matches kind gs) (temporaries st)).
Proof.
  intros Hl. rewrite (trie_lookup_spec _ _ _ _ _ (inv_temporary_index st Hinv)). eexists. split; [done|].
  unfold spec_lookup. rewrite matching_records. f_equal. apply filter_iff_in.
  intros r Hr. eapply valid_matches; [apply (inv_ids _ Hinv)| |done].
  pose proof (inv_temporary_valid _ Hinv) as Hv. rewrite Forall_forall in Hv. by apply Hv.
Qed.

Lemma persisted_found kind gs codes :
  kind ≠ Completions → lookup_ids (character_ids st) kind gs = Some codes →
  ∃ found, louds_lookup (persisted_index st) codes kind = Some found ∧
    mapM (λ i, persisted st !! i) found = Some (filter (reading_matches kind gs) (persisted st)).
Proof.
  intros Hkind Hl.
  destruct (louds_lookup_spec _ _ _ codes (inv_persisted_valid st Hinv) (inv_persisted_index st Hinv))
    as (He & Hp & _).
  exists (spec_lookup (encoded_readings (character_ids st) (persisted st)) codes kind).
  split; [by destruct kind|]. unfold spec_lookup. rewrite matching_records. f_equal. apply filter_iff_in.
  intros r Hr. eapply valid_matches; [apply (inv_ids _ Hinv)| |done].
  pose proof (inv_persisted_valid _ Hinv) as Hv. rewrite Forall_forall in Hv. by apply Hv.
Qed.

Lemma persisted_completions gs codes :
  lookup_ids (character_ids st) Completions gs = Some codes →
  ∃ found rs, louds_lookup (persisted_index st) codes Completions = Some found ∧
    mapM (λ i, persisted st !! i) found = Some rs ∧
    rs `sublist_of` filter (λ r, reading_matches Completions gs r ∧ graphemes (ruby (entry r)) ≠ gs) (persisted st).
Proof.
  intros Hl.
  destruct (louds_lookup_spec _ _ _ codes (inv_persisted_valid st Hinv) (inv_persisted_index st Hinv))
    as (_ & _ & found & Hf & Hsub).
  pose proof (matching_records (character_ids st) (persisted st) (strictly_extends codes)) as Hm.
  destruct (sublist_mapM _ _ _ _ Hm Hsub) as (rs & Hrs & Hrsub). exists found, rs. split_and!; [done..|].
  erewrite (filter_iff_in (λ r, reading_matches Completions gs r ∧ _)); [exact Hrsub|].
  intros r Hr. pose proof (inv_persisted_valid _ Hinv) as Hv. rewrite Forall_forall in Hv. specialize (Hv r Hr).
  rewrite <- (valid_matches _ Completions gs codes r (inv_ids _ Hinv) Hv Hl).
  apply valid_entry in Hv as (_ & (e & He & _) & _). rewrite He. simpl.
  rewrite lookup_ids_mapM in Hl by done. unfold CharacterIdMap.encode in He.
  assert (e = codes ↔ graphemes (ruby (entry r)) = gs); [|naive_solver]. split.
  - intros ->. apply (anti_symm prefix); by apply (mapM_prefix (character_ids st) _ _ codes codes (inv_ids _ Hinv)).
  - intros <-. congruence.
Qed.
End lookup.
(** ** Every operation keeps the invariant *)

Lemma fresh_count day records : Forall (fresh day) records → Forall (λ r, (count r <= 255)%N) records.
Proof. intros Hf. eapply Forall_impl; [exact Hf|]. unfold fresh. naive_solver. Qed.

Lemma decay_valid ids day records : Forall (valid_in ids) records → Forall (valid_in ids) (decay day records).
Proof.
  rewrite !Forall_forall. intros Hv r' (r & Hr & He)%decay_entries. unfold valid_in. rewrite He. by apply Hv.
Qed.

Lemma refresh_day_inv now st :
  (now <= u16_max)%N → memory_inv st →
  ∃ st', refresh_day now st = Some st' ∧ memory_inv st' ∧ today st' = now ∧ mode st' = mode st ∧
    character_ids st' = character_ids st.
Proof.
  intros Hnow Hinv. unfold refresh_day. destruct (N.eqb_spec (today st) now) as [Ht|Ht]; [by exists st|].
  destruct (persisted_index_total (character_ids st) (decay now (persisted st))) as [m Hm].
  destruct (temporary_index_total (character_ids st) (decay now (temporaries st))) as [t Htm].
  rewrite Hm, Htm. cbn [mbind option_bind]. eexists. split_and!; [done| |done..]. constructor; simpl.
  - apply (inv_ids _ Hinv).
  - done.
  - apply decay_valid, (inv_persisted_valid _ Hinv).
  - apply decay_valid, (inv_temporary_valid _ Hinv).
  - apply decay_fresh; [done|]. eapply fresh_count, (inv_persisted_fresh _ Hinv).
  - apply decay_fresh; [done|]. eapply fresh_count, (inv_temporary_fresh _ Hinv).
  - done.
  - done.
  - eapply sublist_NoDup; [apply (inv_keys _ Hinv)|apply decay_keys].
Qed.

(** The same state with other valid and fresh records, properly indexed. *)
Lemma with_records_inv st m ps t ts :
  memory_inv st →
  Forall (valid_in (character_ids st)) ps → Forall (valid_in (character_ids st)) ts →
  Forall (fresh (today st)) ps → Forall (fresh (today st)) ts →
  persisted_index_of (character_ids st) ps = Some m →
  temporary_index_of (character_ids st) ts = Some t → NoDup (entry_key ∘ entry <$> ts) →
  memory_inv (with_records st m ps t ts).
Proof. intros Hinv. constructor; simpl; try done; apply Hinv. Qed.

Lemma same_entry_key l r : same_entry l r = true ↔ entry_key l = entry_key r.
Proof.
  unfold same_entry, entry_key. rewrite !andb_true_iff, !bool_decide_eq_true. split; [intros [[[? ?] ?] ?]; congruence|intros [= ? ? ? ?]; by split_and!].
Qed.

Lemma temporary_index_snoc ids records r t code :
  temporary_index_of ids records = Some t → CharacterIdMap.encode ids (ruby (entry r)) = Some code →
  temporary_index_of ids (records ++ [r]) = MemoryIndex.insert t code (length records).
Proof.
  intros Ht Hc. unfold temporary_index_of, encoded_readings, trie_new in *.
  rewrite fmap_app, imap_app, foldl_app, Ht. cbn [fmap list_fmap imap foldl mbind option_bind].
  unfold new_step. simpl. rewrite Hc, length_fmap, Nat.add_0_r. done.
Qed.

(** The record [memorize] adds one to. *)
Lemma memorize_existing st e code recent records i index record :
  memory_inv st → CharacterIdMap.encode (character_ids st) (ruby e) = Some code →
  trie_lookup (temporary_index st) code Exact = Some recent →
  mapM (λ index, temporaries st !! index) recent = Some records →
  list_find (λ ir, same_entry (entry ir.2) e = true) (zip recent records) = Some (i, (index, record)) →
  temporaries st !! index = Some record ∧ entry_key (entry record) = entry_key e.
Proof.
  intros Hinv Hc Hl Hm (Hi & Hs & _)%list_find_Some. apply same_entry_key in Hs. split; [|done].
  apply lookup_zip_with_Some in Hi as (x & y & [= <- <-] & Hx & Hy). apply mapM_Some in Hm.
  by destruct (Forall2_lookup_lr _ _ _ _ _ _ Hm Hx Hy).
Qed.

(** A word that was not found among the records is none of them. *)
Lemma not_found_fresh (temporary : list LearningRecord) e recent records r :
  mapM (λ index, temporary !! index) recent = Some records →
  list_find (λ ir : nat * LearningRecord, same_entry (entry ir.2) e = true) (zip recent records) = None →
  r ∈ records → entry_key (entry r) ≠ entry_key e.
Proof.
  intros Hrecords Hf%list_find_None [j Hj]%list_elem_of_lookup Hk. rewrite Forall_forall in Hf.
  apply mapM_Some, Forall2_length in Hrecords.
  destruct (lookup_lt_is_Some_2 recent j) as [x Hx]; [rewrite Hrecords; by eapply lookup_lt_Some|].
  apply (Hf (x, r)); [|by apply same_entry_key]. apply (list_elem_of_lookup_2 _ j).
  apply lookup_zip_with_Some. eauto.
Qed.

Lemma memorize_inv st e :
  memory_inv st → ∃ st', memorize st e = Some st' ∧ memory_inv st' ∧ today st' = today st ∧
    mode st' = mode st ∧ character_ids st' = character_ids st ∧ persisted st' = persisted st.
Proof.
  intros Hinv. unfold memorize. destruct (valid_learning_entry (character_ids st) e) eqn:Hv; [|by exists st].
  cbn [negb]. destruct (valid_entry _ _ Hv) as (_ & (code & Hc & _) & _). rewrite Hc. cbn [mbind option_bind].
  assert (Hl : lookup_ids (character_ids st) Exact (graphemes (ruby e)) = Some code).
  { by rewrite lookup_ids_mapM. }
  destruct (temporary_found st Hinv Exact _ _ Hl) as (recent & Hr & Hrecords).
  rewrite Hr. cbn [mbind option_bind]. rewrite Hrecords. cbn [mbind option_bind].
  set (records := filter _ (temporaries st)) in *.
  destruct (list_find _ _) as [[i [index record]]|] eqn:Hf.
  - destruct (memorize_existing st e code recent records i index record Hinv Hc Hr Hrecords Hf) as [Hi Hk].
    eexists. split_and!; [done| |done..]. pose proof (inv_temporary_valid _ Hinv) as Htv.
    pose proof (inv_temporary_fresh _ Hinv) as Htf.
    assert (Hfresh : fresh (today st) record) by (by eapply Forall_lookup_1).
    apply with_records_inv; try done; try apply Hinv.
    + by apply Forall_insert.
    + apply Forall_insert; [done|]. unfold fresh, saturating_add8, u8_max in *. cbn. lia.
    + rewrite <- (inv_temporary_index _ Hinv). unfold temporary_index_of, encoded_readings. f_equal.
      rewrite list_fmap_insert. apply list_insert_id. rewrite list_lookup_fmap, Hi. simpl.
      unfold entry_key in Hk. by injection Hk as -> _ _ _.
    + rewrite list_fmap_insert, list_insert_id; [apply (inv_keys _ Hinv)|].
      rewrite list_lookup_fmap, Hi. simpl. by rewrite Hk.
  - pose proof (temporary_index_snoc (character_ids st) (temporaries st)
      {| entry := e; last_used_day := today st; last_updated_day := today st; count := 1 |} _ code
      (inv_temporary_index _ Hinv) Hc) as Hsnoc.
    destruct (temporary_index_total (character_ids st) (temporaries st ++
      [{| entry := e; last_used_day := today st; last_updated_day := today st; count := 1 |}])) as [t Ht].
    rewrite <- Hsnoc, Ht. cbn [mbind option_bind]. eexists. split_and!; [done| |done..].
    apply with_records_inv; try done; try apply Hinv.
    + apply Forall_app. split; [apply (inv_temporary_valid _ Hinv)|]. by repeat constructor.
    + apply Forall_app. split; [apply (inv_temporary_fresh _ Hinv)|]. repeat constructor; cbn; lia.
    + rewrite fmap_app. apply NoDup_app. split_and!; [apply (inv_keys _ Hinv)| |apply NoDup_singleton].
      intros k (r & -> & Hr')%list_elem_of_fmap Hk%list_elem_of_singleton. simpl in Hk.
      apply (not_found_fresh (temporaries st) e recent records r Hrecords Hf); [|done].
      subst records. apply list_elem_of_filter. split; [|done]. simpl. by injection Hk as -> _ _ _.
Qed.

(** What stays the same when words are memorized. *)
Definition same_but_temporary (st st' : LearningState) : Prop :=
  today st' = today st ∧ mode st' = mode st ∧ character_ids st' = character_ids st ∧
  persisted st' = persisted st.

Lemma memorize_all_inv es st :
  memory_inv st → ∃ st', memorize_all st es = Some st' ∧ memory_inv st' ∧ same_but_temporary st st'.
Proof.
  unfold memorize_all, same_but_temporary. revert st. induction es as [|e es IH]; intros st Hinv; [by exists st|].
  cbn [foldl]. change (x ← Some st; memorize x e) with (memorize st e).
  destruct (memorize_inv st e Hinv) as (st1 & -> & Hinv1 & Ht & Hm & Hi & Hp).
  destruct (IH st1 Hinv1) as (st' & -> & Hinv' & ? & ? & ? & ?). exists st'. split_and!; congruence || done.
Qed.

Lemma learned_from_total es : ∃ l, learned_from es = Some l.
Proof.
  unfold learned_from. destruct (learned_clause_entries_total es) as [cs ->]. cbn [mbind option_bind].
  destruct (Nat.ltb_spec 1 (length es)); [|by eexists].
  destruct (join_entries_total es) as (e & -> & _); [by intros ->; simpl in *; lia|]. by eexists.
Qed.

Lemma learned_from_update_total es update : ∃ l, learned_from_update es update = Some l.
Proof.
  unfold learned_from_update. destruct (learned_clause_entries_after_total (es ++ update) (length es)) as [cs ->].
  cbn [mbind option_bind]. destruct (Nat.ltb_spec 1 (length (es ++ update))) as [Hlt|]; [|by eexists].
  destruct (join_entries_total (es ++ update)) as (e & -> & _); [by intros E; rewrite E in Hlt; simpl in *; lia|].
  by eexists.
Qed.
(** ** Forgetting, saving, resetting, opening *)

Lemma records_to_save_incl day n records r :
  (day <= u16_max)%N → Forall (fresh day) records → r ∈ records_to_save day n records → r ∈ records.
Proof.
  intros Hday Hf Hr%elem_of_take_in. rewrite sort_by_perm in Hr. by rewrite decay_id in Hr.
Qed.

Lemma Forall_incl {A} (P : A → Prop) l k : (∀ x, x ∈ k → x ∈ l) → Forall P l → Forall P k.
Proof. rewrite !Forall_forall. auto. Qed.

Lemma with_directory_inv st fs : memory_inv st → memory_inv (with_directory st fs).
Proof. intros []. by constructor. Qed.

Lemma save_records_total faults ids day n records fs :
  ∃ res, save_records faults ids day n records fs = Some (records_to_save day n records, res).
Proof.
  unfold save_records. destruct (encode_files_total ids (records_to_save day n records)) as [files ->].
  by eexists.
Qed.

Lemma forget_inv faults now st c :
  (now <= u16_max)%N → memory_inv st →
  ∃ st' r, forget faults now st c = Some (st', r) ∧ memory_inv st'.
Proof.
  intros Hnow Hinv. unfold forget. destruct (refresh_day_inv now st Hnow Hinv) as (st1 & -> & Hinv1 & _).
  cbn [mbind option_bind]. clear st Hinv. destruct (updates_memory (mode st1)); [|by eexists _, _].
  set (ts := filter _ (temporaries st1)).
  assert (Hts : ∀ r, r ∈ ts → r ∈ temporaries st1) by (intros r Hr; by apply list_elem_of_filter in Hr as [_ ?]).
  destruct (temporary_index_total (character_ids st1) ts) as [t Ht]. rewrite Ht. cbn [mbind option_bind].
  set (st2 := with_records st1 (persisted_index st1) (persisted st1) t ts).
  assert (Hinv2 : memory_inv st2).
  { apply with_records_inv; try done; try apply Hinv1.
    - eapply Forall_incl; [exact Hts|apply Hinv1].
    - eapply Forall_incl; [exact Hts|apply Hinv1].
    - eapply sublist_NoDup; [apply (inv_keys _ Hinv1)|]. apply fmap_sublist, sublist_filter. }
  set (kept := filter _ (persisted st2)).
  destruct (save_records_total faults (character_ids st2) (today st2) (max_count st2) kept (directory st2))
    as [[fs r] ->]. cbn [mbind option_bind]. set (saved := records_to_save _ _ kept).
  assert (Hkept : ∀ r, r ∈ kept → r ∈ persisted st2) by (intros x Hx; by apply list_elem_of_filter in Hx as [_ ?]).
  assert (Hsaved : ∀ r, r ∈ saved → r ∈ persisted st2).
  { intros x Hx. apply Hkept. apply records_to_save_incl in Hx; [done|apply Hinv2|].
    eapply Forall_incl; [exact Hkept|apply Hinv2]. }
  destruct r as [[]|e]; [|eexists _, _; split; [done|by apply with_directory_inv]].
  destruct (persisted_index_total (character_ids st2) saved) as [m Hm].
  cbn [character_ids with_directory]. rewrite Hm. cbn [mbind option_bind]. eexists _, _. split; [done|].
  apply with_records_inv; try done; try (apply with_directory_inv, Hinv2); try apply Hinv2.
  - eapply Forall_incl; [exact Hsaved|apply Hinv2].
  - eapply Forall_incl; [exact Hsaved|apply Hinv2].
Qed.

(** Merging keeps records valid and fresh. *)
Lemma merge_record_Forall (P : LearningRecord → Prop) records incoming :
  (∀ r, P r → P incoming → P (merge_into r incoming)) → Forall P records → P incoming →
  Forall P (merge_record records incoming).
Proof.
  intros Hm Hr Hi. unfold merge_record. destruct (list_find _ _) as [[i r]|] eqn:Hf.
  - apply list_find_Some in Hf as (Hl & _ & _). apply Forall_insert; [done|].
    apply Hm; [by eapply Forall_lookup_1|done].
  - apply Forall_app. by repeat constructor.
Qed.

Lemma merge_all_Forall (P : LearningRecord → Prop) incoming records :
  (∀ r i, P r → P i → P (merge_into r i)) → Forall P records → Forall P incoming →
  Forall P (foldl merge_record records incoming).
Proof.
  intros Hm Hr Hi. revert records Hr. induction Hi as [|i incoming Hi _ IH]; intros records Hr; [done|].
  cbn [foldl]. apply IH, merge_record_Forall; auto.
Qed.

Lemma merge_fresh day r i : fresh day r → fresh day i → fresh day (merge_into r i).
Proof. unfold fresh, merge_into, saturating_add8, u8_max. cbn. lia. Qed.

Lemma commit_inv faults now st :
  (now <= u16_max)%N → memory_inv st →
  ∃ st' r, commit faults now st = Some (st', r) ∧ memory_inv st'.
Proof.
  intros Hnow Hinv. unfold commit. destruct (refresh_day_inv now st Hnow Hinv) as (st1 & -> & Hinv1 & _).
  cbn [mbind option_bind]. clear st Hinv. destruct (_ || _); [by eexists _, _|].
  set (merged := foldl merge_record (persisted st1) (temporaries st1)).
  assert (Hmf : Forall (fresh (today st1)) merged).
  { apply merge_all_Forall; [intros; by apply merge_fresh|apply Hinv1..]. }
  assert (Hmv : Forall (valid_in (character_ids st1)) merged).
  { apply merge_all_Forall; [done|apply Hinv1..]. }
  destruct (save_records_total faults (character_ids st1) (today st1) (max_count st1) merged (directory st1))
    as [[fs r] ->]. cbn [mbind option_bind]. set (saved := records_to_save _ _ merged).
  assert (Hsaved : ∀ r, r ∈ saved → r ∈ merged).
  { intros x Hx. by apply records_to_save_incl in Hx; [|apply Hinv1|]. }
  destruct r as [[]|e]; [|eexists _, _; split; [done|by apply with_directory_inv]].
  destruct (persisted_index_total (character_ids st1) saved) as [m Hm].
  cbn [character_ids with_directory]. rewrite Hm. cbn [mbind option_bind]. eexists _, _. split; [done|].
  apply with_records_inv; try done; try (by apply with_directory_inv); try constructor.
  - by eapply Forall_incl.
  - by eapply Forall_incl.
Qed.

Lemma reset_inv faults now st :
  (now <= u16_max)%N → memory_inv st →
  ∃ st' r, reset faults now st = Some (st', r) ∧ memory_inv st'.
Proof.
  intros Hnow Hinv. unfold reset. destruct (refresh_day_inv now st Hnow Hinv) as (st1 & -> & Hinv1 & _).
  cbn [mbind option_bind]. destruct (persisted_index_total (character_ids st1) []) as [m Hm]. rewrite Hm.
  cbn [mbind option_bind]. destruct (run_ops _ _ _) as [fs r]. eexists _, _. split; [done|].
  apply with_directory_inv, with_records_inv; try done; constructor.
Qed.
(** Directories of bytes. *)
Definition directory_ok (fs : Directory) : Prop := map_Forall (λ _ content, Forall (λ b, (b < 256)%N) content) fs.

Lemma run_ops_ok faults ops fs fs' :
  (∀ name content, WriteFile name content ∈ ops → Forall (λ b, (b < 256)%N) content) →
  directory_ok fs → run_ops faults ops fs = (fs', Ok ()) → directory_ok fs'.
Proof.
  revert faults fs. induction ops as [|op ops IH]; intros faults fs Hops Hfs; cbn [run_ops]; [by intros [= <-]|].
  unfold exec_op. destruct (default Performs (head faults)); [|done].
  assert (Hops' : ∀ name content, WriteFile name content ∈ ops → Forall (λ b, (b < 256)%N) content).
  { intros n c Hc. apply (Hops n c). set_solver. }
  destruct op as [name content|src dst|name].
  - intros Hr. eapply IH; [done| |exact Hr]. apply map_Forall_insert_2; [|done].
    apply (Hops name content). set_solver.
  - destruct (fs !! src) as [content|] eqn:Hs; [|done]. intros Hr. eapply IH; [done| |exact Hr].
    apply map_Forall_insert_2; [|done]. by apply (Hfs src).
  - intros Hr. eapply IH; [done| |exact Hr]. by apply map_Forall_delete.
Qed.

Lemma recover_ok faults fs fs' :
  directory_ok fs → recover_if_paused faults fs = (fs', Ok ()) → directory_ok fs'.
Proof.
  unfold recover_if_paused. intros Hfs. destruct (fs !! PAUSE_FILE); [|by intros [= <-]].
  apply run_ops_ok; [|done]. intros name content. unfold recover_ops.
  rewrite !elem_of_app, !elem_of_cons, list_elem_of_fmap. intros Hin.
  repeat match goal with H : _ ∨ _ |- _ => destruct H | H : ∃ _, _ |- _ => destruct H end; naive_solver set_solver.
Qed.

Lemma read_array_safe width bytes cursor (Q : N * nat → Prop) :
  (∀ v, Q (v, cursor + width)) → safe (read_array width bytes cursor) Q.
Proof. intros HQ. unfold read_array. case_decide; [by apply safe_ret|done]. Qed.

Lemma get_byte_safe bytes cursor reason (Q : N → Prop) :
  Forall (λ b, (b < 256)%N) bytes → (∀ b, (b < 256)%N → Q b) → safe (get_byte bytes cursor reason) Q.
Proof.
  intros Hb HQ. unfold get_byte. destruct (bytes !! cursor) as [b|] eqn:Hl; [|done].
  apply safe_ret, HQ. by apply (Forall_lookup_1 _ _ _ _ Hb Hl).
Qed.

Lemma read_required_safe fs name (Q : list byte → Prop) :
  (∀ content, fs !! name = Some content → Q content) → safe (read_required fs name) Q.
Proof. intros HQ. unfold read_required. destruct (fs !! name); [by apply safe_ret, HQ|done]. Qed.

Definition counts_ok (block : list (N * N * N)) : Prop := Forall (λ d, (d.2 < 256)%N) block.

Lemma element_step_safe metadata st i :
  Forall (λ b, (b < 256)%N) metadata → counts_ok st.1 →
  safe (element_step metadata st i) (λ st', counts_ok st'.1).
Proof.
  intros Hm Hc. destruct st as [block cursor]. unfold element_step.
  apply safe_bind, read_array_safe. intros used. apply safe_bind, read_array_safe. intros updated.
  apply safe_bind, (get_byte_safe _ _ _ _ Hm). intros b Hb. apply safe_ret. simpl.
  apply Forall_app. by repeat constructor.
Qed.

Lemma block_step_safe metadata st i :
  Forall (λ b, (b < 256)%N) metadata → Forall counts_ok st.1 →
  safe (block_step metadata st i) (λ st', Forall counts_ok st'.1).
Proof.
  intros Hm Hc. destruct st as [blocks cursor]. unfold block_step.
  apply safe_bind, (get_byte_safe _ _ _ _ Hm). intros b _. apply safe_bind.
  apply (safe_for_each (λ st, counts_ok st.1)).
  - intros j st1 _ Hst. by apply element_step_safe.
  - constructor.
  - intros [block cursor'] Hblock. apply safe_ret. simpl. apply Forall_app. by repeat constructor.
Qed.

Lemma node_step_safe fs st indexed :
  counts_ok indexed.2 → Forall (λ r, (count r <= 255)%N) st.1 →
  safe (node_step fs st indexed) (λ st', Forall (λ r, (count r <= 255)%N) st'.1).
Proof.
  intros Hblock Hst. destruct st as [records loaded], indexed as [node block]. unfold node_step.
  apply safe_bind. assert (Hshard : ∀ Q : list byte → Prop, (∀ c, Q c) → safe (E:=LearningError)
    (match loaded with
     | Some (loaded_shard, shard) => if decide (loaded_shard = node / SHARD_SIZE) then mret shard
                                     else read_required fs (shard_file (node / SHARD_SIZE))
     | None => read_required fs (shard_file (node / SHARD_SIZE))
     end) Q).
  { intros Q HQ. destruct loaded as [[s c]|]; [case_decide; [by apply safe_ret|]|];
      apply read_required_safe; auto. }
  apply Hshard. intros shard. pose proof (parse_entry_shard_safe shard [node `mod` SHARD_SIZE]) as Hp.
  destruct (parse_entry_shard _ _) as [es| |]; [|done|done]. case_decide; [done|]. apply safe_ret. simpl.
  apply Forall_app. split; [done|]. apply Forall_forall. intros r [k Hk]%list_elem_of_lookup.
  apply lookup_zip_with_Some in Hk as (e & d & -> & _ & Hd). simpl.
  pose proof (Forall_lookup_1 _ _ _ _ Hblock Hd) as Hlt. cbn beta in Hlt. lia.
Qed.

Lemma decode_directory_safe fs :
  directory_ok fs → safe (decode_directory fs) (Forall (λ r, (count r <= 255)%N)).
Proof.
  intros Hfs. unfold decode_directory. destruct (fs !! METADATA_FILE) as [metadata|] eqn:Hm; [|by apply safe_ret].
  pose proof (Hfs _ _ Hm) as Hbytes. cbn beta in Hbytes.
  apply safe_bind, read_required_safe. intros louds_bytes _. apply safe_bind, read_required_safe. intros chars _.
  apply safe_bind. pose proof (Louds.parse_safe louds_bytes chars) as Hp.
  destruct (Louds.parse louds_bytes chars) as [louds| |]; [|done|done]. apply safe_ret.
  apply safe_bind, read_array_safe. intros node_count. case_decide; [done|]. apply safe_bind.
  apply (safe_for_each (λ st, Forall counts_ok st.1)).
  - intros i st _ Hst. by apply block_step_safe.
  - constructor.
  - intros [blocks cursor] Hblocks. simpl in Hblocks. case_decide; [done|]. apply safe_bind.
    apply (safe_for_each (λ st : list LearningRecord * option (nat * list byte),
      Forall (λ r, (count r <= 255)%N) st.1)).
    + intros [i block] st Hin Hst. apply node_step_safe; [|done]. simpl.
      apply elem_of_lookup_imap in Hin as (j & b & [= -> ->] & Hb).
      by apply (Forall_lookup_1 _ _ _ _ Hblocks Hb).
    + constructor.
    + intros [records loaded] Hr. by apply safe_ret.
Qed.

(** Opening never panics, and the memory it returns satisfies the invariant. *)
Lemma open_memory_inv faults fs md n ids now :
  (now <= u16_max)%N → ids_ok ids → directory_ok fs →
  ∃ fs' r, open_memory faults fs md n ids now = Some (fs', r) ∧
    match r with Ok st => memory_inv st ∧ mode st = md | Err _ => True end.
Proof.
  intros Hnow Hids Hfs. unfold open_memory.
  assert (Hbuild : ∀ fs0 records, Forall (valid_in ids) records → Forall (fresh now) records →
    ∃ fs' r, (index ← persisted_index_of ids records;
      Some (fs0, Ok {| directory := fs0; character_ids := ids; mode := md; max_count := n;
                    today := now; persisted_index := index; persisted := records;
                    temporary_index := empty_trie; temporaries := [] |})) =
      Some (fs', r : result LearningError LearningState) ∧
    match r with Ok st => memory_inv st ∧ mode st = md | Err _ => True end).
  { intros fs0 records Hv Hf. destruct (persisted_index_total ids records) as [m Hm]. rewrite Hm.
    eexists _, _. split; [done|]. split; [|done]. constructor; simpl; try done; constructor. }
  destruct (uses_memory md); [|by apply Hbuild].
  destruct (recover_if_paused faults fs) as [fs1 [[]|e]] eqn:Hr; [|by eexists _, _].
  pose proof (recover_ok _ _ _ Hfs Hr) as Hfs1. pose proof (decode_directory_safe fs1 Hfs1) as Hd.
  destruct (decode_directory fs1) as [records|e|]; [|by eexists _, _|done]. simpl in Hd.
  set (valid := filter _ records).
  assert (Hvalid : Forall (valid_in ids) valid).
  { apply Forall_forall. intros r Hr'. by apply list_elem_of_filter in Hr' as [? _]. }
  apply Hbuild; [by apply decay_valid|]. apply decay_fresh; [done|].
  eapply Forall_incl; [|exact Hd]. intros r Hr'. by apply list_elem_of_filter in Hr' as [_ ?].
Qed.
(** ** What the engine asks of the memory *)

Inductive MemoryOp :=
  | OpEntries
  | OpLookup (reading : ustring) (kind : MatchKind) (maximum_length : option nat)
  | OpLearn (c : Candidate)
  | OpLearnPost (c : Candidate) (p : PostCompositionPrediction)
  | OpForget (faults : list Fault) (c : Candidate)
  | OpCommit (faults : list Fault)
  | OpReset (faults : list Fault).

(** The state after an operation on a day; [None] is a panic. *)
Definition run_memory_op (st : LearningState) (op : N * MemoryOp) : option LearningState :=
  let '(now, op) := op in
  match op with
  | OpEntries => fst <$> learned_entries now st
  | OpLookup reading kind maximum_length => fst <$> memory_lookup now st reading kind maximum_length
  | OpLearn c => learn now st c
  | OpLearnPost c p => learn_post_prediction now st c p
  | OpForget faults c => fst <$> forget faults now st c
  | OpCommit faults => fst <$> commit faults now st
  | OpReset faults => fst <$> reset faults now st
  end.

Lemma learn_inv now st c :
  (now <= u16_max)%N → memory_inv st → ∃ st', learn now st c = Some st' ∧ memory_inv st'.
Proof.
  intros Hnow Hinv. unfold learn. destruct (refresh_day_inv now st Hnow Hinv) as (st1 & -> & Hinv1 & _).
  cbn [mbind option_bind]. destruct (updates_memory (mode st1)); [|by exists st1].
  destruct (learned_from_total (entries c)) as [es ->]. cbn [mbind option_bind].
  destruct (memorize_all_inv es st1 Hinv1) as (st' & -> & ? & _). by exists st'.
Qed.

Lemma learn_post_inv now st c p :
  (now <= u16_max)%N → memory_inv st → ∃ st', learn_post_prediction now st c p = Some st' ∧ memory_inv st'.
Proof.
  intros Hnow Hinv. unfold learn_post_prediction.
  destruct (refresh_day_inv now st Hnow Hinv) as (st1 & -> & Hinv1 & _).
  cbn [mbind option_bind]. destruct (updates_memory (mode st1)); [|by exists st1].
  destruct (match post_kind p with Additional es => _ | Replacement ts rs => _ end) as [front update].
  destruct (learned_from_update_total front update) as [es ->]. cbn [mbind option_bind].
  destruct (memorize_all_inv es st1 Hinv1) as (st' & -> & ? & _). by exists st'.
Qed.

(** What a lookup returns, by the kind. *)
Lemma memory_lookup_spec now st reading kind maximum_length :
  (now <= u16_max)%N → memory_inv st → reading ≠ [] →
  ∃ st' found, refresh_day now st = Some st' ∧ memory_inv st' ∧ mode st' = mode st ∧
    let gs := take_at_most maximum_length (graphemes reading) in
    memory_lookup now st reading kind maximum_length =
      Some (st', if uses_memory (mode st)
                 then learned_entry <$> found ++ filter (reading_matches kind gs) (temporaries st')
                 else []) ∧
    (kind ≠ Completions → found = filter (reading_matches kind gs) (persisted st')) ∧
    (kind = Completions → found `sublist_of`
       filter (λ r, reading_matches kind gs r ∧ graphemes (ruby (entry r)) ≠ gs) (persisted st')).
Proof.
  intros Hnow Hinv Hr. destruct (refresh_day_inv now st Hnow Hinv) as (st1 & Href & Hinv1 & _ & Hmode & _).
  unfold memory_lookup. rewrite Href. cbn [mbind option_bind]. rewrite Hmode.
  rewrite (bool_decide_eq_false_2 (reading = [])) by done. rewrite orb_false_r.
  set (gs := take_at_most maximum_length (graphemes reading)).
  destruct (lookup_ids (character_ids st1) kind gs) as [codes|] eqn:Hl.
  - destruct (temporary_found st1 Hinv1 kind gs codes Hl) as (recent & Ht & Hrecent).
    assert (Hfound : ∃ found rs, louds_lookup (persisted_index st1) codes kind = Some found ∧
      mapM (λ i, persisted st1 !! i) found = Some rs ∧
      (kind ≠ Completions → rs = filter (reading_matches kind gs) (persisted st1)) ∧
      (kind = Completions → rs `sublist_of`
       filter (λ r, reading_matches kind gs r ∧ graphemes (ruby (entry r)) ≠ gs) (persisted st1))).
    { destruct (decide (kind = Completions)) as [->|Hk].
      - destruct (persisted_completions st1 Hinv1 gs codes Hl) as (found & rs & ? & ? & ?). by exists found, rs.
      - destruct (persisted_found st1 Hinv1 kind gs codes Hk Hl) as (found & ? & ?).
        by exists found, (filter (reading_matches kind gs) (persisted st1)). }
    destruct Hfound as (found & rs & Hf & Hrs & Hne & Heq). exists st1, rs. split_and!; try done.
    destruct (uses_memory (mode st)); cbn [negb]; [|done].
    rewrite Hf. cbn [mbind option_bind]. rewrite Ht. cbn [mbind option_bind].
    rewrite Hrs. cbn [mbind option_bind]. by rewrite Hrecent.
  - assert (Hnone : ∀ l, Forall (valid_in (character_ids st1)) l → filter (reading_matches kind gs) l = []).
    { intros l Hv. induction Hv as [|r l Hvr _ IH]; [done|]. rewrite filter_cons_False; [done|].
      by eapply unknown_matches. }
    exists st1, []. split_and!; try done.
    + rewrite Hnone by apply Hinv1. by destruct (uses_memory (mode st)).
    + intros _. by rewrite Hnone by apply Hinv1.
    + intros _. apply sublist_nil_l.
Qed.

Lemma run_memory_op_inv st op :
  (op.1 <= u16_max)%N → memory_inv st → ∃ st', run_memory_op st op = Some st' ∧ memory_inv st'.
Proof.
  destruct op as [now op]. simpl. intros Hnow Hinv.
  destruct op as [|reading kind maximum|c|c p|faults c|faults|faults].
  - unfold learned_entries. destruct (refresh_day_inv now st Hnow Hinv) as (st1 & -> & Hinv1 & _).
    exists st1. split; [|done]. cbn. by destruct (uses_memory (mode st1)).
  - destruct (decide (reading = [])) as [->|Hr].
    + unfold memory_lookup. destruct (refresh_day_inv now st Hnow Hinv) as (st1 & -> & Hinv1 & _).
      exists st1. split; [|done]. cbn. by rewrite orb_true_r.
    + destruct (memory_lookup_spec now st reading kind maximum Hnow Hinv Hr)
        as (st' & found & _ & Hinv' & _ & -> & _). by exists st'.
  - by apply learn_inv.
  - by apply learn_post_inv.
  - destruct (forget_inv faults now st c Hnow Hinv) as (st' & r & -> & ?). by exists st'.
  - destruct (commit_inv faults now st Hnow Hinv) as (st' & r & -> & ?). by exists st'.
  - destruct (reset_inv faults now st Hnow Hinv) as (st' & r & -> & ?). by exists st'.
Qed.

Lemma run_memory_ops_inv ops st :
  Forall (λ op, (op.1 <= u16_max)%N) ops → memory_inv st →
  ∃ st', foldl (λ st op, st ← st; run_memory_op st op) (Some st) ops = Some st' ∧ memory_inv st'.
Proof.
  intros Hops. revert st. induction Hops as [|op ops Hop _ IH]; intros st Hinv; [by exists st|].
  cbn [foldl]. change (x ← Some st; run_memory_op x op) with (run_memory_op st op).
  destruct (run_memory_op_inv st op Hop Hinv) as (st1 & -> & Hinv1). by apply IH.
Qed.
End spec.
