(* ===== verification/LearningRoundTrip.v ===== *)
(** * What is saved is what is read

    The files [encode_files] makes of valid records decode to the records again, in
    the order of the nodes of the trie. *)

From S2P Require Import Prelude Unicode Collections F32 Composing Dictionary Louds MemoryIndex MemoryIndexSpec MemoryLoudsSpec DictBinary LearningRecords LearningRecordsSpec LearningFiles LearningFilesSpec LearningMemory LearningMemorySpec.

(** ** Bytes *)

Lemma from_le_bytes_bound bs :
  Forall (λ b, (b < 256)%N) bs → (from_le_bytes bs < 256 ^ N.of_nat (length bs))%N.
Proof.
  induction 1 as [|b bs Hb _ IH]; [done|]. cbn [from_le_bytes length].
  rewrite Nat2N.inj_succ, N.pow_succ_r'. lia.
Qed.

Lemma to_from_le_bytes bs :
  Forall (λ b, (b < 256)%N) bs → to_le_bytes (length bs) (from_le_bytes bs) = bs.
Proof.
  induction 1 as [|b bs Hb _ IH]; [done|]. cbn [from_le_bytes to_le_bytes length].
  rewrite (N.mul_comm 256), N.Div0.mod_add, N.mod_small, N.div_add, N.div_small by lia.
  by rewrite N.add_0_l, IH.
Qed.

(** A number that stands [k] bytes behind a prefix. *)
Lemma read_uint_at width v pre l k context :
  (v < 256 ^ N.of_nat width)%N → k + width ≤ length l → take width (drop k l) = to_le_bytes width v →
  read_uint width (pre ++ l) (length pre + k) context = mret v.
Proof.
  intros Hv Hlen Hl. unfold read_uint, require. rewrite decide_False by (rewrite length_app; lia).
  rewrite slice_ok by (rewrite ?length_app; lia). rewrite <- drop_drop, drop_app_length.
  replace (length pre + k + width - (length pre + k)) with width by lia.
  rewrite Hl. cbn. by rewrite from_to_le_bytes.
Qed.

Lemma read_u16_at (v : nat) pre l k context :
  (N.of_nat v <= u16_max)%N → k + 2 ≤ length l → take 2 (drop k l) = to_le_bytes 2 (N.of_nat v) →
  read_u16 (pre ++ l) (length pre + k) context = mret v.
Proof.
  intros Hv Hlen Hl. unfold read_u16. rewrite (read_uint_at 2 (N.of_nat v)); [cbn; by rewrite Nat2N.id| |done..].
  unfold u16_max in Hv. change (256 ^ N.of_nat 2)%N with 65536%N. lia.
Qed.

Lemma tab_encode_char c : TAB_BYTE ∈ encode_char c → c = TAB_BYTE.
Proof.
  unfold encode_char, TAB_BYTE. intros H. repeat case_match; set_unfold; destruct_or!; try done; exfalso;
    match goal with H : (9 = _ + ?y)%N |- _ => revert H; generalize y; intros; lia end.
Qed.

Lemma tab_utf8 s : TAB_BYTE ∉ s → TAB_BYTE ∉ utf8 s.
Proof. intros Hs (c & Hc%tab_encode_char & Hin)%list_elem_of_bind. by subst. Qed.

Lemma split_on_fields s fields :
  TAB_BYTE ∉ s → Forall (λ f, TAB_BYTE ∉ f) fields →
  Text.split_on TAB_BYTE (s ++ (fields ≫= cons TAB_BYTE)) = s :: fields.
Proof.
  intros Hs Hf. revert s Hs. induction Hf as [|f fields Hf _ IH]; intros s Hs.
  - cbn. by rewrite app_nil_r, Text.split_on_no_sep.
  - cbn [mbind list_bind app]. rewrite Text.split_on_app by done. f_equal. by apply IH.
Qed.

(** ** A block of records *)

(** What a record is read back as: a word that is empty is taken to be the reading. *)
Definition stored `{Segmentation} (r : LearningRecord) : LearningRecord := {|
  entry := {| word := if decide (word (entry r) = []) then ruby (entry r) else word (entry r);
              ruby := ruby (entry r); left_id := left_id (entry r); right_id := right_id (entry r);
              meaning_id := meaning_id (entry r);
              base_value := f32_le (f32_to_le_bytes (learning_value (count r) (ruby (entry r))));
              adjustment := zero; metadata := no_metadata |};
  last_used_day := last_used_day r; last_updated_day := last_updated_day r; count := count r |}.

(** The fields of a record fit the types of the program and hold text the format
    can separate. *)
Record storable (r : LearningRecord) : Prop := {
  storable_left : (N.of_nat (left_id (entry r)) <= u16_max)%N;
  storable_right : (N.of_nat (right_id (entry r)) <= u16_max)%N;
  storable_meaning : (N.of_nat (meaning_id (entry r)) <= u16_max)%N;
  storable_used : (last_used_day r <= u16_max)%N;
  storable_updated : (last_updated_day r <= u16_max)%N;
  storable_count : (count r <= u8_max)%N;
  storable_word : scalars (word (entry r)) ∧ TAB_BYTE ∉ word (entry r);
  storable_ruby : scalars (ruby (entry r)) ∧ TAB_BYTE ∉ ruby (entry r);
}.

(** An entry as the program's types have it. *)
Definition typed_entry (e : DictionaryEntry) : Prop :=
  (N.of_nat (left_id e) <= u16_max)%N ∧ (N.of_nat (right_id e) <= u16_max)%N ∧
  (N.of_nat (meaning_id e) <= u16_max)%N ∧ scalars (word e) ∧ scalars (ruby e).

Lemma valid_no_tab `{Segmentation} ids e :
  valid_learning_entry ids e = true → TAB_BYTE ∉ word e ∧ TAB_BYTE ∉ ruby e.
Proof.
  unfold valid_learning_entry. rewrite !andb_true_iff, !negb_true_iff. intros [[[Hw _] Hr] _].
  assert (Htab : ∀ s, existsb is_control s = false → TAB_BYTE ∉ s).
  { intros s Hs Hin. assert (Ht : existsb is_control s = true); [|congruence].
    apply existsb_exists. exists TAB_BYTE. split; [by apply list_elem_of_In|done]. }
  split; by apply Htab.
Qed.

(** Fresh and valid records of the program's types can be stored. *)
Lemma valid_storable `{Segmentation} ids day r :
  (day <= u16_max)%N → valid_in ids r → fresh day r → typed_entry (entry r) → storable r.
Proof.
  intros Hday [Hw Hr]%valid_no_tab Hf (? & ? & ? & ? & ?). unfold fresh in Hf. deex.
  constructor; try done; unfold u8_max in *; lia.
Qed.

Section blocks.
Context `{Segmentation}.

Lemma length_entry_header r : length (entry_header r) = ENTRY_HEADER_SIZE.
Proof. done. Qed.

Lemma length_headers rs : length (rs ≫= entry_header) = length rs * ENTRY_HEADER_SIZE.
Proof. induction rs as [|r rs IH]; [done|]. by rewrite bind_cons, length_app, IH. Qed.

Definition header_of (r : LearningRecord) : DictionaryEntry :=
  {| word := []; ruby := []; left_id := left_id (entry r); right_id := right_id (entry r);
     meaning_id := meaning_id (entry r);
     base_value := f32_le (f32_to_le_bytes (learning_value (count r) (ruby (entry r))));
     adjustment := zero; metadata := no_metadata |}.

(** The header of a record, wherever it stands. *)
Lemma read_header_app r pre rest index :
  storable r → length pre = 2 + index * ENTRY_HEADER_SIZE →
  read_header (pre ++ entry_header r ++ rest) index = mret (header_of r).
Proof.
  intros Hr Hpre. unfold read_header. rewrite <- Hpre.
  set (bits := f32_to_le_bytes (learning_value (count r) (ruby (entry r)))).
  assert (Hbytes : Forall (λ b, (b < 256)%N) bits) by apply to_le_bytes_bytes.
  assert (Hlen : 10 ≤ length (entry_header r ++ rest)) by (rewrite length_app, length_entry_header; unfold ENTRY_HEADER_SIZE; lia).
  assert (Hbase : read_f32 (pre ++ entry_header r ++ rest) (length pre + 6) "entry value" = mret (f32_le bits)).
  { unfold read_f32, read_u32. rewrite (read_uint_at 4 (from_le_bytes bits)); [done| |lia|].
    - by apply (from_le_bytes_bound bits).
    - etrans; [|symmetry; exact (to_from_le_bytes bits Hbytes)]. done. }
  rewrite Hbase. rewrite (read_u16_at (right_id (entry r)) pre _ 2); [|by apply storable_right|lia|reflexivity].
  rewrite (read_u16_at (meaning_id (entry r)) pre _ 4); [|by apply storable_meaning|lia|reflexivity].
  rewrite <- (Nat.add_0_r (length pre)) at 1.
  rewrite (read_u16_at (left_id (entry r)) pre _ 0); [|by apply storable_left|lia|reflexivity]. done.
Qed.

Lemma headers_loop rs pre rest index es :
  Forall storable rs → length pre = 2 + index * ENTRY_HEADER_SIZE →
  for_each (push_header (pre ++ (rs ≫= entry_header) ++ rest)) es (seq index (length rs)) =
    mret (es ++ (header_of <$> rs)).
Proof.
  intros Hrs. revert pre index es. induction Hrs as [|r rs Hr _ IH]; intros pre index es Hpre.
  { cbn. by rewrite app_nil_r. }
  rewrite bind_cons, <- app_assoc.
  assert (Hstep : push_header (pre ++ entry_header r ++ (rs ≫= entry_header) ++ rest) es index =
    mret (es ++ [header_of r])) by (unfold push_header; by rewrite read_header_app).
  cbn [length seq for_each]. rewrite Hstep. cbn [mbind outcome_mbind mret outcome_ret].
  rewrite (app_assoc pre). rewrite IH by (rewrite length_app, length_entry_header; lia).
  cbn. by rewrite <- app_assoc.
Qed.

Lemma word_field_parsed reading r :
  storable r → ruby (entry r) = reading →
  with_text reading (header_of r) (if decide (word (entry r) = reading) then [] else utf8 (word (entry r))) =
    entry (stored r).
Proof.
  intros Hr Hruby. unfold with_text, stored. simpl. f_equal; [|by rewrite Hruby].
  case_decide as E; [rewrite E; subst; by case_decide|]. rewrite Hruby.
  destruct (word (entry r)) as [|c w] eqn:Hw; [done|]. rewrite decide_False by done.
  rewrite <- Hw, from_utf8_lossy_utf8 by apply Hr. rewrite Hw.
  destruct (utf8 (c :: w)) eqn:Hu; [|done]. exfalso. rewrite utf8_cons in Hu.
  unfold encode_char in Hu. by repeat case_match.
Qed.

(** The block of records that share a reading. *)
Lemma parse_block reading rs :
  Forall storable rs → (N.of_nat (length rs) <= u16_max)%N →
  Forall (λ r, ruby (entry r) = reading) rs → scalars reading → TAB_BYTE ∉ reading →
  parse_entry_block (to_le_bytes 2 (N.of_nat (length rs)) ++ (rs ≫= entry_header) ++
    utf8 reading ++ (rs ≫= word_field reading)) = mret ((λ r, entry (stored r)) <$> rs).
Proof.
  intros Hrs Hlen Hruby Hscalar Htab. unfold parse_entry_block.
  set (text := utf8 reading ++ (rs ≫= word_field reading)).
  set (binary := to_le_bytes 2 _ ++ _ ++ text).
  assert (Hcount : read_u16 binary 0 "entry count" = mret (length rs)).
  { apply (read_u16_at (length rs) [] binary 0); [done| |reflexivity]. unfold binary. rewrite length_app, length_to_le_bytes. lia. }
  rewrite Hcount. cbn [mbind outcome_mbind mret outcome_ret].
  assert (Hsize : length binary = 2 + length rs * ENTRY_HEADER_SIZE + length text).
  { unfold binary. rewrite !length_app, length_to_le_bytes, length_headers. lia. }
  unfold require. rewrite decide_False by lia. cbn [mbind outcome_mbind mret outcome_ret].
  assert (Hheaders : for_each (push_header binary) [] (seq 0 (length rs)) = mret (header_of <$> rs)).
  { apply (headers_loop rs (to_le_bytes 2 (N.of_nat (length rs))) text 0 []); [done|]. by rewrite length_to_le_bytes. }
  rewrite Hheaders.
  cbn [mbind outcome_mbind mret outcome_ret app].
  rewrite slice_ok by lia.
  replace (length binary - (2 + length rs * ENTRY_HEADER_SIZE)) with (length text) by lia.
  assert (Htext : take (length text) (drop (2 + length rs * ENTRY_HEADER_SIZE) binary) = text).
  { unfold binary. rewrite app_assoc, drop_app_length' by (rewrite length_app, length_to_le_bytes, length_headers; lia).
    by rewrite take_ge. }
  rewrite Htext. cbn [panicking mbind outcome_mbind].
  set (fields := (λ r, if decide (word (entry r) = reading) then [] else utf8 (word (entry r))) <$> rs).
  assert (Hsplit : Text.split_on TAB_BYTE text = utf8 reading :: fields).
  { unfold text, fields. rewrite <- split_on_fields.
    - f_equal. f_equal. clear. induction rs as [|r rs IH]; [done|]. cbn [mbind list_bind fmap list_fmap app].
      unfold word_field at 1. cbn [app]. by rewrite <- IH.
    - by apply tab_utf8.
    - apply Forall_fmap, Forall_forall. intros r Hr. simpl. case_decide; [set_solver|]. apply tab_utf8.
      by apply (proj1 (Forall_forall _ _) Hrs r Hr). }
  rewrite Hsplit. assert (Hf : length fields = length rs) by apply length_fmap.
  rewrite decide_False by (simpl; lia). cbn [lookup list_lookup panicking mbind outcome_mbind].
  rewrite slice_ok by (simpl; lia). rewrite Nat.add_sub. cbn [drop panicking mbind outcome_mbind].
  rewrite (take_ge fields) by lia. rewrite from_utf8_lossy_utf8 by done. cbn [mret outcome_ret]. f_equal.
  unfold fields. clear -Hrs Hruby. induction Hrs as [|r rs Hr _ IH]; [done|].
  apply Forall_cons in Hruby as [Hr' Hruby]. cbn [fmap list_fmap zip_with]. f_equal; [by apply word_field_parsed|].
  by apply IH.
Qed.
End blocks.

(** ** A shard of blocks *)

Lemma saturate_small bound n : (n <= bound)%N → saturate bound n = n.
Proof. intros Hn. unfold saturate. by rewrite (proj2 (N.leb_le _ _) Hn). Qed.

Lemma length_payload_offsets offset payloads : length (payload_offsets offset payloads) = length payloads * 4.
Proof.
  revert offset. induction payloads as [|p payloads IH]; intros offset; [done|].
  cbn [payload_offsets]. rewrite length_app, length_to_le_bytes, IH. done.
Qed.

Lemma payload_offsets_lookup payloads j p offset :
  payloads !! j = Some p → ∃ before behind,
    payload_offsets offset payloads =
      before ++ to_le_bytes 4 (saturate u32_max (N.of_nat (offset + length (concat (take j payloads))))) ++ behind ∧
    length before = j * 4.
Proof.
  revert j offset. induction payloads as [|p0 payloads IH]; intros j offset Hj; [done|].
  destruct j as [|j].
  - exists [], (payload_offsets (offset + length p0) payloads). simpl. by rewrite Nat.add_0_r.
  - destruct (IH j (offset + length p0) Hj) as (before & behind & E & Hlen).
    exists (to_le_bytes 4 (saturate u32_max (N.of_nat offset)) ++ before), behind. cbn [payload_offsets take concat].
    rewrite E, <- app_assoc, !length_app, length_to_le_bytes, Hlen, Nat.add_assoc. split; [done|lia].
Qed.

Lemma concat_take_lookup {A} (payloads : list (list A)) j p :
  payloads !! j = Some p →
  concat payloads = concat (take j payloads) ++ p ++ concat (drop (S j) payloads).
Proof.
  intros Hj. rewrite <- (take_drop_middle _ _ _ Hj) at 1. by rewrite concat_app.
Qed.

(** The offset of a payload in a shard *)
Lemma shard_offset payloads shard (count : N) i q :
  shard = to_le_bytes 2 count ++ payload_offsets (2 + length payloads * 4) payloads ++ concat payloads →
  (N.of_nat (2 + length payloads * 4 + length (concat payloads)) <= u32_max)%N → payloads !! i = Some q →
  read_u32 shard (2 + i * 4) "shard block offset" =
    mret (N.of_nat (2 + length payloads * 4 + length (concat (take i payloads)))).
Proof.
  intros Hshard Hsize Hi.
  destruct (payload_offsets_lookup payloads i q (2 + length payloads * 4) Hi) as (before & behind & E & Hb).
  assert (Hin : length (concat (take i payloads)) ≤ length (concat payloads)).
  { rewrite (concat_take_lookup _ _ _ Hi), length_app. lia. }
  rewrite saturate_small in E by lia.
  assert (Hsplit : shard = (to_le_bytes 2 count ++ before) ++
    to_le_bytes 4 (N.of_nat (2 + length payloads * 4 + length (concat (take i payloads)))) ++ behind ++ concat payloads).
  { rewrite Hshard, E. by rewrite <- !app_assoc. }
  replace (2 + i * 4) with (length (to_le_bytes 2 count ++ before) + 0)
    by (rewrite length_app, length_to_le_bytes; lia).
  rewrite Hsplit at 1. unfold read_u32. apply read_uint_at.
  - change (256 ^ N.of_nat 4)%N with (u32_max + 1)%N. lia.
  - rewrite length_app, length_to_le_bytes. lia.
  - rewrite drop_0, take_app_length'; [done|by rewrite length_to_le_bytes].
Qed.

Lemma parse_shard payloads shard j p es :
  shard = to_le_bytes 2 (saturate u16_max (N.of_nat (length payloads))) ++
          payload_offsets (2 + length payloads * 4) payloads ++ concat payloads →
  (N.of_nat (length payloads) <= u16_max)%N → (N.of_nat (length shard) <= u32_max)%N →
  payloads !! j = Some p → parse_entry_block p = mret es → parse_entry_shard shard [j] = mret es.
Proof.
  intros Hshard Hcount Hsize Hj Hp. rewrite saturate_small in Hshard by done.
  pose proof (lookup_lt_Some _ _ _ Hj) as Hlt.
  assert (Hlen : length shard = 2 + length payloads * 4 + length (concat payloads)).
  { rewrite Hshard, !length_app, length_to_le_bytes, length_payload_offsets. lia. }
  assert (Hslots : read_u16 shard 0 "shard slot count" = mret (length payloads)).
  { rewrite Hshard. apply (read_u16_at (length payloads) [] _ 0); [done| |reflexivity].
    simpl. lia. }
  assert (Hoffset : ∀ i q, payloads !! i = Some q → read_u32 shard (2 + i * 4) "shard block offset" =
    mret (N.of_nat (2 + length payloads * 4 + length (concat (take i payloads))))).
  { intros i q Hi. eapply shard_offset; [done|lia|exact Hi]. }
  unfold parse_entry_shard. rewrite Hslots. cbn [mbind outcome_mbind mret outcome_ret].
  unfold require. rewrite decide_False by lia. cbn [mbind outcome_mbind mret outcome_ret for_each].
  unfold parse_slot. rewrite decide_False by lia. rewrite (Hoffset j p Hj). cbn [mbind outcome_mbind mret outcome_ret].
  pose proof (concat_take_lookup _ _ _ Hj) as Hc.
  pose proof (f_equal length Hc) as Hcl. rewrite !length_app in Hcl.
  set (start := 2 + length payloads * 4 + length (concat (take j payloads))) in *.
  assert (Hstop : (if decide (j + 1 = length payloads) then mret (N.of_nat (length shard))
    else read_u32 shard (2 + (j + 1) * 4) "shard block offset") = mret (M := outcome DictionaryBinaryError) (N.of_nat (start + length p))).
  { case_decide as Hend.
    - do 2 f_equal. rewrite (drop_ge payloads) in Hcl by lia. simpl in Hcl. lia.
    - destruct (lookup_lt_is_Some_2 payloads (j + 1)) as [q Hq]; [lia|]. rewrite (Hoffset _ _ Hq). do 2 f_equal.
      replace (j + 1) with (S j) by lia. rewrite (take_S_r _ _ _ Hj), concat_app, length_app. cbn [concat].
      rewrite app_nil_r. lia. }
  rewrite Hstop. cbn [mbind outcome_mbind mret outcome_ret]. rewrite decide_False by lia.
  rewrite !Nat2N.id, slice_ok by lia. cbn [panicking mbind outcome_mbind].
  replace (start + length p - start) with (length p) by lia.
  assert (Hblock : take (length p) (drop start shard) = p).
  { rewrite Hshard, Hc, !app_assoc. rewrite <- !app_assoc, app_assoc, app_assoc.
    rewrite drop_app_length' by (rewrite !length_app, length_to_le_bytes, length_payload_offsets; lia).
    by rewrite take_app_length. }
  rewrite Hblock, Hp. done.
Qed.

(** ** The metadata *)

Definition days_of (r : LearningRecord) : N * N * N := (last_used_day r, last_updated_day r, count r).

Lemma read_array_at width v pre l k :
  (v < 256 ^ N.of_nat width)%N → k + width ≤ length l → take width (drop k l) = to_le_bytes width v →
  read_array width (pre ++ l) (length pre + k) = mret (v, length pre + k + width).
Proof.
  intros Hv Hlen Hl. unfold read_array. rewrite decide_True by (rewrite length_app; lia).
  rewrite <- drop_drop, drop_app_length, Hl. by rewrite from_to_le_bytes.
Qed.

Lemma u16_bytes v : (v <= u16_max)%N → (v < 256 ^ N.of_nat 2)%N.
Proof. unfold u16_max. change (256 ^ N.of_nat 2)%N with 65536%N. lia. Qed.

Lemma element_read r pre rest block i :
  storable r →
  element_step (pre ++ metadata_element r ++ rest) (block, length pre) i =
    mret (block ++ [days_of r], length (pre ++ metadata_element r)).
Proof.
  intros Hr. unfold element_step. set (l := metadata_element r ++ rest).
  assert (Hl : 6 ≤ length l) by (unfold l; rewrite length_app; simpl; lia).
  rewrite <- (Nat.add_0_r (length pre)) at 1.
  rewrite (read_array_at 2 (last_used_day r)); [|by apply u16_bytes, storable_used|lia|reflexivity].
  cbn [mbind outcome_mbind mret outcome_ret]. rewrite Nat.add_0_r.
  rewrite (read_array_at 2 (last_updated_day r)); [|by apply u16_bytes, storable_updated|lia|reflexivity].
  cbn [mbind outcome_mbind mret outcome_ret]. unfold get_byte.
  rewrite lookup_app_r by lia. replace (length pre + 2 + 2 - length pre) with 4 by lia.
  change (l !! 4) with (Some (count r)). cbn [mbind outcome_mbind mret outcome_ret].
  rewrite length_app. do 2 f_equal. unfold METADATA_ELEMENT_SIZE. simpl. lia.
Qed.

Lemma elements_loop rs pre rest block n :
  Forall storable rs →
  for_each (element_step (pre ++ (rs ≫= metadata_element) ++ rest)) (block, length pre) (seq n (length rs)) =
    mret (block ++ (days_of <$> rs), length (pre ++ (rs ≫= metadata_element))).
Proof.
  intros Hrs. revert pre block n. induction Hrs as [|r rs Hr _ IH]; intros pre block n.
  { cbn. by rewrite !app_nil_r. }
  rewrite bind_cons, <- app_assoc. cbn [length seq for_each]. rewrite element_read by done.
  cbn [mbind outcome_mbind mret outcome_ret]. rewrite (app_assoc pre), IH, fmap_cons. by rewrite <- !app_assoc.
Qed.

(** The bytes of a block of the metadata. *)
Definition metadata_bytes (rs : list LearningRecord) : list byte :=
  N.of_nat (length rs) :: (rs ≫= metadata_element).

Definition block_days (rs : list LearningRecord) : list (N * N * N) := days_of <$> rs.

Lemma blocks_loop (rss : list (list LearningRecord)) pre rest blocks n :
  Forall (Forall storable) rss →
  for_each (block_step (pre ++ (rss ≫= metadata_bytes) ++ rest)) (blocks, length pre) (seq n (length rss)) =
    Return (blocks ++ (block_days <$> rss), length (pre ++ (rss ≫= metadata_bytes))).
Proof.
  intros Hrss. revert pre blocks n. induction Hrss as [|rs rss Hrs _ IH]; intros pre blocks n.
  { cbn. by rewrite !app_nil_r. }
  rewrite bind_cons, <- app_assoc. set (l := (rss ≫= metadata_bytes) ++ rest).
  assert (Hstep : block_step (pre ++ metadata_bytes rs ++ l) (blocks, length pre) n =
    mret (blocks ++ [days_of <$> rs], length (pre ++ metadata_bytes rs))).
  { unfold block_step, get_byte. rewrite lookup_app_r, Nat.sub_diag by lia.
    cbn [metadata_bytes app lookup list_lookup mbind outcome_mbind mret outcome_ret].
    rewrite Nat2N.id. replace (S (length pre)) with (length (pre ++ [N.of_nat (length rs)])) by (rewrite length_app; simpl; lia).
    change (pre ++ N.of_nat (length rs) :: ?x) with (pre ++ [N.of_nat (length rs)] ++ x).
    rewrite (app_assoc pre). rewrite elements_loop by done. cbn [mbind outcome_mbind mret outcome_ret app].
    by rewrite <- app_assoc. }
  cbn [length seq for_each]. rewrite Hstep. cbn [mbind outcome_mbind mret outcome_ret].
  unfold l. rewrite (app_assoc pre), IH, fmap_cons. by rewrite <- !app_assoc.
Qed.

(** ** The nodes *)

Section nodes.
Context `{Segmentation}.

(** The bytes of a block and of a shard, from the records themselves. *)
Definition block_bytes (rs : list LearningRecord) : list byte :=
  let reading := match rs with r :: _ => ruby (entry r) | [] => [] end in
  to_le_bytes 2 (saturate u16_max (N.of_nat (length rs))) ++ (rs ≫= entry_header) ++
  utf8 reading ++ (rs ≫= word_field reading).

Definition shard_bytes (rss : list (list LearningRecord)) : list byte :=
  to_le_bytes 2 (saturate u16_max (N.of_nat (length rss))) ++
  payload_offsets (2 + length rss * 4) (block_bytes <$> rss) ++ concat (block_bytes <$> rss).

Definition resolves (records : list LearningRecord) (block : list nat) (rs : list LearningRecord) : Prop :=
  mapM (λ index, records !! index) block = Some rs.

Lemma resolves_length records block rs : resolves records block rs → length rs = length block.
Proof. intros E%mapM_Some. symmetry. by eapply Forall2_length. Qed.

Lemma encode_block_bytes records block rs :
  resolves records block rs → encode_entry_block records block = Some (block_bytes rs).
Proof.
  intros Hr. unfold encode_entry_block, block_bytes. rewrite (resolves_length _ _ _ Hr).
  by unfold resolves in Hr; rewrite Hr.
Qed.

Lemma mapM_Forall2 {A B C} (f : A → option C) (g : B → C) (R : A → B → Prop) l k :
  (∀ x y, R x y → f x = Some (g y)) → Forall2 R l k → mapM f l = Some (g <$> k).
Proof. intros Hf Hlk. apply mapM_Some. induction Hlk; constructor; auto. Qed.

Lemma encode_shard_bytes records bs rss :
  Forall2 (resolves records) bs rss → encode_entry_shard records bs = Some (shard_bytes rss).
Proof.
  intros Hr. unfold encode_entry_shard, shard_bytes.
  rewrite (mapM_Forall2 _ block_bytes _ _ _ (encode_block_bytes records) Hr). cbn [mbind option_bind].
  by rewrite length_fmap.
Qed.

Lemma metadata_block_bytes records block rs :
  resolves records block rs → length block ≤ 255 → metadata_block records block = Some (metadata_bytes rs).
Proof.
  intros Hr Hlen. unfold metadata_block, metadata_bytes. pose proof (resolves_length _ _ _ Hr) as Hl.
  rewrite saturate_small by (unfold u8_max; lia). rewrite Hl.
  assert (Hm : mapM (λ index, metadata_element <$> records !! index) block = Some (metadata_element <$> rs)).
  { apply mapM_Some. apply mapM_Some in Hr. induction Hr as [|i r block rs Hi _ IH]; constructor; auto.
    - by rewrite Hi.
    - apply IH; simpl in *; lia. }
  rewrite Hm. cbn [mbind option_bind]. do 2 f_equal. symmetry. apply bind_concat.
Qed.

(** A block as the trie has it: few records, of one reading. *)
Record block_ok (rs : list LearningRecord) : Prop := {
  block_storable : Forall storable rs;
  block_small : length rs ≤ 255;
  block_reading : ∃ reading, Forall (λ r, ruby (entry r) = reading) rs;
}.

Lemma parse_block_bytes rs :
  block_ok rs → parse_entry_block (block_bytes rs) = mret ((λ r, entry (stored r)) <$> rs).
Proof.
  intros [Hs Hlen [reading Hr]]. unfold block_bytes.
  assert (Hu : (N.of_nat (length rs) <= u16_max)%N) by (unfold u16_max; lia).
  rewrite saturate_small by done. destruct rs as [|r rs].
  { apply (parse_block [] []); try done; [constructor|set_solver]. }
  apply (parse_block (ruby (entry r)) (r :: rs)); [done|done| | |].
  - apply Forall_cons in Hr as [<- Hr]. by constructor.
  - apply Forall_cons in Hs as [Hs _]. apply Hs.
  - apply Forall_cons in Hs as [Hs _]. apply Hs.
Qed.

Context (fs : Directory) (rss : list (list LearningRecord)) (Hrss : Forall block_ok rss).
Context (Hshards : ∀ k chunk, chunks SHARD_SIZE rss !! k = Some chunk →
  fs !! shard_file k = Some (shard_bytes chunk) ∧ (N.of_nat (length (shard_bytes chunk)) <= u32_max)%N).

Definition loaded_ok (loaded : option (nat * list byte)) : Prop :=
  ∀ k shard, loaded = Some (k, shard) → fs !! shard_file k = Some shard.

Lemma SHARD_SIZE_pos : 0 < SHARD_SIZE.
Proof. unfold SHARD_SIZE. lia. Qed.

Lemma node_read j rs recs loaded :
  rss !! j = Some rs → loaded_ok loaded →
  ∃ loaded', loaded_ok loaded' ∧
    node_step fs (recs, loaded) (j, block_days rs) = mret (recs ++ (stored <$> rs), loaded').
Proof using Hrss Hshards.
  intros Hj Hloaded. pose proof SHARD_SIZE_pos as Hpos. pose proof (lookup_lt_Some _ _ _ Hj) as Hlt.
  pose proof (Nat.Div0.div_mod j SHARD_SIZE) as Hdm. pose proof (Nat.mod_upper_bound j SHARD_SIZE ltac:(lia)) as Hm.
  set (k := j / SHARD_SIZE) in *.
  assert (Hchunk : chunks SHARD_SIZE rss !! k = Some (take SHARD_SIZE (drop (k * SHARD_SIZE) rss))).
  { apply chunks_lookup; [done|]. lia. }
  destruct (Hshards _ _ Hchunk) as [Hfile Hsize]. set (chunk := take SHARD_SIZE _) in *.
  assert (Hin : chunk !! (j `mod` SHARD_SIZE) = Some rs).
  { unfold chunk. rewrite lookup_take_lt, lookup_drop by done. rewrite <- Hj. f_equal. lia. }
  assert (Hok : block_ok rs) by by apply (Forall_lookup_1 _ _ _ _ Hrss Hj).
  assert (Hparse : parse_entry_shard (shard_bytes chunk) [j `mod` SHARD_SIZE] = mret ((λ r, entry (stored r)) <$> rs)).
  { apply (parse_shard (block_bytes <$> chunk) _ _ (block_bytes rs)).
    - unfold shard_bytes. by rewrite length_fmap.
    - rewrite length_fmap. unfold chunk. rewrite length_take. unfold u16_max, SHARD_SIZE. lia.
    - done.
    - by rewrite list_lookup_fmap, Hin.
    - by apply parse_block_bytes. }
  exists (Some (k, shard_bytes chunk)). split; [by intros ? ? [= <- <-]|]. unfold node_step. fold k.
  assert (Hload : match loaded with
     | Some (loaded_shard, shard) => if decide (loaded_shard = k) then mret shard else read_required fs (shard_file k)
     | None => read_required fs (shard_file k)
     end = mret (M := outcome LearningError) (shard_bytes chunk)).
  { unfold read_required. rewrite Hfile. destruct loaded as [[k' shard]|]; [|done]. case_decide as E; [|done].
    subst k'. specialize (Hloaded _ _ eq_refl). rewrite Hfile in Hloaded. by injection Hloaded as ->. }
  rewrite Hload. cbn [mbind outcome_mbind mret outcome_ret]. rewrite Hparse. cbn [mret outcome_ret].
  unfold block_days. rewrite !length_fmap, decide_False by lia. do 3 f_equal.
  clear. induction rs as [|r rs IH]; [done|]. cbn [fmap list_fmap zip_with]. by rewrite <- IH.
Qed.

Lemma nodes_loop todo n recs loaded :
  (∀ i rs, todo !! i = Some rs → rss !! (n + i) = Some rs) → loaded_ok loaded →
  ∃ loaded', for_each (node_step fs) (recs, loaded) (zip (seq n (length todo)) (block_days <$> todo)) =
    mret (recs ++ (stored <$> concat todo), loaded').
Proof using Hrss Hshards.
  revert n recs loaded. induction todo as [|rs todo IH]; intros n recs loaded Htodo Hloaded.
  { exists loaded. cbn. by rewrite app_nil_r. }
  destruct (node_read n rs recs loaded) as (loaded1 & Hl1 & Hstep); [|done|].
  { rewrite <- (Htodo 0 rs eq_refl). f_equal. lia. }
  cbn [length seq fmap list_fmap zip zip_with for_each]. rewrite Hstep. cbn [mbind outcome_mbind mret outcome_ret].
  destruct (IH (S n) (recs ++ (stored <$> rs)) loaded1) as (loaded' & E); [|done|].
  { intros i rs' Hi. rewrite <- (Htodo (S i) rs' Hi). f_equal. lia. }
  exists loaded'. etrans; [exact E|]. cbn [concat]. by rewrite fmap_app, app_assoc.
Qed.
End nodes.

(** ** The files of a list of records *)

Section files.
Context `{SegmentationLaws}.
Context (ids : CharacterIdMap.t) (Hids : ids_ok ids).

Lemma length_matching (P : option (list byte) → Prop) `{!∀ e, Decision (P e)} encoded :
  length (matching P encoded) = length (filter P encoded).
Proof.
  unfold matching. rewrite length_fmap. induction encoded as [|e encoded IH] using rev_ind; [done|].
  rewrite imap_app, !filter_app, !length_app, IH. f_equal. cbn [imap].
  destruct (decide (P e)); [rewrite !filter_cons_True|rewrite !filter_cons_False]; done.
Qed.

Lemma chunks_Forall2 {A B} (R : A → B → Prop) size l k :
  0 < size → Forall2 R l k → Forall2 (Forall2 R) (chunks size l) (chunks size k).
Proof.
  intros Hsize Hlk. revert k Hlk. induction l as [|l Hl IH] using (chunks_ind size Hsize); intros k Hlk.
  { apply Forall2_nil_inv_l in Hlk as ->. constructor. }
  assert (Hk : k ≠ []) by (intros ->; by apply Forall2_nil_inv_r in Hlk).
  rewrite (chunks_cons size Hsize l Hl), (chunks_cons size Hsize k Hk).
  constructor; [by apply Forall2_take|]. by apply IH, Forall2_drop.
Qed.

(** The blocks of the index, cut at 255 records. *)
Section of_trie.
Context (records : list LearningRecord) (nodes : MemoryTrie) (paths ps : list (list byte)).
Context (Hvalid : Forall (valid_in ids) records) (Hstorable : Forall storable records).

Definition codes : list (option (list byte)) := encoded_readings ids records.
Definition cut_blocks : list (list nat) := take 255 <$> ([[]; []] ++ (holding codes <$> ps)).

Context (Hinv : trie_inv (holding codes) paths nodes) (Hperm : [] :: ps ≡ₚ paths).

Lemma cut_block block :
  block ∈ cut_blocks → length block ≤ 255 ∧ (block = [] ∨ ∃ p, p ∈ ps ∧ block = take 255 (holding codes p)).
Proof using.
  clear. unfold cut_blocks. intros (b & -> & Hb)%list_elem_of_fmap. split; [rewrite length_take; lia|].
  apply elem_of_app in Hb as [Hb|(p & -> & Hp)%list_elem_of_fmap]; [|right; by exists p].
  left. assert (b = []) as -> by set_solver. done.
Qed.

Lemma cut_bound i : i ∈ concat cut_blocks → i < length records.
Proof using.
  clear. intros (block & Hb & Hi)%elem_of_concat. apply cut_block in Hb as [_ [->|(p & _ & ->)]].
  { by apply not_elem_of_nil in Hi. }
  apply elem_of_take_in, holding_bound in Hi. unfold codes, encoded_readings in Hi. by rewrite length_fmap in Hi.
Qed.

Lemma cut_NoDup : NoDup (concat cut_blocks).
Proof using Hinv Hperm.
  clear Hvalid Hstorable.
  assert (Hps : NoDup ps).
  { pose proof (inv_NoDup _ _ _ Hinv) as Hnd. rewrite <- Hperm in Hnd. by apply NoDup_cons in Hnd as [_ ?]. }
  eapply (sublist_NoDup _ (ps ≫= holding codes)); [by apply NoDup_holding|].
  unfold cut_blocks. rewrite fmap_app, concat_app. cbn [fmap list_fmap take concat app]. rewrite bind_concat.
  clear. induction ps as [|p l IH]; [done|]. cbn [fmap list_fmap concat].
  apply sublist_app; [apply sublist_take|exact IH].
Qed.

Lemma cut_complete i :
  (∀ reading, length (filter (λ r, ruby (entry r) = reading) records) ≤ 255) →
  i < length records → i ∈ concat cut_blocks.
Proof using H0 Hids Hvalid Hinv Hperm.
  clear Hstorable. intros Hfew Hi. destruct (lookup_lt_is_Some_2 _ _ Hi) as [r Hr].
  pose proof (Forall_lookup_1 _ _ _ _ Hvalid Hr) as Hv. unfold valid_in, valid_learning_entry in Hv.
  rewrite !andb_true_iff in Hv. destruct Hv as [[[_ Hne] _] [code Hcode]%bool_decide_eq_true].
  assert (Hat : codes !! i = Some (Some code)) by (unfold codes, encoded_readings; by rewrite list_lookup_fmap, Hr; cbn; rewrite Hcode).
  assert (Hp : code ∈ ps).
  { destruct (decide (code ∈ paths)) as [Hin|Hout].
    - rewrite <- Hperm in Hin. apply elem_of_cons in Hin as [->|]; [exfalso|done].
      pose proof (readings_nonempty _ _ Hvalid) as Hn. by apply (Forall_lookup_1 _ _ _ _ Hn Hat).
    - apply (inv_absent _ _ _ Hinv) in Hout. apply elem_of_holding in Hat. rewrite Hout in Hat.
      by apply not_elem_of_nil in Hat. }
  apply elem_of_concat. exists (take 255 (holding codes code)). split.
  - unfold cut_blocks. rewrite fmap_app. apply elem_of_app. right. by do 2 apply list_elem_of_fmap_2.
  - rewrite take_ge; [by apply elem_of_holding|]. specialize (Hfew (ruby (entry r))).
    etrans; [|exact Hfew]. unfold holding. rewrite length_matching. unfold codes, encoded_readings.
    clear -Hcode Hids H0. induction records as [|r' l IH]; [done|]. rewrite fmap_cons, !filter_cons.
    repeat case_decide; simpl; try lia. exfalso. match goal with Hn : ruby (entry r') ≠ _ |- _ => apply Hn end.
    by eapply encode_inj.
Qed.

Lemma cut_resolves : ∃ rss, Forall2 (resolves records) cut_blocks rss ∧ Forall block_ok rss.
Proof using H0 Hids Hstorable.
  clear Hinv Hperm Hvalid. assert (Hb : ∀ block, block ∈ cut_blocks → ∃ rs, resolves records block rs ∧ block_ok rs).
  { intros block Hblock. destruct (records_at records block) as [rs Hrs].
    { intros i Hi. apply cut_bound, elem_of_concat. eauto. }
    exists rs. split; [done|]. apply cut_block in Hblock as [Hlen Hblock]. constructor.
    - apply mapM_Some in Hrs. apply Forall_forall. intros r Hr. apply list_elem_of_lookup in Hr as [k Hk].
      destruct (Forall2_lookup_r _ _ _ _ _ Hrs Hk) as (i & _ & Hi). by apply (Forall_lookup_1 _ _ _ _ Hstorable Hi).
    - by rewrite (resolves_length _ _ _ Hrs).
    - destruct Hblock as [->|(p & _ & ->)]; [cbn in Hrs; injection Hrs as <-; by exists []|].
      apply mapM_Some in Hrs. destruct rs as [|r0 rs0] eqn:Ers; [by exists []|]. rewrite <- Ers in *. clear rs0 Ers.
      assert (Hcode : ∀ r, r ∈ rs → CharacterIdMap.encode ids (ruby (entry r)) = Some p).
      { intros r [k Hk]%list_elem_of_lookup. destruct (Forall2_lookup_r _ _ _ _ _ Hrs Hk) as (i & Hi & Hri).
        apply list_elem_of_lookup_2, elem_of_take_in, elem_of_holding in Hi. unfold codes, encoded_readings in Hi.
        rewrite list_lookup_fmap, Hri in Hi. by injection Hi. }
      destruct rs as [|r rs]; [by exists []|]. exists (ruby (entry r)). apply Forall_forall. intros r' Hr'.
      eapply encode_inj; [done|by apply Hcode|apply Hcode; set_solver]. }
  clear -Hb. induction cut_blocks as [|b bs IH]; [by exists []|].
  destruct IH as (rss & Hrss & Hok); [intros; apply Hb; set_solver|].
  destruct (Hb b) as (rs & ? & ?); [set_solver|]. exists (rs :: rss). split; by constructor.
Qed.
End of_trie.

(** The files of records, from the records of the blocks. *)
Lemma encode_files_shape records files :
  Forall (valid_in ids) records → Forall storable records → encode_files ids records = Some files →
  ∃ nodes paths ps rss, trie_inv (holding (codes records)) paths nodes ∧ [] :: ps ≡ₚ paths ∧
    Forall2 (resolves records) (cut_blocks records ps) rss ∧ Forall block_ok rss ∧
    length (mem_characters files) = length rss ∧
    (∃ louds, Louds.parse (mem_louds files) (mem_characters files) = Return louds ∧
      Louds.node_count louds = length rss) ∧
    mem_metadata files = to_le_bytes 4 (saturate u32_max (N.of_nat (length rss))) ++ (rss ≫= metadata_bytes) ∧
    mem_shards files = shard_bytes <$> chunks SHARD_SIZE rss.
Proof using H0 Hids.
  intros Hvalid Hstorable. unfold encode_files. change (_ <$> records) with (codes records).
  destruct (trie_new_spec (codes records)) as (nodes & paths & -> & Hinv & _). cbn [mbind option_bind].
  destruct (encode_spec _ _ _ Hinv) as (order & Henc & Horder & _).
  destruct (parse_level_order (kids nodes) (0%N, 0) order Horder) as (louds & Hparse & Hnodes & _).
  destruct (encode_blocks _ nodes paths Hinv) as (index & ps & Henc' & Hbl & Hperm).
  assert (Hsize : length (characters index) = length (blocks index) ∧
    Louds.parse (louds_bytes index) (characters index) = Return louds ∧ node_ids louds = characters index).
  { rewrite Henc in Henc'. injection Henc' as <-. split; [|done]. cbn. by rewrite !length_fmap. }
  destruct Hsize as (Hsize & Hparse' & Hids'). rewrite Henc'. cbn [mbind option_bind].
  rewrite Hbl. change (take 255 <$> _) with (cut_blocks records ps).
  destruct (cut_resolves records ps Hstorable) as (rss & Hrss & Hok).
  assert (Hmeta : mapM (metadata_block records) (cut_blocks records ps) = Some (metadata_bytes <$> rss)).
  { apply mapM_Some, Forall2_fmap_r, Forall2_same_length_lookup_2; [by eapply Forall2_length|].
    intros i block rs Hb Hr. apply metadata_block_bytes; [by apply (Forall2_lookup_lr _ _ _ _ _ _ Hrss Hb)|].
    eapply (cut_block records ps). by eapply list_elem_of_lookup_2. }
  assert (Hshard : mapM (encode_entry_shard records) (chunks SHARD_SIZE (cut_blocks records ps)) =
    Some (shard_bytes <$> chunks SHARD_SIZE rss)).
  { eapply mapM_Forall2; [apply encode_shard_bytes|]. apply chunks_Forall2; [apply SHARD_SIZE_pos|done]. }
  rewrite Hmeta, Hshard, (Forall2_length _ _ _ Hrss). cbn [mbind option_bind]. intros [= <-].
  assert (Hlen : length rss = length (blocks index)).
  { rewrite <- (Forall2_length _ _ _ Hrss), Hbl. unfold cut_blocks. by rewrite length_fmap. }
  exists nodes, paths, ps, rss. cbn [mem_characters mem_louds mem_metadata mem_shards]. split_and!; try done.
  - by rewrite Hlen.
  - exists louds. split; [done|]. unfold Louds.node_count. by rewrite Hids', Hsize, Hlen.
  - by rewrite bind_concat.
Qed.

(** The files fit their 32-bit offsets and counts. *)
Definition fits (files : EncodedMemory) : Prop :=
  (N.of_nat (length (mem_characters files)) <= u32_max)%N ∧
  Forall (λ shard, N.of_nat (length shard) <= u32_max)%N (mem_shards files).

(** The files of a directory are those of an encoded memory. *)
Definition holds (fs : Directory) (files : EncodedMemory) : Prop :=
  fs !! LOUDS_FILE = Some (mem_louds files) ∧ fs !! LOUDS_CHARS_FILE = Some (mem_characters files) ∧
  fs !! METADATA_FILE = Some (mem_metadata files) ∧
  ∀ k shard, mem_shards files !! k = Some shard → fs !! shard_file k = Some shard.

Lemma imap_pair_zip {A} (l : list A) n : imap (λ i, pair (n + i)) l = zip (seq n (length l)) l.
Proof.
  revert n. induction l as [|x l IH]; intros n; [done|]. cbn [imap length seq zip zip_with].
  rewrite Nat.add_0_r. f_equal. rewrite <- IH. apply imap_ext. intros i y _. simpl. f_equal. lia.
Qed.

Lemma decode_blocks fs files rss :
  Forall block_ok rss → length (mem_characters files) = length rss →
  (∃ louds, Louds.parse (mem_louds files) (mem_characters files) = Return louds ∧ Louds.node_count louds = length rss) →
  mem_metadata files = to_le_bytes 4 (saturate u32_max (N.of_nat (length rss))) ++ (rss ≫= metadata_bytes) →
  mem_shards files = shard_bytes <$> chunks SHARD_SIZE rss → fits files → holds fs files →
  decode_directory fs = Return (stored <$> concat rss).
Proof using.
  intros Hok Hlen (louds & Hparse & Hcount) Hmeta Hshards [Hsmall Hfits] (Hl & Hc & Hm & Hs).
  unfold decode_directory, read_required. rewrite Hm, Hl, Hc. cbn [mbind outcome_mbind mret outcome_ret].
  rewrite Hparse. cbn [mbind outcome_mbind mret outcome_ret].
  rewrite saturate_small in Hmeta by (by rewrite <- Hlen).
  assert (Hn : read_array 4 (mem_metadata files) 0 = mret (N.of_nat (length rss), 4)).
  { rewrite Hmeta. apply (read_array_at 4 (N.of_nat (length rss)) [] _ 0).
    - change (256 ^ N.of_nat 4)%N with (u32_max + 1)%N. rewrite <- Hlen. lia.
    - simpl. lia.
    - reflexivity. }
  rewrite Hn. cbn [mbind outcome_mbind mret outcome_ret]. rewrite Nat2N.id, decide_False by lia.
  assert (Hblocks : for_each (block_step (mem_metadata files)) ([], 4) (seq 0 (length rss)) =
    Return (block_days <$> rss, length (mem_metadata files))).
  { pose proof (blocks_loop rss (to_le_bytes 4 (N.of_nat (length rss))) [] [] 0) as Hb.
    rewrite app_nil_r, <- Hmeta in Hb. apply Hb. eapply Forall_impl; [exact Hok|]. by intros rs []. }
  rewrite Hblocks. cbn [mbind outcome_mbind mret outcome_ret]. rewrite decide_False by (intros Hne; by apply Hne).
  destruct (nodes_loop fs rss Hok) with (todo := rss) (n := 0) (recs := @nil LearningRecord)
    (loaded := @None (nat * list byte)) as (loaded & Hloop); [|done|by intros ? ?|].
  { intros k chunk Hk. split.
    - apply Hs. by rewrite Hshards, list_lookup_fmap, Hk.
    - apply (proj1 (Forall_forall _ _) Hfits). rewrite Hshards. apply list_elem_of_fmap_2. by eapply list_elem_of_lookup_2. }
  rewrite (imap_pair_zip _ 0), length_fmap.
  change (for_each (node_step fs) ([], None) (zip (seq 0 (length rss)) (block_days <$> rss)) ≫= (λ '(records, _), mret records) = Return (stored <$> concat rss)).
  by rewrite Hloop.
Qed.

Lemma omap_lookup_seq {A} (l : list A) : omap (λ i, l !! i : option A) (seq 0 (length l)) = l.
Proof.
  assert (Hl : ∀ k m, omap (λ i, (k ++ m) !! i : option A) (seq (length k) (length m)) = m); [|apply (Hl [] l)].
  intros k m. revert k. induction m as [|x m IH]; intros k; [done|]. cbn [length seq].
  cbn [omap list_omap]. rewrite list_lookup_middle by done. f_equal.
  specialize (IH (k ++ [x])). rewrite length_app, Nat.add_1_r, <- app_assoc in IH. exact IH.
Qed.

Lemma resolves_omap records bs rss :
  Forall2 (resolves records) bs rss → omap (λ i, records !! i : option LearningRecord) (concat bs) = concat rss.
Proof.
  induction 1 as [|b rs bs rss Hb _ IH]; [done|]. cbn [concat]. rewrite omap_app, IH. f_equal.
  apply mapM_Some in Hb. clear -Hb. induction Hb as [|i r b rs Hi _ IH]; [done|].
  cbn [omap list_omap]. rewrite Hi. by f_equal.
Qed.

(** What decoding gives: the records, but for those a block had no room for. *)
Lemma decode_encoded records files :
  Forall (valid_in ids) records → Forall storable records → encode_files ids records = Some files →
  fits files →
  ∃ kept rest, (∀ fs, holds fs files → decode_directory fs = Return (stored <$> kept)) ∧ records ≡ₚ kept ++ rest ∧
    ((∀ reading, length (filter (λ r, ruby (entry r) = reading) records) ≤ 255) → rest = []).
Proof using H0 Hids.
  intros Hvalid Hstorable Henc Hfits.
  destruct (encode_files_shape records files Hvalid Hstorable Henc)
    as (nodes & paths & ps & rss & Hinv & Hperm & Hrss & Hok & Hchars & Hlouds & Hmeta & Hshards).
  pose proof (cut_NoDup records nodes paths ps Hinv Hperm) as Hnd.
  assert (Hsub : concat (cut_blocks records ps) ⊆+ seq 0 (length records)).
  { apply NoDup_submseteq; [done|]. intros i Hi%cut_bound. apply elem_of_seq. lia. }
  apply submseteq_Permutation in Hsub as [others Hall].
  exists (concat rss), (omap (λ i, records !! i : option LearningRecord) others). split_and!.
  - intros fs Hholds. by eapply decode_blocks.
  - rewrite <- (resolves_omap _ _ _ Hrss), <- omap_app, <- Hall. by rewrite omap_lookup_seq.
  - intros Hfew. assert (Hnil : others = []); [|by rewrite Hnil].
    destruct others as [|i others]; [done|]. exfalso.
    assert (Hi : i ∈ seq 0 (length records)) by (rewrite Hall; set_solver). apply elem_of_seq in Hi as [_ Hi].
    apply (cut_complete records nodes paths ps Hvalid Hinv Hperm i Hfew) in Hi.
    pose proof (NoDup_seq 0 (length records)) as Hs. rewrite Hall in Hs.
    apply NoDup_app in Hs as (_ & Hdisj & _). apply (Hdisj i Hi). set_solver.
Qed.
End files.

(** ** The round trip *)

(** C6. Saving and loading: the files of valid records, wherever a directory holds
    them, decode without an error to the records themselves, one for one, when no
    reading has more than 255 of them; otherwise to a part of the records. A record
    comes back with its reading, word, classes, days and count; its value is the one
    that its count gives. *)
Theorem files_roundtrip `{SegmentationLaws} content ids day records files :
  CharacterIdMap.parse content = Ok ids → (day <= u16_max)%N →
  Forall (valid_in ids) records → Forall (fresh day) records → Forall (λ r, typed_entry (entry r)) records →
  encode_files ids records = Some files → fits files →
  ∃ kept rest, (∀ fs, holds fs files → decode_directory fs = Return (stored <$> kept)) ∧
    records ≡ₚ kept ++ rest ∧
    ((∀ reading, length (filter (λ r, ruby (entry r) = reading) records) ≤ 255) → rest = []).
Proof.
  intros Hids%parse_ids_ok Hday Hvalid Hfresh Htyped Henc Hfits.
  apply (decode_encoded ids Hids); try done. rewrite !Forall_forall in *. intros r Hr.
  eapply valid_storable; eauto.
Qed.

(** *** A word to save *)

#[local] Existing Instance scalar_clusters.

Definition aka : DictionaryEntry :=
  {| word := u "赤"; ruby := u "アカ"; left_id := 1285; right_id := 1285; meaning_id := 5;
     base_value := of_Z (-10); adjustment := zero; metadata := no_metadata |}.

Definition kana_ids : CharacterIdMap.t :=
  match @CharacterIdMap.parse scalar_clusters (u "アカナ") with Ok ids => ids | Err _ => {| CharacterIdMap.ids := ∅ |} end.

Definition aka_record : LearningRecord :=
  {| entry := aka; last_used_day := 1500; last_updated_day := 1490; count := 3 |}.

Definition aka_files : EncodedMemory :=
  default {| mem_louds := []; mem_characters := []; mem_metadata := []; mem_shards := [] |}
    (encode_files kana_ids [aka_record]).

Definition aka_directory : Directory :=
  list_to_map ([(LOUDS_FILE, mem_louds aka_files); (LOUDS_CHARS_FILE, mem_characters aka_files);
    (METADATA_FILE, mem_metadata aka_files)] ++ imap (λ i s, (shard_file i, s)) (mem_shards aka_files)).

Lemma files_roundtrip_witness :
  ∃ kept rest, (∀ fs, holds fs aka_files → decode_directory fs = Return (stored <$> kept)) ∧
    [aka_record] ≡ₚ kept ++ rest ∧
    ((∀ reading, length (filter (λ r, ruby (entry r) = reading) [aka_record]) ≤ 255) → rest = []) ∧
    decode_directory aka_directory = Return [stored aka_record].
Proof.
  destruct (files_roundtrip (u "アカナ") kana_ids 1500 [aka_record] aka_files)
    as (kept & rest & H1 & H2 & H3).
  - by vm_compute.
  - by vm_compute.
  - repeat constructor; by vm_compute.
  - repeat constructor; by vm_compute.
  - repeat constructor; by vm_compute.
  - by vm_compute.
  - split; [by vm_compute|]. repeat constructor; by vm_compute.
  - exists kept, rest. split_and!; [done|done|done|]. by vm_compute.
Defined.
