(* ===== verification/LearningCrash.v ===== *)
(** * Saving the learning memory survives crashes

    [save_records] writes every file beside the old one, raises [.pause], copies the
    new files over the old ones and takes [.pause] down; [recover_if_paused] repeats
    the copies. Whatever operation fails or is cut short, and however often the
    recovery itself is, the directory ends with the old records or the new ones. *)

From S2P Require Import Prelude Unicode Collections F32 Dictionary Louds MemoryIndex MemoryIndexSpec MemoryLoudsSpec DictBinary LearningRecords LearningRecordsSpec LearningFiles LearningFilesSpec LearningMemory LearningMemorySpec LearningRoundTrip.

(** ** File names *)

(** A decidable fact about concrete names. *)
Ltac by_names := match goal with |- ?G => refine (@bool_decide_unpack G _ _); vm_compute; exact I end.

(** The files the memory is read from; a temporary name is none of them. *)
Definition in_use (name : ustring) : Prop :=
  name ∈ [LOUDS_FILE; LOUDS_CHARS_FILE; METADATA_FILE] ∨ shard_suffix `suffix_of` name.

Lemma shard_not_temporary name : shard_suffix `suffix_of` name → ¬ temporary_suffix `suffix_of` name.
Proof. intros Hs Ht. destruct (suffix_weak_total _ _ _ Hs Ht) as [H|H]; revert H; by_names. Qed.

Lemma in_use_not_temporary name : in_use name → ¬ temporary_suffix `suffix_of` name.
Proof.
  intros [Hn|Hs]; [|by apply shard_not_temporary]. intros Ht. revert name Hn Ht.
  apply (proj1 (Forall_forall (λ name, ¬ temporary_suffix `suffix_of` name) _)). by_names.
Qed.

Lemma temporary_in_use name name' : in_use name' → temporary name ≠ name'.
Proof. intros Hu <-. apply in_use_not_temporary in Hu. apply Hu. by exists name. Qed.

Lemma pause_not_temporary name : temporary name ≠ PAUSE_FILE.
Proof. intros E. assert (Hs : temporary_suffix `suffix_of` PAUSE_FILE) by (rewrite <- E; by exists name). revert Hs. by_names. Qed.

Lemma pause_not_in_use : ¬ in_use PAUSE_FILE.
Proof. intros [H|H]; revert H; by_names. Qed.

Lemma shard_in_use index : in_use (shard_file index).
Proof. right. exists (memory_prefix ++ decimal index). by rewrite <- app_assoc. Qed.

#[export] Instance temporary_inj : Inj (=) (=) temporary.
Proof. intros x y E. by apply app_inv_tail in E. Qed.

#[export] Instance shard_file_inj : Inj (=) (=) shard_file.
Proof.
  intros x y E. unfold shard_file in E. apply app_inv_head, app_inv_tail in E. unfold decimal in E.
  apply (list_fmap_eq_inj _) in E.
  - apply (f_equal String.string_of_list_ascii) in E. rewrite !String.string_of_list_ascii_of_string in E.
    by apply (inj pretty), Nat2N.inj in E.
  - intros a b Hab. rewrite <- (Ascii.ascii_N_embedding a), <- (Ascii.ascii_N_embedding b). congruence.
Qed.

(** ** Sequences of file operations *)

Lemma run_ops_app faults ops ops' fs :
  run_ops faults (ops ++ ops') fs =
  match run_ops faults ops fs with
  | (fs', Ok _) => run_ops (drop (length ops) faults) ops' fs'
  | stopped => stopped
  end.
Proof.
  revert faults fs. induction ops as [|op ops IH]; intros faults fs; [done|]. cbn [app run_ops length].
  destruct (exec_op _ op fs) as [fs' []]; [|done]. rewrite IH. by destruct faults, ops.
Qed.

Lemma exec_op_frame fault op fs name :
  op_target op ≠ name → (exec_op fault op fs).1 !! name = fs !! name.
Proof.
  intros Hne. destruct fault as [|left_with]; simpl; [|by apply lookup_partial_alter_ne].
  destruct op as [n c|s d|n]; simpl in *; [by apply lookup_insert_ne| |by apply lookup_delete_ne].
  destruct (fs !! s); [by apply lookup_insert_ne|done].
Qed.

(** Operations leave the files they do not name. *)
Lemma run_ops_frame faults ops fs name :
  Forall (λ op, op_target op ≠ name) ops → (run_ops faults ops fs).1 !! name = fs !! name.
Proof.
  intros Hops. revert faults fs. induction Hops as [|op ops Hop _ IH]; intros faults fs; [done|].
  cbn [run_ops]. pose proof (exec_op_frame (default Performs (head faults)) op fs name Hop) as Hf.
  destruct (exec_op _ op fs) as [fs' []]; simpl in *; [by rewrite IH|done].
Qed.

(** Writes that all succeed leave what they wrote. *)
Lemma run_writes faults (files : list (ustring * list byte)) fs fs' :
  NoDup files.*1 → run_ops faults ((λ p, WriteFile p.1 p.2) <$> files) fs = (fs', Ok ()) →
  Forall (λ p, fs' !! p.1 = Some p.2) files.
Proof.
  revert faults fs. induction files as [|[name content] files IH]; intros faults fs Hnd Hr; [done|].
  rewrite !fmap_cons in *. apply NoDup_cons in Hnd as [Hnew Hnd]. cbn [run_ops fst snd] in Hr, Hnew.
  destruct (default Performs (head faults)); [|done]. cbn [exec_op] in Hr.
  constructor; [|by eapply IH]. cbn [fst snd].
  pose proof (run_ops_frame (tail faults) ((λ p, WriteFile p.1 p.2) <$> files) (<[name:=content]> fs) name) as Hf.
  rewrite Hr in Hf. cbn [fst] in Hf. rewrite Hf; [apply lookup_insert_eq|]. apply Forall_fmap, Forall_forall.
  intros p Hp E. cbn in E. apply Hnew. rewrite <- E. by apply list_elem_of_fmap_2.
Qed.

(** ** The copies *)

Definition copies (names : list ustring) : list FsOp := restore_temporary <$> names.

(** Copies onto files in use leave the temporary files. *)
Lemma copies_keep faults names fs name :
  Forall in_use names → (run_ops faults (copies names) fs).1 !! temporary name = fs !! temporary name.
Proof.
  intros Hnames. apply run_ops_frame, Forall_fmap. eapply Forall_impl; [exact Hnames|].
  intros n Hn. simpl. intros E. by apply (temporary_in_use name n).
Qed.

Lemma copies_keep_pause faults names fs :
  Forall in_use names → (run_ops faults (copies names) fs).1 !! PAUSE_FILE = fs !! PAUSE_FILE.
Proof.
  intros Hnames. apply run_ops_frame, Forall_fmap. eapply Forall_impl; [exact Hnames|].
  intros n Hn. simpl. intros ->. by apply pause_not_in_use.
Qed.

(** Copies that all succeed make the files equal to their temporary files. *)
Lemma copies_done faults names fs fs' :
  Forall in_use names → run_ops faults (copies names) fs = (fs', Ok ()) →
  Forall (λ name, fs' !! name = fs !! temporary name) names.
Proof.
  unfold copies. revert faults fs. induction names as [|name names IH]; intros faults fs Hin Hr; [done|].
  apply Forall_cons in Hin as [Hname Hin]. cbn [run_ops fmap list_fmap] in Hr.
  destruct (default Performs (head faults)); [|done]. cbn [exec_op restore_temporary] in Hr.
  destruct (fs !! temporary name) as [content|] eqn:Ht; [|done].
  assert (Hrest : Forall (λ n, fs' !! n = fs !! temporary n) names).
  { eapply Forall_impl; [by apply (IH _ _ Hin Hr)|]. intros n Hn. cbn beta in Hn. rewrite Hn.
    apply lookup_insert_ne. intros E. by apply (temporary_in_use n name). }
  constructor; [|done]. destruct (decide (name ∈ names)) as [Hdup|Hnew].
  { by apply (proj1 (Forall_forall _ _) Hrest name Hdup). }
  pose proof (run_ops_frame (tail faults) (restore_temporary <$> names) (<[name:=content]> fs) name) as Hf.
  change (list_fmap _ _ restore_temporary names) with (restore_temporary <$> names) in Hr.
  rewrite Hr in Hf. cbn [fst] in Hf. rewrite Hf; [rewrite Ht; apply lookup_insert_eq|]. apply Forall_fmap, Forall_forall.
  intros n Hn E. simpl in E. by subst.
Qed.

(** Copies of files that exist succeed when nothing fails. *)
Lemma copies_succeed names fs :
  Forall in_use names → Forall (λ name, is_Some (fs !! temporary name)) names →
  (run_ops [] (copies names) fs).2 = Ok ().
Proof.
  unfold copies. revert fs. induction names as [|name names IH]; intros fs Hin Ht; [done|].
  apply Forall_cons in Hin as [Hname Hin]. apply Forall_cons in Ht as [[content Hc] Ht].
  cbn [run_ops fmap list_fmap]. cbn. rewrite Hc. apply IH; [done|].
  eapply Forall_impl; [exact Ht|]. intros n [c Hn]. exists c. etrans; [apply lookup_insert_ne|exact Hn].
  intros E. by apply (temporary_in_use n name).
Qed.

(** ** The states of a directory around a save *)

(** The files of an encoded memory with their names. *)
Definition contents (files : EncodedMemory) : list (ustring * list byte) :=
  [(LOUDS_FILE, mem_louds files); (LOUDS_CHARS_FILE, mem_characters files);
   (METADATA_FILE, mem_metadata files)] ++
  imap (λ index shard, (shard_file index, shard)) (mem_shards files).

(** Nothing of the save has reached the files in use. *)
Definition untouched (old fs : Directory) : Prop :=
  fs !! PAUSE_FILE = None ∧ ∀ name, in_use name → fs !! name = old !! name.

(** The new files are complete beside the old ones, and [.pause] is up. *)
Definition staged (files : EncodedMemory) (fs : Directory) : Prop :=
  is_Some (fs !! PAUSE_FILE) ∧ Forall (λ p, fs !! temporary p.1 = Some p.2) (contents files).

(** The new files are in use. *)
Definition published (files : EncodedMemory) (fs : Directory) : Prop :=
  fs !! PAUSE_FILE = None ∧ Forall (λ p, fs !! p.1 = Some p.2) (contents files).

Lemma contents_in_use files : Forall in_use (contents files).*1.
Proof.
  unfold contents. rewrite fmap_app. apply Forall_app. split.
  - repeat constructor; set_solver.
  - apply Forall_forall. intros name (p & -> & (i & s & -> & _)%elem_of_lookup_imap)%list_elem_of_fmap.
    apply shard_in_use.
Qed.

Lemma shard_names files :
  (imap (λ index shard, (shard_file index, shard)) (mem_shards files)).*1 =
  shard_file <$> seq 0 (length (mem_shards files)).
Proof.
  apply list_eq. intros i. rewrite !list_lookup_fmap, list_lookup_imap.
  destruct (decide (i < length (mem_shards files))).
  - rewrite lookup_seq_lt by done. destruct (lookup_lt_is_Some_2 (mem_shards files) i) as [s ->]; done.
  - rewrite (lookup_ge_None_2 (mem_shards files)), (lookup_ge_None_2 (seq _ _)); [done|rewrite length_seq|]; lia.
Qed.

Lemma contents_NoDup files : NoDup (contents files).*1.
Proof.
  unfold contents. rewrite fmap_app, shard_names. apply NoDup_app. split_and!.
  - by_names.
  - intros name Hname (i & -> & _)%list_elem_of_fmap.
    assert (Hs : shard_suffix `suffix_of` shard_file i) by (exists (memory_prefix ++ decimal i); by rewrite <- app_assoc).
    revert Hname Hs. generalize (shard_file i). apply (proj1 (Forall_forall (λ n, ¬ shard_suffix `suffix_of` n) _)).
    by_names.
  - apply (NoDup_fmap_2 _). apply NoDup_seq.
Qed.

Lemma save_ops_phases files :
  save_ops files =
  ((λ p, WriteFile p.1 p.2) <$> (prod_map temporary id <$> contents files)) ++
  [WriteFile PAUSE_FILE []] ++
  copies ([LOUDS_CHARS_FILE; METADATA_FILE] ++ (shard_file <$> seq 0 (length (mem_shards files))) ++ [LOUDS_FILE]) ++
  [RemoveFile PAUSE_FILE].
Proof.
  unfold save_ops, contents, copies. rewrite !fmap_app, !fmap_imap, list_fmap_compose. simpl.
  do 3 f_equal. by rewrite <- !app_assoc.
Qed.

(** The copies and the end of the pause, started from staged files. *)
Lemma publish faults names files fs fs' r :
  Forall in_use names → (contents files).*1 ⊆ names → staged files fs →
  run_ops faults (copies names ++ [RemoveFile PAUSE_FILE]) fs = (fs', r) →
  (r = Ok () ∧ published files fs') ∨ (r ≠ Ok () ∧ (staged files fs' ∨ published files fs')).
Proof.
  intros Hnames Hall [[pause Hpause] Htemp]. rewrite run_ops_app.
  pose proof (λ name, copies_keep faults names fs name Hnames) as Hkeep.
  pose proof (copies_keep_pause faults names fs Hnames) as Hpause'.
  pose proof (copies_done faults names fs) as Hdone.
  destruct (run_ops faults (copies names) fs) as [fs1 [[]|e]]; cbn [fst] in Hkeep, Hpause'.
  - specialize (Hdone _ Hnames eq_refl).
    assert (Hnew : Forall (λ p, fs1 !! p.1 = Some p.2) (contents files)).
    { apply Forall_forall. intros p Hp. rewrite (proj1 (Forall_forall _ _) Hdone p.1).
      - by apply (proj1 (Forall_forall _ _) Htemp p).
      - apply Hall. by apply list_elem_of_fmap_2. }
    assert (Hpublished : ∀ fs2, fs2 !! PAUSE_FILE = None → (∀ name, name ≠ PAUSE_FILE → fs2 !! name = fs1 !! name) →
      published files fs2).
    { intros fs2 H2 Hsame. split; [done|]. apply Forall_forall. intros p Hp.
      rewrite Hsame; [by apply (proj1 (Forall_forall _ _) Hnew p)|]. intros E. apply pause_not_in_use. rewrite <- E.
      apply (proj1 (Forall_forall _ _) (contents_in_use files)). by apply list_elem_of_fmap_2. }
    cbn [run_ops]. destruct (default Performs _) as [|left_with]; intros [= <- <-].
    + left. split; [done|]. apply Hpublished; [apply lookup_delete_eq|intros; by apply lookup_delete_ne].
    + right. split; [done|]. destruct left_with as [content|].
      * left. split; [exists content; by apply lookup_partial_alter_eq|]. eapply Forall_impl; [exact Htemp|].
        intros p Hp. cbn beta in Hp. rewrite <- Hp, <- Hkeep. apply lookup_partial_alter_ne.
        intros E. by apply (pause_not_temporary p.1).
      * right. apply Hpublished; [by apply lookup_partial_alter_eq|intros; by apply lookup_partial_alter_ne].
  - intros [= <- <-]. right. split; [done|]. left. split; [by exists pause; rewrite Hpause'|].
    eapply Forall_impl; [exact Htemp|]. intros p Hp. by rewrite Hkeep.
Qed.

Lemma published_names files :
  let names := [LOUDS_CHARS_FILE; METADATA_FILE] ++ (shard_file <$> seq 0 (length (mem_shards files))) ++ [LOUDS_FILE] in
  Forall in_use names ∧ (contents files).*1 ⊆ names.
Proof.
  intros names. split.
  - do 2 (constructor; [left; set_solver|]). apply Forall_app. split; [|repeat constructor; set_solver].
    apply Forall_fmap, Forall_forall. intros i _. apply shard_in_use.
  - unfold contents, names. rewrite fmap_app, shard_names. set_solver.
Qed.

(** However the save goes on, and wherever it stops. *)
Lemma save_outcomes faults files fs fs' r :
  fs !! PAUSE_FILE = None → run_ops faults (save_ops files) fs = (fs', r) →
  (r = Ok () ∧ published files fs') ∨
  (r ≠ Ok () ∧ (untouched fs fs' ∨ staged files fs' ∨ published files fs')).
Proof.
  intros Hnone. rewrite save_ops_phases, run_ops_app.
  set (l := prod_map temporary id <$> contents files).
  assert (Htargets : ∀ name, (∀ n, temporary n ≠ name) →
    (run_ops faults ((λ p, WriteFile p.1 p.2) <$> l) fs).1 !! name = fs !! name).
  { intros name Hname. apply run_ops_frame. subst l. apply Forall_fmap, Forall_fmap, Forall_forall.
    intros p _. apply Hname. }
  pose proof (run_writes faults l fs) as Hwrites.
  destruct (run_ops faults _ fs) as [fs1 [[]|e]]; cbn [fst] in Htargets.
  - assert (Hstill : untouched fs fs1).
    { split; [rewrite Htargets; [done|apply pause_not_temporary]|]. intros name Hu. apply Htargets.
      intros n. by apply temporary_in_use. }
    assert (Htemp : Forall (λ p, fs1 !! temporary p.1 = Some p.2) (contents files)).
    { apply Forall_forall. intros p Hp. specialize (Hwrites fs1). rewrite Forall_forall in Hwrites.
      apply (Hwrites) with (x := (temporary p.1, p.2)); [|done|].
      - subst l. rewrite <- list_fmap_compose.
        replace (fst ∘ prod_map temporary id <$> contents files) with (temporary <$> (contents files).*1)
          by (by rewrite <- list_fmap_compose).
        apply (NoDup_fmap_2 _), contents_NoDup.
      - subst l. apply list_elem_of_fmap. exists p. by destruct p. }
    assert (Hstaged : ∀ content, staged files (<[PAUSE_FILE := content]> fs1)).
    { intros content. split; [exists content; apply lookup_insert_eq|]. eapply Forall_impl; [exact Htemp|].
      intros p Hp. cbn beta in Hp. rewrite <- Hp. apply lookup_insert_ne.
      intros E. by apply (pause_not_temporary p.1). }
    cbn [app run_ops]. destruct (default Performs _) as [|left_with]; cbn [exec_op].
    + destruct (published_names files) as [Hin Hsub]. intros Hr.
      destruct (publish _ _ files _ _ _ Hin Hsub (Hstaged []) Hr) as [?|[? ?]]; [by left|right; tauto].
    + intros [= <- <-]. right. split; [done|]. destruct left_with as [content|].
      * right. left. apply Hstaged.
      * left. destruct Hstill as [Hp Hs]. split; [by apply lookup_partial_alter_eq|].
        intros name Hu. rewrite <- (Hs name Hu). apply lookup_partial_alter_ne. intros <-. by apply pause_not_in_use.
  - intros [= <- <-]. right. split; [done|]. left. split.
    + rewrite Htargets; [done|apply pause_not_temporary].
    + intros name Hu. apply Htargets. intros n. by apply temporary_in_use.
Qed.

(** ** Recovery *)

(** The names recovery copies onto. *)
Definition recovered_names (fs : Directory) : list ustring :=
  [LOUDS_CHARS_FILE; METADATA_FILE] ++ ((λ name, take (length name - 2) name) <$> temporary_shards fs) ++ [LOUDS_FILE].

Lemma elem_of_temporary_shards fs name :
  name ∈ temporary_shards fs ↔ is_temporary_shard name = true ∧ is_Some (fs !! name).
Proof.
  unfold temporary_shards. rewrite elem_of_sort_by, list_elem_of_filter, list_elem_of_fmap.
  split; intros [Ht Hn]; (split; [done|]).
  - destruct Hn as ([n c] & -> & Hc%elem_of_map_to_list). by exists c.
  - destruct Hn as [c Hc]. exists (name, c). split; [done|]. by apply elem_of_map_to_list.
Qed.

Lemma temporary_shard_name name :
  is_temporary_shard name = true →
  temporary (take (length name - 2) name) = name ∧ shard_suffix `suffix_of` take (length name - 2) name.
Proof.
  unfold is_temporary_shard, ends_with. rewrite andb_true_iff. intros [_ [k ->]%bool_decide_eq_true].
  unfold temporary. rewrite app_assoc. rewrite !length_app. change (length temporary_suffix) with 2.
  rewrite Nat.add_sub, <- length_app, take_app_length. split; [done|]. by exists k.
Qed.

Lemma recover_ops_phases fs : recover_ops fs = copies (recovered_names fs) ++ [RemoveFile PAUSE_FILE].
Proof.
  unfold recover_ops, recovered_names, copies. rewrite !fmap_app. simpl. do 2 f_equal.
  rewrite <- app_assoc. f_equal. rewrite <- list_fmap_compose. apply list_fmap_ext. intros i name Hi.
  apply list_elem_of_lookup_2, elem_of_temporary_shards in Hi as [Ht _].
  apply temporary_shard_name in Ht as [E _]. unfold compose, restore_temporary. by rewrite E.
Qed.

Lemma recovered_in_use fs : Forall in_use (recovered_names fs).
Proof.
  unfold recovered_names. do 2 (constructor; [left; set_solver|]). apply Forall_app.
  split; [|repeat constructor; set_solver]. apply Forall_fmap, Forall_forall.
  intros name [Ht _]%elem_of_temporary_shards. right. by apply temporary_shard_name.
Qed.

Lemma staged_covers files fs : staged files fs → (contents files).*1 ⊆ recovered_names fs.
Proof.
  intros [_ Htemp] name (p & -> & Hp)%list_elem_of_fmap.
  pose proof (proj1 (Forall_forall _ _) Htemp p Hp) as Hc. cbn beta in Hc.
  unfold contents in Hp. apply elem_of_app in Hp as [Hp|(i & s & -> & _)%elem_of_lookup_imap].
  - unfold recovered_names. set_solver.
  - unfold recovered_names. rewrite !elem_of_app. right. left. cbn [fst] in *. apply list_elem_of_fmap.
    exists (temporary (shard_file i)). split.
    + unfold temporary. rewrite length_app. change (length temporary_suffix) with 2.
      by rewrite Nat.add_sub, take_app_length.
    + apply elem_of_temporary_shards. split; [|by eexists]. unfold is_temporary_shard, starts_with, ends_with.
      apply andb_true_iff. split; apply bool_decide_eq_true.
      * unfold temporary, shard_file. rewrite <- !app_assoc. by apply prefix_app_r.
      * unfold temporary, shard_file. exists (memory_prefix ++ decimal i). by rewrite <- !app_assoc.
Qed.

(** A recovery of staged files that is cut short can be repeated. *)
Lemma recover_outcomes faults files fs fs' r :
  staged files fs → recover_if_paused faults fs = (fs', r) →
  (r = Ok () ∧ published files fs') ∨ (r ≠ Ok () ∧ (staged files fs' ∨ published files fs')).
Proof.
  intros Hst. unfold recover_if_paused. destruct Hst as [[c Hc] Htemp] eqn:E. rewrite Hc, recover_ops_phases.
  apply publish; [apply recovered_in_use|by apply staged_covers|done].
Qed.

(** When nothing fails, recovery ends. *)
Lemma recover_ends files fs : staged files fs → (recover_if_paused [] fs).2 = Ok ().
Proof.
  intros Hst. pose proof Hst as [[c Hc] Htemp]. unfold recover_if_paused.
  rewrite Hc, recover_ops_phases, run_ops_app.
  assert (Hok : (run_ops [] (copies (recovered_names fs)) fs).2 = Ok ()).
  { apply copies_succeed; [apply recovered_in_use|]. unfold recovered_names.
    assert (Hin : ∀ name content, (name, content) ∈ contents files → is_Some (fs !! temporary name)).
    { intros name content Hp. exists content. by apply (proj1 (Forall_forall _ _) Htemp _ Hp). }
    constructor; [apply (Hin _ (mem_characters files)); unfold contents; set_solver|].
    constructor; [apply (Hin _ (mem_metadata files)); unfold contents; set_solver|]. apply Forall_app.
    split; [|constructor; [apply (Hin _ (mem_louds files)); unfold contents; set_solver|done]]. apply Forall_fmap, Forall_forall.
    intros name [Ht Hs]%elem_of_temporary_shards. apply temporary_shard_name in Ht as [E _]. unfold compose. by rewrite E. }
  destruct (run_ops [] _ fs) as [fs1 [[]|e]]; [|done]. by rewrite drop_nil.
Qed.

(** ** What decoding reads *)

Lemma for_each_ext_in {E A B} (f g : B → A → outcome E B) l b :
  (∀ a b1, a ∈ l → f b1 a = g b1 a) → for_each f b l = for_each g b l.
Proof.
  revert b. induction l as [|a l IH]; intros b Hfg; [done|]. cbn [for_each]. rewrite (Hfg a b) by set_solver.
  destruct (g b a) as [b'|e|]; [|done|done]. apply IH. intros a' b1 Ha'. apply Hfg. set_solver.
Qed.

Lemma blocks_length metadata l st st' :
  for_each (block_step metadata) st l = Return st' → length st'.1 = length st.1 + length l.
Proof.
  revert st. induction l as [|i l IH]; intros st; cbn [for_each]; [intros [= ->]; simpl; lia|].
  intros (st1 & Hs & Hl)%outcome_bind_Return. apply IH in Hl. rewrite Hl. destruct st as [blocks cursor].
  unfold block_step in Hs. apply outcome_bind_Return in Hs as (b & _ & Hs).
  apply outcome_bind_Return in Hs as ([block cursor'] & _ & [= <-]). simpl. rewrite length_app. simpl. lia.
Qed.

(** Decoding reads the topology, the characters, the metadata and the shards of
    the nodes there are. *)
Lemma decode_ext fs fs' :
  Forall (λ name, fs !! name = fs' !! name) [LOUDS_FILE; LOUDS_CHARS_FILE; METADATA_FILE] →
  (∀ characters i, fs !! LOUDS_CHARS_FILE = Some characters → i * SHARD_SIZE < length characters →
     fs !! shard_file i = fs' !! shard_file i) →
  decode_directory fs = decode_directory fs'.
Proof.
  intros Heq Hshards. rewrite !Forall_cons in Heq. destruct Heq as (Hl & Hc & Hm & _).
  unfold decode_directory. rewrite <- Hm. destruct (fs !! METADATA_FILE) as [metadata|]; [|done].
  unfold read_required. rewrite <- Hl, <- Hc. destruct (fs !! LOUDS_FILE) as [louds_bytes|]; [|done].
  cbn [mbind outcome_mbind mret outcome_ret]. destruct (fs !! LOUDS_CHARS_FILE) as [characters|]; [|done].
  specialize (Hshards characters). cbn [mbind outcome_mbind mret outcome_ret].
  destruct (Louds.parse louds_bytes characters) as [louds|e|]; [|done|done]. cbn [mbind outcome_mbind mret outcome_ret].
  destruct (read_array 4 metadata 0) as [[node_count cursor]|e|]; [|done|done].
  cbn [mbind outcome_mbind mret outcome_ret].
  destruct (decide _) as [|Hcount]; [done|].
  destruct (for_each (block_step metadata) _ _) as [[blocks cursor']|e|] eqn:Hblocks; [|done|done].
  apply blocks_length in Hblocks. cbn [fst] in Hblocks. rewrite length_seq in Hblocks. cbn [length] in Hblocks.
  cbn [mbind outcome_mbind mret outcome_ret].
  destruct (decide (cursor' ≠ _)); [done|]. f_equal. apply for_each_ext_in.
  intros [node block] [records loaded] (i & b & [= -> ->] & Hi)%elem_of_lookup_imap. apply lookup_lt_Some in Hi.
  unfold node_step, read_required. rewrite (Hshards (i / SHARD_SIZE)); [done|done|].
  apply (Nat.le_lt_trans _ i); [|lia]. rewrite Nat.mul_comm. apply Nat.Div0.mul_div_le.
Qed.

(** ** Atomicity *)

(** A start that finds [.pause] and recovers, however far it gets. *)
Definition restart (fs : Directory) (faults : list Fault) : Directory := (recover_if_paused faults fs).1.

Lemma published_holds files fs : published files fs → holds fs files.
Proof.
  intros [_ Hall]. rewrite Forall_forall in Hall. unfold contents in Hall.
  split_and!; [apply (Hall (LOUDS_FILE, _))|apply (Hall (LOUDS_CHARS_FILE, _))|apply (Hall (METADATA_FILE, _))|];
    try set_solver.
  intros k shard Hk. apply (Hall (shard_file k, shard)). apply elem_of_app. right.
  apply elem_of_lookup_imap. by exists k, shard.
Qed.

Lemma untouched_decodes old fs : untouched old fs → decode_directory fs = decode_directory old.
Proof.
  intros [_ Hsame]. apply decode_ext.
  - apply Forall_forall. intros name Hn. apply Hsame. by left.
  - intros _ i _ _. apply Hsame, shard_in_use.
Qed.

(** Restarts keep a directory in one of the three states. *)
Lemma restarts_outcomes old files fs crashes :
  untouched old fs ∨ staged files fs ∨ published files fs →
  let fs' := foldl restart fs crashes in
  (untouched old fs' ∨ staged files fs' ∨ published files fs') ∧ (published files fs → published files fs').
Proof.
  revert fs. induction crashes as [|faults crashes IH]; intros fs Hfs; [done|]. cbn [foldl]. cbn zeta.
  assert (Hquiet : fs !! PAUSE_FILE = None → restart fs faults = fs).
  { intros E. unfold restart, recover_if_paused. by rewrite E. }
  assert (Hnext : (untouched old (restart fs faults) ∨ staged files (restart fs faults) ∨ published files (restart fs faults)) ∧
    (published files fs → published files (restart fs faults))).
  { destruct Hfs as [Hu|[Hs|Hp]].
    - rewrite Hquiet by apply Hu. tauto.
    - unfold restart. destruct (recover_if_paused faults fs) as [fs1 r] eqn:E.
      pose proof (recover_outcomes _ _ _ _ _ Hs E) as Hout. cbn [fst].
      split; [tauto|]. intros [Hno _]. destruct Hs as [[c Hc] _]. congruence.
    - rewrite Hquiet by apply Hp. tauto. }
  destruct Hnext as [Hnext Hkeep]. destruct (IH _ Hnext) as [? ?]. tauto.
Qed.

(** A last recovery without faults ends in the old files or in the new ones. *)
Lemma recovered old files fs :
  untouched old fs ∨ staged files fs ∨ published files fs →
  ∃ fs', recover_if_paused [] fs = (fs', Ok ()) ∧ (untouched old fs' ∨ published files fs') ∧
    (published files fs → published files fs').
Proof.
  assert (Hquiet : fs !! PAUSE_FILE = None → recover_if_paused [] fs = (fs, Ok ())).
  { intros E. unfold recover_if_paused. by rewrite E. }
  intros [Hu|[Hs|Hp]].
  - exists fs. rewrite Hquiet by apply Hu. tauto.
  - pose proof (recover_ends _ _ Hs) as Hok. destruct (recover_if_paused [] fs) as [fs' r] eqn:E.
    cbn [snd] in Hok. subst r. exists fs'. split; [done|].
    destruct (recover_outcomes _ _ _ _ _ Hs E) as [[_ Hp]|[[] _]]; [|done]. split; [by right|].
    intros [Hno _]. destruct Hs as [[c Hc] _]. congruence.
  - exists fs. rewrite Hquiet by apply Hp. tauto.
Qed.

(** C3. Saving is atomic. A save over a directory without the mark of an unfinished one
    (opening the memory removes it) may have any of its file operations fail or be cut
    short, leaving its file with any content or none, and the recovery at the next starts
    may be cut short as often as it will: a recovery that nothing disturbs succeeds, it
    leaves a directory without the mark again, and this directory decodes to what it held
    before the save or to the saved records, and to the saved records when the save
    reported success. The saved records are the most recent ones, up to the maximum; all
    of them are read back when no reading has more than 255. It is about valid records
    whose encoding fits the formats of the files; [save_over_pause_mixes] shows that the
    mark matters. *)
Theorem save_crash_safe `{SegmentationLaws} content ids today n records fs files :
  CharacterIdMap.parse content = Ok ids → (today <= u16_max)%N →
  Forall (valid_in ids) records → Forall (fresh today) records → Forall (λ r, typed_entry (entry r)) records →
  fs !! PAUSE_FILE = None →
  encode_files ids (records_to_save today n records) = Some files → fits files →
  ∃ kept rest, records_to_save today n records ≡ₚ kept ++ rest ∧
    ((∀ reading, length (filter (λ r, ruby (entry r) = reading) records) ≤ 255) → rest = []) ∧
    ∀ faults crashes, ∃ fs1 r fs2,
      save_records faults ids today n records fs = Some (records_to_save today n records, (fs1, r)) ∧
      recover_if_paused [] (foldl restart fs1 crashes) = (fs2, Ok ()) ∧ fs2 !! PAUSE_FILE = None ∧
      (decode_directory fs2 = decode_directory fs ∨ decode_directory fs2 = Return (stored <$> kept)) ∧
      (r = Ok () → decode_directory fs2 = Return (stored <$> kept)).
Proof.
  intros Hids%parse_ids_ok Hday Hvalid Hfresh Htyped Hpause Henc Hfits.
  assert (Hincl : ∀ r, r ∈ records_to_save today n records → r ∈ records).
  { intros r Hr. by eapply records_to_save_incl. }
  assert (Hstorable : Forall storable (records_to_save today n records)).
  { rewrite !Forall_forall in *. intros r Hr%Hincl. eapply valid_storable; eauto. }
  destruct (decode_encoded ids Hids (records_to_save today n records) files)
    as (kept & rest & Hdecode & Hperm & Hfew); [by eapply Forall_incl|done..|].
  exists kept, rest. split; [done|]. split.
  { intros Hreadings. apply Hfew. intros reading. etrans; [|apply (Hreadings reading)].
    assert (Hsub : records_to_save today n records ⊆+ records).
    { unfold records_to_save. etrans; [apply sublist_submseteq, sublist_take|]. by rewrite sort_by_perm, decay_id. }
    apply submseteq_Permutation in Hsub as [others Hall].
    apply (filter_Permutation (λ r, ruby (entry r) = reading)), Permutation_length in Hall.
    rewrite filter_app, length_app in Hall. lia. }
  intros faults crashes. unfold save_records. rewrite Henc. cbn [mbind option_bind].
  destruct (run_ops faults (save_ops files) fs) as [fs1 r] eqn:Hrun.
  pose proof (save_outcomes _ _ _ _ _ Hpause Hrun) as Hsave.
  destruct (restarts_outcomes fs files fs1 crashes) as [Hstate Hkept]; [tauto|].
  destruct (recovered _ _ _ Hstate) as (fs2 & Hrec & Hfinal & Hkept').
  exists fs1, r, fs2. split; [done|]. split; [done|]. split; [by destruct Hfinal as [[? _]|[? _]]|]. split.
  - destruct Hfinal as [Hu|Hp]; [left; by apply untouched_decodes|right; by apply Hdecode, published_holds].
  - intros ->. apply Hdecode, published_holds. destruct Hsave as [[_ Hp]|[[] _]]; [|done]. auto.
Qed.

(** The word of LearningRoundTrip.v, saved while the third copy is cut short, over
    a directory with nothing in it; the first recovery dies as well. *)
Lemma save_crash_safe_witness :
  ∃ kept rest, records_to_save 1500 5 [aka_record] ≡ₚ kept ++ rest ∧
    ∀ faults crashes, ∃ fs1 r fs2,
      @save_records scalar_clusters faults kana_ids 1500 5 [aka_record] ∅ = Some ([aka_record], (fs1, r)) ∧
      recover_if_paused [] (foldl restart fs1 crashes) = (fs2, Ok ()) ∧ fs2 !! PAUSE_FILE = None ∧
      (decode_directory fs2 = Return [] ∨ decode_directory fs2 = Return (@stored scalar_clusters <$> kept)) ∧
      (r = Ok () → decode_directory fs2 = Return (@stored scalar_clusters <$> kept)).
Proof.
  destruct (@save_crash_safe scalar_clusters _ (u "アカナ") kana_ids 1500 5 [aka_record] ∅ aka_files)
    as (kept & rest & H1 & _ & H2).
  - by vm_compute.
  - by vm_compute.
  - repeat constructor; by vm_compute.
  - repeat constructor; by vm_compute.
  - repeat constructor; by vm_compute.
  - done.
  - by vm_compute.
  - split; [by vm_compute|]. repeat constructor; by vm_compute.
  - exists kept, rest. split; [done|]. exact H2.
Defined.

(** ** A save over an unfinished one *)

(** The same reading with another word, used the day before *)
Definition aka_renamed : LearningRecord :=
  {| entry := {| word := u "垢"; ruby := ruby aka; left_id := left_id aka; right_id := right_id aka;
                 meaning_id := meaning_id aka; base_value := base_value aka; adjustment := adjustment aka;
                 metadata := metadata aka |};
     last_used_day := 1499; last_updated_day := 1499; count := 9 |}.

Definition directory_left (save : option (list LearningRecord * (Directory * result LearningError ()))) : Directory :=
  match save with Some (_, (fs, _)) => fs | None => ∅ end.

(** The first save fails after it has raised the mark; the second one, which does not
    recover from it, fails before it writes its words. *)
Definition unfinished : Directory :=
  directory_left (@save_records scalar_clusters (replicate 5 Performs ++ [Fails None]) kana_ids 1500 5 [aka_record] ∅).
Definition saved_over : Directory :=
  directory_left (@save_records scalar_clusters (replicate 3 Performs ++ [Fails (head (mem_shards aka_files))])
    kana_ids 1500 5 [aka_renamed] unfinished).

(** What is recovered was never saved: the word of the first save with the days and the
    count of the second. *)
Theorem save_over_pause_mixes :
  is_Some (unfinished !! PAUSE_FILE) ∧
  ∃ fs mixed, recover_if_paused [] saved_over = (fs, Ok ()) ∧ decode_directory fs = Return [mixed] ∧
    word (entry mixed) = word (entry aka_record) ∧ count mixed = count aka_renamed ∧
    last_used_day mixed = last_used_day aka_renamed ∧
    mixed ≠ @stored scalar_clusters aka_record ∧ mixed ≠ @stored scalar_clusters aka_renamed.
Proof.
  split; [vm_compute; by eexists|]. destruct (recover_if_paused [] saved_over) as [fs r] eqn:Hrec.
  assert (Hr : r = Ok ()) by (change r with ((fs, r).2); rewrite <- Hrec; vm_compute; reflexivity).
  assert (Hfs : decode_directory fs = decode_directory (recover_if_paused [] saved_over).1) by by rewrite Hrec.
  exists fs. eexists. split; [by rewrite Hr|]. split; [rewrite Hfs; vm_compute; reflexivity|].
  split; [by vm_compute|]. split; [by vm_compute|]. split; [by vm_compute|].
  split; intros E; [apply (f_equal count) in E|apply (f_equal (word ∘ entry)) in E]; vm_compute in E; discriminate E.
Qed.
