(* ===== verification/LearningProperties.v ===== *)
(** * What the learning memory promises

    The properties of learning.rs as the engine and the converter rely on them, with
    the memory as an implementation of the interface of Dictionary.v. *)

From S2P Require Import Prelude Unicode Collections F32 Composing Dictionary Louds MemoryIndex MemoryIndexSpec MemoryLoudsSpec DictBinary Lattice PostPrediction LearningRecords LearningRecordsSpec LearningFiles LearningFilesSpec LearningMemory LearningMemorySpec LearningRoundTrip.

(** ** The properties *)

Section properties.
Context `{SegmentationLaws}.

(** C12. The learning memory never panics: opened on any directory of bytes, with
    any file system faults on the way, it goes through any sequence of lookups,
    learning, forgetting, saving and resetting, on any days; and whenever it was
    opened its records are valid and fresh, and its indexes are the indexes of its
    records. *)
Theorem memory_never_panics faults fs md n content ids now ops :
  CharacterIdMap.parse content = Ok ids → directory_ok fs → (now <= u16_max)%N →
  Forall (λ op, (op.1 <= u16_max)%N) ops →
  ∃ fs' opened, open_memory faults fs md n ids now = Some (fs', opened) ∧
    ∀ st, opened = Ok st →
      ∃ st', foldl (λ st op, st ← st; run_memory_op st op) (Some st) ops = Some st' ∧ memory_inv st'.
Proof.
  intros Hids%parse_ids_ok Hfs Hnow Hops.
  destruct (open_memory_inv faults fs md n ids now Hnow Hids Hfs) as (fs' & opened & -> & Hopened).
  exists fs', opened. split; [done|]. intros st ->. destruct Hopened as [Hinv _]. by apply run_memory_ops_inv.
Qed.

(** C22. A lookup on any day returns the learned entries of the records whose
    reading matches: the reading itself; its nonempty grapheme prefixes, up to the
    maximal length; or, among the recent records, every reading that starts with
    it, and among the persisted ones only longer readings that do. *)
Theorem memory_lookup_correct now st reading :
  (now <= u16_max)%N → memory_inv st → uses_memory (mode st) = true → reading ≠ [] →
  ∃ st', refresh_day now st = Some st' ∧
    memory_lookup now st reading Exact None =
      Some (st', learned_entry <$> filter (λ r, ruby (entry r) = reading) (persisted st') ++
                   filter (λ r, ruby (entry r) = reading) (temporaries st')) ∧
    (∀ k, memory_lookup now st reading Prefixes (Some k) =
      Some (st', learned_entry <$>
        filter (λ r, graphemes (ruby (entry r)) `prefix_of` take k (graphemes reading)) (persisted st') ++
        filter (λ r, graphemes (ruby (entry r)) `prefix_of` take k (graphemes reading)) (temporaries st'))) ∧
    ∃ longer, memory_lookup now st reading Completions None =
      Some (st', learned_entry <$> longer ++
        filter (λ r, graphemes reading `prefix_of` graphemes (ruby (entry r))) (temporaries st')) ∧
      longer `sublist_of` filter (λ r, graphemes reading `prefix_of` graphemes (ruby (entry r)) ∧
        graphemes (ruby (entry r)) ≠ graphemes reading) (persisted st').
Proof.
  intros Hnow Hinv Hm Hr.
  destruct (memory_lookup_spec now st reading Exact None Hnow Hinv Hr) as (st' & found & Href & _ & _ & He & Hf & _).
  exists st'. rewrite Hm in He. split; [done|]. split_and!.
  - rewrite He, Hf by done. assert (Hx : ∀ l : list LearningRecord, filter (reading_matches Exact (graphemes reading)) l =
      filter (λ r, ruby (entry r) = reading) l).
    { intros l. apply list_filter_iff. intros r. simpl. split; [apply graphemes_inj|by intros ->]. }
    simpl take_at_most. by rewrite !Hx.
  - intros k. destruct (memory_lookup_spec now st reading Prefixes (Some k) Hnow Hinv Hr)
      as (st2 & found2 & Href2 & _ & _ & -> & Hf2 & _). simplify_eq. rewrite Hm, Hf2 by done. done.
  - destruct (memory_lookup_spec now st reading Completions None Hnow Hinv Hr)
      as (st2 & found2 & Href2 & _ & _ & -> & _ & Hf2). simplify_eq. rewrite Hm. exists found2.
    split; [done|]. by apply Hf2.
Qed.

(** ** The memory as the converter sees it *)

Lemma graphemes_prefix s t : graphemes s `prefix_of` graphemes t → s `prefix_of` t.
Proof.
  intros [k E]. exists (concat k). by rewrite <- (graphemes_concat t), E, concat_app, graphemes_concat.
Qed.

(** A lookup does not panic; what completes a reading extends it. *)
Lemma lookup_answers {E} now st reading kind maximum_length :
  (now <= u16_max)%N → memory_inv st →
  safe (E:=E) (answers (memory_lookup now st reading kind maximum_length)) (λ es,
    kind = Completions → maximum_length = None → Forall (λ e, reading `prefix_of` ruby e) es).
Proof.
  intros Hnow Hinv. destruct (decide (reading = [])) as [->|Hr].
  { unfold memory_lookup. destruct (refresh_day_inv now st Hnow Hinv) as (st1 & -> & _).
    cbn [mbind option_bind]. rewrite (bool_decide_eq_true_2 ([] = [])) by done. rewrite orb_true_r.
    intros _ _. constructor. }
  destruct (memory_lookup_spec now st reading kind maximum_length Hnow Hinv Hr)
    as (st' & found & _ & _ & _ & Hl & _ & Hfound). cbv zeta in Hl. rewrite Hl.
  intros -> ->. specialize (Hfound eq_refl). cbn [fmap option_fmap option_map snd].
  apply Forall_forall. intros e He. apply graphemes_prefix.
  destruct (uses_memory (mode st)); [|by apply elem_of_nil in He].
  apply list_elem_of_fmap in He as (r & -> & [Hin|Hin]%elem_of_app).
  - apply (elem_of_sublist _ _ _ Hin) in Hfound. by apply list_elem_of_filter in Hfound as [[? _] _].
  - by apply list_elem_of_filter in Hin as [? _].
Qed.

(** The memory keeps the laws the conversion and the predictions rest on. *)
Lemma memory_interface_lawful {E} now st :
  (now <= u16_max)%N → memory_inv st → lookup_lawful (memory_interface (E:=E) now st).
Proof.
  intros Hnow Hinv. split; intros.
  - eapply safe_mono; [by apply lookup_answers|done].
  - eapply safe_mono; [by apply lookup_answers|done].
  - eapply safe_mono; [by apply lookup_answers|]. intros es Hes. by apply Hes.
Qed.
End properties.

(** ** A memory that learns a word *)

#[local] Existing Instance scalar_clusters.

Definition aka_candidate : Candidate :=
  {| text := u "赤"; cand_value := of_Z (-10); composing_count := CSurface 2; last_meaning_id := 5;
     entries := [aka]; ruby_count := 2; is_learning_target := true; is_typo_correction := false;
     first_clause := None |}.

(** Learn a word, fail to save it, forget it the next day, and start again. *)
Definition busy_days : list (N * MemoryOp) :=
  [(20000%N, OpLearn aka_candidate); (20000%N, OpCommit [Performs; Fails None]);
   (20001%N, OpLookup (u "アカナ") Prefixes (Some 2)); (20001%N, OpCommit []);
   (20050%N, OpForget [] aka_candidate); (20050%N, OpReset [])].

Lemma memory_never_panics_witness :
  ∃ fs' opened,
    @open_memory scalar_clusters [] ∅ InputAndOutput 100 kana_ids 20000 = Some (fs', opened) ∧
    ∀ st, opened = Ok st →
      ∃ st', foldl (λ st op, st ← st; @run_memory_op scalar_clusters st op) (Some st) busy_days = Some st' ∧
        @memory_inv scalar_clusters st'.
Proof.
  apply (@memory_never_panics scalar_clusters _ [] ∅ InputAndOutput 100 (u "アカナ") kana_ids 20000 busy_days).
  - by vm_compute.
  - apply map_Forall_empty.
  - by vm_compute.
  - repeat constructor; by vm_compute.
Defined.

Definition learned_state : option LearningState :=
  match @open_memory scalar_clusters [] ∅ InputAndOutput 100 kana_ids 20000 with
  | Some (_, Ok st) => @learn scalar_clusters 20000 st aka_candidate
  | _ => None
  end.

Lemma learned_state_mode : mode <$> learned_state = Some InputAndOutput.
Proof. vm_compute. reflexivity. Qed.

Lemma learned_state_inv : ∃ st, learned_state = Some st ∧ @memory_inv scalar_clusters st ∧ mode st = InputAndOutput.
Proof.
  destruct (@open_memory_inv scalar_clusters _ [] ∅ InputAndOutput 100 kana_ids 20000)
    as (fs & r & E & Hinv); [by vm_compute| |apply map_Forall_empty|].
  { apply (@parse_ids_ok scalar_clusters (u "アカナ")). by vm_compute. }
  unfold learned_state. destruct r as [st|e]; [|by vm_compute in E].
  destruct Hinv as [Hinv Hmode]. rewrite E.
  destruct (@learn_inv scalar_clusters _ 20000 st aka_candidate) as (st' & Hl & Hinv'); [by vm_compute|done|].
  pose proof learned_state_mode as Hm.
  unfold learned_state in Hm. rewrite E, Hl in Hm. injection Hm as Hm.
  exists st'. split; [exact Hl|split; [exact Hinv'|exact Hm]].
Qed.

Lemma memory_lookup_correct_witness :
  ∃ st, learned_state = Some st ∧
  ∃ st', @refresh_day scalar_clusters 20001 st = Some st' ∧
    @memory_lookup scalar_clusters 20001 st (u "アカ") Exact None =
      Some (st', learned_entry <$> filter (λ r, ruby (entry r) = u "アカ") (persisted st') ++
                   filter (λ r, ruby (entry r) = u "アカ") (temporaries st')) ∧
    word <$> (learned_entry <$> filter (λ r, ruby (entry r) = u "アカ") (temporaries st')) = [u "赤"].
Proof.
  destruct learned_state_inv as (st & Hst & Hinv & Hm). exists st. split; [exact Hst|].
  destruct (@memory_lookup_correct scalar_clusters _ 20001 st (u "アカ")) as (st' & Hr & Hl & _);
    [by vm_compute|exact Hinv|by rewrite Hm|by vm_compute|].
  exists st'. split; [exact Hr|split; [exact Hl|]].
  assert (Hc : option_map (λ st, word <$> (learned_entry <$> filter (λ r, ruby (entry r) = u "アカ") (temporaries st)))
    (learned_state ≫= @refresh_day scalar_clusters 20001) = Some [u "赤"]) by (vm_compute; reflexivity).
  rewrite Hst in Hc. cbn [mbind option_bind] in Hc. rewrite Hr in Hc. injection Hc as Hc. exact Hc.
Defined.
