(* ===== verification/Action.v ===== *)
(** * Actions: state, errors and panics

    The monad of the parts of the program that work through [&mut] references:
    an action reads and changes a state, and returns a value, raises an error
    ([?] propagates it; the state keeps the changes made so far) or panics.
    [hoare] is the triple that excludes panics, [agree] relates two actions
    that give equal answers from related states. *)

From S2P Require Import Prelude.

Definition action (S E A : Type) : Type := S → S * outcome E A.

#[export] Instance action_ret {S E} : MRet (action S E) := λ A a s, (s, Return a).
#[export] Instance action_bind {S E} : MBind (action S E) := λ A B f m s,
  match m s with
  | (s', Return a) => f a s'
  | (s', Raise e) => (s', Raise e)
  | (s', Panic) => (s', Panic)
  end.

Definition gets {S E A} (f : S → A) : action S E A := λ s, (s, Return (f s)).
Definition modify {S E} (f : S → S) : action S E unit := λ s, (f s, Return tt).
Definition raise {S E A} (e : E) : action S E A := λ s, (s, Raise e).
Definition lift {S E A} (m : outcome E A) : action S E A := λ s, (s, m).
(** [expect], an index or a checked subtraction *)
Definition expect {S E A} (m : option A) : action S E A := lift (panicking m).

(** [ok_or_else(..)?] *)
Definition or_raise {S E A} (e : E) (m : option A) : action S E A :=
  match m with Some a => mret a | None => raise e end.

Lemma run_bind {S E A B} (m : action S E A) (f : A → action S E B) s s' a :
  m s = (s', Return a) → (m ≫= f) s = f a s'.
Proof. intros H. unfold mbind, action_bind. by rewrite H. Qed.

Lemma bind_Return {S E A B} (m : action S E A) (f : A → action S E B) s s'' b :
  (m ≫= f) s = (s'', Return b) ↔ ∃ s' a, m s = (s', Return a) ∧ f a s' = (s'', Return b).
Proof.
  unfold mbind, action_bind. destruct (m s) as [s' [a|e|]]; naive_solver.
Qed.

(** An action on a part of the state. *)
Definition on_snd {S T E A} (m : action T E A) : action (S * T) E A := λ '(s, t),
  let '(t', r) := m t in ((s, t'), r).
Definition on_fst {S T E A} (m : action S E A) : action (S * T) E A := λ '(s, t),
  let '(s', r) := m s in ((s', t), r).

(** ** Triples *)

(** From a state of [P] the action does not panic; it ends in [Q], or raises an
    error in a state of [R]. *)
Definition hoare {S E A} (P : S → Prop) (m : action S E A) (Q : A → S → Prop) (R : S → Prop) : Prop :=
  ∀ s, P s → match m s with
             | (s', Return a) => Q a s'
             | (s', Raise _) => R s'
             | (_, Panic) => False
             end.

Section hoare.
Context {S E : Type}.
Implicit Types P R : S → Prop.

Lemma hoare_ret {A} P (a : A) (Q : A → S → Prop) R :
  (∀ s, P s → Q a s) → hoare P (mret a : action S E A) Q R.
Proof. intros H s Hs. by apply H. Qed.

Lemma hoare_bind {A B} P (m : action S E A) (f : A → action S E B) M Q R :
  hoare P m M R → (∀ a, hoare (M a) (f a) Q R) → hoare P (m ≫= f) Q R.
Proof.
  intros Hm Hf s Hs. specialize (Hm s Hs). unfold mbind, action_bind.
  destruct (m s) as [s' [a|e|]]; [by apply Hf|done..].
Qed.

Lemma hoare_mono {A} P P' (m : action S E A) Q Q' R :
  hoare P' m Q' R → (∀ s, P s → P' s) → (∀ a s, Q' a s → Q a s) → hoare P m Q R.
Proof.
  intros Hm HP HQ s Hs. specialize (Hm s (HP s Hs)). destruct (m s) as [s' [a|e|]]; auto.
Qed.

Lemma hoare_gets {A} P (f : S → A) (Q : A → S → Prop) R :
  (∀ s, P s → Q (f s) s) → hoare P (gets (E:=E) f) Q R.
Proof. intros H s Hs. by apply H. Qed.

Lemma hoare_modify P (f : S → S) (Q : unit → S → Prop) R :
  (∀ s, P s → Q tt (f s)) → hoare P (modify (E:=E) f) Q R.
Proof. intros H s Hs. by apply H. Qed.

Lemma hoare_raise {A} P (e : E) (Q : A → S → Prop) R :
  (∀ s, P s → R s) → hoare P (raise e) Q R.
Proof. intros H s Hs. by apply H. Qed.

Lemma hoare_lift {A} P (m : outcome E A) (Q : A → S → Prop) R :
  (∀ s, P s → safe m (λ a, Q a s)) → (∀ s, P s → R s) → hoare P (lift m) Q R.
Proof. intros H HR s Hs. specialize (H s Hs). unfold lift. destruct m; eauto. Qed.

Lemma hoare_expect {A} P (m : option A) (a : A) (Q : A → S → Prop) R :
  m = Some a → (∀ s, P s → Q a s) → hoare P (expect (E:=E) m) Q R.
Proof. intros -> H s Hs. by apply H. Qed.

(** A loop keeps an invariant of its accumulator and the state. *)
Lemma hoare_for_each {A B} (I : B → S → Prop) (f : B → A → action S E B) l b R :
  (∀ b a, a ∈ l → hoare (I b) (f b a) I R) → hoare (I b) (for_each f b l) I R.
Proof.
  revert b. induction l as [|a l IH]; intros b Hf; [by apply hoare_ret|].
  apply hoare_bind with I; [apply Hf; left|]. intros b'. apply IH. intros. apply Hf. by right.
Qed.

(** A fact that does not depend on the state may be assumed. *)
Lemma hoare_pure {A} (φ : Prop) P (m : action S E A) Q R :
  (φ → hoare P m Q R) → hoare (λ s, φ ∧ P s) m Q R.
Proof. intros H s [Hφ Hs]. by apply H. Qed.
End hoare.

Lemma hoare_on_snd {S T E A} (P : T → Prop) (m : action T E A) (Q : A → T → Prop) (R : T → Prop)
    (F : S → Prop) :
  hoare P m Q R →
  hoare (λ st, F st.1 ∧ P st.2) (on_snd m) (λ a st, F st.1 ∧ Q a st.2) (λ st, F st.1 ∧ R st.2).
Proof.
  intros H [s t] [Hs Ht]. specialize (H t Ht). simpl.
  destruct (m t) as [t' [a|e|]]; naive_solver.
Qed.

(** ** Actions that never panic *)

Definition never_panics {S E A} (m : action S E A) : Prop :=
  hoare (λ _, True) m (λ _ _, True) (λ _, True).

Lemma never_panics_spec {S E A} (m : action S E A) : never_panics m ↔ ∀ s, (m s).2 ≠ Panic.
Proof.
  split; intros H s; specialize (H s); [|intros _]; destruct (m s) as [s' [a|e|]]; naive_solver.
Qed.

Section never_panics.
Context {S E : Type}.

Lemma np_ret {A} (a : A) : never_panics (mret a : action S E A).
Proof. done. Qed.
Lemma np_bind {A B} (m : action S E A) (f : A → action S E B) :
  never_panics m → (∀ a, never_panics (f a)) → never_panics (m ≫= f).
Proof. intros Hm Hf. eapply hoare_bind; [apply Hm|]. intros a. apply Hf. Qed.
Lemma np_raise {A} (e : E) : never_panics (raise (A:=A) (S:=S) e).
Proof. done. Qed.
Lemma np_gets {A} (f : S → A) : never_panics (gets (E:=E) f).
Proof. done. Qed.
Lemma np_modify (f : S → S) : never_panics (modify (E:=E) f).
Proof. done. Qed.
Lemma np_expect {A} (m : option A) : is_Some m → never_panics (expect (S:=S) (E:=E) m).
Proof. intros [a ->]. done. Qed.
Lemma np_expect_bind {A B} (m : option A) (f : A → action S E B) :
  is_Some m → (∀ a, m = Some a → never_panics (f a)) → never_panics (expect m ≫= f).
Proof. intros [a ->] H s _. by apply H. Qed.
Lemma np_or_raise_bind {A B} (e : E) (m : option A) (f : A → action S E B) :
  (∀ a, m = Some a → never_panics (f a)) → never_panics (or_raise e m ≫= f).
Proof. intros H s _. destruct m as [a|]; [|done]. by apply H. Qed.
Lemma np_for_each {A B} (f : B → A → action S E B) l b :
  (∀ b a, never_panics (f b a)) → never_panics (for_each f b l).
Proof. intros Hf. apply (hoare_for_each (λ _ _, True)). intros. apply Hf. Qed.
Lemma np_on_snd {T A} (m : action S E A) : never_panics m → never_panics (on_snd (S:=T) m).
Proof. rewrite !never_panics_spec. intros H [t s]. specialize (H s). simpl. by destruct (m s). Qed.
Lemma np_on_fst {T A} (m : action S E A) : never_panics m → never_panics (on_fst (T:=T) m).
Proof. rewrite !never_panics_spec. intros H [s t]. specialize (H s). simpl. by destruct (m s). Qed.
End never_panics.

#[export] Hint Resolve np_ret np_raise np_gets np_modify : bean.

(** Steps through the binds of an action. *)
Ltac np_step :=
  match goal with
  | |- never_panics (mret _) => apply np_ret
  | |- never_panics (raise _) => apply np_raise
  | |- never_panics (gets _) => apply np_gets
  | |- never_panics (modify _) => apply np_modify
  | |- never_panics (on_snd _) => apply np_on_snd
  | |- never_panics (on_fst _) => apply np_on_fst
  | |- never_panics (for_each _ _ _) => apply np_for_each; intros
  | |- never_panics (or_raise _ _ ≫= _) => apply np_or_raise_bind; intros
  | |- never_panics (expect _ ≫= _) => apply np_expect_bind; [|intros]
  | |- never_panics (_ ≫= _) => apply np_bind; [|intros]
  | |- never_panics (if ?b then _ else _) => destruct b eqn:?
  | |- never_panics (match ?x with _ => _ end) => destruct x eqn:?
  | |- never_panics _ => solve [eauto with bean]
  end.
Ltac never_panic := repeat np_step.

(** ** What an action yields

    [yields m Q]: from every state [m] does not panic, and what it returns satisfies [Q]. *)

Definition yields {S E A} (m : action S E A) (Q : A → Prop) : Prop :=
  hoare (λ _, True) m (λ a _, Q a) (λ _, True).

Section yields.
Context {S E : Type}.

Lemma yields_ret {A} (a : A) (Q : A → Prop) : Q a → yields (mret a : action S E A) Q.
Proof. by intros HQ s _. Qed.
Lemma yields_raise {A} (e : E) (Q : A → Prop) : yields (raise e : action S E A) Q.
Proof. done. Qed.
Lemma yields_mono {A} (m : action S E A) (P Q : A → Prop) : yields m P → (∀ a, P a → Q a) → yields m Q.
Proof. intros Hm HPQ. eapply hoare_mono; [exact Hm|done|intros a s; apply HPQ]. Qed.
Lemma yields_bind {A B} (m : action S E A) (f : A → action S E B) (P : A → Prop) (Q : B → Prop) :
  yields m P → (∀ a, P a → yields (f a) Q) → yields (m ≫= f) Q.
Proof.
  intros Hm Hf. eapply hoare_bind; [exact Hm|]. intros a s Ha. by apply Hf.
Qed.
Lemma yields_np {A} (m : action S E A) : never_panics m → yields m (λ _, True).
Proof. done. Qed.
Lemma yields_np_bind {A B} (m : action S E A) (f : A → action S E B) (Q : B → Prop) :
  never_panics m → (∀ a, yields (f a) Q) → yields (m ≫= f) Q.
Proof. intros Hm Hf. eapply yields_bind; [by apply yields_np|]. intros a _. apply Hf. Qed.
Lemma yields_expect {A B} (m : option A) (a : A) (f : A → action S E B) (Q : B → Prop) :
  m = Some a → yields (f a) Q → yields (expect m ≫= f) Q.
Proof. intros -> Hf s _. by apply Hf. Qed.
Lemma yields_for_each {A B} (I : B → Prop) (f : B → A → action S E B) l b :
  (∀ b a, a ∈ l → I b → yields (f b a) I) → I b → yields (for_each f b l) I.
Proof.
  intros Hf. revert b. induction l as [|a l IH]; intros b Hb; [by apply yields_ret|].
  eapply yields_bind; [apply Hf; [by left|done]|]. intros b' Hb'. apply IH; [|done].
  intros b1 a1 Ha1. apply Hf. by right.
Qed.
Lemma yields_Return {A} (m : action S E A) (Q : A → Prop) s s' a : yields m Q → m s = (s', Return a) → Q a.
Proof. intros Hm Hrun. specialize (Hm s I). by rewrite Hrun in Hm. Qed.
Lemma yields_never_panics {A} (m : action S E A) (Q : A → Prop) : yields m Q → never_panics m.
Proof. intros Hm. eapply hoare_mono; [exact Hm|done|done]. Qed.
End yields.

(** ** Equal answers from related states *)

Definition agree {S T E A} (I : S → T → Prop) (m : action S E A) (n : action T E A) : Prop :=
  ∀ s t, I s t → I (m s).1 (n t).1 ∧ (m s).2 = (n t).2.

Section agree.
Context {S T E : Type} (I : S → T → Prop).

Lemma agree_ret {A} (a : A) : agree I (mret a : action S E A) (mret a).
Proof. intros s t H. done. Qed.

Lemma agree_bind {A B} (m : action S E A) (n : action T E A) (f : A → action S E B) g :
  agree I m n → (∀ a, agree I (f a) (g a)) → agree I (m ≫= f) (n ≫= g).
Proof.
  intros Hm Hf s t H. destruct (Hm s t H) as [HI Ha]. unfold mbind, action_bind.
  destruct (m s) as [s' r], (n t) as [t' r']. simpl in *. subst r'.
  destruct r as [a|e|]; [by apply Hf|done..].
Qed.

Lemma agree_raise {A} (e : E) : agree I (raise (A:=A) e) (raise e).
Proof. intros s t H. done. Qed.

Lemma agree_lift {A} (m : outcome E A) : agree I (lift m) (lift m).
Proof. intros s t H. done. Qed.

Lemma agree_gets {A} (f : S → A) (g : T → A) :
  (∀ s t, I s t → f s = g t) → agree I (gets (E:=E) f) (gets g).
Proof. intros Hfg s t H. split; [done|]. simpl. by rewrite (Hfg s t). Qed.

Lemma agree_modify (f : S → S) (g : T → T) :
  (∀ s t, I s t → I (f s) (g t)) → agree I (modify (E:=E) f) (modify g).
Proof. intros Hfg s t H. split; [by apply Hfg|done]. Qed.

Lemma agree_for_each {A B} (f : B → A → action S E B) g l b :
  (∀ b a, agree I (f b a) (g b a)) → agree I (for_each f b l) (for_each g b l).
Proof.
  intros Hf. revert b. induction l as [|a l IH]; intros b; [apply agree_ret|].
  apply agree_bind; [apply Hf|]. intros b'. apply IH.
Qed.
End agree.

(** A sequence of requests, each from the state the previous one left; an error
    does not end it. *)
Fixpoint run_actions {Q S E A} (f : Q → action S E A) (requests : list Q) (s : S) : list (outcome E A) :=
  match requests with
  | [] => []
  | request :: requests => let '(s', r) := f request s in r :: run_actions f requests s'
  end.

Lemma agree_run {Q S T E A} (I : S → T → Prop) (f : Q → action S E A) (g : Q → action T E A) requests s t :
  (∀ q, agree I (f q) (g q)) → I s t → run_actions f requests s = run_actions g requests t.
Proof.
  intros Hfg. revert s t. induction requests as [|q requests IH]; intros s t Hst; [done|]. simpl.
  destruct (Hfg q s t Hst) as [Hst' Ha].
  destruct (f q s) as [s' o], (g q t) as [t' o']. simpl in *. by rewrite Ha, (IH s' t').
Qed.

(** An action whose answer does not depend on the state. *)
Definition deterministic {S E A} (m : action S E A) : Prop := agree (λ _ _ : S, True) m m.
(** The answer of an action, whatever the state. *)
Definition answers {S E A} (m : action S E A) (o : outcome E A) : Prop := ∀ s, (m s).2 = o.
(** Two actions that do the same from every state. *)
Definition same_action {S E A} (m n : action S E A) : Prop := agree (=) m n.

Section answers.
Context {S E : Type}.

Lemma same_action_spec {A} (m n : action S E A) : same_action m n ↔ ∀ s, m s = n s.
Proof.
  split; [intros H s; destruct (H s s eq_refl); by apply injective_projections|].
  intros H s t ->. by rewrite H.
Qed.

#[export] Instance same_action_equivalence {A} : Equivalence (@same_action S E A).
Proof.
  split; [intros m|intros m n H|intros m n o H1 H2]; apply same_action_spec; intros s.
  - done.
  - by rewrite (proj1 (same_action_spec _ _) H).
  - by rewrite (proj1 (same_action_spec _ _) H1), (proj1 (same_action_spec _ _) H2).
Qed.

Lemma deterministic_answers {A} (m : action S E A) s : deterministic m → answers m (m s).2.
Proof. intros H t. by apply H. Qed.

Lemma answers_agree {A T} (I : S → T → Prop) (m : action S E A) (n : action T E A) o :
  (∀ s t, I s t → I (m s).1 (n t).1) → answers m o → answers n o → agree I m n.
Proof. intros HI Hm Hn s t H. split; [by apply HI|]. by rewrite (Hm s), (Hn t). Qed.

Lemma bind_assoc {A B C} (m : action S E A) (f : A → action S E B) (g : B → action S E C) :
  same_action ((m ≫= f) ≫= g) (m ≫= λ a, f a ≫= g).
Proof. apply same_action_spec. intros s. unfold mbind, action_bind. by destruct (m s) as [? []]. Qed.

#[export] Instance bind_same {A B} :
  Proper (same_action ==> pointwise_relation A same_action ==> same_action)
    (λ m f, m ≫= f : action S E B).
Proof. intros m n H f g Hf. apply agree_bind; [done|]. intros a. apply Hf. Qed.
End answers.

Lemma agree_on_snd {S E A} {T T' : Type} (I : T * S → T' * S → Prop) (m : action S E A) :
  deterministic m → (∀ e p s s' t t', I (e, s) (p, t) → I (e, s') (p, t')) →
  agree I (on_snd m) (on_snd m).
Proof.
  intros Hm HI [e s] [p t] H. simpl. destruct (Hm s t Logic.I) as [_ Ha].
  destruct (m s) as [s' r], (m t) as [t' r']. simpl in *. split; [by eapply HI|done].
Qed.

(** Steps through two actions of the same shape. *)
Ltac agree_step :=
  match goal with
  | |- agree _ (mret _) (mret _) => apply agree_ret
  | |- agree _ (raise _) (raise _) => apply agree_raise
  | |- agree _ (expect _) (expect _) => apply agree_lift
  | |- agree _ (or_raise _ ?m) (or_raise _ ?m) => destruct m; [apply agree_ret|apply agree_raise]
  | |- agree _ (for_each _ _ _) (for_each _ _ _) => apply agree_for_each; intros
  | |- agree _ (_ ≫= _) (_ ≫= _) => apply agree_bind; [|intros]
  | |- agree _ (if ?b then _ else _) (if ?b then _ else _) => destruct b
  | |- agree _ (match ?b with _ => _ end) (match ?b with _ => _ end) => destruct b
  | |- agree _ ?m ?m => change (deterministic m); solve [eauto with bean]
  | |- deterministic _ => unfold deterministic
  end.
Ltac agreeing := repeat agree_step.

#[export] Hint Resolve hoare_ret hoare_gets hoare_modify hoare_raise : bean.
#[export] Hint Resolve agree_ret agree_raise agree_lift : bean.
