(* ===== verification/Utf8.v ===== *)
(** * Strict decoding of bytes, and slices of text by byte offsets

    The functions of the standard library on [str] that fail: [from_utf8] with
    its error, and [str::get] from a byte offset. *)

From S2P Require Import Prelude Unicode.

(** [std::str::from_utf8]: well-formed exactly when the lossy decoding loses
    nothing. *)
Definition from_utf8 (bs : list byte) : option ustring :=
  let s := from_utf8_lossy bs in if decide (utf8 s = bs) then Some s else None.

(** [str::get(n..)]: [None] when the offset is inside a character or beyond the end. *)
Fixpoint str_from (n : nat) (s : ustring) : option ustring :=
  match n, s with
  | O, _ => Some s
  | _, [] => None
  | _, c :: s' =>
      let w := length (encode_char c) in
      if decide (w ≤ n) then str_from (n - w) s' else None
  end.

(** ** [Utf8Error] *)

(** The bytes a chunk of the lossy decoding takes. *)
Definition chunk_width (b : byte) (rest : list byte) : nat :=
  S (length rest) - length (decode_chunk b rest).2.

(** The sequence ends with the input, and another byte could continue it. *)
Definition incomplete (b : byte) (rest : list byte) : bool :=
  let w := S (length rest) in
  bool_decide (chunk_width b rest = w)
  && (bool_decide (w < chunk_width b (rest ++ [0x80%N]))
      || bool_decide (w < chunk_width b (rest ++ [0xBF%N]))).

(** [valid_up_to] and [error_len] of the first chunk that is not the encoding
    of its character. *)
Fixpoint utf8_error (fuel : nat) (offset : nat) (bs : list byte) : option (nat * option nat) :=
  match fuel, bs with
  | _, [] | O, _ => None
  | S fuel, b :: rest =>
      let '(c, rest') := decode_chunk b rest in
      let w := chunk_width b rest in
      if decide (encode_char c = take w bs) then utf8_error fuel (offset + w) rest'
      else Some (offset, if incomplete b rest then None else Some w)
  end.

Definition decimal_text (n : nat) : ustring :=
  Ascii.N_of_ascii <$> String.list_ascii_of_string (pretty (N.of_nat n)).

(** [Display] of the error *)
Definition utf8_error_text (bs : list byte) : ustring :=
  match utf8_error (length bs) 0 bs with
  | Some (offset, Some w) =>
      u "invalid utf-8 sequence of " ++ decimal_text w ++ u " bytes from index " ++ decimal_text offset
  | Some (offset, None) => u "incomplete utf-8 byte sequence from index " ++ decimal_text offset
  | None => []
  end.

Example utf8_errors :
  utf8_error_text [0x41; 0xFF]%N = u "invalid utf-8 sequence of 1 bytes from index 1" ∧
  utf8_error_text [0x41; 0x42; 0xE3; 0x81]%N = u "incomplete utf-8 byte sequence from index 2" ∧
  utf8_error_text [0xED]%N = u "incomplete utf-8 byte sequence from index 0" ∧
  utf8_error_text [0xED; 0xA0; 0x80]%N = u "invalid utf-8 sequence of 1 bytes from index 0".
Proof. by vm_compute. Qed.

(** ** Laws *)

Lemma from_utf8_Some bs s : from_utf8 bs = Some s → utf8 s = bs.
Proof. unfold from_utf8. case_decide; intros; by simplify_eq. Qed.

Lemma from_utf8_utf8 s : scalars s → from_utf8 (utf8 s) = Some s.
Proof. intros H. unfold from_utf8. by rewrite from_utf8_lossy_utf8, decide_True by done. Qed.

Lemma encode_char_nonempty c : encode_char c ≠ [].
Proof. unfold encode_char. repeat case_match; done. Qed.

Lemma str_from_app s t : str_from (byte_len s) (s ++ t) = Some t.
Proof.
  unfold byte_len. induction s as [|c s IH]; [by destruct t|].
  rewrite utf8_cons, length_app. simpl.
  assert (length (encode_char c) ≠ 0) by (pose proof (encode_char_nonempty c); by destruct encode_char).
  destruct (length (encode_char c) + length (utf8 s)) eqn:E; [lia|].
  rewrite decide_True by lia. rewrite <- IH. f_equal. lia.
Qed.

(** The encodings of texts are a prefix code. *)
Lemma utf8_prefix s t : scalars s → scalars t → utf8 s `prefix_of` utf8 t → s `prefix_of` t.
Proof.
  revert t. induction s as [|c s IH]; intros t Hs Ht [k Hk]; [apply prefix_nil|].
  apply Forall_cons in Hs as [Hc Hs]. destruct t as [|d t].
  { rewrite utf8_cons in Hk. pose proof (encode_char_nonempty c). by destruct (encode_char c). }
  apply Forall_cons in Ht as [Hd Ht]. rewrite !utf8_cons, <- app_assoc in Hk.
  assert (c = d ∧ utf8 t = utf8 s ++ k) as [-> Htail].
  { destruct (decode_encode_char c (utf8 s ++ k) Hc) as (b & bs & Ec & D1).
    destruct (decode_encode_char d (utf8 t) Hd) as (b' & bs' & Ed & D2).
    rewrite Ec, Ed in Hk. simpl in Hk. simplify_eq. rewrite <- H0, D2 in D1. by simplify_eq. }
  apply prefix_cons, IH; [done..|]. by exists k.
Qed.
