(* ===== verification/LruCache.v ===== *)
(** * The least recently used cache

    The [LruCache] of src/crates/converter/src/zenz.rs: a map whose entries
    carry the index of their last access, from a 64-bit counter that wraps; a new key
    evicts the entry with the least index. The map is an association list: its
    order stands for the iteration order of the hash map. *)

From S2P Require Import Prelude.

#[local] Open Scope Z_scope.

Section lru_cache.
Context {K V : Type} `{EqDecision K}.

Record CacheEntry := { cached_key : K; cached_value : V; entry_index : Z }.

Record LruCache := {
  capacity : nat;
  access_index : Z;
  cache_entries : list CacheEntry;
}.

Definition wrapping_succ (n : Z) : Z := (n + 1) mod 2 ^ 64.

(** [LruCache::new] *)
Definition cache_new (capacity : nat) : LruCache :=
  {| capacity := Nat.max capacity 1; access_index := 0; cache_entries := [] |}.

Definition cache_find (key : K) (entries : list CacheEntry) : option CacheEntry :=
  list_find (λ e, cached_key e = key) entries ≫= λ ie, Some ie.2.

Definition touch (key : K) (index : Z) (e : CacheEntry) : CacheEntry :=
  if decide (cached_key e = key)
  then {| cached_key := cached_key e; cached_value := cached_value e; entry_index := index |} else e.

(** [LruCache::get] *)
Definition cache_get (key : K) (c : LruCache) : LruCache * option V :=
  match cache_find key (cache_entries c) with
  | None => (c, None)
  | Some entry =>
      let index := wrapping_succ (access_index c) in
      ({| capacity := capacity c; access_index := index;
          cache_entries := touch key index <$> cache_entries c |}, Some (cached_value entry))
  end.

(** [iter().min_by_key(|(_, entry)| entry.access_index)]: the first of the least. *)
Fixpoint oldest_entry (best : option CacheEntry) (entries : list CacheEntry) : option CacheEntry :=
  match entries with
  | [] => best
  | e :: entries' =>
      oldest_entry (match best with
                    | Some b => if entry_index e <? entry_index b then Some e else Some b
                    | None => Some e
                    end) entries'
  end.

(** [entries.remove(key)] *)
Definition remove_key (key : K) (entries : list CacheEntry) : list CacheEntry :=
  filter (λ e, cached_key e ≠ key) entries.

(** [LruCache::insert] *)
Definition cache_insert (key : K) (value : V) (c : LruCache) : LruCache :=
  let index := wrapping_succ (access_index c) in
  let entries :=
    if bool_decide (cache_find key (cache_entries c) = None)
       && bool_decide (capacity c ≤ length (cache_entries c))%nat
    then match oldest_entry None (cache_entries c) with
         | Some oldest => remove_key (cached_key oldest) (cache_entries c)
         | None => cache_entries c
         end
    else cache_entries c in
  {| capacity := capacity c; access_index := index;
     cache_entries := {| cached_key := key; cached_value := value; entry_index := index |}
                      :: remove_key key entries |}.

End lru_cache.
Arguments CacheEntry : clear implicits.
Arguments LruCache : clear implicits.

(** ** The specification: a list of pairs, the most recent first *)

Section recency.
Context {K V : Type} `{EqDecision K}.

Inductive cache_op := Get (key : K) | Insert (key : K) (value : V).

Definition recent_get (key : K) (l : list (K * V)) : list (K * V) * option V :=
  match list_find (λ kv, kv.1 = key) l with
  | None => (l, None)
  | Some (_, kv) => (kv :: filter (λ kv, kv.1 ≠ key) l, Some kv.2)
  end.

Definition recent_insert (capacity : nat) (key : K) (value : V) (l : list (K * V)) : list (K * V) :=
  take capacity ((key, value) :: filter (λ kv, kv.1 ≠ key) l).

Fixpoint run_recent (capacity : nat) (ops : list cache_op) (l : list (K * V)) : list (option V) :=
  match ops with
  | [] => []
  | Get key :: ops => let '(l', r) := recent_get key l in r :: run_recent capacity ops l'
  | Insert key value :: ops => None :: run_recent capacity ops (recent_insert capacity key value l)
  end.

Fixpoint run_cache (ops : list cache_op) (c : LruCache K V) : list (option V) :=
  match ops with
  | [] => []
  | Get key :: ops => let '(c', r) := cache_get key c in r :: run_cache ops c'
  | Insert key value :: ops => None :: run_cache ops (cache_insert key value c)
  end.

Notation entry := (CacheEntry K V).
Definition pair_of (e : entry) : K * V := (cached_key e, cached_value e).
Definition newer (a b : entry) : Prop := entry_index b < entry_index a.

(** The entries, sorted by their last access, are the list. *)
Definition represents (c : LruCache K V) (l : list (K * V)) : Prop := ∃ es,
  es ≡ₚ cache_entries c ∧ l = pair_of <$> es ∧ StronglySorted newer es ∧
  NoDup (cached_key <$> es) ∧ Forall (λ e, entry_index e ≤ access_index c) es ∧
  (length es ≤ capacity c)%nat ∧ (1 ≤ capacity c)%nat.

Lemma represents_new n : represents (cache_new n) [].
Proof. exists []. split_and!; try done; [constructor..|simpl; lia|simpl; lia]. Qed.

Lemma filter_other_keys (key : K) (es : list entry) :
  key ∉ cached_key <$> es → filter (λ e, cached_key e ≠ key) es = es.
Proof.
  induction es as [|e es IH]; [done|]. rewrite fmap_cons, not_elem_of_cons, filter_cons.
  intros [Hk Hes]. by rewrite decide_True, IH by done.
Qed.

Lemma filter_the_key (key : K) (a b : list entry) e :
  NoDup (cached_key <$> a ++ e :: b) → cached_key e = key →
  filter (λ e, cached_key e ≠ key) (a ++ e :: b) = a ++ b.
Proof.
  intros Hnd <-. rewrite fmap_app, fmap_cons, <- Permutation_middle in Hnd.
  apply NoDup_cons in Hnd as [Hk _]. rewrite not_elem_of_app in Hk. destruct Hk.
  rewrite filter_app, filter_cons, decide_False by auto. by rewrite !filter_other_keys.
Qed.

Lemma filter_pairs (key : K) (es : list entry) :
  filter (λ kv, kv.1 ≠ key) (pair_of <$> es) = pair_of <$> filter (λ e, cached_key e ≠ key) es.
Proof. induction es as [|e es IH]; [done|]. csimpl. rewrite !filter_cons. simpl. case_decide; by rewrite IH. Qed.

Lemma touch_others (key : K) index (es : list entry) : key ∉ cached_key <$> es → touch key index <$> es = es.
Proof.
  induction es as [|e es IH]; [done|]. rewrite fmap_cons, not_elem_of_cons, fmap_cons. intros [Hk Hes].
  rewrite IH by done. unfold touch. by rewrite decide_False by auto.
Qed.

Lemma sorted_newer_delete (a b : list entry) e :
  StronglySorted newer (a ++ e :: b) → StronglySorted newer (a ++ b).
Proof.
  induction a as [|x a IH]; simpl; intros H; [by inversion H|].
  apply StronglySorted_inv in H as [H Hx]. constructor; [auto|].
  apply Forall_app in Hx as [? Hx]. apply Forall_cons in Hx as [_ ?]. by apply Forall_app.
Qed.

Lemma sorted_newer_front (es : list entry) e n :
  Forall (λ e, entry_index e ≤ n) es → n < entry_index e → StronglySorted newer es →
  StronglySorted newer (e :: es).
Proof. intros Hes He Hs. constructor; [done|]. eapply Forall_impl; [done|]. unfold newer. simpl. lia. Qed.

(** The position of a key, in any order of the entries. *)
Lemma find_key (key : K) (es fs : list entry) :
  es ≡ₚ fs → NoDup (cached_key <$> es) →
  (key ∉ cached_key <$> es ∧ cache_find key fs = None ∧
   list_find (λ kv, kv.1 = key) (pair_of <$> es) = None) ∨
  (∃ a e b i, es = a ++ e :: b ∧ cached_key e = key ∧ cache_find key fs = Some e ∧
     list_find (λ kv, kv.1 = key) (pair_of <$> es) = Some (i, pair_of e)).
Proof.
  intros Hp Hnd. unfold cache_find. destruct (decide (key ∈ cached_key <$> es)) as [Hk|Hk].
  - right. apply list_elem_of_fmap in Hk as (e & -> & He).
    apply list_elem_of_split in He as Hs. destruct Hs as (a & b & ->).
    assert (Huniq : ∀ f, f ∈ a ++ e :: b → cached_key f = cached_key e → f = e).
    { intros f [i Hi]%list_elem_of_lookup Hf. apply list_elem_of_lookup in He as [j Hj].
      assert (i = j) as ->; [|congruence].
      eapply NoDup_lookup; [done|by rewrite list_lookup_fmap, Hi|by rewrite list_lookup_fmap, Hj; simpl; f_equal]. }
    destruct (list_find (λ f, cached_key f = cached_key e) fs) as [[j f]|] eqn:Ef.
    2: { apply list_find_None in Ef. rewrite Forall_forall in Ef. rewrite Hp in He. by apply Ef in He. }
    apply list_find_Some in Ef as (Hj & Hf & _).
    assert (f = e) as -> by (apply Huniq; [rewrite Hp; by eapply list_elem_of_lookup_2|done]).
    destruct (list_find (λ kv, kv.1 = cached_key e) (pair_of <$> a ++ e :: b)) as [[i [k v]]|] eqn:Eg.
    2: { apply list_find_None in Eg. rewrite Forall_forall in Eg.
         by destruct (Eg (pair_of e) (list_elem_of_fmap_2 _ _ _ He)). }
    apply list_find_Some in Eg as (Hi & Hkey & _). simpl in Hkey. subst k.
    apply list_elem_of_lookup_2, list_elem_of_fmap in Hi as (g & Hg & Hin).
    assert (g = e) as -> by (apply Huniq; [done|]; by inversion Hg).
    eexists a, e, b, i. by rewrite Hg.
  - left. split_and!; [done| |].
    + rewrite (proj2 (list_find_None _ _)); [done|]. apply Forall_forall. intros e He Hkey.
      apply Hk. rewrite <- Hkey. apply list_elem_of_fmap_2. by rewrite Hp.
    + apply list_find_None, Forall_forall. intros kv (e & -> & He)%list_elem_of_fmap Hkey.
      apply Hk. simpl in Hkey. rewrite <- Hkey. by apply list_elem_of_fmap_2.
Qed.

Lemma get_refines (c : LruCache K V) l key :
  represents c l → access_index c + 1 < 2 ^ 64 → 0 ≤ access_index c →
  represents (cache_get key c).1 (recent_get key l).1 ∧ (cache_get key c).2 = (recent_get key l).2.
Proof.
  intros (es & Hp & -> & Hs & Hnd & Hix & Hlen & Hcap) Hw H0.
  unfold cache_get, recent_get.
  destruct (find_key key es (cache_entries c) Hp Hnd) as [(Hk & -> & ->)|(a & e & b & i & -> & Hk & -> & ->)];
    simpl; [split; [|done]; by exists es|].
  split; [|done]. unfold wrapping_succ. rewrite Z.mod_small by lia.
  set (e' := {| cached_key := cached_key e; cached_value := cached_value e;
                entry_index := access_index c + 1 |}).
  exists (e' :: a ++ b). pose proof Hnd as Hnd'.
  rewrite fmap_app, fmap_cons, <- Permutation_middle in Hnd'.
  apply NoDup_cons in Hnd' as [Hke Hnd']. rewrite <- fmap_app in Hke, Hnd'.
  assert (Forall (λ e, entry_index e ≤ access_index c) (a ++ b)) as Hix'.
  { apply Forall_app in Hix as [? Hix]. apply Forall_cons in Hix as [_ ?]. by apply Forall_app. }
  simpl. split_and!.
  - rewrite <- Hp, fmap_app, fmap_cons. rewrite fmap_app, elem_of_app in Hke. rewrite Hk in Hke.
    rewrite !touch_others by tauto. unfold touch at 1. rewrite decide_True by done.
    subst e'. rewrite Permutation_middle. done.
  - rewrite filter_pairs, (filter_the_key key a b e) by done. done.
  - eapply sorted_newer_front; [exact Hix'|simpl; lia|]. by eapply sorted_newer_delete.
  - by constructor.
  - constructor; [simpl; lia|]. eapply Forall_impl; [exact Hix'|simpl; lia].
  - rewrite length_app in *. simpl in *. lia.
  - done.
Qed.

(** The evicted entry is the last of the list. *)
Lemma oldest_entry_spec best (fs : list entry) o :
  oldest_entry best fs = Some o →
  (best = Some o ∨ o ∈ fs) ∧ (∀ f, best = Some f ∨ f ∈ fs → entry_index o ≤ entry_index f).
Proof.
  revert best. induction fs as [|e fs IH]; simpl; intros best Ho.
  { split; [by left|]. intros f [Hf|Hf%elem_of_nil]; [|done]. simplify_eq. lia. }
  apply IH in Ho as [Hin Hle].
  destruct best as [b|]; [destruct (Z.ltb_spec (entry_index e) (entry_index b))|].
  - split; [destruct Hin as [[= ->]|]; right; rewrite elem_of_cons; auto|].
    intros f [[= ->]|[->|Hf]%elem_of_cons]; [etrans; [apply Hle; by left|lia]|apply Hle; auto..].
  - split; [destruct Hin as [|]; rewrite elem_of_cons; auto|].
    intros f [Hf|[->|Hf]%elem_of_cons]; [apply Hle; auto|etrans; [apply Hle; by left|lia]|apply Hle; auto].
  - split; [destruct Hin as [[= ->]|]; right; rewrite elem_of_cons; auto|].
    intros f [[=]|[->|Hf]%elem_of_cons]; apply Hle; auto.
Qed.

Lemma oldest_entry_total best (fs : list entry) :
  fs ≠ [] ∨ is_Some best → is_Some (oldest_entry best fs).
Proof.
  revert best. induction fs as [|e fs IH]; simpl; [naive_solver|].
  intros best _. apply IH. right. destruct best; [case_match|]; by eexists.
Qed.

Lemma oldest_is_last (es fs : list entry) e :
  es ++ [e] ≡ₚ fs → StronglySorted newer (es ++ [e]) → oldest_entry None fs = Some e.
Proof.
  intros Hp Hs. destruct (oldest_entry_total None fs) as [o Ho].
  { left. intros ->. apply Permutation_length in Hp. rewrite length_app in Hp. simpl in Hp. lia. }
  rewrite Ho. f_equal. apply oldest_entry_spec in Ho as [[[=]|Hin] Hle].
  assert (Hoe : entry_index o ≤ entry_index e).
  { apply Hle. right. rewrite <- Hp, elem_of_app, list_elem_of_singleton. by right. }
  rewrite <- Hp, elem_of_app, list_elem_of_singleton in Hin. destruct Hin as [Hin|]; [|done].
  apply list_elem_of_split in Hin as (a & b & ->). exfalso.
  rewrite <- app_assoc in Hs. clear -Hs Hoe. induction a as [|x a IH]; simpl in *;
    apply StronglySorted_inv in Hs as [Hs Hx]; [|auto].
  rewrite Forall_app, Forall_singleton in Hx. unfold newer in Hx. lia.
Qed.

(** A newer entry in front of the entries that are left *)
Lemma represents_front (c : LruCache K V) key value rest fs :
  (0 < capacity c)%nat → fs ≡ₚ rest → StronglySorted newer rest → NoDup (cached_key <$> rest) →
  key ∉ cached_key <$> rest → Forall (λ e, entry_index e ≤ access_index c) rest → (length rest < capacity c)%nat →
  represents {| capacity := capacity c; access_index := access_index c + 1;
                cache_entries := {| cached_key := key; cached_value := value; entry_index := access_index c + 1 |} :: fs |}
    ((key, value) :: (pair_of <$> rest)).
Proof.
  intros Hcap Hf ????.
  exists ({| cached_key := key; cached_value := value; entry_index := access_index c + 1 |} :: rest).
  simpl. split_and!; [by rewrite Hf|done| |by constructor| |lia|done].
  - eapply sorted_newer_front; [done|simpl; lia|done].
  - constructor; [simpl; lia|]. eapply Forall_impl; [done|simpl; lia].
Qed.

Lemma insert_refines (c : LruCache K V) l key value :
  represents c l → access_index c + 1 < 2 ^ 64 → 0 ≤ access_index c →
  represents (cache_insert key value c) (recent_insert (capacity c) key value l).
Proof.
  intros (es & Hp & -> & Hs & Hnd & Hix & Hlen & Hcap) Hw H0.
  unfold cache_insert, recent_insert, wrapping_succ. rewrite Z.mod_small by lia.
  set (e' := {| cached_key := key; cached_value := value; entry_index := access_index c + 1 |}).
  pose proof (λ rest fs, represents_front c key value rest fs Hcap) as Hgoal.
  unfold remove_key. rewrite filter_pairs.
  destruct (find_key key es (cache_entries c) Hp Hnd) as [(Hk & Hf & _)|(a & e & b & i & -> & Hk & Hf & _)].
  - rewrite Hf, bool_decide_eq_true_2 by done. rewrite (filter_other_keys key es) by done.
    destruct (decide (capacity c ≤ length (cache_entries c))%nat) as [Hfull|Hfree].
    + rewrite bool_decide_eq_true_2 by done. simpl.
      destruct (exists_last (l := es)) as (es' & o & ->).
      { intros ->. apply Permutation_length in Hp. simpl in Hp. lia. }
      rewrite (oldest_is_last es' _ o Hp Hs).
      rewrite <- Hp, length_app in Hfull. rewrite length_app in Hlen. simpl in Hlen, Hfull.
      pose proof Hnd as Hnd1. rewrite fmap_app in Hnd1, Hk.
      apply NoDup_app in Hnd1 as (Hnd' & Hdisj & _).
      assert (Heq : take (capacity c) ((key, value) :: (pair_of <$> es' ++ [o]))
                    = (key, value) :: (pair_of <$> es')).
      { destruct (capacity c) as [|cap]; [lia|]. simpl. f_equal. rewrite fmap_app.
        apply take_app_length'. rewrite length_fmap. lia. }
      rewrite Heq. apply Hgoal.
      * rewrite <- Hp. rewrite (filter_the_key (cached_key o) es' [] o), app_nil_r by done.
        rewrite filter_other_keys; [done|set_solver].
      * rewrite <- (app_nil_r es'). by eapply sorted_newer_delete.
      * done.
      * set_solver.
      * apply Forall_app in Hix. tauto.
      * lia.
    + rewrite (bool_decide_eq_false_2 (_ ≤ _)%nat) by done. simpl. rewrite <- Hp in Hfree.
      rewrite take_ge by (simpl; rewrite length_fmap; lia).
      apply Hgoal; try done; [|lia]. rewrite <- Hp. by rewrite filter_other_keys.
  - rewrite Hf, (bool_decide_eq_false_2 (Some e = None)) by done. simpl.
    rewrite (filter_the_key key a b e) by done. pose proof Hnd as Hnd'.
    rewrite fmap_app, fmap_cons, <- Permutation_middle, <- fmap_app in Hnd'.
    apply NoDup_cons in Hnd' as [Hke Hnd']. rewrite length_app in Hlen. simpl in Hlen.
    rewrite take_ge by (simpl; rewrite length_fmap, length_app; lia).
    apply Hgoal; [|by eapply sorted_newer_delete|done|by rewrite <- Hk| |rewrite length_app; lia].
    + rewrite <- Hp. by rewrite (filter_the_key key a b e).
    + apply Forall_app in Hix as [? Hix]. apply Forall_cons in Hix as [_ ?]. by apply Forall_app.
Qed.

Lemma run_refines ops (c : LruCache K V) l :
  represents c l → 0 ≤ access_index c → access_index c + Z.of_nat (length ops) < 2 ^ 64 →
  run_cache ops c = run_recent (capacity c) ops l.
Proof.
  revert c l. induction ops as [|[key|key value] ops IH]; intros c l Hr H0 Hw; [done| |];
    simpl in *; assert (Hw1 : access_index c + 1 < 2 ^ 64) by lia.
  - destruct (get_refines c l key Hr Hw1 H0) as [Hr' Ha].
    assert (capacity (cache_get key c).1 = capacity c ∧ 0 ≤ access_index (cache_get key c).1
            ∧ access_index (cache_get key c).1 ≤ access_index c + 1) as (Hc & Hi & Hi').
    { unfold cache_get. destruct (cache_find _ _); simpl; [|lia].
      unfold wrapping_succ. rewrite Z.mod_small; lia. }
    destruct (cache_get key c) as [c' r], (recent_get key l) as [l' r']. simpl in *. subst.
    f_equal. rewrite <- Hc. apply IH; [done..|lia].
  - f_equal. apply (IH (cache_insert key value c)); [by apply insert_refines|..]; simpl;
      unfold wrapping_succ; rewrite Z.mod_small; lia.
Qed.

(** The cache of the evaluator is a bounded recency list: whatever the
    sequence of lookups and insertions (of fewer than 2^64 operations, before the
    access counter wraps), a cache answers as the list that moves a key to the
    front when it is read or written and keeps the most recent [capacity] keys. *)
Theorem lru_refines_recency n ops :
  Z.of_nat (length ops) < 2 ^ 64 →
  run_cache ops (cache_new n) = run_recent (Nat.max n 1) ops [].
Proof. intros Hw. by apply (run_refines ops (cache_new n)); [apply represents_new|..]. Qed.

End recency.

Lemma lru_refines_recency_witness :
  let ops := [Insert 1%N 10%N; Insert 2%N 20%N; Get 1%N; Insert 3%N 30%N; Get 2%N; Get 1%N; Get 3%N] in
  run_cache ops (cache_new 2) = run_recent 2 ops [] ∧
  run_recent 2 ops [] = [None; None; Some 10%N; None; None; Some 10%N; Some 30%N].
Proof.
  intros ops. split; [|by vm_compute]. apply (lru_refines_recency 2 ops). by vm_compute.
Defined.
