(* ===== verification/Zenz.v ===== *)
(** * Candidate evaluation with a language model

    src/crates/converter/src/zenz.rs after the prefix constraints: the prompts,
    the interface of a language model, the evaluator with its two caches, the
    evaluation of a candidate token by token, and the prediction of further
    input. The model is reached through a [&mut] reference, so its operations
    are actions on a state of its own. *)

From S2P Require Import Prelude Unicode F32 Dictionary Constraint Composing Lattice Action Utf8.

Definition INPUT_TAG : char := 0xEE00%N.
Definition OUTPUT_TAG : char := 0xEE01%N.
Definition CONTEXT_TAG : char := 0xEE02%N.
Definition PROFILE_TAG : char := 0xEE03%N.
Definition TOPIC_TAG : char := 0xEE04%N.
Definition STYLE_TAG : char := 0xEE05%N.
Definition PREFERENCE_TAG : char := 0xEE06%N.
Definition RIGHT_CONTEXT_TAG : char := 0xEE07%N.

(** ** Configurations *)

Record ZenzV2Config := {
  v2_profile : option ustring;
  v2_left_context : option ustring;
  v2_max_left_context_length : option nat;
}.

Record ZenzV3Config := {
  profile : option ustring;
  topic : option ustring;
  style : option ustring;
  preference : option ustring;
  left_context : option ustring;
  right_context : option ustring;
  max_left_context_length : option nat;
  max_right_context_length : option nat;
  enable_alignment_separator : bool;
}.

Inductive ZenzVersionConfig :=
  | V2 (config : ZenzV2Config)
  | V3 (config : ZenzV3Config).

Definition default_v3 : ZenzV3Config :=
  {| profile := None; topic := None; style := None; preference := None; left_context := None;
     right_context := None; max_left_context_length := None; max_right_context_length := None;
     enable_alignment_separator := false |}.
Definition default_version : ZenzVersionConfig := V3 default_v3.

(** ** Prompts *)

Definition PROFILE_LABEL : ustring := Eval vm_compute in u "プロフィール:".
Definition DICTIONARY_LABEL : ustring := Eval vm_compute in u "辞書:".
Definition SPEECH_LABEL : ustring := Eval vm_compute in u "・発言:".
Definition NAKAGURO : ustring := Eval vm_compute in u "・".

(** [str::replace(' ', "\u{3000}").replace('\n', "")] *)
Definition normalize_for_model (value : ustring) : ustring :=
  filter (λ c, c ≠ 0x0A%N) ((λ c, if decide (c = 0x20%N) then 0x3000%N else c) <$> value).

(** [slice::join] *)
Fixpoint join (separator : ustring) (parts : list ustring) : ustring :=
  match parts with
  | [] => []
  | [part] => part
  | part :: parts' => part ++ separator ++ join separator parts'
  end.

Section prompts.
Context `{Segmentation}.

Definition text_prefix (value : ustring) (count : nat) : ustring :=
  concat (take count (graphemes value)).

Definition text_suffix (value : ustring) (count : nat) : ustring :=
  concat (drop (length (graphemes value) - count) (graphemes value)).

Definition should_insert_alignment_separator (input : ustring) (cursor_position : option nat) : bool :=
  match cursor_position with
  | Some position => bool_decide (position < length (graphemes input))
  | None => false
  end.

Definition aligned_input (input : ustring) (cursor_position : option nat) (enabled : bool) :
    option ustring :=
  if negb enabled || negb (should_insert_alignment_separator input cursor_position) then Some input
  else
    cursor_position ← cursor_position;
    Some (concat (take cursor_position (graphemes input)) ++ [ALIGNMENT_SEPARATOR]
          ++ concat (drop cursor_position (graphemes input))).

Definition v3_conditions (config : ZenzV3Config) : list ustring :=
  omap (λ '(tag, value), match value with
                         | Some ((_ :: _) as value) => Some (tag :: text_suffix value 25)
                         | _ => None
                         end)
    [(PROFILE_TAG, profile config); (TOPIC_TAG, topic config); (STYLE_TAG, style config);
     (PREFERENCE_TAG, preference config)].

(** [if !text.is_empty() { prompt.push(tag); prompt.push_str(text) }] *)
Definition tagged (tag : char) (text : ustring) : ustring :=
  match text with [] => [] | _ => tag :: text end.

(** [ZenzPromptBuilder::input_prediction] *)
Definition input_prediction (left_context_text composing_text : ustring) (version : ZenzVersionConfig) :
    option ustring :=
  match version with
  | V2 _ => None
  | V3 config =>
      Some (concat (v3_conditions config)
            ++ tagged CONTEXT_TAG
                 (text_suffix left_context_text (default 40 (max_left_context_length config)))
            ++ tagged RIGHT_CONTEXT_TAG
                 (text_prefix (default [] (right_context config))
                    (default 40 (max_right_context_length config)))
            ++ [INPUT_TAG] ++ Kana.to_katakana composing_text)
  end.

(** [ZenzPromptBuilder::typo_correction_prefix] *)
Definition typo_correction_prefix (left_context_text : ustring) : ustring :=
  match left_context_text with
  | [] => [INPUT_TAG]
  | _ => [CONTEXT_TAG] ++ left_context_text ++ [INPUT_TAG]
  end.

(** [ZenzPromptBuilder::candidate_evaluation] *)
Definition candidate_evaluation (input : ustring) (input_cursor_position : option nat)
    (user_dictionary_prompt : ustring) (version : ZenzVersionConfig) : option ustring :=
  let dictionary := match user_dictionary_prompt with
                    | [] => []
                    | _ => [DICTIONARY_LABEL ++ user_dictionary_prompt]
                    end in
  match version with
  | V2 config =>
      let conditions := dictionary ++ match v2_profile config with
                                      | Some ((_ :: _) as value) => [PROFILE_LABEL ++ text_suffix value 25]
                                      | _ => []
                                      end in
      let left := text_suffix (default [] (v2_left_context config))
                    (default 40 (v2_max_left_context_length config)) in
      Some (match conditions, left with
            | _ :: _, _ => [INPUT_TAG] ++ input ++ [CONTEXT_TAG] ++ join NAKAGURO conditions
                           ++ SPEECH_LABEL ++ left ++ [OUTPUT_TAG]
            | [], _ :: _ => [INPUT_TAG] ++ input ++ [CONTEXT_TAG] ++ left ++ [OUTPUT_TAG]
            | [], [] => [INPUT_TAG] ++ input ++ [OUTPUT_TAG]
            end)
  | V3 config =>
      let left := text_suffix (default [] (left_context config))
                    (default 40 (max_left_context_length config)) in
      let right := text_prefix (default [] (right_context config))
                     (default 40 (max_right_context_length config)) in
      aligned ← aligned_input input input_cursor_position (enable_alignment_separator config);
      Some (concat dictionary ++ concat (v3_conditions config) ++ tagged CONTEXT_TAG left
            ++ tagged RIGHT_CONTEXT_TAG right ++ [INPUT_TAG] ++ aligned ++ [OUTPUT_TAG])
  end.

(** [ZenzPromptBuilder::candidate_text_for_evaluation] *)
Definition candidate_text_for_evaluation (candidate_text input : ustring)
    (input_cursor_position : option nat) (version : ZenzVersionConfig) : ustring :=
  let enabled := match version with V3 config => enable_alignment_separator config | V2 _ => false end in
  if enabled && should_insert_alignment_separator input input_cursor_position
  then candidate_text ++ [ALIGNMENT_SEPARATOR] else candidate_text.

End prompts.

(** ** The interface of a language model *)

Inductive ZenzInferenceError :=
  | Message (message : ustring)
  | ContextCapacity (tokens capacity : nat).

Definition is_context_capacity_exceeded (e : ZenzInferenceError) : bool :=
  match e with ContextCapacity _ _ => true | Message _ => false end.

(** [Display] *)
Definition inference_error_text (e : ZenzInferenceError) : ustring :=
  match e with
  | Message message => message
  | ContextCapacity tokens capacity =>
      u "inference requires " ++ decimal_text tokens ++ u " tokens, exceeding context capacity "
      ++ decimal_text capacity
  end.

Inductive ZenzInferenceSequence := Evaluation | InputPrediction.

(** Tokens are [i32]s. *)
Notation token := Z (only parsing).

Class ZenzLanguageModel (M : Type) := {
  vocabulary_size : M → nat;
  eos_token : M → token;
  tokenize : ustring → bool → action M ZenzInferenceError (list token);
  token_to_piece : token → action M ZenzInferenceError (list byte);
  next_logits : list token → action M ZenzInferenceError (list f32);
  logits_for_suffix : list token → nat → ZenzInferenceSequence →
                      action M ZenzInferenceError (list f32);
}.

Definition logits_message (received vocabulary : nat) : ustring :=
  u "model returned " ++ decimal_text received ++ u " logits for a vocabulary of "
  ++ decimal_text vocabulary.

(** The default method of the trait, from the other methods. *)
Definition default_logits_for_suffix {M} (vocabulary_size : M → nat)
    (next_logits : list token → action M ZenzInferenceError (list f32))
    (tokens : list token) (start_index : nat) (_sequence : ZenzInferenceSequence) :
    action M ZenzInferenceError (list f32) :=
  if decide (length tokens ≤ start_index) then
    raise (Message (u "logits start index " ++ decimal_text start_index ++ u " is outside "
                    ++ decimal_text (length tokens) ++ u " input tokens"))
  else
    vocabulary ← gets vocabulary_size;
    for_each (λ logits index,
      row ← next_logits (take (S index) tokens);
      if decide (length row ≠ vocabulary) then raise (Message (logits_message (length row) vocabulary))
      else mret (logits ++ row))
      [] (seq start_index (length tokens - start_index)).

(** The exponential and the natural logarithm of [f32]: the platform's. *)
Class Libm := { f32_exp : f32 → f32; f32_ln : f32 → f32 }.

(** [TokenProbabilityModel] *)
Definition TokenProbabilityModel : Type := list token → nat → option (list f32).

Record ZenzPersonalization := {
  alpha : f32;
  base : TokenProbabilityModel;
  personal : TokenProbabilityModel;
}.

Record AlternativeConstraint := { probability_ratio : f32; alternative_bytes : list byte }.

Inductive CandidateEvaluation :=
  | Pass (score : f32) (alternatives : list AlternativeConstraint)
  | FixRequired (bytes : list byte)
  | WholeResult (result : ustring).

Record ZenzEvaluationRequest := {
  req_input : ustring;
  input_cursor_position : option nat;
  candidate : Candidate;
  request_rich_candidates : bool;
  prefix_constraint : PrefixConstraint;
  personalization : option ZenzPersonalization;
  version : ZenzVersionConfig;
}.
