(* ===== verification/ZenzEvaluator.v ===== *)
(** * The evaluator and the input prediction

    src/crates/converter/src/zenz.rs: [ZenzEvaluator], [evaluate_candidate_tokens]
    and [generate_next_input], as actions on the evaluator and the model. *)

From S2P Require Import Prelude Unicode F32 Dictionary Constraint Composing Lattice Action Utf8 LruCache Zenz.

(** ** Cache keys *)

Record CandidateSegment := { seg_word : ustring; seg_ruby : ustring; is_learned : bool }.

Record EvaluationCacheKey := {
  key_prompt : ustring;
  key_candidate_text : ustring;
  original_candidate_text : ustring;
  key_prefix_constraint : PrefixConstraint;
  key_request_rich : bool;
  reuses_addressed_prefix : bool;
  candidate_segments : list CandidateSegment;
}.

#[export] Instance FixedPrefix_eq_dec : EqDecision FixedPrefix.
Proof. solve_decision. Defined.
#[export] Instance PrefixConstraint_eq_dec : EqDecision PrefixConstraint.
Proof. solve_decision. Defined.
#[export] Instance CandidateSegment_eq_dec : EqDecision CandidateSegment.
Proof. solve_decision. Defined.
#[export] Instance EvaluationCacheKey_eq_dec : EqDecision EvaluationCacheKey.
Proof. solve_decision. Defined.

Record ZenzEvaluator := {
  evaluations : LruCache EvaluationCacheKey CandidateEvaluation;
  prompt_tokens : LruCache ustring (list token);
  previous_evaluation_prompt : ustring;
}.

Definition default_evaluator : ZenzEvaluator :=
  {| evaluations := cache_new 256; prompt_tokens := cache_new 128; previous_evaluation_prompt := [] |}.

Definition set_evaluations c (e : ZenzEvaluator) : ZenzEvaluator :=
  {| evaluations := c; prompt_tokens := prompt_tokens e;
     previous_evaluation_prompt := previous_evaluation_prompt e |}.
Definition set_prompt_tokens c (e : ZenzEvaluator) : ZenzEvaluator :=
  {| evaluations := evaluations e; prompt_tokens := c;
     previous_evaluation_prompt := previous_evaluation_prompt e |}.
Definition set_previous_prompt p (e : ZenzEvaluator) : ZenzEvaluator :=
  {| evaluations := evaluations e; prompt_tokens := prompt_tokens e;
     previous_evaluation_prompt := p |}.

(** ** Numbers *)

(** [i32::try_from(n).ok()] and [usize::try_from(t).ok()] *)
Definition i32_of_usize (n : nat) : option token :=
  if decide (Z.of_nat n < 2 ^ 31)%Z then Some (Z.of_nat n) else None.
Definition usize_of_i32 (t : token) : option nat :=
  if decide (0 ≤ t)%Z then Some (Z.to_nat t) else None.

(** [usize::checked_mul] *)
Definition checked_mul (a b : nat) : option nat :=
  if decide (Z.of_nat a * Z.of_nat b < 2 ^ 64)%Z then Some (a * b) else None.

Definition exceeds_i32 : ZenzInferenceError := Message (u "vocabulary exceeds i32").

(** [strict_argmax]: the first of the greatest; the loop [for index in 1..len]. *)
Definition strict_argmax (logits : list f32) : nat :=
  foldl (λ maximum index,
           match logits !! index, logits !! maximum with
           | Some l, Some m => if flt m l then index else maximum
           | _, _ => maximum
           end)
    0 (seq 1 (length logits - 1)).

(** ** Pieces of a request *)

Section pieces.
Context `{Segmentation}.

Definition drop_graphemes (value : ustring) (count : nat) : option ustring :=
  let gs := graphemes value in
  if decide (count ≤ length gs) then Some (concat (drop count gs)) else None.

(** The loop of [dropping_fixed_entries]: the entries whose words fit in the fixed bytes. *)
Fixpoint first_remaining (covered : nat) (entries : list DictionaryEntry) (byte_count : nat) : nat :=
  match entries with
  | [] => 0
  | entry :: entries' =>
      let next := covered + byte_len (word entry) in
      if decide (byte_count < next) then 0 else S (first_remaining next entries' byte_count)
  end.

Definition dropping_fixed_entries (entries : list DictionaryEntry) (byte_count : nat) :
    list DictionaryEntry := drop (first_remaining 0 entries byte_count) entries.

Definition appending_left_context (v : ZenzVersionConfig) (fixed : ustring) : ZenzVersionConfig :=
  let append (context : option ustring) := Some (default [] context ++ fixed) in
  match v with
  | V2 c => V2 {| v2_profile := v2_profile c; v2_left_context := append (v2_left_context c);
                  v2_max_left_context_length := v2_max_left_context_length c |}
  | V3 c => V3 {| profile := profile c; topic := topic c; style := style c;
                  preference := preference c; left_context := append (left_context c);
                  right_context := right_context c;
                  max_left_context_length := max_left_context_length c;
                  max_right_context_length := max_right_context_length c;
                  enable_alignment_separator := enable_alignment_separator c |}
  end.

Definition prepend_fixed (fixed : list byte) (fixed_text : ustring) (result : CandidateEvaluation) :
    CandidateEvaluation :=
  match result with
  | Pass score alternatives =>
      Pass score ((λ a, {| probability_ratio := probability_ratio a;
                           alternative_bytes := fixed ++ alternative_bytes a |}) <$> alternatives)
  | FixRequired bytes => FixRequired (fixed ++ bytes)
  | WholeResult result => WholeResult (fixed_text ++ result)
  end.

Definition learning_priority (r : ustring) : f32 :=
  let count := length (graphemes r) in
  if decide (1 ≤ count ≤ 4) then of_nat (count + 2)
  else if decide (5 ≤ count ≤ 15) then of_nat (count * 2)
  else of_nat 30.

Context `{Libm}.

Definition EPSILON : f32 := lit 1 10000000.

Definition personalized_logits (logits : list f32) (candidate_prefix : list token)
    (mode : option ZenzPersonalization) : option (list f32) :=
  mode ← mode;
  if negb (flt zero (alpha mode)) then None
  else if decide (candidate_prefix = []) then None
  else
    base ← base mode candidate_prefix (length logits);
    personal ← personal mode candidate_prefix (length logits);
    if decide (length base ≠ length logits ∨ length personal ≠ length logits) then None
    else Some (zip_with (λ logit '(base, personal),
                           fadd logit (fmul (alpha mode) (fsub (f32_ln (fadd personal EPSILON))
                                                               (f32_ln (fadd base EPSILON)))))
                 logits (zip base personal)).

End pieces.

(** ** The evaluation *)

Section evaluation.
Context `{Segmentation} `{Libm} {M : Type} `{ZenzLanguageModel M}.

Notation modelled A := (action M ZenzInferenceError A).

Definition tokenize_for_model (value : ustring) (add_special : bool) : modelled (list token) :=
  tokenize (normalize_for_model value) add_special.

(** [learned_token_priorities] *)
Definition learned_token_priorities (c : Candidate) (candidate_tokens : list token) :
    modelled (list f32) :=
  if negb (existsb (λ e, contains (metadata e) LEARNED) (entries c)) then mret []
  else
    priorities ← for_each (λ priorities entry,
        tokens ← tokenize_for_model (word entry) false;
        let priority := if contains (metadata entry) LEARNED
                        then f32_ln (learning_priority (ruby entry)) else zero in
        mret (priorities ++ replicate (length tokens) priority))
      [] (entries c);
    mret (take (length candidate_tokens)
            (priorities ++ replicate (length candidate_tokens - length priorities) zero)).

(** The alternatives of a position whose token is the best: the two or three next ones. *)
Definition rich_alternatives (evaluated : list f32) (maximum_token : nat) (maximum_logit : f32)
    (candidate_prefix : list byte) : modelled (list AlternativeConstraint) :=
  let top_tokens := sort_by (λ left right : nat * f32,
      match total_cmp right.2 left.2 with
      | Eq => Nat.compare left.1 right.1
      | order => order
      end) (imap pair evaluated) in
  for_each (λ alternatives '(index, logit),
      if decide (index = maximum_token) then mret alternatives
      else
        t ← or_raise exceeds_i32 (i32_of_usize index);
        piece ← token_to_piece t;
        mret (alternatives ++ [{| probability_ratio := f32_exp (fsub logit maximum_logit);
                                  alternative_bytes := candidate_prefix ++ piece |}]))
    [] (take 3 top_tokens).

(** The loop of [evaluate_candidate_tokens] from [candidate_index] on, with the
    candidate tokens before it. *)
Fixpoint evaluate_tokens (request : ZenzEvaluationRequest) (learned_priorities logits : list f32)
    (vocabulary addressed : nat) (before rest : list token) (score : f32)
    (alternatives : list AlternativeConstraint) (candidate_prefix : list byte) :
    modelled CandidateEvaluation :=
  match rest with
  | [] =>
      mret (Pass score (take 5 (sort_by (λ left right,
              total_cmp (probability_ratio right) (probability_ratio left)) alternatives)))
  | candidate_token :: rest' =>
      let candidate_index := length before in
      row_start ← expect (usub candidate_index addressed);
      row ← expect (slice (row_start * vocabulary) (row_start * vocabulary + vocabulary) logits);
      let evaluated := default row (personalized_logits row before (personalization request)) in
      let maximum_token := strict_argmax evaluated in
      maximum_logit ← expect (evaluated !! maximum_token);
      candidate_token_index ← or_raise
        (Message (u "invalid candidate token "
                  ++ (Ascii.N_of_ascii <$> String.list_ascii_of_string (pretty candidate_token))))
        (t ← usize_of_i32 candidate_token; if decide (t < vocabulary) then Some t else None);
      let candidate_was_maximum := bool_decide (maximum_token = candidate_token_index) in
      eos ← gets eos_token;
      if negb candidate_was_maximum && bool_decide (i32_of_usize maximum_token = Some eos) then
        mret (WholeResult (default [] (from_utf8 candidate_prefix)))
      else
        let learned_priority := default zero (learned_priorities !! candidate_index) in
        rejected ← (if candidate_was_maximum then mret false
                    else if feq learned_priority zero then mret true
                    else candidate_logit ← expect (evaluated !! candidate_token_index);
                         mret (fle (fadd candidate_logit learned_priority) maximum_logit));
        if (rejected : bool) then
          t ← or_raise exceeds_i32 (i32_of_usize maximum_token);
          piece ← token_to_piece t;
          mret (FixRequired (candidate_prefix ++ piece))
        else
          new ← (if request_rich_candidates request && candidate_was_maximum
                 then rich_alternatives evaluated maximum_token maximum_logit candidate_prefix
                 else mret []);
          piece ← token_to_piece candidate_token;
          evaluate_tokens request learned_priorities logits vocabulary addressed
            (before ++ [candidate_token]) rest' (fadd score maximum_logit) (alternatives ++ new)
            (candidate_prefix ++ piece)
  end.

(** [evaluate_candidate_tokens] *)
Definition evaluate_candidate_tokens (request : ZenzEvaluationRequest) (prompt : list token)
    (candidate_text : ustring) (addressed_token_count : nat) : modelled CandidateEvaluation :=
  candidate_tokens ← tokenize_for_model candidate_text false;
  learned_priorities ← learned_token_priorities (candidate request) candidate_tokens;
  vocabulary ← gets vocabulary_size;
  let addressed := Nat.min addressed_token_count (length candidate_tokens) in
  candidate_prefix ← for_each (λ prefix t, piece ← token_to_piece t; mret (prefix ++ piece))
                       [] (take addressed candidate_tokens);
  if decide (candidate_tokens = []) then mret (Pass zero [])
  else if decide (prompt = []) then
    raise (Message (u "candidate evaluation prompt produced no tokens"))
  else if decide (addressed = length candidate_tokens) then mret (Pass zero [])
  else
    logits ← logits_for_suffix (prompt ++ take (length candidate_tokens - 1) candidate_tokens)
               (length prompt - 1 + addressed) Evaluation;
    expected_logits ← or_raise (Message (u "candidate logits size overflow"))
                        (checked_mul (length candidate_tokens - addressed) vocabulary);
    if decide (length logits ≠ expected_logits ∨ vocabulary = 0) then
      raise (Message (u "model returned " ++ decimal_text (length logits) ++ u " logits for "
                      ++ decimal_text (length candidate_tokens)
                      ++ u " candidate tokens and a vocabulary of " ++ decimal_text vocabulary))
    else evaluate_tokens request learned_priorities logits vocabulary addressed
           (take addressed candidate_tokens) (drop addressed candidate_tokens) zero [] candidate_prefix.

(** ** The evaluator *)

Notation evaluating A := (action (ZenzEvaluator * M) ZenzInferenceError A).

Definition user_dictionary_prompt (c : Candidate) : ustring :=
  concat ((λ e, word e ++ u "(" ++ Kana.to_hiragana (ruby e) ++ u ")")
          <$> filter (λ e, contains (metadata e) USER_DICTIONARY = true) (entries c)).

(** The longest run of clusters of the candidate that the constraint's bytes start with. *)
Fixpoint addressed_prefix (bytes : list byte) (prefix : ustring) (clusters : list Grapheme) : ustring :=
  match clusters with
  | [] => prefix
  | g :: clusters' =>
      if decide (utf8 (prefix ++ g) `prefix_of` bytes)
      then addressed_prefix bytes (prefix ++ g) clusters' else prefix
  end.

Definition count_addressed_tokens (request : ZenzEvaluationRequest) (reuses : bool) : modelled nat :=
  if reuses then
    match addressed_prefix (constraint_bytes (prefix_constraint request)) []
            (graphemes (text (candidate request))) with
    | [] => mret 0
    | prefix => tokens ← tokenize_for_model prefix false; mret (length tokens)
    end
  else mret 0.

Definition evaluation_key (request : ZenzEvaluationRequest) (prompt candidate_text : ustring)
    (reuses : bool) : EvaluationCacheKey :=
  {| key_prompt := prompt; key_candidate_text := candidate_text;
     original_candidate_text := text (candidate request);
     key_prefix_constraint := prefix_constraint request;
     key_request_rich := request_rich_candidates request;
     reuses_addressed_prefix := reuses;
     candidate_segments := (λ e, {| seg_word := word e; seg_ruby := ruby e;
                                    is_learned := contains (metadata e) LEARNED |})
                           <$> entries (candidate request) |}.

Definition cached_evaluation (key : option EvaluationCacheKey) :
    evaluating (option CandidateEvaluation) :=
  match key with
  | Some key => λ '(e, m), let '(c, r) := cache_get key (evaluations e) in
                           ((set_evaluations c e, m), Return r)
  | None => mret None
  end.

Definition tokens_of_prompt (prompt : ustring) : evaluating (list token) :=
  cached ← (λ '(e, m), let '(c, r) := cache_get prompt (prompt_tokens e) in
                       ((set_prompt_tokens c e, m), Return r));
  match cached with
  | Some tokens => mret tokens
  | None =>
      tokens ← on_snd (tokenize_for_model prompt true);
      _ ← on_fst (modify (λ e, set_prompt_tokens (cache_insert prompt tokens (prompt_tokens e)) e));
      mret tokens
  end.

(** [ZenzEvaluator::evaluate_as_is] *)
Definition evaluate_as_is (request : ZenzEvaluationRequest) : evaluating CandidateEvaluation :=
  prompt ← expect (candidate_evaluation (req_input request) (input_cursor_position request)
                     (user_dictionary_prompt (candidate request)) (version request));
  let normalized_prompt := normalize_for_model prompt in
  let candidate_text := candidate_text_for_evaluation (text (candidate request)) (req_input request)
                          (input_cursor_position request) (version request) in
  previous ← on_fst (gets previous_evaluation_prompt);
  let reuses := bool_decide (previous = normalized_prompt)
                && negb (request_rich_candidates request) in
  _ ← on_fst (modify (set_previous_prompt normalized_prompt));
  let cache_key := match personalization request with
                   | None => Some (evaluation_key request prompt candidate_text reuses)
                   | Some _ => None
                   end in
  cached ← cached_evaluation cache_key;
  match cached with
  | Some cached => mret cached
  | None =>
      prompt_tokens ← tokens_of_prompt prompt;
      addressed_token_count ← on_snd (count_addressed_tokens request reuses);
      result ← on_snd (evaluate_candidate_tokens request prompt_tokens candidate_text
                         addressed_token_count);
      _ ← match cache_key with
          | Some key => on_fst (modify (λ e, set_evaluations (cache_insert key result (evaluations e)) e))
          | None => mret tt
          end;
      mret result
  end.

(** The conditions under which the fixed prefix is ignored. *)
Definition ignores_fixed_prefix (request : ZenzEvaluationRequest) (fixed : FixedPrefix) : bool :=
  let n := byte_count fixed in
  bool_decide (n = 0)
  || bool_decide (byte_len (text (candidate request)) < n)
  || bool_decide (length (constraint_bytes (prefix_constraint request)) < n)
  || negb (bool_decide (take n (constraint_bytes (prefix_constraint request))
                        `prefix_of` utf8 (text (candidate request))))
  || bool_decide (length (graphemes (req_input request)) < ruby_prefix_count fixed)
  || match input_cursor_position request with
     | Some position => bool_decide (position < ruby_prefix_count fixed)
     | None => false
     end.

Definition with_text (c : Candidate) (t : ustring) (es : list DictionaryEntry) : Candidate :=
  {| text := t; cand_value := cand_value c; composing_count := composing_count c;
     last_meaning_id := last_meaning_id c; entries := es; ruby_count := ruby_count c;
     is_learning_target := is_learning_target c; is_typo_correction := is_typo_correction c;
     first_clause := first_clause c |}.

(** [ZenzEvaluator::evaluate], over its [evaluate_as_is] *)
Definition evaluate_with {S} (as_is : ZenzEvaluationRequest → action S ZenzInferenceError CandidateEvaluation)
    (request : ZenzEvaluationRequest) : action S ZenzInferenceError CandidateEvaluation :=
  match fixed_prefix (prefix_constraint request) with
  | None => as_is request
  | Some fixed_prefix =>
      if ignores_fixed_prefix request fixed_prefix then as_is request
      else
        let n := byte_count fixed_prefix in
        let constraint := prefix_constraint request in
        let fixed := take n (constraint_bytes constraint) in
        fixed_text ← or_raise (Message (u "fixed prefix is not UTF-8: " ++ utf8_error_text fixed))
                       (from_utf8 fixed);
        remaining_input ← expect (drop_graphemes (req_input request) (ruby_prefix_count fixed_prefix));
        remaining_text ← expect (str_from n (text (candidate request)));
        remaining_position ← expect match input_cursor_position request with
                                    | Some position => Some <$> usub position (ruby_prefix_count fixed_prefix)
                                    | None => Some None
                                    end;
        result ← as_is
          {| req_input := remaining_input; input_cursor_position := remaining_position;
             candidate := with_text (candidate request) remaining_text
                            (dropping_fixed_entries (entries (candidate request)) n);
             request_rich_candidates := request_rich_candidates request;
             prefix_constraint := {| constraint_bytes := drop n (constraint_bytes constraint);
                                     has_eos := has_eos constraint;
                                     ignore_memory_and_user_dictionary :=
                                       ignore_memory_and_user_dictionary constraint;
                                     Constraint.fixed_prefix := None |};
             personalization := personalization request;
             version := appending_left_context (version request) fixed_text |};
        mret (prepend_fixed fixed fixed_text result)
  end.

Definition evaluate (request : ZenzEvaluationRequest) : evaluating CandidateEvaluation :=
  evaluate_with evaluate_as_is request.

(** [evaluate_candidate] *)
Definition evaluate_candidate (request : ZenzEvaluationRequest) : modelled CandidateEvaluation :=
  λ m, let '((_, m'), r) := evaluate request (default_evaluator, m) in (m', r).

(** ** Predicting further input *)

Record ZenzInputGenerationRequest := {
  gen_left_context : ustring;
  composing_text : ustring;
  gen_count : nat;
  min_length : nat;
  max_entropy : option f32;
  gen_version : ZenzVersionConfig;
  possible_nexts : list ustring;
}.

(** [prefix.starts_with(..)] for one of the non-empty prefixes; anything when there is none. *)
Definition is_allowed (nexts : list ustring) (next_text : ustring) : bool :=
  match filter (λ p, p ≠ []) nexts with
  | [] => true
  | allowed => existsb (λ p, bool_decide (Kana.to_katakana next_text `prefix_of` p)) allowed
  end.

Definition token_penalties (tokens : list token) : gmap token f32 :=
  foldl (λ penalties '(index, t),
           <[t := fadd (default zero (penalties !! t)) (fdiv (of_nat 2) (of_nat (length tokens - index)))]>
             penalties)
    ∅ (imap pair tokens).

Record Choice := {
  sum_exp : f32;
  sum_exp_value : f32;
  best_value : f32;
  best_character : option Grapheme;
  best_next_text : ustring;
}.

Definition no_choice : Choice :=
  {| sum_exp := zero; sum_exp_value := zero; best_value := Floats.SpecFloat.S754_infinity true;
     best_character := None; best_next_text := [] |}.

(** One token of the vocabulary. *)
Definition consider (nexts : list ustring) (penalties : gmap token f32) (predicted : ustring)
    (c : Choice) (il : nat * f32) : modelled Choice :=
  let '(index, logit) := il in
  t ← or_raise exceeds_i32 (i32_of_usize index);
  let value := fdiv logit (fadd (of_nat 1) (default zero (penalties !! t))) in
  let exponential := f32_exp value in
  let c := {| sum_exp := fadd (sum_exp c) exponential;
              sum_exp_value := fadd (sum_exp_value c) (fmul exponential value);
              best_value := best_value c; best_character := best_character c;
              best_next_text := best_next_text c |} in
  if fle value (best_value c) then mret c
  else
    piece ← token_to_piece t;
    match from_utf8 piece with
    | None => mret c
    | Some piece =>
        match graphemes piece with
        | [] => mret c
        | character :: _ =>
            let next_text := predicted ++ character in
            if negb (is_allowed nexts next_text) then mret c
            else mret {| sum_exp := sum_exp c; sum_exp_value := sum_exp_value c; best_value := value;
                         best_character := Some character; best_next_text := next_text |}
        end
    end.

Definition is_sentence_end (character : Grapheme) : bool :=
  bool_decide (character ∈ [u "、"; u "。"; u "！"; u "？"]).

Definition stops (max_entropy : option f32) (predicted_count minimum : nat) (c : Choice) : bool :=
  match max_entropy with
  | Some max_entropy =>
      bool_decide (minimum ≤ predicted_count) && flt zero (sum_exp c)
      && fle max_entropy (fsub (f32_ln (sum_exp c)) (fdiv (sum_exp_value c) (sum_exp c)))
  | None => false
  end.

(** The loop [for _ in 0..count]. *)
Fixpoint generate (remaining : nat) (request : ZenzInputGenerationRequest) (vocabulary minimum : nat)
    (prompt_tokens : list token) (predicted : ustring) (predicted_count : nat) : modelled ustring :=
  match remaining with
  | O => mret predicted
  | S remaining =>
      logits ← next_logits prompt_tokens;
      if decide (length logits ≠ vocabulary ∨ logits = []) then
        raise (Message (logits_message (length logits) vocabulary))
      else
        choice ← for_each (consider (possible_nexts request) (token_penalties prompt_tokens) predicted)
                   no_choice (imap pair logits);
        if stops (max_entropy request) predicted_count minimum choice then mret predicted
        else match best_character choice with
             | None => mret predicted
             | Some character =>
                 if is_sentence_end character && bool_decide (minimum ≤ predicted_count)
                 then mret predicted
                 else
                   appended ← tokenize_for_model character false;
                   if decide (appended = []) then mret (best_next_text choice)
                   else generate remaining request vocabulary minimum (prompt_tokens ++ appended)
                          (best_next_text choice) (S predicted_count)
             end
  end.

(** [generate_next_input] *)
Definition generate_next_input (request : ZenzInputGenerationRequest) : modelled ustring :=
  if decide (gen_count request = 0) then mret []
  else match input_prediction (gen_left_context request) (composing_text request) (gen_version request) with
       | None => mret []
       | Some prompt =>
           prompt_tokens ← tokenize_for_model prompt true;
           vocabulary ← gets vocabulary_size;
           (* [min_length.clamp(1, count)] *)
           let minimum := Nat.min (gen_count request) (Nat.max 1 (min_length request)) in
           generate (gen_count request) request vocabulary minimum prompt_tokens [] 0
       end.

End evaluation.
