(* ===== verification/ZenzEvaluatorSpec.v ===== *)
(** * The evaluator never panics, and its caches are invisible

    What a language model promises to its clients ([ModelTotal]: its methods
    report failures as errors; [ModelDeterministic]: its internal state is a cache,
    so that its answers do not depend on it), and the theorems on the evaluator
    over any such model. *)

From S2P Require Import Prelude Unicode F32 Dictionary Constraint Composing Lattice Action Utf8 LruCache Zenz ZenzEvaluator.

Class ModelTotal (M : Type) `{ZenzLanguageModel M} : Prop := {
  tokenize_total v b : never_panics (tokenize (M:=M) v b);
  token_to_piece_total t : never_panics (token_to_piece (M:=M) t);
  next_logits_total ts : never_panics (next_logits (M:=M) ts);
  logits_for_suffix_total ts n q : never_panics (logits_for_suffix (M:=M) ts n q);
}.

Class ModelDeterministic (M : Type) `{ZenzLanguageModel M} : Prop := {
  vocabulary_constant (s t : M) : vocabulary_size s = vocabulary_size t;
  eos_constant (s t : M) : eos_token s = eos_token t;
  tokenize_deterministic v b : deterministic (tokenize (M:=M) v b);
  token_to_piece_deterministic t : deterministic (token_to_piece (M:=M) t);
  next_logits_deterministic ts : deterministic (next_logits (M:=M) ts);
  logits_for_suffix_deterministic ts n q : deterministic (logits_for_suffix (M:=M) ts n q);
}.

#[export] Hint Resolve tokenize_total token_to_piece_total next_logits_total
  logits_for_suffix_total : bean.

(** ** Pure facts *)

Lemma strict_argmax_lt logits : logits ≠ [] → strict_argmax logits < length logits.
Proof.
  intros Hne. unfold strict_argmax.
  assert (Hinv : ∀ ix m, m < length logits → Forall (λ i, i < length logits) ix →
    foldl (λ maximum index,
             match logits !! index, logits !! maximum with
             | Some l, Some m => if flt m l then index else maximum
             | _, _ => maximum
             end) m ix < length logits).
  { induction ix as [|i ix IH]; intros m Hm His; [done|].
    apply Forall_cons in His as [Hi His]. apply IH; [|done]. by repeat case_match. }
  apply Hinv; [destruct logits; simpl; [done|lia]|].
  apply Forall_forall. intros i Hi%elem_of_seq. lia.
Qed.

Lemma strict_argmax_lookup logits : logits ≠ [] → is_Some (logits !! strict_argmax logits).
Proof. intros H%strict_argmax_lt. by apply lookup_lt_is_Some. Qed.

Lemma personalized_logits_length `{Libm} logits before mode row :
  personalized_logits logits before mode = Some row → length row = length logits.
Proof.
  unfold personalized_logits. intros Hp.
  apply bind_Some in Hp as (m & _ & Hp). case_match; [done|]. case_decide; [done|].
  apply bind_Some in Hp as (b & _ & Hp). apply bind_Some in Hp as (q & _ & Hp).
  case_decide; [done|]. simplify_eq.
  rewrite length_zip_with, length_zip. lia.
Qed.

Lemma decode_chunk_scalar b rest : is_scalar (decode_chunk b rest).1 = true.
Proof.
  apply is_scalar_spec. unfold decode_chunk, second3, second4, continuation, REPLACEMENT.
  repeat case_match; simpl; rewrite ?orb_true_iff, ?andb_true_iff, ?Kana.in_range_spec,
    ?N.eqb_eq, ?N.ltb_lt in *; lia.
Qed.

Lemma from_utf8_lossy_scalars bs : scalars (from_utf8_lossy bs).
Proof.
  unfold from_utf8_lossy. generalize (length bs) as fuel. intros fuel. revert bs.
  induction fuel as [|fuel IH]; intros [|b bs]; simpl; [constructor..|].
  pose proof (decode_chunk_scalar b bs) as Hc. destruct (decode_chunk b bs) as [c r].
  constructor; [done|apply IH].
Qed.

Lemma from_utf8_scalars bs s : from_utf8 bs = Some s → scalars s.
Proof.
  unfold from_utf8. case_decide; intros; simplify_eq. apply from_utf8_lossy_scalars.
Qed.

(** The offset of a well-formed prefix of the bytes is a character boundary. *)
Lemma str_from_fixed fixed ft s :
  from_utf8 fixed = Some ft → scalars s → fixed `prefix_of` utf8 s → is_Some (str_from (length fixed) s).
Proof.
  intros Hf Hs Hp. apply from_utf8_scalars in Hf as Hft. apply from_utf8_Some in Hf. subst fixed.
  destruct (utf8_prefix ft s Hft Hs Hp) as [t ->]. exists t. apply str_from_app.
Qed.

Lemma aligned_input_total `{Segmentation} input position enabled :
  is_Some (aligned_input input position enabled).
Proof.
  unfold aligned_input, should_insert_alignment_separator.
  destruct enabled; simpl; [|by eexists]. destruct position as [p|]; simpl; [|by eexists].
  case_match; by eexists.
Qed.

Lemma candidate_evaluation_total `{Segmentation} input position dictionary v :
  is_Some (candidate_evaluation input position dictionary v).
Proof.
  unfold candidate_evaluation. destruct v as [c|c]; [by eexists|].
  destruct (aligned_input_total input position (enable_alignment_separator c)) as [a ->]. by eexists.
Qed.

(** ** No panics *)

Section no_panic.
Context `{Segmentation} `{Libm} {M : Type} `{ModelTotal M}.

Lemma tokenize_for_model_total v b : never_panics (tokenize_for_model (M:=M) v b).
Proof. apply tokenize_total. Qed.
Hint Resolve tokenize_for_model_total : bean.

Lemma learned_token_priorities_total c ts : never_panics (learned_token_priorities (M:=M) c ts).
Proof. unfold learned_token_priorities. never_panic. Qed.

Lemma rich_alternatives_total evaluated i l p : never_panics (rich_alternatives (M:=M) evaluated i l p).
Proof. unfold rich_alternatives. never_panic. Qed.
Hint Resolve learned_token_priorities_total rich_alternatives_total : bean.

(** The logits hold a row for every token from the first addressed one. *)
Lemma evaluate_tokens_total request priorities logits vocabulary addressed rest : vocabulary ≠ 0 →
  ∀ before score alternatives prefix,
  addressed ≤ length before → length logits = (length before + length rest - addressed) * vocabulary →
  never_panics (evaluate_tokens (M:=M) request priorities logits vocabulary addressed before rest
                  score alternatives prefix).
Proof.
  intros Hv. induction rest as [|t rest IH]; intros before score alternatives prefix Ha Hlen;
    simpl; [apply np_ret|].
  rewrite usub_ok by done. apply np_expect_bind; [by eexists|]. intros row_start [= <-].
  assert (Hlen' : (length before - addressed + S (length rest)) * vocabulary = length logits)
    by (rewrite Hlen; simpl; f_equal; lia).
  assert (Hrow : (length before - addressed) * vocabulary + vocabulary ≤ length logits).
  { rewrite <- Hlen'. nia. }
  rewrite slice_ok by lia. apply np_expect_bind; [by eexists|]. intros row [= <-].
  set (row := take _ (drop _ logits)).
  assert (Hlr : length row = vocabulary) by (subst row; rewrite length_take, length_drop; lia).
  set (evaluated := default row _).
  assert (Hle : length evaluated = vocabulary).
  { subst evaluated. destruct (personalized_logits _ _ _) eqn:E; [|done].
    apply personalized_logits_length in E. simpl. lia. }
  assert (evaluated ≠ []) by (intros He; rewrite He in Hle; simpl in Hle; lia).
  apply np_expect_bind; [by apply strict_argmax_lookup|]. intros maximum_logit _.
  apply np_or_raise_bind. intros index Hindex.
  assert (index < length evaluated) as Hi.
  { apply bind_Some in Hindex as (i & _ & Hindex). case_decide; [|done]. simplify_eq. lia. }
  never_panic; [by apply lookup_lt_is_Some|].
  apply IH; rewrite length_app; simpl; [lia|]. rewrite Hlen. simpl. f_equal. lia.
Qed.

Lemma evaluate_candidate_tokens_total request prompt t n :
  never_panics (evaluate_candidate_tokens (M:=M) request prompt t n).
Proof.
  unfold evaluate_candidate_tokens. np_step; [np_step|]. rename a into tokens.
  np_step; [np_step|]. np_step; [np_step|]. rename a0 into vocabulary.
  np_step; [never_panic|]. np_step; [np_step|]. np_step; [np_step|]. np_step; [np_step|].
  np_step; [np_step|]. rename a1 into logits. apply np_or_raise_bind. intros expected Hexp.
  unfold checked_mul in Hexp. case_decide; [|done]. simplify_eq.
  destruct (decide (_ ∨ _)) as [|Hlen]; [np_step|]. assert (length logits = (length tokens - Nat.min n (length tokens)) * vocabulary ∧ vocabulary ≠ 0)
    as [Hlen' Hv] by lia.
  apply evaluate_tokens_total; [done|rewrite length_take; lia|].
  rewrite length_take, length_drop. rewrite Hlen'. f_equal. lia.
Qed.
Hint Resolve evaluate_candidate_tokens_total : bean.

Lemma cached_evaluation_total key : never_panics (cached_evaluation (M:=M) key).
Proof.
  apply never_panics_spec. intros [e m]. destruct key as [key|]; [|done]. simpl. by destruct cache_get.
Qed.

Lemma tokens_of_prompt_total prompt : never_panics (tokens_of_prompt (M:=M) prompt).
Proof.
  unfold tokens_of_prompt. apply np_bind; [|intros []; never_panic].
  apply never_panics_spec. intros [e m]. by destruct cache_get.
Qed.

Lemma count_addressed_tokens_total request reuses :
  never_panics (count_addressed_tokens (M:=M) request reuses).
Proof. unfold count_addressed_tokens. never_panic. Qed.
Hint Resolve cached_evaluation_total tokens_of_prompt_total count_addressed_tokens_total : bean.

Lemma evaluate_as_is_total request : never_panics (evaluate_as_is (M:=M) request).
Proof. unfold evaluate_as_is. np_step; [apply candidate_evaluation_total|]. never_panic. Qed.
Hint Resolve evaluate_as_is_total : bean.

Lemma evaluate_total request :
  scalars (text (candidate request)) → never_panics (evaluate (M:=M) request).
Proof.
  intros Hs. unfold evaluate, evaluate_with. destruct fixed_prefix as [f|]; [|np_step].
  destruct ignores_fixed_prefix eqn:Hi; [np_step|].
  unfold ignores_fixed_prefix in Hi. rewrite !orb_false_iff, negb_false_iff, bool_decide_eq_true,
    !bool_decide_eq_false in Hi. destruct Hi as [[[[[Hi1 Hi2] Hi3] Hi4] Hi5] Hi6].
  apply np_or_raise_bind. intros ft Hft. np_step.
  { unfold drop_graphemes. rewrite decide_True by lia. by eexists. }
  np_step.
  { pose proof (str_from_fixed _ _ _ Hft Hs Hi4) as Hstr. rewrite length_take in Hstr.
    by rewrite Nat.min_l in Hstr by lia. }
  np_step; [|never_panic]. destruct input_cursor_position; [|by eexists].
  rewrite bool_decide_eq_false in Hi6. rewrite usub_ok by lia. by eexists.
Qed.
End no_panic.
