(* ===== verification/ZenzCache.v ===== *)
(** * The caches of the evaluator are invisible

    The reference evaluator of src/crates/converter/src/zenz.rs without caches: it
    keeps only the previous prompt, which the source reads to decide whether
    the addressed prefix is skipped. Over a model whose answers do not depend on
    its state, the evaluator with caches gives the same verdicts. *)

From S2P Require Import Prelude Unicode F32 Dictionary Constraint Composing Lattice Action Utf8 LruCache Zenz ZenzEvaluator ZenzEvaluatorSpec.

(** ** What the operations of a cache keep *)

Section cache_contents.
Context {K V : Type} `{EqDecision K}.

(** [Q k v] holds of every entry. *)
Definition cache_all (Q : K → V → Prop) (c : LruCache K V) : Prop :=
  ∀ e, e ∈ cache_entries c → Q (cached_key e) (cached_value e).

Lemma cache_all_new Q n : cache_all Q (cache_new n).
Proof. intros e He. by apply elem_of_nil in He. Qed.

Lemma cache_get_all Q key (c : LruCache K V) : cache_all Q c → cache_all Q (cache_get key c).1.
Proof.
  intros Hc. unfold cache_get. destruct cache_find; [|done]. intros e He. simpl in He.
  apply list_elem_of_fmap in He as (e0 & -> & He0). apply Hc in He0. unfold touch. by case_decide.
Qed.

Lemma cache_get_found Q key (c : LruCache K V) v :
  cache_all Q c → (cache_get key c).2 = Some v → Q key v.
Proof.
  intros Hc Hv. unfold cache_get, cache_find in Hv.
  destruct (list_find _ _) as [[i e]|] eqn:Hf; [|done]. simpl in Hv. simplify_eq.
  apply list_find_Some in Hf as (Hi & <- & _). by apply list_elem_of_lookup_2, Hc in Hi.
Qed.

Lemma cache_insert_all Q key value (c : LruCache K V) :
  cache_all Q c → Q key value → cache_all Q (cache_insert key value c).
Proof.
  intros Hc Hq e He. unfold cache_insert, remove_key in He. simpl in He.
  apply elem_of_cons in He as [->|[_ He]%list_elem_of_filter]; [done|]. apply Hc.
  destruct (_ && _); [|done]. destruct oldest_entry; [|done].
  by apply list_elem_of_filter in He as [_ ?].
Qed.
End cache_contents.

(** ** Answers of the evaluation do not depend on the state of the model *)

Section deterministic.
Context `{Segmentation} `{Libm} {M : Type} `{ModelDeterministic M}.

Lemma tokenize_for_model_deterministic v b : deterministic (tokenize_for_model (M:=M) v b).
Proof. apply tokenize_deterministic. Qed.

Lemma eos_deterministic : deterministic (S:=M) (gets (E:=ZenzInferenceError) eos_token).
Proof. apply agree_gets. intros. apply eos_constant. Qed.

Lemma vocabulary_deterministic : deterministic (S:=M) (gets (E:=ZenzInferenceError) vocabulary_size).
Proof. apply agree_gets. intros. apply vocabulary_constant. Qed.

#[local] Hint Resolve tokenize_for_model_deterministic token_to_piece_deterministic
  next_logits_deterministic logits_for_suffix_deterministic eos_deterministic
  vocabulary_deterministic : bean.

Lemma rich_alternatives_deterministic evaluated i l p :
  deterministic (rich_alternatives (M:=M) evaluated i l p).
Proof. unfold rich_alternatives. agreeing. Qed.
#[local] Hint Resolve rich_alternatives_deterministic : bean.

Lemma evaluate_tokens_deterministic request priorities logits vocabulary addressed rest :
  ∀ before score alternatives prefix,
  deterministic (evaluate_tokens (M:=M) request priorities logits vocabulary addressed before rest
                   score alternatives prefix).
Proof.
  induction rest as [|t rest IH]; intros; cbn [evaluate_tokens]; [apply agree_ret|].
  repeat first [apply IH | agree_step].
Qed.

Lemma learned_token_priorities_deterministic c ts :
  deterministic (learned_token_priorities (M:=M) c ts).
Proof. unfold learned_token_priorities. agreeing. Qed.

#[local] Hint Resolve learned_token_priorities_deterministic evaluate_tokens_deterministic : bean.

Lemma evaluate_candidate_tokens_deterministic request prompt t n :
  deterministic (evaluate_candidate_tokens (M:=M) request prompt t n).
Proof.
  unfold evaluate_candidate_tokens.
  repeat agree_step.
Qed.

Lemma count_addressed_tokens_deterministic request reuses :
  deterministic (count_addressed_tokens (M:=M) request reuses).
Proof. unfold count_addressed_tokens. agreeing. Qed.
End deterministic.

(** ** The evaluator without caches *)

Section uncached.
Context `{Segmentation} `{Libm} {M : Type} `{ZenzLanguageModel M}.

(** The verdict on a request for a prompt. *)
Definition compute (request : ZenzEvaluationRequest) (prompt candidate_text : ustring) (reuses : bool) :
    action M ZenzInferenceError CandidateEvaluation :=
  prompt_tokens ← tokenize_for_model prompt true;
  addressed_token_count ← count_addressed_tokens request reuses;
  evaluate_candidate_tokens request prompt_tokens candidate_text addressed_token_count.

Definition uncached_as_is (request : ZenzEvaluationRequest) :
    action (ustring * M) ZenzInferenceError CandidateEvaluation :=
  prompt ← expect (candidate_evaluation (req_input request) (input_cursor_position request)
                     (user_dictionary_prompt (candidate request)) (version request));
  previous ← on_fst (gets id);
  _ ← on_fst (modify (λ _, normalize_for_model prompt));
  on_snd (compute request prompt
            (candidate_text_for_evaluation (text (candidate request)) (req_input request)
               (input_cursor_position request) (version request))
            (bool_decide (previous = normalize_for_model prompt)
             && negb (request_rich_candidates request))).

Definition uncached_evaluate (request : ZenzEvaluationRequest) :
    action (ustring * M) ZenzInferenceError CandidateEvaluation := evaluate_with uncached_as_is request.

(** *** The key determines the verdict *)

Lemma learned_token_priorities_key c1 c2 ts :
  (λ e, {| seg_word := word e; seg_ruby := ruby e; is_learned := contains (metadata e) LEARNED |})
    <$> entries c1 =
  (λ e, {| seg_word := word e; seg_ruby := ruby e; is_learned := contains (metadata e) LEARNED |})
    <$> entries c2 →
  same_action (learned_token_priorities (M:=M) c1 ts) (learned_token_priorities c2 ts).
Proof.
  unfold learned_token_priorities. generalize (entries c1) as l1, (entries c2) as l2. intros l1 l2 Hl.
  assert (existsb (λ e, contains (metadata e) LEARNED) l1 = existsb (λ e, contains (metadata e) LEARNED) l2)
    as ->.
  { revert l2 Hl. induction l1 as [|e1 l1 IH]; intros [|e2 l2] Hl; try done. csimpl in Hl.
    injection Hl as Hw Hr Hm Hl. simpl. by rewrite Hm, (IH l2). }
  destruct (negb _); [done|]. apply agree_bind; [|intros; apply agree_ret].
  generalize (@nil f32). revert l2 Hl.
  induction l1 as [|e1 l1 IH]; intros [|e2 l2] Hl b; try done. csimpl in Hl.
  injection Hl as Hw Hr Hm Hl. simpl. rewrite Hw, Hr, Hm.
  apply agree_bind; [reflexivity|]. intros b'. by apply IH.
Qed.

Lemma evaluate_tokens_key r1 r2 priorities logits vocabulary addressed rest :
  personalization r1 = personalization r2 → request_rich_candidates r1 = request_rich_candidates r2 →
  ∀ before score alternatives prefix,
  same_action (evaluate_tokens (M:=M) r1 priorities logits vocabulary addressed before rest
                 score alternatives prefix)
    (evaluate_tokens r2 priorities logits vocabulary addressed before rest score alternatives prefix).
Proof.
  intros Hp Hr. induction rest as [|t rest IH]; intros; simpl; [reflexivity|]. rewrite Hp, Hr.
  repeat first [apply IH | reflexivity | apply agree_bind; [reflexivity|intros]
               | match goal with |- same_action (if ?b then _ else _) _ => destruct b end
               | match goal with |- agree _ (if ?b then _ else _) _ => destruct b end].
Qed.

Lemma compute_key r1 r2 p1 p2 t1 t2 b1 b2 :
  personalization r1 = personalization r2 →
  evaluation_key r1 p1 t1 b1 = evaluation_key r2 p2 t2 b2 →
  same_action (compute r1 p1 t1 b1) (compute r2 p2 t2 b2).
Proof.
  intros Hp Hk. unfold evaluation_key in Hk. injection Hk as <- <- Ht Hc Hr <- Hs.
  unfold compute. apply agree_bind; [reflexivity|]. intros prompt.
  unfold count_addressed_tokens. rewrite Ht, Hc. apply agree_bind; [reflexivity|]. intros n.
  unfold evaluate_candidate_tokens.
  apply agree_bind; [reflexivity|]. intros tokens.
  apply agree_bind; [by apply learned_token_priorities_key|]. intros priorities.
  do 2 (apply agree_bind; [reflexivity|]; intros ?).
  do 3 (case_decide; [reflexivity|]).
  do 2 (apply agree_bind; [reflexivity|]; intros ?).
  case_decide; [reflexivity|]. by apply evaluate_tokens_key.
Qed.
End uncached.

(** ** The simulation *)

Section simulation.
Context `{Segmentation} `{Libm} {M : Type} `{ModelDeterministic M}.

(** A cached verdict is the verdict of every request with its key. *)
Definition sound_verdict (key : EvaluationCacheKey) (v : CandidateEvaluation) : Prop :=
  ∀ request prompt candidate_text reuses, personalization request = None →
  evaluation_key request prompt candidate_text reuses = key →
  answers (compute (M:=M) request prompt candidate_text reuses) (Return v).

Definition sound (e : ZenzEvaluator) : Prop :=
  cache_all sound_verdict (evaluations e) ∧
  cache_all (λ prompt tokens, answers (tokenize_for_model (M:=M) prompt true) (Return tokens))
    (prompt_tokens e).

Definition related (s : ZenzEvaluator * M) (t : ustring * M) : Prop :=
  sound s.1 ∧ previous_evaluation_prompt s.1 = t.1.

Lemma compute_deterministic request prompt t reuses : deterministic (compute (M:=M) request prompt t reuses).
Proof.
  apply agree_bind; [apply tokenize_for_model_deterministic|]. intros tokens.
  apply agree_bind; [apply count_addressed_tokens_deterministic|]. intros n.
  apply evaluate_candidate_tokens_deterministic.
Qed.

Lemma tokens_of_prompt_agrees prompt :
  agree related (tokens_of_prompt (M:=M) prompt) (on_snd (tokenize_for_model prompt true)).
Proof.
  intros [e m] [p m'] [[Hv Ht] Hp]. simpl in *. unfold tokens_of_prompt, mbind, action_bind. simpl.
  destruct (tokenize_for_model_deterministic prompt true m m' I) as [_ Ha].
  pose proof (cache_get_all _ prompt _ Ht) as Ht'. pose proof (λ v, cache_get_found _ prompt _ v Ht) as Hf.
  destruct (cache_get prompt (prompt_tokens e)) as [c [tokens|]]; simpl in *.
  - specialize (Hf _ eq_refl m'). destruct (tokenize_for_model prompt true m') as [m2 r]. simpl in *.
    by subst r.
  - pose proof (deterministic_answers _ m (tokenize_for_model_deterministic prompt true)) as Hans.
    destruct (tokenize_for_model prompt true m) as [m1 r1], (tokenize_for_model prompt true m') as [m2 r2].
    simpl in *. subst r2. destruct r1 as [tokens|err|]; simpl; split; try done; split; try done.
    split; [done|]. simpl. by apply cache_insert_all.
Qed.

(** The body of a miss. *)
Lemma miss_agrees request prompt candidate_text reuses :
  agree related
    (tokens ← tokens_of_prompt prompt; n ← on_snd (count_addressed_tokens request reuses);
     on_snd (evaluate_candidate_tokens request tokens candidate_text n))
    (on_snd (compute (M:=M) request prompt candidate_text reuses)).
Proof.
  assert (Hsnd : same_action (on_snd (S:=ustring) (compute (M:=M) request prompt candidate_text reuses))
    (tokens ← on_snd (tokenize_for_model prompt true); n ← on_snd (count_addressed_tokens request reuses);
     on_snd (evaluate_candidate_tokens request tokens candidate_text n))).
  { apply same_action_spec. intros [p m]. unfold compute, mbind, action_bind. simpl.
    destruct (tokenize_for_model prompt true m) as [m1 [tokens|err|]]; [|done..]. simpl.
    destruct (count_addressed_tokens request reuses m1) as [m2 [n|err|]]; done. }
  rewrite same_action_spec in Hsnd. intros s t Hst. rewrite Hsnd. revert s t Hst.
  change (agree related
    (tokens ← tokens_of_prompt prompt; n ← on_snd (count_addressed_tokens request reuses);
     on_snd (evaluate_candidate_tokens request tokens candidate_text n))
    (tokens ← on_snd (tokenize_for_model (M:=M) prompt true);
     n ← on_snd (count_addressed_tokens request reuses);
     on_snd (evaluate_candidate_tokens request tokens candidate_text n))).
  apply agree_bind; [apply tokens_of_prompt_agrees|]. intros tokens.
  apply agree_bind; [apply agree_on_snd; [apply count_addressed_tokens_deterministic|done]|]. intros n.
  apply agree_on_snd; [apply evaluate_candidate_tokens_deterministic|done].
Qed.

(** A verdict computed for a request without personalization may be kept. *)
Lemma computed_sound request prompt candidate_text reuses v m :
  personalization request = None →
  (compute (M:=M) request prompt candidate_text reuses m).2 = Return v →
  sound_verdict (evaluation_key request prompt candidate_text reuses) v.
Proof.
  intros Hp Hv r' p' t' b' Hp' Hk m'.
  pose proof (compute_key r' request p' prompt t' candidate_text b' reuses) as Hkey.
  rewrite same_action_spec in Hkey. rewrite Hkey by (by rewrite ?Hp, ?Hp').
  rewrite <- Hv. by apply deterministic_answers, compute_deterministic.
Qed.

(** A lookup in the cache of evaluations keeps the evaluator as it was but for the use
    of the cache, and finds only what the model would answer. *)
Lemma lookup_sound request prompt text' reuses e (m : M) :
  cache_all sound_verdict (evaluations e) →
  cache_all (λ prompt tokens, answers (tokenize_for_model (M:=M) prompt true) (Return tokens)) (prompt_tokens e) →
  ∃ e' r, cached_evaluation (M:=M)
      (match personalization request with
       | None => Some (evaluation_key request prompt text' reuses) | Some _ => None end) (e, m)
    = ((e', m), Return r) ∧ sound e' ∧
    previous_evaluation_prompt e' = previous_evaluation_prompt e ∧ prompt_tokens e' = prompt_tokens e ∧
    ∀ v, r = Some v → personalization request = None ∧
      sound_verdict (evaluation_key request prompt text' reuses) v.
Proof.
  intros Hv Ht. unfold cached_evaluation. destruct (personalization request) eqn:Hp.
  - by eexists e, None.
  - pose proof (cache_get_all _ (evaluation_key request prompt text' reuses) _ Hv) as Hall.
    pose proof (λ v, cache_get_found _ (evaluation_key request prompt text' reuses) _ v Hv) as Hfound.
    destruct cache_get as [c r]. simpl in *. eexists _, r. split_and!; try done. intros v ->. eauto.
Qed.

Lemma evaluate_as_is_agrees request :
  agree related (evaluate_as_is (M:=M) request) (uncached_as_is request).
Proof.
  unfold evaluate_as_is, uncached_as_is. apply agree_bind; [apply agree_lift|]. intros prompt.
  set (text' := candidate_text_for_evaluation _ _ _ _).
  apply agree_bind.
  { intros [e m] [p m'] [Hs Hp]. simpl in *. by subst p. }
  intros previous. set (reuses := bool_decide _ && _).
  apply agree_bind.
  { intros [e m] [p m'] [Hs Hp]. done. }
  intros _ [e m] t [[Hv Ht] Hprev]. simpl in Hv, Ht, Hprev.
  set (key := match personalization request with None => _ | Some _ => _ end).
  destruct (lookup_sound request prompt text' reuses e m Hv Ht) as (e' & r & Hrun & Hs' & Hprev' & Htok & Hhit).
  fold key in Hrun.
  rewrite (run_bind _ _ _ _ _ Hrun). clear Hrun. destruct r as [v|].
  - destruct (Hhit v eq_refl) as [Hp Hsound]. destruct t as [p m']. simpl in Hprev |- *.
    pose proof (Hsound request prompt text' reuses Hp eq_refl m') as Hans.
    destruct (compute request prompt text' reuses m') as [m2 r]. simpl in *. subst r.
    split; [split|reflexivity]; [exact Hs'|simpl; congruence].
  - assert (Hrel : related (e', m) t) by (split; [exact Hs'|simpl; congruence]).
    destruct (miss_agrees request prompt text' reuses (e', m) t Hrel) as [Hrel' Hans].
    assert (Hsound : ∀ v, (on_snd (compute (M:=M) request prompt text' reuses) t).2 = Return v →
      personalization request = None → sound_verdict (evaluation_key request prompt text' reuses) v).
    { intros v Hv' Hp. destruct t as [p m']. eapply (computed_sound _ _ _ _ v m'); [done|].
      simpl in Hv'. by destruct (compute request prompt text' reuses m'). }
    clear Hhit Hrel Hs'. revert Hrel' Hans Hsound.
    generalize (on_snd (compute (M:=M) request prompt text' reuses) t) as n.
    unfold mbind, action_bind. intros [t' o] Hrel' Hans Hsound. simpl in Hrel', Hans, Hsound |- *.
    destruct (tokens_of_prompt prompt (e', m)) as [s1 [tokens|err|]]; simpl in *; [|by subst o..].
    destruct (on_snd (count_addressed_tokens request reuses) s1) as [s2 [n|err|]]; simpl in *;
      [|by subst o..].
    destruct (on_snd (evaluate_candidate_tokens request tokens text' n) s2) as [[e3 m3] [v|err|]];
      simpl in *; [|by subst o..]. subst o.
    subst key. destruct (personalization request) eqn:Hp; simpl; [done|].
    split; [|done]. destruct Hrel' as [[Hv3 Ht3] Hp3]. split; [|done]. split; [|done].
    simpl. apply cache_insert_all; [done|]. by apply Hsound.
Qed.

(** Both evaluators handle the fixed prefix in the same way. *)
Lemma evaluate_agrees request : agree related (evaluate (M:=M) request) (uncached_evaluate request).
Proof.
  unfold evaluate, uncached_evaluate, evaluate_with.
  destruct fixed_prefix; [|apply evaluate_as_is_agrees].
  destruct ignores_fixed_prefix; [apply evaluate_as_is_agrees|].
  repeat first [apply evaluate_as_is_agrees | agree_step].
Qed.

Lemma default_related (m m' : M) : related (default_evaluator, m) ([], m').
Proof. split; [split|done]; apply cache_all_new. Qed.
End simulation.
