(* ===== verification/ZenzProperties.v ===== *)
(** * Properties of the candidate evaluation and the input prediction

    The theorems on src/crates/converter/src/zenz.rs, and their witnesses on a
    small model with a state: it counts the calls it answers. *)

From S2P Require Import Prelude Unicode F32 Dictionary Constraint Composing Lattice Action Utf8 LruCache Zenz ZenzEvaluator ZenzEvaluatorSpec ZenzCache.

(** ** The meaning of a verdict *)

Section verdict.
Context `{Segmentation} `{Libm} {M : Type} `{ZenzLanguageModel M}.
Context (request : ZenzEvaluationRequest) (priorities logits : list f32).
Context (vocabulary addressed : nat) (tokens : list token) (eos : token) (piece : token → list byte).

(** The logits of position [i], after the first [addressed] ones, personalized. *)
Definition row (i : nat) : list f32 :=
  take vocabulary (drop ((i - addressed) * vocabulary) logits).
Definition evaluated (i : nat) : list f32 :=
  default (row i) (personalized_logits (row i) (take i tokens) (personalization request)).
Definition best (i : nat) : nat := strict_argmax (evaluated i).
Definition best_logit (i : nat) : f32 := default zero (evaluated i !! best i).

(** The candidate's token at [i] is the model's choice, or a learned word lifts it above that. *)
Definition chosen (i : nat) : Prop := ∃ t, tokens !! i = Some t ∧ t = Z.of_nat (best i).
Definition lifted (i : nat) : Prop := ∃ t l p, tokens !! i = Some t ∧
  evaluated i !! Z.to_nat t = Some l ∧ priorities !! i = Some p ∧ feq p zero = false ∧
  fle (fadd l p) (best_logit i) = false ∧ Z.of_nat (best i) ≠ eos.
Definition accepted (i : nat) : Prop := chosen i ∨ lifted i.

(** The bytes of the tokens before position [i]. *)
Definition bytes_before (i : nat) : list byte := concat (piece <$> take i tokens).

(** The verdict of a scan that reaches position [i]. *)
Definition verdict_from (i : nat) (score : f32) (v : CandidateEvaluation) : Prop :=
  match v with
  | Pass s _ => (∀ j, i ≤ j < length tokens → accepted j) ∧
                s = foldl fadd score (best_logit <$> seq i (length tokens - i))
  | FixRequired bytes => ∃ j, i ≤ j < length tokens ∧ (∀ k, i ≤ k < j → accepted k) ∧
      ¬ accepted j ∧ Z.of_nat (best j) ≠ eos ∧ bytes = bytes_before j ++ piece (Z.of_nat (best j))
  | WholeResult s => ∃ j, i ≤ j < length tokens ∧ (∀ k, i ≤ k < j → accepted k) ∧
      ¬ accepted j ∧ Z.of_nat (best j) = eos ∧ s = default [] (from_utf8 (bytes_before j))
  end.

Context (Heos : ∀ m : M, eos_token m = eos).
Context (Hpiece : ∀ t, answers (token_to_piece (M:=M) t) (Return (piece t))).
Context (Hvocabulary : (Z.of_nat vocabulary < 2 ^ 31)%Z).

Lemma bytes_before_S i t : tokens !! i = Some t → bytes_before (S i) = bytes_before i ++ piece t.
Proof. intros Ht. unfold bytes_before. rewrite (take_S_r _ _ _ Ht), fmap_app, concat_app. simpl.
  by rewrite app_nil_r. Qed.

(** A scan from the next position continues one that accepts this one. *)
Lemma verdict_step i score v :
  i < length tokens → accepted i → verdict_from (S i) (fadd score (best_logit i)) v → verdict_from i score v.
Proof.
  intros Hi Ha. assert (Hk : ∀ j, (∀ k, S i ≤ k < j → accepted k) → ∀ k, i ≤ k < j → accepted k).
  { intros j Hj k Hk. destruct (decide (k = i)) as [->|]; [done|]. apply Hj. lia. }
  destruct v as [s alternatives|bytes|s]; simpl.
  - intros [Hall ->]. split; [by apply Hk|].
    replace (length tokens - i) with (S (length tokens - S i)) by lia. done.
  - intros (j & Hj & Hall & ?). exists j. split; [lia|]. split; [by apply Hk|done].
  - intros (j & Hj & Hall & ?). exists j. split; [lia|]. split; [by apply Hk|done].
Qed.

Lemma piece_Return t s s' b : token_to_piece t s = (s', Return b) → b = piece t.
Proof. intros Hb. pose proof (Hpiece t s) as Ha. rewrite Hb in Ha. by simplify_eq/=. Qed.

Lemma i32_of_best j m : i32_of_usize (best j) = Some m → m = Z.of_nat (best j).
Proof. unfold i32_of_usize. case_decide; intros; by simplify_eq. Qed.

Lemma usize_of_token t i : usize_of_i32 t = Some i → t = Z.of_nat i ∧ Z.to_nat t = i.
Proof. unfold usize_of_i32. case_decide; intros; simplify_eq. split; lia. Qed.

Lemma best_lt i maximum :
  i < length tokens → evaluated i !! best i = Some maximum → length (row i) = vocabulary →
  i32_of_usize (best i) = Some (Z.of_nat (best i)).
Proof using Hvocabulary.
  intros Hi Hb%lookup_lt_Some Hr. unfold i32_of_usize. rewrite decide_True; [done|].
  assert (length (evaluated i) = vocabulary); [|lia].
  unfold evaluated. destruct (personalized_logits _ _ _) eqn:E; [|done].
  apply personalized_logits_length in E. simpl. lia.
Qed.

(** Rejecting a position and asking for the model's token instead. *)
Lemma rejection i s s' v :
  i32_of_usize (best i) = Some (Z.of_nat (best i)) →
  (t ← or_raise exceeds_i32 (i32_of_usize (best i)); p ← token_to_piece t;
   mret (FixRequired (bytes_before i ++ p))) s = (s', Return v) →
  v = FixRequired (bytes_before i ++ piece (Z.of_nat (best i))).
Proof using Hpiece.
  intros Hi Hrun. rewrite Hi in Hrun. simpl in Hrun.
  apply bind_Return in Hrun as (s1 & t & Hr & Hrun). unfold mret, action_ret in Hr. injection Hr as <- <-.
  apply bind_Return in Hrun as (s1 & b & Hr%piece_Return & Hrun). unfold mret, action_ret in Hrun.
  by simplify_eq.
Qed.

(** What the scan does at a position after it has read the logits *)
Definition rejects (i : nat) (t : token) : action M ZenzInferenceError bool :=
  if bool_decide (best i = Z.to_nat t) then mret false
  else if feq (default zero (priorities !! i)) zero then mret true
  else candidate_logit ← expect (evaluated i !! Z.to_nat t);
       mret (fle (fadd candidate_logit (default zero (priorities !! i))) (best_logit i)).

Definition judge (i : nat) (t : token) (rest : list token) (score : f32) (alternatives : list AlternativeConstraint) :
    action M ZenzInferenceError CandidateEvaluation :=
  if negb (bool_decide (best i = Z.to_nat t)) && bool_decide (i32_of_usize (best i) = Some eos) then
    mret (WholeResult (default [] (from_utf8 (bytes_before i))))
  else
    rejected ← rejects i t;
    if (rejected : bool) then
      t ← or_raise exceeds_i32 (i32_of_usize (best i));
      p ← token_to_piece t;
      mret (FixRequired (bytes_before i ++ p))
    else
      new ← (if request_rich_candidates request && bool_decide (best i = Z.to_nat t)
             then rich_alternatives (evaluated i) (best i) (best_logit i) (bytes_before i)
             else mret []);
      p ← token_to_piece t;
      evaluate_tokens request priorities logits vocabulary addressed (take i tokens ++ [t]) rest
        (fadd score (best_logit i)) (alternatives ++ new) (bytes_before i ++ p).

(** A scan that gets past the reading of a position judges it. *)
Lemma scan_judges i t rest score alternatives s s' v :
  i < length tokens → addressed ≤ i →
  evaluate_tokens request priorities logits vocabulary addressed (take i tokens) (t :: rest) score alternatives
    (bytes_before i) s = (s', Return v) →
  t = Z.of_nat (Z.to_nat t) ∧ i32_of_usize (best i) = Some (Z.of_nat (best i)) ∧
  judge i t rest score alternatives s = (s', Return v).
Proof using Heos Hvocabulary.
  intros Hlen Ha Hrun. cbn [evaluate_tokens] in Hrun.
  rewrite length_take, Nat.min_l, usub_ok in Hrun by lia.
  apply bind_Return in Hrun as (s1 & start & [= <- <-] & Hrun).
  apply bind_Return in Hrun as (s1 & row' & Hr & Hrun). unfold expect, lift in Hr.
  injection Hr as <- Hr. apply panicking_Return in Hr. unfold slice in Hr. case_decide; [|done].
  replace ((i - addressed) * vocabulary + vocabulary - (i - addressed) * vocabulary) with vocabulary
    in Hr by lia. injection Hr as <-.
  fold (row i) in Hrun. fold (evaluated i) in Hrun. fold (best i) in Hrun.
  apply bind_Return in Hrun as (s1 & maximum & Hr & Hrun). unfold expect, lift in Hr.
  injection Hr as <- Hbest. apply panicking_Return in Hbest.
  assert (Hbl : best_logit i = maximum) by (unfold best_logit; by rewrite Hbest). rewrite <- Hbl in Hrun.
  apply bind_Return in Hrun as (s1 & index & Hr & Hrun).
  destruct (usize_of_i32 t) as [index'|] eqn:Hu; [|done]. cbn in Hr. case_decide as Hlt; [|done].
  cbn in Hr. unfold mret, action_ret in Hr. injection Hr as <- <-.
  apply usize_of_token in Hu as [Hti <-].
  apply bind_Return in Hrun as (s1 & eos' & Hr & Hrun). unfold gets in Hr. rewrite Heos in Hr.
  injection Hr as <- <-. split_and!; [done| |exact Hrun].
  eapply best_lt; [done..|]. unfold row. rewrite length_take, length_drop. lia.
Qed.

(** The model's choice is not rejected, and another token only when no learned word
    lifts it above that choice. *)
Lemma rejects_spec i t s s' rejected :
  tokens !! i = Some t → t = Z.of_nat (Z.to_nat t) → Z.of_nat (best i) ≠ eos ∨ best i = Z.to_nat t →
  rejects i t s = (s', Return rejected) → rejected = false ↔ accepted i.
Proof.
  intros Ht Hti Hne. unfold rejects. case_bool_decide as Hb.
  { intros [= <- <-]. split; [|done]. intros _. left. exists t. split; [done|]. by rewrite Hb. }
  destruct Hne as [Hne|]; [|done].
  assert (Hnot : ¬ chosen i) by (intros (t' & Ht' & Heq); simplify_eq; lia).
  destruct (priorities !! i) as [p|] eqn:Hp; simpl.
  - destruct (feq p zero) eqn:Hz.
    { intros [= <- <-]. split; [done|]. intros [?|(t' & l & p' & _ & _ & Hp' & Hz' & _)]; [done|]. congruence. }
    intros (s1 & l & Hl & Hr)%bind_Return. unfold expect, lift in Hl. injection Hl as _ Hl.
    apply panicking_Return in Hl. injection Hr as _ <-. split.
    + intros Hf. right. by exists t, l, p.
    + intros [?|(t' & l' & p' & Ht' & Hl' & Hp' & _ & Hf & _)]; [done|]. by simplify_eq.
  - intros [= <- <-]. split; [done|].
    intros [?|(t' & l & p' & _ & _ & Hp' & _)]; [done|]. congruence.
Qed.

Lemma evaluate_tokens_verdict rest : ∀ i score alternatives s s' v,
  drop i tokens = rest → i ≤ length tokens → addressed ≤ i →
  evaluate_tokens request priorities logits vocabulary addressed (take i tokens) rest score alternatives
    (bytes_before i) s = (s', Return v) →
  verdict_from i score v.
Proof.
  induction rest as [|t rest IH]; intros i score alternatives s s' v Hrest Hi Ha Hrun.
  { apply (f_equal length) in Hrest. rewrite length_drop in Hrest. simpl in Hrest.
    cbn [evaluate_tokens] in Hrun. unfold mret, action_ret in Hrun. simplify_eq. split; [lia|].
    by replace (length tokens - i) with 0 by lia. }
  assert (Ht : tokens !! i = Some t) by (by rewrite <- (Nat.add_0_r i), <- lookup_drop, Hrest).
  assert (Hlen : i < length tokens) by (by eapply lookup_lt_Some).
  apply scan_judges in Hrun as (Hti & Hi32 & Hrun); [|done..]. unfold judge in Hrun.
  destruct (negb _ && _) eqn:Hstop.
  { apply andb_prop in Hstop as [Hb%negb_true_iff%bool_decide_eq_false He%bool_decide_eq_true].
    rewrite Hi32 in He. injection He as He. injection Hrun as <- <-.
    exists i. split_and!; [lia|lia|lia| |done|done].
    intros [(t' & Ht' & Heq)|(t' & l & p & _ & _ & _ & _ & _ & Hne)]; [simplify_eq; lia|done]. }
  assert (Hne : Z.of_nat (best i) ≠ eos ∨ best i = Z.to_nat t).
  { apply andb_false_iff in Hstop as [Hb%negb_false_iff%bool_decide_eq_true|He%bool_decide_eq_false]; [by right|left].
    intros He'. apply He. by rewrite Hi32, He'. }
  apply bind_Return in Hrun as (s2 & rejected & Hr & Hrun).
  pose proof (rejects_spec i t s s2 rejected Ht Hti Hne Hr) as Hacc. destruct rejected.
  - apply rejection in Hrun as ->; [|done]. exists i. split_and!; [lia|lia|lia| | |done].
    + intros Hc%Hacc. done.
    + destruct Hne as [|Hb]; [done|]. exfalso. unfold rejects in Hr. by rewrite (bool_decide_eq_true_2 _ Hb) in Hr.
  - apply bind_Return in Hrun as (s3 & new & _ & (s4 & b & ->%piece_Return & Hrun)%bind_Return).
    apply verdict_step; [done|by apply Hacc|].
    rewrite <- (take_S_r _ _ _ Ht), <- (bytes_before_S i t Ht) in Hrun.
    eapply IH; [|lia|lia|exact Hrun]. rewrite (drop_S _ _ _ Ht) in Hrest. by injection Hrest as -> .
Qed.

(** The pieces of the addressed tokens. *)
Lemma pieces_concat ts : ∀ bytes s s' v,
  for_each (λ prefix t, p ← token_to_piece t; mret (prefix ++ p)) bytes ts s = (s', Return v) →
  v = bytes ++ concat (piece <$> ts).
Proof using Hpiece.
  induction ts as [|t ts IH]; intros bytes s s' v Hrun.
  { unfold for_each, mret, action_ret in Hrun. simplify_eq. simpl. by rewrite app_nil_r. }
  cbn [for_each] in Hrun. apply bind_Return in Hrun as (s1 & b & Hr & Hrun).
  apply bind_Return in Hr as (s2 & p & Hp%piece_Return & Hr). unfold mret, action_ret in Hr. simplify_eq.
  apply IH in Hrun as ->. csimpl. by rewrite <- app_assoc.
Qed.
End verdict.

(** ** A model for the witnesses

    A token is a character of ASCII; the model expects the next letter. *)

Definition counted {A} (a : A) : action nat ZenzInferenceError A := λ calls, (S calls, Return a).

Definition letter_row (t : token) : list f32 :=
  imap (λ i _, if decide (Z.of_nat i = (t + 1) mod 128)%Z then of_nat 1 else zero) (replicate 128 tt).

Definition letter_logits (tokens : list token) : action nat ZenzInferenceError (list f32) :=
  counted (letter_row (default 0%Z (last tokens))).

Definition letters : ZenzLanguageModel nat :=
  {| vocabulary_size _ := 128;
     eos_token _ := 0%Z;
     tokenize value _ := counted ((λ c, Z.of_N (c mod 128)) <$> value);
     token_to_piece t := counted [Z.to_N t];
     next_logits := letter_logits;
     logits_for_suffix := default_logits_for_suffix (λ _, 128) letter_logits |}.

#[local] Existing Instance letters.
#[local] Existing Instance scalar_clusters.
#[local] Instance identity_libm : Libm := {| f32_exp x := x; f32_ln x := x |}.

Lemma counted_total {A} (a : A) : never_panics (counted a).
Proof. done. Qed.
Lemma counted_deterministic {A} (a : A) : deterministic (counted a).
Proof. done. Qed.

#[local] Instance letters_total : ModelTotal nat.
Proof.
  split; intros; try apply counted_total.
  cbn [logits_for_suffix letters]. unfold default_logits_for_suffix, letter_logits. never_panic.
  all: apply counted_total.
Qed.

#[local] Instance letters_deterministic : ModelDeterministic nat.
Proof.
  split; intros; try done; try apply counted_deterministic.
  cbn [logits_for_suffix letters]. unfold default_logits_for_suffix, letter_logits.
  case_decide; [apply agree_raise|]. apply agree_bind; [by apply agree_gets|]. intros v.
  apply agree_for_each. intros b a. apply agree_bind; [apply counted_deterministic|]. intros row.
  case_decide; [apply agree_raise|apply agree_ret].
Qed.

Definition letters_candidate (t : ustring) : Candidate :=
  {| text := t; cand_value := zero; composing_count := CInput 0;
     last_meaning_id := 0; entries := []; ruby_count := 0; is_learning_target := false;
     is_typo_correction := false; first_clause := None |}.

Definition letters_request (t : ustring) (c : PrefixConstraint) : ZenzEvaluationRequest :=
  {| req_input := u "a"; input_cursor_position := None; candidate := letters_candidate t;
     request_rich_candidates := false; prefix_constraint := c; personalization := None;
     version := default_version |}.

(** The prompt ends with the character 0xEE01, whose token is 1: the model
    expects 2, 3, 4 after it. *)
Definition expected_text : ustring := [2; 3; 4]%N.
Definition wrong_text : ustring := [2; 3; 9]%N.

Example letters_verdicts :
  (evaluate_candidate (letters_request expected_text (constraint_new [])) 0).2
    = Return (Pass (of_nat 3) []) ∧
  (evaluate_candidate (letters_request wrong_text (constraint_new [])) 0).2
    = Return (FixRequired [2; 3; 4]%N).
Proof. by vm_compute. Qed.

(** ** Safety *)

Section generation.
Context `{Segmentation} `{Libm} {M : Type} `{ModelTotal M}.
Implicit Types request : ZenzInputGenerationRequest.

(** A chosen character extends the prediction to an allowed one. *)
Definition choice_ok (nexts : list ustring) (predicted : ustring) (c : Choice) : Prop :=
  ∀ character, best_character c = Some character →
  best_next_text c = predicted ++ character ∧ is_allowed nexts (best_next_text c) = true.

Lemma consider_ok nexts penalties predicted c il :
  choice_ok nexts predicted c →
  hoare (λ _, True) (consider (M:=M) nexts penalties predicted c il)
    (λ c' _, choice_ok nexts predicted c') (λ _, True).
Proof.
  intros Hc. unfold consider. destruct il as [index logit]. unfold or_raise.
  destruct (i32_of_usize index) as [t|]; [|by apply hoare_raise].
  apply (hoare_bind _ _ _ (λ _ _, True)); [by apply hoare_ret|]. intros a.
  destruct (fle _ _); [by apply hoare_ret|].
  apply (hoare_bind _ _ _ (λ _ _, True)); [apply token_to_piece_total|]. intros piece.
  destruct (from_utf8 piece) as [p|]; [|by apply hoare_ret].
  destruct (graphemes p) as [|character rest]; [by apply hoare_ret|].
  destruct (is_allowed nexts (predicted ++ character)) eqn:Ha; simpl; [|by apply hoare_ret].
  apply hoare_ret. intros _ _ ch. simpl. intros [= <-]. done.
Qed.

(** A prediction of at most [n] clusters, allowed when there is any. *)
Definition prediction_ok (nexts : list ustring) (n : nat) (s : ustring) : Prop :=
  (∃ clusters : list Grapheme, s = concat clusters ∧ length clusters ≤ n) ∧
  (s ≠ [] → is_allowed nexts s = true).

Lemma prediction_mono nexts n n' s : n ≤ n' → prediction_ok nexts n s → prediction_ok nexts n' s.
Proof. intros Hn [(cs & -> & Hc) Ha]. split; [|done]. exists cs. split; [done|lia]. Qed.

Lemma generate_ok request vocabulary minimum remaining : ∀ prompt_tokens predicted predicted_count,
  prediction_ok (possible_nexts request) predicted_count predicted →
  hoare (λ _, True) (generate (M:=M) remaining request vocabulary minimum prompt_tokens predicted predicted_count)
    (λ s _, prediction_ok (possible_nexts request) (predicted_count + remaining) s) (λ _, True).
Proof.
  induction remaining as [|remaining IH]; intros tokens predicted n Hp; cbn [generate].
  { apply hoare_ret. intros _ _. by rewrite Nat.add_0_r. }
  assert (Hkeep : ∀ P : M → Prop, hoare P (mret predicted : action M ZenzInferenceError _)
    (λ s _, prediction_ok (possible_nexts request) (n + S remaining) s) (λ _, True)).
  { intros P. apply hoare_ret. intros _ _. eapply prediction_mono; [|done]. lia. }
  apply (hoare_bind _ _ _ (λ _ _, True)); [apply next_logits_total|]. intros logits.
  case_decide; [by apply hoare_raise|].
  apply (hoare_bind _ _ _ (λ c _, choice_ok (possible_nexts request) predicted c)).
  { apply (hoare_mono _ (λ s, choice_ok (possible_nexts request) predicted no_choice) _ _
             (λ c _, choice_ok (possible_nexts request) predicted c)); [|done|done].
    apply (hoare_for_each (λ c _, choice_ok (possible_nexts request) predicted c)).
    intros c il _ s Hc. by apply (consider_ok _ _ _ _ _ Hc s I). }
  intros c. destruct (stops _ _ _ _); [apply Hkeep|].
  destruct (best_character c) as [character|] eqn:Hch; [|apply Hkeep].
  destruct (_ && _); [apply Hkeep|]. intros s Hc. destruct (Hc _ Hch) as [Hnext Hallowed].
  assert (Hp' : prediction_ok (possible_nexts request) (S n) (best_next_text c)).
  { destruct Hp as [(cs & -> & Hlen) _]. split; [|done]. exists (cs ++ [character]).
    rewrite Hnext, concat_app, length_app. simpl. rewrite app_nil_r. split; [done|lia]. }
  revert s Hc.
  apply (hoare_mono _ (λ _, True) _ _
    (λ s _, prediction_ok (possible_nexts request) (n + S remaining) s)); [|done|done].
  apply (hoare_bind _ _ _ (λ _ _, True)); [apply tokenize_for_model_total|]. intros appended.
  case_decide.
  - apply hoare_ret. intros _ _. eapply prediction_mono; [|done]. lia.
  - rewrite <- Nat.add_succ_comm. by apply IH.
Qed.

Lemma generate_next_input_ok request :
  hoare (λ _, True) (generate_next_input (M:=M) request)
    (λ s _, prediction_ok (possible_nexts request) (gen_count request) s) (λ _, True).
Proof.
  assert (Hempty : ∀ n, prediction_ok (possible_nexts request) n []).
  { intros n. split; [|done]. exists []. split; [done|simpl; lia]. }
  unfold generate_next_input. case_decide; [by apply hoare_ret|].
  destruct input_prediction; [|by apply hoare_ret].
  apply (hoare_bind _ _ _ (λ _ _, True)); [apply tokenize_for_model_total|]. intros tokens.
  apply (hoare_bind _ _ _ (λ _ _, True)); [done|]. intros vocabulary.
  apply (generate_ok request vocabulary _ (gen_count request) tokens [] 0). apply Hempty.
Qed.

(** C35. Evaluating a candidate never panics, whatever the constraint, the fixed
    prefix, the cursor, the state of the caches and the answers of the model (an
    error of the model is returned): the byte offset of the fixed prefix is a
    character boundary, the cursor is not before it, and the logits have a row for
    every token that is looked at. *)
Theorem zenz_never_panics (request : ZenzEvaluationRequest) (evaluator : ZenzEvaluator) (model : M) :
  scalars (text (candidate request)) →
  (evaluate request (evaluator, model)).2 ≠ Panic.
Proof. intros Hs. by apply never_panics_spec, evaluate_total. Qed.

(** The predicted input returns or reports an error of the model; it has at
    most [count] clusters, and when the request names the possible continuations, a
    non-empty prediction is in katakana the beginning of one of them. *)
Theorem prediction_bounded_and_allowed request (model model' : M) s :
  generate_next_input request model = (model', Return s) →
  (∃ clusters : list Grapheme, s = concat clusters ∧ length clusters ≤ gen_count request) ∧
  (s ≠ [] → filter (λ p, p ≠ []) (possible_nexts request) ≠ [] →
   ∃ p, p ∈ possible_nexts request ∧ Kana.to_katakana s `prefix_of` p).
Proof.
  intros Hrun. pose proof (generate_next_input_ok request model I) as Hok. rewrite Hrun in Hok.
  destruct Hok as [Hlen Hallowed]. split; [done|]. intros Hs Hf. specialize (Hallowed Hs).
  unfold is_allowed in Hallowed. destruct (filter _ _) as [|p ps] eqn:E; [done|].
  apply existsb_exists in Hallowed as (q & Hq & Hp%bool_decide_eq_true). exists q. split; [|done].
  apply list_elem_of_In in Hq. rewrite <- E in Hq. by apply list_elem_of_filter in Hq as [_ ?].
Qed.
End generation.

(** C17. The caches of the evaluator are invisible. Over a model whose answers do
    not depend on its state, any sequence of requests gets from an evaluator
    the verdicts it would get from one without caches, which keeps only the
    previous prompt: neither the evaluations that are kept (with or without the
    addressed prefix, learned words, constraints) nor the tokens of prompts change a
    result. *)
Theorem evaluator_caches_invisible `{Segmentation} `{Libm} {M : Type} `{ModelDeterministic M}
    (requests : list ZenzEvaluationRequest) (model model' : M) :
  run_actions evaluate requests (default_evaluator, model) =
  run_actions uncached_evaluate requests ([], model').
Proof. apply (agree_run related); [apply evaluate_agrees|apply default_related]. Qed.

(** C29. A verdict says what the model prefers. With the answers the model gives:
    [Pass] is returned when the model accepts every token after the addressed ones
    (its first greatest logit, or a learned word that lifts a worse one) and the score
    is the sum of the greatest logits; [FixRequired] gives the bytes before the first
    token that is not accepted and the piece of the model's choice there;
    [WholeResult] the text before that token when the model ends there. *)
Theorem verdict_meaning `{Segmentation} `{Libm} {M : Type} `{ZenzLanguageModel M}
    (request : ZenzEvaluationRequest) (prompt tokens : list token) (candidate_text : ustring)
    (priorities logits : list f32) (vocabulary n : nat) (eos : token) (piece : token → list byte)
    (model model' : M) (v : CandidateEvaluation) :
  let addressed := Nat.min n (length tokens) in
  (Z.of_nat vocabulary < 2 ^ 31)%Z →
  (∀ m : M, vocabulary_size m = vocabulary) →
  (∀ m : M, eos_token m = eos) →
  (∀ t, answers (token_to_piece (M:=M) t) (Return (piece t))) →
  answers (tokenize_for_model (M:=M) candidate_text false) (Return tokens) →
  answers (learned_token_priorities (M:=M) (candidate request) tokens) (Return priorities) →
  answers (logits_for_suffix (M:=M) (prompt ++ take (length tokens - 1) tokens)
             (length prompt - 1 + addressed) Evaluation) (Return logits) →
  evaluate_candidate_tokens request prompt candidate_text n model = (model', Return v) →
  verdict_from request priorities logits vocabulary addressed tokens eos piece addressed zero v.
Proof.
  intros addressed Hv Hvoc Heos Hpiece Htok Hpri Hlog Hrun. unfold evaluate_candidate_tokens in Hrun.
  apply bind_Return in Hrun as (s1 & x & Hr & Hrun). pose proof (Htok model) as Ha. rewrite Hr in Ha.
  injection Ha as ->. clear Hr.
  apply bind_Return in Hrun as (s2 & x & Hr & Hrun). pose proof (Hpri s1) as Ha. rewrite Hr in Ha.
  injection Ha as ->. clear Hr.
  apply bind_Return in Hrun as (s3 & x & Hr & Hrun). unfold gets in Hr. rewrite Hvoc in Hr.
  injection Hr as <- <-. fold addressed in Hrun.
  apply bind_Return in Hrun as (s4 & bytes & Hr & Hrun).
  assert (Hbytes : bytes = bytes_before tokens piece addressed).
  { eapply pieces_concat in Hr; [|exact Hpiece]. rewrite Hr. done. }
  clear Hr. subst bytes.
  assert (Hend : addressed = length tokens → v = Pass zero [] →
    verdict_from request priorities logits vocabulary addressed tokens eos piece addressed zero v).
  { intros Ha ->. split; [lia|]. by rewrite Ha, Nat.sub_diag. }
  case_decide as Hnil; [|case_decide; [done|case_decide as Hall]].
  - unfold mret, action_ret in Hrun. injection Hrun as _ <-. apply Hend; [|done].
    subst addressed. rewrite Hnil. simpl. lia.
  - unfold mret, action_ret in Hrun. injection Hrun as _ <-. by apply Hend.
  - apply bind_Return in Hrun as (s5 & x & Hr & Hrun). pose proof (Hlog s4) as Ha. rewrite Hr in Ha.
    injection Ha as ->. clear Hr.
    apply bind_Return in Hrun as (s6 & x & Hr & Hrun). case_decide; [done|].
    eapply (evaluate_tokens_verdict request priorities logits vocabulary addressed tokens eos piece);
      [done..| | | |exact Hrun]; [done| |done]. subst addressed. lia.
Qed.

(** ** Witnesses *)

Lemma zenz_never_panics_witness :
  (evaluate (M:=nat) (letters_request wrong_text (constraint_new [2%N])) (default_evaluator, 0)).2 ≠ Panic.
Proof.
  apply (zenz_never_panics (letters_request wrong_text (constraint_new [2%N])) default_evaluator 0).
  repeat constructor.
Defined.

Lemma evaluator_caches_invisible_witness :
  let requests := [letters_request expected_text (constraint_new []);
                   letters_request wrong_text (constraint_new [2%N]);
                   letters_request expected_text (constraint_new []);
                   letters_request expected_text (constraint_new [])] in
  run_actions (evaluate (M:=nat)) requests (default_evaluator, 0) =
    run_actions (uncached_evaluate (M:=nat)) requests ([], 7) ∧
  run_actions (evaluate (M:=nat)) requests (default_evaluator, 0) =
    [Return (Pass (of_nat 3) []); Return (FixRequired [2; 3; 4]%N); Return (Pass (of_nat 3) []);
     Return (Pass (of_nat 3) [])].
Proof.
  intros requests. split; [apply (evaluator_caches_invisible requests 0 7)|].
  vm_compute. reflexivity.
Defined.

Lemma verdict_meaning_witness :
  verdict_from (letters_request wrong_text (constraint_new [])) []
    (letter_row 1 ++ letter_row 2 ++ letter_row 3) 128 0 [2; 3; 9]%Z 0%Z (λ t, [Z.to_N t]) 0 zero
    (FixRequired [2; 3; 4]%N).
Proof.
  apply (verdict_meaning (M:=nat) (letters_request wrong_text (constraint_new [])) [1%Z] [2; 3; 9]%Z
           wrong_text [] (letter_row 1 ++ letter_row 2 ++ letter_row 3) 128 0 0%Z (λ t, [Z.to_N t])
           0 7 (FixRequired [2; 3; 4]%N)); try done; intros m; vm_compute; reflexivity.
Defined.

Definition letters_generation : ZenzInputGenerationRequest :=
  {| gen_left_context := []; composing_text := [97%N]; gen_count := 3; min_length := 1;
     max_entropy := None; gen_version := default_version; possible_nexts := [[98; 99; 100; 101]%N] |}.

Lemma prediction_bounded_and_allowed_witness :
  (∃ clusters : list Grapheme, [98; 99; 100]%N = concat clusters ∧ length clusters ≤ 3) ∧
  ([98; 99; 100]%N ≠ [] → filter (λ p, p ≠ []) (possible_nexts letters_generation) ≠ [] →
   ∃ p, p ∈ possible_nexts letters_generation ∧ Kana.to_katakana [98; 99; 100]%N `prefix_of` p).
Proof.
  eapply (prediction_bounded_and_allowed (M:=nat) letters_generation 0 _ [98; 99; 100]%N).
  vm_compute. reflexivity.
Defined.
