(* ===== verification/TextUtil.v ===== *)
(** * Searching, splitting and parsing text

    The functions of the standard library on [str], [char] and integers that
    template.rs, special.rs, foreign.rs and session.rs use. *)

From S2P Require Import Prelude Unicode.

(** ** Characters *)

Definition is_ascii_digit (c : char) : bool := in_range 48 57 c.
Definition is_ascii_uppercase (c : char) : bool := in_range 65 90 c.
Definition is_ascii_lowercase (c : char) : bool := in_range 97 122 c.
Definition is_ascii_letter (c : char) : bool := is_ascii_uppercase c || is_ascii_lowercase c.
Definition is_ascii_alphanumeric (c : char) : bool := is_ascii_letter c || is_ascii_digit c.
(** [u8::is_ascii_whitespace]: space, tab, line feed, form feed, carriage return *)
Definition is_ascii_whitespace (c : char) : bool := bool_decide (c ∈ [32; 9; 10; 12; 13]%N).

(** ** Search *)

Definition starts_with (p s : ustring) : bool := bool_decide (p `prefix_of` s).

(** [str::strip_prefix] *)
Definition strip_prefix (p s : ustring) : option ustring :=
  if decide (p `prefix_of` s) then Some (drop (length p) s) else None.

(** [str::ends_with] and [str::strip_suffix] *)
Definition ends_with (p s : ustring) : bool := bool_decide (p `suffix_of` s).
Definition strip_suffix (p s : ustring) : option ustring :=
  if decide (p `suffix_of` s) then Some (take (length s - length p) s) else None.

(** [str::find], as the number of characters before the first occurrence *)
Fixpoint find_str (p s : ustring) : option nat :=
  if decide (p `prefix_of` s) then Some 0
  else match s with
       | [] => None
       | _ :: s' => S <$> find_str p s'
       end.

(** [str::replace]: the occurrences from the left that do not overlap *)
Fixpoint replace_from (p to : ustring) (skip : nat) (s : ustring) : ustring :=
  match s with
  | [] => []
  | c :: s' =>
      match skip with
      | S skip => replace_from p to skip s'
      | O => if decide (p `prefix_of` s) then to ++ replace_from p to (length p - 1) s'
             else c :: replace_from p to 0 s'
      end
  end.
Definition replace_str (p to s : ustring) : ustring := replace_from p to 0 s.

(** [str::rsplit_once(c)] *)
Fixpoint rsplit_once (c : char) (s : ustring) : option (ustring * ustring) :=
  match s with
  | [] => None
  | x :: s' => match rsplit_once c s' with
               | Some (l, r) => Some (x :: l, r)
               | None => if (x =? c)%N then Some ([], s') else None
               end
  end.

(** [str::split_ascii_whitespace] *)
Fixpoint split_whitespace (s : ustring) : list ustring :=
  match s with
  | [] => []
  | c :: s' =>
      if is_ascii_whitespace c then split_whitespace s'
      else match s' with
           | [] => [[c]]
           | d :: _ => if is_ascii_whitespace d then [c] :: split_whitespace s'
                       else match split_whitespace s' with
                            | [] => [[c]]
                            | w :: ws => (c :: w) :: ws
                            end
           end
  end.

(** ** Integers *)

(** [char::to_digit(radix)], for a radix of at most 16 *)
Definition to_digit (radix : N) (c : char) : option N :=
  let d := if is_ascii_digit c then Some (c - 48)%N
           else if in_range 97 102 c then Some (c - 87)%N
           else if in_range 65 70 c then Some (c - 55)%N
           else None in
  d ← d; if decide (d < radix)%N then Some d else None.

Definition digits_value (radix : N) (s : ustring) : option Z :=
  foldl (λ acc c, a ← acc; d ← to_digit radix c; Some (a * Z.of_N radix + Z.of_N d)%Z) (Some 0%Z) s.

(** [from_str_radix] of an integer type with the given least and greatest values:
    a sign is allowed before digits, a minus sign for signed types only. *)
Definition parse_int (radix : N) (least greatest : Z) (s : ustring) : option Z :=
  '(negative, digits) ← match s with
                        | [] => None
                        | c :: digits =>
                            if decide (digits ≠ [] ∧ c = 43%N) then Some (false, digits)
                            else if decide (digits ≠ [] ∧ c = 45%N ∧ (least < 0)%Z)
                            then Some (true, digits) else Some (false, s)
                        end;
  v ← digits_value radix digits;
  let v := if (negative : bool) then (- v)%Z else v in
  if decide (least ≤ v ≤ greatest)%Z then Some v else None.

Definition parse_i64 : ustring → option Z := parse_int 10 (- 2 ^ 63) (2 ^ 63 - 1).
Definition parse_i32 : ustring → option Z := parse_int 10 (- 2 ^ 31) (2 ^ 31 - 1).
Definition parse_u8 : ustring → option Z := parse_int 10 0 255.

(** [Display] of an integer *)
Definition show (n : Z) : ustring :=
  Ascii.N_of_ascii <$> String.list_ascii_of_string (pretty n).

Example text_examples :
  find_str (u "cd") (u "abcd") = Some 2 ∧ replace_str (u "aa") (u "b") (u "aaaca") = u "baca" ∧
  rsplit_once 64 (u "a@b@c") = Some (u "a@b", u "c") ∧
  split_whitespace (u " ab  c ") = [u "ab"; u "c"] ∧
  parse_i32 (u "-12") = Some (-12)%Z ∧ parse_i32 (u "+") = None ∧ parse_u8 (u "256") = None ∧
  parse_u8 (u "-1") = None ∧ parse_int 16 0 (2 ^ 32 - 1) (u "3042") = Some 0x3042%Z ∧
  show (-5) = u "-5".
Proof. by vm_compute. Qed.

(** ** Laws *)

Lemma strip_prefix_Some p s r : strip_prefix p s = Some r ↔ s = p ++ r.
Proof.
  unfold strip_prefix. case_decide as H; split; intros E; simplify_eq.
  - destruct H as [k ->]. by rewrite drop_app_length.
  - by rewrite drop_app_length.
  - destruct H. by eexists.
Qed.

Lemma find_str_Some p s i :
  find_str p s = Some i → i + length p ≤ length s ∧ p `prefix_of` drop i s ∧
  ∀ j, j < i → ¬ p `prefix_of` drop j s.
Proof.
  revert i. induction s as [|c s IH]; intros i; simpl; case_decide as Hp; intros Hi; simplify_eq.
  - split; [|split; [done|lia]]. by apply prefix_length in Hp.
  - split; [|split; [done|lia]]. by apply prefix_length in Hp.
  - apply fmap_Some in Hi as (j & Hj & ->). apply IH in Hj as (Hl & Hj & Hn). simpl.
    split; [lia|]. split; [done|]. intros [|k] Hk; [done|]. apply Hn. lia.
Qed.

Lemma find_str_None p s : find_str p s = None → ∀ j, j ≤ length s → ¬ p `prefix_of` drop j s.
Proof.
  induction s as [|c s IH]; simpl; case_decide as Hp; intros Hn j Hj; try done.
  - replace j with 0 by lia. done.
  - apply fmap_None in Hn. destruct j as [|j]; [done|]. apply IH; [done|lia].
Qed.
