(* ===== verification/Template.v ===== *)
(** * Templates in candidates

    src/crates/converter/src/template.rs: the replacement of [<date ...>] and
    [<random ...>] tags in the text of a candidate. The calendar and date libraries
    and the random generator are parameters; the attributes, the escapes, the
    choice of name lengths and the scan are the code's. *)

From S2P Require Import Prelude Unicode TextUtil.

(** ** The libraries *)

Inductive YearNameLength := YearAbbreviated | YearWide | YearNarrow.
Inductive MonthNameLength :=
  | MonthAbbreviated | MonthWide | MonthNarrow
  | MonthStandaloneAbbreviated | MonthStandaloneWide | MonthStandaloneNarrow.
Inductive WeekdayNameLength :=
  | WeekdayAbbreviated | WeekdayWide | WeekdayNarrow | WeekdayShort
  | WeekdayStandaloneAbbreviated | WeekdayStandaloneWide | WeekdayStandaloneNarrow
  | WeekdayStandaloneShort.
Inductive DayPeriodNameLength := DayPeriodAbbreviated | DayPeriodWide | DayPeriodNarrow.

Inductive Calendar := Gregorian | Japanese.

(** chrono: instants of the local time zone and their fields, all [u32] but the year. *)
Class Chrono := {
  instant : Type;
  (** [Duration::try_seconds] and [checked_add_signed] *)
  try_seconds : Z → option Z;
  checked_add_signed : instant → Z → option instant;
  year : instant → Z;
  month : instant → Z;
  day : instant → Z;
  hour : instant → Z;
  minute : instant → Z;
  second : instant → Z;
  nanosecond : instant → Z;
}.

(** icu: locales, patterns, dates, and names that are loaded by length. *)
Class Icu := {
  locale : Type;
  parse_locale : ustring → option locale;
  pattern : Type;
  parse_pattern : ustring → option pattern;
  iso_date : Type;
  try_new_iso : Z → Z → Z → option iso_date;
  time : Type;
  try_new_time : Z → Z → Z → Z → option time;
  names : Type;
  try_new_names : Calendar → locale → option names;
  include_year_names : names → YearNameLength → option names;
  include_month_names : names → MonthNameLength → option names;
  include_weekday_names : names → WeekdayNameLength → option names;
  include_day_period_names : names → DayPeriodNameLength → option names;
  (** [with_pattern_unchecked(..).format(..).try_write_to_string().ok()] *)
  format_names : names → pattern → iso_date → time → option ustring;
}.

(** rand: a generator state, and what is drawn from it. *)
Class Rng := {
  rng : Type;
  random_range : Z → Z → rng → Z * rng;
  choose_index : nat → rng → nat * rng;
  (** the text of a double drawn between two others: [None] when they do not
      parse, are not finite or not in order *)
  random_double : ustring → ustring → rng → option ustring * rng;
}.

(** ** Attributes and escapes *)

Definition TAB : ustring := [9%N].

(** [unescape] *)
Definition unescape (value : ustring) : ustring :=
  replace_str (u "\b") (u "\")
  (replace_str (u "\0") [0%N]
  (replace_str (u "\n") [10%N]
  (replace_str (u "\t") TAB
  (replace_str (u "\c") (u ",")
  (replace_str (u "\s") (u " ")
  (replace_str (u "\d") [34%N] value)))))).

(** [attribute] *)
Definition attribute (tag key : ustring) : option ustring :=
  let prefix := key ++ [61; 34]%N in
  start ← list_find (λ part, starts_with prefix part = true) (split_whitespace tag);
  value ← strip_prefix prefix start.2;
  match strip_suffix [34; 62]%N value with
  | Some value => Some value
  | None => strip_suffix [34%N] value
  end.

(** ** Pattern symbols *)

Definition QUOTE : char := 39%N.

(** The number of further characters equal to [c]. *)
Fixpoint run_length (c : char) (s : ustring) : nat :=
  match s with
  | d :: s' => if (d =? c)%N then S (run_length c s') else 0
  | [] => 0
  end.

(** [symbol_run] *)
Fixpoint symbol_run_from (quoted : bool) (pattern symbols : ustring) : option (char * nat) :=
  match pattern with
  | [] => None
  | character :: rest =>
      if (character =? QUOTE)%N then
        match rest with
        | next :: rest' =>
            if (next =? QUOTE)%N then symbol_run_from quoted rest' symbols
            else symbol_run_from (negb quoted) rest symbols
        | [] => None
        end
      else if negb quoted && bool_decide (character ∈ symbols) then
        Some (character, S (run_length character rest))
      else symbol_run_from quoted rest symbols
  end.
Definition symbol_run (pattern symbols : ustring) : option (char * nat) :=
  symbol_run_from false pattern symbols.

Definition year_name_length (pattern : ustring) : option YearNameLength :=
  run ← symbol_run pattern (u "G");
  let width := run.2 in
  if decide (1 ≤ width ≤ 3) then Some YearAbbreviated
  else if decide (width = 4) then Some YearWide
  else if decide (5 ≤ width) then Some YearNarrow else None.

Definition month_name_length (pattern : ustring) : option MonthNameLength :=
  '(symbol, width) ← symbol_run pattern (u "ML");
  let format := bool_decide (symbol = 77%N) in
  if decide (width = 3) then Some (if format then MonthAbbreviated else MonthStandaloneAbbreviated)
  else if decide (width = 4) then Some (if format then MonthWide else MonthStandaloneWide)
  else if decide (5 ≤ width) then Some (if format then MonthNarrow else MonthStandaloneNarrow)
  else None.

Definition weekday_name_length (pattern : ustring) : option WeekdayNameLength :=
  '(symbol, width) ← symbol_run pattern (u "Eec");
  if decide (symbol = 99%N) then
    if decide (width = 3) then Some WeekdayStandaloneAbbreviated
    else if decide (width = 4) then Some WeekdayStandaloneWide
    else if decide (width = 5) then Some WeekdayStandaloneNarrow
    else if decide (6 ≤ width) then Some WeekdayStandaloneShort else None
  else
    if decide (1 ≤ width ≤ 3) then Some WeekdayAbbreviated
    else if decide (width = 4) then Some WeekdayWide
    else if decide (width = 5) then Some WeekdayNarrow
    else if decide (6 ≤ width) then Some WeekdayShort else None.

Definition day_period_name_length (pattern : ustring) : option DayPeriodNameLength :=
  run ← symbol_run pattern (u "abB");
  let width := run.2 in
  if decide (1 ≤ width ≤ 3) then Some DayPeriodAbbreviated
  else if decide (width = 4) then Some DayPeriodWide
  else if decide (5 ≤ width) then Some DayPeriodNarrow else None.

(** ** The scan of a text *)

Section replace_tags.
Context {R : Type} (replacement : ustring → R → option ustring * R).

(** The loop of [replace_tags]: the output before the search position is final,
    what follows it is the rest of the text. A tag takes at least a character. *)
Fixpoint replace_tags_from (fuel : nat) (prefix text : ustring) (r : R) : ustring * R :=
  match fuel with
  | O => (text, r)
  | S fuel =>
      match find_str prefix text with
      | None => (text, r)
      | Some start =>
          match find_str [62%N] (drop start text) with
          | None => (text, r)
          | Some relative_end =>
              let tag := take (S relative_end) (drop start text) in
              let '(value, r) := replacement tag r in
              let '(rest, r) := replace_tags_from fuel prefix (drop (start + S relative_end) text) r in
              (take start text ++ default tag value ++ rest, r)
          end
      end
  end.

Definition replace_tags (text prefix : ustring) (r : R) : ustring * R :=
  replace_tags_from (S (length text)) prefix text r.
End replace_tags.

(** ** The two kinds of tags *)

(** The checked product of two [i64]s. *)
Definition checked_mul_i64 (a b : Z) : option Z :=
  if decide (- 2 ^ 63 ≤ a * b ≤ 2 ^ 63 - 1)%Z then Some (a * b)%Z else None.

Definition u8_of (n : Z) : option Z := if decide (0 ≤ n ≤ 255)%Z then Some n else None.

(** [if let Some(length) = length { names.include(length).ok()? }] *)
Definition include {N L} (f : N → L → option N) (names : N) (length : option L) : option N :=
  match length with Some length => f names length | None => Some names end.

Definition NO_DATA : ustring := Eval vm_compute in u "データ無し".

Section templates.
Context `{Chrono} `{Icu} `{Rng}.

(** [format_with_calendar!] *)
Definition format_with_calendar (calendar : Calendar) (format : ustring) (l : locale) (p : pattern)
    (d : iso_date) (t : time) : option ustring :=
  names ← try_new_names calendar l;
  names ← include include_year_names names (year_name_length format);
  names ← include include_month_names names (month_name_length format);
  names ← include include_weekday_names names (weekday_name_length format);
  names ← include include_day_period_names names (day_period_name_length format);
  format_names names p d t.

Definition format_date (format calendar language : ustring) (date : instant) : option ustring :=
  l ← parse_locale (replace_str (u "_") (u "-") language);
  p ← parse_pattern format;
  mo ← u8_of (month date);
  da ← u8_of (day date);
  d ← try_new_iso (year date) mo da;
  ho ← u8_of (hour date);
  mi ← u8_of (minute date);
  se ← u8_of (second date);
  t ← try_new_time ho mi se (nanosecond date);
  if decide (calendar = u "western") then format_with_calendar Gregorian format l p d t
  else if decide (calendar = u "japanese") then format_with_calendar Japanese format l p d t
  else None.

Definition expand_date_template (tag : ustring) (now : instant) : option ustring :=
  format ← attribute tag (u "format");
  calendar ← attribute tag (u "type");
  language ← attribute tag (u "language");
  delta ← attribute tag (u "delta");
  deltaunit ← attribute tag (u "deltaunit");
  seconds ← checked_mul_i64 (default 0%Z (parse_i64 delta)) (default 0%Z (parse_i64 deltaunit));
  duration ← try_seconds seconds;
  date ← checked_add_signed now duration;
  format_date (unescape format) calendar language date.

Definition expand_random_template (tag : ustring) (r : rng) : option ustring * rng :=
  match attribute tag (u "type"), attribute tag (u "value") with
  | Some value_type, Some value =>
      let value := unescape value in
      if decide (value_type = u "int") then
        match Text.split_once 44 value with
        | Some (low, high) =>
            match parse_i64 low, parse_i64 high with
            | Some low, Some high =>
                if decide (low ≤ high)%Z then
                  let '(n, r) := random_range low high r in (Some (show n), r)
                else (None, r)
            | _, _ => (None, r)
            end
        | None => (None, r)
        end
      else if decide (value_type = u "double") then
        match Text.split_once 44 value with
        | Some (low, high) => random_double low high r
        | None => (None, r)
        end
      else if decide (value_type = u "string") then
        let parts := Text.split_on 44 value in
        if decide (parts = []) then (Some NO_DATA, r)
        else let '(i, r) := choose_index (length parts) r in (parts !! i, r)
      else (None, r)
  | _, _ => (None, r)
  end.

Definition DATE_PREFIX : ustring := u "<date format=" ++ [34%N].
Definition RANDOM_PREFIX : ustring := u "<random type=" ++ [34%N].

(** [expand_templates_with] *)
Definition expand_templates_with (text : ustring) (now : instant) (r : rng) : ustring * rng :=
  let '(output, r) := replace_tags (λ tag r, (expand_date_template tag now, r)) text DATE_PREFIX r in
  replace_tags expand_random_template output RANDOM_PREFIX r.

End templates.

(** ** The scan, as a relation *)

Section scan.
Context {R : Type} (replacement : ustring → R → option ustring * R) (prefix : ustring).

(** [scanned text r out r']: the tags of [text] are replaced from the left, each
    where the text after the previous tag first has the prefix, up to the next [>]; a
    replacement is not scanned again, and the generator passes through the
    replacements in order. *)
Inductive scanned : ustring → R → ustring → R → Prop :=
  | scan_end text r :
      (∀ start, find_str prefix text = Some start → ∀ c, c ∈ drop start text → c ≠ 62%N) →
      scanned text r text r
  | scan_tag before body after value r r' out r'' :
      find_str prefix (before ++ (body ++ [62%N]) ++ after) = Some (length before) →
      62%N ∉ body →
      replacement (body ++ [62%N]) r = (value, r') →
      scanned after r' out r'' →
      scanned (before ++ (body ++ [62%N]) ++ after) r
        (before ++ default (body ++ [62%N]) value ++ out) r''.

Lemma find_char_cons (c d : char) s :
  find_str [c] (d :: s) = if decide (c = d) then Some 0 else S <$> find_str [c] s.
Proof.
  cbn [find_str]. repeat case_decide; try done.
  - match goal with H : _ `prefix_of` _ |- _ => destruct H as [k Hk]; simplify_eq/= end.
  - match goal with H : ¬ _ `prefix_of` _ |- _ => destruct H end. subst. by exists s.
Qed.

Lemma find_char_None (c : char) s : find_str [c] s = None → c ∉ s.
Proof.
  induction s as [|d s IH]; [intros; apply not_elem_of_nil|]. rewrite find_char_cons. case_decide; [done|].
  intros Hn%fmap_None. apply not_elem_of_cons. split; [done|by apply IH].
Qed.

Lemma find_char_Some (c : char) s i :
  find_str [c] s = Some i → c ∉ take i s ∧ take (S i) s = take i s ++ [c].
Proof.
  revert i. induction s as [|d s IH]; intros i; [done|]. rewrite find_char_cons.
  case_decide as H; intros Hi.
  - simplify_eq. split; [apply not_elem_of_nil|done].
  - apply fmap_Some in Hi as (j & Hj & ->). apply IH in Hj as [Hn Ht]. csimpl.
    split; [|by rewrite <- Ht]. by apply not_elem_of_cons.
Qed.

(** Any fuel beyond the length gives the scan. *)
Lemma replace_tags_from_scanned fuel : ∀ text r,
  length text < fuel →
  scanned text r (replace_tags_from replacement fuel prefix text r).1
    (replace_tags_from replacement fuel prefix text r).2.
Proof.
  induction fuel as [|fuel IH]; intros text r Hf; [lia|]. simpl.
  destruct (find_str prefix text) as [start|] eqn:Hs; [|by apply (scan_end text r); intros start Hs'; rewrite Hs in Hs'].
  destruct (find_str [62%N] (drop start text)) as [e|] eqn:He.
  2: { apply (scan_end text r). intros start' Hs' c Hc ->. rewrite Hs in Hs'. injection Hs' as <-.
       by apply find_char_None in He. }
  pose proof (find_str_Some _ _ _ He) as (Hlen & _ & _). simpl in Hlen.
  apply find_char_Some in He as [Hbody Htag]. rewrite length_drop in Hlen.
  destruct (replacement (take (S e) (drop start text)) r) as [value r1] eqn:Hr.
  specialize (IH (drop (start + S e) text) r1). rewrite length_drop in IH.
  destruct (replace_tags_from replacement fuel prefix (drop (start + S e) text) r1) as [out r2].
  simpl in *. rewrite Htag in Hr |- *.
  assert (Hsplit : text = take start text ++ (take e (drop start text) ++ [62%N]) ++ drop (start + S e) text).
  { rewrite <- Htag, <- drop_drop, !take_drop. done. }
  rewrite Hsplit at 1. eapply scan_tag; [|done|exact Hr|apply IH; lia].
  rewrite <- Hsplit, Hs, length_take. f_equal. lia.
Qed.

(** The scan of a text is unique. *)
Lemma scanned_fuel text r out r' :
  scanned text r out r' → ∀ fuel, length text < fuel →
  replace_tags_from replacement fuel prefix text r = (out, r').
Proof.
  induction 1 as [text r Hend|before body after value r r1 out r2 Hs Hbody Hr Hrest IH];
    intros [|fuel] Hf; try (simpl in Hf; lia); simpl.
  - destruct (find_str prefix text) as [start|]; [|done]. specialize (Hend _ eq_refl).
    destruct (find_str [62%N] (drop start text)) as [e|] eqn:He; [|done]. exfalso.
    pose proof (find_str_Some _ _ _ He) as (Hlen & _ & _). simpl in Hlen.
    apply find_char_Some in He as [_ Ht]. apply (Hend 62%N); [|done].
    eapply elem_of_take_in. rewrite Ht, elem_of_app, list_elem_of_singleton. by right.
  - rewrite Hs. rewrite drop_app_length.
    destruct (find_str [62%N] ((body ++ [62%N]) ++ after)) as [e|] eqn:He.
    2: { apply find_char_None in He. exfalso. apply He. set_solver. }
    assert (He' : e = length body).
    { pose proof (find_str_Some _ _ _ He) as (_ & _ & Hfirst). apply find_char_Some in He as [Hn Ht].
      destruct (Nat.lt_trichotomy e (length body)) as [Hlt|[->|Hlt]]; [|done|].
      - exfalso. apply Hbody. apply (elem_of_take_in _ (S e)).
        rewrite <- app_assoc, take_app_le in Ht by lia. rewrite Ht. set_solver.
      - exfalso. apply (Hfirst (length body) Hlt). rewrite <- app_assoc, drop_app_length.
        apply prefix_cons, prefix_nil. }
    subst e. assert (Htake : take (S (length body)) ((body ++ [62%N]) ++ after) = body ++ [62%N]).
    { rewrite take_app_length'; [done|]. rewrite length_app. simpl. lia. }
    rewrite Htake, Hr. replace (length before + S (length body)) with (length (before ++ body ++ [62%N]))
      by (rewrite !length_app; simpl; lia).
    rewrite take_app_length, (app_assoc before (body ++ [62%N]) after), drop_app_length, IH; [done|].
    rewrite !length_app in Hf. simpl in Hf. lia.
Qed.
End scan.

(** The scan for tags ends: each round consumes a tag, so that any fuel above
    the length of the text gives the same output, and this output is the only one
    the relation [scanned] allows. Tags are replaced from the left up to
    their first [>], what a replacement inserts is never scanned again, and the text
    outside of the replaced tags is kept. *)
Theorem replace_tags_scans {R} (replacement : ustring → R → option ustring * R) text prefix r :
  (∀ fuel, length text < fuel →
     replace_tags_from replacement fuel prefix text r = replace_tags replacement text prefix r) ∧
  (∀ out r', scanned replacement prefix text r out r' ↔ replace_tags replacement text prefix r = (out, r')).
Proof.
  assert (Hs : scanned replacement prefix text r (replace_tags replacement text prefix r).1
    (replace_tags replacement text prefix r).2) by (apply replace_tags_from_scanned; lia).
  split.
  - intros fuel Hf. destruct (replace_tags replacement text prefix r). by eapply scanned_fuel.
  - intros out r'. split.
    + intros H. eapply scanned_fuel; [done|lia].
    + intros H. by rewrite H in Hs.
Qed.

(** ** Escapes *)

(** The escape of a character in a template attribute. *)
Definition escape_char (c : char) : ustring :=
  if decide (c = 34%N) then u "\d" else if decide (c = 32%N) then u "\s"
  else if decide (c = 44%N) then u "\c" else if decide (c = 9%N) then u "\t"
  else if decide (c = 10%N) then u "\n" else if decide (c = 0%N) then u "\0"
  else if decide (c = 92%N) then u "\b" else [c].

Definition escape (s : ustring) : ustring := s ≫= escape_char.

(** A stage of the decoding: the characters are literal, except for the escapes
    that are still to be replaced. *)
Definition stage (enc : char → ustring) : Prop :=
  ∀ c, (∃ d, enc c = [d] ∧ d ≠ 92%N) ∨ (∃ y, enc c = [92; y]%N ∧ y ≠ 92%N).

(** The stage after the escape with [x] is replaced. *)
Definition replaced (x to : char) (enc : char → ustring) (c : char) : ustring :=
  if decide (enc c = [92; x]%N) then [to] else enc c.

Lemma replace_stage enc x (to : char) s :
  stage enc → replace_str [92; x]%N [to] (s ≫= enc) = s ≫= replaced x to enc.
Proof.
  intros Henc. unfold replace_str, replaced. induction s as [|c s IH]; [done|]. csimpl.
  destruct (Henc c) as [(d & -> & Hd)|(y & -> & Hy)]; csimpl.
  - rewrite (decide_False (P := [d] = _)) by done.
    rewrite decide_False; [by rewrite IH|]. intros [k Hk]. simplify_eq/=.
  - destruct (decide (y = x)) as [->|Hyx].
    + rewrite !decide_True; [csimpl; by rewrite IH|done|by eexists].
    + rewrite (decide_False (P := [92; y]%N = _)) by congruence.
      rewrite decide_False by (intros [k Hk]; simplify_eq/=). csimpl.
      rewrite decide_False by (intros [k Hk]; simplify_eq/=). by rewrite IH.
Qed.

Lemma stage_step enc x (to : char) :
  stage enc → to ≠ 92%N → stage (replaced x to enc).
Proof. intros Henc Hto c. unfold replaced. case_decide; [left; by eexists|apply Henc]. Qed.

Lemma stage_escape : stage escape_char.
Proof.
  intros c. unfold escape_char. repeat (case_decide; [right; by eexists|]). left. by exists c.
Qed.

Lemma replaced_literal x to enc (c : char) : enc c = [c] → replaced x to enc c = [c].
Proof. intros H. unfold replaced. by rewrite H, decide_False. Qed.

Lemma escape_char_cases c :
  escape_char c = [c] ∨ c ∈ [34; 32; 44; 9; 10; 0; 92]%N.
Proof.
  destruct (decide (c ∈ [34; 32; 44; 9; 10; 0; 92]%N)) as [|Hc]; [by right|left].
  unfold escape_char. rewrite !not_elem_of_cons in Hc. destruct_and! Hc.
  by repeat (rewrite decide_False by done).
Qed.

Lemma replaced_all c :
  replaced 98 92 (replaced 48 0 (replaced 110 10 (replaced 116 9 (replaced 99 44
    (replaced 115 32 (replaced 100 34 escape_char)))))) c = [c].
Proof.
  destruct (escape_char_cases c) as [Hc|Hc]; [repeat apply replaced_literal; exact Hc|].
  rewrite !elem_of_cons, elem_of_nil in Hc. destruct_or! Hc; try done; subst; vm_compute; reflexivity.
Qed.

(** [unescape] undoes the escapes of a template attribute for every text: the
    replacements one after another, the backslash last, never mistake a literal
    character for a part of an escape. *)
Theorem unescape_escape s : unescape (escape s) = s.
Proof.
  unfold unescape, escape.
  assert (Hnext : ∀ enc x to, stage enc → to ≠ 92%N →
    replace_str [92; x]%N [to] (s ≫= enc) = s ≫= replaced x to enc ∧ stage (replaced x to enc)).
  { intros. split; [by apply replace_stage|by apply stage_step]. }
  destruct (Hnext _ 100%N 34%N stage_escape) as [E1 S1]; [done|].
  destruct (Hnext _ 115%N 32%N S1) as [E2 S2]; [done|].
  destruct (Hnext _ 99%N 44%N S2) as [E3 S3]; [done|].
  destruct (Hnext _ 116%N 9%N S3) as [E4 S4]; [done|].
  destruct (Hnext _ 110%N 10%N S4) as [E5 S5]; [done|].
  destruct (Hnext _ 48%N 0%N S5) as [E6 S6]; [done|].
  pose proof (replace_stage _ 98%N 92%N s S6) as E7.
  change (u "\d") with [92; 100]%N. rewrite E1.
  change (u "\s") with [92; 115]%N. change (u " ") with [32]%N. rewrite E2.
  change (u "\c") with [92; 99]%N. change (u ",") with [44]%N. rewrite E3.
  change (u "\t") with [92; 116]%N. change (TAB) with [9]%N. rewrite E4.
  change (u "\n") with [92; 110]%N. rewrite E5.
  change (u "\0") with [92; 48]%N. rewrite E6.
  change (u "\b") with [92; 98]%N. change (u "\") with [92]%N. rewrite E7.
  clear. induction s as [|c s IH]; [done|]. cbn [mbind list_bind]. rewrite IH.
  by rewrite replaced_all.
Qed.

Example template_scan :
  (replace_tags (R:=nat) (λ _ n, (Some (show (Z.of_nat n)), S n)) (u "a<t>b<t x>c<t") (u "<t") 1)
    = (u "a1b2c<t", 3) ∧
  symbol_run (u "'MM'yyyyMMMd") (u "ML") = Some (77%N, 3).
Proof. by vm_compute. Qed.
