(* ===== verification/Special.v ===== *)
(** * Special candidates

    src/crates/converter/src/special.rs: years of the Japanese eras, mail
    addresses, code points, the version, times, numbers with separators, and the
    typographical variants of letters and digits. *)

From S2P Require Import Prelude Unicode F32 Dictionary InputTable Composing Lattice TextUtil.

Definition GENERAL_NOUN_ID : nat := 1285.
Definition PROPER_NOUN_ID : nat := 1288.
Definition GENERAL_MEANING_ID : nat := 501.
Definition YEAR_MEANING_ID : nat := 237.

Definition EMAIL_DOMAINS : list ustring := Eval vm_compute in u <$> [
  "@gmail.com"; "@icloud.com"; "@yahoo.co.jp"; "@au.com"; "@docomo.ne.jp"; "@excite.co.jp";
  "@ezweb.ne.jp"; "@googlemail.com"; "@hotmail.co.jp"; "@hotmail.com"; "@i.softbank.jp";
  "@live.jp"; "@me.com"; "@mineo.jp"; "@nifty.com"; "@outlook.com"; "@outlook.jp";
  "@softbank.ne.jp"; "@yahoo.ne.jp"; "@ybb.ne.jp"; "@ymobile.ne.jp"]%string.

(** ** Eras *)

Definition NENN : ustring := Eval vm_compute in u "ネン".
Definition YEAR_SUFFIX : ustring := Eval vm_compute in u "年".

Definition FIRST_YEARS : list (ustring * ustring) := Eval vm_compute in
  (λ p : string * string, (u p.1, u p.2)) <$> [
    ("メイジガンネン", "1868年"); ("タイショウガンネン", "1912年"); ("ショウワガンネン", "1926年");
    ("ヘイセイガンネン", "1989年"); ("レイワガンネン", "2019年")]%string.

Definition ERAS : list (ustring * Z * list nat) := Eval vm_compute in
  (λ '(name, offset, counts), (u name, offset, counts)) <$> [
    ("ショウワ"%string, 1925%Z, [7; 8]); ("ヘイセイ"%string, 1988%Z, [7; 8]);
    ("レイワ"%string, 2018%Z, [6; 7]); ("メイジ"%string, 1867%Z, [6; 7]);
    ("タイショウ"%string, 1911%Z, [8; 9])].

Definition japanese_era_to_western (value : ustring) : option ustring :=
  match list_find (λ p, p.1 = value) FIRST_YEARS with
  | Some (_, p) => Some p.2
  | None =>
      let total_count := length value in
      value ← strip_suffix NENN value;
      '(_, (era, offset, allowed_counts)) ←
        list_find (λ e, starts_with e.1.1 value = true) ERAS;
      if decide (total_count ∉ allowed_counts) then None
      else
        digits ← strip_prefix era value;
        year ← parse_i32 digits;
        Some (show (year + offset) ++ YEAR_SUFFIX)
  end.

Definition HEISEI : ustring := Eval vm_compute in u "平成".
Definition SHOWA : ustring := Eval vm_compute in u "昭和".
Definition REIWA : ustring := Eval vm_compute in u "令和".
Definition TAISHO : ustring := Eval vm_compute in u "大正".
Definition MEIJI : ustring := Eval vm_compute in u "明治".
Definition KEIO : ustring := Eval vm_compute in u "慶應".
Definition GANNEN : ustring := Eval vm_compute in u "元年".

Definition western_to_japanese_era (value : ustring) : list ustring :=
  let named (era : ustring) (n : Z) := era ++ show n ++ YEAR_SUFFIX in
  if negb (ends_with NENN value) then []
  else match parse_i32 (take 4 value) with
       | None => []
       | Some year =>
           if decide (year = 1989)%Z then [HEISEI ++ GANNEN; named SHOWA 64%Z]
           else if decide (year = 2019)%Z then [REIWA ++ GANNEN; named HEISEI 31%Z]
           else if decide (year = 1926)%Z then [SHOWA ++ GANNEN; named TAISHO 15%Z]
           else if decide (year = 1912)%Z then [TAISHO ++ GANNEN; named MEIJI 45%Z]
           else if decide (year = 1868)%Z then [MEIJI ++ GANNEN; named KEIO 4%Z]
           else if decide (1990 ≤ year ≤ 2018)%Z then [named HEISEI (year - 1988)%Z]
           else if decide (1927 ≤ year ≤ 1988)%Z then [named SHOWA (year - 1925)%Z]
           else if decide (1869 ≤ year ≤ 1911)%Z then [named MEIJI (year - 1867)%Z]
           else if decide (1913 ≤ year ≤ 1925)%Z then [named TAISHO (year - 1911)%Z]
           else if decide (2020 ≤ year)%Z then [named REIWA (year - 2018)%Z]
           else []
       end.

(** ** Styles *)

(** [styled] of one character *)
Definition styled_char (uppercase_offset lowercase_offset : N) (number_offset : option N)
    (exceptions : list (char * char)) (character : char) : char :=
  match list_find (λ e, e.1 = character) exceptions with
  | Some (_, e) => e.2
  | None =>
      let offset := if is_ascii_uppercase character then Some uppercase_offset
                    else if is_ascii_lowercase character then Some lowercase_offset
                    else if is_ascii_digit character then number_offset else None in
      default character (offset ← offset; from_u32 (character + offset))
  end.

(** The offsets and the exceptions of the styles, and whether a style is for
    letters only, in the order of [typographical_candidates]. *)
Record Style := {
  letters_only : bool;
  uppercase_offset : N;
  lowercase_offset : N;
  number_offset : option N;
  exceptions : list (char * char);
}.

Definition style letters upper lower number (pairs : list (string * string)) : Style :=
  {| letters_only := letters; uppercase_offset := upper; lowercase_offset := lower;
     number_offset := number;
     exceptions := (λ p, (default 0%N (head (u p.1)), default 0%N (head (u p.2)))) <$> pairs |}.

Definition STYLES : list Style := Eval vm_compute in [
  style false 119743 119737 (Some 120734) [];
  style true 119795 119789 None [("h", "ℎ")%string];
  style true 119847 119841 None [];
  style true 119899 119893 None
    [("B", "ℬ"); ("E", "ℰ"); ("F", "ℱ"); ("H", "ℋ"); ("I", "ℐ"); ("L", "ℒ"); ("M", "ℳ"); ("R", "ℛ");
     ("e", "ℯ"); ("g", "ℊ"); ("o", "ℴ")]%string;
  style true 119951 119945 None [];
  style true 120003 119997 None [("C", "ℭ"); ("H", "ℌ"); ("I", "ℑ"); ("R", "ℜ"); ("Z", "ℨ")]%string;
  style false 120055 120049 (Some 120744)
    [("C", "ℂ"); ("H", "ℍ"); ("N", "ℕ"); ("P", "ℙ"); ("Q", "ℚ"); ("R", "ℝ"); ("Z", "ℤ")]%string;
  style true 120107 120101 None [];
  style false 120159 120153 (Some 120754) [];
  style false 120211 120205 (Some 120764) [];
  style true 120263 120257 None [];
  style true 120315 120309 None [];
  style false 120367 120361 (Some 120774) []]%N.

Definition styled (s : Style) (t : ustring) : ustring :=
  styled_char (uppercase_offset s) (lowercase_offset s) (number_offset s) (exceptions s) <$> t.

(** ** Candidates *)

Definition negative (n : nat) : f32 := fopp (of_nat n).

Section special.
Context `{Segmentation}.

(** [candidate] *)
Definition special_candidate (w r : ustring) (value : f32) (count : ComposingCount)
    (class_id meaning_id : nat) (learning_target : bool) : Candidate :=
  let c := candidate_single w value count meaning_id
             [{| word := w; ruby := r; left_id := class_id; right_id := class_id;
                 meaning_id := meaning_id; base_value := value; adjustment := zero;
                 metadata := no_metadata |}] in
  {| text := text c; cand_value := cand_value c; composing_count := composing_count c;
     last_meaning_id := last_meaning_id c; entries := entries c; ruby_count := ruby_count c;
     is_learning_target := learning_target; is_typo_correction := is_typo_correction c;
     first_clause := first_clause c |}.

Definition surface_text (ct : ComposingText) : ustring := concat (surface ct).
Definition input_count (ct : ComposingText) : ComposingCount := CInput (length (input ct)).

Definition typographical_candidates (ct : ComposingText) : list Candidate :=
  let t := Kana.to_katakana (surface_text ct) in
  if bool_decide (t = []) || negb (forallb is_ascii_alphanumeric t) then []
  else
    let only_letters := forallb is_ascii_letter t in
    (λ s, special_candidate (styled s t) t (negative 15) (input_count ct) PROPER_NOUN_ID
            GENERAL_MEANING_ID true)
      <$> filter (λ s, only_letters || negb (letters_only s) = true) STYLES.

Definition calendar_candidates (ct : ComposingText) : list Candidate :=
  let r := Kana.to_katakana (surface_text ct) in
  match japanese_era_to_western r with
  | Some value => [special_candidate value r (negative 15) (input_count ct) PROPER_NOUN_ID
                     GENERAL_MEANING_ID true]
  | None => []
  end ++
  imap (λ index value, special_candidate value r (fsub (negative 18) (of_nat index)) (input_count ct)
                         GENERAL_NOUN_ID YEAR_MEANING_ID true)
    (western_to_japanese_era r).

Definition sentence_characters : ustring := Eval vm_compute in
  [10%N] ++ u " !'_<>[]{}*@`^|~=" ++ [34%N] ++ u "#$%&+(),-./:;?\’".

Definition is_english_sentence (value : ustring) : bool :=
  negb (bool_decide (value = []))
  && forallb (λ c, is_ascii_alphanumeric c || bool_decide (c ∈ sentence_characters)) value.

Definition AT : char := 64%N.

Definition email_candidates (ct : ComposingText) : list Candidate :=
  match rsplit_once AT (surface_text ct) with
  | None => []
  | Some (identifier, prefix) =>
      if negb (bool_decide (identifier = [])) && negb (is_english_sentence identifier) then []
      else
        let base := if decide (identifier = []) then negative 20 else negative 13 in
        (λ '(index, domain), special_candidate (identifier ++ domain)
            (Kana.to_katakana (surface_text ct)) (fsub base (of_nat index)) (input_count ct) 0
            GENERAL_MEANING_ID false)
          <$> filter (λ id, starts_with (AT :: prefix) id.2 = true) (imap pair EMAIL_DOMAINS)
  end.

(** The loop over the prefixes returns at the first that names a character. *)
Fixpoint unicode_character (prefixes : list ustring) (r : ustring) : option char :=
  match prefixes with
  | [] => None
  | prefix :: prefixes =>
      match (hex ← strip_prefix prefix r; number ← parse_int 16 0 (2 ^ 32 - 1) hex;
             from_u32 (Z.to_N number)) with
      | Some c => Some c
      | None => unicode_character prefixes r
      end
  end.

Definition UNICODE_PREFIXES : list ustring := Eval vm_compute in u <$> ["u"; "U"; "u+"; "U+"]%string.

Definition unicode_candidates (ct : ComposingText) : list Candidate :=
  let r := Kana.to_katakana (surface_text ct) in
  match unicode_character UNICODE_PREFIXES r with
  | Some c => [special_candidate [c] r (negative 10) (input_count ct) 0 GENERAL_MEANING_ID true]
  | None => []
  end.

Definition VERSION_READING : ustring := Eval vm_compute in u "バージョン".

Definition version_candidates (ct : ComposingText) (version : option ustring) : list Candidate :=
  let r := Kana.to_katakana (surface_text ct) in
  if decide (r ≠ VERSION_READING) then []
  else match version with
       | Some version => [special_candidate version r (negative 30) (input_count ct) PROPER_NOUN_ID
                            GENERAL_MEANING_ID false]
       | None => []
       end.

(** [{n:02}] *)
Definition two_digits (n : Z) : ustring := if decide (n < 10)%Z then u "0" ++ show n else show n.

(** The text of [time_candidates]; [None] outside is a failed [expect]. *)
Definition time_text (value : ustring) : option (option ustring) :=
  let valid (hours : nat) (limit : option Z) (padded : bool) :=
    hour ← parse_u8 (take hours value);
    minute ← parse_u8 (drop hours value);
    Some (if match limit with Some l => (hour <=? l)%Z | None => true end && (minute <=? 59)%Z
          then Some ((if padded : bool then two_digits hour else show hour) ++ u ":" ++ two_digits minute)
          else None) in
  match length value with
  | 3 => valid 1 None false
  | 4 => valid 2 (Some 24%Z) true
  | _ => Some None
  end.

Definition time_candidates (ct : ComposingText) : option (list Candidate) :=
  let value := surface_text ct in
  if negb (forallb is_ascii_digit value) then Some []
  else
    time ← time_text value;
    Some match time with
         | Some time => [special_candidate time value (negative 10) (CSurface (length (surface ct)))
                           PROPER_NOUN_ID GENERAL_MEANING_ID true]
         | None => []
         end.

(** The digits from the last one, a comma before every third. *)
Definition COMMA : char := 44%N.
Definition DOT : char := 46%N.
Definition MINUS : char := 45%N.

Definition grouped (digits : ustring) : ustring :=
  reverse (concat (imap (λ index c, if decide (0 < index ∧ index `mod` 3 = 0) then [COMMA; c] else [c])
                     (reverse digits))).

(** The text of [comma_separated_number_candidates] *)
Definition comma_separated (surface : ustring) : option ustring :=
  let '(negative, value) := match strip_prefix [MINUS] surface with
                            | Some value => (true, value)
                            | None => (false, surface)
                            end in
  match Text.split_on DOT value with
  | integer :: fraction =>
      if bool_decide (2 < length (integer :: fraction))
         || existsb (λ part, bool_decide (part = []) || negb (forallb is_ascii_digit part))
              (integer :: fraction)
         || bool_decide (byte_len integer ≤ 3) then None
      else Some ((if negative : bool then [MINUS] else []) ++ grouped integer
                 ++ match fraction with [] => [] | part :: _ => DOT :: part end)
  | [] => None
  end.

Definition comma_separated_number_candidates (ct : ComposingText) : list Candidate :=
  match comma_separated (surface_text ct) with
  | Some result => [special_candidate result (Kana.to_katakana (surface_text ct)) (negative 10)
                      (input_count ct) PROPER_NOUN_ID GENERAL_MEANING_ID true]
  | None => []
  end.

(** [special_candidates] *)
Definition special_candidates (ct : ComposingText) (version_string : option ustring) :
    option (list Candidate) :=
  times ← time_candidates ct;
  Some (calendar_candidates ct ++ email_candidates ct ++ unicode_candidates ct
        ++ version_candidates ct version_string ++ times ++ comma_separated_number_candidates ct).
End special.

Example special_examples :
  japanese_era_to_western (u "ヘイセイ12ネン") = Some (u "2000年") ∧
  western_to_japanese_era (u "2000ネン") = [u "平成12年"] ∧
  western_to_japanese_era (u "20191ネン") = [u "令和元年"; u "平成31年"] ∧
  comma_separated (u "-1234567.05") = Some (u "-1,234,567.05") ∧
  time_text (u "0905") = Some (Some (u "09:05")) ∧ time_text (u "930") = Some (Some (u "9:30")).
Proof. by vm_compute. Qed.

(** ** Eras *)

(** The reading of the name of a year. *)
Definition era_readings : list (ustring * ustring) := Eval vm_compute in
  (λ p : string * string, (u p.1, u p.2)) <$> [
    ("平成", "ヘイセイ"); ("昭和", "ショウワ"); ("令和", "レイワ"); ("大正", "タイショウ");
    ("明治", "メイジ"); ("元年", "ガンネン"); ("年", "ネン")]%string.

Definition year_reading (name : ustring) : ustring :=
  foldl (λ name p, replace_str p.1 p.2 name) name era_readings.

Definition western_year (y : Z) : ustring := show y ++ YEAR_SUFFIX.
Definition western_reading (y : Z) : ustring := show y ++ NENN.

Definition year_round_trips (y : Z) : bool :=
  let names := western_to_japanese_era (western_reading y) in
  negb (bool_decide (names = []))
  && forallb (λ name, bool_decide (japanese_era_to_western (year_reading name) = Some (western_year y))) names.

Definition last_year : Z := 2117.

Lemma years_round_trip :
  forallb year_round_trips (filter (λ y, y ≠ 1868%Z) (seqZ 1868 250)) = true.
Proof. vm_compute. reflexivity. Qed.

(** The two conversions of years agree: from 1869 on, up to the last year with
    two digits in the present era, every western year has a Japanese name, and the
    reading of each of its names (two in a year when the era changed) is converted
    back to this year. *)
Theorem years_roundtrip y :
  (1869 ≤ y ≤ last_year)%Z →
  western_to_japanese_era (western_reading y) ≠ [] ∧
  ∀ name, name ∈ western_to_japanese_era (western_reading y) →
          japanese_era_to_western (year_reading name) = Some (western_year y).
Proof.
  intros Hy. pose proof years_round_trip as Hall. rewrite forallb_forall in Hall.
  assert (Hin : y ∈ filter (λ y, y ≠ 1868%Z) (seqZ 1868 250)).
  { apply list_elem_of_filter. rewrite elem_of_seqZ. unfold last_year in Hy. lia. }
  apply list_elem_of_In, Hall in Hin. unfold year_round_trips in Hin.
  apply andb_true_iff in Hin as [Hne Hnames]. split.
  { by apply negb_true_iff, bool_decide_eq_false in Hne. }
  intros name Hname. rewrite forallb_forall in Hnames.
  by apply list_elem_of_In, Hnames, bool_decide_eq_true in Hname.
Qed.

Lemma years_roundtrip_witness :
  (1869 ≤ 1989 ≤ last_year)%Z ∧
  western_to_japanese_era (western_reading 1989) = [HEISEI ++ GANNEN; SHOWA ++ u "64年"] ∧
  japanese_era_to_western (year_reading (SHOWA ++ u "64年")) = Some (western_year 1989).
Proof.
  split; [split; vm_compute; discriminate|]. split; [vm_compute; reflexivity|].
  apply (years_roundtrip 1989); [split; vm_compute; discriminate|].
  match goal with |- ?G => refine (@bool_decide_unpack G _ _) end. vm_compute. exact I.
Defined.

(** ** Separators *)

(** [Grouped digits out]: commas before every third digit from the end. *)
Inductive Grouped : ustring → ustring → Prop :=
  | grouped_short digits : 1 ≤ length digits ≤ 3 → Grouped digits digits
  | grouped_more digits out x y z :
      Grouped digits out → Grouped (digits ++ [x; y; z]) (out ++ [COMMA; x; y; z]).

Definition group_digit (index : nat) (c : char) : ustring :=
  if decide (0 < index ∧ index `mod` 3 = 0) then [COMMA; c] else [c].

Lemma group_digit_shift index c : 0 < index → group_digit (3 + index) c = group_digit index c.
Proof.
  intros Hi. unfold group_digit. replace (3 + index) with (index + 1 * 3) by lia.
  rewrite Nat.Div0.mod_add. repeat case_decide; try done; lia.
Qed.

Lemma group_rest l : l ≠ [] →
  concat (imap (λ i, group_digit (3 + i)) l) = COMMA :: concat (imap group_digit l).
Proof.
  destruct l as [|c l]; [done|]. intros _. csimpl. f_equal. f_equal. f_equal.
  apply imap_ext. intros i d _. unfold compose. apply (group_digit_shift (S i)). lia.
Qed.

Lemma grouped_snoc digits x y z :
  digits ≠ [] → grouped (digits ++ [x; y; z]) = grouped digits ++ [COMMA; x; y; z].
Proof.
  intros Hd. unfold grouped. fold group_digit. rewrite reverse_app. csimpl.
  change (reverse [x; y; z]) with [z; y; x]. csimpl.
  change (imap (group_digit ∘ S ∘ S ∘ S) (reverse digits)) with (imap (λ i, group_digit (3 + i)) (reverse digits)).
  rewrite group_rest.
  - by rewrite !reverse_cons, <- !app_assoc.
  - intros Hr. apply Hd. by rewrite <- (reverse_involutive digits), Hr.
Qed.

Lemma grouped_digits n : ∀ digits, length digits ≤ n → digits ≠ [] → Grouped digits (grouped digits).
Proof.
  induction n as [|n IH]; intros digits Hn Hd; [by destruct digits; simpl in Hn; [|lia]|].
  destruct (decide (length digits ≤ 3)) as [Hle|Hgt].
  - replace (grouped digits) with digits.
    { apply grouped_short. destruct digits; [done|simpl in *; lia]. }
    destruct digits as [|a [|b [|c [|d digits]]]]; try done; simpl in *; lia.
  - set (k := length digits - 3).
    rewrite <- (take_drop k digits). assert (Hk : length (drop k digits) = 3) by (rewrite length_drop; lia).
    destruct (drop k digits) as [|x [|y [|z [|w l]]]]; try done.
    rewrite grouped_snoc.
    + apply grouped_more, IH; [rewrite length_take; lia|].
      intros Hz. apply (f_equal length) in Hz. rewrite length_take in Hz. simpl in Hz. lia.
    + intros Hz. apply (f_equal length) in Hz. rewrite length_take in Hz. simpl in Hz. lia.
Qed.

Lemma filter_no_comma (l : ustring) : COMMA ∉ l → filter (λ c : char, c ≠ COMMA) l = l.
Proof.
  induction l as [|c l IH]; [done|]. rewrite not_elem_of_cons, filter_cons. intros [Hc Hl].
  by rewrite decide_True, IH by auto.
Qed.

Lemma ascii_byte_len (l : ustring) : forallb is_ascii_digit l = true → byte_len l = length l.
Proof.
  unfold byte_len. induction l as [|c l IH]; [done|]. simpl forallb. intros [Hc Hl]%andb_true_iff.
  rewrite utf8_cons, length_app, IH by done. unfold is_ascii_digit in Hc. apply Kana.in_range_spec in Hc.
  unfold encode_char. by rewrite (proj2 (N.ltb_lt c 0x80)) by lia.
Qed.

Lemma Grouped_digits digits out : Grouped digits out → COMMA ∉ digits → filter (λ c : char, c ≠ COMMA) out = digits.
Proof.
  induction 1 as [digits Hl|digits out x y z Hg IH]; intros Hc; [by apply filter_no_comma|].
  rewrite not_elem_of_app in Hc. destruct Hc as [Hc1 Hc2].
  rewrite filter_app, IH by done. f_equal.
  change (COMMA :: ?l) with ([COMMA] ++ l). rewrite (filter_app _ [COMMA] [x; y; z]), (filter_no_comma [x; y; z]) by done.
  done.
Qed.

Lemma split_on_concat c s :
  ∃ w ws, Text.split_on c s = w :: ws ∧ s = w ++ concat ((λ p, c :: p) <$> ws).
Proof.
  induction s as [|x s (w & ws & Hs & ->)]; [by exists [], []|]. simpl.
  destruct (N.eqb_spec x c) as [->|Hx]; rewrite Hs.
  - by exists [], (w :: ws).
  - by exists (x :: w), ws.
Qed.

(** A number gets its separators right: the text offered for a surface is a
    sign, the integer digits with a comma before every third digit from the end, and
    the fraction as it was; without the commas it is the surface. *)
Theorem comma_separated_correct surface out :
  comma_separated surface = Some out →
  ∃ sign integer separated fraction,
    surface = sign ++ integer ++ fraction ∧ out = sign ++ separated ++ fraction ∧
    Grouped integer separated ∧ 3 < length integer ∧ forallb is_ascii_digit integer = true ∧
    filter (λ c : char, c ≠ COMMA) out = surface.
Proof.
  unfold comma_separated. intros Hout.
  assert (Hsign : ∃ (negative : bool) value, surface = (if negative then [MINUS] else []) ++ value ∧
    match strip_prefix [MINUS] surface with Some value => (true, value) | None => (false, surface) end
      = (negative, value)).
  { destruct (strip_prefix [MINUS] surface) as [value|] eqn:Hp; [|by exists false, surface].
    apply strip_prefix_Some in Hp. by exists true, value. }
  destruct Hsign as (negative & value & Hsurface & Hmatch). rewrite Hmatch in Hout. clear Hmatch.
  destruct (split_on_concat DOT value) as (integer & fraction & Hsplit & Hvalue). rewrite Hsplit in Hout.
  destruct (_ || _) eqn:Hguard; [done|]. injection Hout as <-.
  rewrite !orb_false_iff, !bool_decide_eq_false in Hguard. destruct Hguard as [[Hlen Hdigits] Hbytes].
  assert (Hall : ∀ part, part ∈ integer :: fraction → part ≠ [] ∧ forallb is_ascii_digit part = true).
  { intros part Hin. apply not_true_iff_false in Hdigits. rewrite existsb_exists in Hdigits.
    destruct (decide (part = [])) as [->|Hne];
      [destruct Hdigits; exists []; by rewrite <- list_elem_of_In|]. split; [done|].
    destruct (forallb is_ascii_digit part) eqn:Hf; [done|]. destruct Hdigits. exists part.
    rewrite <- list_elem_of_In, Hf, bool_decide_eq_false_2 by done. done. }
  destruct (Hall integer) as [Hne Hint]; [left|].
  assert (Hno : ∀ part, part ∈ integer :: fraction → COMMA ∉ part).
  { intros part [_ Hf]%Hall Hin. rewrite forallb_forall in Hf. by apply list_elem_of_In, Hf in Hin. }
  pose proof (grouped_digits _ integer (le_n _) Hne) as Hg.
  exists (if negative then [MINUS] else []), integer, (grouped integer),
    match fraction with [] => [] | part :: _ => DOT :: part end.
  assert (Hfraction : value = integer ++ match fraction with [] => [] | part :: _ => DOT :: part end).
  { rewrite Hvalue. f_equal. destruct fraction as [|a [|b fraction]]; [done|csimpl; by rewrite app_nil_r|].
    simpl in Hlen. lia. }
  split_and!; [by rewrite Hsurface, Hfraction at 1|done|done| |done|].
  - rewrite ascii_byte_len in Hbytes by done. lia.
  - rewrite Hsurface, Hfraction, !filter_app. f_equal; [by destruct negative|]. f_equal.
    + apply Grouped_digits; [done|apply Hno; left].
    + destruct fraction as [|part fraction]; [done|]. rewrite filter_cons, decide_True by done.
      f_equal. apply filter_no_comma, Hno. right. left.
Qed.

Lemma comma_separated_correct_witness :
  comma_separated (u "-1234567.05") = Some (u "-1,234,567.05") ∧
  ∃ sign integer separated fraction,
    u "-1234567.05" = sign ++ integer ++ fraction ∧ u "-1,234,567.05" = sign ++ separated ++ fraction ∧
    Grouped integer separated ∧ 3 < length integer ∧ forallb is_ascii_digit integer = true ∧
    filter (λ c : char, c ≠ COMMA) (u "-1,234,567.05") = u "-1234567.05".
Proof.
  assert (H : comma_separated (u "-1234567.05") = Some (u "-1,234,567.05")) by (vm_compute; reflexivity).
  split; [exact H|]. exact (comma_separated_correct _ _ H).
Defined.

(** ** Styles *)

(** The code points of the Mathematical Alphanumeric Symbols block that are not
    assigned: their letters are elsewhere. *)
Definition unassigned : list char := [
  0x1D455; 0x1D49D; 0x1D4A0; 0x1D4A1; 0x1D4A3; 0x1D4A4; 0x1D4A7; 0x1D4A8; 0x1D4AD; 0x1D4BA; 0x1D4BC;
  0x1D4C4; 0x1D506; 0x1D50B; 0x1D50C; 0x1D515; 0x1D51D; 0x1D53A; 0x1D53F; 0x1D545; 0x1D547; 0x1D548;
  0x1D549; 0x1D551; 0x1D6A6; 0x1D6A7; 0x1D7CC; 0x1D7CD]%N.

Definition covers (s : Style) (c : char) : bool :=
  is_ascii_letter c || (is_ascii_digit c && negb (letters_only s)).

Definition ascii : list char := N.of_nat <$> seq 0 128.

Definition style_ok (s : Style) : bool :=
  let t := styled s (filter (λ c, covers s c = true) ascii) in
  bool_decide (NoDup t) && forallb (λ c, is_scalar c && negb (bool_decide (c ∈ unassigned))) t.

Lemma styles_ok : forallb style_ok STYLES = true.
Proof. vm_compute. reflexivity. Qed.

Lemma style_char_inj s c d :
  s ∈ STYLES → covers s c = true → covers s d = true →
  is_scalar (default 0%N (head (styled s [c]))) = true ∧ default 0%N (head (styled s [c])) ∉ unassigned ∧
  (styled s [c] = styled s [d] → c = d).
Proof.
  intros Hs Hc Hd. pose proof styles_ok as Hok. rewrite forallb_forall in Hok.
  apply list_elem_of_In, Hok in Hs. unfold style_ok in Hs.
  apply andb_true_iff in Hs as [Hnd Hall]. apply bool_decide_eq_true in Hnd. rewrite forallb_forall in Hall.
  set (l := filter (λ c, covers s c = true) ascii) in *.
  assert (Hin : ∀ x, covers s x = true → x ∈ l).
  { intros x Hx. apply list_elem_of_filter. split; [done|]. unfold ascii.
    apply list_elem_of_fmap. exists (N.to_nat x). split; [lia|]. apply elem_of_seq.
    unfold covers, is_ascii_letter, is_ascii_uppercase, is_ascii_lowercase, is_ascii_digit in Hx.
    rewrite orb_true_iff, andb_true_iff, orb_true_iff, !Kana.in_range_spec in Hx. lia. }
  pose proof (Hin c Hc) as Hlc. pose proof (Hin d Hd) as Hld.
  set (f := styled_char (uppercase_offset s) (lowercase_offset s) (number_offset s) (exceptions s)) in *.
  change (styled s [c]) with [f c]. change (styled s [d]) with [f d]. change (styled s l) with (f <$> l) in Hall, Hnd.
  simpl. specialize (Hall (f c)). rewrite <- list_elem_of_In in Hall.
  specialize (Hall (list_elem_of_fmap_2 f l c Hlc)).
  apply andb_true_iff in Hall as [Hsc Hun]. apply negb_true_iff, bool_decide_eq_false in Hun.
  split_and!; [done|done|]. intros [= Heq].
  apply list_elem_of_lookup in Hlc as [i Hi]. apply list_elem_of_lookup in Hld as [j Hj].
  assert (i = j) as ->; [|congruence].
  eapply NoDup_lookup; [exact Hnd|by rewrite list_lookup_fmap, Hi|].
  rewrite list_lookup_fmap, Hj. simpl. by rewrite Heq.
Qed.

(** The typographical variants are readable: in each of the thirteen styles, two
    texts of the characters the style covers have different variants, and every
    character of a variant is an assigned code point (the letters that Unicode has
    elsewhere are the exceptions of the table). *)
Theorem styles_readable s t1 t2 :
  s ∈ STYLES → forallb (covers s) t1 = true → forallb (covers s) t2 = true →
  Forall (λ c, is_scalar c = true ∧ c ∉ unassigned) (styled s t1) ∧
  (styled s t1 = styled s t2 → t1 = t2).
Proof.
  intros Hs H1 H2. split.
  - clear H2. induction t1 as [|c t1 IH]; [constructor|]. simpl in H1. apply andb_true_iff in H1 as [Hc H1].
    constructor; [|by apply IH]. by destruct (style_char_inj s c c Hs Hc Hc) as (? & ? & _).
  - revert t2 H1 H2. induction t1 as [|c t1 IH]; intros [|d t2] H1 H2 Heq; try done.
    simpl in H1, H2. apply andb_true_iff in H1 as [Hc H1], H2 as [Hd H2].
    destruct (style_char_inj s c d Hs Hc Hd) as (_ & _ & Hinj). unfold styled in *. csimpl in Heq.
    injection Heq as Hcd Heq. f_equal; [|by apply IH]. apply Hinj. simpl. by rewrite Hcd.
Qed.

Lemma styles_readable_witness :
  ∃ s, s ∈ STYLES ∧
  Forall (λ c, is_scalar c = true ∧ c ∉ unassigned) (styled s (u "Hello")) ∧
  (styled s (u "Hello") = styled s (u "hello") → u "Hello" = u "hello").
Proof.
  exists {| letters_only := true; uppercase_offset := 119795; lowercase_offset := 119789;
            number_offset := None; exceptions := [(104, 8462)]%N |}.
  assert (Hs : {| letters_only := true; uppercase_offset := 119795; lowercase_offset := 119789;
            number_offset := None; exceptions := [(104, 8462)]%N |} ∈ STYLES).
  { unfold STYLES. right. left. }
  split; [exact Hs|]. apply styles_readable; [exact Hs|vm_compute; reflexivity..].
Defined.
