(* ===== verification/ParseFloat.v ===== *)
(** * Parsing of decimal numbers

    [f32::from_str] of the standard library: the grammar of decimal numbers, and
    the float nearest to the number that is read. *)

From Stdlib Require Import Floats.SpecFloat.
From S2P Require Import Prelude Unicode F32 TextUtil.

#[local] Open Scope Z_scope.

Fixpoint span_digits (s : ustring) : ustring * ustring :=
  match s with
  | c :: s' => if is_ascii_digit c then let '(d, r) := span_digits s' in (c :: d, r) else ([], s)
  | [] => ([], [])
  end.

(** A leading sign *)
Definition split_sign (s : ustring) : bool * ustring :=
  match s with
  | c :: s' => if decide (c = 43%N) then (false, s') else if decide (c = 45%N) then (true, s') else (false, s)
  | [] => (false, [])
  end.

(** [e] or [E], a sign, at least a digit, and the end *)
Definition parse_exponent (s : ustring) : option Z :=
  match s with
  | [] => Some 0
  | c :: s' =>
      if decide (c ∈ [101; 69]%N) then
        let '(negative, s') := split_sign s' in
        match span_digits s' with
        | ((_ :: _) as digits, []) =>
            v ← digits_value 10 digits; Some (if (negative : bool) then - v else v)
        | _ => None
        end
      else None
  end.

(** An unsigned decimal number [n * 10 ^ e] *)
Definition parse_decimal (s : ustring) : option (Z * Z) :=
  let '(whole, r) := span_digits s in
  let '(fraction, r) := match r with
                        | c :: r' => if decide (c = 46%N) then span_digits r' else ([], r)
                        | [] => ([], [])
                        end in
  if decide (whole ++ fraction = []) then None
  else
    n ← digits_value 10 (whole ++ fraction);
    e ← parse_exponent r;
    Some (n, e - Z.of_nat (length fraction)).

(** The float nearest to [n * 10 ^ e]: an exact integer, or a quotient with more
    bits than a float has and a last bit that tells whether there is a remainder. *)
Definition nearest (n e : Z) : f32 :=
  if decide (0 ≤ e) then binary_normalize 24 128 (n * 10 ^ e) 0 false
  else
    let denominator := 10 ^ (- e) in
    let shift := Z.log2 denominator + 30 in
    let '(q, r) := Z.div_eucl (n * 2 ^ shift) denominator in
    binary_normalize 24 128 (2 * q + (if decide (r = 0) then 0 else 1)) (- (shift + 1)) false.

Definition lowercase_ascii (s : ustring) : ustring :=
  (λ c, if is_ascii_uppercase c then (c + 32)%N else c) <$> s.

Definition parse_f32 (s : ustring) : option f32 :=
  let '(negative, s) := split_sign s in
  v ← (if decide (lowercase_ascii s ∈ [u "inf"; u "infinity"]) then Some (S754_infinity false)
       else if decide (lowercase_ascii s = u "nan") then Some S754_nan
       else ne ← parse_decimal s; Some (nearest ne.1 ne.2));
  Some (if (negative : bool) then fopp v else v).

Example parsed_floats :
  parse_f32 (u "-30.0") = Some (fopp (of_nat 30)) ∧ parse_f32 (u ".5") = Some (lit 1 2) ∧
  parse_f32 (u "1e-7") = Some (lit 1 10000000) ∧ parse_f32 (u "16777217") = Some (of_Z 16777216) ∧
  parse_f32 (u "0.1") = Some (from_bits 0x3DCCCCCD) ∧ parse_f32 (u "1e-45") = Some (from_bits 1) ∧
  parse_f32 (u "3.4028236e38") = Some (S754_infinity false) ∧
  parse_f32 (u "3.4028235e38") = Some (from_bits 0x7F7FFFFF) ∧
  parse_f32 (u ".") = None ∧ parse_f32 (u "1.") = Some (of_nat 1) ∧ parse_f32 (u "1e") = None ∧
  parse_f32 (u "") = None ∧ parse_f32 (u "-") = None.
Proof. vm_compute. by split_and!. Qed.
