(* ===== verification/DictionaryStore.v ===== *)
(** * The dictionary store

    src/crates/converter/src/dictionary/store.rs: the lookups in the dictionary
    files, with the caches of LOUDS indexes, shards and connection lines, and the
    hints that follow a word. The files do not change while the store is open; a
    mutex is poisoned only by a panic under its lock, and none occurs, so that the
    error [Poisoned] is never raised. *)

From Stdlib Require Import String.
From S2P Require Import Prelude Unicode F32 Dictionary Collections Louds MemoryIndex DictBinary LearningRecords LearningFiles Action Utf8 TextUtil ParseFloat.

(** ** Files *)

Inductive FileRead :=
  | Contents (bytes : list byte)
  | NotFound
  | Unreadable.

(** The files under the root, by relative path. *)
Class Files := read_file : ustring → FileRead.

Inductive DictionaryError :=
  | DictionaryIo (path : ustring)
  | Binary (error : DictionaryBinaryError)
  | LoudsFailure (error : LoudsError)
  | Learning (error : LearningError).

(** Errors of the parsers, converted by [From] *)
Definition lift_binary {A} (m : outcome DictionaryBinaryError A) : outcome DictionaryError A :=
  match m with Return a => Return a | Raise e => Raise (Binary e) | Panic => Panic end.
Definition lift_louds {A} (m : outcome LoudsError A) : outcome DictionaryError A :=
  match m with Return a => Return a | Raise e => Raise (LoudsFailure e) | Panic => Panic end.

(** [read], [read_to_string] and [read_optional]; a text file that is not UTF-8 is an
    error of the system. *)
Definition read `{Files} (path : ustring) : outcome DictionaryError (list byte) :=
  match read_file path with Contents bytes => mret bytes | _ => Raise (DictionaryIo path) end.
Definition read_to_string `{Files} (path : ustring) : outcome DictionaryError ustring :=
  bytes ← read path;
  match from_utf8 bytes with Some s => mret s | None => Raise (DictionaryIo path) end.
Definition read_optional `{Files} (path : ustring) : outcome DictionaryError (option (list byte)) :=
  match read_file path with
  | Contents bytes => mret (Some bytes)
  | NotFound => mret None
  | Unreadable => Raise (DictionaryIo path)
  end.

(** ** Names *)

Definition LOUDS_DIRECTORY : ustring := Eval vm_compute in u "louds/".
Definition LOUDS_SUFFIX : ustring := Eval vm_compute in u ".louds".
Definition CHARS_SUFFIX : ustring := Eval vm_compute in u ".loudschars2".
Definition CHARACTER_FILE : ustring := Eval vm_compute in u "louds/charID.chid".
Definition MEANING_FILE : ustring := Eval vm_compute in u "mm.binary".
Definition CONNECTION_DIRECTORY : ustring := Eval vm_compute in u "cb/".
Definition BINARY_SUFFIX : ustring := Eval vm_compute in u ".binary".
Definition HINT_PREFIX : ustring := Eval vm_compute in u "p/pc_".
Definition CSV_SUFFIX : ustring := Eval vm_compute in u ".csv".

Definition DEFAULT_CONNECTION_COST : f32 := fopp (of_nat 25).

(** [by_shard.entry(shard).or_default().push(index)] on a [BTreeMap] *)
Fixpoint push_shard (shard index : nat) (by_shard : list (nat * list nat)) : list (nat * list nat) :=
  match by_shard with
  | [] => [(shard, [index])]
  | (s, indices) :: rest =>
      if decide (shard < s) then (shard, [index]) :: by_shard
      else if decide (shard = s) then (s, indices ++ [index]) :: rest
      else (s, indices) :: push_shard shard index rest
  end.

Definition group_nodes (nodes : list nat) : list (nat * list nat) :=
  foldl (λ by_shard node, push_shard (node / SHARD_SIZE) (node `mod` SHARD_SIZE) by_shard) [] nodes.

(** ** The lookups, over the loaders of the files *)

Record DictionaryStore := {
  character_ids : CharacterIdMap.t;
  meaning_matrix : MeaningMatrix;
}.

Section lookups.
Context `{Segmentation} {S : Type} (store : DictionaryStore).
Context (load_louds : ustring → action S DictionaryError (option Louds)).
Context (load_shard : ustring → action S DictionaryError (list byte)).
Context (load_line : nat → action S DictionaryError (option (list f32))).

Definition lookup_key (r : ustring) : option (ustring * list byte) :=
  identifier ← head (graphemes r);
  ids ← CharacterIdMap.encode (character_ids store) r;
  Some (identifier, ids).

Definition load_entries (identifier : ustring) (nodes : list nat) :
    action S DictionaryError (list DictionaryEntry) :=
  for_each (λ output '(shard, indices),
      binary ← load_shard (escaped_identifier identifier ++ decimal shard);
      entries ← lift (lift_binary (parse_entry_shard binary indices));
      mret (output ++ entries))
    [] (group_nodes nodes).

Definition exact_match (r : ustring) : action S DictionaryError (list DictionaryEntry) :=
  match lookup_key r with
  | None => mret []
  | Some (identifier, ids) =>
      louds ← load_louds identifier;
      match louds ≫= λ l, search l ids with
      | None => mret []
      | Some node => load_entries identifier [node]
      end
  end.

(** The loop of [matches_from_start]: the characters so far, their number, the matches. *)
Fixpoint match_graphemes (identifier : ustring) (louds : Louds) (ids : list byte) (index : nat)
    (output : list DictionaryMatch) (gs : list Grapheme) : action S DictionaryError (list DictionaryMatch) :=
  match gs with
  | [] => mret output
  | g :: gs =>
      match CharacterIdMap.id (character_ids store) g with
      | None => mret output
      | Some id =>
          let ids := ids ++ [id] in
          match search louds ids with
          | None => mret output
          | Some node =>
              entries ← load_entries identifier [node];
              match_graphemes identifier louds ids (1 + index)
                (if decide (entries = []) then output
                 else output ++ [{| surface_end := index + 1; match_entries := entries |}]) gs
          end
      end
  end.

Definition matches_from_start (r : ustring) (maximum_length : nat) :
    action S DictionaryError (list DictionaryMatch) :=
  match graphemes r with
  | [] => mret []
  | (identifier :: _) as gs =>
      louds ← load_louds identifier;
      match louds with
      | None => mret []
      | Some louds => match_graphemes identifier louds [] 0 [] (take maximum_length gs)
      end
  end.

Definition entries_after_prefix (r : ustring) (maximum_depth : N) (maximum_count : nat) :
    action S DictionaryError (list DictionaryEntry) :=
  match lookup_key r with
  | None => mret []
  | Some (identifier, ids) =>
      louds ← load_louds identifier;
      match louds with
      | None => mret []
      | Some louds =>
          nodes ← expect (descendants louds ids maximum_depth maximum_count);
          load_entries identifier nodes
      end
  end.

Definition connection_cost (former latter : nat) : action S DictionaryError f32 :=
  line ← load_line former;
  mret (default DEFAULT_CONNECTION_COST (line ≫= λ line, line !! latter)).

Definition meaning_cost (former latter : nat) : option f32 :=
  meaning_matrix_get (meaning_matrix store) former latter.
End lookups.

(** ** The loaders *)

Section loaders.
Context `{Segmentation} `{Files}.

(** The index of an identifier, and the line of a class, as the files hold them. *)
Definition louds_file (identifier : ustring) : outcome DictionaryError (option Louds) :=
  let escaped := escaped_identifier identifier in
  bits ← read_optional (LOUDS_DIRECTORY ++ escaped ++ LOUDS_SUFFIX);
  chars ← read_optional (LOUDS_DIRECTORY ++ escaped ++ CHARS_SUFFIX);
  match bits, chars with
  | Some bits, Some chars => l ← lift_louds (Louds.parse bits chars); mret (Some l)
  | _, _ => mret None
  end.

Definition shard_contents (file : ustring) : outcome DictionaryError (list byte) :=
  read (LOUDS_DIRECTORY ++ file ++ shard_suffix).

Definition connection_line (former : nat) : outcome DictionaryError (option (list f32)) :=
  let path := CONNECTION_DIRECTORY ++ decimal former ++ BINARY_SUFFIX in
  match read_file path with
  | Contents binary => line ← lift_binary (parse_connection_cost_line binary); mret (Some line)
  | NotFound => mret None
  | Unreadable => Raise (DictionaryIo path)
  end.

(** The caches behind the locks *)
Record StoreCaches := {
  louds_cache : gmap ustring (option Louds);
  shard_cache : gmap ustring (list byte);
  line_cache : gmap nat (option (list f32));
}.

Definition empty_caches : StoreCaches :=
  {| louds_cache := ∅; shard_cache := ∅; line_cache := ∅ |}.

Definition load_louds (identifier : ustring) : action StoreCaches DictionaryError (option Louds) :=
  cached ← gets (λ c, louds_cache c !! identifier);
  match cached with
  | Some value => mret value
  | None =>
      value ← lift (louds_file identifier);
      _ ← modify (λ c, {| louds_cache := <[identifier := value]> (louds_cache c);
                          shard_cache := shard_cache c; line_cache := line_cache c |});
      mret value
  end.

Definition load_shard (file : ustring) : action StoreCaches DictionaryError (list byte) :=
  cached ← gets (λ c, shard_cache c !! file);
  match cached with
  | Some binary => mret binary
  | None =>
      binary ← lift (shard_contents file);
      _ ← modify (λ c, {| louds_cache := louds_cache c;
                          shard_cache := <[file := binary]> (shard_cache c);
                          line_cache := line_cache c |});
      mret binary
  end.

Definition load_line (former : nat) : action StoreCaches DictionaryError (option (list f32)) :=
  cached ← gets (λ c, line_cache c !! former);
  match cached with
  | Some line => mret line
  | None =>
      line ← lift (connection_line former);
      _ ← modify (λ c, {| louds_cache := louds_cache c; shard_cache := shard_cache c;
                          line_cache := <[former := line]> (line_cache c) |});
      mret line
  end.

(** [DictionaryStore::open] *)
Definition open_store : outcome DictionaryError DictionaryStore :=
  characters ← read_to_string CHARACTER_FILE;
  ids ← match CharacterIdMap.parse characters with
        | Ok ids => mret ids
        | Err e => Raise (LoudsFailure e)
        end;
  binary ← read MEANING_FILE;
  matrix ← match meaning_matrix_parse binary with
           | Ok m => mret m
           | Err e => Raise (Binary e)
           end;
  mret {| character_ids := ids; meaning_matrix := matrix |}.

(** *** Hints *)

Definition parse_u16 : ustring → option Z := parse_int 10 0 65535.

Definition parse_prediction_entry (line : ustring) : DictionaryEntry :=
  let fields := Text.split_on 44 line in
  let field (n : nat) : option ustring := fields !! n in
  let ruby := default [] (field 0) in
  let left_id := default 0 (Z.to_nat <$> (field 2 ≫= parse_u16)) in
  {| word := match default [] (field 1) with [] => ruby | word => word end;
     ruby := ruby; left_id := left_id;
     right_id := default left_id (Z.to_nat <$> (field 3 ≫= parse_u16));
     meaning_id := default 0 (Z.to_nat <$> (field 4 ≫= parse_u16));
     base_value := default (fopp (of_nat 30)) (field 5 ≫= parse_f32);
     adjustment := zero; metadata := no_metadata |}.

Definition zero_hint_entries (right_id : nat) : outcome DictionaryError (list DictionaryEntry) :=
  let path := HINT_PREFIX ++ decimal right_id ++ CSV_SUFFIX in
  match read_file path with
  | NotFound => mret []
  | _ => content ← read_to_string path; mret (parse_prediction_entry <$> Text.lines content)
  end.
End loaders.
