(* ===== verification/DictionaryStoreSpec.v ===== *)
(** * The dictionary store answers from its files

    The caches of src/crates/converter/src/dictionary/store.rs are invisible, no
    lookup panics whatever the files hold, and over well-formed files the store is a
    lawful dictionary for the conversion. *)

From Stdlib Require Import String.
From S2P Require Import Prelude Unicode F32 Dictionary Collections Louds MemoryIndex DictBinary LearningRecords LearningFiles Action Utf8 TextUtil ParseFloat LearningMemorySpec DictionaryStore.

(** ** Queries *)

Inductive query :=
  | Exact (r : ustring)
  | FromStart (r : ustring) (maximum_length : nat)
  | AfterPrefix (r : ustring) (maximum_depth : N) (maximum_count : nat)
  | Cost (former latter : nat).

Inductive reply :=
  | EntriesReply (es : list DictionaryEntry)
  | MatchesReply (ms : list DictionaryMatch)
  | CostReply (cost : f32).

Section queries.
Context `{Segmentation} {S : Type} (store : DictionaryStore).
Context (louds : ustring → action S DictionaryError (option Louds)).
Context (shard : ustring → action S DictionaryError (list byte)).
Context (line : nat → action S DictionaryError (option (list f32))).

Definition run_query (q : query) : action S DictionaryError reply :=
  match q with
  | Exact r => es ← exact_match store louds shard r; mret (EntriesReply es)
  | FromStart r n => ms ← matches_from_start store louds shard r n; mret (MatchesReply ms)
  | AfterPrefix r depth n => es ← entries_after_prefix store louds shard r depth n; mret (EntriesReply es)
  | Cost former latter => cost ← connection_cost line former latter; mret (CostReply cost)
  end.
End queries.

(** ** Lookups do what their loaders do *)

Section lookups.
Context `{Segmentation} {S T : Type} (I : S → T → Prop) (store : DictionaryStore).
Context (louds : ustring → action S DictionaryError (option Louds))
  (louds' : ustring → action T DictionaryError (option Louds)).
Context (shard : ustring → action S DictionaryError (list byte))
  (shard' : ustring → action T DictionaryError (list byte)).
Context (line : nat → action S DictionaryError (option (list f32)))
  (line' : nat → action T DictionaryError (option (list f32))).
Context (Hlouds : ∀ i, agree I (louds i) (louds' i)).
Context (Hshard : ∀ f, agree I (shard f) (shard' f)).
Context (Hline : ∀ f, agree I (line f) (line' f)).

Lemma load_entries_agrees identifier nodes :
  agree I (load_entries shard identifier nodes) (load_entries shard' identifier nodes).
Proof using Hshard.
  apply agree_for_each. intros output [s indices]. apply agree_bind; [done|]. intros binary.
  apply agree_bind; [apply agree_lift|]. intros es. apply agree_ret.
Qed.

Lemma match_graphemes_agrees identifier l gs : ∀ ids index output,
  agree I (match_graphemes store shard identifier l ids index output gs)
    (match_graphemes store shard' identifier l ids index output gs).
Proof using Hshard.
  induction gs as [|g gs IH]; intros ids index output; simpl; [apply agree_ret|].
  destruct (CharacterIdMap.id _ g); [|apply agree_ret]. destruct (search _ _); [|apply agree_ret].
  apply agree_bind; [apply load_entries_agrees|]. intros es. apply IH.
Qed.

Lemma run_query_agrees q :
  agree I (run_query store louds shard line q) (run_query store louds' shard' line' q).
Proof using Hlouds Hshard Hline.
  destruct q; simpl; (apply agree_bind; [|intros; apply agree_ret]).
  - unfold exact_match. destruct (lookup_key _ _) as [[i ids]|]; [|apply agree_ret].
    apply agree_bind; [done|]. intros l. destruct (l ≫= _); [apply load_entries_agrees|apply agree_ret].
  - unfold matches_from_start. destruct (graphemes r) as [|g gs]; [apply agree_ret|].
    apply agree_bind; [done|]. intros [l|]; [apply match_graphemes_agrees|apply agree_ret].
  - unfold entries_after_prefix. destruct (lookup_key _ _) as [[i ids]|]; [|apply agree_ret].
    apply agree_bind; [done|]. intros [l|]; [|apply agree_ret].
    apply agree_bind; [apply agree_lift|]. intros nodes. apply load_entries_agrees.
  - apply agree_bind; [done|]. intros l. apply agree_ret.
Qed.
End lookups.

(** ** The store that reads its files every time *)

Section direct.
Context `{Segmentation} `{Files} (store : DictionaryStore).

Definition direct_louds (i : ustring) : action () DictionaryError (option Louds) := lift (louds_file i).
Definition direct_shard (f : ustring) : action () DictionaryError (list byte) := lift (shard_contents f).
Definition direct_line (n : nat) : action () DictionaryError (option (list f32)) :=
  lift (connection_line n).
Definition direct_query (q : query) : action () DictionaryError reply :=
  run_query store direct_louds direct_shard direct_line q.
Definition cached_query (q : query) : action StoreCaches DictionaryError reply :=
  run_query store load_louds load_shard load_line q.

(** What the caches hold is what the files hold. *)
Definition caches_sound (c : StoreCaches) : Prop :=
  (∀ i v, louds_cache c !! i = Some v → louds_file i = Return v) ∧
  (∀ f v, shard_cache c !! f = Some v → shard_contents f = Return v) ∧
  (∀ n v, line_cache c !! n = Some v → connection_line n = Return v).

Lemma load_louds_agrees i : agree (λ c _, caches_sound c) (load_louds i) (direct_louds i).
Proof.
  intros c [] Hc. unfold load_louds, direct_louds, mbind, action_bind. simpl.
  destruct (louds_cache c !! i) as [v|] eqn:Hi; simpl.
  - split; [done|]. destruct Hc as (H1 & _). by rewrite (H1 _ _ Hi).
  - unfold lift. destruct (louds_file i) as [v|e|] eqn:Hl; simpl; [|done..]. split; [|done].
    destruct Hc as (H1 & H2 & H3). split_and!; [|done..]. simpl. intros j w.
    rewrite lookup_insert_Some. naive_solver.
Qed.

Lemma load_shard_agrees f : agree (λ c _, caches_sound c) (load_shard f) (direct_shard f).
Proof.
  intros c [] Hc. unfold load_shard, direct_shard, mbind, action_bind. simpl.
  destruct (shard_cache c !! f) as [v|] eqn:Hi; simpl.
  - split; [done|]. destruct Hc as (_ & H2 & _). by rewrite (H2 _ _ Hi).
  - unfold lift. destruct (shard_contents f) as [v|e|] eqn:Hl; simpl; [|done..]. split; [|done].
    destruct Hc as (H1 & H2 & H3). split_and!; [done| |done]. simpl. intros j w.
    rewrite lookup_insert_Some. naive_solver.
Qed.

Lemma load_line_agrees n : agree (λ c _, caches_sound c) (load_line n) (direct_line n).
Proof.
  intros c [] Hc. unfold load_line, direct_line, mbind, action_bind. simpl.
  destruct (line_cache c !! n) as [v|] eqn:Hi; simpl.
  - split; [done|]. destruct Hc as (_ & _ & H3). by rewrite (H3 _ _ Hi).
  - unfold lift. destruct (connection_line n) as [v|e|] eqn:Hl; simpl; [|done..]. split; [|done].
    destruct Hc as (H1 & H2 & H3). split_and!; [done..|]. simpl. intros j w.
    rewrite lookup_insert_Some. naive_solver.
Qed.

Lemma cached_query_agrees q : agree (λ c _, caches_sound c) (cached_query q) (direct_query q).
Proof.
  apply run_query_agrees; [apply load_louds_agrees|apply load_shard_agrees|apply load_line_agrees].
Qed.

(** *** No file makes a lookup panic *)

Lemma np_lift_safe {S E A} (m : outcome E A) : safe m (λ _, True) → never_panics (lift (S:=S) m).
Proof. intros Hm s _. by destruct m. Qed.

Lemma louds_file_safe i : safe (louds_file i) (λ _, True).
Proof.
  unfold louds_file, read_optional. do 2 (apply safe_bind; destruct (read_file _); try done; cbn).
  apply safe_bind. pose proof (Louds.parse_safe bytes bytes0) as Hp. unfold lift_louds.
  by destruct (Louds.parse bytes bytes0).
Qed.

Lemma load_entries_total identifier nodes : never_panics (load_entries direct_shard identifier nodes).
Proof.
  apply np_for_each. intros output [s indices]. apply np_bind.
  - apply np_lift_safe. unfold shard_contents, read. by destruct (read_file _).
  - intros binary. apply np_bind; [|intros; apply np_ret]. apply np_lift_safe.
    pose proof (parse_entry_shard_safe binary indices). unfold lift_binary.
    by destruct (parse_entry_shard binary indices).
Qed.

Lemma chunks_exact_nil {A} size (l : list A) : 0 < size → size ≤ length l → chunks_exact size l ≠ [].
Proof.
  intros Hs Hl. unfold chunks_exact, chunks. destruct l as [|x l]; [simpl in Hl; lia|].
  cbn [length chunks_fuel]. rewrite filter_cons, decide_True; [done|].
  rewrite length_take. simpl in *. lia.
Qed.

Lemma parse_connection_cost_line_safe binary : safe (parse_connection_cost_line binary) (λ _, True).
Proof.
  unfold parse_connection_cost_line. apply safe_bind, require_safe. intros Hlen. case_decide; [done|].
  destruct (chunks_exact 8 binary) as [|first rest] eqn:Hc.
  { by apply chunks_exact_nil in Hc; [|lia|]. }
  case_decide; [done|]. apply (safe_for_each (λ _, True)); [|done|done].
  intros record line _ _. eapply safe_mono; [apply cost_step_safe|done].
Qed.

Lemma connection_line_safe n : safe (connection_line n) (λ _, True).
Proof.
  unfold connection_line. destruct (read_file _); try done. apply safe_bind.
  pose proof (parse_connection_cost_line_safe bytes). unfold lift_binary.
  by destruct (parse_connection_cost_line bytes).
Qed.

Lemma match_graphemes_total identifier l gs : ∀ ids index output,
  never_panics (match_graphemes store direct_shard identifier l ids index output gs).
Proof.
  induction gs as [|g gs IH]; intros ids index output; simpl; [apply np_ret|].
  destruct (CharacterIdMap.id _ g); [|apply np_ret]. destruct (search _ _); [|apply np_ret].
  apply np_bind; [apply load_entries_total|]. intros es. apply IH.
Qed.

Lemma direct_query_total q : never_panics (direct_query q).
Proof.
  destruct q; simpl; (apply np_bind; [|intros; apply np_ret]).
  - unfold exact_match. destruct (lookup_key _ _) as [[i ids]|]; [|apply np_ret].
    apply np_bind; [apply np_lift_safe, louds_file_safe|]. intros l.
    destruct (l ≫= _); [apply load_entries_total|apply np_ret].
  - unfold matches_from_start. destruct (graphemes r) as [|g gs]; [apply np_ret|].
    apply np_bind; [apply np_lift_safe, louds_file_safe|]. intros [l|]; [|apply np_ret].
    apply match_graphemes_total.
  - unfold entries_after_prefix. destruct (lookup_key _ _) as [[i ids]|]; [|apply np_ret].
    apply np_bind; [apply np_lift_safe, louds_file_safe|]. intros [l|]; [|apply np_ret].
    apply np_expect_bind; [apply descendants_total|]. intros nodes _. apply load_entries_total.
  - apply np_bind; [apply np_lift_safe, connection_line_safe|]. intros l. apply np_ret.
Qed.
End direct.

(** ** Paths in an index *)

(** [reach l parent ids n]: the children labelled [ids] lead from [parent] to [n]. *)
Inductive reach (l : Louds) : nat → list byte → nat → Prop :=
  | reach_refl n : reach l n [] n
  | reach_step parent child c ids n :
      child ∈ range_nodes (child_range l parent) → node_ids l !! child = Some c →
      reach l child ids n → reach l parent (c :: ids) n.

Lemma reach_app l a ids b ids' c : reach l a ids b → reach l b ids' c → reach l a (ids ++ ids') c.
Proof. induction 1; intros; [done|]. econstructor; eauto. Qed.

Lemma search_reach l node ids n : search_from l node ids = Some n → reach l node ids n.
Proof.
  revert node. induction ids as [|c ids IH]; intros node; cbn [search_from].
  { intros [= ->]. constructor. }
  intros (child & Hc & Hn)%bind_Some. unfold search_child in Hc.
  apply fmap_Some in Hc as ([i child'] & Hc & ->). apply list_find_Some in Hc as (Hi & Hid & _).
  econstructor; [by eapply list_elem_of_lookup_2|done|by apply IH].
Qed.

Lemma parse_ranges bits ids l :
  Louds.parse bits ids = Return l → Forall (λ r, r.2 ≤ length (node_ids l)) (child_ranges l).
Proof.
  unfold Louds.parse. case_decide; [done|]. case_decide; [done|]. intros Hp.
  apply outcome_bind_Return in Hp as (ranges & Hr & Hp). cbn in Hp. injection Hp as <-. simpl.
  revert Hr. generalize (seq 1 (length ids - 1)) as nodes.
  assert (Hinit : Forall (λ r : nat * nat, r.2 ≤ length ids) (replicate (length ids) (0, 0))).
  { apply Forall_replicate. simpl. lia. }
  revert Hinit. generalize (replicate (length ids) (0, 0)) as rs.
  set (zeros := scan_words _ _ _ _). intros rs Hrs nodes. revert rs Hrs.
  induction nodes as [|node nodes IH]; intros rs Hrs Hr; [by injection Hr as <-|].
  cbn [for_each] in Hr. apply outcome_bind_Return in Hr as (rs' & Hstep & Hr).
  apply (IH rs'); [|done]. unfold range_step in Hstep.
  apply outcome_bind_Return in Hstep as (p & _ & Hstep).
  apply outcome_bind_Return in Hstep as (start & _ & Hstep).
  apply outcome_bind_Return in Hstep as (z & _ & Hstep).
  apply outcome_bind_Return in Hstep as (stop & _ & Hstep). case_decide; [|done].
  cbn in Hstep. injection Hstep as <-. apply Forall_insert; [done|]. simpl. lia.
Qed.

(** What the enumeration below a node finds is below the node. *)
Lemma descendants_from_reach l fuel : Forall (λ r, r.2 ≤ length (node_ids l)) (child_ranges l) →
  ∀ parent depth max_depth max_count out n,
  descendants_from fuel l parent depth max_depth max_count = Some out → n ∈ out →
  ∃ ids, reach l parent ids n.
Proof.
  intros Hranges. assert (Hchild : ∀ parent child, child ∈ range_nodes (child_range l parent) →
    ∃ c, node_ids l !! child = Some c).
  { intros parent child Hin. unfold child_range in Hin.
    destruct (child_ranges l !! parent) as [r|] eqn:Hr; simpl in Hin.
    - apply elem_of_seq in Hin. rewrite Forall_lookup in Hranges. apply Hranges in Hr.
      apply lookup_lt_is_Some. lia.
    - by apply elem_of_nil in Hin. }
  induction fuel as [|fuel IH]; intros parent depth max_depth max_count out n Hd Hn; [done|].
  cbn [descendants_from] in Hd.
  assert (Hdirect : ∀ child, child ∈ range_nodes (child_range l parent) → ∃ c, reach l parent [c] child).
  { intros child Hc. destruct (Hchild parent child Hc) as [c Hid]. exists c.
    econstructor; [done|done|constructor]. }
  destruct (depth =? max_depth)%N; [simplify_eq; naive_solver|].
  assert (Hextend : ∀ direct output,
    (∀ c, c ∈ direct → c ∈ range_nodes (child_range l parent)) →
    (∀ m, m ∈ output → ∃ ids, reach l parent ids m) →
    extend_children (λ child count, descendants_from fuel l child (depth + 1) max_depth count)
      max_count direct output = Some out → ∃ ids, reach l parent ids n).
  { induction direct as [|child direct IHd]; intros output Hsub Hout He; cbn [extend_children] in He;
      [simplify_eq; auto|].
    case_decide; [simplify_eq; auto|].
    destruct (descendants_from fuel l child (depth + 1) max_depth (max_count - length output))
      as [below|] eqn:Hb; [|done]. cbn in He.
    apply (IHd (output ++ below)); [intros; apply Hsub; by right| |done].
    intros m [Hm|Hm]%elem_of_app; [auto|].
    destruct (IH _ _ _ _ _ _ Hb Hm) as [ids Hr].
    destruct (Hdirect child) as [c Hc]; [apply Hsub; left|].
    exists ([c] ++ ids). by eapply reach_app. }
  apply (Hextend (range_nodes (child_range l parent)) (range_nodes (child_range l parent))); [done| |done].
  intros m [c Hm]%Hdirect. by exists [c].
Qed.

(** ** A lawful dictionary *)

Section lawful.
Context `{SegmentationLaws} `{Files} (store : DictionaryStore).

(** The entry [e] is in the files, in the slot of the node. *)
Definition entry_at (identifier : ustring) (node : nat) (e : DictionaryEntry) : Prop :=
  ∃ binary es, shard_contents (escaped_identifier identifier ++ decimal (node / SHARD_SIZE)) = Return binary ∧
    parse_entry_shard binary [node `mod` SHARD_SIZE] = Return es ∧ e ∈ es.

(** Well-formed files: an entry is filed under the node of its reading. *)
Definition filed : Prop := ∀ identifier l ids node e,
  louds_file identifier = Return (Some l) → reach l 1 ids node → entry_at identifier node e →
  CharacterIdMap.encode (character_ids store) (ruby e) = Some ids.

(** The answer of the store that reads its files; it never panics
    ([direct_query_total]). *)
Definition answer {A} (m : action () DictionaryError A) : result DictionaryError A :=
  match (m ()).2 with
  | Return a => Ok a
  | Raise e => Err e
  | Panic => Err (DictionaryIo [])
  end.

#[export] Instance store_dictionary : Dictionary DictionaryError := {
  Dictionary.matches_from_start r n := answer (matches_from_start store direct_louds direct_shard r n);
  Dictionary.exact_match r := answer (exact_match store direct_louds direct_shard r);
  Dictionary.entries_after_prefix r depth n :=
    answer (entries_after_prefix store direct_louds direct_shard r depth n);
  Dictionary.connection_cost former latter := answer (connection_cost direct_line former latter);
  Dictionary.meaning_cost former latter := meaning_cost store former latter;
}.

Lemma answer_Ok {A} (m : action () DictionaryError A) a : answer m = Ok a → m () = ((), Return a).
Proof.
  unfold answer. destruct (m ()) as [[] o] eqn:E. simpl. destruct o; [intros [= ->]|done..]. done.
Qed.

Lemma run_bind_inv {S E A B} (m : action S E A) (f : A → action S E B) s s' b :
  (m ≫= f) s = (s', Return b) → ∃ s1 a, m s = (s1, Return a) ∧ f a s1 = (s', Return b).
Proof. unfold mbind, action_bind. destruct (m s) as [s1 [a|e|]]; intros Hb; simplify_eq; eauto. Qed.

Lemma elem_of_push_shard shard index by_shard s indices i :
  (s, indices) ∈ push_shard shard index by_shard → i ∈ indices →
  (s = shard ∧ i = index) ∨ ∃ indices', (s, indices') ∈ by_shard ∧ i ∈ indices'.
Proof.
  induction by_shard as [|[t ix] rest IH]; simpl.
  - intros [[= -> ->]|?%elem_of_nil]%elem_of_cons Hi; [|done]. left. by apply list_elem_of_singleton in Hi.
  - case_decide; [|case_decide as Hst].
    + intros [[= -> ->]|Hin]%elem_of_cons Hi; [left; by apply list_elem_of_singleton in Hi|eauto].
    + intros [[= -> ->]|Hin]%elem_of_cons Hi; [|right; eexists; split; [by right|done]].
      apply elem_of_app in Hi as [Hi|Hi%list_elem_of_singleton]; [|by left].
      right. eexists. split; [by left|done].
    + intros [[= -> ->]|Hin]%elem_of_cons Hi; [right; eexists; split; [by left|done]|].
      destruct (IH Hin Hi) as [|(ix' & ? & ?)]; [by left|]. right. exists ix'. split; [by right|done].
Qed.

Lemma group_nodes_in nodes s indices i :
  (s, indices) ∈ group_nodes nodes → i ∈ indices →
  ∃ node, node ∈ nodes ∧ s = node / SHARD_SIZE ∧ i = node `mod` SHARD_SIZE.
Proof.
  unfold group_nodes. revert indices. induction nodes as [|node nodes IH] using rev_ind; intros indices.
  { intros ?%elem_of_nil. done. }
  rewrite foldl_app. simpl. intros Hin Hi.
  destruct (elem_of_push_shard _ _ _ _ _ _ Hin Hi) as [[-> ->]|(indices' & Hin' & Hi')].
  - exists node. split; [|split; reflexivity]. apply elem_of_app. right. left.
  - destruct (IH _ Hin' Hi') as (n & Hn & Hs & Hx). exists n. split; [|split; [exact Hs|exact Hx]].
    apply elem_of_app. by left.
Qed.

(** The entries of several slots are the entries of each of them. *)
Lemma parse_slots_in binary slot_count indices : ∀ output es e,
  for_each (parse_slot binary slot_count) output indices = Return es → e ∈ es →
  e ∈ output ∨ ∃ i es', i ∈ indices ∧ parse_slot binary slot_count [] i = Return es' ∧ e ∈ es'.
Proof.
  induction indices as [|i indices IH]; intros output es e Hes He.
  { injection Hes as <-. by left. }
  cbn [for_each] in Hes. apply outcome_bind_Return in Hes as (output' & Hslot & Hes).
  assert (∃ es', parse_slot binary slot_count [] i = Return es' ∧ output' = output ++ es') as (es' & Hi & ->).
  { unfold parse_slot in *. case_decide; [done|].
    apply outcome_bind_Return in Hslot as (start & Hst & Hslot). rewrite Hst. cbn [mbind outcome_mbind].
    apply outcome_bind_Return in Hslot as (stop & Hsp & Hslot). rewrite Hsp. cbn [mbind outcome_mbind].
    case_decide; [done|].
    apply outcome_bind_Return in Hslot as (block & Hb & Hslot). rewrite Hb. cbn [mbind outcome_mbind].
    apply outcome_bind_Return in Hslot as (es' & He' & Hslot). rewrite He'. cbn [mbind outcome_mbind].
    injection Hslot as <-. by exists es'. }
  destruct (IH _ _ _ Hes He) as [[Ho|Ho]%elem_of_app|(j & es2 & Hj & Hp & He2)]; [by left|..].
  - right. exists i, es'. split; [left|done].
  - right. exists j, es2. split; [by right|done].
Qed.

Lemma parse_shard_in binary indices es e :
  parse_entry_shard binary indices = Return es → e ∈ es →
  ∃ i es', i ∈ indices ∧ parse_entry_shard binary [i] = Return es' ∧ e ∈ es'.
Proof.
  unfold parse_entry_shard. intros Hes He.
  apply outcome_bind_Return in Hes as (slot_count & Hs & Hes).
  apply outcome_bind_Return in Hes as ([] & Hr & Hes).
  destruct (parse_slots_in _ _ _ _ _ _ Hes He) as [?%elem_of_nil|(i & es' & Hi & Hp & He')]; [done|].
  exists i, es'. split; [done|]. rewrite Hs. cbn [mbind outcome_mbind]. rewrite Hr. cbn [mbind outcome_mbind].
  cbn [for_each]. rewrite Hp. done.
Qed.

Lemma load_entries_in identifier nodes es e :
  load_entries direct_shard identifier nodes () = ((), Return es) → e ∈ es →
  ∃ node, node ∈ nodes ∧ entry_at identifier node e.
Proof.
  unfold load_entries. intros Hes He.
  assert (Hloop : ∀ groups output es, for_each (λ output '(shard, indices),
      binary ← direct_shard (escaped_identifier identifier ++ decimal shard);
      entries ← lift (lift_binary (parse_entry_shard binary indices));
      mret (output ++ entries)) output groups () = ((), Return es) → e ∈ es →
    e ∈ output ∨ ∃ s indices i binary es', (s, indices) ∈ groups ∧ i ∈ indices ∧
      shard_contents (escaped_identifier identifier ++ decimal s) = Return binary ∧
      parse_entry_shard binary [i] = Return es' ∧ e ∈ es').
  { clear Hes He es. induction groups as [|[s indices] groups IH]; intros output es Hes He.
    { injection Hes as <-. by left. }
    cbn [for_each] in Hes. apply run_bind_inv in Hes as ([] & output' & Hstep & Hes).
    apply run_bind_inv in Hstep as ([] & binary & Hb & Hstep).
    apply run_bind_inv in Hstep as ([] & entries & Hp & Hstep). injection Hstep as <-.
    unfold direct_shard, lift in Hb. injection Hb as Hb. unfold lift in Hp. injection Hp as Hp.
    unfold lift_binary in Hp. destruct (parse_entry_shard binary indices) as [es1| |] eqn:Hparse; [|done..].
    injection Hp as ->.
    destruct (IH _ _ Hes He) as [[Ho|Ho]%elem_of_app|(s' & ix & i & b & es' & Hin & Hrest)]; [by left|..].
    - right. destruct (parse_shard_in _ _ _ _ Hparse Ho) as (i & es' & Hi & Hpi & He').
      exists s, indices, i, binary, es'. split; [left|done].
    - right. exists s', ix, i, b, es'. split; [by right|done]. }
  destruct (Hloop _ _ _ Hes He) as [?%elem_of_nil|(s & ix & i & b & es' & Hin & Hi & Hb & Hp & He')]; [done|].
  destruct (group_nodes_in _ _ _ _ Hin Hi) as (node & Hn & Hs & Hx). rewrite Hs in Hb. rewrite Hx in Hp.
  exists node. split; [exact Hn|]. exists b, es'. split; [exact Hb|split; [exact Hp|exact He']].
Qed.

Context (Hids : ids_ok (character_ids store)) (Hfiled : filed).

Lemma direct_louds_Some identifier v :
  direct_louds identifier () = ((), Return v) → louds_file identifier = Return v.
Proof. unfold direct_louds, lift. by intros [= ->]. Qed.

Lemma louds_file_ranges identifier l :
  louds_file identifier = Return (Some l) → Forall (λ r, r.2 ≤ length (node_ids l)) (child_ranges l).
Proof.
  unfold louds_file. intros Hl.
  apply outcome_bind_Return in Hl as (bits & _ & Hl). apply outcome_bind_Return in Hl as (chars & _ & Hl).
  destruct bits as [bits|], chars as [chars|]; [|done..].
  apply outcome_bind_Return in Hl as (l' & Hp & Hl). injection Hl as ->.
  unfold lift_louds in Hp. destruct (Louds.parse bits chars) eqn:Hparse; [|done..]. injection Hp as ->.
  by eapply parse_ranges.
Qed.

Lemma exact_match_reading r es e :
  Dictionary.exact_match r = Ok es → e ∈ es → ruby e = r.
Proof using H0 Hids Hfiled.
  intros Hes%answer_Ok He. cbn in Hes. unfold exact_match, lookup_key in Hes.
  destruct (head (graphemes r)) as [identifier|]; [|by injection Hes as <-; apply elem_of_nil in He].
  cbn [mbind option_bind] in Hes.
  destruct (CharacterIdMap.encode (character_ids store) r) as [ids|] eqn:Hr;
    [|by injection Hes as <-; apply elem_of_nil in He]. cbn [mbind option_bind] in Hes.
  apply run_bind_inv in Hes as ([] & l & Hl%direct_louds_Some & Hes).
  destruct l as [l|]; cbn [mbind option_bind] in Hes; [|by injection Hes as <-; apply elem_of_nil in He].
  destruct (search l ids) as [node|] eqn:Hs; [|by injection Hes as <-; apply elem_of_nil in He].
  destruct (load_entries_in _ _ _ _ Hes He) as (n & ->%list_elem_of_singleton & Hat).
  eapply encode_inj; [done|eapply Hfiled; [exact Hl|by apply search_reach|exact Hat]|done].
Qed.

Lemma match_graphemes_reading identifier l : louds_file identifier = Return (Some l) →
  ∀ gs before ids output ms m e,
  mapM (CharacterIdMap.id (character_ids store)) before = Some ids →
  match_graphemes store direct_shard identifier l ids (length before) output gs () = ((), Return ms) →
  m ∈ ms → e ∈ match_entries m →
  m ∈ output ∨ (1 ≤ surface_end m ≤ length (before ++ gs) ∧
                ruby e = concat (take (surface_end m) (before ++ gs))).
Proof using H0 Hids Hfiled.
  intros Hl. induction gs as [|g gs IH]; intros before ids output ms m e Hb Hms Hm He;
    cbn [match_graphemes] in Hms; [injection Hms as <-; by left|].
  destruct (CharacterIdMap.id _ g) as [id|] eqn:Hid; [|injection Hms as <-; by left].
  destruct (search l (ids ++ [id])) as [node|] eqn:Hs; [|injection Hms as <-; by left].
  apply run_bind_inv in Hms as ([] & es & Hes & Hms).
  assert (Hb' : mapM (CharacterIdMap.id (character_ids store)) (before ++ [g]) = Some (ids ++ [id])).
  { apply mapM_app_Some; [done|]. simpl. by rewrite Hid. }
  replace (1 + length before) with (length (before ++ [g])) in Hms by (rewrite length_app; simpl; lia).
  destruct (IH _ _ _ _ _ _ Hb' Hms Hm He) as [Ho|Hr]; [|right; by rewrite <- app_assoc in Hr].
  case_decide; [by left|]. apply elem_of_app in Ho as [Ho| ->%list_elem_of_singleton]; [by left|right].
  simpl in He |- *. rewrite length_app. simpl. split; [lia|].
  destruct (load_entries_in _ _ _ _ Hes He) as (n & ->%list_elem_of_singleton & Hat).
  pose proof (Hfiled _ _ _ _ _ Hl (search_reach _ _ _ _ Hs) Hat) as Henc.
  assert (graphemes (ruby e) = before ++ [g]) as Hg.
  { unfold CharacterIdMap.encode in Henc. apply (anti_symm prefix).
    - by apply (mapM_prefix (character_ids store) _ _ (ids ++ [id]) (ids ++ [id])).
    - by apply (mapM_prefix (character_ids store) _ _ (ids ++ [id]) (ids ++ [id])). }
  rewrite <- (graphemes_concat (ruby e)), Hg. f_equal.
  change (g :: gs) with ([g] ++ gs). rewrite app_assoc, take_app_length'; [done|].
  rewrite length_app. simpl. lia.
Qed.

Lemma matches_from_start_reading r n ms m e :
  Dictionary.matches_from_start r n = Ok ms → m ∈ ms → e ∈ match_entries m →
  1 ≤ surface_end m ≤ length (graphemes r) ∧ ruby e = concat (take (surface_end m) (graphemes r)).
Proof using H0 Hids Hfiled.
  intros Hms%answer_Ok Hm He. cbn in Hms. unfold matches_from_start in Hms.
  destruct (graphemes r) as [|identifier rest] eqn:Hg; [by injection Hms as <-; apply elem_of_nil in Hm|].
  apply run_bind_inv in Hms as ([] & l & Hl%direct_louds_Some & Hms).
  destruct l as [l|]; [|by injection Hms as <-; apply elem_of_nil in Hm].
  destruct (match_graphemes_reading identifier l Hl (take n (identifier :: rest)) [] [] [] ms m e)
    as [Ho|[Hlen Hr]]; [reflexivity|exact Hms|exact Hm|exact He|by apply elem_of_nil in Ho|].
  simpl app in *.
  rewrite length_take in Hlen. split; [lia|].
  rewrite Hr, take_take. f_equal. f_equal. lia.
Qed.

Lemma entries_after_prefix_reading r depth n es e :
  Dictionary.entries_after_prefix r depth n = Ok es → e ∈ es → r `prefix_of` ruby e.
Proof using H0 Hids Hfiled.
  intros Hes%answer_Ok He. cbn in Hes. unfold entries_after_prefix, lookup_key in Hes.
  destruct (head (graphemes r)) as [identifier|]; [|by injection Hes as <-; apply elem_of_nil in He].
  cbn [mbind option_bind] in Hes.
  destruct (CharacterIdMap.encode (character_ids store) r) as [ids|] eqn:Hr;
    [|by injection Hes as <-; apply elem_of_nil in He]. cbn [mbind option_bind] in Hes.
  apply run_bind_inv in Hes as ([] & l & Hl%direct_louds_Some & Hes).
  destruct l as [l|]; [|by injection Hes as <-; apply elem_of_nil in He].
  apply run_bind_inv in Hes as ([] & nodes & Hnodes & Hes).
  unfold expect, lift in Hnodes. injection Hnodes as Hnodes. apply panicking_Return in Hnodes.
  destruct (load_entries_in _ _ _ _ Hes He) as (node & Hn & Hat).
  unfold descendants in Hnodes. destruct (search l ids) as [root|] eqn:Hs;
    [|by injection Hnodes as <-; apply elem_of_nil in Hn].
  destruct (descendants_from_reach _ _ (louds_file_ranges _ _ Hl) _ _ _ _ _ _ Hnodes Hn) as [ext Hext].
  pose proof (Hfiled _ _ _ _ _ Hl (reach_app _ _ _ _ _ _ (search_reach _ _ _ _ Hs) Hext) Hat) as Henc.
  assert (graphemes r `prefix_of` graphemes (ruby e)) as [k Hk].
  { apply (encode_prefix (character_ids store) r (ruby e) ids (ids ++ ext)); [done..|]. by exists ext. }
  exists (concat k). by rewrite <- (graphemes_concat (ruby e)), Hk, concat_app, graphemes_concat.
Qed.

Lemma store_laws : DictionaryLaws DictionaryError.
Proof using H0 Hids Hfiled.
  split.
  - apply matches_from_start_reading.
  - apply exact_match_reading.
  - apply entries_after_prefix_reading.
Qed.
End lawful.

(** C23. The caches of the store are invisible: whatever the files hold and whatever
    is asked in whatever order, the store with its caches answers every query as
    if it read the files again, with the same errors, and no query panics. *)
Theorem store_answers_from_files `{Segmentation} `{Files} (store : DictionaryStore) (queries : list query) :
  run_actions (cached_query store) queries empty_caches = run_actions (direct_query store) queries () ∧
  Forall (λ o, o ≠ Panic) (run_actions (cached_query store) queries empty_caches).
Proof.
  assert (Heq : run_actions (cached_query store) queries empty_caches
                = run_actions (direct_query store) queries ()).
  { apply (agree_run (λ c _, caches_sound c)); [apply cached_query_agrees|].
    split_and!; intros i v Hi; cbn in Hi; by rewrite lookup_empty in Hi. }
  split; [done|]. rewrite Heq. clear Heq. generalize () as s.
  induction queries as [|q queries IH]; intros s; simpl; [constructor|].
  pose proof (proj1 (never_panics_spec _) (direct_query_total store q) s) as Hq.
  destruct (direct_query store q s) as [s' o]. constructor; [done|apply IH].
Qed.

(** C30. A store over well-formed files is a lawful dictionary: when the entries are
    filed under the nodes of their readings, every lookup the conversion makes
    finds entries under the reading it asked for, a prefix of the text for matches
    from the start and an extension for predictions. This discharges the
    hypotheses on the dictionary of the conversion and the predictions. *)
Theorem store_is_lawful `{SegmentationLaws} `{Files} (store : DictionaryStore) characters :
  CharacterIdMap.parse characters = Ok (character_ids store) → filed store →
  @DictionaryLaws _ DictionaryError (store_dictionary store).
Proof. intros Hids Hfiled. by apply store_laws; [eapply parse_ids_ok|]. Qed.

(** ** A small dictionary *)

Section witness.
#[local] Existing Instance scalar_clusters.

Definition small_entry (w r : ustring) : LearningRecord :=
  {| entry := {| word := w; ruby := r; left_id := 1; right_id := 2; meaning_id := 3; base_value := zero;
                 adjustment := zero; metadata := no_metadata |};
     last_used_day := 0; last_updated_day := 0; count := 1 |}.

Definition small_ids : CharacterIdMap.t :=
  match CharacterIdMap.parse (u "アイウ") with
  | Ok ids => ids
  | Err _ => {| CharacterIdMap.ids := ∅ |}
  end.

Definition small_files : option EncodedMemory :=
  Eval vm_compute in encode_files small_ids [small_entry (u "亜") (u "ア"); small_entry (u "愛") (u "アイ")].

Definition small_name : ustring := Eval vm_compute in escaped_identifier (u "ア").

#[local] Instance small : Files := λ path,
  match small_files with
  | None => NotFound
  | Some files =>
      if decide (path = LOUDS_DIRECTORY ++ small_name ++ LOUDS_SUFFIX) then Contents (mem_louds files)
      else if decide (path = LOUDS_DIRECTORY ++ small_name ++ CHARS_SUFFIX)
      then Contents (mem_characters files)
      else if decide (path = LOUDS_DIRECTORY ++ (small_name ++ decimal 0) ++ shard_suffix)
      then match mem_shards files with shard :: _ => Contents shard | [] => NotFound end
      else NotFound
  end.

Definition small_store : DictionaryStore :=
  {| character_ids := small_ids; meaning_matrix := {| values := [] |} |}.

Definition found_words (q : query) : list ustring :=
  match (direct_query small_store q ()).2 with
  | Return (EntriesReply es) => word <$> es
  | _ => []
  end.

Example small_answers :
  found_words (Exact (u "アイ")) = [u "愛"] ∧ found_words (AfterPrefix (u "ア") 5 10) = [u "愛"].
Proof. vm_compute. by split. Qed.

Definition small_index : Louds :=
  {| node_ids := [0; 0; 0; 1]%N; child_ranges := [(0, 0); (2, 3); (3, 4); (4, 4)] |}.

Lemma small_louds i l :
  louds_file i = Return (Some l) → escaped_identifier i = small_name ∧ l = small_index.
Proof.
  unfold louds_file. generalize (escaped_identifier i) as name. intros name Hl.
  assert (Hname : name = small_name).
  { apply outcome_bind_Return in Hl as (bits & Hbits & Hl).
    destruct bits as [bits|]; [|apply outcome_bind_Return in Hl as (chars & _ & Hl); by destruct chars].
    clear Hl. unfold read_optional, read_file, small in Hbits.
    destruct small_files as [files|]; [|done].
    destruct (decide (_ = _)) as [Hp|_]; [by apply app_inv_head, app_inv_tail in Hp|].
    destruct (decide (_ = _)) as [Hp|_].
    { apply (f_equal last) in Hp. rewrite !app_assoc, !last_app in Hp. by vm_compute in Hp. }
    destruct (decide (_ = _)) as [Hp|_]; [|done].
    apply (f_equal last) in Hp. rewrite !app_assoc, !last_app in Hp. by vm_compute in Hp. }
  subst name. split; [done|]. vm_compute in Hl. by injection Hl as <-.
Qed.

Lemma small_reach ids node :
  reach small_index 1 ids node →
  (ids = [] ∧ node = 1) ∨ (ids = [0]%N ∧ node = 2) ∨ (ids = [0; 1]%N ∧ node = 3).
Proof.
  assert (Hstep : ∀ parent child c, child ∈ range_nodes (child_range small_index parent) →
    node_ids small_index !! child = Some c →
    (parent = 1 ∧ child = 2 ∧ c = 0%N) ∨ (parent = 2 ∧ child = 3 ∧ c = 1%N)).
  { intros parent child c Hc Hid.
    destruct parent as [|[|[|[|parent]]]]; unfold range_nodes, child_range in Hc; simpl in Hc;
      try (by apply elem_of_nil in Hc); apply list_elem_of_singleton in Hc as ->; simpl in Hid;
      simplify_eq; auto. }
  intros Hr. inversion Hr as [|parent child c ids' n Hc Hid Hr']; subst; [by left|].
  destruct (Hstep _ _ _ Hc Hid) as [(_ & -> & ->)|(? & _ & _)]; [|done].
  inversion Hr' as [|parent child' c' ids'' n Hc' Hid' Hr'']; subst; [by right; left|].
  destruct (Hstep _ _ _ Hc' Hid') as [(? & _ & _)|(_ & -> & ->)]; [done|].
  inversion Hr'' as [|parent child'' c'' ids3 n Hc'' Hid'' Hr3]; subst; [by right; right|].
  destruct (Hstep _ _ _ Hc'' Hid'') as [(? & _ & _)|(? & _ & _)]; done.
Qed.

Lemma small_filed : filed small_store.
Proof.
  intros i l ids node e Hl Hr (binary & es & Hb & Hes & He).
  destruct (small_louds i l Hl) as [Hname ->]. rewrite Hname in Hb. clear Hl Hname.
  destruct (small_reach ids node Hr) as [[-> ->]|[[-> ->]|[-> ->]]];
    vm_compute in Hb; injection Hb as <-; vm_compute in Hes; injection Hes as <-.
  - by apply elem_of_nil in He.
  - apply list_elem_of_singleton in He as ->. vm_compute. reflexivity.
  - apply list_elem_of_singleton in He as ->. vm_compute. reflexivity.
Qed.

Lemma store_is_lawful_witness :
  filed small_store ∧ found_words (Exact (u "アイ")) = [u "愛"] ∧
  @DictionaryLaws scalar_clusters DictionaryError (store_dictionary small_store).
Proof.
  split; [exact small_filed|]. split; [vm_compute; reflexivity|].
  apply (store_is_lawful small_store (u "アイウ")); [vm_compute; reflexivity|exact small_filed].
Defined.
End witness.
