(* ===== verification/NGram.v ===== *)
(** * N-gram models

    src/crates/converter/src/ngram.rs: the modified Kneser-Ney model over four marisa
    tries, the tokenizer, and the language model made of both. The tries (loading and
    predictive search), the tokenizer library and the platform's logarithm of doubles
    are parameters; the keys and values in the tries, the counts and the arithmetic of
    the probabilities are the code's. *)

From Stdlib Require Import Floats.SpecFloat.
From S2P Require Import Prelude Unicode F32 Action Zenz ZenzEvaluator.

(** ** Doubles *)

Definition f64 : Type := spec_float.
Definition dadd (a b : f64) : f64 := SFadd 53 1024 a b.
Definition dsub (a b : f64) : f64 := SFsub 53 1024 a b.
Definition dmul (a b : f64) : f64 := SFmul 53 1024 a b.
Definition ddiv (a b : f64) : f64 := SFdiv 53 1024 a b.
(** [f64::max] *)
Definition dmax (a b : f64) : f64 :=
  if is_nan a then b else if is_nan b then a else if SFltb a b then b else a.
Definition d_of_Z (z : Z) : f64 := binary_normalize 53 1024 z 0 false.
(** [f64::from(u32)] *)
Definition d_of_u32 (n : N) : f64 := d_of_Z (Z.of_N n).
(** [as f32] *)
Definition as_f32 (a : f64) : f32 :=
  match a with
  | S754_finite s m e => binary_normalize 24 128 (if s then Z.neg m else Z.pos m) e s
  | _ => a
  end.
(** The platform's [f64::ln] *)
Class Libm64 := f64_ln : f64 → f64.

(** ** Constants and errors *)

Definition VOCABULARY_SIZE : N := 6000.
Definition START_TOKEN : Z := 2.
Definition END_TOKEN : Z := 3.
Definition KEY_VALUE_DELIMITER : N := 128.
Definition PREDICTIVE_DELIMITER : N := 129.
Definition ENCODING_RADIX : N := 126.
Definition u32_max : N := 4294967295.

Inductive NGramError :=
  | InvalidPath (path : ustring)
  | InvalidConfiguration (n : nat) (discount : f64)
  | LoadTrie (path : ustring)
  | SearchTrie
  | InvalidTrieEntry
  | CountOverflow
  | TokenizerFailed (message : ustring)
  | UnexpectedVocabularySize (size : nat)
  | UnexpectedSpecialToken (special : ustring) (id : option N).

(** [Display]; the text of a double is a parameter. *)
Definition debug_id (id : option N) : ustring :=
  match id with
  | None => u "None"
  | Some id => u "Some(" ++ u (pretty id) ++ u ")"
  end.
Definition describe (display_f64 : f64 → ustring) (e : NGramError) : ustring :=
  match e with
  | InvalidPath path => u "N-gram path is not valid UTF-8 or contains a null byte: " ++ path
  | InvalidConfiguration n discount =>
      u "invalid N-gram configuration n=" ++ u (pretty n) ++ u ", d=" ++ display_f64 discount
  | LoadTrie path => u "failed to load " ++ path
  | SearchTrie => u "Marisa predictive search failed"
  | InvalidTrieEntry => u "Marisa trie contains an invalid entry"
  | CountOverflow => u "N-gram count exceeds UInt32"
  | TokenizerFailed message => u "tokenizer error: " ++ message
  | UnexpectedVocabularySize size => u "expected a 6000-token vocabulary, found " ++ u (pretty size)
  | UnexpectedSpecialToken special id =>
      u "expected tokenizer token " ++ special ++ u " at its fixed ID, found " ++ debug_id id
  end.

(** ** Keys and values *)

(** [u8::try_from(..).expect(..)] *)
Definition u8_of (n : N) : option N := if (n <=? 255)%N then Some n else None.

Definition encode_token (output : list byte) (t : N) : outcome NGramError (list byte) :=
  if (VOCABULARY_SIZE <=? t)%N then Raise InvalidTrieEntry
  else
    high ← panicking (u8_of (t / ENCODING_RADIX + 1)%N);
    low ← panicking (u8_of (t mod ENCODING_RADIX + 1)%N);
    mret (output ++ [high; low]).

Definition encode_key (key : list N) : outcome NGramError (list byte) := for_each encode_token [] key.

(** [checked_sub(1)] of a byte *)
Definition below (b : byte) : outcome NGramError N :=
  if (b =? 0)%N then Raise InvalidTrieEntry else mret (b - 1)%N.

Definition decode_token (high low : byte) : outcome NGramError N :=
  high ← below high;
  low ← below low;
  let t := (high * ENCODING_RADIX + low)%N in
  if (t <? VOCABULARY_SIZE)%N then mret t else Raise InvalidTrieEntry.

Definition decode_digit (decoded : N) (b : byte) : outcome NGramError N :=
  digit ← below b;
  if (u32_max <? decoded * ENCODING_RADIX)%N then Raise CountOverflow
  else if (u32_max <? decoded * ENCODING_RADIX + digit)%N then Raise CountOverflow
  else mret (decoded * ENCODING_RADIX + digit)%N.

Definition decode_value (value : list byte) : outcome NGramError N :=
  if decide (length value < 5) then Raise InvalidTrieEntry
  else for_each decode_digit 0%N (take 5 value).

(** ** The tries *)

(** rsmarisa: loading a file, and the keys that begin with a query, or the failure of
    [init_state]. *)
Class Marisa := {
  Trie : Type;
  load_trie : ustring → option Trie;
  predictive_search : Trie → list byte → option (list (list byte));
}.

Section model.
Context `{Marisa}.

Definition contains_nul (path : ustring) : bool := bool_decide (0%N ∈ path).

(** [MarisaTrie::load] *)
Definition load (path : ustring) : outcome NGramError Trie :=
  if contains_nul path then Raise (InvalidPath path)
  else match load_trie path with Some trie => mret trie | None => Raise (LoadTrie path) end.

Definition search (trie : Trie) (query : list byte) : outcome NGramError (list (list byte)) :=
  match predictive_search trie query with Some found => mret found | None => Raise SearchTrie end.

(** [entry.get(n..)] *)
Definition after (n : nat) (entry : list byte) : option (list byte) :=
  if decide (n ≤ length entry) then Some (drop n entry) else None.

Definition get_value (trie : Trie) (key : list N) : outcome NGramError (option N) :=
  query ← encode_key key;
  let query := query ++ [KEY_VALUE_DELIMITER] in
  values ← search trie query;
  match values with
  | [] => mret None
  | entry :: _ => value ← decode_value (default [] (after (length query) entry)); mret (Some value)
  end.

(** One entry of the loop of [bulk_values] *)
Definition count_entry (query_length : nat) (state : list N * N) (entry : list byte) :
    outcome NGramError (list N * N) :=
  match after query_length entry with
  | None => Raise InvalidTrieEntry
  | Some suffix =>
      match suffix with
      | high :: low :: delimiter :: value =>
          if bool_decide (length suffix < 8) || negb (delimiter =? KEY_VALUE_DELIMITER)%N then mret state
          else
            t ← decode_token high low;
            value ← decode_value value;
            let values := <[N.to_nat t := value]> state.1 in
            if (u32_max <? state.2 + value)%N then Raise CountOverflow
            else mret (values, (state.2 + value)%N)
      | _ => mret state
      end
  end.

Definition bulk_values (trie : Trie) (prefix : list N) : outcome NGramError (list N * N) :=
  query ← encode_key prefix;
  let query := query ++ [PREDICTIVE_DELIMITER] in
  found ← search trie query;
  for_each (count_entry (length query)) (replicate (N.to_nat VOCABULARY_SIZE) 0%N, 0%N) found.

(** ** The probabilities *)

Record EfficientNGram := {
  order : nat;
  discount : f64;
  c_abc : Trie;
  u_abx : Trie;
  u_xbc : Trie;
  r_xbx : Trie;
}.

(** [trim_end_matches('_')] *)
Fixpoint skip_underscores (s : ustring) : ustring :=
  match s with c :: s' => if (c =? 95)%N then skip_underscores s' else s | [] => [] end.
Definition normalize_prefix (prefix : ustring) : ustring := reverse (skip_underscores (reverse prefix)).

Definition is_finite_f64 (a : f64) : bool := F32.is_finite a.

(** [EfficientNGram::open] *)
Definition open_ngram (prefix : ustring) (n : nat) (discount : f64) : outcome NGramError EfficientNGram :=
  if bool_decide (n < 2) || negb (is_finite_f64 discount) then Raise (InvalidConfiguration n discount)
  else
    let prefix := normalize_prefix prefix in
    c_abc ← load (prefix ++ u "_c_abc.marisa");
    u_abx ← load (prefix ++ u "_u_abx.marisa");
    u_xbc ← load (prefix ++ u "_u_xbc.marisa");
    r_xbx ← load (prefix ++ u "_r_xbx.marisa");
    mret {| order := n; discount := discount; c_abc := c_abc; u_abx := u_abx; u_xbc := u_xbc;
            r_xbx := r_xbx |}.

(** The last [size] tokens of the history, after start tokens when there are fewer *)
Definition context_of (size : nat) (history : list N) : list N :=
  if decide (size ≤ length history) then drop (length history - size) history
  else replicate (size - length history) (Z.to_N START_TOKEN) ++ history.

(** The counts of the shorter contexts *)
Definition lower_step (m : EfficientNGram) (state : list N * list (list N * N * N)) (_ : nat) :
    outcome NGramError (list N * list (list N * N * N)) :=
  context ← panicking (remove_at 0 state.1);
  distinct ← get_value (r_xbx m) context;
  '(counts, total) ← bulk_values (u_xbc m) context;
  mret (context, state.2 ++ [(counts, total, default 0%N distinct)]).

(** [(total != 0).then_some(f64::from(total))] *)
Definition denominator_of (total : N) : option f64 :=
  if (total =? 0)%N then None else Some (d_of_u32 total).

Definition gamma_of (discount : f64) (count : N) (denominator : option f64) : f64 :=
  match denominator with
  | None => d_of_Z 1
  | Some denominator => ddiv (dmul discount (d_of_u32 count)) denominator
  end.

(** The discounted share of a count *)
Definition alpha_of (discount : f64) (count : N) (denominator : option f64) : f64 :=
  match denominator with
  | None => d_of_Z 0
  | Some denominator => ddiv (dmax (dsub (d_of_u32 count) discount) (d_of_Z 0)) denominator
  end.

(** The loop over the shorter contexts: the probability so far and the weight of the rest *)
Definition lower_share (discount : f64) (index : nat) (state : f64 * f64)
    (prepared : list N * option f64 * f64) : option (f64 * f64) :=
  let '(values, denominator, gamma) := prepared in
  value ← values !! index;
  Some (dadd state.1 (dmul (alpha_of discount value denominator) state.2), dmul state.2 gamma).

Definition token_probability (discount : f64) (counts : list N) (denominator : option f64) (gamma : f64)
    (lower : list (list N * option f64 * f64)) (index : nat) : option f64 :=
  count ← counts !! index;
  '(probability, coefficient) ← for_each (lower_share discount index) (d_of_Z 0, d_of_Z 1) lower;
  let probability := dadd probability (ddiv coefficient (d_of_Z (Z.of_N VOCABULARY_SIZE))) in
  Some (dadd (alpha_of discount count denominator) (dmul gamma probability)).

Definition bulk_predict (m : EfficientNGram) (history : list N) : outcome NGramError (list f64) :=
  size ← panicking (usub (order m) 1);
  let context := context_of size history in
  unique ← get_value (u_abx m) context;
  '(counts, total) ← bulk_values (c_abc m) context;
  '(_, lower) ← for_each (lower_step m) (context, []) (seq 1 (size - 1));
  let main_denominator := denominator_of total in
  let main_gamma := gamma_of (discount m) (default 0%N unique) main_denominator in
  let prepared := (λ l, (l.1.1, denominator_of l.1.2, gamma_of (discount m) l.2 (denominator_of l.1.2))) <$> lower in
  panicking (mapM (token_probability (discount m) counts main_denominator main_gamma prepared)
               (seq 0 (N.to_nat VOCABULARY_SIZE))).

(** A token as an index of the vocabulary *)
Definition valid_token (t : token) : option N :=
  if decide (0 ≤ t < Z.of_N VOCABULARY_SIZE)%Z then Some (Z.to_N t) else None.

Definition probabilities (m : EfficientNGram) (history : list token) : outcome NGramError (list f64) :=
  match mapM valid_token history with
  | None => Raise InvalidTrieEntry
  | Some history => bulk_predict m history
  end.

(** [TokenProbabilityModel for EfficientNGram]; a panic is [None] in the inner option. *)
Definition token_probabilities (m : EfficientNGram) (prefix : list token) (vocabulary_size : nat) :
    option (option (list f32)) :=
  if decide (N.of_nat vocabulary_size ≠ VOCABULARY_SIZE) then Some None
  else match probabilities m prefix with
       | Return values => Some (Some (as_f32 <$> values))
       | Raise _ => Some None
       | Panic => None
       end.
End model.

(** ** The tokenizer *)

(** tokenizers: a tokenizer of a file, the size of its vocabulary with the added
    tokens, the identifier of a token ([u32]), encoding without special tokens and
    decoding that skips them. *)
Class Tokenizers := {
  Tokenizer : Type;
  tokenizer_from_file : ustring → result ustring Tokenizer;
  get_vocab_size : Tokenizer → nat;
  token_to_id : Tokenizer → ustring → option N;
  encode_text : Tokenizer → ustring → result ustring (list N);
  decode_tokens : Tokenizer → list N → result ustring ustring;
}.

Definition START_PIECE : ustring := Eval vm_compute in u "<s>".
Definition END_PIECE : ustring := Eval vm_compute in u "</s>".
Definition NEGATIVE_TOKEN : ustring := Eval vm_compute in u "negative token ID".

(** [u32::try_from(..).ok()] of a token *)
Definition u32_of_i32 (t : token) : option N := if decide (0 ≤ t)%Z then Some (Z.to_N t) else None.
(** [i32::try_from(..)] of an identifier *)
Definition i32_of_u32 (id : N) : option token :=
  if decide (Z.of_N id < 2 ^ 31)%Z then Some (Z.of_N id) else None.

Section tokenizer.
Context `{Tokenizers}.

Definition check_special (tokenizer : Tokenizer) (_ : ()) (expected : ustring * token) :
    outcome NGramError () :=
  let actual := token_to_id tokenizer expected.1 in
  if decide (actual = u32_of_i32 expected.2) then mret tt
  else Raise (UnexpectedSpecialToken expected.1 actual).

(** [ZenzTokenizer::open] *)
Definition open_tokenizer (path : ustring) : outcome NGramError Tokenizer :=
  match tokenizer_from_file path with
  | Err message => Raise (TokenizerFailed message)
  | Ok tokenizer =>
      let vocabulary_size := get_vocab_size tokenizer in
      if decide (N.of_nat vocabulary_size ≠ VOCABULARY_SIZE)
      then Raise (UnexpectedVocabularySize vocabulary_size)
      else
        for_each (check_special tokenizer) tt [(START_PIECE, START_TOKEN); (END_PIECE, END_TOKEN)];;
        mret tokenizer
  end.

(** [ZenzTokenizer::encode] *)
Definition encode (tokenizer : Tokenizer) (text : ustring) : outcome NGramError (list token) :=
  match encode_text tokenizer text with
  | Err message => Raise (TokenizerFailed message)
  | Ok ids => panicking (mapM i32_of_u32 ids)
  end.

(** [ZenzTokenizer::decode] *)
Definition decode (tokenizer : Tokenizer) (tokens : list token) : outcome NGramError ustring :=
  match mapM u32_of_i32 tokens with
  | None => Raise (TokenizerFailed NEGATIVE_TOKEN)
  | Some ids =>
      match decode_tokens tokenizer ids with
      | Err message => Raise (TokenizerFailed message)
      | Ok text => mret text
      end
  end.
End tokenizer.

(** ** The language model *)

Section language_model.
Context `{Marisa} `{Tokenizers} `{Libm} `{Libm64} (display_f64 : f64 → ustring).

Record NGramLanguageModel := { ngram : EfficientNGram; tokenizer : Tokenizer }.

(** [NGramLanguageModel::open] *)
Definition open_language_model (prefix tokenizer_path : ustring) (n : nat) (discount : f64) :
    outcome NGramError NGramLanguageModel :=
  model ← open_ngram prefix n discount;
  tokenizer ← open_tokenizer tokenizer_path;
  mret {| ngram := model; tokenizer := tokenizer |}.

(** [map_err(|error| ZenzInferenceError::Message(error.to_string()))] *)
Definition as_inference {A} (m : outcome NGramError A) : outcome ZenzInferenceError A :=
  match m with
  | Return a => Return a
  | Raise e => Raise (Message (describe display_f64 e))
  | Panic => Panic
  end.

(** [1e-20] *)
Definition LEAST_PROBABILITY : f64 := Eval vm_compute in ddiv (d_of_Z 1) (d_of_Z (10 ^ 20)).

(** [Iterator::sum], which starts from [-0.0] *)
Definition fsum (values : list f32) : f32 := foldl fadd (fopp zero) values.
Definition fmaximum (values : list f32) : f32 := foldl fmax (S754_infinity true) values.

(** The logarithm of the sum of the exponentials *)
Definition log_sum_exp (logits : list f32) : f32 :=
  let maximum := fmaximum logits in
  fadd maximum (f32_ln (fsum ((λ value, f32_exp (fsub value maximum)) <$> logits))).

Definition normalized (logits : list f32) : list f32 :=
  let normalization := log_sum_exp logits in (λ value, fsub value normalization) <$> logits.

Definition ngram_next_logits (tokens : list token) : action NGramLanguageModel ZenzInferenceError (list f32) :=
  m ← gets ngram;
  probabilities ← lift (as_inference (probabilities m tokens));
  mret (normalized ((λ p, as_f32 (f64_ln (dmax p LEAST_PROBABILITY))) <$> probabilities)).

(** [ZenzLanguageModel for NGramLanguageModel] *)
#[export] Instance ngram_language_model : ZenzLanguageModel NGramLanguageModel := {|
  vocabulary_size := λ _, N.to_nat VOCABULARY_SIZE;
  eos_token := λ _, END_TOKEN;
  tokenize := λ text _, t ← gets tokenizer; lift (as_inference (encode t text));
  token_to_piece := λ id, t ← gets tokenizer;
                          text ← lift (as_inference (decode t [id])); mret (utf8 text);
  next_logits := ngram_next_logits;
  logits_for_suffix := default_logits_for_suffix (λ _, N.to_nat VOCABULARY_SIZE) ngram_next_logits;
|}.
End language_model.
