(* ===== verification/NGramSpec.v ===== *)
(** * What the n-gram tries hold and answer

    The tries of an n-gram model store counts under byte strings: the tokens of a key
    in two bytes each, a delimiter, and the count in five digits. The lookups of
    NGram.v answer by the counts stored. *)

From Stdlib Require Import Floats.SpecFloat.
From S2P Require Import Prelude Unicode F32 Action Zenz ZenzEvaluator NGram.

(** ** The bytes of keys and values *)

Open Scope N_scope.

Definition token_bytes (t : N) : list byte := [t / ENCODING_RADIX + 1; t mod ENCODING_RADIX + 1].
Definition key_bytes (key : list N) : list byte := key ≫= token_bytes.

(** The [n] digits of a value, the highest first *)
Fixpoint digits (n : nat) (v : N) : list byte :=
  match n with
  | O => []
  | S n => digits n (v / ENCODING_RADIX) ++ [v mod ENCODING_RADIX + 1]
  end.

Definition valid_key (key : list N) : Prop := Forall (λ t, t < VOCABULARY_SIZE) key.

Lemma quotient_bound t : t < VOCABULARY_SIZE → t / ENCODING_RADIX < 48.
Proof. intros Ht. apply N.Div0.div_lt_upper_bound. unfold VOCABULARY_SIZE, ENCODING_RADIX in *. lia. Qed.

Lemma remainder_bound t : t mod ENCODING_RADIX < 126.
Proof. by apply N.mod_lt. Qed.

Lemma encode_token_ok output t :
  t < VOCABULARY_SIZE → encode_token output t = Return (output ++ token_bytes t).
Proof.
  intros Ht. unfold encode_token. rewrite (proj2 (N.leb_gt _ _)) by done.
  pose proof (quotient_bound t Ht). pose proof (remainder_bound t).
  unfold u8_of. rewrite !(proj2 (N.leb_le _ _)) by lia. done.
Qed.

Lemma encode_tokens_ok key : valid_key key → encode_key key = Return (key_bytes key).
Proof.
  unfold encode_key. intros Hkey. rewrite <- (app_nil_l (key_bytes key)).
  generalize ([] : list byte) as output. induction Hkey as [|t key Ht _ IH]; intros output; cbn [for_each].
  - unfold key_bytes. cbn. by rewrite app_nil_r.
  - rewrite encode_token_ok by done. cbn [mbind outcome_mbind]. rewrite IH. unfold key_bytes.
    rewrite bind_cons. by rewrite (assoc_L (++)).
Qed.

Lemma encode_key_bad key : ¬ valid_key key → encode_key key = Raise InvalidTrieEntry.
Proof.
  unfold encode_key. generalize ([] : list byte) as output.
  induction key as [|t key IH]; intros output Hbad; [by destruct Hbad; constructor|]. cbn [for_each].
  destruct (decide (t < VOCABULARY_SIZE)) as [Ht|Ht].
  - rewrite encode_token_ok by done. cbn [mbind outcome_mbind]. apply IH. intros Hkey. apply Hbad. by constructor.
  - unfold encode_token. by rewrite (proj2 (N.leb_le _ _)) by lia.
Qed.

Lemma decode_token_ok t : t < VOCABULARY_SIZE →
  decode_token (t / ENCODING_RADIX + 1) (t mod ENCODING_RADIX + 1) = Return t.
Proof.
  intros Ht. unfold decode_token, below.
  rewrite !(proj2 (N.eqb_neq (_ + 1) 0)) by (rewrite N.add_1_r; apply N.neq_succ_0).
  cbn [mbind outcome_mbind mret outcome_ret]. rewrite !N.add_sub.
  replace (t / ENCODING_RADIX * ENCODING_RADIX + t mod ENCODING_RADIX) with t
    by (rewrite N.mul_comm; by apply N.Div0.div_mod).
  by rewrite (proj2 (N.ltb_lt _ _)).
Qed.

Lemma for_each_snoc {E A B} (f : B → A → outcome E B) b l a :
  for_each f b (l ++ [a]) = for_each f b l ≫= λ b', f b' a.
Proof.
  revert b. induction l as [|x l IH]; intros b; cbn [for_each app].
  - cbn. by destruct (f b a).
  - destruct (f b x); cbn; [apply IH|done|done].
Qed.

Lemma digits_length n v : length (digits n v) = n.
Proof. revert v. induction n as [|n IH]; intros v; [done|]. cbn. rewrite length_app, IH. cbn. lia. Qed.

Lemma decode_digits n v : v < ENCODING_RADIX ^ N.of_nat n → v ≤ u32_max →
  for_each decode_digit 0 (digits n v) = Return v.
Proof.
  revert v. induction n as [|n IH]; intros v Hv Hmax.
  { cbn in Hv. assert (v = 0) as -> by lia. done. }
  cbn [digits]. rewrite for_each_snoc.
  assert (Hle : v / ENCODING_RADIX * ENCODING_RADIX + v mod ENCODING_RADIX = v)
    by (rewrite N.mul_comm; symmetry; by apply N.Div0.div_mod).
  assert (Hq : v / ENCODING_RADIX < ENCODING_RADIX ^ N.of_nat n)
    by (apply N.Div0.div_lt_upper_bound; by rewrite <- N.pow_succ_r', <- Nat2N.inj_succ).
  revert Hle Hq. generalize (v / ENCODING_RADIX) (v mod ENCODING_RADIX). intros q r Hle Hq.
  unfold u32_max, ENCODING_RADIX in *. rewrite IH by (done || lia).
  cbn [mbind outcome_mbind]. unfold decode_digit, below.
  rewrite (proj2 (N.eqb_neq (_ + 1) 0)) by (rewrite N.add_1_r; apply N.neq_succ_0).
  cbn [mbind outcome_mbind mret outcome_ret]. rewrite N.add_sub. unfold ENCODING_RADIX, u32_max.
  rewrite !(proj2 (N.ltb_ge _ _)) by lia. by rewrite Hle.
Qed.

Lemma decode_value_ok v : v ≤ u32_max → decode_value (digits 5 v) = Return v.
Proof.
  intros Hv. unfold decode_value. rewrite digits_length. rewrite decide_False by lia.
  rewrite take_ge by (by rewrite digits_length). apply decode_digits; [|done].
  unfold u32_max in Hv. change (ENCODING_RADIX ^ N.of_nat 5) with 31757969376. lia.
Qed.

(** ** Keys cannot be confused *)

Lemma key_bytes_small key : valid_key key → Forall (λ b, b < 128) (key_bytes key).
Proof.
  induction 1 as [|t key Ht _ IH]; [constructor|]. unfold key_bytes. rewrite bind_cons.
  pose proof (quotient_bound t Ht). pose proof (remainder_bound t).
  apply Forall_app. split; [|done]. repeat constructor; lia.
Qed.

Lemma key_bytes_inj k l : valid_key k → valid_key l → key_bytes k = key_bytes l → k = l.
Proof.
  intros Hk. revert l. induction Hk as [|t k Ht _ IH]; intros [|t' l] Hl; try done; inversion Hl as [|? ? Ht' Hl']; subst.
  unfold key_bytes. rewrite !bind_cons. cbn. intros [= Hq Hr Hrest]. f_equal.
  - pose proof (decode_token_ok t Ht) as E. rewrite Hq, Hr, decode_token_ok in E by done. by injection E.
  - by apply IH.
Qed.

(** Bytes before the first delimiter *)
Lemma delimited k l d d' (x y : list byte) :
  Forall (λ b, b < 128) k → Forall (λ b, b < 128) l → 128 ≤ d → 128 ≤ d' →
  k ++ d :: x = l ++ d' :: y → k = l ∧ d = d' ∧ x = y.
Proof.
  intros Hk. revert l. induction Hk as [|b k Hb _ IH]; intros l Hl Hd Hd' E.
  - destruct Hl as [|b l Hb _]; injection E as E; [naive_solver|lia].
  - destruct Hl as [|b' l Hb' Hl]; injection E as E1 E2; [lia|]. subst.
    destruct (IH l) as (-> & -> & ->); done.
Qed.

Lemma delimited_prefix k l d d' (y : list byte) :
  valid_key k → valid_key l → 128 ≤ d → 128 ≤ d' →
  key_bytes k ++ [d] `prefix_of` key_bytes l ++ d' :: y → k = l ∧ d = d'.
Proof.
  intros Hk Hl Hd Hd' [x E]. rewrite <- (assoc_L (++)) in E. cbn in E. symmetry in E.
  apply delimited in E as (E & -> & _); [|by apply key_bytes_small..|done|done].
  split; [by apply key_bytes_inj|done].
Qed.

Close Scope N_scope.

(** ** The counts in a trie *)

(** What is stored: the count of a key, and the count of a token after a prefix. *)
Inductive item :=
  | Value (key : list N) (v : N)
  | Next (prefix : list N) (t v : N).

Definition bytes_of (i : item) : list byte :=
  match i with
  | Value key v => key_bytes key ++ KEY_VALUE_DELIMITER :: digits 5 v
  | Next prefix t v =>
      key_bytes prefix ++ PREDICTIVE_DELIMITER :: token_bytes t ++ KEY_VALUE_DELIMITER :: digits 5 v
  end.

Definition valid_item (i : item) : Prop :=
  match i with
  | Value key v => valid_key key ∧ (v ≤ u32_max)%N
  | Next prefix t v => valid_key prefix ∧ (t < VOCABULARY_SIZE)%N ∧ (v ≤ u32_max)%N
  end.

(** What an item is stored under *)
Definition address (i : item) : list N * option N :=
  match i with Value key _ => (key, None) | Next prefix t _ => (prefix, Some t) end.

(** The tokens after a prefix with their counts *)
Definition continuation (prefix : list N) (i : item) : option (N * N) :=
  match i with Next p t v => if decide (p = prefix) then Some (t, v) else None | Value _ _ => None end.
Definition continuations (items : list item) (prefix : list N) : list (N * N) :=
  omap (continuation prefix) items.

Definition total_of (counts : list (N * N)) : N := foldr (λ tv total, (tv.2 + total)%N) 0%N counts.
Definition count_of (counts : list (N * N)) (t : N) : N :=
  match list_find (λ tv, tv.1 = t) counts with Some (_, tv) => tv.2 | None => 0%N end.

(** A trie over these items: valid items under distinct addresses, and a search that
    finds, in some order, the strings that begin with the query. *)
Record holds `{Marisa} (trie : Trie) (items : list item) : Prop := {
  holds_valid : Forall valid_item items;
  holds_distinct : NoDup (address <$> items);
  holds_search query : ∃ found, predictive_search trie query = Some found ∧
    found ≡ₚ filter (λ b, query `prefix_of` b) (bytes_of <$> items);
}.

Section lookups.
Context `{Marisa}.

Lemma value_matches key i : valid_key key → valid_item i →
  key_bytes key ++ [KEY_VALUE_DELIMITER] `prefix_of` bytes_of i ↔ ∃ v, i = Value key v.
Proof.
  intros Hkey Hi. split.
  - destruct i as [k v|p t v]; cbn [bytes_of]; intros Hp; destruct Hi as [Hi _];
      apply delimited_prefix in Hp as [E Hd]; try done; subst; eauto.
  - intros [v ->]. exists (digits 5 v). cbn [bytes_of]. by rewrite <- (assoc_L (++)).
Qed.

Lemma next_matches prefix i : valid_key prefix → valid_item i →
  key_bytes prefix ++ [PREDICTIVE_DELIMITER] `prefix_of` bytes_of i ↔ ∃ t v, i = Next prefix t v.
Proof.
  intros Hkey Hi. split.
  - destruct i as [k v|p t v]; cbn [bytes_of]; intros Hp; destruct Hi as [Hi _];
      apply delimited_prefix in Hp as [E Hd]; try done; subst; eauto.
  - intros (t & v & ->). eexists. cbn [bytes_of]. by rewrite <- (assoc_L (++)).
Qed.

Lemma distinct_values items key v v' :
  NoDup (address <$> items) → Value key v ∈ items → Value key v' ∈ items → v = v'.
Proof.
  intros Hnd (i & Hi)%list_elem_of_lookup (j & Hj)%list_elem_of_lookup.
  assert (i = j) as ->; [|by simplify_eq].
  apply (NoDup_lookup (address <$> items) i j (key, None)); [done|by rewrite list_lookup_fmap, Hi|].
  by rewrite list_lookup_fmap, Hj.
Qed.

(** The count of a key *)
Definition value_at (key : list N) (i : item) : option N :=
  match i with Value k v => if decide (k = key) then Some v else None | Next _ _ _ => None end.
Definition stored (items : list item) (key : list N) : option N := head (omap (value_at key) items).

Lemma value_at_Some key i v : value_at key i = Some v ↔ i = Value key v.
Proof. destruct i as [k w|]; cbn; [case_decide|]; naive_solver. Qed.

Lemma continuation_Some prefix i tv : continuation prefix i = Some tv ↔ i = Next prefix tv.1 tv.2.
Proof. destruct i as [|p t w], tv; cbn; [done|case_decide; naive_solver]. Qed.

Lemma get_value_ok trie items key :
  holds trie items → valid_key key → get_value trie key = Return (stored items key).
Proof.
  intros [Hvalid Hdistinct Hsearch] Hkey. unfold get_value. rewrite encode_tokens_ok by done.
  cbn [mbind outcome_mbind]. unfold search.
  destruct (Hsearch (key_bytes key ++ [KEY_VALUE_DELIMITER])) as (found & -> & Hfound).
  cbn [mbind outcome_mbind mret outcome_ret]. rewrite Forall_forall in Hvalid.
  assert (Hin : ∀ b, b ∈ found ↔ ∃ v, b = bytes_of (Value key v) ∧ Value key v ∈ items).
  { intros b. rewrite Hfound, list_elem_of_filter, list_elem_of_fmap. split.
    - intros [Hp (i & -> & Hi)]. apply value_matches in Hp as [v ->]; eauto.
    - intros (v & -> & Hi). split; [|eauto]. apply value_matches; eauto. }
  unfold stored. destruct (omap (value_at key) items) as [|v vs] eqn:Homap.
  - destruct found as [|b found]; [done|]. destruct (proj1 (Hin b)) as (v & _ & Hv); [by left|].
    assert (v ∈ omap (value_at key) items) as Hv' by (apply list_elem_of_omap; eexists; split; [done|by apply value_at_Some]).
    rewrite Homap in Hv'. by apply not_elem_of_nil in Hv'.
  - assert (v ∈ omap (value_at key) items) as (i & Hi & ->%value_at_Some)%list_elem_of_omap
      by (rewrite Homap; by left).
    destruct found as [|b found].
    { exfalso. eapply not_elem_of_nil, (Hin (bytes_of (Value key v))). eauto. }
    destruct (proj1 (Hin b)) as (v' & -> & Hv'); [by left|].
    rewrite (distinct_values items key v v') in * by done.
    unfold after. cbn [bytes_of]. rewrite !length_app. cbn [length].
    rewrite decide_True by (rewrite digits_length; lia).
    rewrite (cons_middle KEY_VALUE_DELIMITER), (assoc_L (++)), drop_app_length' by (by rewrite length_app).
    change (default [] (Some (digits 5 v'))) with (digits 5 v'). destruct (Hvalid _ Hv') as [_ Hmax]. rewrite decode_value_ok by done. done.
Qed.

(** The counts as a row of the vocabulary *)
Definition add_count (values : list N) (tv : N * N) : list N := <[N.to_nat tv.1 := tv.2]> values.
Definition no_counts : list N := replicate (N.to_nat VOCABULARY_SIZE) 0%N.

Lemma count_entry_ok query_bytes values total t v :
  (t < VOCABULARY_SIZE)%N → (v ≤ u32_max)%N →
  count_entry (length query_bytes) (values, total)
    (query_bytes ++ token_bytes t ++ KEY_VALUE_DELIMITER :: digits 5 v) =
  if (u32_max <? total + v)%N then Raise CountOverflow
  else Return (add_count values (t, v), (total + v)%N).
Proof.
  intros Ht Hv. unfold count_entry, after. rewrite decide_True by (rewrite length_app; lia).
  rewrite drop_app_length. cbn [app token_bytes].
  rewrite bool_decide_eq_false_2 by (cbn [length]; rewrite digits_length; lia).
  rewrite N.eqb_refl. cbn [negb orb]. rewrite decode_token_ok by done. cbn [mbind outcome_mbind].
  rewrite decode_value_ok by done. done.
Qed.

Lemma count_entries query_bytes counts values total :
  Forall (λ tv, tv.1 < VOCABULARY_SIZE ∧ tv.2 ≤ u32_max)%N counts →
  (total ≤ u32_max)%N →
  for_each (count_entry (length query_bytes)) (values, total)
    ((λ tv, query_bytes ++ token_bytes tv.1 ++ KEY_VALUE_DELIMITER :: digits 5 tv.2) <$> counts) =
  if (u32_max <? total + total_of counts)%N then Raise CountOverflow
  else Return (foldl add_count values counts, (total + total_of counts)%N).
Proof.
  intros Hcounts. revert values total.
  induction Hcounts as [|[t v] counts [Ht Hv] _ IH]; intros values total Htotal.
  - cbn [fmap list_fmap for_each total_of foldr foldl]. rewrite N.add_0_r.
    by rewrite (proj2 (N.ltb_ge _ _)).
  - cbn [fmap list_fmap for_each fst snd] in *. rewrite count_entry_ok by done.
    cbn [total_of foldr foldl snd]. fold (total_of counts).
    destruct (N.ltb_spec u32_max (total + v)).
    + rewrite (proj2 (N.ltb_lt _ _)) by lia. done.
    + cbn [mbind outcome_mbind]. rewrite IH by done. by rewrite N.add_assoc.
Qed.

Lemma add_counts_length counts values : length (foldl add_count values counts) = length values.
Proof. revert values. induction counts as [|tv counts IH]; intros values; [done|]. cbn. rewrite IH. apply length_insert. Qed.

Lemma list_find_fst_None counts (t : N) :
  t ∉ (fst <$> counts : list N) → list_find (λ tv : N * N, tv.1 = t) counts = None.
Proof.
  intros Ht. apply list_find_None, Forall_forall. intros tv Htv E. apply Ht. rewrite <- E.
  by apply list_elem_of_fmap_2.
Qed.

Lemma add_counts_lookup counts values t :
  NoDup (fst <$> counts) → N.to_nat t < length values →
  foldl add_count values counts !! N.to_nat t =
    match list_find (λ tv, tv.1 = t) counts with
    | Some (_, tv) => Some tv.2
    | None => values !! N.to_nat t
    end.
Proof.
  revert values. induction counts as [|[t' v] counts IH]; intros values Hnd Hlen; [done|].
  rewrite fmap_cons in Hnd. apply NoDup_cons in Hnd as [Hin Hnd]. cbn [foldl].
  rewrite IH by first [done|by (unfold add_count; rewrite length_insert)]. cbn [list_find].
  destruct (decide ((t', v).1 = t)) as [E|E]; cbn in E; cbn [fst].
  - subst t'. rewrite list_find_fst_None by done. unfold add_count. cbn.
    by rewrite list_lookup_insert_eq.
  - unfold add_count. cbn [fst snd]. rewrite list_lookup_insert_ne by lia.
    by destruct (list_find _ counts) as [[i tv]|].
Qed.

Lemma total_of_perm counts counts' : counts ≡ₚ counts' → total_of counts = total_of counts'.
Proof. induction 1; cbn; unfold total_of in *; lia. Qed.

Lemma count_of_perm counts counts' t :
  NoDup (fst <$> counts) → counts ≡ₚ counts' → count_of counts t = count_of counts' t.
Proof.
  intros Hnd Hperm. assert (Hnd' : NoDup (fst <$> counts')) by by rewrite <- Hperm.
  assert (Hsome : ∀ l v, NoDup (fst <$> l) → (t, v) ∈ l → count_of l t = v).
  { intros l v Hl Hv. unfold count_of. destruct (list_find _ l) as [[i [t' v']]|] eqn:Hf.
    - apply list_find_Some in Hf as (Hi & E & _). cbn in E. subst t'. cbn.
      apply list_elem_of_lookup in Hv as [j Hj].
      assert (i = j) as -> by (apply (NoDup_lookup (fst <$> l) i j t Hl); by rewrite list_lookup_fmap, ?Hi, ?Hj).
      by simplify_eq.
    - apply list_find_None in Hf. rewrite Forall_forall in Hf. by destruct (Hf _ Hv). }
  unfold count_of at 1. destruct (list_find _ counts) as [[i [t' v]]|] eqn:Hf.
  - apply list_find_Some in Hf as (Hi & E & _). cbn in E. subst t'. symmetry. apply Hsome; [done|].
    rewrite <- Hperm. by eapply list_elem_of_lookup_2.
  - apply list_find_None in Hf. unfold count_of. rewrite (proj2 (list_find_None _ _)); [done|]. by rewrite <- Hperm.
Qed.

Lemma continuations_distinct items prefix :
  NoDup (address <$> items) → NoDup (fst <$> continuations items prefix).
Proof.
  unfold continuations. induction items as [|i items IH]; [constructor|].
  rewrite fmap_cons. cbn [omap list_omap]. intros [Hi Hnd]%NoDup_cons.
  destruct (continuation prefix i) as [[t v]|] eqn:E; [|by apply IH].
  apply continuation_Some in E as ->. rewrite fmap_cons. constructor; [|by apply IH].
  intros ([t' v'] & E & (j & Hj & ->%continuation_Some)%list_elem_of_omap)%list_elem_of_fmap.
  cbn in E. subst t'. apply Hi. by apply (list_elem_of_fmap_2 address) in Hj.
Qed.


Lemma bulk_values_ok trie items prefix :
  holds trie items → valid_key prefix →
  let counts := continuations items prefix in
  bulk_values trie prefix =
    if (u32_max <? total_of counts)%N then Raise CountOverflow
    else Return ((λ index, count_of counts (N.of_nat index)) <$> seq 0 (N.to_nat VOCABULARY_SIZE),
                 total_of counts).
Proof.
  intros [Hvalid Hdistinct Hsearch] Hprefix counts. unfold bulk_values. rewrite encode_tokens_ok by done.
  cbn [mbind outcome_mbind]. unfold search.
  set (query := key_bytes prefix ++ [PREDICTIVE_DELIMITER]).
  destruct (Hsearch query) as (found & -> & Hfound). cbn [mbind outcome_mbind mret outcome_ret].
  set (bytes := λ tv : N * N, query ++ token_bytes tv.1 ++ KEY_VALUE_DELIMITER :: digits 5 tv.2).
  assert (Hitems : filter (λ b, query `prefix_of` b) (bytes_of <$> items) = bytes <$> counts).
  { subst counts. unfold continuations. clear Hsearch Hfound Hdistinct.
    induction Hvalid as [|i items Hi _ IH]; [done|]. rewrite fmap_cons, filter_cons. cbn [omap list_omap].
    destruct (continuation prefix i) as [[t v]|] eqn:E.
    - apply continuation_Some in E as ->. rewrite decide_True by (apply next_matches; eauto).
      rewrite IH, fmap_cons. f_equal. unfold bytes, query. cbn [bytes_of fst snd]. by rewrite <- (assoc_L (++)).
    - rewrite decide_False; [apply IH|]. intros (t & v & ->)%next_matches; [|done..].
      assert (E' : continuation prefix (Next prefix t v) = Some (t, v)) by by apply continuation_Some.
      by rewrite E' in E. }
  rewrite Hitems in Hfound. apply Permutation_map_inv in Hfound as (counts' & -> & Hperm).
  pose proof (continuations_distinct items prefix Hdistinct) as Hnd. fold counts in Hnd.
  assert (Hnd' : NoDup (fst <$> counts')) by by rewrite <- Hperm.
  change (map bytes counts') with (bytes <$> counts'). unfold bytes.
  rewrite count_entries; [| |done].
  2: { rewrite <- Hperm. apply Forall_forall. intros [t v] (i & Hi & ->%continuation_Some)%list_elem_of_omap.
       rewrite Forall_forall in Hvalid. by apply Hvalid in Hi as (_ & ? & ?). }
  rewrite N.add_0_l, <- (total_of_perm counts counts') by done.
  destruct (u32_max <? total_of counts)%N; [done|]. do 2 f_equal.
  apply list_eq. intros index. rewrite list_lookup_fmap.
  destruct (decide (index < N.to_nat VOCABULARY_SIZE)) as [Hi|Hi].
  - rewrite lookup_seq_lt by done. cbn [fmap option_fmap option_map].
    replace index with (N.to_nat (N.of_nat index)) at 1 by apply Nat2N.id.
    rewrite add_counts_lookup; [|done|unfold no_counts; by rewrite length_replicate, Nat2N.id].
    rewrite (count_of_perm counts counts') by done. unfold count_of.
    destruct (list_find _ counts') as [[j tv]|]; [done|]. rewrite Nat2N.id. by rewrite lookup_replicate_2.
  - rewrite lookup_ge_None_2 by (rewrite add_counts_length, length_replicate; lia).
    by rewrite lookup_ge_None_2 by (rewrite length_seq; lia).
Qed.
End lookups.

(** ** The probabilities *)

(** The counts of a model, as lists of items *)
Record NGramCounts := {
  full_counts : list item;
  full_kinds : list item;
  lower_counts : list item;
  lower_kinds : list item;
}.

Record model_holds `{Marisa} (m : EfficientNGram) (k : NGramCounts) : Prop := {
  holds_c_abc : holds (c_abc m) (full_counts k);
  holds_u_abx : holds (u_abx m) (full_kinds k);
  holds_u_xbc : holds (u_xbc m) (lower_counts k);
  holds_r_xbx : holds (r_xbx m) (lower_kinds k);
}.

Section kneser_ney.
Context (k : NGramCounts) (discount : f64).

(** The discounted share of a token after a context, and the weight left for shorter ones *)
Definition share (items : list item) (context : list N) (t : N) : f64 :=
  let counts := continuations items context in
  alpha_of discount (count_of counts t) (denominator_of (total_of counts)).
Definition rest (items kinds : list item) (context : list N) : f64 :=
  gamma_of discount (default 0%N (stored kinds context)) (denominator_of (total_of (continuations items context))).

(** The proper suffixes of a context, the longest first *)
Definition shorter (context : list N) : list (list N) :=
  (λ n, drop n context) <$> seq 1 (length context - 1).

Definition lower_spec (t : N) (state : f64 * f64) (context : list N) : f64 * f64 :=
  (dadd state.1 (dmul (share (lower_counts k) context t) state.2),
   dmul state.2 (rest (lower_counts k) (lower_kinds k) context)).

(** The interpolated probability: the share after the context, and what is left of it
    spread over the shorter contexts and, at last, evenly over the vocabulary *)
Definition interpolated (context : list N) (t : N) : f64 :=
  let '(probability, coefficient) := foldl (lower_spec t) (d_of_Z 0, d_of_Z 1) (shorter context) in
  dadd (share (full_counts k) context t)
    (dmul (rest (full_counts k) (full_kinds k) context)
      (dadd probability (ddiv coefficient (d_of_Z (Z.of_N VOCABULARY_SIZE))))).
End kneser_ney.

Definition no_overflow (items : list item) : Prop :=
  ∀ prefix, (total_of (continuations items prefix) ≤ u32_max)%N.

(** A row of counts and its total *)
Definition row (items : list item) (context : list N) : list N * N :=
  ((λ index, count_of (continuations items context) (N.of_nat index)) <$> seq 0 (N.to_nat VOCABULARY_SIZE),
   total_of (continuations items context)).

Section probabilities.
Context `{Marisa} (m : EfficientNGram) (k : NGramCounts) (Hm : model_holds m k).
Context (Hfull : no_overflow (full_counts k)) (Hlower : no_overflow (lower_counts k)).

Lemma bulk_values_row trie items context :
  holds trie items → no_overflow items → valid_key context → bulk_values trie context = Return (row items context).
Proof.
  intros Hitems Hmax Hkey. rewrite (bulk_values_ok trie items context Hitems Hkey). cbv zeta.
  rewrite (proj2 (N.ltb_ge _ _)) by apply Hmax. done.
Qed.

Lemma valid_drop n key : valid_key key → valid_key (drop n key).
Proof. apply Forall_drop. Qed.

Definition lower_row (context : list N) : list N * N * N :=
  (row (lower_counts k) context, default 0%N (stored (lower_kinds k) context)).

Lemma lower_step_ok t context rows n :
  valid_key context → lower_step m (t :: context, rows) n = Return (context, rows ++ [lower_row context]).
Proof using Hm Hlower.
  intros Hkey. unfold lower_step. rewrite remove_at_ok by (cbn; lia).
  cbn [fst snd take app panicking mbind outcome_mbind]. change (drop 1 (t :: context)) with context.
  rewrite (get_value_ok (r_xbx m) (lower_kinds k)) by (done || apply Hm). cbn [mbind outcome_mbind].
  rewrite (bulk_values_row (u_xbc m) (lower_counts k)) by (done || apply Hm).
  cbn [mbind outcome_mbind]. unfold lower_row. by destruct (row (lower_counts k) context).
Qed.

Lemma lower_steps context rows n from :
  valid_key context → n < length context →
  for_each (lower_step m) (context, rows) (seq from n) =
    Return (drop n context, rows ++ ((λ j, lower_row (drop j context)) <$> seq 1 n)).
Proof using Hm Hlower.
  revert context rows from. induction n as [|n IH]; intros context rows from Hkey Hn.
  { cbn. by rewrite drop_0, app_nil_r. }
  destruct context as [|t context]; [cbn in Hn; lia|].
  assert (Hkey' : valid_key context) by by inversion Hkey.
  cbn [seq for_each]. rewrite lower_step_ok by done. cbn [mbind outcome_mbind].
  rewrite IH by (done || cbn in Hn; lia). do 2 f_equal.
  rewrite <- (assoc_L (++)). f_equal. rewrite fmap_cons, <- (fmap_S_seq 1 n), <- list_fmap_compose.
  reflexivity.
Qed.

Lemma row_lookup items context index :
  index < N.to_nat VOCABULARY_SIZE →
  (row items context).1 !! index = Some (count_of (continuations items context) (N.of_nat index)).
Proof using. intros Hi. unfold row. cbn [fst]. by rewrite list_lookup_fmap, lookup_seq_lt. Qed.

(** What is prepared of the counts of a shorter context *)
Definition prepared_row (discount : f64) (l : list N * N * N) : list N * option f64 * f64 :=
  (l.1.1, denominator_of l.1.2, gamma_of discount l.2 (denominator_of l.1.2)).

(** The loop over the prepared counts of the shorter contexts *)
Lemma lower_shares index contexts state :
  index < N.to_nat VOCABULARY_SIZE →
  for_each (M:=option) (lower_share (discount m) index) state
    ((λ context, prepared_row (discount m) (lower_row context)) <$> contexts) =
  Some (foldl (lower_spec k (discount m) (N.of_nat index)) state contexts).
Proof using.
  intros Hi. revert state. induction contexts as [|context contexts IH]; intros state; [done|].
  rewrite fmap_cons. cbn [for_each foldl].
  assert (lower_share (discount m) index state (prepared_row (discount m) (lower_row context)) =
    Some (lower_spec k (discount m) (N.of_nat index) state context)) as ->.
  { unfold lower_share, prepared_row, lower_row. cbn [fst snd]. by rewrite row_lookup. }
  apply IH.
Qed.
End probabilities.

(** The context of a history: its last tokens, after start tokens *)
Lemma context_of_spec size history :
  length (context_of size history) = size ∧
  (valid_key history → valid_key (context_of size history)).
Proof.
  unfold context_of. case_decide.
  - split; [rewrite length_drop; lia|apply Forall_drop].
  - split; [rewrite length_app, length_replicate; lia|]. intros Hh. apply Forall_app. split; [|done].
    by apply Forall_replicate.
Qed.

Lemma valid_tokens history tokens : mapM valid_token history = Some tokens → valid_key tokens.
Proof.
  intros Htokens%mapM_Some. induction Htokens as [|t n ts ns Ht _ IH]; [constructor|].
  constructor; [|done]. unfold valid_token in Ht. case_decide as Hv; [|done]. injection Ht as <-. lia.
Qed.

(** C31. The n-gram model answers with the interpolated probabilities of its counts: over
    tries that hold counts (whose totals fit 32 bits), the probabilities after a
    history of valid tokens are, for every token of the vocabulary, the discounted
    share after the last tokens of the history plus what is left, spread over ever
    shorter contexts; a token outside the vocabulary is an error. It never panics. *)
Theorem probabilities_interpolate `{Marisa} m k history :
  2 ≤ order m → model_holds m k → no_overflow (full_counts k) → no_overflow (lower_counts k) →
  probabilities m history =
    match mapM valid_token history with
    | None => Raise InvalidTrieEntry
    | Some history =>
        Return ((λ index, interpolated k (discount m) (context_of (order m - 1) history) (N.of_nat index))
                <$> seq 0 (N.to_nat VOCABULARY_SIZE))
    end.
Proof.
  intros Horder Hm Hfull Hlower. unfold probabilities.
  destruct (mapM valid_token history) as [tokens|] eqn:Htokens; [|done]. apply valid_tokens in Htokens.
  unfold bulk_predict. rewrite usub_ok by lia. cbn [panicking mbind outcome_mbind].
  destruct (context_of_spec (order m - 1) tokens) as [Hlen Hcontext]. specialize (Hcontext Htokens).
  set (context := context_of (order m - 1) tokens) in *.
  rewrite (get_value_ok (u_abx m) (full_kinds k)) by (done || apply Hm). cbn [mbind outcome_mbind].
  rewrite (bulk_values_row (c_abc m) (full_counts k)) by (done || apply Hm).
  cbn [mbind outcome_mbind]. destruct (row (full_counts k) context) as [counts total] eqn:Erow.
  rewrite (lower_steps m k) by (done || lia). cbn [mbind outcome_mbind app].
  rewrite <- list_fmap_compose.
  assert (Hall : ∀ index, index ∈ seq 0 (N.to_nat VOCABULARY_SIZE) →
    token_probability (discount m) counts (denominator_of total)
      (gamma_of (discount m) (default 0%N (stored (full_kinds k) context)) (denominator_of total))
      ((λ j, prepared_row (discount m) (lower_row k (drop j context))) <$> seq 1 (order m - 1 - 1)) index =
    Some (interpolated k (discount m) context (N.of_nat index))).
  { intros index Hi%elem_of_seq. unfold token_probability.
    pose proof (row_lookup (full_counts k) context index) as Hcount. rewrite Erow in Hcount.
    cbn [fst] in Hcount. rewrite Hcount by lia. cbn [mbind option_bind].
    rewrite (list_fmap_compose (λ j, drop j context) (λ c, prepared_row (discount m) (lower_row k c))).
    rewrite lower_shares by lia. cbn [mbind option_bind]. unfold interpolated, shorter. rewrite Hlen.
    destruct (foldl _ _ _) as [probability coefficient].
    unfold share, rest. injection Erow as _ <-. done. }
  rewrite (proj2 (mapM_Some _ _ ((λ index, interpolated k (discount m) context (N.of_nat index))
    <$> seq 0 (N.to_nat VOCABULARY_SIZE)))); [done|].
  apply Forall2_fmap_r, Forall_Forall2_diag, Forall_forall. exact Hall.
Qed.

(** ** A small model *)

(** Tries as lists of strings *)
#[local] Instance list_marisa : Marisa := {|
  Trie := list (list byte);
  load_trie := λ _, None;
  predictive_search := λ trie query, Some (filter (λ b, query `prefix_of` b) trie);
|}.

Lemma list_trie_holds items :
  Forall valid_item items → NoDup (address <$> items) → holds (bytes_of <$> items : Trie) items.
Proof. intros Hv Hd. split; [done..|]. intros query. eexists. split; [reflexivity|done]. Qed.

(** After token 5 comes token 7 three times and token 9 once; two kinds of tokens. *)
Definition toy_counts : NGramCounts :=
  {| full_counts := [Next [5] 7 3; Next [5] 9 1]%N; full_kinds := [Value [5] 2]%N;
     lower_counts := []; lower_kinds := [] |}.

Definition toy_ngram : EfficientNGram :=
  {| order := 2; discount := ddiv (d_of_Z 3) (d_of_Z 4);
     c_abc := bytes_of <$> full_counts toy_counts; u_abx := bytes_of <$> full_kinds toy_counts;
     u_xbc := bytes_of <$> lower_counts toy_counts; r_xbx := bytes_of <$> lower_kinds toy_counts |}.

Lemma toy_model_holds : model_holds toy_ngram toy_counts.
Proof.
  split; apply list_trie_holds.
  all: try (refine (@bool_decide_unpack _ _ _); vm_compute; exact I).
  all: repeat constructor; by vm_compute.
Qed.

Lemma probabilities_interpolate_witness :
  probabilities toy_ngram [5%Z] =
    Return ((λ index, interpolated toy_counts (discount toy_ngram) [5%N] (N.of_nat index))
            <$> seq 0 (N.to_nat VOCABULARY_SIZE)) ∧
  SFltb (interpolated toy_counts (discount toy_ngram) [5%N] 9)
        (interpolated toy_counts (discount toy_ngram) [5%N] 7) = true.
Proof.
  split; [|vm_compute; reflexivity].
  apply (probabilities_interpolate toy_ngram toy_counts [5%Z]).
  - by vm_compute.
  - exact toy_model_holds.
  - intros prefix. unfold continuations. cbn. repeat case_decide; by vm_compute.
  - intros prefix. by vm_compute.
Defined.
