(* ===== verification/LmTypo.v ===== *)
(** * Typing corrections with a language model

    src/crates/converter/src/lm_typo.rs: the beam search over what may have been meant
    by the keys that were observed. A hypothesis has read a part of the observed
    input; it emits kana, which the language model scores, and keeps the romaji that
    has not become kana yet, which is scored by the kana it may become. The scorer
    has four caches. [str::to_lowercase] is a parameter. *)

From Stdlib Require Import Floats.SpecFloat.
From S2P Require Import Prelude Unicode F32 InputTable Composing Action TextUtil Utf8 Zenz ZenzEvaluator NGram.

(** ** Data *)

Record LmTypoConfig := {
  beam_size : nat;
  top_k : nat;
  typo_n_best : nat;
  max_steps : option nat;
  substitution_cost : f32;
  deletion_cost : f32;
  transposition_cost : f32;
}.

(** [Default] *)
Definition default_typo_config : LmTypoConfig :=
  {| beam_size := 32; top_k := 64; typo_n_best := 5; max_steps := None;
     substitution_cost := of_nat 2; deletion_cost := of_nat 3; transposition_cost := of_nat 2 |}.

Record LmTypoCandidate := {
  corrected_input : ustring;
  converted_text : ustring;
  typo_score : f32;
  typo_lm_score : f32;
  typo_channel_cost : f32;
  prominence : f32;
}.

(** [Hypothesis] of the source *)
Record BeamHypothesis := {
  corrected : list ustring;
  emitted_text : ustring;
  emitted_tokens : list token;
  observed_position : nat;
  previous_input : option ustring;
  pending : ustring;
  proxy_log_probability : f32;
  channel_cost : f32;
  lm_score : f32;
  score : f32;
}.

Inductive Topology := MacQwerty | IosQwerty | IosFlickTenkey.

Record GenerationMode := {
  table : option InputTable;
  topology : Topology;
  use_surface : bool;
  filter_with_lm : bool;
}.

(** The caches of [LmScorer], and its prompt *)
Record LmScorer := {
  scorer_prompt : list token;
  token_cache : gmap ustring (list token);
  distribution_cache : gmap (list token) (list f32);
  pending_token_cache : gmap ustring (list token);
  pending_score_cache : gmap (list token * ustring) f32;
}.

Definition new_scorer (prompt : list token) : LmScorer :=
  {| scorer_prompt := prompt; token_cache := ∅; distribution_cache := ∅; pending_token_cache := ∅;
     pending_score_cache := ∅ |}.
Definition cache_tokens (text : ustring) (tokens : list token) (s : LmScorer) : LmScorer :=
  {| scorer_prompt := scorer_prompt s; token_cache := <[text := tokens]> (token_cache s);
     distribution_cache := distribution_cache s; pending_token_cache := pending_token_cache s;
     pending_score_cache := pending_score_cache s |}.
Definition cache_distribution (tokens : list token) (row : list f32) (s : LmScorer) : LmScorer :=
  {| scorer_prompt := scorer_prompt s; token_cache := token_cache s;
     distribution_cache := <[tokens := row]> (distribution_cache s);
     pending_token_cache := pending_token_cache s; pending_score_cache := pending_score_cache s |}.
Definition cache_pending_tokens (text : ustring) (tokens : list token) (s : LmScorer) : LmScorer :=
  {| scorer_prompt := scorer_prompt s; token_cache := token_cache s;
     distribution_cache := distribution_cache s;
     pending_token_cache := <[text := tokens]> (pending_token_cache s);
     pending_score_cache := pending_score_cache s |}.
Definition cache_pending_score (key : list token * ustring) (score : f32) (s : LmScorer) : LmScorer :=
  {| scorer_prompt := scorer_prompt s; token_cache := token_cache s;
     distribution_cache := distribution_cache s; pending_token_cache := pending_token_cache s;
     pending_score_cache := <[key := score]> (pending_score_cache s) |}.

(** ** Orders *)

(** The order of [str]: that of the bytes, which is that of the code points. *)
Fixpoint text_cmp (a b : ustring) : comparison :=
  match a, b with
  | [], [] => Eq
  | [], _ => Lt
  | _, [] => Gt
  | x :: a, y :: b => match N.compare x y with Eq => text_cmp a b | c => c end
  end.
(** The order of a vector of strings *)
Fixpoint texts_cmp (a b : list ustring) : comparison :=
  match a, b with
  | [], [] => Eq
  | [], _ => Lt
  | _, [] => Gt
  | x :: a, y :: b => match text_cmp x y with Eq => texts_cmp a b | c => c end
  end.
(** [Ordering::then_with] *)
Definition and_then (a b : comparison) : comparison := match a with Eq => b | _ => a end.

(** [Vec::dedup] *)
Fixpoint dedup_consecutive (l : list ustring) : list ustring :=
  match l with
  | x :: rest =>
      match rest with
      | y :: _ => if decide (x = y) then dedup_consecutive rest else x :: dedup_consecutive rest
      | [] => [x]
      end
  | [] => []
  end.

Definition compare_hypotheses (l r : BeamHypothesis) : comparison :=
  and_then (total_cmp (score r) (score l)) (texts_cmp (corrected l) (corrected r)).

(** ** Neighbours of a key *)

Definition key_at (k : string) (x y : f32) : ustring * f32 * f32 := (u k, x, y).
(** A literal with two digits after the point *)
Definition hundredths (n : Z) : f32 := lit n 100.

Definition MAC_ROWS : list (Z * list (string * Z)) :=
  [ (0, [("1", -100); ("2", 25); ("3", 125); ("4", 225); ("5", 325); ("6", 425); ("7", 525); ("8", 625);
         ("9", 725); ("0", 825); ("-", 925); ("^", 1025)]);
    (100, [("q", 0); ("w", 100); ("e", 200); ("r", 300); ("t", 400); ("y", 500); ("u", 600); ("i", 700);
           ("o", 800); ("p", 900); ("@", 1000); ("[", 1100)]);
    (200, [("a", 25); ("s", 125); ("d", 225); ("f", 325); ("g", 425); ("h", 525); ("j", 625); ("k", 725);
           ("l", 825); (";", 925); ("]", 1025)]);
    (300, [("z", 80); ("x", 180); ("c", 280); ("v", 380); ("b", 480); ("n", 580); ("m", 680); (",", 780);
           (".", 880); ("/", 980); ("_", 1080)]) ]%Z.
Definition IOS_ROWS : list (Z * list (string * Z)) :=
  [ (100, [("q", 0); ("w", 100); ("e", 200); ("r", 300); ("t", 400); ("y", 500); ("u", 600); ("i", 700);
           ("o", 800); ("p", 900)]);
    (250, [("a", 50); ("s", 150); ("d", 250); ("f", 350); ("g", 450); ("h", 550); ("j", 650); ("k", 750);
           ("l", 850)]);
    (400, [("z", 150); ("x", 250); ("c", 350); ("v", 450); ("b", 550); ("n", 650); ("m", 750)]) ]%Z.

Definition coordinates_of (rows : list (Z * list (string * Z))) : list (ustring * f32 * f32) :=
  rows ≫= λ '(y, keys), (λ '(k, x), key_at k (hundredths x) (hundredths y)) <$> keys.

Definition MAC_QWERTY : list (ustring * f32 * f32) := Eval vm_compute in coordinates_of MAC_ROWS.
Definition IOS_QWERTY : list (ustring * f32 * f32) := Eval vm_compute in coordinates_of IOS_ROWS.

(** [powi(2)] and [sqrt] *)
Definition square (a : f32) : f32 := fmul a a.
Definition fsqrt (a : f32) : f32 := SFsqrt 24 128 a.
Definition distance (a b : f32 * f32) : f32 :=
  fsqrt (fadd (square (fsub a.1 b.1)) (square (fsub a.2 b.2))).
Definition NEAR : f32 := Eval vm_compute in hundredths 165.

Definition coordinate_neighbors (character : ustring) (coordinates : list (ustring * f32 * f32)) :
    list (ustring * f32) :=
  match list_find (λ k, k.1.1 = character) coordinates with
  | None => []
  | Some (_, (_, x, y)) =>
      sort_by (λ l r, text_cmp l.1 r.1)
        (omap (λ '(k, target_x, target_y),
           if decide (k = character) then None
           else let d := distance (x, y) (target_x, target_y) in
                if fle d NEAR then Some (k, d) else None) coordinates)
  end.

Definition GROUPS : list ustring := Eval vm_compute in
  u <$> ["アイウエオ"; "カキクケコ"; "ガギグゲゴ"; "サシスセソ"; "ザジズゼゾ"; "タチツテト"; "ダヂヅデド";
         "ナニヌネノ"; "ハヒフヘホ"; "バビブベボ"; "パピプペポ"; "マミムメモ"; "ヤユヨ"; "ャュョ"; "ラリルレロ";
         "ワヲンー"].

Section typo.
Context `{Segmentation} (to_lowercase : ustring → ustring).

Definition tenkey_neighbors (character : ustring) : list (ustring * f32) :=
  match list_find (λ group, is_Some (find_str character group)) GROUPS with
  | Some (_, group) => (λ neighbor, (neighbor, of_nat 1)) <$> filter (λ g, g ≠ character) (graphemes group)
  | None => []
  end.

Definition neighbors (character : ustring) (t : Topology) : list (ustring * f32) :=
  match t with
  | MacQwerty => coordinate_neighbors character MAC_QWERTY
  | IosQwerty => coordinate_neighbors character IOS_QWERTY
  | IosFlickTenkey => tenkey_neighbors character
  end.

(** ** Reading the input *)

Definition generation_mode (style : InputStyle) (tables : InputTableRegistry) : GenerationMode :=
  match style with
  | RomanToKana =>
      {| table := resolve tables style; topology := MacQwerty; use_surface := false; filter_with_lm := false |}
  | Mapped _ =>
      let t := resolve tables style in
      let qwerty := match t with
                    | Some t => negb (bool_decide (InputTable.possible_nexts t [] = []))
                    | None => false
                    end in
      {| table := t; topology := if qwerty then IosQwerty else IosFlickTenkey;
         use_surface := negb qwerty; filter_with_lm := negb qwerty |}
  | Direct =>
      {| table := None; topology := IosFlickTenkey; use_surface := true; filter_with_lm := true |}
  end.

(** The key of an input element, in lower case *)
Definition observed_key (e : InputElement) : option ustring :=
  match piece e with
  | Character c => to_lowercase <$> head (graphemes c)
  | Key intention typed _ => to_lowercase <$> head (graphemes (default typed intention))
  | CompositionSeparator => None
  end.

Definition observed_input (ct : ComposingText) (use_surface : bool) : list ustring :=
  if use_surface then graphemes (Kana.to_katakana (concat (surface ct)))
  else omap observed_key (input ct).

Definition apply_input_table (typed : ustring) (t : InputTable) : option ustring :=
  Kana.to_katakana <$> for_each (λ current piece, applied t current (Character piece)) [] (graphemes typed).

(** The key begins with these characters and has more. *)
Definition continues_key (characters : list ustring) (k : list KeyElement) : bool :=
  bool_decide (length characters < length k)
  && forallb (λ '(e, c), bool_decide (e = Piece (Character c))) (zip k characters).

Definition has_continuation (waiting : ustring) (t : InputTable) : bool :=
  negb (bool_decide (InputTable.possible_nexts t waiting = []))
  || existsb (λ kv, continues_key (graphemes waiting) kv.1) (entries_of t).

(** The loop of [pending_suffix], over the lengths that are left *)
Fixpoint longest_pending (gs : list Grapheme) (converted : ustring) (t : InputTable) (n : nat) : option ustring :=
  match n with
  | O => Some []
  | S m =>
      let suffix := concat (drop (length gs - n) gs) in
      if has_continuation suffix t then
        display ← apply_input_table suffix t;
        if bool_decide (display = suffix) && ends_with display converted then Some suffix
        else longest_pending gs converted t m
      else longest_pending gs converted t m
  end.

Definition pending_suffix (raw converted : ustring) (t : InputTable) : option ustring :=
  longest_pending (graphemes raw) converted t (length (graphemes raw)).

Definition consume_with_emission (waiting new_character : ustring) (t : option InputTable) :
    option (ustring * ustring) :=
  match t with
  | None => Some (new_character, [])
  | Some t =>
      let raw := waiting ++ new_character in
      converted ← apply_input_table raw t;
      next_pending ← pending_suffix raw converted t;
      if decide (next_pending = []) then Some (converted, [])
      else
        let pending_count := length (graphemes next_pending) in
        let converted_count := length (graphemes converted) in
        if decide (converted_count < pending_count) then Some ([], next_pending)
        else Some (concat (take (converted_count - pending_count) (graphemes converted)), next_pending)
  end.

(** What a wildcard rule shows before the wildcard, when the waiting characters are
    its whole key before it *)
Fixpoint before_wildcard (v : list ValueElement) : ustring :=
  match v with VCharacter c :: v' => c ++ before_wildcard v' | _ => [] end.

Definition wildcard_display (characters : list ustring) (kv : list KeyElement * list ValueElement) :
    option ustring :=
  '(any_index, _) ← list_find (λ e, e = AnyKey) kv.1;
  if decide (any_index ≠ length kv.1 - 1 ∨ any_index ≠ length characters) then None
  else if forallb (λ '(e, c), bool_decide (e = Piece (Character c))) (zip (take any_index kv.1) characters)
       then let output := before_wildcard kv.2 in
            if decide (output = []) then None else Some (Kana.to_katakana output)
       else None.

Definition possible_next_displays (waiting : ustring) (t : InputTable) : list ustring :=
  dedup_consecutive (sort_by text_cmp
    (InputTable.possible_nexts t waiting ++ omap (wildcard_display (graphemes waiting)) (entries_of t))).

(** ** The scorer *)

Context `{Libm} {M : Type} `{ZenzLanguageModel M}.

#[local] Notation scoring A := (action (LmScorer * M) ZenzInferenceError A).

(** [LmScorer::new] *)
Definition make_scorer (prompt : ustring) : action M ZenzInferenceError LmScorer :=
  tokens ← tokenize_for_model prompt false;
  mret (new_scorer tokens).

Definition lm_tokenize (text : ustring) : scoring (list token) :=
  s ← gets fst;
  match token_cache s !! text with
  | Some tokens => mret tokens
  | None =>
      tokens ← on_snd (tokenize_for_model text false);
      modify (λ sm, (cache_tokens text tokens sm.1, sm.2));;
      mret tokens
  end.

Definition next_log_probabilities (emitted : list token) : scoring (list f32) :=
  s ← gets fst;
  match distribution_cache s !! emitted with
  | Some row => mret row
  | None =>
      logits ← on_snd (next_logits (scorer_prompt s ++ emitted));
      vocabulary ← gets (λ sm, vocabulary_size sm.2);
      if bool_decide (length logits ≠ vocabulary) || bool_decide (logits = [])
      then raise (Message (logits_message (length logits) vocabulary))
      else
        let row := normalized logits in
        modify (λ sm, (cache_distribution emitted row sm.1, sm.2));;
        mret row
  end.

(** One token of the loop of [append_and_score]; [None] once a token is out of range *)
Definition append_token (state : option (list token * f32)) (t : token) : scoring (option (list token * f32)) :=
  match state with
  | None => mret None
  | Some (tokens, score) =>
      row ← next_log_probabilities tokens;
      match usize_of_i32 t ≫= λ index, row !! index with
      | None => mret None
      | Some p => mret (Some (tokens ++ [t], fadd score p))
      end
  end.

Definition append_and_score (emitted : list token) (append_text : ustring) :
    scoring (option (list token * f32)) :=
  append_tokens ← lm_tokenize append_text;
  for_each append_token (Some (emitted, zero)) append_tokens.

(** One token of the loop of [top_characters]; a full result stays as it is. *)
Definition top_character (count : nat) (result : list ustring) (id : nat) : scoring (list ustring) :=
  if decide (length result = count) then mret result
  else match i32_of_usize id with
  | None => mret result
  | Some t => λ sm,
      let '(sm, r) := on_snd (token_to_piece t) sm in
      (sm, match r with
           | Panic => Panic
           | Raise _ => Return result
           | Return piece =>
               Return (match graphemes <$> from_utf8 piece with
                       | Some [g] => if decide (g ∈ result) then result else result ++ [g]
                       | _ => result
                       end)
           end)
  end.

(** The order of the probabilities at two indices, which are in range *)
Definition by_probability (row : list f32) (l r : nat) : comparison :=
  total_cmp (default zero (row !! r)) (default zero (row !! l)).

Definition top_characters (emitted : list token) (count : nat) : scoring (list ustring) :=
  if decide (count = 0) then mret []
  else
    row ← next_log_probabilities emitted;
    for_each (top_character count) []
      (take (count * 4) (sort_by (by_probability row) (seq 0 (length row)))).

(** The first tokens of what may be shown next *)
Definition first_token (tokens : list token) (display : ustring) : scoring (list token) :=
  match graphemes display with
  | [] => mret tokens
  | first :: _ =>
      encoded ← lm_tokenize first;
      match encoded with
      | [t] => if decide (t ∈ tokens) then mret tokens else mret (tokens ++ [t])
      | _ => mret tokens
      end
  end.

Definition pending_tokens (waiting : ustring) (t : InputTable) : scoring (list token) :=
  s ← gets fst;
  match pending_token_cache s !! waiting with
  | Some tokens => mret tokens
  | None =>
      tokens ← for_each first_token [] (possible_next_displays waiting t);
      let tokens := sort_by Z.compare tokens in
      modify (λ sm, (cache_pending_tokens waiting tokens sm.1, sm.2));;
      mret tokens
  end.

(** The logarithm of the probability that one of the tokens comes next *)
Definition any_of_tokens (row : list f32) (tokens : list token) : option f32 :=
  let values := omap (λ t, index ← usize_of_i32 t; row !! index) tokens in
  let maximum := fmaximum values in
  if negb (is_finite maximum) then None
  else
    let sum := fsum ((λ value, f32_exp (fsub value maximum)) <$> values) in
    if fle sum zero then None else Some (fadd maximum (f32_ln sum)).

Definition pending_proxy_log_probability (waiting : ustring) (emitted : list token) (t : option InputTable) :
    scoring (option f32) :=
  if decide (waiting = []) then mret (Some zero)
  else match t with
  | None => mret None
  | Some t =>
      s ← gets fst;
      match pending_score_cache s !! (emitted, waiting) with
      | Some score => mret (Some score)
      | None =>
          first_tokens ← pending_tokens waiting t;
          if decide (first_tokens = []) then mret None
          else
            row ← next_log_probabilities emitted;
            match any_of_tokens row first_tokens with
            | None => mret None
            | Some score =>
                modify (λ sm, (cache_pending_score (emitted, waiting) score sm.1, sm.2));;
                mret (Some score)
            end
      end
  end.

(** ** Hypotheses *)

Definition initial_hypothesis : BeamHypothesis :=
  {| corrected := []; emitted_text := []; emitted_tokens := []; observed_position := 0;
     previous_input := None; pending := []; proxy_log_probability := zero; channel_cost := zero;
     lm_score := zero; score := zero |}.

(** The hypothesis with what it has read, what that emits, and its scores *)
Definition advanced (parent : BeamHypothesis) (appended : list ustring) (emitted : ustring)
    (tokens : list token) (observed_count : nat) (waiting : ustring) (proxy cost lm : f32) : BeamHypothesis :=
  {| corrected := corrected parent ++ appended; emitted_text := emitted_text parent ++ emitted;
     emitted_tokens := tokens; observed_position := observed_position parent + observed_count;
     previous_input := last appended; pending := waiting; proxy_log_probability := proxy;
     channel_cost := cost; lm_score := lm; score := fsub lm cost |}.

Definition evaluate_advance (parent : BeamHypothesis) (appended : list ustring) (observed_count : nat)
    (channel_addition : f32) (emitted waiting : ustring) (t : option InputTable) :
    scoring (option BeamHypothesis) :=
  if negb (is_finite (proxy_log_probability parent)) then mret None
  else
    let base_lm_score := fsub (lm_score parent) (proxy_log_probability parent) in
    scored ← append_and_score (emitted_tokens parent) emitted;
    match scored with
    | None => mret None
    | Some (tokens, emitted_score) =>
        proxy ← pending_proxy_log_probability waiting tokens t;
        match proxy with
        | None => if decide (waiting = []) then expect None else mret None
        | Some proxy =>
            mret (Some (advanced parent appended emitted tokens observed_count waiting proxy
                          (fadd (channel_cost parent) channel_addition)
                          (fadd (fadd base_lm_score emitted_score) proxy)))
        end
    end.

(** The loop over the true sequence: what is emitted and what waits *)
Definition consume_step (t : option InputTable) (state : ustring * ustring) (c : ustring) :
    option (ustring * ustring) :=
  '(emitted, waiting) ← consume_with_emission state.2 c t;
  Some (state.1 ++ emitted, waiting).

(** The end of the input may not be corrected into something that is waiting. *)
Definition unfinished_correction (observed : list ustring) (final_index last_index : nat)
    (waiting last_key : ustring) (channel_addition : f32) : option bool :=
  if decide (final_index = last_index ∧ waiting ≠ []) then
    key ← observed !! final_index;
    Some (bool_decide (last_key ≠ key) || flt zero channel_addition)
  else Some false.

Definition add_advance (parent : BeamHypothesis) (observed : list ustring) (t : option InputTable)
    (true_sequence : list ustring) (observed_count : nat) (channel_addition : f32)
    (expanded : list BeamHypothesis) : scoring (list BeamHypothesis) :=
  match last true_sequence with
  | None => mret expanded
  | Some last_key =>
      '(emitted, waiting) ← expect (for_each (consume_step t) ([], pending parent) true_sequence);
      final_index ← expect (usub (observed_position parent + observed_count) 1);
      last_index ← expect (usub (length observed) 1);
      unfinished ← expect (unfinished_correction observed final_index last_index waiting last_key channel_addition);
      if (unfinished : bool) then mret expanded
      else
        next ← evaluate_advance parent true_sequence observed_count channel_addition emitted waiting t;
        match next with Some next => mret (expanded ++ [next]) | None => mret expanded end
  end.

(** The distance of the observed key to the key before it, when they are neighbours *)
Definition deleted_distance (h : BeamHypothesis) (current : ustring) (topo : Topology) : option f32 :=
  previous ← previous_input h;
  '(_, nd) ← list_find (λ nd, nd.1 = current) (neighbors previous topo);
  Some nd.2.

(** The hypothesis that the observed key was not meant *)
Definition delete_observed (h : BeamHypothesis) (t : option InputTable) (cost : f32)
    (expanded : list BeamHypothesis) : scoring (list BeamHypothesis) :=
  let base := fsub (lm_score h) (proxy_log_probability h) in
  proxy ← pending_proxy_log_probability (pending h) (emitted_tokens h) t;
  match proxy with
  | None => mret expanded
  | Some proxy =>
      let total_cost := fadd (channel_cost h) cost in
      let lm := fadd base proxy in
      mret (expanded ++ [ {| corrected := corrected h; emitted_text := emitted_text h;
        emitted_tokens := emitted_tokens h; observed_position := observed_position h + 1;
        previous_input := previous_input h; pending := pending h; proxy_log_probability := proxy;
        channel_cost := total_cost; lm_score := lm; score := fsub lm total_cost |} ])
  end.

(** The keys that may have been meant, with their costs *)
Definition targets_of (h : BeamHypothesis) (current : ustring) (mode : GenerationMode) (config : LmTypoConfig) :
    scoring (list (ustring * f32)) :=
  let all := neighbors current (topology mode) in
  substitutions ← (if filter_with_lm mode
                   then likely ← top_characters (emitted_tokens h) (top_k config);
                        mret (filter (λ nd, nd.1 ∈ likely) all)
                   else mret all);
  mret ((current, zero) :: ((λ nd, (nd.1, fmul (substitution_cost config) nd.2)) <$> substitutions)).

Definition expand_hypothesis (observed : list ustring) (h : BeamHypothesis) (mode : GenerationMode)
    (config : LmTypoConfig) (expanded : list BeamHypothesis) : scoring (list BeamHypothesis) :=
  let position := observed_position h in
  current ← expect (observed !! position);
  targets ← targets_of h current mode config;
  expanded ← for_each (λ expanded target,
    add_advance h observed (table mode) [target.1] 1 target.2 expanded) expanded targets;
  match observed !! (position + 1) with
  | None => mret expanded
  | Some next =>
      expanded ← (match deleted_distance h current (topology mode) with
                  | Some d => delete_observed h (table mode) (fmul (deletion_cost config) d) expanded
                  | None => mret expanded
                  end);
      if decide (current = next) then mret expanded
      else add_advance h observed (table mode) [next; current] 2 (transposition_cost config) expanded
  end.

(** [complete_hypothesis]: the rest of the input is taken as it was observed. *)
Definition complete_hypothesis (h : BeamHypothesis) (observed : list ustring) (t : option InputTable) :
    scoring (option BeamHypothesis) :=
  if decide (length observed ≤ observed_position h) then mret (Some h)
  else if negb (is_finite (proxy_log_probability h)) then mret None
  else
    let base_lm_score := fsub (lm_score h) (proxy_log_probability h) in
    let rest := drop (observed_position h) observed in
    '(emitted, waiting) ← expect (for_each (consume_step t) ([], pending h) rest);
    scored ← append_and_score (emitted_tokens h) emitted;
    match scored with
    | None => mret None
    | Some (tokens, emitted_score) =>
        proxy ← pending_proxy_log_probability waiting tokens t;
        match proxy with
        | None => mret None
        | Some proxy =>
            mret (Some (advanced h rest emitted tokens (length rest) waiting proxy (channel_cost h)
                          (fadd (fadd base_lm_score emitted_score) proxy)))
        end
    end.

(** ** The search *)

Definition is_complete (observed : list ustring) (h : BeamHypothesis) : bool :=
  bool_decide (observed_position h = length observed).

(** One hypothesis of a step of the search *)
Definition expand_one (observed : list ustring) (mode : GenerationMode) (config : LmTypoConfig)
    (expanded : list BeamHypothesis) (h : BeamHypothesis) : scoring (list BeamHypothesis) :=
  if is_complete observed h then mret (expanded ++ [h])
  else expand_hypothesis observed h mode config expanded.

(** The loop over the steps *)
Fixpoint search_beam (observed : list ustring) (mode : GenerationMode) (config : LmTypoConfig)
    (steps : nat) (beam : list BeamHypothesis) : scoring (list BeamHypothesis) :=
  match steps with
  | O => mret beam
  | S steps =>
      if forallb (is_complete observed) beam then mret beam
      else
        expanded ← for_each (expand_one observed mode config) [] beam;
        match expanded with
        | [] => mret beam
        | _ => search_beam observed mode config steps
                 (take (beam_size config) (sort_by compare_hypotheses expanded))
        end
  end.

Definition complete_one (observed : list ustring) (t : option InputTable) (completed : list BeamHypothesis)
    (h : BeamHypothesis) : scoring (list BeamHypothesis) :=
  done ← complete_hypothesis h observed t;
  match done with Some h => mret (completed ++ [h]) | None => mret completed end.

Definition candidate_of (h : BeamHypothesis) : LmTypoCandidate :=
  {| corrected_input := concat (corrected h); converted_text := emitted_text h ++ pending h;
     typo_score := score h; typo_lm_score := lm_score h; typo_channel_cost := channel_cost h;
     prominence := zero |}.

(** The best candidate of every corrected input *)
Definition keep_best (found : gmap ustring LmTypoCandidate) (h : BeamHypothesis) : gmap ustring LmTypoCandidate :=
  let c := candidate_of h in
  match found !! corrected_input c with
  | Some existing => if flt (typo_score existing) (typo_score c) then <[corrected_input c := c]> found else found
  | None => <[corrected_input c := c]> found
  end.

Definition compare_candidates (l r : LmTypoCandidate) : comparison :=
  and_then (total_cmp (typo_score r) (typo_score l)) (text_cmp (corrected_input l) (corrected_input r)).

Definition with_prominence (p : f32) (c : LmTypoCandidate) : LmTypoCandidate :=
  {| corrected_input := corrected_input c; converted_text := converted_text c; typo_score := typo_score c;
     typo_lm_score := typo_lm_score c; typo_channel_cost := typo_channel_cost c; prominence := p |}.

(** The candidates in their order; distinct inputs make the order of the map irrelevant. *)
Definition rank (n_best : nat) (beam : list BeamHypothesis) : list LmTypoCandidate :=
  let found := foldl keep_best ∅ beam in
  let candidates := take n_best (sort_by compare_candidates ((map_to_list found).*2)) in
  match candidates with
  | [] => []
  | best :: _ => (λ c, with_prominence (f32_exp (fsub (typo_score c) (typo_score best))) c) <$> candidates
  end.

Definition at_least_one (config : LmTypoConfig) : LmTypoConfig :=
  {| beam_size := beam_size config `max` 1; top_k := top_k config `max` 1;
     typo_n_best := typo_n_best config `max` 1; max_steps := max_steps config;
     substitution_cost := substitution_cost config; deletion_cost := deletion_cost config;
     transposition_cost := transposition_cost config |}.

(** The search and the completion, with a scorer *)
Definition search_corrections (observed : list ustring) (mode : GenerationMode) (config : LmTypoConfig) :
    scoring (list LmTypoCandidate) :=
  beam ← search_beam observed mode config (default (length observed * 2 + 8) (max_steps config))
           [initial_hypothesis];
  completed ← for_each (complete_one observed (table mode)) [] beam;
  original ← complete_hypothesis initial_hypothesis observed (table mode);
  mret (rank (typo_n_best config) (completed ++ option_list original)).

(** An action with a scorer of its own, over the model *)
Definition with_scorer {A} (scorer : LmScorer) (m : scoring A) : action M ZenzInferenceError A := λ model,
  let '(sm, r) := m (scorer, model) in (sm.2, r).

Definition experimental_typo_correction (left_context : ustring) (ct : ComposingText) (style : InputStyle)
    (tables : InputTableRegistry) (config : LmTypoConfig) : action M ZenzInferenceError (list LmTypoCandidate) :=
  let config := at_least_one config in
  let mode := generation_mode style tables in
  let observed := observed_input ct (use_surface mode) in
  if decide (observed = []) then mret []
  else
    make_scorer (typo_correction_prefix left_context) ≫= λ scorer,
    with_scorer scorer (search_corrections observed mode config).
End typo.
