(* ===== verification/LmTypoSpec.v ===== *)
(** * What the typing corrections promise

    The beam search of LmTypo.v: every candidate comes from the observed input by
    edits of neighbouring keys whose costs add up to its channel cost, converts to
    the text it shows, and the search is over before its step limit. *)

From S2P Require Import Prelude Unicode F32 InputTable Composing Action TextUtil Utf8 ComposingSpec Zenz ZenzEvaluator ZenzEvaluatorSpec NGram LmTypo.

(** ** Reading keys never fails *)

Section reading.
Context `{Segmentation}.

Lemma applied_total t current p : is_Some (applied t current p).
Proof.
  unfold applied. destruct (apply_correct t (graphemes current) p) as [(b & m & _ & _ & _ & _ & ->)|[_ ->]];
    by eexists.
Qed.

Lemma for_each_total {A B} (f : B → A → option B) l b :
  (∀ b a, is_Some (f b a)) → is_Some (for_each (M:=option) f b l).
Proof.
  intros Hf. revert b. induction l as [|a l IH]; intros b; [by eexists|]. cbn [for_each].
  destruct (Hf b a) as [b' ->]. apply IH.
Qed.

Lemma apply_input_table_total typed t : is_Some (apply_input_table typed t).
Proof.
  unfold apply_input_table. apply fmap_is_Some, for_each_total. intros current p. apply applied_total.
Qed.

Lemma longest_pending_total gs converted t n : is_Some (longest_pending gs converted t n).
Proof.
  induction n as [|n IH]; [by eexists|]. cbn [longest_pending]. destruct (has_continuation _ t); [|done].
  destruct (apply_input_table_total (concat (drop (length gs - S n) gs)) t) as [display ->].
  cbn [mbind option_bind]. by destruct (_ && _); [eexists|].
Qed.

Lemma consume_total waiting c t : is_Some (consume_with_emission waiting c t).
Proof.
  unfold consume_with_emission. destruct t as [t|]; [|by eexists].
  destruct (apply_input_table_total (waiting ++ c) t) as [converted ->]. cbn [mbind option_bind].
  destruct (longest_pending_total (graphemes (waiting ++ c)) converted t (length (graphemes (waiting ++ c))))
    as [next Hnext].
  unfold pending_suffix. rewrite Hnext. cbn [mbind option_bind]. repeat case_decide; by eexists.
Qed.

Lemma consume_step_total t state c : is_Some (consume_step t state c).
Proof.
  unfold consume_step. destruct (consume_total state.2 c t) as [[emitted waiting] ->]. by eexists.
Qed.

(** What a sequence of keys shows and leaves waiting *)
Definition reads_as (t : option InputTable) (keys : list ustring) (shown waiting : ustring) : Prop :=
  for_each (M:=option) (consume_step t) ([], []) keys = Some (shown, waiting).

Lemma consume_step_eq t shown waiting c :
  consume_step t (shown, waiting) c =
    '(e, w) ← consume_with_emission waiting c t; Some (shown ++ e, w).
Proof. done. Qed.

Lemma consume_from t shown waiting keys :
  for_each (M:=option) (consume_step t) (shown, waiting) keys =
    '(more, rest) ← for_each (M:=option) (consume_step t) ([], waiting) keys; Some (shown ++ more, rest).
Proof.
  revert shown waiting. induction keys as [|k keys IH]; intros shown waiting; cbn [for_each].
  - cbn. by rewrite app_nil_r.
  - rewrite !consume_step_eq. destruct (consume_with_emission waiting k t) as [[e w]|]; [|done].
    cbn [mbind option_bind app]. rewrite IH, (IH e). destruct (for_each _ _ keys) as [[more rest]|]; [|done].
    cbn. by rewrite (assoc_L (++)).
Qed.

Lemma for_each_option_app {A B} (f : B → A → option B) b l k :
  for_each (M:=option) f b (l ++ k) = for_each f b l ≫= λ b', for_each f b' k.
Proof.
  revert b. induction l as [|a l IH]; intros b; [done|]. cbn [app for_each].
  destruct (f b a); [apply IH|done].
Qed.

Lemma reads_as_app t keys more shown waiting shown' waiting' :
  reads_as t keys shown waiting →
  for_each (M:=option) (consume_step t) ([], waiting) more = Some (shown', waiting') →
  reads_as t (keys ++ more) (shown ++ shown') waiting'.
Proof.
  unfold reads_as. intros Hkeys Hmore. rewrite for_each_option_app, Hkeys. cbn [mbind option_bind].
  by rewrite consume_from, Hmore.
Qed.
End reading.

(** ** The scorer never panics *)

Section scorer.
Context `{Segmentation} `{Libm} {M : Type} `{ZenzLanguageModel M} `{!ModelTotal M}.

Lemma np_tokenize_for_model text b : never_panics (tokenize_for_model (M:=M) text b).
Proof. unfold tokenize_for_model. apply tokenize_total. Qed.
#[local] Hint Resolve np_tokenize_for_model : bean.

Lemma np_lm_tokenize text : never_panics (lm_tokenize (M:=M) text).
Proof. unfold lm_tokenize. never_panic. Qed.
#[local] Hint Resolve np_lm_tokenize : bean.

Lemma np_next_log_probabilities tokens : never_panics (next_log_probabilities (M:=M) tokens).
Proof. unfold next_log_probabilities. never_panic. Qed.
#[local] Hint Resolve np_next_log_probabilities : bean.

Lemma np_append_and_score tokens text : never_panics (append_and_score (M:=M) tokens text).
Proof. unfold append_and_score, append_token. never_panic. Qed.

Lemma np_top_character count result id : never_panics (top_character (M:=M) count result id).
Proof.
  unfold top_character. case_decide; [apply np_ret|]. destruct (i32_of_usize id) as [t|]; [|apply np_ret].
  apply never_panics_spec. intros [s m]. cbn [on_snd].
  pose proof (proj1 (never_panics_spec _) (token_to_piece_total t) m) as Hm.
  destruct (token_to_piece t m) as [m' [piece|e|]]; [|done..]. cbn. by repeat case_match.
Qed.
#[local] Hint Resolve np_top_character : bean.

Lemma np_top_characters tokens count : never_panics (top_characters (M:=M) tokens count).
Proof. unfold top_characters. never_panic. Qed.

Lemma np_pending_tokens waiting t : never_panics (pending_tokens (M:=M) waiting t).
Proof. unfold pending_tokens, first_token. never_panic. Qed.
#[local] Hint Resolve np_pending_tokens : bean.

Lemma np_pending_proxy waiting tokens t : never_panics (pending_proxy_log_probability (M:=M) waiting tokens t).
Proof. unfold pending_proxy_log_probability. never_panic. Qed.

(** Nothing waiting is certain. *)
Lemma pending_proxy_yields waiting tokens t :
  yields (pending_proxy_log_probability (M:=M) waiting tokens t) (λ r, waiting = [] → r = Some zero).
Proof.
  unfold pending_proxy_log_probability. case_decide as Hw; [by apply yields_ret|].
  eapply yields_mono; [apply yields_np|done].
  pose proof (np_pending_proxy waiting tokens t) as Hnp. unfold pending_proxy_log_probability in Hnp.
  by rewrite decide_False in Hnp.
Qed.
End scorer.

#[export] Hint Resolve np_append_and_score np_top_characters np_pending_proxy : bean.

(** ** Corrections *)

(** [edits mode config observed corrected cost previous]: the observed keys may have
    been meant as the corrected ones at this cost, [previous] being the last of them
    that was read by the search. *)
Inductive edits `{Segmentation} (topo : Topology) (config : LmTypoConfig) :
    list ustring → list ustring → f32 → option ustring → Prop :=
  | edits_none : edits topo config [] [] zero None
  | edits_keep observed keys cost previous k :
      edits topo config observed keys cost previous →
      edits topo config (observed ++ [k]) (keys ++ [k]) (fadd cost zero) (Some k)
  | edits_substitute observed keys cost previous k k' d :
      edits topo config observed keys cost previous → (k', d) ∈ neighbors k topo →
      edits topo config (observed ++ [k]) (keys ++ [k'])
        (fadd cost (fmul (substitution_cost config) d)) (Some k')
  | edits_delete observed keys cost k k' d :
      edits topo config observed keys cost (Some k') → (k, d) ∈ neighbors k' topo →
      edits topo config (observed ++ [k]) keys (fadd cost (fmul (deletion_cost config) d)) (Some k')
  | edits_transpose observed keys cost previous k k' :
      edits topo config observed keys cost previous → k ≠ k' →
      edits topo config (observed ++ [k; k']) (keys ++ [k'; k]) (fadd cost (transposition_cost config)) (Some k)
  | edits_rest observed keys cost previous rest :
      edits topo config observed keys cost previous → rest ≠ [] →
      edits topo config (observed ++ rest) (keys ++ rest) cost (last rest).

Section search.
Context `{Segmentation} `{Libm} {M : Type} `{ZenzLanguageModel M} `{!ModelTotal M}.
Context (observed : list ustring) (mode : GenerationMode) (config : LmTypoConfig).

(** A hypothesis is sound: it has read a part of the observed keys, its keys are a
    correction of this part, its text is what these keys show, and its score is that
    of the model less the cost. *)
Record sound (h : BeamHypothesis) : Prop := {
  sound_position : observed_position h ≤ length observed;
  sound_edits : edits (topology mode) config (take (observed_position h) observed) (corrected h)
                  (channel_cost h) (previous_input h);
  sound_text : reads_as (table mode) (corrected h) (emitted_text h) (pending h);
  sound_score : score h = fsub (lm_score h) (channel_cost h);
}.

Lemma initial_sound : sound initial_hypothesis.
Proof. split; [cbn; lia|constructor|done|by vm_compute]. Qed.

Lemma evaluate_advance_yields parent appended n cost emitted waiting t (Q : BeamHypothesis → Prop) :
  (∀ tokens proxy lm, Q (advanced parent appended emitted tokens n waiting proxy
     (fadd (channel_cost parent) cost) lm)) →
  yields (evaluate_advance (M:=M) parent appended n cost emitted waiting t) (λ r, ∀ h, r = Some h → Q h).
Proof using ModelTotal0.
  intros HQ. unfold evaluate_advance. destruct (negb _); [by apply yields_ret|]. cbv zeta.
  apply yields_np_bind; [apply np_append_and_score|]. intros [[tokens emitted_score]|]; [|by apply yields_ret].
  eapply yields_bind; [apply pending_proxy_yields|]. intros [proxy|] Hproxy.
  - apply yields_ret. intros h [= <-]. apply HQ.
  - case_decide as Hw; [by specialize (Hproxy Hw)|by apply yields_ret].
Qed.

(** Sound, and with at least [k] keys read (or all of them) *)
Definition reached (k : nat) (h : BeamHypothesis) : Prop :=
  sound h ∧ k `min` length observed ≤ observed_position h.

Lemma reached_le k l h : k ≤ l → reached l h → reached k h.
Proof using. intros Hkl [Hs Hl]. split; [done|lia]. Qed.

Lemma add_advance_yields h ts n cost expanded k :
  sound h → ts ≠ [] → 0 < n → observed_position h + n ≤ length observed → k ≤ observed_position h + n →
  edits (topology mode) config (take (observed_position h + n) observed) (corrected h ++ ts)
    (fadd (channel_cost h) cost) (last ts) →
  Forall (reached k) expanded →
  yields (add_advance (M:=M) h observed (table mode) ts n cost expanded) (Forall (reached k)).
Proof using ModelTotal0.
  intros Hs Hts Hn Hpos Hk Hedits Hexp. unfold add_advance.
  destruct (last ts) as [last_key|] eqn:Hlast; [|by apply yields_ret].
  destruct (for_each_total (consume_step (table mode)) ts ([], pending h) (consume_step_total _))
    as [[emitted waiting] Hread].
  apply (yields_expect _ _ _ _ Hread). cbv beta iota.
  eapply yields_expect; [apply usub_ok; lia|]. eapply yields_expect; [apply usub_ok; lia|].
  assert (∃ b, unfinished_correction observed (observed_position h + n - 1) (length observed - 1)
    waiting last_key cost = Some b) as [b Hb].
  { unfold unfinished_correction. case_decide; [|by eexists].
    destruct (lookup_lt_is_Some_2 observed (observed_position h + n - 1)) as [key ->]; [lia|]. by eexists. }
  apply (yields_expect _ _ _ _ Hb). destruct b; [by apply yields_ret|].
  eapply yields_bind.
  - apply (evaluate_advance_yields h ts n cost emitted waiting (table mode) (reached k)).
    intros tokens proxy lm. split; [|cbn; lia]. split; cbn; [done|by rewrite Hlast| |done].
    eapply reads_as_app; [apply Hs|done].
  - intros [next|] Hnext; apply yields_ret; [|done]. apply Forall_app. split; [done|].
    constructor; [by apply Hnext|constructor].
Qed.

Lemma take_next i (k : ustring) :
  observed !! i = Some k → take (i + 1) observed = take i observed ++ [k].
Proof using. intros Hi. rewrite Nat.add_1_r. by apply take_S_r. Qed.

Lemma delete_observed_yields h cost expanded k :
  sound h → observed_position h + 1 ≤ length observed → k ≤ observed_position h + 1 →
  edits (topology mode) config (take (observed_position h + 1) observed) (corrected h)
    (fadd (channel_cost h) cost) (previous_input h) →
  Forall (reached k) expanded →
  yields (delete_observed (M:=M) h (table mode) cost expanded) (Forall (reached k)).
Proof using ModelTotal0.
  intros Hs Hpos Hk Hedits Hexp. unfold delete_observed. cbv zeta.
  apply yields_np_bind; [apply np_pending_proxy|]. intros [proxy|]; apply yields_ret; [|done].
  apply Forall_app. split; [done|]. constructor; [|constructor]. split; [|cbn; lia].
  split; cbn; [lia|done|apply Hs|done].
Qed.

Lemma targets_yields h current :
  yields (targets_of (M:=M) h current mode config) (λ targets,
    ∀ k cost, (k, cost) ∈ targets →
      (k = current ∧ cost = zero) ∨
      ∃ d, (k, d) ∈ neighbors current (topology mode) ∧ cost = fmul (substitution_cost config) d).
Proof using ModelTotal0.
  unfold targets_of. cbv zeta.
  eapply (yields_bind _ _ (λ subs, ∀ nd, nd ∈ subs → nd ∈ neighbors current (topology mode))).
  - destruct (filter_with_lm mode); [|by apply yields_ret].
    apply yields_np_bind; [apply np_top_characters|]. intros likely. apply yields_ret.
    by intros nd [_ ?]%list_elem_of_filter.
  - intros subs Hsubs. apply yields_ret. intros k cost [[= -> ->]|Hin]%elem_of_cons; [by left|right].
    apply list_elem_of_fmap in Hin as ([k' d] & [= -> ->] & Hin). eauto.
Qed.

Lemma expand_hypothesis_yields h expanded k :
  sound h → observed_position h < length observed → k ≤ observed_position h + 1 →
  Forall (reached k) expanded →
  yields (expand_hypothesis (M:=M) observed h mode config expanded) (Forall (reached k)).
Proof using ModelTotal0.
  intros Hs Hpos Hk Hexp. unfold expand_hypothesis. cbv zeta.
  destruct (lookup_lt_is_Some_2 observed (observed_position h) Hpos) as [current Hcurrent].
  pose proof (take_next _ _ Hcurrent) as Htake. pose proof (sound_edits h Hs) as Hedits.
  apply (yields_expect _ _ _ _ Hcurrent). eapply yields_bind; [apply targets_yields|]. intros targets Htargets.
  eapply yields_bind.
  { apply (yields_for_each (Forall (reached k))); [|exact Hexp]. intros e [key cost] Hin He.
    apply add_advance_yields; [done|done|lia|lia|lia| |done]. rewrite Htake. cbn [last].
    destruct (Htargets key cost Hin) as [[-> ->]|(d & Hd & ->)]; [by eapply edits_keep|by eapply edits_substitute]. }
  intros expanded1 Hexp1. destruct (observed !! (observed_position h + 1)) as [next|] eqn:Hnext; [|by apply yields_ret].
  pose proof (lookup_lt_Some _ _ _ Hnext) as Hlt.
  eapply (yields_bind _ _ (Forall (reached k))).
  - destruct (deleted_distance h current (topology mode)) as [d|] eqn:Hd; [|by apply yields_ret].
    apply delete_observed_yields; [done|lia|lia| |done]. rewrite Htake.
    unfold deleted_distance in Hd. apply bind_Some in Hd as (previous & Hprev & Hd).
    apply bind_Some in Hd as ([i [k' d']] & Hfind & [= <-]). apply list_find_Some in Hfind as (Hi & E & _).
    cbn in E. subst k'. rewrite Hprev in *. eapply edits_delete; [exact Hedits|]. by eapply list_elem_of_lookup_2.
  - intros expanded2 Hexp2. case_decide as Hsame; [by apply yields_ret|].
    apply add_advance_yields; [done|done|lia|lia|lia| |done].
    replace (observed_position h + 2) with (observed_position h + 1 + 1) by lia.
    rewrite (take_next _ _ Hnext), Htake, <- (assoc_L (++)). by eapply edits_transpose.
Qed.

Lemma is_complete_spec h : is_complete observed h = true ↔ observed_position h = length observed.
Proof using. unfold is_complete. by rewrite bool_decide_eq_true. Qed.

(** A step of the search reads at least one more key. *)
Lemma expand_beam_yields k beam :
  Forall (reached k) beam →
  yields (for_each (expand_one (M:=M) observed mode config) [] beam) (Forall (reached (S k))).
Proof using ModelTotal0.
  intros Hbeam. rewrite Forall_forall in Hbeam. apply yields_for_each; [|constructor].
  intros expanded h Hin Hexp. destruct (Hbeam h Hin) as [Hs Hk]. unfold expand_one.
  destruct (is_complete observed h) eqn:Hc.
  - apply is_complete_spec in Hc. apply yields_ret, Forall_app. split; [done|].
    constructor; [|constructor]. split; [done|lia].
  - assert (Hne : observed_position h ≠ length observed) by (by rewrite <- is_complete_spec, Hc).
    pose proof (sound_position h Hs). apply expand_hypothesis_yields; [done|lia|lia|done].
Qed.

Lemma next_beam_reached k expanded :
  Forall (reached k) expanded →
  Forall (reached k) (take (beam_size config) (sort_by compare_hypotheses expanded)).
Proof using. intros Hexp. apply Forall_take. by rewrite sort_by_perm. Qed.

Lemma search_beam_yields steps k beam :
  Forall (reached k) beam → yields (search_beam (M:=M) observed mode config steps beam) (Forall sound).
Proof using ModelTotal0.
  revert k beam. induction steps as [|steps IH]; intros k beam Hbeam; cbn [search_beam].
  - apply yields_ret. eapply Forall_impl; [exact Hbeam|by intros h [? _]].
  - destruct (forallb _ _).
    { apply yields_ret. eapply Forall_impl; [exact Hbeam|by intros h [? _]]. }
    eapply yields_bind; [by apply expand_beam_yields|]. intros [|h expanded] Hexp.
    + apply yields_ret. eapply Forall_impl; [exact Hbeam|by intros h [? _]].
    + by eapply IH, next_beam_reached.
Qed.

(** Once every hypothesis has read everything the search is over. *)
Lemma search_beam_steps steps steps' k beam s :
  Forall (reached k) beam → length observed ≤ k + steps → length observed ≤ k + steps' →
  search_beam (M:=M) observed mode config steps beam s = search_beam observed mode config steps' beam s.
Proof using ModelTotal0.
  revert steps' k beam s. induction steps as [|steps IH]; intros steps' k beam s Hbeam Hn Hn'.
  - assert (Hall : forallb (is_complete observed) beam = true).
    { apply forallb_forall. intros h Hh%list_elem_of_In. rewrite Forall_forall in Hbeam.
      destruct (Hbeam h Hh) as [Hs Hk]. apply is_complete_spec. pose proof (sound_position h Hs). lia. }
    destruct steps' as [|steps']; cbn [search_beam]; [done|]. by rewrite Hall.
  - cbn [search_beam]. destruct (forallb (is_complete observed) beam) eqn:Hall.
    { destruct steps' as [|steps']; cbn [search_beam]; [done|]. by rewrite Hall. }
    destruct steps' as [|steps'].
    { exfalso. apply not_true_iff_false in Hall. apply Hall, forallb_forall.
      intros h Hh%list_elem_of_In. rewrite Forall_forall in Hbeam.
      destruct (Hbeam h Hh) as [Hs Hk]. apply is_complete_spec. pose proof (sound_position h Hs). lia. }
    cbn [search_beam]. rewrite Hall. unfold mbind, action_bind.
    pose proof (expand_beam_yields k beam Hbeam s I) as Hexp.
    destruct (for_each (expand_one observed mode config) [] beam s) as [s' [expanded|e|]]; [|done..].
    destruct expanded as [|h expanded]; [done|]. apply (IH steps' (S k)); [by apply next_beam_reached|lia|lia].
Qed.

Lemma complete_hypothesis_yields h :
  sound h →
  yields (complete_hypothesis (M:=M) h observed (table mode))
    (λ r, ∀ h', r = Some h' → sound h' ∧ observed_position h' = length observed).
Proof using ModelTotal0.
  intros Hs. pose proof (sound_position h Hs) as Hpos. unfold complete_hypothesis. case_decide as Hdone.
  { apply yields_ret. intros h' [= <-]. split; [done|lia]. }
  destruct (negb _); [by apply yields_ret|]. cbv zeta. set (rest := drop (observed_position h) observed).
  assert (Hrest : length rest = length observed - observed_position h) by apply length_drop.
  destruct (for_each_total (consume_step (table mode)) rest ([], pending h) (consume_step_total _))
    as [[emitted waiting] Hread].
  apply (yields_expect _ _ _ _ Hread). cbv beta iota.
  apply yields_np_bind; [apply np_append_and_score|]. intros [[tokens emitted_score]|]; [|by apply yields_ret].
  apply yields_np_bind; [apply np_pending_proxy|]. intros [proxy|]; apply yields_ret; [|done].
  intros h' [= <-]. split; [|cbn; lia]. split; cbn; [lia| | |done].
  - rewrite take_ge by lia. rewrite <- (take_drop (observed_position h) observed) at 1. fold rest.
    apply (edits_rest _ _ _ _ _ (previous_input h)); [apply Hs|]. intros E. rewrite E in Hrest. cbn in Hrest. lia.
  - eapply reads_as_app; [apply Hs|done].
Qed.

Lemma search_corrections_yields :
  yields (search_corrections (M:=M) observed mode config) (λ cs, ∃ beam, cs = rank (typo_n_best config) beam ∧
    Forall (λ h, sound h ∧ observed_position h = length observed) beam).
Proof using ModelTotal0.
  unfold search_corrections. pose proof initial_sound as Hinit.
  eapply yields_bind; [apply (search_beam_yields _ 0); constructor; [by split|constructor]|].
  intros beam Hbeam. rewrite Forall_forall in Hbeam.
  eapply (yields_bind _ _ (Forall (λ h, sound h ∧ observed_position h = length observed))).
  - apply yields_for_each; [|constructor]. intros completed h Hin Hcompleted. unfold complete_one.
    eapply yields_bind; [by apply complete_hypothesis_yields, Hbeam|]. intros [h'|] Hh'; apply yields_ret; [|done].
    apply Forall_app. split; [done|]. constructor; [by apply Hh'|constructor].
  - intros completed Hcompleted. eapply yields_bind; [by apply complete_hypothesis_yields|].
    intros original Horiginal. apply yields_ret. eexists. split; [done|]. apply Forall_app. split; [done|].
    destruct original as [h|]; constructor; [by apply Horiginal|constructor].
Qed.
End search.

(** ** The order of the candidates *)

Lemma text_cmp_flip a b : text_cmp b a = CompOpp (text_cmp a b).
Proof.
  revert b. induction a as [|x a IH]; intros [|y b]; try done. cbn.
  rewrite (N.compare_antisym x y). destruct (N.compare x y); cbn; [apply IH|done..].
Qed.

Lemma text_cmp_trans a b c : text_cmp a b ≠ Gt → text_cmp b c ≠ Gt → text_cmp a c ≠ Gt.
Proof.
  revert b c. induction a as [|x a IH]; intros [|y b] [|z c]; cbn; try done.
  destruct (N.compare_spec x y), (N.compare_spec y z), (N.compare_spec x z); subst; try done; try lia.
  apply IH.
Qed.

Lemma text_cmp_eq a b : text_cmp a b = Eq → a = b.
Proof.
  revert b. induction a as [|x a IH]; intros [|y b]; cbn; try done.
  destruct (N.compare_spec x y) as [->|?|?]; try done. intros Hab. f_equal. by apply IH.
Qed.

Lemma compare_candidates_flip l r : compare_candidates r l = CompOpp (compare_candidates l r).
Proof.
  unfold compare_candidates. rewrite (total_cmp_flip (typo_score r) (typo_score l)), text_cmp_flip.
  by destruct (total_cmp (typo_score r) (typo_score l)).
Qed.

Lemma compare_candidates_trans a b c :
  compare_candidates a b ≠ Gt → compare_candidates b c ≠ Gt → compare_candidates a c ≠ Gt.
Proof.
  unfold compare_candidates, total_cmp.
  destruct (Z.compare_spec (total_key (typo_score b)) (total_key (typo_score a))),
    (Z.compare_spec (total_key (typo_score c)) (total_key (typo_score b))),
    (Z.compare_spec (total_key (typo_score c)) (total_key (typo_score a))); cbn; try done; try lia.
  apply text_cmp_trans.
Qed.

(** What is kept of a beam: under every corrected input a candidate of the beam *)
Definition kept_of (beam : list BeamHypothesis) (found : gmap ustring LmTypoCandidate) : Prop :=
  map_Forall (λ k c, corrected_input c = k ∧ ∃ h, h ∈ beam ∧ c = candidate_of h) found ∧
  ∀ h, h ∈ beam → is_Some (found !! concat (corrected h)).

Lemma keep_best_spec beam found h : kept_of beam found → kept_of (beam ++ [h]) (keep_best found h).
Proof.
  intros [Hfound Hall].
  assert (Hold : map_Forall (λ k c, corrected_input c = k ∧ ∃ h', h' ∈ beam ++ [h] ∧ c = candidate_of h') found).
  { intros k c Hc. destruct (Hfound k c Hc) as (Hk & h' & Hh' & ->). split; [done|]. exists h'. set_solver. }
  assert (Hnew : kept_of (beam ++ [h]) (<[concat (corrected h) := candidate_of h]> found)).
  { split.
    - apply map_Forall_insert_2; [|done]. split; [done|]. exists h. set_solver.
    - intros h' [Hh'|Hh'%list_elem_of_singleton]%elem_of_app; [|subst h'; by rewrite lookup_insert_eq].
      destruct (decide (concat (corrected h') = concat (corrected h))) as [->|Hne]; [by rewrite lookup_insert_eq|].
      rewrite lookup_insert_ne by done. by apply Hall. }
  unfold keep_best. cbn [corrected_input candidate_of].
  destruct (found !! concat (corrected h)) as [existing|] eqn:E; [|done].
  destruct (flt _ _); [done|]. split; [done|].
  intros h' [Hh'|Hh'%list_elem_of_singleton]%elem_of_app; [by apply Hall|subst h'; by rewrite E].
Qed.

Lemma keep_best_all beam : kept_of beam (foldl keep_best ∅ beam).
Proof.
  induction beam as [|h beam IH] using rev_ind.
  - split; [apply map_Forall_empty|by intros h ?%not_elem_of_nil].
  - rewrite foldl_snoc. by apply keep_best_spec.
Qed.

Lemma kept_values (found : gmap ustring LmTypoCandidate) :
  map_Forall (λ k c, corrected_input c = k) found →
  corrected_input <$> (map_to_list found).*2 = (map_to_list found).*1.
Proof.
  intros Hfound. rewrite <- list_fmap_compose. apply list_fmap_ext. intros i [k c] Hi. cbn.
  apply list_elem_of_lookup_2, elem_of_map_to_list in Hi. by apply Hfound in Hi.
Qed.

Lemma sorted_take {A} (R : relation A) n l : StronglySorted R l → StronglySorted R (take n l).
Proof.
  intros Hl. revert n. induction Hl as [|a l _ IH Ha]; intros [|n]; cbn; constructor; [done|]. by apply Forall_take.
Qed.

(** The prominence of a candidate plays no part in the order. *)
Lemma sorted_with_prominence (prominence : LmTypoCandidate → f32) cs :
  StronglySorted (λ a b, compare_candidates a b ≠ Gt) cs →
  StronglySorted (λ a b, compare_candidates a b ≠ Gt) ((λ c, with_prominence (prominence c) c) <$> cs).
Proof.
  induction 1 as [|c cs _ IH Hc]; cbn; constructor; [done|]. by rewrite Forall_fmap.
Qed.

Lemma rank_spec `{Libm} n beam :
  let cs := rank n beam in
  length cs ≤ n ∧ NoDup (corrected_input <$> cs) ∧
  StronglySorted (λ a b, compare_candidates a b ≠ Gt) cs ∧
  (∀ c, c ∈ cs → ∃ h p, h ∈ beam ∧ c = with_prominence p (candidate_of h)) ∧
  (beam ≠ [] → 0 < n → cs ≠ []).
Proof.
  unfold rank. cbv zeta. destruct (keep_best_all beam) as [Hfound Hall].
  set (found := foldl keep_best ∅ beam) in *.
  set (sorted := sort_by compare_candidates ((map_to_list found).*2)).
  assert (Hnd : NoDup (corrected_input <$> sorted)).
  { subst sorted. rewrite sort_by_perm, kept_values; [apply NoDup_fst_map_to_list|].
    intros k c Hc. by apply Hfound in Hc as [? _]. }
  assert (Hin : ∀ c, c ∈ take n sorted → ∃ h, h ∈ beam ∧ c = candidate_of h).
  { intros c Hc%elem_of_take_in. subst sorted. rewrite elem_of_sort_by in Hc.
    apply list_elem_of_fmap in Hc as ([k c'] & -> & Hc). apply elem_of_map_to_list, Hfound in Hc as (_ & h & ? & ?).
    eauto. }
  assert (Hsorted : StronglySorted (λ a b, compare_candidates a b ≠ Gt) (take n sorted)).
  { apply sorted_take, sort_by_sorted; [apply compare_candidates_flip|apply compare_candidates_trans]. }
  assert (Hne : beam ≠ [] → 0 < n → take n sorted ≠ []).
  { intros Hbeam Hn E. destruct beam as [|h beam']; [done|]. destruct (Hall h) as [c Hc]; [by left|].
    assert (c ∈ sorted) as Hc'.
    { subst sorted. rewrite elem_of_sort_by. apply list_elem_of_fmap. exists (concat (corrected h), c).
      split; [done|]. by apply elem_of_map_to_list. }
    destruct sorted; [by apply not_elem_of_nil in Hc'|]. by destruct n; [lia|]. }
  assert (Hnd' : NoDup (corrected_input <$> take n sorted)).
  { eapply sublist_NoDup; [exact Hnd|]. apply fmap_sublist, sublist_take. }
  assert (Hlen : length (take n sorted) ≤ n) by (rewrite length_take; lia).
  destruct (take n sorted) as [|best cs] eqn:E; [split_and!; try done; by intros c ?%not_elem_of_nil|].
  rewrite <- E in *. clear E. split_and!.
  - by rewrite length_fmap.
  - by rewrite <- list_fmap_compose.
  - exact (sorted_with_prominence (λ c, f32_exp (fsub (typo_score c) (typo_score best))) _ Hsorted).
  - intros c (c' & -> & (h & Hh & ->)%Hin)%list_elem_of_fmap. eauto.
  - intros Hbeam Hn E. apply fmap_nil_inv in E. by apply Hne.
Qed.

(** ** The search is over before its limit *)

Section results.
Context `{Segmentation} (to_lowercase : ustring → ustring) `{Libm} {M : Type} `{ZenzLanguageModel M} `{!ModelTotal M}.

(** C37. The beam search ends by itself: from the initial hypothesis, every limit of
    at least as many steps as there are observed keys gives the result of exactly
    that many steps - the limit used by default, twice the keys and eight more, never
    cuts a search short. *)
Theorem typo_search_terminates (observed : list ustring) (mode : GenerationMode) (config : LmTypoConfig)
    (steps : nat) (s : LmScorer * M) (Hsteps : length observed ≤ steps) :
  search_beam observed mode config steps [initial_hypothesis] s =
    search_beam observed mode config (length observed) [initial_hypothesis] s ∧
  search_beam observed mode config (length observed * 2 + 8) [initial_hypothesis] s =
    search_beam observed mode config (length observed) [initial_hypothesis] s.
Proof using ModelTotal0.
  assert (Hinit : Forall (reached observed mode config 0) [initial_hypothesis]).
  { constructor; [split; [apply initial_sound|lia]|constructor]. }
  split; eapply search_beam_steps; first [exact Hinit|lia].
Qed.

(** What a candidate is of the observed keys: made by edits whose cost is its channel
    cost, showing what its keys show, scored by the model less the cost *)
Definition justified (mode : GenerationMode) (config : LmTypoConfig) (observed : list ustring)
    (c : LmTypoCandidate) : Prop :=
  ∃ keys shown waiting previous,
    edits (topology mode) config observed keys (typo_channel_cost c) previous ∧
    reads_as (table mode) keys shown waiting ∧
    corrected_input c = concat keys ∧ converted_text c = shown ++ waiting ∧
    typo_score c = fsub (typo_lm_score c) (typo_channel_cost c).

Lemma np_make_scorer prompt : never_panics (make_scorer (M:=M) prompt).
Proof using ModelTotal0. unfold make_scorer. never_panic. Qed.

(** C25. Typo correction never panics, and what it returns are at most the wanted
    candidates, without two for one input, best first; each of them comes from the
    observed keys by substitutions and deletions of neighbouring keys and by
    transpositions whose costs add up to its channel cost, and its text is what these
    keys show. *)
Theorem typo_candidates_justified (left_context : ustring) (ct : ComposingText) (style : InputStyle)
    (tables : InputTableRegistry) (config : LmTypoConfig) :
  yields (experimental_typo_correction (M:=M) to_lowercase left_context ct style tables config) (λ cs,
    length cs ≤ typo_n_best config `max` 1 ∧
    NoDup (corrected_input <$> cs) ∧
    StronglySorted (λ a b, compare_candidates a b ≠ Gt) cs ∧
    Forall (justified (generation_mode style tables) (at_least_one config)
              (observed_input to_lowercase ct (use_surface (generation_mode style tables)))) cs).
Proof using ModelTotal0.
  unfold experimental_typo_correction. cbv zeta. case_decide as Hobserved.
  { apply yields_ret. split_and!; [cbn; lia|constructor..]. }
  apply yields_np_bind; [apply np_make_scorer|]. intros scorer model Hmodel. unfold with_scorer.
  set (mode := generation_mode style tables) in *. set (observed := observed_input _ _ _) in *.
  pose proof (search_corrections_yields observed mode (at_least_one config) (scorer, model) I) as Hsearch.
  destruct (search_corrections observed mode (at_least_one config) (scorer, model)) as [s [cs|e|]]; [|done..].
  destruct Hsearch as (beam & -> & Hbeam). rewrite Forall_forall in Hbeam.
  destruct (rank_spec (typo_n_best (at_least_one config)) beam) as (Hlen & Hnd & Hsorted & Hin & _).
  split_and!; [done..|]. apply Forall_forall. intros c (h & p & Hh & ->)%Hin.
  destruct (Hbeam h Hh) as [[_ Hedits Htext Hscore] Hpos].
  rewrite Hpos, take_ge in Hedits by lia.
  exists (corrected h), (emitted_text h), (pending h), (previous_input h). by split_and!.
Qed.
End results.

(** ** The keyboard of a custom table *)

Lemma possible_nexts_nil t : InputTable.possible_nexts t [] = [].
Proof.
  unfold InputTable.possible_nexts. induction (mappings t) as [|m ms IH]; [done|]. cbn.
  destruct (key_text (key m)); [|done]. cbn. rewrite decide_True by auto. done.
Qed.

(** A custom input table is always corrected on the flick keyboard, from the
    surface and filtered by the model: the test for a roman table asks for what
    follows the empty prefix, which no table answers, so the QWERTY keyboard of
    the phone is never used. *)
Theorem mapped_style_is_never_qwerty (id : InputTableId) (tables : InputTableRegistry) :
  generation_mode (Mapped id) tables =
    {| table := resolve tables (Mapped id); topology := IosFlickTenkey;
       use_surface := true; filter_with_lm := true |}.
Proof.
  unfold generation_mode. destruct (resolve tables (Mapped id)) as [t|]; [|done]. by rewrite possible_nexts_nil.
Qed.

(** ** A small model *)

#[local] Existing Instance scalar_clusters.

Definition toy_pieces : list ustring := u <$> ["x"; "カ"; "キ"; "ク"; "k"; "a"].

#[local] Instance toy_libm : Libm :=
  {| f32_exp x := fadd (of_nat 1) (fmul x (lit 1 100)); f32_ln x := fsub x (of_nat 1) |}.

Definition toy_piece (t : token) : action () ZenzInferenceError (list byte) :=
  match toy_pieces !! Z.to_nat t with Some p => mret (utf8 p) | None => raise (Message []) end.

(** A model that always expects the third piece *)
#[local] Instance toy_expects : ZenzLanguageModel () := {|
  vocabulary_size := λ _, length toy_pieces;
  eos_token := λ _, 0%Z;
  tokenize := λ s _, mret (omap (λ c, '(i, _) ← list_find (λ p, p = [c]) toy_pieces; Some (Z.of_nat i)) s);
  token_to_piece := toy_piece;
  next_logits := λ _, mret [fopp (of_nat 8); fopp (of_nat 8); of_nat 8; fopp (of_nat 8); fopp (of_nat 8); fopp (of_nat 8)];
  logits_for_suffix := λ _ _ _, raise (Message []) |}.

#[local] Instance toy_total : ModelTotal ().
Proof.
  split; [intros v b; apply np_ret|intros t; unfold token_to_piece, toy_expects, toy_piece|
          intros ts; apply np_ret|intros ts n q; apply np_raise].
  destruct (toy_pieces !! Z.to_nat t); [apply np_ret|apply np_raise].
Qed.

Definition toy_mode : GenerationMode := generation_mode Direct default_registry.

Definition typed_ka : ComposingText :=
  {| cursor := 1; input := typed_text Direct "か"; surface := [u "か"] |}.

Definition texts_and_costs (r : outcome ZenzInferenceError (list LmTypoCandidate)) : option (list (ustring * bool)) :=
  match r with
  | Return cs => Some ((λ c, (converted_text c, flt zero (typo_channel_cost c))) <$> cs)
  | _ => None
  end.

(** か is read as the neighbouring キ, at a cost, before カ itself. *)
Example ka_corrected :
  texts_and_costs (experimental_typo_correction (M:=()) id [] typed_ka Direct default_registry default_typo_config tt).2 =
  Some [(u "キ", true); (u "カ", false); (u "ク", true)].
Proof. vm_compute. reflexivity. Qed.

Definition toy_keys : list ustring := u <$> ["カ"; "ク"].

Lemma typo_search_terminates_witness :
  length toy_keys ≤ 100 ∧
  search_beam (M:=()) toy_keys toy_mode default_typo_config 100 [initial_hypothesis] (new_scorer [], tt) =
    search_beam toy_keys toy_mode default_typo_config (length toy_keys) [initial_hypothesis] (new_scorer [], tt) ∧
  search_beam (M:=()) toy_keys toy_mode default_typo_config (length toy_keys * 2 + 8) [initial_hypothesis]
      (new_scorer [], tt) =
    search_beam toy_keys toy_mode default_typo_config (length toy_keys) [initial_hypothesis] (new_scorer [], tt).
Proof.
  assert (Hsteps : length toy_keys ≤ 100) by (vm_compute; lia). split; [exact Hsteps|].
  exact (typo_search_terminates (M:=()) toy_keys toy_mode default_typo_config 100 (new_scorer [], tt) Hsteps).
Defined.

Lemma typo_candidates_justified_witness :
  yields (experimental_typo_correction (M:=()) id [] typed_ka Direct default_registry default_typo_config) (λ cs,
    length cs ≤ typo_n_best default_typo_config `max` 1 ∧
    NoDup (corrected_input <$> cs) ∧
    StronglySorted (λ a b, compare_candidates a b ≠ Gt) cs ∧
    Forall (justified toy_mode (at_least_one default_typo_config)
              (observed_input id typed_ka (use_surface toy_mode))) cs).
Proof. apply (typo_candidates_justified (M:=()) id [] typed_ka Direct default_registry default_typo_config). Defined.
