(* ===== verification/Llama.v ===== *)
(** * The binding to llama.cpp

    src/crates/llama/src/lib.rs: what the binding does around the C functions of
    llama.cpp, which are parameters ([LlamaCpp]): the two sequences of tokens whose
    states the context keeps, the plan that reuses a common prefix of one of them,
    the batch of the other tokens, and the sizes of the buffers. A read of a buffer
    beyond its end is a panic here. *)

From S2P Require Import Prelude Unicode F32 Utf8 Action TextUtil Zenz ZenzEvaluator.

Definition CONTEXT_TOKEN_LIMIT : nat := 512.

Inductive LlamaError :=
  | InvalidPath
  | Load (message : ustring)
  | InputTooLong (tokens : nat)
  | InvalidLogitsRange (start_index token_count : nat)
  | Tokenization
  | TokenPiece (t : token)
  | Decode (code : Z).

(** [Display]; [decimal] shows a C integer. *)
Definition llama_error_text (decimal : Z → ustring) (e : LlamaError) : ustring :=
  match e with
  | InvalidPath => u "model path cannot be represented by llama.cpp"
  | Load message => u "model loading failed: " ++ message
  | InputTooLong count =>
      u "inference requires " ++ decimal_text count ++ u " tokens, exceeding "
      ++ decimal_text CONTEXT_TOKEN_LIMIT
  | InvalidLogitsRange start_index token_count =>
      u "logits start index " ++ decimal_text start_index ++ u " is outside "
      ++ decimal_text token_count ++ u " input tokens"
  | Tokenization => u "llama.cpp tokenization failed"
  | TokenPiece t => u "could not decode token " ++ decimal t
  | Decode code => u "llama.cpp decode failed with code " ++ decimal code
  end.

(** ** The functions of llama.cpp *)

Record BatchRow := { row_token : token; row_position : Z; row_sequence : Z; row_logits : bool }.

(** The parameters of a context that the binding sets *)
Record ContextParams := {
  n_ctx : nat; n_batch : nat; n_ubatch : nat; n_seq_max : nat; kv_unified : bool; flash_attention : bool;
  n_threads : nat; n_threads_batch : nat; no_perf : bool;
}.

(** A model with its metadata overridden, its vocabulary, and a context with its memory;
    the functions that fill a buffer of a given size return their result and the
    buffer. *)
Class LlamaCpp := {
  Model : Type;
  Vocabulary : Type;
  Native : Type;
  llama_load_model : list byte → ustring * ustring → option Model;
  llama_model_get_vocab : Model → option Vocabulary;
  llama_vocab_n_tokens : Vocabulary → Z;
  llama_vocab_eos : Vocabulary → token;
  llama_init_from_model : Model → ContextParams → option Native;
  llama_tokenize : Vocabulary → list byte → nat → bool → Z * list token;
  llama_token_to_piece : Vocabulary → token → nat → Z * list byte;
  llama_has_memory : Native → bool;
  llama_memory_seq_rm : Native → Z → Z → Z → Native * bool;
  llama_memory_seq_cp : Native → Z → Z → Z → Z → Native;
  llama_decode : Native → list BatchRow → Native * Z;
  llama_get_logits : Native → option (list f32);
}.

(** ** Sequences *)

Inductive LlamaSequence := SequenceEvaluation | SequenceInputPrediction.
#[export] Instance LlamaSequence_eq_dec : EqDecision LlamaSequence.
Proof. solve_decision. Defined.

Definition sequence_index (s : LlamaSequence) : Z :=
  match s with SequenceEvaluation => 0 | SequenceInputPrediction => 1 end.

(** [1 - sequence_index] *)
Definition other_sequence (s : LlamaSequence) : LlamaSequence :=
  match s with SequenceEvaluation => SequenceInputPrediction | SequenceInputPrediction => SequenceEvaluation end.

Record SequencePlan := { source_sequence_id : Z; cached_prefix_count : nat }.

Fixpoint common_prefix_count (l r : list token) : nat :=
  match l, r with
  | x :: l, y :: r => if decide (x = y) then S (common_prefix_count l r) else 0
  | _, _ => 0
  end.

(** [sequence_plan], of the tokens of the sequences *)
Definition sequence_plan (sequence_tokens : LlamaSequence → list token) (tokens : list token)
    (start_index : nat) (sequence : LlamaSequence) : SequencePlan :=
  let current_prefix := common_prefix_count (sequence_tokens sequence) tokens in
  let other_prefix := common_prefix_count (sequence_tokens (other_sequence sequence)) tokens in
  let copied_prefix := other_prefix `min` start_index in
  if decide (current_prefix < other_prefix ∧ 0 < copied_prefix)
  then {| source_sequence_id := sequence_index (other_sequence sequence); cached_prefix_count := copied_prefix |}
  else {| source_sequence_id := -1; cached_prefix_count := current_prefix `min` start_index |}.

Definition inference_thread_count (available : nat) : nat :=
  let available := available `max` 1 in
  let reserved := if 8 <=? available then 2 else if 4 <=? available then 1 else 0 in
  ((available - reserved) `max` 1) `min` 8.

(** [i32::try_from(len).ok()]: the length as a C integer *)
Definition c_int_of (n : nat) : option Z := i32_of_usize n.

(** [checked_neg] of a C integer *)
Definition checked_neg (z : Z) : option Z := if decide (z = - 2 ^ 31)%Z then None else Some (- z)%Z.

(** ** Contexts *)

Section llama.
Context `{LlamaCpp}.

Record LlamaContext := {
  native : Native;
  vocabulary : Vocabulary;
  context_vocabulary_size : nat;
  sequence_tokens : LlamaSequence → list token;
}.

Definition with_native (n : Native) (c : LlamaContext) : LlamaContext :=
  {| native := n; vocabulary := vocabulary c; context_vocabulary_size := context_vocabulary_size c;
     sequence_tokens := sequence_tokens c |}.

Definition with_sequence (s : LlamaSequence) (tokens : list token) (c : LlamaContext) : LlamaContext :=
  {| native := native c; vocabulary := vocabulary c; context_vocabulary_size := context_vocabulary_size c;
     sequence_tokens := λ s', if decide (s' = s) then tokens else sequence_tokens c s' |}.

#[local] Notation llama A := (action LlamaContext LlamaError A).

Definition TOKENIZER_KEY : ustring := Eval vm_compute in u "tokenizer.ggml.pre".
Definition TOKENIZER_VALUE : ustring := Eval vm_compute in u "gpt-2".
Definition NO_MODEL : ustring := Eval vm_compute in u "llama.cpp could not load the model".
Definition NO_VOCABULARY : ustring := Eval vm_compute in u "model has no vocabulary".
Definition INVALID_SIZE : ustring := Eval vm_compute in u "invalid vocabulary size".
Definition NO_CONTEXT : ustring := Eval vm_compute in u "llama.cpp could not create the inference context".

(** [model_path]: a C string has no zero byte inside. *)
Definition model_path (path : list byte) : option (list byte) :=
  if decide (0%N ∈ path) then None else Some path.

Definition context_params (threads : nat) : ContextParams :=
  {| n_ctx := CONTEXT_TOKEN_LIMIT; n_batch := CONTEXT_TOKEN_LIMIT; n_ubatch := 64; n_seq_max := 2;
     kv_unified := true; flash_attention := true; n_threads := threads; n_threads_batch := threads;
     no_perf := true |}.

(** [LlamaContext::load]; the available threads are what the system says. *)
Definition load_context (available : nat) (path : list byte) : result LlamaError LlamaContext :=
  match model_path path with
  | None => Err InvalidPath
  | Some path =>
      match llama_load_model path (TOKENIZER_KEY, TOKENIZER_VALUE) with
      | None => Err (Load NO_MODEL)
      | Some model =>
          match llama_model_get_vocab model with
          | None => Err (Load NO_VOCABULARY)
          | Some vocab =>
              let size := llama_vocab_n_tokens vocab in
              if decide (size ≤ 0)%Z then Err (Load INVALID_SIZE)
              else match llama_init_from_model model (context_params (inference_thread_count available)) with
                   | None => Err (Load NO_CONTEXT)
                   | Some native =>
                       Ok {| native := native; vocabulary := vocab; context_vocabulary_size := Z.to_nat size;
                             sequence_tokens := λ _, [] |}
                   end
          end
      end
  end.

(** ** Tokens and pieces *)

(** The call with a buffer, and again with the size the first call asks for *)
Definition with_buffer {A} (call : nat → Z * list A) (capacity : nat) (failed : LlamaError) :
    outcome LlamaError (nat * list A) :=
  let '(count, buffer) := call capacity in
  '(count, buffer) ← (if decide (count < 0)%Z then
                        match checked_neg count with
                        | None => Raise failed
                        | Some required => Return (call (Z.to_nat required))
                        end
                      else Return (count, buffer));
  match usize_of_i32 count with
  | None => Raise failed
  | Some count => Return (count, buffer)
  end.

Definition context_tokenize (c : LlamaContext) (text : ustring) (add_special : bool) :
    outcome LlamaError (list token) :=
  let bytes := utf8 text in
  let capacity := (length bytes + 2) `max` 1 in
  match c_int_of (length bytes), c_int_of capacity with
  | Some _, Some _ =>
      '(count, tokens) ← with_buffer (λ n, llama_tokenize (vocabulary c) bytes n add_special) capacity Tokenization;
      Return (take count tokens)
  | _, _ => Raise Tokenization
  end.

Definition context_token_to_piece (c : LlamaContext) (t : token) : outcome LlamaError (list byte) :=
  if decide (t < 0 ∨ Z.of_nat (context_vocabulary_size c) ≤ t)%Z then Raise (TokenPiece t)
  else
    '(count, buffer) ← with_buffer (llama_token_to_piece (vocabulary c) t) 8 (TokenPiece t);
    panicking (slice 0 count buffer).

(** ** Logits *)

(** The rows of the batch: the tokens behind the cached prefix *)
Definition batch_of (tokens : list token) (cached start_index : nat) (sequence_id : Z) : list BatchRow :=
  imap (λ i t, {| row_token := t; row_position := Z.of_nat (cached + i); row_sequence := sequence_id;
                  row_logits := bool_decide (start_index ≤ cached + i) |}) (drop cached tokens).

(** The memory of the context changed to hold the cached prefix; whether it could be *)
Definition prepare_memory (plan : SequencePlan) (sequence_id : Z) (n : Native) : Native * bool :=
  let cached := Z.of_nat (cached_prefix_count plan) in
  let n := if decide (0 ≤ source_sequence_id plan)%Z then
             let '(n, _) := llama_memory_seq_rm n sequence_id 0 (-1) in
             llama_memory_seq_cp n (source_sequence_id plan) sequence_id 0 cached
           else n in
  llama_memory_seq_rm n sequence_id cached (-1).

(** The block that decodes the batch: its code and, when it is zero, the logits *)
Definition decode_batch (plan : SequencePlan) (tokens : list token) (start_index : nat) (sequence_id : Z)
    (logits_count : nat) (n : Native) : option (Native * Z * list f32) :=
  let '(n, kept) := prepare_memory plan sequence_id n in
  if negb kept then Some (n, (-1)%Z, [])
  else
    let '(n, code) := llama_decode n (batch_of tokens (cached_prefix_count plan) start_index sequence_id) in
    if decide (code ≠ 0)%Z then Some (n, code, [])
    else match llama_get_logits n with
         | None => Some (n, (-2)%Z, [])
         | Some model_logits =>
             logits ← slice 0 logits_count model_logits;
             Some (n, 0%Z, logits)
         end.

(** [LlamaContext::logits] *)
Definition logits (tokens : list token) (start_index : nat) (sequence : LlamaSequence) : llama (list f32) :=
  if decide (CONTEXT_TOKEN_LIMIT < length tokens) then raise (InputTooLong (length tokens))
  else if decide (length tokens ≤ start_index) then raise (InvalidLogitsRange start_index (length tokens))
  else
    size ← gets context_vocabulary_size;
    logits_count ← or_raise (Decode (-1)) (checked_mul (length tokens - start_index) size);
    plan ← gets (λ c, sequence_plan (sequence_tokens c) tokens start_index sequence);
    let sequence_id := sequence_index sequence in
    has_memory ← gets (λ c, llama_has_memory (native c));
    if negb has_memory then raise (Decode (-1))
    else
      before ← gets native;
      '(after, code, values) ← expect (decode_batch plan tokens start_index sequence_id logits_count before);
      modify (with_native after);;
      if decide (code ≠ 0)%Z then
        modify (λ c, with_sequence sequence []
                       (with_native (llama_memory_seq_rm (native c) sequence_id 0 (-1)).1 c));;
        raise (Decode code)
      else modify (with_sequence sequence tokens);; mret values.

(** [LlamaContext::next_logits] *)
Definition context_next_logits (tokens : list token) : llama (list f32) :=
  match tokens with
  | [] => raise (InvalidLogitsRange 0 0)
  | _ => logits tokens (length tokens - 1) SequenceInputPrediction
  end.
End llama.
