(* ===== verification/LlamaSpec.v ===== *)
(** * What the binding to llama.cpp promises

    The tokens the binding remembers are those the context holds, so that the
    logits it returns are those of the tokens evaluated from the beginning. *)

From S2P Require Import Prelude Unicode F32 Utf8 Action TextUtil Zenz ZenzEvaluator Llama.

(** ** The plan *)

Lemma common_prefix_take l r : take (common_prefix_count l r) l = take (common_prefix_count l r) r.
Proof.
  revert r. induction l as [|x l IH]; intros [|y r]; try done. cbn. case_decide as Hxy; [|done].
  cbn. rewrite Hxy. f_equal. apply IH.
Qed.

Lemma common_prefix_le l r : common_prefix_count l r ≤ length l ∧ common_prefix_count l r ≤ length r.
Proof.
  revert r. induction l as [|x l IH]; intros [|y r]; cbn; [lia..|]. case_decide; cbn; [|lia].
  destruct (IH r). lia.
Qed.

Lemma take_common n l r : n ≤ common_prefix_count l r → take n l = take n r.
Proof.
  intros Hn. rewrite <- (Nat.min_l n (common_prefix_count l r)) by done.
  by rewrite <- !take_take, common_prefix_take.
Qed.

(** What the plan keeps: a prefix of the wanted tokens that is shorter than the first
    wanted row, of the sequence itself or of the other one. *)
Lemma sequence_plan_ok held tokens start s :
  start < length tokens →
  let plan := sequence_plan held tokens start s in
  cached_prefix_count plan ≤ start ∧
  (source_sequence_id plan = (-1)%Z ∧ take (cached_prefix_count plan) (held s) = take (cached_prefix_count plan) tokens
     ∧ cached_prefix_count plan ≤ length (held s)
   ∨ source_sequence_id plan = sequence_index (other_sequence s) ∧
     take (cached_prefix_count plan) (held (other_sequence s)) = take (cached_prefix_count plan) tokens ∧
     cached_prefix_count plan ≤ length (held (other_sequence s))).
Proof.
  intros Hstart plan. subst plan. unfold sequence_plan.
  pose proof (common_prefix_le (held s) tokens). pose proof (common_prefix_le (held (other_sequence s)) tokens).
  case_decide; cbn; (split; [lia|]); [right|left]; (split; [done|]); (split; [apply take_common|]); lia.
Qed.

(** ** The documented behaviour of llama.cpp *)

(** [cells n s] are the tokens whose states the memory holds for sequence [s], in
    the order of their positions; [row ts] are the logits behind the tokens [ts]. *)
Class LlamaLaws `{LlamaCpp} (cells : Native → Z → list token) (row : list token → list f32) (size : nat) : Prop := {
  row_size ts : length (row ts) = size;
  rm_others n s p s' : s' ≠ s → cells (llama_memory_seq_rm n s p (-1)).1 s' = cells n s';
  rm_suffix n s p : (0 ≤ p)%Z → (llama_memory_seq_rm n s p (-1)).2 = true →
    cells (llama_memory_seq_rm n s p (-1)).1 s = take (Z.to_nat p) (cells n s);
  rm_all n s : (llama_memory_seq_rm n s 0 (-1)).2 = true;
  cp_target n s s' p : s ≠ s' → cells n s' = [] → (0 ≤ p)%Z →
    cells (llama_memory_seq_cp n s s' 0 p) s' = take (Z.to_nat p) (cells n s);
  cp_others n s s' p s'' : s'' ≠ s' → cells (llama_memory_seq_cp n s s' 0 p) s'' = cells n s'';
  decode_others n rows s s' : Forall (λ r, row_sequence r = s) rows → s' ≠ s →
    cells (llama_decode n rows).1 s' = cells n s';
  decode_cells n rows s :
    Forall (λ r, row_sequence r = s) rows →
    (∀ i r, rows !! i = Some r → row_position r = Z.of_nat (length (cells n s) + i)) →
    (llama_decode n rows).2 = 0%Z →
    cells (llama_decode n rows).1 s = cells n s ++ (row_token <$> rows) ∧
    ∀ out, llama_get_logits (llama_decode n rows).1 = Some out →
      out = concat (imap (λ i r, if row_logits r
                                 then row (take (S (length (cells n s) + i)) (cells n s ++ (row_token <$> rows)))
                                 else []) rows);
}.

Section refinement.
Context `{LlamaCpp} (cells : Native → Z → list token) (row : list token → list f32) (size : nat).
Context `{!LlamaLaws cells row size}.

(** What the binding remembers is what the context holds. *)
Record consistent (c : LlamaContext) : Prop := {
  consistent_size : context_vocabulary_size c = size;
  consistent_cells s : cells (native c) (sequence_index s) = sequence_tokens c s;
}.

(** The logits behind every token from the first wanted one on *)
Definition evaluated (tokens : list token) (start_index : nat) : list f32 :=
  concat ((λ i, row (take (S i) tokens)) <$> seq start_index (length tokens - start_index)).

Lemma other_index s : sequence_index (other_sequence s) ≠ sequence_index s.
Proof using. by destruct s. Qed.

Lemma other_of s s' : s' ≠ s → s' = other_sequence s.
Proof using. by destruct s, s'. Qed.

Lemma seq_rm_all n s : cells (llama_memory_seq_rm n s 0 (-1)).1 s = [].
Proof using LlamaLaws0. by rewrite rm_suffix by (done || apply rm_all). Qed.

(** The memory is ready for the batch, or could not be made so. *)
Lemma prepare_memory_ok held tokens start s n :
  start < length tokens → (∀ s', cells n (sequence_index s') = held s') →
  let plan := sequence_plan held tokens start s in
  let r := prepare_memory plan (sequence_index s) n in
  (r.2 = true → cells r.1 (sequence_index s) = take (cached_prefix_count plan) tokens) ∧
  cells r.1 (sequence_index (other_sequence s)) = held (other_sequence s).
Proof using LlamaLaws0.
  intros Hstart Hheld. destruct (sequence_plan_ok held tokens start s Hstart) as [Hcached Hplan].
  cbv zeta. set (plan := sequence_plan held tokens start s) in *. unfold prepare_memory.
  set (k := cached_prefix_count plan) in *. cbv zeta. pose proof (other_index s) as Hother.
  destruct Hplan as [(Hsource & Htake & Hk)|(Hsource & Htake & Hk)]; rewrite Hsource.
  - rewrite decide_False by lia. split; [|by rewrite rm_others].
    intros Hok. rewrite rm_suffix, Hheld, Nat2Z.id by (lia || done). done.
  - rewrite decide_True by (by destruct s).
    destruct (llama_memory_seq_rm n (sequence_index s) 0 (-1)) as [n1 kept] eqn:E1.
    assert (cells n1 (sequence_index s) = [] ∧
      cells n1 (sequence_index (other_sequence s)) = held (other_sequence s)) as [Hempty Hsame].
    { replace n1 with (llama_memory_seq_rm n (sequence_index s) 0 (-1)).1 by (rewrite E1; done).
      by rewrite seq_rm_all, rm_others, Hheld. }
    set (n2 := llama_memory_seq_cp _ _ _ _ _).
    assert (Hn2 : cells n2 (sequence_index s) = take k tokens).
    { subst n2. rewrite cp_target, Hsame, Nat2Z.id by (lia || done). done. }
    split.
    + intros Hok. rewrite rm_suffix, Hn2, Nat2Z.id by (lia || done). rewrite take_take. f_equal. lia.
    + rewrite rm_others by done. subst n2. by rewrite cp_others, Hsame.
Qed.

Lemma batch_tokens tokens cached start sid : row_token <$> batch_of tokens cached start sid = drop cached tokens.
Proof using.
  unfold batch_of. apply list_eq. intros i. rewrite list_lookup_fmap, list_lookup_imap. by destruct (_ !! i).
Qed.

Lemma batch_lookup tokens cached start sid i r :
  batch_of tokens cached start sid !! i = Some r →
  row_position r = Z.of_nat (cached + i) ∧ row_sequence r = sid ∧ row_logits r = bool_decide (start ≤ cached + i).
Proof using.
  unfold batch_of. rewrite list_lookup_imap. intros (t & _ & ->)%fmap_Some. done.
Qed.
(** The rows that are not wanted give nothing. *)
Lemma concat_wanted (g : nat → list f32) cached start n :
  cached ≤ start → start ≤ cached + n →
  concat ((λ j, if bool_decide (start ≤ j) then g j else []) <$> seq cached n) =
    concat (g <$> seq start (cached + n - start)).
Proof using.
  intros Hc Hs. replace n with ((start - cached) + (cached + n - start)) at 1 by lia.
  rewrite seq_app, fmap_app, concat_app. replace (cached + (start - cached)) with start by lia.
  rewrite (list_fmap_ext _ (λ _, []) (seq cached _)), (list_fmap_ext _ g (seq start _)).
  - assert (Hnil : ∀ l : list nat, concat ((λ _, []) <$> l) = [] :> list f32) by (by induction l).
    by rewrite Hnil.
  - intros i j Hj%lookup_seq. rewrite bool_decide_true; [done|lia].
  - intros i j Hj%lookup_seq. rewrite bool_decide_false; [done|lia].
Qed.

Lemma concat_rows tokens cached start sid :
  cached ≤ start → start < length tokens →
  concat (imap (λ i r, if row_logits r then row (take (S (cached + i)) tokens) else [])
               (batch_of tokens cached start sid)) = evaluated tokens start.
Proof using.
  intros Hc Hs. unfold evaluated.
  replace (length tokens - start) with (cached + (length tokens - cached) - start) by lia.
  rewrite <- concat_wanted by lia. f_equal. apply list_eq. intros i. unfold batch_of.
  rewrite list_lookup_imap, list_lookup_imap, list_lookup_fmap, lookup_drop.
  destruct (tokens !! (cached + i)) as [t|] eqn:Et; cbn.
  - apply lookup_lt_Some in Et. by rewrite lookup_seq_lt by lia.
  - apply lookup_ge_None in Et. by rewrite lookup_seq_ge by lia.
Qed.

Lemma evaluated_length tokens start : length (evaluated tokens start) = (length tokens - start) * size.
Proof using LlamaLaws0.
  unfold evaluated. generalize (length tokens - start). intros n. revert start.
  induction n as [|n IH]; intros start; [done|]. cbn [seq fmap list_fmap concat].
  rewrite length_app, row_size. cbn. f_equal. apply IH.
Qed.

Lemma decode_batch_ok held tokens start s n :
  start < length tokens → (∀ s', cells n (sequence_index s') = held s') →
  ∃ n' code out,
    decode_batch (sequence_plan held tokens start s) tokens start (sequence_index s)
      ((length tokens - start) * size) n = Some (n', code, out) ∧
    cells n' (sequence_index (other_sequence s)) = held (other_sequence s) ∧
    (code = 0%Z → cells n' (sequence_index s) = tokens ∧ out = evaluated tokens start).
Proof using LlamaLaws0.
  intros Hstart Hheld. destruct (sequence_plan_ok held tokens start s Hstart) as [Hcached _].
  destruct (prepare_memory_ok held tokens start s n Hstart Hheld) as [Hready Hother].
  set (plan := sequence_plan held tokens start s) in *. unfold decode_batch.
  destruct (prepare_memory plan (sequence_index s) n) as [n1 kept]. cbn [fst snd] in *.
  destruct kept; cbn [negb]; [|by eexists _, _, _]. specialize (Hready eq_refl).
  set (cached := cached_prefix_count plan) in *. set (rows := batch_of tokens cached start (sequence_index s)).
  assert (Hrows : Forall (λ r, row_sequence r = sequence_index s) rows).
  { apply Forall_lookup. by intros i r (_ & ? & _)%batch_lookup. }
  assert (Hlen : length (cells n1 (sequence_index s)) = cached) by (rewrite Hready, length_take; lia).
  pose proof (decode_others n1 rows _ _ Hrows (other_index s)) as Hsame.
  pose proof (decode_cells n1 rows _ Hrows) as Hdecode. rewrite Hlen in Hdecode.
  destruct (llama_decode n1 rows) as [n2 code]. cbn [fst snd] in *.
  case_decide as Hcode; [by eexists _, _, _; split_and!; [done|by rewrite Hsame|]|].
  assert (code = 0%Z) as -> by (destruct (decide (code = 0%Z)); [done|by destruct Hcode]).
  destruct Hdecode as [Hcells Hout]; [by intros i r (? & _ & _)%batch_lookup|done|].
  assert (Htokens : cells n1 (sequence_index s) ++ (row_token <$> rows) = tokens).
  { subst rows. by rewrite Hready, batch_tokens, take_drop. }
  rewrite Htokens in *. destruct (llama_get_logits n2) as [out|]; [|by eexists _, _, _; split_and!; [done|by rewrite Hsame|]].
  rewrite (Hout out eq_refl). subst rows. rewrite concat_rows by done.
  unfold slice. rewrite decide_True by (rewrite evaluated_length; split; [apply Nat.le_0_l|done]). cbn [mbind option_bind].
  eexists _, _, _. split; [done|]. split; [by rewrite Hsame|]. intros _. split; [done|].
  cbn [drop]. rewrite Nat.sub_0_r, <- evaluated_length. apply firstn_all.
Qed.

(** What a call may answer: the logits of the wanted tokens, evaluated from the
    beginning, or the error of its arguments or of llama.cpp *)
Definition answers (tokens : list token) (start_index : nat) (r : outcome LlamaError (list f32)) : Prop :=
  match r with
  | Return out =>
      length tokens ≤ CONTEXT_TOKEN_LIMIT ∧ start_index < length tokens ∧ out = evaluated tokens start_index
  | Raise e =>
      (e = InputTooLong (length tokens) ∧ CONTEXT_TOKEN_LIMIT < length tokens) ∨
      (e = InvalidLogitsRange start_index (length tokens) ∧ length tokens ≤ start_index) ∨
      (∃ code, e = Decode code)
  | Panic => False
  end.

Lemma logits_ok c tokens start s :
  consistent c →
  let '(c', r) := logits tokens start s c in consistent c' ∧ answers tokens start r.
Proof using LlamaLaws0.
  intros Hc. pose proof Hc as [Hsize Hcells]. unfold logits.
  case_decide as Hlong; [by split; [|left]|]. case_decide as Hrange; [by split; [|right; left]|].
  unfold mbind, action_bind, gets. cbn beta iota. rewrite Hsize.
  destruct (checked_mul (length tokens - start) size) as [count|] eqn:Hcount; [|by split; [|right; right; eexists]].
  assert (count = (length tokens - start) * size) as ->.
  { unfold checked_mul in Hcount. case_decide; congruence. }
  cbn. destruct (llama_has_memory (native c)); cbn; [|by split; [|right; right; eexists]].
  destruct (decode_batch_ok (sequence_tokens c) tokens start s (native c)) as (n' & code & out & -> & Hother & Hdone);
    [lia|exact Hcells|]. cbn.
  case_decide as Hcode; cbn.
  - split; [|by right; right; eexists]. split; [done|]. intros s'. cbn. case_decide as Hs.
    + subst s'. apply seq_rm_all.
    + rewrite (other_of _ _ Hs), rm_others by apply other_index. done.
  - destruct Hdone as [Htokens ->]; [by destruct (decide (code = 0%Z))|]. split; [|by split_and!; [lia|lia|]].
    split; [done|]. intros s'. cbn. case_decide as Hs; [by subst s'|]. by rewrite (other_of _ _ Hs), Hother.
Qed.

Lemma next_logits_ok c tokens :
  consistent c →
  let '(c', r) := context_next_logits tokens c in consistent c' ∧ answers tokens (length tokens - 1) r.
Proof using LlamaLaws0.
  intros Hc. unfold context_next_logits. destruct tokens as [|t tokens]; [|by apply logits_ok].
  split; [done|]. right. left. split; [done|cbn; lia].
Qed.
End refinement.

(** ** Sequences of calls *)

(** A call of [logits] *)
Definition call : Type := list token * nat * LlamaSequence.

Fixpoint run_calls `{LlamaCpp} (calls : list call) (c : LlamaContext) :
    list (outcome LlamaError (list f32)) :=
  match calls with
  | [] => []
  | (tokens, start_index, sequence) :: calls =>
      let '(c', r) := logits tokens start_index sequence c in r :: run_calls calls c'
  end.

(** C10. Whatever was evaluated before, in either sequence and with whatever failures,
    a call that returns logits returns those of its tokens evaluated from the
    beginning: the prefixes kept in the memory of llama.cpp, copied between the
    sequences and forgotten after errors never show. A call does not panic (no
    buffer is read beyond its end), and it refuses what does not fit the context. *)
Theorem llama_cache_invisible `{LlamaCpp} (cells : Native → Z → list token) (row : list token → list f32)
    (size : nat) `{!LlamaLaws cells row size} (c : LlamaContext) (calls : list call) :
  consistent cells size c →
  Forall2 (λ (call : call) r, answers row call.1.1 call.1.2 r) calls (run_calls calls c).
Proof.
  revert c. induction calls as [|[[tokens start] s] calls IH]; intros c Hc; cbn [run_calls]; [constructor|].
  pose proof (logits_ok cells row size c tokens start s Hc) as Hok.
  destruct (logits tokens start s c) as [c' r]. destruct Hok as [Hc' Hr]. constructor; [exact Hr|by apply IH].
Qed.

(** A loaded context is consistent. *)
Lemma load_consistent `{LlamaCpp} cells row size `{!LlamaLaws cells row size} available path c :
  (∀ m p n s, llama_init_from_model m p = Some n → cells n s = []) →
  (∀ v, llama_vocab_n_tokens v = Z.of_nat size) →
  load_context available path = Ok c → consistent cells size c.
Proof.
  intros Hinit Hsize. unfold load_context. repeat case_match; intros; simplify_eq.
  split; cbn; [by rewrite Hsize, Nat2Z.id|]. intros s. by eapply Hinit.
Qed.

(** ** A small llama.cpp *)

(** Two sequences of tokens; the logits behind a text are its length and its last
    token. *)
Record ToyMemory := { toy_cells : Z → list token; toy_output : list f32 }.

Definition toy_row (ts : list token) : list f32 := [of_nat (length ts); of_nat (Z.to_nat (default 0%Z (last ts)))].

Definition toy_update (s : Z) (ts : list token) (m : ToyMemory) : ToyMemory :=
  {| toy_cells := λ s', if decide (s' = s) then ts else toy_cells m s'; toy_output := toy_output m |}.

Definition toy_decode (m : ToyMemory) (rows : list BatchRow) : ToyMemory * Z :=
  match head rows with
  | None => (m, 1%Z)
  | Some r =>
      let held := toy_cells m (row_sequence r) in
      let all := held ++ (row_token <$> rows) in
      ({| toy_cells := toy_cells (toy_update (row_sequence r) all m);
          toy_output := concat (imap (λ i r, if row_logits r then toy_row (take (S (length held + i)) all) else []) rows) |},
       0%Z)
  end.

#[local] Instance toy_llama : LlamaCpp := {|
  Model := (); Vocabulary := (); Native := ToyMemory;
  llama_load_model := λ _ _, Some (); llama_model_get_vocab := Some; llama_vocab_n_tokens := λ _, 2%Z;
  llama_vocab_eos := λ _, 0%Z;
  llama_init_from_model := λ _ _, Some {| toy_cells := λ _, []; toy_output := [] |};
  llama_tokenize := λ _ _ _ _, (0%Z, []); llama_token_to_piece := λ _ _ _, (0%Z, []);
  llama_has_memory := λ _, true;
  llama_memory_seq_rm := λ m s p _, (toy_update s (take (Z.to_nat p) (toy_cells m s)) m, true);
  llama_memory_seq_cp := λ m s s' _ p, toy_update s' (take (Z.to_nat p) (toy_cells m s)) m;
  llama_decode := toy_decode;
  llama_get_logits := λ m, Some (toy_output m);
|}.

Lemma toy_update_same s ts m : toy_cells (toy_update s ts m) s = ts.
Proof. cbn. by rewrite decide_True. Qed.
Lemma toy_update_other s s' ts m : s' ≠ s → toy_cells (toy_update s ts m) s' = toy_cells m s'.
Proof. intros Hs. cbn. by rewrite decide_False. Qed.

#[local] Instance toy_laws : LlamaLaws (toy_cells : Native → Z → list token) toy_row 2.
Proof.
  split; intros; try done; try (by apply toy_update_same); try (by apply toy_update_other).
  - cbn. unfold toy_decode. destruct rows as [|r rows]; [done|]. cbn [head fst toy_cells].
    inversion H; subst. by apply toy_update_other.
  - revert H1. cbn. unfold toy_decode. destruct rows as [|r rows]; [done|]. cbn [head fst snd toy_cells toy_output].
    inversion H; subst. intros _. split; [by apply toy_update_same|]. by intros out [= <-].
Qed.

Lemma toy_consistent : ∃ c, load_context 4 [] = Ok c ∧ consistent (toy_cells : Native → Z → list token) 2 c.
Proof.
  eexists. split; [reflexivity|]. apply (load_consistent _ toy_row 2 4 []); [by intros m p n s [= <-]|done|reflexivity].
Qed.

Definition toy_context : LlamaContext :=
  {| native := {| toy_cells := λ _, []; toy_output := [] |} : Native; vocabulary := () : Vocabulary;
     context_vocabulary_size := 2; sequence_tokens := λ _, [] |}.

(** An evaluation, a prediction that copies its prefix, and an evaluation that reuses
    its own *)
Definition toy_calls : list call :=
  [([1; 2; 3]%Z, 1, SequenceEvaluation); ([1; 2; 5]%Z, 2, SequenceInputPrediction);
   ([1; 2; 3; 4]%Z, 3, SequenceEvaluation); ([]%Z, 0, SequenceEvaluation)].

Lemma llama_cache_invisible_witness :
  consistent (toy_cells : Native → Z → list token) 2 toy_context ∧
  Forall2 (λ (call : call) r, answers toy_row call.1.1 call.1.2 r) toy_calls (run_calls toy_calls toy_context).
Proof.
  assert (Hc : consistent (toy_cells : Native → Z → list token) 2 toy_context) by (by split).
  split; [exact Hc|].
  exact (llama_cache_invisible (toy_cells : Native → Z → list token) toy_row 2 toy_context toy_calls Hc).
Defined.
