(* ===== verification/UserDictionary.v ===== *)
(** * The user dictionary

    src/crates/converter/src/dictionary/user.rs: the words and shortcuts a user keeps
    in dictionary files of their own. The class [Files] is the directory of the
    user here. *)

From Stdlib Require Import String.
From S2P Require Import Prelude Unicode F32 Dictionary Louds MemoryIndex DictBinary LearningFiles Action DictionaryStore.

Record UserDictionary := {
  user_entries : list DictionaryEntry;
  shortcuts : list DictionaryEntry;
}.

(** [Default] *)
Definition no_user_dictionary : UserDictionary := {| user_entries := []; shortcuts := [] |}.

Definition user_is_empty (d : UserDictionary) : bool :=
  bool_decide (user_entries d = []) && bool_decide (shortcuts d = []).

Definition USER_IDENTIFIER : ustring := Eval vm_compute in u "user".
Definition SHORTCUTS_IDENTIFIER : ustring := Eval vm_compute in u "user_shortcuts".

(** [usize::div_ceil] *)
Definition div_ceil (n d : nat) : nat := if n mod d =? 0 then n / d else n / d + 1.

Section user.
Context `{Segmentation} `{Files}.

(** One shard of the loop: a missing file is passed over. *)
Definition load_user_shard (identifier : ustring) (count : nat) (output : list DictionaryEntry)
    (shard : nat) : outcome DictionaryError (list DictionaryEntry) :=
  binary ← read_optional (identifier ++ decimal shard ++ shard_suffix);
  match binary with
  | None => mret output
  | Some binary =>
      rest ← panicking (usub count (shard * SHARD_SIZE));
      es ← lift_binary (parse_entry_shard binary (seq 0 (rest `min` SHARD_SIZE)));
      mret (output ++ es)
  end.

(** [load_entries] *)
Definition load_user_entries (identifier : ustring) : outcome DictionaryError (list DictionaryEntry) :=
  bits ← read_optional (identifier ++ LOUDS_SUFFIX);
  chars ← read_optional (identifier ++ CHARS_SUFFIX);
  match bits, chars with
  | Some bits, Some chars =>
      louds ← lift_louds (parse bits chars);
      output ← for_each (load_user_shard identifier (node_count louds)) []
                 (seq 0 (div_ceil (node_count louds) SHARD_SIZE));
      mret ((λ e, with_metadata e USER_DICTIONARY) <$> output)
  | _, _ => mret []
  end.

(** [UserDictionary::open] *)
Definition open_user_dictionary : outcome DictionaryError UserDictionary :=
  es ← load_user_entries USER_IDENTIFIER;
  ss ← load_user_entries SHORTCUTS_IDENTIFIER;
  mret {| user_entries := es; shortcuts := ss |}.

(** ** Loading is total, and marks what it loads *)

Definition marked (e : DictionaryEntry) : Prop := contains (metadata e) USER_DICTIONARY = true.

Lemma shard_in_range n d shard : 0 < d → shard < div_ceil n d → shard * d ≤ n.
Proof.
  intros Hd Hs. unfold div_ceil in Hs. pose proof (Nat.div_mod_eq n d).
  destruct (n mod d =? 0) eqn:E; [apply Nat.eqb_eq in E|]; nia.
Qed.

Lemma lift_binary_safe {A} (m : outcome DictionaryBinaryError A) Q : safe m Q → safe (lift_binary m) Q.
Proof. by destruct m. Qed.

Lemma lift_louds_safe {A} (m : outcome LoudsError A) Q : safe m Q → safe (lift_louds m) Q.
Proof. by destruct m. Qed.

Lemma read_optional_safe path : safe (read_optional path) (λ _, True).
Proof. unfold read_optional. by destruct (read_file path). Qed.

Lemma load_user_entries_safe identifier :
  safe (load_user_entries identifier) (Forall marked).
Proof.
  unfold load_user_entries.
  apply safe_bind. eapply safe_mono; [apply read_optional_safe|]. intros bits _.
  apply safe_bind. eapply safe_mono; [apply read_optional_safe|]. intros chars _.
  destruct bits as [bits|]; [|by apply safe_ret]. destruct chars as [chars|]; [|by apply safe_ret].
  apply safe_bind, lift_louds_safe. eapply safe_mono; [apply parse_safe|]. intros louds _.
  apply safe_bind. apply (safe_for_each (λ _, True)); [|done|].
  - intros shard output [_ Hshard]%elem_of_seq _. unfold load_user_shard.
    apply safe_bind. eapply safe_mono; [apply read_optional_safe|]. intros [binary|] _; [|by apply safe_ret].
    rewrite usub_ok; [|apply shard_in_range; [apply Nat.lt_0_succ|exact Hshard]].
    cbn [panicking]. apply safe_bind. cbn [safe].
    apply safe_bind, lift_binary_safe. eapply safe_mono; [apply parse_entry_shard_safe|].
    intros es _. by apply safe_ret.
  - intros output _. apply safe_ret. apply Forall_fmap, Forall_true. intros e. apply contains_insert.
Qed.

(** Whatever the files of the user hold, opening them does not panic, and every
    entry and shortcut carries the mark of the user dictionary. *)
Theorem open_user_dictionary_safe :
  safe open_user_dictionary (λ d, Forall marked (user_entries d ++ shortcuts d)).
Proof.
  unfold open_user_dictionary.
  apply safe_bind. eapply safe_mono; [apply load_user_entries_safe|]. intros es Hes.
  apply safe_bind. eapply safe_mono; [apply load_user_entries_safe|]. intros ss Hss.
  apply safe_ret. by apply Forall_app.
Qed.
End user.
