(* ===== verification/Foreign.v ===== *)
(** * Completions in other languages

    src/crates/converter/src/foreign.rs: the Hunspell dictionaries, the completion
    provider over them, and the candidates of the completions. The spelling library
    and the character encodings are parameters; so is [str::to_lowercase]. The
    worker that owns the dictionaries answers one request at a time, in order, as
    long as the completer lives: it is a function of the request here. *)

From Stdlib Require Import String.
From S2P Require Import Prelude Unicode F32 Dictionary InputTable Composing Lattice Prediction DictionaryStore TextUtil Special.

Inductive KeyboardLanguage := LanguageNone | LanguageJapanese | LanguageEnglishUs | LanguageGreek.
#[export] Instance KeyboardLanguage_eq_dec : EqDecision KeyboardLanguage.
Proof. solve_decision. Defined.

Inductive ForeignLanguage := EnglishUs | Greek.

(** The trait: completions of an input *)
Definition ForeignCompletionProvider : Type := ForeignLanguage → ustring → list ustring.

(** ** Candidates *)

(** The [unique] of this file: the first candidate of every text. *)
Fixpoint unseen_texts (seen : gset ustring) (cs : list Candidate) : list Candidate :=
  match cs with
  | [] => []
  | c :: cs => if decide (text c ∈ seen) then unseen_texts seen cs
               else c :: unseen_texts ({[text c]} ∪ seen) cs
  end.
Definition first_of_texts (cs : list Candidate) : list Candidate := unseen_texts ∅ cs.

(** The characters typed: keys and separators are left out. *)
Definition typed_characters (ct : ComposingText) : ustring :=
  input ct ≫= λ e, match piece e with Character value => value | _ => [] end.

Section foreign.
Context `{Segmentation}.

Definition foreign_candidate (w r : ustring) (value : f32) (input_count : nat) : Candidate :=
  candidate_single w value (CInput input_count) 501 [kana_entry w r value].

(** The loop over the completions, which lowers the value. *)
Fixpoint completion_candidates (value delta : f32) (input_count : nat) (completions : list ustring) :
    list Candidate :=
  match completions with
  | [] => []
  | c :: cs => foreign_candidate c c value input_count ::
               completion_candidates (fadd value delta) delta input_count cs
  end.

Definition predictions_for_language (ct : ComposingText) (typed : ustring) (language : ForeignLanguage)
    (provider : ForeignCompletionProvider) (penalty : f32) : list Candidate :=
  if decide (typed = []) then []
  else match provider language typed with
       | [] => []
       | completions =>
           foreign_candidate typed typed penalty (length (input ct)) ::
           completion_candidates (fadd (negative 5) penalty)
             (fdiv (negative 10) (of_nat (length completions))) (length (input ct)) completions
       end.

Definition foreign_predictions (ct : ComposingText) (language : KeyboardLanguage)
    (provider : ForeignCompletionProvider) (penalty : f32) : list Candidate :=
  let typed := typed_characters ct in
  let output := if forallb is_ascii_letter typed
                then predictions_for_language ct typed EnglishUs provider penalty else [] in
  let output := if decide (language = LanguageGreek)
                then output ++ predictions_for_language ct typed Greek provider penalty else output in
  first_of_texts output.
End foreign.

(** ** Hunspell dictionaries *)

(** spellbook: a dictionary made of the texts of its two files, and its suggestions
    without n-grams; encoding_rs: encodings by label, and decoding with its error flag. *)
Class Spellbook := {
  Speller : Type;
  speller_new : ustring → ustring → result ustring Speller;
  suggest : Speller → ustring → list ustring;
}.
Class Encodings := {
  Encoding : Type;
  for_label : list byte → option Encoding;
  encoding_name : Encoding → ustring;
  decode_without_bom_handling : Encoding → list byte → ustring * bool;
}.

Inductive HunspellError :=
  | HunspellIo (path : ustring)
  | MissingEncoding (path : ustring)
  | UnsupportedEncoding (label : ustring)
  | InvalidEncoding (path name : ustring)
  | InvalidDictionary (affix dictionary message : ustring).

Definition AFFIX : ustring := Eval vm_compute in u "aff".
Definition WORDS : ustring := Eval vm_compute in u "dic".
Definition SET : list byte := Eval vm_compute in u "SET".
Definition NO_COUNT : ustring := Eval vm_compute in u "dictionary has no entry count header".
Definition NO_ENTRIES : ustring := Eval vm_compute in u "dictionary has no entries".
Definition HASH : char := 35%N.

(** [Path::with_extension] of a file name that does not begin with its only dot *)
Definition with_extension (path extension : ustring) : ustring :=
  let (dir, name) := match rsplit_once 47 path with
                     | Some (dir, name) => (dir ++ [47%N], name)
                     | None => ([], path)
                     end in
  let stem := match rsplit_once 46 name with
              | Some (stem, _) => if decide (stem = []) then name else stem
              | None => name
              end in
  dir ++ stem ++ [46%N] ++ extension.

(** [str::trim] *)
Fixpoint trim_start (s : ustring) : ustring :=
  match s with c :: s' => if Text.is_whitespace c then trim_start s' else s | [] => [] end.
Definition trim (s : ustring) : ustring := reverse (trim_start (reverse (trim_start s))).

Definition parse_usize : ustring → option Z := parse_int 10 0 (2 ^ 64 - 1).

(** The label of a line of the affix file: the field after [SET] *)
Definition encoding_label (line : list byte) : option (list byte) :=
  match split_whitespace line with
  | first :: label :: _ => if decide (first = SET) then Some label else None
  | _ => None
  end.

(** What makes a line an entry *)
Definition is_entry_line (line : ustring) : bool :=
  let line := trim line in
  negb (bool_decide (line = [])) && negb (starts_with [HASH] line).

Section hunspell.
Context `{Files} `{Spellbook} `{Encodings} (to_lowercase : ustring → ustring).

Definition read_dictionary_file (path : ustring) : outcome HunspellError (list byte) :=
  match read_file path with Contents bytes => mret bytes | _ => Raise (HunspellIo path) end.

Definition decode_dictionary_file (path : ustring) (bytes : list byte) (encoding : Encoding) :
    outcome HunspellError ustring :=
  let '(text, had_errors) := decode_without_bom_handling encoding bytes in
  if (had_errors : bool) then Raise (InvalidEncoding path (encoding_name encoding)) else mret text.

(** [HunspellDictionary::open] *)
Definition open_speller (base : ustring) : outcome HunspellError Speller :=
  let affix := with_extension base AFFIX in
  let dictionary := with_extension base WORDS in
  affix_bytes ← read_dictionary_file affix;
  label ← match omap encoding_label (Text.split_on 10 affix_bytes) with
          | label :: _ => mret label
          | [] => Raise (MissingEncoding affix)
          end;
  encoding ← match for_label label with
             | Some encoding => mret encoding
             | None => Raise (UnsupportedEncoding (from_utf8_lossy label))
             end;
  affix_text ← decode_dictionary_file affix affix_bytes encoding;
  dictionary_bytes ← read_dictionary_file dictionary;
  dictionary_text ← decode_dictionary_file dictionary dictionary_bytes encoding;
  let lines := Text.lines dictionary_text in
  _ ← match head lines ≫= λ line, parse_usize (trim line) with
      | Some _ => mret tt
      | None => Raise (InvalidDictionary affix dictionary NO_COUNT)
      end;
  _ ← (if existsb is_entry_line (tail lines) then mret tt
       else Raise (InvalidDictionary affix dictionary NO_ENTRIES));
  match speller_new affix_text dictionary_text with
  | Ok speller => mret speller
  | Err message => Raise (InvalidDictionary affix dictionary message)
  end.

(** The dictionaries of the worker *)
Record HunspellCompleter := { english_us : Speller; greek : Speller }.

(** [HunspellCompleter::open] *)
Definition open_completer (english_us_base greek_base : ustring) : outcome HunspellError HunspellCompleter :=
  english ← open_speller english_us_base;
  greek ← open_speller greek_base;
  mret {| english_us := english; greek := greek |}.

Definition starts_with_ignoring_case (candidate typed : ustring) : bool :=
  starts_with (to_lowercase typed) (to_lowercase candidate).

(** [completions] of the completer *)
Definition hunspell_completions (completer : HunspellCompleter) : ForeignCompletionProvider :=
  λ language typed,
    let speller := match language with EnglishUs => english_us completer | Greek => greek completer end in
    filter (λ c, starts_with_ignoring_case c typed = true) (suggest speller typed).
End hunspell.
