(* ===== verification/SessionState.v ===== *)
(** * The conversion session: data

    src/crates/converter/src/session.rs, the state of a session, the options and
    results of its requests, and what it computes from a composing text and a
    candidate without changing anything. The operations are in Session.v. *)

From S2P Require Import Prelude Unicode F32 Constraint InputTable Composing Dictionary Lattice Prediction TextUtil Template Zenz UserDictionary Foreign.

(** ** Options and results *)

Inductive PredictionMode := PredictAutomatic | PredictManual | PredictDisabled.
#[export] Instance PredictionMode_eq_dec : EqDecision PredictionMode.
Proof. solve_decision. Defined.

Inductive TextTransform :=
  | ToHiragana | ToKatakana | ToHalfWidthKatakana | ToFullWidthRoman | ToHalfWidthRoman.

Inductive TypoCorrectionMode := TypoEnabled | TypoAutomatic | TypoDisabled.
#[export] Instance TypoCorrectionMode_eq_dec : EqDecision TypoCorrectionMode.
Proof. solve_decision. Defined.

Record RequestOptions := {
  opt_n_best : nat;
  japanese_prediction : PredictionMode;
  full_width_roman : bool;
  half_width_kana : bool;
  version_string : option ustring;
  typo_correction : TypoCorrectionMode;
  foreign_prediction : PredictionMode;
  keyboard_language : KeyboardLanguage;
  typography : bool;
}.

(** [Default] *)
Definition default_options : RequestOptions :=
  {| opt_n_best := 10; japanese_prediction := PredictDisabled; full_width_roman := true;
     half_width_kana := false; version_string := None; typo_correction := TypoAutomatic;
     foreign_prediction := PredictDisabled; keyboard_language := LanguageNone; typography := false |}.

Record ConversionResult := {
  main_results : list Candidate;
  prediction_results : list Candidate;
  english_prediction_results : list Candidate;
  first_clause_results : list Candidate;
}.

(** The candidates whose text is not in [seen], the first of each text, and what is
    seen after them: [filter(|c| seen.insert(c.text.clone()))]. *)
Definition filter_unseen (seen : gset ustring) (cs : list Candidate) : list Candidate * gset ustring :=
  let fresh := unseen_texts seen cs in (fresh, seen ∪ list_to_set (text <$> fresh)).

Definition texts_of (cs : list Candidate) : gset ustring := list_to_set (text <$> cs).

(** [ConversionResult::merged_desktop_candidates] *)
Definition merged_desktop_candidates (r : ConversionResult) : list Candidate :=
  first_of_texts (first_clause_results r ++ main_results r).

Inductive SelectionError := CandidateOutOfRange (index candidate_count : nat).

(** ** The state *)

#[export] Instance ZenzV2Config_eq_dec : EqDecision ZenzV2Config.
Proof. solve_decision. Defined.
#[export] Instance ZenzV3Config_eq_dec : EqDecision ZenzV3Config.
Proof. solve_decision. Defined.
#[export] Instance ZenzVersionConfig_eq_dec : EqDecision ZenzVersionConfig.
Proof. solve_decision. Defined.

Record StablePredictionCache := {
  stable_surface : ustring;
  stable_suffix_count : nat;
  stable_candidates : list Candidate;
}.

Record PredictiveInputSource := {
  base_surface : ustring;
  source_nexts : list ustring;
  dropped_suffix_count : nat;
}.

Record ZenzPredictionCache := {
  cached_left_context : ustring;
  cached_version : ZenzVersionConfig;
  cached_style : InputStyle;
  cached_surface : ustring;
  cached_suffix_count : nat;
  predicted_text : ustring;
}.

(** The learning memory is shared between sessions and their clones: the session
    holds the name of a memory that lives outside of it. *)
Record ConversionSession := {
  composing : ComposingText;
  full_composing : option ComposingText;
  candidates : list Candidate;
  context : ConversionContext;
  last_committed : option Candidate;
  user_dictionary : list DictionaryEntry;
  user_shortcuts : list DictionaryEntry;
  file_user_dictionary : UserDictionary;
  learning_memory : option nat;
  stable_prediction_cache : option StablePredictionCache;
  zenz_prediction_cache : option ZenzPredictionCache;
  accepted_prediction : option Candidate;
  foreign_completion_provider : option ForeignCompletionProvider;
}.

Definition set_composing (x : ComposingText) (s : ConversionSession) : ConversionSession :=
  {| composing := x; full_composing := full_composing s; candidates := candidates s; context :=
     context s; last_committed := last_committed s; user_dictionary := user_dictionary s;
     user_shortcuts := user_shortcuts s; file_user_dictionary := file_user_dictionary s;
     learning_memory := learning_memory s; stable_prediction_cache := stable_prediction_cache s;
     zenz_prediction_cache := zenz_prediction_cache s; accepted_prediction :=
     accepted_prediction s; foreign_completion_provider := foreign_completion_provider s |}.

Definition set_full_composing (x : option ComposingText) (s : ConversionSession) : ConversionSession :=
  {| composing := composing s; full_composing := x; candidates := candidates s; context :=
     context s; last_committed := last_committed s; user_dictionary := user_dictionary s;
     user_shortcuts := user_shortcuts s; file_user_dictionary := file_user_dictionary s;
     learning_memory := learning_memory s; stable_prediction_cache := stable_prediction_cache s;
     zenz_prediction_cache := zenz_prediction_cache s; accepted_prediction :=
     accepted_prediction s; foreign_completion_provider := foreign_completion_provider s |}.

Definition set_candidates (x : list Candidate) (s : ConversionSession) : ConversionSession :=
  {| composing := composing s; full_composing := full_composing s; candidates := x; context :=
     context s; last_committed := last_committed s; user_dictionary := user_dictionary s;
     user_shortcuts := user_shortcuts s; file_user_dictionary := file_user_dictionary s;
     learning_memory := learning_memory s; stable_prediction_cache := stable_prediction_cache s;
     zenz_prediction_cache := zenz_prediction_cache s; accepted_prediction :=
     accepted_prediction s; foreign_completion_provider := foreign_completion_provider s |}.

Definition set_context (x : ConversionContext) (s : ConversionSession) : ConversionSession :=
  {| composing := composing s; full_composing := full_composing s; candidates := candidates s;
     context := x; last_committed := last_committed s; user_dictionary := user_dictionary s;
     user_shortcuts := user_shortcuts s; file_user_dictionary := file_user_dictionary s;
     learning_memory := learning_memory s; stable_prediction_cache := stable_prediction_cache s;
     zenz_prediction_cache := zenz_prediction_cache s; accepted_prediction :=
     accepted_prediction s; foreign_completion_provider := foreign_completion_provider s |}.

Definition set_last_committed (x : option Candidate) (s : ConversionSession) : ConversionSession :=
  {| composing := composing s; full_composing := full_composing s; candidates := candidates s;
     context := context s; last_committed := x; user_dictionary := user_dictionary s;
     user_shortcuts := user_shortcuts s; file_user_dictionary := file_user_dictionary s;
     learning_memory := learning_memory s; stable_prediction_cache := stable_prediction_cache s;
     zenz_prediction_cache := zenz_prediction_cache s; accepted_prediction :=
     accepted_prediction s; foreign_completion_provider := foreign_completion_provider s |}.

Definition set_user_dictionary (x : list DictionaryEntry) (s : ConversionSession) : ConversionSession :=
  {| composing := composing s; full_composing := full_composing s; candidates := candidates s;
     context := context s; last_committed := last_committed s; user_dictionary := x;
     user_shortcuts := user_shortcuts s; file_user_dictionary := file_user_dictionary s;
     learning_memory := learning_memory s; stable_prediction_cache := stable_prediction_cache s;
     zenz_prediction_cache := zenz_prediction_cache s; accepted_prediction :=
     accepted_prediction s; foreign_completion_provider := foreign_completion_provider s |}.

Definition set_user_shortcuts (x : list DictionaryEntry) (s : ConversionSession) : ConversionSession :=
  {| composing := composing s; full_composing := full_composing s; candidates := candidates s;
     context := context s; last_committed := last_committed s; user_dictionary :=
     user_dictionary s; user_shortcuts := x; file_user_dictionary := file_user_dictionary s;
     learning_memory := learning_memory s; stable_prediction_cache := stable_prediction_cache s;
     zenz_prediction_cache := zenz_prediction_cache s; accepted_prediction :=
     accepted_prediction s; foreign_completion_provider := foreign_completion_provider s |}.

Definition set_file_user_dictionary (x : UserDictionary) (s : ConversionSession) : ConversionSession :=
  {| composing := composing s; full_composing := full_composing s; candidates := candidates s;
     context := context s; last_committed := last_committed s; user_dictionary :=
     user_dictionary s; user_shortcuts := user_shortcuts s; file_user_dictionary := x;
     learning_memory := learning_memory s; stable_prediction_cache := stable_prediction_cache s;
     zenz_prediction_cache := zenz_prediction_cache s; accepted_prediction :=
     accepted_prediction s; foreign_completion_provider := foreign_completion_provider s |}.

Definition set_learning_memory (x : option nat) (s : ConversionSession) : ConversionSession :=
  {| composing := composing s; full_composing := full_composing s; candidates := candidates s;
     context := context s; last_committed := last_committed s; user_dictionary :=
     user_dictionary s; user_shortcuts := user_shortcuts s; file_user_dictionary :=
     file_user_dictionary s; learning_memory := x; stable_prediction_cache :=
     stable_prediction_cache s; zenz_prediction_cache := zenz_prediction_cache s;
     accepted_prediction := accepted_prediction s; foreign_completion_provider :=
     foreign_completion_provider s |}.

Definition set_stable_prediction_cache (x : option StablePredictionCache) (s : ConversionSession) : ConversionSession :=
  {| composing := composing s; full_composing := full_composing s; candidates := candidates s;
     context := context s; last_committed := last_committed s; user_dictionary :=
     user_dictionary s; user_shortcuts := user_shortcuts s; file_user_dictionary :=
     file_user_dictionary s; learning_memory := learning_memory s; stable_prediction_cache := x;
     zenz_prediction_cache := zenz_prediction_cache s; accepted_prediction :=
     accepted_prediction s; foreign_completion_provider := foreign_completion_provider s |}.

Definition set_zenz_prediction_cache (x : option ZenzPredictionCache) (s : ConversionSession) : ConversionSession :=
  {| composing := composing s; full_composing := full_composing s; candidates := candidates s;
     context := context s; last_committed := last_committed s; user_dictionary :=
     user_dictionary s; user_shortcuts := user_shortcuts s; file_user_dictionary :=
     file_user_dictionary s; learning_memory := learning_memory s; stable_prediction_cache :=
     stable_prediction_cache s; zenz_prediction_cache := x; accepted_prediction :=
     accepted_prediction s; foreign_completion_provider := foreign_completion_provider s |}.

Definition set_accepted_prediction (x : option Candidate) (s : ConversionSession) : ConversionSession :=
  {| composing := composing s; full_composing := full_composing s; candidates := candidates s;
     context := context s; last_committed := last_committed s; user_dictionary :=
     user_dictionary s; user_shortcuts := user_shortcuts s; file_user_dictionary :=
     file_user_dictionary s; learning_memory := learning_memory s; stable_prediction_cache :=
     stable_prediction_cache s; zenz_prediction_cache := zenz_prediction_cache s;
     accepted_prediction := x; foreign_completion_provider := foreign_completion_provider s |}.

Definition set_foreign_completion_provider (x : option ForeignCompletionProvider) (s : ConversionSession) : ConversionSession :=
  {| composing := composing s; full_composing := full_composing s; candidates := candidates s;
     context := context s; last_committed := last_committed s; user_dictionary :=
     user_dictionary s; user_shortcuts := user_shortcuts s; file_user_dictionary :=
     file_user_dictionary s; learning_memory := learning_memory s; stable_prediction_cache :=
     stable_prediction_cache s; zenz_prediction_cache := zenz_prediction_cache s;
     accepted_prediction := accepted_prediction s; foreign_completion_provider := x |}.

(** [Default] *)
Definition session_new : ConversionSession :=
  {| composing := composing_new; full_composing := None; candidates := [];
     context := default_context; last_committed := None; user_dictionary := [];
     user_shortcuts := []; file_user_dictionary := no_user_dictionary; learning_memory := None;
     stable_prediction_cache := None; zenz_prediction_cache := None; accepted_prediction := None;
     foreign_completion_provider := None |}.

Definition additional_dictionary (s : ConversionSession) : list DictionaryEntry :=
  user_dictionary s ++ user_entries (file_user_dictionary s).

(** ** Texts *)

Definition candidate_reading (c : Candidate) : ustring := entries c ≫= ruby.

Definition candidate_dictionary_text (c : Candidate) : ustring :=
  match entries c ≫= word with [] => text c | t => t end.

Definition raw_input (es : list InputElement) : ustring :=
  es ≫= λ e, match piece e with
             | Character value => value
             | Key _ value _ => value
             | CompositionSeparator => []
             end.

Definition surface_of (ct : ComposingText) : ustring := concat (surface ct).

Definition last_style (ct : ComposingText) : InputStyle :=
  match last (input ct) with Some e => input_style e | None => Direct end.

(** [predictive_input_source]: what is left of the surface without the romaji at its
    end, when rules of the table continue it, and what they write. *)
Definition predictive_input_source (tables : InputTableRegistry) (ct : ComposingText) :
    PredictiveInputSource :=
  let shown := surface_of ct in
  let whole nexts :=
    {| base_surface := shown; source_nexts := nexts; dropped_suffix_count := 0 |} in
  match last (input ct) with
  | None => whole []
  | Some e =>
      if decide (input_style e = Direct) then whole []
      else
        let suffix_count := count_while is_ascii_alphabetic (reverse shown) in
        if suffix_count =? 0 then whole []
        else
          let suffix_start := length shown - suffix_count in
          let nexts := match resolve tables (input_style e) with
                       | Some table => InputTable.possible_nexts table (drop suffix_start shown)
                       | None => []
                       end in
          match nexts with
          | [] => whole []
          | _ => {| base_surface := take suffix_start shown; source_nexts := nexts;
                    dropped_suffix_count := suffix_count |}
          end
  end.

Definition zenz_model_composing (s : ConversionSession) : ComposingText :=
  default (composing s) (full_composing s).

Definition pending_zenz_suffix_count (tables : InputTableRegistry) (s : ConversionSession) : nat :=
  dropped_suffix_count (predictive_input_source tables (zenz_model_composing s)).

(** [accepted_prediction]: the accepted prediction while the text reads as it did *)
Definition current_prediction (s : ConversionSession) : option Candidate :=
  c ← accepted_prediction s;
  if starts_with (candidate_reading c) (Kana.to_katakana (surface_of (composing s)))
  then Some c else None.

Definition retain_prediction_prefix (s : ConversionSession) : ConversionSession :=
  match current_prediction s with None => set_accepted_prediction None s | Some _ => s end.

Section session_data.
Context `{Segmentation}.

(** [constrain_zenz_prefix] *)
Definition constrain_zenz_prefix (c : PrefixConstraint) (s : ConversionSession) : PrefixConstraint :=
  match current_prediction s with
  | None => c
  | Some candidate =>
      let bytes := utf8 (candidate_dictionary_text candidate) in
      let c := if decide (bytes `prefix_of` constraint_bytes c) then c else constraint_new bytes in
      {| constraint_bytes := constraint_bytes c; has_eos := has_eos c;
         ignore_memory_and_user_dictionary := ignore_memory_and_user_dictionary c;
         fixed_prefix := Some {| byte_count := length bytes;
                                 ruby_prefix_count := length (graphemes (candidate_reading candidate)) |} |}
  end.

(** ** The prediction caches *)

Definition with_count (count : ComposingCount) (c : Candidate) : Candidate :=
  {| text := text c; cand_value := cand_value c; composing_count := count;
     last_meaning_id := last_meaning_id c; entries := entries c; ruby_count := ruby_count c;
     is_learning_target := is_learning_target c; is_typo_correction := is_typo_correction c;
     first_clause := first_clause c |}.

(** The readings a stable prediction must extend *)
Definition compatible_prefixes (ct : ComposingText) (source : PredictiveInputSource) : list ustring :=
  match source_nexts source with
  | [] => [Kana.to_katakana (surface_of ct)]
  | nexts => (λ suffix, Kana.to_katakana (base_surface source) ++ suffix) <$> nexts
  end.

Definition is_compatible (ct : ComposingText) (source : PredictiveInputSource) (c : Candidate) : bool :=
  negb (bool_decide (text c = []))
  && negb (bool_decide (candidate_reading c = Kana.to_katakana (surface_of ct)))
  && existsb (λ p, starts_with p (candidate_reading c)) (compatible_prefixes ct source).

(** [StablePredictionCache::compatible_candidates] *)
Definition compatible_candidates (cache : StablePredictionCache) (ct : ComposingText)
    (source : PredictiveInputSource) : list Candidate :=
  let original := graphemes (stable_surface cache) in
  let cached_base := concat (take (length original - stable_suffix_count cache) original) in
  if starts_with cached_base (base_surface source)
  then with_count (CSurface (length (surface ct))) <$>
         filter (λ c, is_compatible ct source c = true) (stable_candidates cache)
  else [].

(** The text a model prediction inserts *)
Definition inserted_text (style : InputStyle) (predicted : ustring) : ustring :=
  if decide (style = RomanToKana) then Kana.to_hiragana predicted else predicted.

(** [ZenzPredictionCache::remaining_prediction] *)
Definition remaining_prediction (cache : ZenzPredictionCache) (ct : ComposingText) (count : nat) :
    option ustring :=
  if decide (count = 0) then None
  else
    let original := graphemes (cached_surface cache) in
    let base := concat (take (length original - cached_suffix_count cache) original) in
    current ← TextUtil.strip_prefix base (surface_of ct);
    _ ← TextUtil.strip_prefix current (inserted_text (cached_style cache) (predicted_text cache));
    let remaining := concat (take count (drop (length (graphemes current))
                                              (graphemes (predicted_text cache)))) in
    if decide (remaining = []) then None else Some remaining.
End session_data.

(** ** Candidates *)

Definition with_learning_target (value : bool) (c : Candidate) : Candidate :=
  {| text := text c; cand_value := cand_value c; composing_count := composing_count c;
     last_meaning_id := last_meaning_id c; entries := entries c; ruby_count := ruby_count c;
     is_learning_target := value; is_typo_correction := is_typo_correction c;
     first_clause := first_clause c |}.

Definition with_candidate_text (t : ustring) (c : Candidate) : Candidate :=
  {| text := t; cand_value := cand_value c; composing_count := composing_count c;
     last_meaning_id := last_meaning_id c; entries := entries c; ruby_count := ruby_count c;
     is_learning_target := false; is_typo_correction := is_typo_correction c;
     first_clause := first_clause c |}.

Definition with_value (v : f32) (c : Candidate) : Candidate :=
  {| text := text c; cand_value := v; composing_count := composing_count c;
     last_meaning_id := last_meaning_id c; entries := entries c; ruby_count := ruby_count c;
     is_learning_target := is_learning_target c; is_typo_correction := is_typo_correction c;
     first_clause := first_clause c |}.

(** The [unique] of this file *)
Definition unique (cs : list Candidate) : list Candidate :=
  foldl unique_step [] (filter has_text cs).

(** [matches_prefix] *)
Definition matches_prefix (prefix_text : option ustring) (c : Candidate) : Prop :=
  match prefix_text with None => True | Some p => p `prefix_of` text c end.
#[export] Instance matches_prefix_dec prefix_text c : Decision (matches_prefix prefix_text c).
Proof. unfold matches_prefix. destruct prefix_text; apply _. Defined.

Section prepare.
Context `{Chrono} `{Icu} `{Rng}.

(** [Candidate::expand_templates] *)
Definition expand_candidate (now : instant) (c : Candidate) (r : rng) : Candidate * rng :=
  let '(expanded, r) := expand_templates_with (text c) now r in
  (if decide (expanded = text c) then c else with_candidate_text expanded c, r).

(** The raw text of the accepted prediction gives way to its prepared text. *)
Definition restore_prefix (prefix_candidate : option Candidate) (c : Candidate) : Candidate :=
  match prefix_candidate with
  | None => c
  | Some prefix =>
      let raw_prefix := candidate_dictionary_text prefix in
      if decide (raw_prefix = text prefix) then c
      else match TextUtil.strip_prefix raw_prefix (text c) with
           | Some remaining => with_candidate_text (text prefix ++ remaining) c
           | None => c
           end
  end.

Definition prepare_candidate (prefix_candidate : option Candidate) (now : instant) (c : Candidate)
    (r : rng) : Candidate * rng := expand_candidate now (restore_prefix prefix_candidate c) r.

Fixpoint prepare_all (prefix_candidate : option Candidate) (now : instant) (cs : list Candidate)
    (r : rng) : list Candidate * rng :=
  match cs with
  | [] => ([], r)
  | c :: cs =>
      let '(c, r) := prepare_candidate prefix_candidate now c r in
      let '(cs, r) := prepare_all prefix_candidate now cs r in (c :: cs, r)
  end.
End prepare.
