(* ===== verification/Session.v ===== *)
(** * The conversion session: operations

    src/crates/converter/src/session.rs, every method of [ConversionSession] as an
    action on the session and the world around it: the learning memories, which
    sessions share, and the random numbers of templates. The clocks are read once
    per operation ([Moment]). The converter is that of Lattice.v and Prediction.v
    over a dictionary; its lookups in the learning memory see the memory of the
    session, refreshed to the day. Evaluation of candidates by the model is the
    argument the code passes. *)

From S2P Require Import Prelude Unicode Collections F32 Constraint InputTable Composing Dictionary LatticeIndex Lattice Prediction TextUtil Special Template TextReplacer PostPrediction LearningRecords LearningFiles LearningMemory Action Zenz ZenzEvaluator DictionaryStore UserDictionary Foreign SessionState.

(** When an operation happens: the day of the learning clock, the local time, and
    the faults of the file system during it. *)
Record Moment `{Chrono} := { memory_day : N; local_now : instant; file_faults : list Fault }.

(** What sessions share *)
Record World `{Rng} := { memories : gmap nat LearningState; random : rng }.

Inductive ZenzPredictionError (E : Type) :=
  | PredictionDictionary (error : E)
  | PredictionInference (error : ZenzInferenceError).
Arguments PredictionDictionary {E}.
Arguments PredictionInference {E}.

(** [From] on the error of an action *)
Definition map_error {S E E' A} (f : E → E') (m : action S E A) : action S E' A := λ s,
  match m s with
  | (s, Return a) => (s, Return a)
  | (s, Raise e) => (s, Raise (f e))
  | (s, Panic) => (s, Panic)
  end.

(** The classes of the generated candidates of [desktop_additional_candidates] *)
Definition additional_entry (w katakana : ustring) : DictionaryEntry :=
  {| word := w; ruby := katakana; left_id := 1288; right_id := 1288; meaning_id := 501;
     base_value := zero; adjustment := zero; metadata := no_metadata |}.

Definition ALPHANUMERIC : ustring := Eval vm_compute in u "英数".
Definition WIDE_ALPHANUMERIC : ustring := Eval vm_compute in u "全角英数".
Definition NARROW_KANA : ustring := Eval vm_compute in u "半角カナ".
Definition KATAKANA : ustring := Eval vm_compute in u "カタカナ".
Definition HIRAGANA : ustring := Eval vm_compute in u "ひらがな".

Section session.
Context `{Segmentation} `{IterationOrder} `{Chrono} `{Icu} `{Rng} {E : Type} `{Dictionary E}.
Context (to_uppercase : ustring → ustring) (tables : InputTableRegistry).

#[local] Notation op E A := (action (ConversionSession * World) E A).

Definition read {E A} (f : ConversionSession → A) : op E A := gets (λ sw, f sw.1).
Definition update {E} (f : ConversionSession → ConversionSession) : op E () :=
  modify (λ sw, (f sw.1, sw.2)).

(** ** Editing *)

(** An edit of the composing text *)
Definition edit {E} (f : ComposingText → option ComposingText) : op E () :=
  ct ← read composing;
  ct ← expect (f ct);
  update (set_composing ct).

(** [self.candidates.clear(); self.last_committed = None;] *)
Definition forget_results (s : ConversionSession) : ConversionSession :=
  set_last_committed None (set_candidates [] s).

Definition insert_str {E} (value : ustring) (style : InputStyle) : op E () :=
  edit (λ ct, Composing.insert_str tables ct value style);;
  update (λ s, forget_results (retain_prediction_prefix s)).

Definition insert_key {E} (intention : option ustring) (typed : ustring) (modifiers : list InputModifier)
    (style : InputStyle) : op E () :=
  edit (λ ct, Composing.insert tables ct
    [ {| piece := Key intention typed (list_to_set modifiers); input_style := style |} ]);;
  update (λ s, forget_results (retain_prediction_prefix s)).

Definition insert_composition_separator {E} (style : InputStyle) : op E () :=
  ct ← read composing;
  if decide (piece <$> last (input ct) = Some CompositionSeparator) then mret ()
  else
    edit (λ ct, Composing.insert tables ct [ {| piece := CompositionSeparator; input_style := style |} ]);;
    update forget_results.

(** [if self.composing.is_empty() { self.context = ConversionContext::default(); }] *)
Definition forget_context (s : ConversionSession) : ConversionSession :=
  if is_empty (composing s) then set_context default_context s else s.

Definition delete_backward {E} (count : nat) : op E () :=
  edit (λ ct, Composing.delete_backward tables ct count);;
  update (λ s, forget_context (forget_results (retain_prediction_prefix s))).

Definition delete_forward {E} (count : nat) : op E () :=
  edit (λ ct, Composing.delete_forward tables ct count);;
  update (λ s, forget_context (forget_results (retain_prediction_prefix s))).

Definition move_cursor {E} (count : Z) : op E Z :=
  ct ← read composing;
  '(ct, moved) ← expect (Composing.move_cursor ct count);
  update (λ s, forget_results (set_composing ct s));;
  mret moved.

(** [reset] *)
Definition reset {E} : op E () :=
  update (λ s, set_accepted_prediction None (set_zenz_prediction_cache None
    (set_stable_prediction_cache None (set_last_committed None (set_context default_context
      (set_candidates [] (set_composing (stop (composing s)) s))))))).

(** ** Segments *)

Definition begin_segment_request {E} : op E () :=
  full ← read full_composing;
  ct ← read composing;
  if bool_decide (is_Some full) || is_at_end ct then mret ()
  else
    target ← expect (prefix_to_cursor tables ct);
    update (λ s, retain_prediction_prefix (set_full_composing (Some ct) (set_composing target s))).

Definition end_segment_request {E} : op E () :=
  full ← read full_composing;
  match full with
  | Some full => update (λ s, set_composing full (set_full_composing None s))
  | None => mret ()
  end.

(** ** Dictionaries and the learning memory *)

Definition import_dynamic_user_dictionary {E} (es ss : list DictionaryEntry) : op E () :=
  let mark := fmap (λ e, with_metadata e USER_DICTIONARY) in
  update (λ s, set_candidates [] (set_user_shortcuts (mark ss) (set_user_dictionary (mark es) s))).

Definition update_user_dictionary_path `{Files} : op DictionaryError () :=
  d ← lift open_user_dictionary;
  update (λ s, set_candidates [] (set_file_user_dictionary d s)).

(** A call of a method of a memory *)
Definition on_memory {E A} (name : nat) (f : LearningState → option (LearningState * A)) : op E A :=
  st ← gets (λ sw, memories sw.2 !! name);
  st ← expect st;
  '(st, a) ← expect (f st);
  modify (λ sw, (sw.1, {| memories := <[name := st]> (memories sw.2); random := random sw.2 |}));;
  mret a.

Definition on_fallible_memory {A} (name : nat)
    (f : LearningState → option (LearningState * result LearningError A)) : op LearningError A :=
  r ← on_memory name f;
  match r with Ok a => mret a | Err e => raise e end.

(** [LearningMemory::validate] *)
Definition validate {E} (t : Moment) (name : nat) : op E () :=
  on_memory name (λ st, st ← refresh_day (memory_day t) st; Some (st, ())).

Definition set_learning_memory_of {E} (t : Moment) (name : nat) : op E () :=
  validate t name;;
  update (λ s, set_candidates [] (set_stable_prediction_cache None (set_learning_memory (Some name) s))).

Definition set_foreign_completion_provider_of {E} (provider : ForeignCompletionProvider) : op E () :=
  update (λ s, set_candidates [] (set_foreign_completion_provider (Some provider) s)).

(** [if let Some(memory) = &self.learning_memory { .. }] *)
Definition with_memory {E A} (none : A) (f : nat → op E A) : op E A :=
  name ← read learning_memory;
  match name with Some name => f name | None => mret none end.

Definition refresh_learning {E} (t : Moment) : op E () :=
  with_memory () (validate t);;
  update (set_candidates []).

Definition commit_learning (t : Moment) : op LearningError bool :=
  committed ← with_memory false (λ name,
    on_fallible_memory name (LearningMemory.commit (file_faults t) (memory_day t)));
  (if committed : bool then update (set_stable_prediction_cache None) else mret ());;
  refresh_learning t;;
  mret committed.

Definition forget_learning (t : Moment) (c : Candidate) : op LearningError () :=
  update (set_stable_prediction_cache None);;
  with_memory () (λ name,
    on_fallible_memory name (λ st, LearningMemory.forget (file_faults t) (memory_day t) st c));;
  refresh_learning t.

Definition reset_learning (t : Moment) : op LearningError () :=
  update (set_stable_prediction_cache None);;
  with_memory () (λ name,
    on_fallible_memory name (LearningMemory.reset (file_faults t) (memory_day t)));;
  refresh_learning t.

(** The memory the converter looks into: [with_learning_memory]. *)
Definition converter_memory {E} (t : Moment) : op E (option (MemoryLookup E)) :=
  with_memory None (λ name,
    on_memory name (λ st, st ← refresh_day (memory_day t) st;
                          Some (st, Some (memory_interface (memory_day t) st)))).

(** ** Conversions *)

Definition modifiers_of (additional : list DictionaryEntry) (typo : bool) (c : option PrefixConstraint) :
    ConversionModifiers :=
  {| additional_entries := additional; need_typo_correction := typo; constraint := c |}.

(** A conversion of the composing text with the memory and the words of the session *)
Definition convert_session (t : Moment) (n_best : nat) (typo : bool) (c : option PrefixConstraint) :
    op E (list Candidate) :=
  additional ← read additional_dictionary;
  memory ← converter_memory t;
  ct ← read composing;
  ctx ← read context;
  lift (convert memory tables (modifiers_of additional typo c) ct n_best ctx).

(** [filter_map(Candidate::first_clause_candidate)] *)
Definition first_clauses_of (cs : list Candidate) : option (list Candidate) :=
  firsts ← mapM first_clause_candidate cs;
  Some (omap id firsts).

Definition request_candidates (t : Moment) (n_best : nat) : op E (list Candidate) :=
  converted ← convert_session t n_best false None;
  update (set_candidates converted);;
  firsts ← expect (first_clauses_of converted);
  let fresh := take 5 (sort_by by_ruby_count (unseen_texts (texts_of converted) firsts)) in
  update (λ s, set_candidates (candidates s ++ fresh) s);;
  read candidates.

Definition request_zenz_draft (t : Moment) (n_best : nat) (c : PrefixConstraint) : op E (list Candidate) :=
  c ← read (constrain_zenz_prefix c);
  converted ← convert_session t n_best false (if constraint_is_empty c then None else Some c);
  update (set_candidates converted);;
  read candidates.

Definition set_zenz_candidates {E} (cs : list Candidate) : op E () := update (set_candidates cs).

Definition discard_zenz_inference_state {E} : op E () :=
  update (λ s, set_zenz_prediction_cache None (set_candidates [] s)).

(** ** Predictions *)

(** What [predictions] returns from the stable and the fresh ones *)
Definition merge_predictions (stable fresh : list Candidate) (prefix_text : option ustring) (n_best : nat) :
    list Candidate :=
  let kept := unique stable in
  take n_best (filter (matches_prefix prefix_text) (kept ++ unseen_texts (texts_of kept) fresh)).

Definition predictions (t : Moment) (n_best : nat) (additional : list DictionaryEntry)
    (prefix_text : option ustring) : op E (list Candidate) :=
  if decide (n_best = 0) then update (set_stable_prediction_cache None);; mret []
  else
    ct ← read composing;
    let source := predictive_input_source tables ct in
    cache ← read stable_prediction_cache;
    let stable := match cache with Some cache => compatible_candidates cache ct source | None => [] end in
    memory ← converter_memory t;
    ctx ← read context;
    fresh ← lift (predict memory tables ct n_best ctx additional);
    let found := merge_predictions stable fresh prefix_text n_best in
    update (set_stable_prediction_cache
      (match found with
       | [] => None
       | _ => Some {| stable_surface := surface_of ct;
                      stable_suffix_count := dropped_suffix_count source; stable_candidates := found |}
       end));;
    mret found.

Definition request_predictions (t : Moment) (n_best : nat) : op E (list Candidate) :=
  additional ← read additional_dictionary;
  predictions t n_best additional None.

(** [accept_prediction_candidate] *)
Definition accept_prediction_candidate {E} (c : Candidate) : op E bool :=
  ct ← read composing;
  if is_empty ct || negb (is_at_end ct) then mret false
  else
    let source := predictive_input_source tables ct in
    match TextUtil.strip_prefix (Kana.to_hiragana (base_surface source))
                                (Kana.to_hiragana (candidate_reading c)) with
    | None | Some [] => mret false
    | Some remaining =>
        (if decide (0 < dropped_suffix_count source)
         then edit (λ ct, Composing.delete_backward tables ct (dropped_suffix_count source))
         else mret ());;
        edit (λ ct, Composing.insert_str tables ct remaining Direct);;
        update (λ s, set_accepted_prediction (Some c) (set_zenz_prediction_cache None
          (set_stable_prediction_cache None (forget_results s))));;
        mret true
    end.

(** ** The assembled request *)

Definition reads (katakana : ustring) (c : Candidate) : Prop := candidate_reading c = katakana.
#[local] Instance reads_dec katakana c : Decision (reads katakana c).
Proof. unfold reads. apply _. Defined.

(** The candidate of a shortcut *)
Definition shortcut_candidate (katakana : ustring) (e : DictionaryEntry) : Candidate :=
  with_learning_target false
    (candidate_single (word e) (entry_value e) (CSurface (length (graphemes katakana))) (meaning_id e) [e]).

(** A candidate that reads as the whole text is among the first three, when there
    is one. *)
Definition ensure_reading (katakana : ustring) (full leading : list Candidate) : list Candidate :=
  if decide (Exists (reads katakana) (take 3 leading)) then leading
  else match list_find (reads katakana) full with
       | Some (_, c) =>
           let leading := filter (λ item, text item ≠ text c) leading in
           let place := 2 `min` length leading in
           take place leading ++ c :: drop place leading
       | None => leading
       end.

Definition leading_candidates (options : RequestOptions) (prefix_text : option ustring)
    (katakana : ustring) (full shortcuts predicted foreign : list Candidate) : list Candidate :=
  let leading := unique (take 5 full ++ shortcuts) in
  let leading := if decide (japanese_prediction options = PredictAutomatic)
                 then unique (leading ++ predicted) else leading in
  let leading := if decide (foreign_prediction options = PredictAutomatic)
                 then unique (leading ++ foreign) else leading in
  ensure_reading katakana full
    (take 5 (sort_by by_value (filter (matches_prefix prefix_text) leading))).

(** The main results before they are prepared *)
Definition main_candidates (prefix_text : option ustring)
    (leading first_clauses words special : list Candidate) : list Candidate :=
  let seen := texts_of leading in
  let '(first_for_main, seen) := filter_unseen seen first_clauses in
  let '(words, seen) := filter_unseen seen (sort_by by_ruby_count (unique words)) in
  let special := unseen_texts seen special in
  let place := 5 `min` length words in
  filter (matches_prefix prefix_text)
    (leading ++ first_for_main ++ take place words ++ special ++ drop place words).

Definition first_clause_list (prefix_text : option ustring) (full : list Candidate) :
    option (list Candidate) :=
  firsts ← first_clauses_of full;
  Some (take 5 (filter (matches_prefix prefix_text) (sort_by by_ruby_count (unique firsts)))).

Definition prepare {E} (t : Moment) (prefix_candidate : option Candidate) (cs : list Candidate) :
    op E (list Candidate) := λ sw,
  let '(cs, r) := prepare_all prefix_candidate (local_now t) cs (random sw.2) in
  ((sw.1, {| memories := memories sw.2; random := r |}), Return cs).

(** The predictions of an assembled request *)
Definition request_predicted (t : Moment) (options : RequestOptions) (additional : list DictionaryEntry)
    (prediction_override : option (list Candidate)) (prefix_text : option ustring) : op E (list Candidate) :=
  if decide (japanese_prediction options = PredictDisabled)
  then update (set_stable_prediction_cache None);; mret []
  else match prediction_override with
       | Some predicted => mret predicted
       | None => predictions t 3 additional prefix_text
       end.

Definition request_foreign (options : RequestOptions) (s : ConversionSession) : list Candidate :=
  if decide (foreign_prediction options = PredictDisabled) then []
  else match foreign_completion_provider s with
       | Some provider =>
           foreign_predictions (composing s) (keyboard_language options) provider (negative 5)
       | None => []
       end.

Definition assemble_request (t : Moment) (options : RequestOptions) (full : list Candidate)
    (prediction_override : option (list Candidate)) (prefix_candidate : option Candidate) :
    op E ConversionResult :=
  let prefix_text := candidate_dictionary_text <$> prefix_candidate in
  let full := filter (matches_prefix prefix_text) full in
  additional ← read additional_dictionary;
  first_clauses ← expect (first_clause_list prefix_text full);
  predicted ← request_predicted t options additional prediction_override prefix_text;
  let predicted := filter (matches_prefix prefix_text) predicted in
  foreign ← read (request_foreign options);
  ct ← read composing;
  let katakana := Kana.to_katakana (surface_of ct) in
  shortcuts ← read (λ s, filter (λ e, ruby e = katakana)
                            (user_shortcuts s ++ shortcuts (file_user_dictionary s)));
  let leading := leading_candidates options prefix_text katakana full
                   (shortcut_candidate katakana <$> shortcuts) predicted foreign in
  words ← lift (word_candidates ct);
  representations ← expect (representation_candidates to_uppercase ct
                              (full_width_roman options) (half_width_kana options));
  special ← expect (special_candidates ct (version_string options));
  let special := special ++ (if typography options then typographical_candidates ct else []) in
  main ← prepare t prefix_candidate
           (main_candidates prefix_text leading first_clauses (words ++ representations) special);
  predicted ← prepare t prefix_candidate predicted;
  firsts ← prepare t prefix_candidate first_clauses;
  update (set_candidates main);;
  mret {| main_results := main; prediction_results := predicted;
          english_prediction_results := foreign; first_clause_results := firsts |}.

(** [request] *)
Definition request (t : Moment) (options : RequestOptions) : op E ConversionResult :=
  full ← convert_session t (opt_n_best options) (bool_decide (typo_correction options = TypoEnabled)) None;
  assemble_request t options full None None.

(** The values of the first five candidates in descending order, in their places *)
Definition order_leading_values (full : list Candidate) : list Candidate :=
  let values := sort_by (λ l r, total_cmp r l) (cand_value <$> take 5 full) in
  zip_with with_value values (take 5 full) ++ drop 5 full.

Definition finalize_zenz_request_with_prediction_override (t : Moment) (options : RequestOptions)
    (prediction_override : option (list Candidate)) : op E ConversionResult :=
  full ← read candidates;
  update (set_candidates []);;
  prefix_candidate ← read current_prediction;
  assemble_request t options (order_leading_values full) prediction_override prefix_candidate.

Definition finalize_zenz_request (t : Moment) (options : RequestOptions) : op E ConversionResult :=
  finalize_zenz_request_with_prediction_override t options None.

(** ** Selection *)

(** [select_candidate_value]; the text of the candidate. *)
Definition select_candidate_value {E} (t : Moment) (c : Candidate) : op E ustring :=
  edit (λ ct, complete_prefix tables ct (composing_count c));;
  update (set_accepted_prediction None);;
  match last (entries c) with
  | Some e => update (set_context {| context_right_id := right_id e;
                                     context_meaning_id := last_meaning_id c |})
  | None => mret ()
  end;;
  update (set_candidates []);;
  (if is_learning_target c then
     with_memory () (λ name,
       on_memory name (λ st, st ← learn (memory_day t) st c; Some (st, ())))
   else mret ());;
  update (λ s,
    let s := set_last_committed (Some c) s in
    if is_empty (composing s)
    then set_zenz_prediction_cache None (set_stable_prediction_cache None
           (set_context default_context (set_composing (stop (composing s)) s)))
    else s);;
  mret (text c).

Definition select_candidate (t : Moment) (index : nat) : op SelectionError ustring :=
  cs ← read candidates;
  c ← or_raise (CandidateOutOfRange index (length cs)) (cs !! index);
  select_candidate_value t c.

(** ** Questions *)

Definition transformed_text (transform : TextTransform) (s : ConversionSession) : option ustring :=
  let shown := surface_of (composing s) in
  let raw := raw_input (input (composing s)) in
  match transform with
  | ToHiragana => Some (Kana.to_hiragana shown)
  | ToKatakana => Some (Kana.to_katakana shown)
  | ToHalfWidthKatakana => Some (to_half_width (Kana.to_katakana shown))
  | ToFullWidthRoman => to_full_width raw
  | ToHalfWidthRoman => Some raw
  end.

(** The composing text without what a candidate covers *)
Definition remaining_composing (c : Candidate) (s : ConversionSession) : option ComposingText :=
  complete_prefix tables (composing s) (composing_count c).

Definition remaining_after_candidate (c : Candidate) (s : ConversionSession) : option ustring :=
  surface_of <$> remaining_composing c s.

Definition consumed_surface_count (c : Candidate) (s : ConversionSession) : option nat :=
  rest ← remaining_composing c s;
  Some (length (surface (composing s)) - length (surface rest)).

(** [iter().any(..)] of a test that may panic *)
Fixpoint any_of {A} (p : A → option bool) (l : list A) : option bool :=
  match l with
  | [] => Some false
  | x :: l => b ← p x; if (b : bool) then Some true else any_of p l
  end.

Definition desktop_candidates (r : ConversionResult) (s : ConversionSession) : option (list Candidate) :=
  whole ← any_of (λ c, rest ← remaining_after_candidate c s; Some (bool_decide (rest = [])))
            (first_clause_results r);
  Some (if (whole : bool) then main_results r else merged_desktop_candidates r).

(** What was typed for the candidate, or for the whole text *)
Definition raw_input_for (selected : option Candidate) (s : ConversionSession) : option ustring :=
  match selected with
  | None => Some (raw_input (input (composing s)))
  | Some c =>
      rest ← remaining_composing c s;
      typed ← slice 0 (length (input (composing s)) - length (input rest)) (input (composing s));
      Some (raw_input typed)
  end.

Definition desktop_additional_candidates (selected : option Candidate) (s : ConversionSession) :
    option (list (Candidate * ustring)) :=
  let shown := match selected with Some c => candidate_reading c | None => surface_of (composing s) end in
  let count := match selected with
               | Some c => composing_count c
               | None => CInput (length (input (composing s)))
               end in
  raw ← raw_input_for selected s;
  wide ← to_full_width raw;
  let katakana := Kana.to_katakana shown in
  Some ((λ ta, (with_learning_target false
                  (candidate_single ta.1 zero count 501 [additional_entry ta.1 katakana]), ta.2))
    <$> [(raw, ALPHANUMERIC); (wide, WIDE_ALPHANUMERIC); (to_half_width katakana, NARROW_KANA);
         (katakana, KATAKANA); (Kana.to_hiragana shown, HIRAGANA)]).

Definition request_post_composition_predictions `{!ZeroHints E} (to_lowercase : ustring → ustring)
    (text_replacer : option TextReplacer) (s : ConversionSession) :
    outcome E (list PostCompositionPrediction) :=
  match last_committed s with
  | Some c => post_predict to_lowercase text_replacer c
  | None => mret []
  end.

(** ** Predictions of the model *)

Section model.
Context {M : Type} `{ZenzLanguageModel M} `{Libm}.

#[local] Notation model_op E A := (action ((ConversionSession * World) * M) E A).

(** A cached prediction that still applies *)
Definition cached_prediction (version : ZenzVersionConfig) (left_context : ustring) (style : InputStyle)
    (count : nat) (s : ConversionSession) : option ustring :=
  cache ← zenz_prediction_cache s;
  if decide (cached_left_context cache = left_context ∧ cached_version cache = version ∧
             cached_style cache = style)
  then remaining_prediction cache (composing s) count else None.

Definition predict_next_input_text (version : ZenzVersionConfig) (left_context : ustring) (count : nat)
    (max_entropy : option f32) : model_op ZenzInferenceError (ustring * nat) :=
  s ← on_fst (read id);
  let style := last_style (composing s) in
  match cached_prediction version left_context style count s with
  | Some prediction => mret (prediction, 0)
  | None =>
      let source := predictive_input_source tables (composing s) in
      predicted ← on_snd (generate_next_input
        {| gen_left_context := left_context; composing_text := base_surface source; gen_count := count;
           min_length := 1; ZenzEvaluator.max_entropy := max_entropy; gen_version := version;
           possible_nexts := source_nexts source |});
      on_fst (update (set_zenz_prediction_cache
        (match predicted with
         | [] => None
         | _ => Some {| cached_left_context := left_context; cached_version := version;
                        cached_style := style; cached_surface := surface_of (composing s);
                        cached_suffix_count := dropped_suffix_count source;
                        predicted_text := predicted |}
         end)));;
      mret (predicted, dropped_suffix_count source)
  end.

(** The composing text with a prediction in it *)
Definition predicted_composing (ct : ComposingText) (predicted : ustring) (suffix_count : nat) :
    option ComposingText :=
  let style := last_style ct in
  shortened ← (if decide (0 < suffix_count)
               then Composing.delete_backward tables ct suffix_count else Some ct);
  Composing.insert_str tables shortened (inserted_text style predicted) style.

(** An action on a clone of the session, which shares the world and the model; the
    candidates of the clone. *)
Definition on_clone {E} (clone : ConversionSession) (m : model_op E ()) : model_op E (list Candidate) :=
  λ '((s, w), model),
    let '(((s', w'), model'), r) := m ((clone, w), model) in
    ((s, w', model'), match r with
                      | Return _ => Return (candidates s')
                      | Raise e => Raise e
                      | Panic => Panic
                      end).

Definition request_zenz_prediction (t : Moment) (version : ZenzVersionConfig) (left_context : ustring)
    (evaluate_prediction : model_op (ZenzPredictionError E) ()) :
    model_op (ZenzPredictionError E) (list Candidate) :=
  additional ← on_fst (read additional_dictionary);
  prefix_text ← on_fst (read (λ s, candidate_dictionary_text <$> current_prediction s));
  found ← on_fst (map_error PredictionDictionary (predictions t 5 additional prefix_text));
  match found with
  | _ :: _ => mret found
  | [] =>
      '(predicted, suffix_count) ← map_error PredictionInference
        (predict_next_input_text version left_context 10 (Some (of_nat 3)));
      if decide (predicted = []) then mret []
      else
        s ← on_fst (read id);
        ct ← expect (predicted_composing (composing s) predicted suffix_count);
        cs ← on_clone (set_candidates [] (set_full_composing None (set_composing ct s)))
               evaluate_prediction;
        mret (with_count (CSurface (length (surface (composing s)))) <$> cs)
  end.
End model.
End session.
