(* ===== verification/SessionSpec.v ===== *)
(** * What a session keeps true

    The invariant of the sessions of Session.v over the world they share, and the
    rule induction that every sequence of operations keeps it without a panic. *)

From S2P Require Import Prelude Unicode Collections F32 Constraint InputTable DefaultTables Composing ComposingSpec Dictionary LatticeIndex Lattice LatticeSpec Prediction PredictionSpec TextUtil Special Template PostPrediction LearningRecords LearningRecordsSpec LearningFiles LearningMemory LearningMemorySpec LearningProperties Action UserDictionary Foreign SessionState Session.

Create HintDb session.

(** ** Candidates that can be split at their first clause *)

Definition splits `{Segmentation} (c : Candidate) : Prop := is_Some (first_clause_candidate c).

Section splits.
Context `{Segmentation}.

Lemma no_first_clause_splits c : first_clause c = None → splits c.
Proof. intros E. unfold splits, first_clause_candidate. rewrite E. by eexists. Qed.

(** The clauses under construction end inside the words so far. *)
Definition ends_inside (clauses : list FirstClause) (es : list DictionaryEntry) : Prop :=
  ∀ c, c ∈ clauses → fc_entry_end c ≤ length es - 1.

Lemma clause_step_inside clauses es right p clauses' es' right' :
  ends_inside clauses es → clause_step (clauses, es, right) p = Some (clauses', es', right') →
  ends_inside clauses' es' ∧ length es' = S (length es).
Proof.
  intros Hin. unfold clause_step. cbv zeta.
  match goal with |- (match ?x with [] => _ | _ => _ end) = _ → _ =>
    assert (Hx : ∀ c, c ∈ x → fc_entry_end c ≤ length es);
    [|destruct x as [|c rest] eqn:E; [done|]] end.
  { match goal with |- context [if ?b then _ else _] => destruct b end.
    - intros c Hc%Hin. lia.
    - intros c [->|Hc%Hin]%elem_of_cons; [done|lia]. }
  intros [= <- <- <-]. split; [|rewrite length_app; simpl; lia].
  intros d. rewrite length_app. cbn [length].
  intros [->|Hd]%elem_of_cons; [cbn; lia|].
  assert (fc_entry_end d ≤ length es) by (apply Hx; by right). lia.
Qed.

Lemma clauses_inside ps clauses es right clauses' es' right' :
  ends_inside clauses es →
  foldl (λ st q, st ← st; clause_step st q) (Some (clauses, es, right)) ps = Some (clauses', es', right') →
  ends_inside clauses' es' ∧ length es' = length es + length ps.
Proof.
  revert clauses es right. induction ps as [|p ps IH]; intros clauses es right Hin; cbn [foldl].
  { intros [= <- <- <-]. split; [done|simpl; lia]. }
  cbn [mbind option_bind]. destruct (clause_step (clauses, es, right) p) as [[[clauses1 es1] right1]|] eqn:Hs.
  - apply clause_step_inside in Hs as [Hin1 Hlen]; [|done].
    intros Hf. destruct (IH _ _ _ Hin1 Hf) as [? Hl]. split; [done|]. rewrite Hl, Hlen. simpl. lia.
  - assert (Hnone : foldl (λ st q, st ← st; clause_step st q) None ps = None) by (clear; induction ps; simpl; done).
    by rewrite Hnone.
Qed.

Lemma mapM_bind_part {A B C} (f : B → option C) (g : A → list B) (l : list A) (ks : list C) a :
  mapM f (l ≫= g) = Some ks → a ∈ l → is_Some (mapM f (g a)).
Proof.
  intros Hm Ha. apply mapM_is_Some. apply mapM_Some in Hm.
  apply Forall_forall. intros b Hb.
  assert (Hin : b ∈ l ≫= g) by (apply list_elem_of_bind; by exists a).
  apply list_elem_of_lookup in Hin as [i Hi]. destruct (Forall2_lookup_l _ _ _ _ _ Hm Hi) as (k & _ & Hk).
  by exists k.
Qed.

Lemma make_candidate_splits `{Dictionary E} context p c : make_candidate context p = Some c → splits c.
Proof.
  unfold make_candidate. intros Hc.
  match type of Hc with (foldl ?f ?i ?ps ≫= _) = _ =>
    destruct (foldl f i ps) as [[[clauses es] right]|] eqn:Hf; [|done] end.
  apply clauses_inside in Hf as [Hin Hlen].
  2: { intros d ->%list_elem_of_singleton. cbn. lia. }
  cbn [mbind option_bind] in Hc. destruct (foldl _ _ (reverse clauses)) as [mv pm].
  destruct (mapM range_count (reverse clauses ≫= fc_ranges)) as [counts|] eqn:Hcounts; [|done].
  injection Hc as <-. unfold splits, first_clause_candidate. cbn [first_clause entries].
  destruct (head (reverse clauses)) as [first|] eqn:Hfirst; [|by eexists].
  case_match; [by eexists|].
  assert (Hfin : first ∈ reverse clauses).
  { destruct (reverse clauses); [done|]. injection Hfirst as ->. by left. }
  destruct (mapM_bind_part _ _ _ _ _ Hcounts Hfin) as [ks ->].
  apply elem_of_reverse, Hin in Hfin. rewrite slice_ok; [by eexists|lia|].
  assert (length (path_list p) ≠ 0).
  { destruct p as [e r q tot]. cbn [path_list]. rewrite length_app. simpl. lia. }
  cbn [length] in Hlen. lia.
Qed.
End splits.

(** ** Lists without repeated texts *)

Lemma unseen_texts_spec seen cs :
  NoDup (text <$> unseen_texts seen cs) ∧
  (∀ c, c ∈ unseen_texts seen cs → c ∈ cs ∧ text c ∉ seen) ∧
  (∀ c, c ∈ cs → text c ∉ seen → text c ∈ text <$> unseen_texts seen cs).
Proof.
  revert seen. induction cs as [|c cs IH]; intros seen; cbn [unseen_texts].
  { split_and!; [constructor|by intros c ?%not_elem_of_nil|by intros c ?%not_elem_of_nil]. }
  case_decide as Hc.
  - destruct (IH seen) as (Hnd & Hin & Hall). split_and!; [done| |].
    + intros d [Hd ?]%Hin. split; [by right|done].
    + intros d [->|Hd]%elem_of_cons ?; [done|by apply Hall].
  - destruct (IH ({[text c]} ∪ seen)) as (Hnd & Hin & Hall). split_and!.
    + cbn. constructor; [|done]. intros (d & E & [_ Hd]%Hin)%list_elem_of_fmap. set_solver.
    + intros d [->|[Hd ?]%Hin]%elem_of_cons; [split; [by left|done]|split; [by right|set_solver]].
    + intros d Hd Hs. cbn. apply elem_of_cons. destruct (decide (text d = text c)) as [|Hne]; [by left|right].
      apply elem_of_cons in Hd as [->|Hd]; [done|]. apply Hall; [done|set_solver].
Qed.

Lemma Forall_part {A} (P : A → Prop) (l k : list A) : (∀ x, x ∈ l → x ∈ k) → Forall P k → Forall P l.
Proof. rewrite !Forall_forall. auto. Qed.

Lemma Forall_unseen (P : Candidate → Prop) seen cs : Forall P cs → Forall P (unseen_texts seen cs).
Proof. apply Forall_part. intros c Hc. by apply unseen_texts_spec in Hc as [? _]. Qed.

Lemma Forall_unique (P : Candidate → Prop) cs : Forall P cs → Forall P (unique cs).
Proof. apply Forall_part. intros c Hc. by apply unique_texts_spec in Hc as [? _]. Qed.

Lemma Forall_sort_by {A} (P : A → Prop) cmp l : Forall P l → Forall P (sort_by cmp l).
Proof. by rewrite sort_by_perm. Qed.

Lemma Forall_filter_part {A} (P Q : A → Prop) `{∀ x, Decision (Q x)} l : Forall P l → Forall P (filter Q l).
Proof. apply Forall_part. by intros x [_ ?]%list_elem_of_filter. Qed.

#[export] Hint Resolve Forall_unseen Forall_unique Forall_sort_by Forall_filter_part Forall_take
  Forall_drop Forall_app_2 : session.

(** ** What the preparation of a candidate keeps *)

Lemma restore_prefix_same prefix c :
  entries (restore_prefix prefix c) = entries c ∧ first_clause (restore_prefix prefix c) = first_clause c ∧
  composing_count (restore_prefix prefix c) = composing_count c.
Proof.
  unfold restore_prefix. destruct prefix as [p|]; [|done]. case_decide; [done|].
  by destruct (TextUtil.strip_prefix _ _).
Qed.

Lemma prepare_candidate_same `{Chrono} `{Icu} `{Rng} prefix now c r :
  let d := (prepare_candidate prefix now c r).1 in
  entries d = entries c ∧ first_clause d = first_clause c ∧ composing_count d = composing_count c.
Proof.
  unfold prepare_candidate, expand_candidate. destruct (expand_templates_with _ now r) as [expanded r'].
  destruct (restore_prefix_same prefix c) as (He & Hf & Hc). cbn. by case_decide.
Qed.

Lemma prepare_all_same `{Chrono} `{Icu} `{Rng} prefix now cs r :
  Forall2 (λ c d, entries d = entries c ∧ first_clause d = first_clause c ∧
                  composing_count d = composing_count c) cs (prepare_all prefix now cs r).1.
Proof.
  revert r. induction cs as [|c cs IH]; intros r; cbn [prepare_all]; [done|].
  pose proof (prepare_candidate_same prefix now c r) as Hc.
  destruct (prepare_candidate prefix now c r) as [d r']. specialize (IH r').
  destruct (prepare_all prefix now cs r') as [ds r'']. by constructor.
Qed.

Section requests.
Context `{Segmentation}.

Lemma first_clauses_total cs :
  Forall splits cs → ∃ firsts, first_clauses_of cs = Some firsts ∧ Forall splits firsts.
Proof.
  intros Hcs. unfold first_clauses_of.
  assert (∃ firsts, mapM first_clause_candidate cs = Some firsts ∧
    Forall (λ o, ∀ c, o = Some c → first_clause c = None) firsts) as (firsts & -> & Hf).
  { induction Hcs as [|c cs [o Ho] _ (firsts & Hf & Hall)]; [by exists []|].
    exists (o :: firsts). split.
    - change (c :: cs) with ([c] ++ cs). change (o :: firsts) with ([o] ++ firsts).
      apply mapM_app_Some; [cbn; by rewrite Ho|done].
    - constructor; [|done]. intros d ->. unfold first_clause_candidate in Ho.
      destruct (first_clause c); [|done]. case_match; [done|].
      destruct (slice _ _ _); [|done]. destruct (mapM _ _); [|done]. cbn in Ho. by injection Ho as <-. }
  cbn [mbind option_bind]. eexists. split; [done|]. apply Forall_forall.
  intros c Hc. apply list_elem_of_omap in Hc as (o & Ho & Hs). cbn in Hs. subst o.
  rewrite Forall_forall in Hf. apply no_first_clause_splits. by apply (Hf _ Ho).
Qed.

Lemma prepare_splits `{Chrono} `{Icu} `{Rng} prefix now cs r :
  Forall splits cs → Forall splits (prepare_all prefix now cs r).1.
Proof.
  intros Hcs. pose proof (prepare_all_same prefix now cs r) as Hall.
  induction Hall as [|c d cs ds (He & Hf & _) Hall IH]; [done|].
  inversion Hcs as [|? ? Hc Hrest]; subst. constructor; [|by apply IH].
  unfold splits, first_clause_candidate in *. rewrite Hf, He. destruct (first_clause c); [|done].
  case_match; [by eexists|]. destruct Hc as [x Hx]. destruct (slice _ _ _); [|done].
  destruct (mapM _ _); [|done]. by eexists.
Qed.

Lemma convert_splits `{IterationOrder} {E} `{Dictionary E} memory tables mods ct n_best context cs :
  convert (E:=E) memory tables mods ct n_best context = Return cs → Forall splits cs.
Proof.
  unfold convert. destruct (_ || _); [intros [= <-]; constructor|].
  intros (m & _ & (st & _ & ([ns results] & _ & (cands & Hc & Hcs)%outcome_bind_Return)%outcome_bind_Return)
    %outcome_bind_Return)%outcome_bind_Return.
  injection Hcs as <-. apply panicking_Return, mapM_Some in Hc.
  apply Forall_forall. intros c [Hin _]%unique_candidates_spec. rewrite elem_of_sort_by in Hin.
  apply list_elem_of_lookup in Hin as [i Hi]. destruct (Forall2_lookup_r _ _ _ _ _ Hc Hi) as (p & _ & Hp).
  by eapply make_candidate_splits.
Qed.
End requests.
