(* ===== verification/SessionInvariant.v ===== *)
(** * The invariant of a session

    The composing texts show their input, the candidates can be split, the memories
    are sound; every operation of Session.v keeps this and does not panic. *)

From S2P Require Import Prelude Unicode Collections F32 Constraint InputTable DefaultTables Composing ComposingSpec Dictionary LatticeIndex Lattice LatticeSpec Prediction PredictionSpec TextUtil Special Template PostPrediction LearningRecords LearningRecordsSpec LearningFiles LearningMemory LearningMemorySpec LearningProperties Action DictionaryStore UserDictionary Foreign SessionState Session SessionSpec.

(** ** The candidates that need no dictionary *)

Lemma digit_parses s :
  1 ≤ length s ≤ 2 → forallb is_ascii_digit s = true → is_Some (parse_u8 s).
Proof.
  assert (Hd : ∀ c, is_ascii_digit c = true → c ∈ N.of_nat <$> seq 48 10).
  { intros c Hc. unfold is_ascii_digit, in_range in Hc. apply andb_true_iff in Hc as [H1%N.leb_le H2%N.leb_le].
    apply list_elem_of_fmap. exists (N.to_nat c). split; [lia|]. apply elem_of_seq. lia. }
  intros Hl Hs.
  assert (Hin : s ∈ ((λ c, [c]) <$> (N.of_nat <$> seq 48 10)) ++
                    ((N.of_nat <$> seq 48 10) ≫= λ a, (λ b, [a; b]) <$> (N.of_nat <$> seq 48 10))).
  { destruct s as [|a [|b [|]]]; simpl in Hl; [lia| | |lia]; cbn [forallb] in Hs;
      rewrite !andb_true_iff in Hs; destruct_and?; apply elem_of_app; [left|right].
    - apply list_elem_of_fmap. eauto.
    - apply list_elem_of_bind. exists a. split; [|auto]. apply list_elem_of_fmap. eauto. }
  clear Hl Hs Hd. revert s Hin. apply Forall_forall. repeat constructor; vm_compute; by eexists.
Qed.

Section independent.
Context `{Segmentation}.

Lemma time_candidates_total ct : ∃ cs, time_candidates ct = Some cs ∧ Forall (λ c, first_clause c = None) cs.
Proof.
  unfold time_candidates. set (value := surface_text ct).
  destruct (forallb is_ascii_digit value) eqn:Hd; cbn [negb]; [|by exists []].
  assert (Ht : is_Some (time_text value)).
  { assert (Hparts : ∀ n, n < length value → length value - n ≤ 2 → 1 ≤ n ≤ 2 →
      is_Some (parse_u8 (take n value)) ∧ is_Some (parse_u8 (drop n value))).
    { intros n Hn Hrest Hr. rewrite <- (take_drop n value), forallb_app in Hd.
      apply andb_true_iff in Hd as [H1 H2].
      split; apply digit_parses; rewrite ?length_take, ?length_drop; try done; lia. }
    unfold time_text. destruct (length value) as [|[|[|[|[|]]]]] eqn:Hl; try by eexists.
    - destruct (Hparts 1) as [[h ->] [m ->]]; [lia..|]. by eexists.
    - destruct (Hparts 2) as [[h ->] [m ->]]; [lia..|]. by eexists. }
  destruct Ht as [[time|] ->]; cbn; eexists; (split; [done|]); by repeat constructor.
Qed.

Lemma special_candidates_total ct version :
  ∃ cs, special_candidates ct version = Some cs ∧ Forall (λ c, first_clause c = None) cs.
Proof.
  unfold special_candidates. destruct (time_candidates_total ct) as (times & -> & Htimes).
  cbn [mbind option_bind]. eexists. split; [done|]. rewrite !Forall_app. split_and!; [| | | |done|].
  - unfold calendar_candidates. apply Forall_app. split.
    + case_match; by repeat constructor.
    + apply Forall_forall. intros c Hc. apply elem_of_lookup_imap in Hc as (i & v & -> & _). done.
  - unfold email_candidates. destruct (rsplit_once _ _) as [[identifier prefix]|]; [|done].
    destruct (_ && _); [done|]. apply Forall_fmap, Forall_true. by intros [i d].
  - unfold unicode_candidates. case_match; by repeat constructor.
  - unfold version_candidates. case_decide; [done|]. destruct version; by repeat constructor.
  - unfold comma_separated_number_candidates. case_match; by repeat constructor.
Qed.

Lemma typographical_no_clause ct : Forall (λ c, first_clause c = None) (typographical_candidates ct).
Proof.
  unfold typographical_candidates. destruct (_ || _); [done|]. apply Forall_fmap, Forall_true. done.
Qed.

Lemma representations_no_clause to_uppercase ct full half :
  ∃ cs, representation_candidates to_uppercase ct full half = Some cs ∧
    Forall (λ c, first_clause c = None) cs.
Proof.
  unfold representation_candidates.
  assert (Hw : ∀ s, ∃ w, to_full_width s = Some w).
  { intros s. apply mapM_is_Some, Forall_true. intros c.
    destruct (full_width_char_ok c) as (w & Hw & _). by exists w. }
  destruct (Hw (Kana.to_katakana (concat (surface ct)))) as [w Hfull].
  destruct full; rewrite ?Hfull; cbn [mbind option_bind]; eexists; (split; [done|]);
    destruct half; by repeat constructor.
Qed.

Lemma word_candidates_safe {E} `{Dictionary E} ct :
  safe (E:=E) (word_candidates ct) (Forall (λ c, first_clause c = None)).
Proof.
  unfold word_candidates. destruct (is_empty ct); [by apply safe_ret|].
  apply safe_bind, safe_fallible. intros found _. apply safe_ret, Forall_forall.
  intros c [Hc _]%elem_of_sort_by%unique_candidates_spec. apply list_elem_of_bind in Hc as (m & Hc & _).
  by apply list_elem_of_fmap in Hc as (e & -> & _).
Qed.

Lemma foreign_no_clause ct language provider penalty :
  Forall (λ c, first_clause c = None) (foreign_predictions ct language provider penalty).
Proof.
  assert (Hunseen : ∀ cs seen, Forall (λ c, first_clause c = None) cs →
    Forall (λ c, first_clause c = None) (unseen_texts seen cs)).
  { induction cs as [|c cs IH]; intros seen Hcs; simpl; [done|]. inversion Hcs; subst.
    case_decide; [by apply IH|]. constructor; [done|by apply IH]. }
  assert (Hcomp : ∀ cs v d n, Forall (λ c, first_clause c = None) (completion_candidates v d n cs)).
  { induction cs as [|c cs IH]; intros v d n; simpl; [done|]. by constructor. }
  assert (Hlang : ∀ t l, Forall (λ c, first_clause c = None) (predictions_for_language ct t l provider penalty)).
  { intros t l. unfold predictions_for_language. case_decide; [done|].
    destruct (provider l t); [done|]. constructor; [done|apply Hcomp]. }
  apply Hunseen. destruct (forallb _ _); case_decide; rewrite ?Forall_app; auto.
Qed.
End independent.

(** ** The invariant *)

Section invariant.
Context `{Segmentation} `{Hseg : !SegmentationLaws} `{!IterationOrder} `{!IterationOrderLaws}.
Context `{Chrono} `{Icu} `{Rng} {E : Type} `{!Dictionary E} `{!DictionaryLaws E}.
Context (to_uppercase : ustring → ustring) (tables : InputTableRegistry).
Context (Hok : registry_ok tables) (Hsteady : registry_steady tables).

#[local] Notation state := (ConversionSession * World)%type.

(** The surface shows the input, and an empty surface means an empty input. *)
Definition text_ok (ct : ComposingText) : Prop := wf tables ct ∧ settled ct.

Record session_inv (sw : state) : Prop := {
  inv_text : text_ok (composing sw.1);
  inv_full : ∀ full, full_composing sw.1 = Some full → text_ok full;
  inv_candidates : Forall splits (candidates sw.1);
  inv_stable : ∀ cache, stable_prediction_cache sw.1 = Some cache → Forall splits (stable_candidates cache);
  inv_memories : map_Forall (λ _ st, memory_inv st) (memories sw.2);
  inv_memory : ∀ name, learning_memory sw.1 = Some name → is_Some (memories sw.2 !! name);
}.

(** A change of the fields the invariant does not speak of, or that empties them *)
Ltac quiet :=
  match goal with
  | Hinv : session_inv (?s, ?w) |- session_inv _ =>
      destruct Hinv; split; cbn in *; naive_solver
  end.

(** An operation that keeps the invariant from the states where [P] holds of the
    session, and ends in [Q] *)
Definition keeps {E A} (P : ConversionSession → Prop) (m : action state E A)
    (Q : A → ConversionSession → Prop) : Prop :=
  hoare (λ sw, session_inv sw ∧ P sw.1) m (λ a sw, session_inv sw ∧ Q a sw.1) session_inv.

Definition any (s : ConversionSession) : Prop := True.

Lemma keeps_bind {E' A B} P M Q (m : action state E' A) (f : A → action state E' B) :
  keeps P m M → (∀ a, keeps (M a) (f a) Q) → keeps P (m ≫= f) Q.
Proof. intros Hm Hf. eapply hoare_bind; [exact Hm|]. intros a. apply Hf. Qed.

Lemma keeps_ret {E' A} (P : ConversionSession → Prop) (a : A) (Q : A → ConversionSession → Prop) :
  (∀ s, P s → Q a s) → keeps P (mret a : action state E' A) Q.
Proof. intros HQ. apply hoare_ret. intros sw [Hinv HP]. split; [done|by apply HQ]. Qed.

Lemma keeps_weaken {E' A} P P' Q Q' (m : action state E' A) :
  keeps P' m Q' → (∀ s, P s → P' s) → (∀ a s, Q' a s → Q a s) → keeps P m Q.
Proof.
  intros Hm HP HQ. eapply hoare_mono; [exact Hm| |].
  - intros sw [? ?]. split; auto.
  - intros a sw [? ?]. split; auto.
Qed.

Lemma keeps_read {E' A} P (f : ConversionSession → A) :
  keeps P (read (E:=E') f) (λ a s, P s ∧ a = f s).
Proof. apply hoare_gets. intros sw [? ?]. done. Qed.

Lemma keeps_update {E'} P (f : ConversionSession → ConversionSession) (Q : ConversionSession → Prop) :
  (∀ s w, session_inv (s, w) → P s → session_inv (f s, w)) → (∀ s, P s → Q (f s)) →
  keeps P (update (E:=E') f) (λ _, Q).
Proof.
  intros Hf HQ. apply hoare_modify. intros [s w] [Hinv HP]. split; [by apply Hf|by apply HQ].
Qed.

Lemma keeps_expect {E' A} P (m : option A) (φ : A → Prop) :
  (∃ a, m = Some a ∧ φ a) → keeps P (expect (E:=E') m) (λ a s, P s ∧ φ a).
Proof. intros (a & -> & Ha). eapply hoare_expect; [done|]. intros sw [? ?]. done. Qed.

Lemma keeps_raise {E' A} P (e : E') (Q : A → ConversionSession → Prop) : keeps P (raise e) Q.
Proof. apply hoare_raise. by intros sw [? ?]. Qed.

Lemma keeps_lift {E' A} P (m : outcome E' A) (φ : A → Prop) :
  safe m φ → keeps P (lift m) (λ a s, P s ∧ φ a).
Proof.
  intros Hm. apply hoare_lift; [|by intros sw [? ?]].
  intros sw [Hinv HP]. eapply safe_mono; [exact Hm|]. intros a Ha. done.
Qed.

(** A fact about the state, or no fact of it, before the operation *)
Lemma keeps_pre {E' A} (φ : Prop) (P : ConversionSession → Prop) (m : action state E' A) Q :
  (∀ s, P s → φ) → (φ → keeps P m Q) → keeps P m Q.
Proof. intros Hφ Hm sw [Hinv HP]. apply Hm; [by eapply Hφ|done]. Qed.

Lemma keeps_text {E' A} P ct (m : action state E' A) Q :
  (text_ok ct → keeps (λ s, P s ∧ ct = composing s) m Q) → keeps (λ s, P s ∧ ct = composing s) m Q.
Proof.
  intros Hm sw [Hinv [HP Hct]]. apply Hm; [|done]. rewrite Hct. apply Hinv.
Qed.

(** *** Editing *)

Lemma set_composing_inv s w ct : session_inv (s, w) → text_ok ct → session_inv (set_composing ct s, w).
Proof. intros Hinv Hct. quiet. Qed.

Lemma retain_inv s w : session_inv (s, w) → session_inv (retain_prediction_prefix s, w).
Proof. intros Hinv. unfold retain_prediction_prefix. case_match; [done|quiet]. Qed.

Lemma forget_results_inv s w : session_inv (s, w) → session_inv (forget_results s, w).
Proof. intros Hinv. unfold forget_results. quiet. Qed.

Lemma forget_context_inv s w : session_inv (s, w) → session_inv (forget_context s, w).
Proof. intros Hinv. unfold forget_context. case_match; [quiet|done]. Qed.

Lemma keeps_edit {E'} (P : ConversionSession → Prop) (f : ComposingText → option ComposingText)
    (Q : ComposingText → ConversionSession → Prop) :
  (∀ s, P s → text_ok (composing s) → ∃ ct, f (composing s) = Some ct ∧ text_ok ct ∧ Q ct s) →
  keeps P (edit (E:=E') f) (λ _ s, ∃ s0, P s0 ∧ s = set_composing (composing s) s0 ∧ Q (composing s) s0 ∧
                                         f (composing s0) = Some (composing s)).
Proof.
  intros Hf [s w] [Hinv HP]. destruct (Hf s HP (inv_text _ Hinv)) as (ct & Hct & Htext & HQ).
  unfold edit, read, update. unfold mbind, action_bind, gets, expect, lift, modify. cbn [fst snd].
  rewrite Hct. cbn. split; [by apply set_composing_inv|]. by exists s.
Qed.

Lemma keeps_insert_str {E'} text style : keeps any (insert_str (E:=E') tables text style) (λ _, any).
Proof using Hok Hsteady.
  eapply keeps_bind; [apply (keeps_edit any _ (λ _ _, True))|].
  - intros s _ Hct. destruct Hct as [Hwf Hset].
    destruct (insert_str_settled tables Hsteady (composing s) text style Hok Hwf Hset) as (ct & ? & ?). by exists ct.
  - intros []. apply keeps_update; [|done]. intros s w Hinv _. by apply forget_results_inv, retain_inv.
Qed.

Lemma keeps_insert_key {E'} intention typed modifiers style :
  keeps any (insert_key (E:=E') tables intention typed modifiers style) (λ _, any).
Proof using Hok Hsteady.
  eapply keeps_bind; [apply (keeps_edit any _ (λ _ _, True))|].
  - intros s _ [Hwf Hset].
    destruct (insert_settled tables Hsteady (composing s)
      [ {| piece := Key intention typed (list_to_set modifiers); input_style := style |} ] Hok Hwf Hset)
      as (ct & ? & ?); [done|right; by left|]. by exists ct.
  - intros []. apply keeps_update; [|done]. intros s w Hinv _. by apply forget_results_inv, retain_inv.
Qed.

Lemma keeps_separator {E'} style :
  keeps (λ s, surface (composing s) ≠ []) (insert_composition_separator (E:=E') tables style) (λ _, any).
Proof using Hok Hsteady.
  eapply keeps_bind; [apply keeps_read|]. intros ct. case_decide; [by apply keeps_ret|].
  eapply keeps_bind; [apply (keeps_edit _ _ (λ _ _, True))|].
  - intros s [Hne _] [Hwf Hset].
    destruct (insert_settled tables Hsteady (composing s) [ {| piece := CompositionSeparator; input_style := style |} ]
      Hok Hwf Hset) as (ct' & ? & ?); [done|by left|]. by exists ct'.
  - intros []. apply keeps_update; [|done]. intros s w Hinv _. by apply forget_results_inv.
Qed.

Lemma keeps_delete_backward {E'} count : keeps any (delete_backward (E:=E') tables count) (λ _, any).
Proof using Hok.
  eapply keeps_bind; [apply (keeps_edit any _ (λ _ _, True))|].
  - intros s _ [Hwf Hset]. destruct (delete_backward_ok tables Hok (composing s) count Hwf) as (ct & ? & ? & ? & ? & ?).
    exists ct. split_and!; auto. split; auto.
  - intros []. apply keeps_update; [|done]. intros s w Hinv _. by apply forget_context_inv, forget_results_inv, retain_inv.
Qed.

Lemma keeps_delete_forward {E'} count : keeps any (delete_forward (E:=E') tables count) (λ _, any).
Proof using Hok.
  eapply keeps_bind; [apply (keeps_edit any _ (λ _ _, True))|].
  - intros s _ [Hwf Hset]. destruct (delete_forward_ok tables Hok (composing s) count Hwf) as (ct & ? & ? & ? & ? & ?).
    exists ct. split_and!; auto. split; auto.
  - intros []. apply keeps_update; [|done]. intros s w Hinv _. by apply forget_context_inv, forget_results_inv, retain_inv.
Qed.

Lemma keeps_move_cursor {E'} count : keeps any (move_cursor (E:=E') count) (λ _, any).
Proof.
  intros [s w] [Hinv _]. pose proof (inv_text _ Hinv) as [Hwf Hset]. cbn [fst] in *.
  destruct (move_cursor_ok tables (composing s) count Hwf) as (ct & moved & Hm & Hwf' & Hi & Hs & _).
  unfold move_cursor, read, update. unfold mbind, action_bind, gets, expect, lift, modify. cbn [fst snd].
  rewrite Hm. cbn. split; [|done]. apply forget_results_inv, set_composing_inv; [done|].
  split; [done|]. unfold settled. by rewrite Hi, Hs.
Qed.

Lemma keeps_reset {E'} : keeps any (reset (E:=E')) (λ _, any).
Proof.
  apply keeps_update; [|done]. intros s w Hinv _.
  pose proof (composing_new_wf tables : text_ok (stop (composing s))) as Hnew.
  destruct Hinv. split; cbn in *; naive_solver.
Qed.

(** *** Segments *)

Lemma prefix_text_ok ct :
  text_ok ct → ∃ ct', prefix_to_cursor tables ct = Some ct' ∧ text_ok ct'.
Proof using Hok.
  intros [Hwf Hset]. destruct (prefix_to_cursor_ok tables Hok ct Hwf) as (ct' & Hp & Hwf' & Hs & _).
  exists ct'. split; [done|]. split; [done|]. intros E'. rewrite Hs in E'.
  unfold prefix_to_cursor in Hp. destruct (decide (cursor ct = 0)) as [E0|E0].
  - unfold force_input_cursor in Hp. rewrite E0, decide_True in Hp by done. cbn in Hp. by injection Hp as <-.
  - apply (f_equal length) in E'. rewrite length_take in E'. destruct Hwf as [_ Hc]. simpl in E'. lia.
Qed.

Lemma keeps_begin {E'} : keeps any (begin_segment_request (E:=E') tables) (λ _, any).
Proof using Hok.
  eapply keeps_bind; [apply keeps_read|]. intros full. eapply keeps_bind; [apply keeps_read|]. intros ct.
  destruct (_ || _); [by apply keeps_ret|]. apply keeps_text. intros Hct.
  eapply keeps_bind; [apply (keeps_expect _ _ text_ok); by apply prefix_text_ok|]. intros target. cbn beta.
  apply (keeps_pre (text_ok target)); [tauto|]. intros Ht.
  apply keeps_update; [|done]. intros s w Hinv _. apply retain_inv.
  destruct Hinv. split; cbn in *; naive_solver.
Qed.

Lemma keeps_end {E'} : keeps any (end_segment_request (E:=E')) (λ _, any).
Proof.
  eapply keeps_bind; [apply keeps_read|]. intros [full|]; [|by apply keeps_ret].
  apply keeps_update; [|done]. intros s w Hinv [_ Hfull]. pose proof (inv_full _ Hinv full (eq_sym Hfull)).
  destruct Hinv. split; cbn in *; naive_solver.
Qed.

(** *** Dictionaries and the learning memory *)

Lemma keeps_quiet {E'} (f : ConversionSession → ConversionSession) :
  (∀ s w, session_inv (s, w) → session_inv (f s, w)) → keeps any (update (E:=E') f) (λ _, any).
Proof. intros Hf. apply keeps_update; [|done]. intros s w Hinv _. by apply Hf. Qed.

Lemma keeps_import {E'} es ss : keeps any (import_dynamic_user_dictionary (E:=E') es ss) (λ _, any).
Proof. apply keeps_quiet. intros s w Hinv. quiet. Qed.

Lemma keeps_update_path `{Files} : keeps any update_user_dictionary_path (λ _, any).
Proof.
  eapply keeps_bind; [apply keeps_lift, open_user_dictionary_safe|]. intros d.
  apply keeps_update; [|done]. intros s w Hinv _. quiet.
Qed.

Lemma keeps_provider {E'} provider : keeps any (set_foreign_completion_provider_of (E:=E') provider) (λ _, any).
Proof. apply keeps_quiet. intros s w Hinv. quiet. Qed.

(** The memory of that name exists. *)
Definition has_memory (name : nat) (sw : state) : Prop := is_Some (memories sw.2 !! name).

Lemma hoare_on_memory {E' A} (P : ConversionSession → Prop) name
    (f : LearningState → option (LearningState * A)) (φ : A → Prop) :
  (∀ st, memory_inv st → ∃ st' a, f st = Some (st', a) ∧ memory_inv st' ∧ φ a) →
  hoare (λ sw, (session_inv sw ∧ P sw.1) ∧ has_memory name sw) (on_memory (E:=E') name f)
    (λ a sw, (session_inv sw ∧ P sw.1 ∧ φ a) ∧ has_memory name sw) session_inv.
Proof.
  intros Hf [s w] [[Hinv HP] [st Hst]]. cbn [fst snd] in *.
  destruct (Hf st (inv_memories _ Hinv _ _ Hst)) as (st' & a & Hfst & Hst' & Ha).
  unfold on_memory, mbind, action_bind, gets, expect, lift, modify, mret, action_ret. cbn [fst snd].
  rewrite Hst. cbn [panicking]. rewrite Hfst. cbn.
  split; [|unfold has_memory; cbn; by rewrite lookup_insert_eq]. split; [|done].
  destruct Hinv. split; cbn in *; try done.
  - by apply map_Forall_insert_2.
  - intros n Hn. rewrite lookup_insert_is_Some. destruct (decide (name = n)); [by left|right; auto].
Qed.

Lemma hoare_on_fallible_memory {A} (P : ConversionSession → Prop) name
    (f : LearningState → option (LearningState * result LearningError A)) :
  (∀ st, memory_inv st → ∃ st' a, f st = Some (st', a) ∧ memory_inv st') →
  hoare (λ sw, (session_inv sw ∧ P sw.1) ∧ has_memory name sw) (on_fallible_memory name f)
    (λ a sw, session_inv sw ∧ P sw.1) session_inv.
Proof.
  intros Hf. eapply hoare_bind; [apply (hoare_on_memory _ _ _ (λ _, True))|].
  - intros st Hst. destruct (Hf st Hst) as (st' & a & ? & ?). eauto.
  - intros [a|e]; [apply hoare_ret|apply hoare_raise]; by intros sw [[? [? _]] _].
Qed.

Lemma keeps_with_memory {E' A} (P : ConversionSession → Prop) (none : A) (f : nat → action state E' A) Q :
  (∀ s, P s → Q none s) →
  (∀ name, hoare (λ sw, (session_inv sw ∧ P sw.1) ∧ has_memory name sw) (f name)
             (λ a sw, session_inv sw ∧ Q a sw.1) session_inv) →
  keeps P (with_memory none f) Q.
Proof.
  intros Hnone Hf [s w] [Hinv HP]. cbn [fst] in HP.
  unfold with_memory, read, mbind, action_bind, gets. cbn [fst snd].
  destruct (learning_memory s) as [name|] eqn:Hname.
  - apply Hf. split; [done|]. by apply (inv_memory _ Hinv).
  - cbn. split; [done|by apply Hnone].
Qed.

Section day.
Context (t : Moment) (Hday : (memory_day t <= u16_max)%N).

Lemma refresh_ok st :
  memory_inv st → ∃ st' a, (st ← refresh_day (memory_day t) st; Some (st, ())) = Some (st', a) ∧ memory_inv st'.
Proof using Hday.
  intros Hst. destruct (refresh_day_inv (memory_day t) st Hday Hst) as (st' & -> & ? & _). by exists st', ().
Qed.

Lemma hoare_validate {E'} (P : ConversionSession → Prop) name :
  hoare (λ sw, (session_inv sw ∧ P sw.1) ∧ has_memory name sw) (validate (E:=E') t name)
    (λ _ sw, (session_inv sw ∧ P sw.1) ∧ has_memory name sw) session_inv.
Proof using Hday.
  eapply hoare_mono; [apply (hoare_on_memory P name _ (λ _, True))| |].
  - intros st Hst. destruct (refresh_ok st Hst) as (st' & a & ? & ?). eauto.
  - done.
  - intros a sw [[? [? _]] ?]. done.
Qed.

Lemma hoare_set_memory {E'} name :
  hoare (λ sw, session_inv sw ∧ has_memory name sw) (set_learning_memory_of (E:=E') t name)
    (λ _ sw, session_inv sw ∧ True) session_inv.
Proof using Hday.
  eapply hoare_bind.
  - eapply hoare_mono; [apply (hoare_validate any name)|by intros sw [? ?]|by intros a sw ?].
  - intros []. apply hoare_modify. intros [s w] [[Hinv _] Hname]. split; [|done].
    destruct Hinv. split; cbn in *; naive_solver.
Qed.

Lemma keeps_refresh {E'} : keeps any (refresh_learning (E:=E') t) (λ _, any).
Proof using Hday.
  eapply keeps_bind.
  - apply (keeps_with_memory any _ _ (λ _, any)); [done|]. intros name.
    eapply hoare_mono; [apply (hoare_validate any)|done|]. by intros a sw [[? ?] _].
  - intros []. apply keeps_quiet. intros s w Hinv. quiet.
Qed.

Lemma keeps_commit : keeps any (commit_learning t) (λ _, any).
Proof using Hday.
  eapply keeps_bind.
  - apply (keeps_with_memory any _ _ (λ _, any)); [done|]. intros name.
    apply hoare_on_fallible_memory. intros st Hst. by apply commit_inv.
  - intros committed. eapply (keeps_bind _ (λ _, any)).
    + destruct committed; [|by apply keeps_ret]. apply keeps_quiet. intros s w Hinv. quiet.
    + intros []. eapply keeps_bind; [apply keeps_refresh|]. intros []. by apply keeps_ret.
Qed.

Lemma keeps_forget c : keeps any (forget_learning t c) (λ _, any).
Proof using Hday.
  eapply keeps_bind; [apply keeps_quiet; intros s w Hinv; quiet|]. intros []. eapply keeps_bind.
  - apply (keeps_with_memory any _ _ (λ _, any)); [done|]. intros name.
    apply hoare_on_fallible_memory. intros st Hst. by apply forget_inv.
  - intros []. apply keeps_refresh.
Qed.

Lemma keeps_reset_learning : keeps any (reset_learning t) (λ _, any).
Proof using Hday.
  eapply keeps_bind; [apply keeps_quiet; intros s w Hinv; quiet|]. intros []. eapply keeps_bind.
  - apply (keeps_with_memory any _ _ (λ _, any)); [done|]. intros name.
    apply hoare_on_fallible_memory. intros st Hst. by apply reset_inv.
  - intros []. apply keeps_refresh.
Qed.

Lemma keeps_converter_memory P :
  keeps P (converter_memory (E:=E) t) (λ memory s, P s ∧ memory_lawful memory).
Proof using Hday Hseg.
  apply keeps_with_memory; [intros s HP; split; [done|apply no_memory_lawful]|]. intros name.
  eapply hoare_mono; [apply (hoare_on_memory P name _ memory_lawful)|done|].
  - intros st Hst. destruct (refresh_day_inv (memory_day t) st Hday Hst) as (st' & -> & Hinv & _).
    eexists _, _. split; [done|]. split; [done|]. intros m [= <-]. by apply memory_interface_lawful.
  - intros a sw [[? [? ?]] _]. done.
Qed.

(** *** Requests on a text without combining sequences *)

Definition simple_text (ct : ComposingText) : Prop :=
  plain (Kana.to_katakana (concat (surface ct))) ∧ length (concat (surface ct)) = length (surface ct).

Section text.
Context (ct : ComposingText) (Hct : text_ok ct) (Hsimple : simple_text ct).

(** The session holds this text. *)
Definition at_text (s : ConversionSession) : Prop := ct = composing s.

Lemma convert_safe memory mods n_best ctx :
  memory_lawful memory → safe (E:=E) (convert memory tables mods ct n_best ctx) (Forall splits).
Proof using Hok Hct Hsimple DictionaryLaws0 H1.
  intros Hm. destruct Hct as [Hwf _], Hsimple as [Hplain Hlen].
  pose proof (convert_ok tables ct Hok Hwf Hplain Hlen memory mods n_best ctx Hm) as Hsafe.
  destruct (convert _ _ _ _ _ _) as [cs|e|] eqn:Hc; [|done..]. by apply convert_splits in Hc.
Qed.

Lemma keeps_convert_session n_best typo c :
  keeps at_text (convert_session tables t n_best typo c) (λ cs s, at_text s ∧ Forall splits cs).
Proof using Hok Hct Hsimple Hday Hseg DictionaryLaws0 H1.
  eapply keeps_bind; [apply keeps_read|]. intros additional.
  eapply keeps_bind; [apply keeps_converter_memory|]. intros memory. cbn beta.
  apply (keeps_pre (memory_lawful memory)); [tauto|]. intros Hmemory.
  eapply keeps_bind; [apply keeps_read|]. intros ct'. eapply keeps_bind; [apply keeps_read|]. intros ctx.
  cbn beta. apply (keeps_pre (ct' = ct)); [unfold at_text; intros s; naive_solver|]. intros ->.
  eapply keeps_weaken; [apply (keeps_lift at_text)|unfold any, at_text; naive_solver|].
  - by apply convert_safe.
  - done.
Qed.

Lemma keeps_set_candidates {E'} P cs (Q : ConversionSession → Prop) :
  Forall splits cs → (∀ s, P s → Q (set_candidates cs s)) →
  keeps P (update (E:=E') (set_candidates cs)) (λ _, Q).
Proof. intros Hcs HQ. apply keeps_update; [|done]. intros s w Hinv _. quiet. Qed.

Lemma keeps_request_candidates n_best :
  keeps at_text (request_candidates tables t n_best) (λ _, any).
Proof using Hok Hct Hsimple Hday Hseg DictionaryLaws0 H1.
  eapply keeps_bind; [apply keeps_convert_session|]. intros converted. cbn beta.
  apply (keeps_pre (Forall splits converted)); [tauto|]. intros Hcs.
  eapply keeps_bind; [by apply (keeps_set_candidates _ _ any)|]. intros [].
  eapply keeps_bind; [apply keeps_expect, (first_clauses_total _ Hcs)|]. intros firsts. cbn beta.
  apply (keeps_pre (Forall splits firsts)); [tauto|]. intros Hfirsts.
  eapply keeps_bind; [|intros []; eapply keeps_weaken; [apply (keeps_read any)|done|done]].
  apply (keeps_update _ _ any); [|done]. intros s w Hinv _.
  assert (Forall splits (candidates s ++
    take 5 (sort_by by_ruby_count (unseen_texts (texts_of converted) firsts)))).
  { apply Forall_app_2; [apply Hinv|]. auto with session. }
  quiet.
Qed.

Lemma keeps_request_zenz_draft n_best c :
  keeps at_text (request_zenz_draft tables t n_best c) (λ _, any).
Proof using Hok Hct Hsimple Hday Hseg DictionaryLaws0 H1.
  eapply keeps_bind; [apply keeps_read|]. intros c'.
  eapply keeps_bind; [eapply keeps_weaken; [apply keeps_convert_session|by intros s [? _]|done]|].
  intros converted. cbn beta. apply (keeps_pre (Forall splits converted)); [tauto|]. intros Hcs.
  eapply keeps_bind; [by apply (keeps_set_candidates _ _ any)|]. intros [].
  eapply keeps_weaken; [apply (keeps_read any)|done|done].
Qed.

(** *** Predictions *)

Lemma compatible_splits cache source :
  Forall splits (stable_candidates cache) → Forall splits (compatible_candidates cache ct source).
Proof.
  intros Hc. unfold compatible_candidates. cbv zeta. case_match; [|done].
  assert (Hf : Forall splits (filter (λ c, is_compatible ct source c = true) (stable_candidates cache)))
    by (by apply Forall_filter_part).
  apply Forall_fmap. eapply Forall_impl; [exact Hf|].
  intros c Hs. unfold splits, first_clause_candidate in *. cbn. destruct (first_clause c); [|done].
  case_match; [by eexists|]. destruct Hs as [x Hx]. destruct (slice _ _ _); [|done].
  destruct (mapM _ _); [|done]. by eexists.
Qed.

Lemma merge_splits stable fresh prefix_text n :
  Forall splits stable → Forall splits fresh → Forall splits (merge_predictions stable fresh prefix_text n).
Proof. intros. unfold merge_predictions. cbv zeta. auto with session. Qed.

Lemma keeps_predictions n_best additional prefix_text :
  keeps at_text (predictions tables t n_best additional prefix_text)
    (λ cs s, at_text s ∧ Forall splits cs).
Proof using Hok Hct Hsimple Hday Hseg DictionaryLaws0 H1.
  unfold predictions. case_decide.
  { eapply keeps_bind; [apply (keeps_update _ _ at_text); [|done]; intros s w Hinv _; quiet|].
    intros []. by apply keeps_ret. }
  eapply keeps_bind; [apply keeps_read|]. intros ct'. cbn beta.
  apply (keeps_pre (ct' = ct)); [unfold at_text; intros s; naive_solver|]. intros ->.
  eapply keeps_weaken; [|by intros s [Hs _]; exact Hs|by intros a s Ha; exact Ha].
  intros [s w] [Hinv Hat]. pose proof (inv_stable _ Hinv) as Hstable. cbn [fst] in Hstable, Hat.
  set (source := predictive_input_source tables ct).
  set (stable := match stable_prediction_cache s with
                 | Some cache => compatible_candidates cache ct source | None => [] end).
  assert (Hs : Forall splits stable).
  { subst stable. destruct (stable_prediction_cache s) as [cache|]; [|done].
    by apply compatible_splits, Hstable. }
  apply (keeps_bind at_text (λ memory s, at_text s ∧ memory_lawful memory)
    (λ cs s, at_text s ∧ Forall splits cs) (converter_memory t)
    (λ memory, ctx ← read context; fresh ← lift (predict memory tables ct n_best ctx additional);
       let found := merge_predictions stable fresh prefix_text n_best in
       update (set_stable_prediction_cache
         (match found with [] => None
          | _ => Some {| stable_surface := surface_of ct; stable_suffix_count := dropped_suffix_count source;
                         stable_candidates := found |} end));; mret found)); [apply keeps_converter_memory| |done].
  intros memory. cbn beta. apply (keeps_pre (memory_lawful memory)); [tauto|]. intros Hmemory.
  eapply keeps_bind; [apply keeps_read|]. intros ctx.
  destruct Hct as [Hwf _], Hsimple as [Hplain Hlen].
  pose proof (predict_safe memory Hmemory tables ct Hok Hwf Hplain Hlen n_best ctx additional) as Hpredict.
  eapply keeps_bind; [eapply keeps_lift, Hpredict|]. intros fresh. cbn beta.
  match goal with |- keeps ?P _ _ => apply (keeps_pre (Forall splits fresh) P) end.
  { intros s' [_ [_ Hf]]. eapply Forall_impl; [exact Hf|]. intros c (_ & _ & _ & Hc).
    by apply no_first_clause_splits. }
  intros Hfresh. pose proof (merge_splits stable fresh prefix_text n_best Hs Hfresh) as Hfound.
  cbv zeta. set (found := merge_predictions _ _ _ _) in *.
  eapply keeps_bind; [apply (keeps_update _ _ at_text)|].
  - intros s' w' Hinv' _. destruct Hinv'. split; cbn in *; try done.
    intros cache Hc. destruct found; [done|]. by injection Hc as <-.
  - intros s' [[[Hat' _] _] _]. exact Hat'.
  - intros []. by apply keeps_ret.
Qed.

(** *** The assembled request *)

Lemma leading_splits options prefix_text katakana full shorts predicted foreign :
  Forall splits full → Forall splits shorts → Forall splits predicted → Forall splits foreign →
  Forall splits (leading_candidates options prefix_text katakana full shorts predicted foreign).
Proof.
  intros Hfull Hshorts Hpred Hforeign. unfold leading_candidates, ensure_reading. cbv zeta.
  match goal with |- context [take 5 (sort_by by_value (filter _ ?x))] =>
    assert (Hx : Forall splits x) by (repeat case_decide; auto 10 with session);
    generalize dependent x end. intros x Hx.
  assert (Hl : ∀ l, Forall splits l → ∀ c, splits c → ∀ n, Forall splits (take n l ++ c :: drop n l)).
  { intros l Hl' c Hc n. apply Forall_app_2; [auto with session|]. constructor; [done|auto with session]. }
  case_decide; [auto with session|]. destruct (list_find _ full) as [[i c]|] eqn:Hfind; [|auto with session].
  apply Hl; [auto 10 with session|]. apply list_find_Some in Hfind as (Hi & _ & _).
  rewrite Forall_forall in Hfull. by eapply Hfull, list_elem_of_lookup_2.
Qed.

Lemma main_splits prefix_text leading firsts words special :
  Forall splits leading → Forall splits firsts → Forall splits words → Forall splits special →
  Forall splits (main_candidates prefix_text leading firsts words special).
Proof. intros. unfold main_candidates, filter_unseen. cbv zeta. auto 20 with session. Qed.

Lemma keeps_prepare {E'} P prefix cs :
  Forall splits cs → keeps P (prepare (E:=E') t prefix cs) (λ ds s, P s ∧ Forall splits ds).
Proof.
  intros Hcs [s w] [Hinv HP]. unfold prepare. cbn [fst snd].
  pose proof (prepare_splits prefix (local_now t) cs (random w) Hcs) as Hds.
  destruct (prepare_all _ _ _ _) as [ds r]. split; [|done]. destruct Hinv. by split.
Qed.

Lemma keeps_predicted options additional override prefix_text :
  (∀ cs, override = Some cs → Forall splits cs) →
  keeps at_text (request_predicted tables t options additional override prefix_text)
    (λ cs s, at_text s ∧ Forall splits cs).
Proof using Hok Hct Hsimple Hday Hseg DictionaryLaws0 H1.
  intros Hover. unfold request_predicted. case_decide.
  - eapply keeps_bind; [apply (keeps_update _ _ at_text); [|done]; intros s w Hinv _; quiet|].
    intros []. by apply keeps_ret.
  - destruct override as [cs|]; [|apply keeps_predictions]. apply keeps_ret. intros s Hs. split; [done|auto].
Qed.

Lemma request_foreign_splits options s : Forall splits (request_foreign options s).
Proof.
  unfold request_foreign. case_decide; [done|]. case_match; [|done].
  eapply Forall_impl; [apply foreign_no_clause|]. intros c. apply no_first_clause_splits.
Qed.

Lemma no_clause_splits cs : Forall (λ c, first_clause c = None) cs → Forall splits cs.
Proof. intros Hcs. eapply Forall_impl; [exact Hcs|]. intros c. apply no_first_clause_splits. Qed.

Lemma keeps_assemble options full override prefix :
  Forall splits full → (∀ cs, override = Some cs → Forall splits cs) →
  keeps at_text (assemble_request to_uppercase tables t options full override prefix) (λ _, any).
Proof using Hok Hct Hsimple Hday Hseg DictionaryLaws0 H1.
  intros Hfull Hover. unfold assemble_request. cbv zeta.
  set (prefix_text := candidate_dictionary_text <$> prefix).
  assert (Hretained : Forall splits (filter (matches_prefix prefix_text) full)) by auto with session.
  eapply keeps_bind; [apply keeps_read|]. intros additional.
  eapply keeps_bind; [apply (keeps_expect _ _ (Forall splits))|].
  { unfold first_clause_list. destruct (first_clauses_total _ Hretained) as (firsts & -> & Hf).
    eexists. split; [done|]. auto with session. }
  intros firsts. cbn beta. match goal with |- keeps ?P _ _ => apply (keeps_pre (Forall splits firsts) P); [tauto|] end.
  intros Hfirsts. eapply keeps_bind.
  { eapply keeps_weaken; [by apply keeps_predicted|by intros s [[? _] _]|by intros a s Ha; exact Ha]. }
  intros predicted. cbn beta. apply (keeps_pre (Forall splits predicted)); [tauto|]. intros Hpred.
  eapply keeps_bind; [apply keeps_read|]. intros foreign. cbn beta.
  match goal with |- keeps ?P _ _ => apply (keeps_pre (Forall splits foreign) P) end.
  { intros s [_ ->]. apply request_foreign_splits. }
  intros Hforeign. eapply keeps_bind; [apply keeps_read|]. intros ct'. cbn beta.
  match goal with |- keeps ?P _ _ => apply (keeps_pre (ct' = ct) P) end.
  { unfold at_text. intros s. naive_solver. }
  intros ->. eapply keeps_bind; [apply keeps_read|]. intros shorts.
  eapply keeps_bind; [apply keeps_lift, word_candidates_safe|]. intros words. cbn beta.
  match goal with |- keeps ?P _ _ => apply (keeps_pre (Forall (λ c, first_clause c = None) words) P); [tauto|] end.
  intros Hwords. eapply keeps_bind; [apply keeps_expect, representations_no_clause|]. intros reps. cbn beta.
  match goal with |- keeps ?P _ _ => apply (keeps_pre (Forall (λ c, first_clause c = None) reps) P); [tauto|] end.
  intros Hreps. eapply keeps_bind; [apply keeps_expect, special_candidates_total|]. intros special. cbn beta.
  match goal with |- keeps ?P _ _ => apply (keeps_pre (Forall (λ c, first_clause c = None) special) P); [tauto|] end.
  intros Hspecial.
  match goal with |- context [main_candidates ?p ?l ?f ?w ?s] => set (main := main_candidates p l f w s) end.
  assert (Hmain : Forall splits main).
  { apply main_splits; [|done|apply no_clause_splits; by apply Forall_app_2|apply no_clause_splits].
    - apply leading_splits; auto with session. apply no_clause_splits, Forall_fmap, Forall_true. done.
    - apply Forall_app_2; [done|]. destruct (typography options); [apply typographical_no_clause|done]. }
  eapply keeps_bind; [by apply keeps_prepare|]. intros prepared. cbn beta.
  match goal with |- keeps ?P _ _ => apply (keeps_pre (Forall splits prepared) P); [tauto|] end.
  intros Hprepared. eapply keeps_bind; [apply keeps_prepare; auto with session|]. intros predicted'.
  eapply keeps_bind; [by apply keeps_prepare|]. intros firsts'.
  eapply keeps_bind; [by apply (keeps_set_candidates _ _ any)|]. intros []. by apply keeps_ret.
Qed.

Lemma keeps_request options :
  keeps at_text (request to_uppercase tables t options) (λ _, any).
Proof using Hok Hct Hsimple Hday Hseg DictionaryLaws0 H1.
  eapply keeps_bind; [apply keeps_convert_session|]. intros full. cbn beta.
  apply (keeps_pre (Forall splits full)); [tauto|]. intros Hfull.
  eapply keeps_weaken; [by apply (keeps_assemble options full None None Hfull)|by intros s [? _]|done].
Qed.

Lemma order_leading_splits full : Forall splits full → Forall splits (order_leading_values full).
Proof.
  intros Hfull. unfold order_leading_values. cbv zeta. apply Forall_app_2; [|auto with session].
  generalize (sort_by (λ l r, total_cmp r l) (cand_value <$> take 5 full)) as values.
  assert (H5 : Forall splits (take 5 full)) by auto with session. revert H5. generalize (take 5 full) as l.
  induction l as [|c l IH]; intros Hl [|v values]; cbn; try constructor; inversion Hl; subst; [|by apply IH].
  unfold splits, first_clause_candidate in *. cbn. destruct (first_clause c); [|done].
  case_match; [by eexists|]. match goal with Hs : is_Some _ |- _ => destruct Hs as [x Hx] end.
  destruct (slice _ _ _); [|done]. destruct (mapM _ _); [|done]. by eexists.
Qed.

Lemma keeps_finalize options override :
  (∀ cs, override = Some cs → Forall splits cs) →
  keeps at_text (finalize_zenz_request_with_prediction_override to_uppercase tables t options override)
    (λ _, any).
Proof using Hok Hct Hsimple Hday Hseg DictionaryLaws0 H1.
  intros Hover [s w] [Hinv Hat]. pose proof (order_leading_splits _ (inv_candidates _ Hinv)) as Hfull.
  cbn [fst] in Hat, Hfull.
  assert (Hk : keeps at_text
    (update (set_candidates []);; prefix ← read current_prediction;
     assemble_request to_uppercase tables t options (order_leading_values (candidates s)) override prefix)
    (λ _, any)); [|by apply (Hk (s, w))].
  eapply keeps_bind; [apply (keeps_set_candidates _ _ at_text); [done|by intros s' ?]|]. intros [].
  eapply keeps_bind; [apply keeps_read|]. intros prefix.
  eapply keeps_weaken; [by apply keeps_assemble|by intros s' [? _]|done].
Qed.
End text.

(** *** Selection *)

(** What the selection of a candidate makes of the session and the world *)
Definition selected (c : Candidate) (ct : ComposingText) (s : ConversionSession) : ConversionSession :=
  let s := set_accepted_prediction None (set_composing ct s) in
  let s := match last (entries c) with
           | Some e => set_context {| context_right_id := right_id e;
                                      context_meaning_id := last_meaning_id c |} s
           | None => s
           end in
  let s := set_last_committed (Some c) (set_candidates [] s) in
  if is_empty ct
  then set_zenz_prediction_cache None (set_stable_prediction_cache None
         (set_context default_context (set_composing composing_new s)))
  else s.

Definition learned_world (c : Candidate) (s : ConversionSession) (w : World) : option World :=
  if is_learning_target c then
    match learning_memory s with
    | Some name =>
        st ← memories w !! name;
        st ← learn (memory_day t) st c;
        Some {| memories := <[name := st]> (memories w); random := random w |}
    | None => Some w
    end
  else Some w.

Lemma select_runs {E'} c s w ct w' :
  complete_prefix tables (composing s) (composing_count c) = Some ct → learned_world c s w = Some w' →
  select_candidate_value (E:=E') tables t c (s, w) = ((selected c ct s, w'), Return (text c)).
Proof.
  intros Hct Hw. unfold select_candidate_value, edit, update, with_memory, on_memory, read.
  unfold mbind, action_bind, gets, expect, lift, modify, mret, action_ret. cbn [fst snd].
  rewrite Hct. cbn. unfold learned_world in Hw. unfold selected.
  destruct (last (entries c)) as [e|]; cbn; destruct (is_learning_target c); cbn;
    try destruct (learning_memory s) as [name|]; cbn in *;
    try destruct (memories w !! name) as [st|]; cbn in *; try done;
    try destruct (learn (memory_day t) st c) as [st'|]; cbn in *; try done;
    injection Hw as <-; by destruct (is_empty ct).
Qed.

(** The composing text can be completed by the count: a surface count always can;
    an input count when what is left does not show more than the whole text. *)
Fixpoint count_fits (ct : ComposingText) (count : ComposingCount) : Prop :=
  match count with
  | CInput n => ∃ c, convert_elements tables (drop n (input ct)) = Some c ∧ length c ≤ length (surface ct)
  | CSurface _ => True
  | CComposite l r => count_fits ct l ∧ ∀ ct', complete_prefix tables ct l = Some ct' → count_fits ct' r
  end.

Lemma complete_fits ct count :
  wf tables ct → count_fits ct count → ∃ ct', complete_prefix tables ct count = Some ct' ∧ wf tables ct'.
Proof using Hok.
  revert ct. induction count as [n|n|l IHl r IHr]; intros ct Hwf; cbn [count_fits].
  - intros (c & Hc & Hlen). destruct (complete_input_ok tables ct n c Hwf Hc Hlen) as (ct' & ? & ? & _). eauto.
  - intros _. destruct (complete_surface_ok tables Hok ct n Hwf) as (ct' & ? & ? & _). eauto.
  - intros [Hl Hr]. destruct (IHl ct Hwf Hl) as (ct1 & Hc1 & Hwf1).
    destruct (IHr ct1 Hwf1 (Hr ct1 Hc1)) as (ct2 & Hc2 & Hwf2). exists ct2. cbn [complete_prefix].
    by rewrite Hc1.
Qed.

Lemma learned_world_ok c s w :
  session_inv (s, w) → ∃ w', learned_world c s w = Some w' ∧ session_inv (s, w').
Proof using Hday Hseg.
  intros Hinv. unfold learned_world. destruct (is_learning_target c); [|by exists w].
  destruct (learning_memory s) as [name|] eqn:Hname; [|by exists w].
  destruct (inv_memory _ Hinv name Hname) as [st Hst]. cbn [snd] in Hst. rewrite Hst. cbn.
  destruct (learn_inv (memory_day t) st c Hday (inv_memories _ Hinv _ _ Hst)) as (st' & -> & Hst').
  cbn. eexists. split; [done|]. destruct Hinv. split; cbn in *; try done.
  - by apply map_Forall_insert_2.
  - intros n Hn. rewrite lookup_insert_is_Some. destruct (decide (name = n)); [by left|right; auto].
Qed.

Lemma selected_inv c ct s w : session_inv (s, w) → wf tables ct → session_inv (selected c ct s, w).
Proof.
  intros Hinv Hwf. pose proof (composing_new_wf tables : text_ok composing_new) as Hnew.
  assert (Hs : settled ct ∨ is_empty ct = true).
  { unfold is_empty. destruct (decide (surface ct = [])); [right; by apply bool_decide_eq_true|].
    left. by intros ?. }
  unfold selected. destruct (is_empty ct) eqn:Hempty.
  - destruct (last (entries c)); destruct Hinv; split; cbn in *; naive_solver.
  - destruct Hs as [Hs|]; [|done]. assert (Hct : text_ok ct) by done.
    destruct (last (entries c)); destruct Hinv; split; cbn in *; naive_solver.
Qed.

Lemma keeps_select_value {E'} c :
  keeps (λ s, count_fits (composing s) (composing_count c)) (select_candidate_value (E:=E') tables t c) (λ _, any).
Proof using Hok Hday Hseg.
  intros [s w] [Hinv Hfits]. cbn [fst] in Hfits.
  destruct (complete_fits (composing s) (composing_count c)) as (ct & Hct & Hwf);
    [apply (inv_text _ Hinv)|done|].
  destruct (learned_world_ok c s w Hinv) as (w' & Hw & Hinv').
  rewrite (select_runs c s w ct w' Hct Hw). split; [|done]. by apply selected_inv.
Qed.

Lemma keeps_select index :
  keeps (λ s, ∀ c, candidates s !! index = Some c → count_fits (composing s) (composing_count c))
    (select_candidate tables t index) (λ _, any).
Proof using Hok Hday Hseg.
  intros [s w] [Hinv Hfits]. unfold select_candidate, read, or_raise. unfold mbind, action_bind, gets.
  cbn [fst snd] in *. destruct (candidates s !! index) as [c|] eqn:Hc.
  - cbn. apply (keeps_select_value c (s, w)). split; [done|]. by apply Hfits.
  - cbn. done.
Qed.
End day.

(** *** Accepting a prediction *)

Lemma keeps_accept {E'} c : keeps any (accept_prediction_candidate (E:=E') tables c) (λ _, any).
Proof using Hok Hsteady to_uppercase.
  eapply keeps_bind; [apply keeps_read|]. intros ct. destruct (_ || _); [by apply keeps_ret|]. cbv zeta.
  destruct (TextUtil.strip_prefix _ _) as [[|x remaining]|]; [by apply keeps_ret| |by apply keeps_ret].
  eapply (keeps_bind _ (λ _, any)).
  - case_decide; [|by apply keeps_ret].
    eapply keeps_weaken; [apply (keeps_edit any _ (λ _ _, True))|done|done].
    intros s _ [Hwf Hset].
    destruct (delete_backward_ok tables Hok (composing s) (dropped_suffix_count (predictive_input_source tables ct)) Hwf)
      as (ct' & ? & ? & ? & ? & ?). exists ct'. split_and!; auto. split; auto.
  - intros []. eapply keeps_bind; [apply (keeps_edit any _ (λ _ _, True))|].
    + intros s _ [Hwf Hset].
      destruct (insert_str_settled tables Hsteady (composing s) (x :: remaining) Direct Hok Hwf Hset) as (ct' & ? & ?).
      by exists ct'.
    + intros []. eapply (keeps_bind _ (λ _, any)); [|intros []; by apply keeps_ret].
      apply keeps_update; [|done]. intros s w Hinv _. apply forget_results_inv in Hinv. quiet.
Qed.
End invariant.
