(* ===== verification/SessionProperties.v ===== *)
(** * What the sessions promise

    Safety of every sequence of operations, and what the operations do: accepting
    and merging predictions, assembling a request, selecting a candidate. *)

From S2P Require Import Prelude Unicode Collections F32 Constraint InputTable DefaultTables Composing ComposingSpec Dictionary LatticeIndex Lattice LatticeSpec Prediction PredictionSpec TextUtil Special Template PostPrediction LearningRecords LearningRecordsSpec LearningFiles LearningMemory LearningMemorySpec LearningProperties Action DictionaryStore UserDictionary Foreign SessionState Session SessionSpec SessionInvariant.

(** ** Operations *)

Inductive session_op `{Chrono} :=
  | OpInsert (text : ustring) (style : InputStyle)
  | OpKey (intention : option ustring) (typed : ustring) (modifiers : list InputModifier) (style : InputStyle)
  | OpSeparator (style : InputStyle)
  | OpBackspace (count : nat)
  | OpDelete (count : nat)
  | OpMove (count : Z)
  | OpReset
  | OpBeginSegment
  | OpEndSegment
  | OpImport (entries shortcuts : list DictionaryEntry)
  | OpProvider (provider : ForeignCompletionProvider)
  | OpMemory (t : Moment) (name : nat)
  | OpRefresh (t : Moment)
  | OpCommit (t : Moment)
  | OpForget (t : Moment) (c : Candidate)
  | OpResetLearning (t : Moment)
  | OpAccept (c : Candidate)
  | OpCandidates (t : Moment) (n_best : nat)
  | OpRequest (t : Moment) (options : RequestOptions)
  | OpPredictions (t : Moment) (n_best : nat)
  | OpDraft (t : Moment) (n_best : nat) (c : PrefixConstraint)
  | OpFinalize (t : Moment) (options : RequestOptions) (prediction_override : option (list Candidate))
  | OpSelect (t : Moment) (index : nat)
  | OpSelectValue (t : Moment) (c : Candidate).

Section safety.
Context `{Segmentation} `{Hseg : !SegmentationLaws} `{!IterationOrder} `{!IterationOrderLaws}.
Context `{Chrono} `{Icu} `{Rng} {E : Type} `{!Dictionary E} `{!DictionaryLaws E}.
Context (to_uppercase : ustring → ustring) (tables : InputTableRegistry).

#[local] Notation state := (ConversionSession * World)%type.

(** The operation without its result *)
Definition quietly {E' A} (m : action state E' A) : action state () () :=
  map_error (λ _, ()) (m ≫= λ _, mret ()).

Definition run_op (o : session_op) : action state () () :=
  match o with
  | OpInsert text style => quietly (E':=()) (insert_str tables text style)
  | OpKey intention typed modifiers style => quietly (E':=()) (insert_key tables intention typed modifiers style)
  | OpSeparator style => quietly (E':=()) (insert_composition_separator tables style)
  | OpBackspace n => quietly (E':=()) (delete_backward tables n)
  | OpDelete n => quietly (E':=()) (delete_forward tables n)
  | OpMove z => quietly (E':=()) (move_cursor z)
  | OpReset => quietly (E':=()) reset
  | OpBeginSegment => quietly (E':=()) (begin_segment_request tables)
  | OpEndSegment => quietly (E':=()) end_segment_request
  | OpImport es ss => quietly (E':=()) (import_dynamic_user_dictionary es ss)
  | OpProvider provider => quietly (E':=()) (set_foreign_completion_provider_of provider)
  | OpMemory t name => quietly (E':=()) (set_learning_memory_of t name)
  | OpRefresh t => quietly (E':=()) (refresh_learning t)
  | OpCommit t => quietly (commit_learning t)
  | OpForget t c => quietly (forget_learning t c)
  | OpResetLearning t => quietly (reset_learning t)
  | OpAccept c => quietly (E':=()) (accept_prediction_candidate tables c)
  | OpCandidates t n => quietly (E':=E) (request_candidates tables t n)
  | OpRequest t options => quietly (E':=E) (request to_uppercase tables t options)
  | OpPredictions t n => quietly (E':=E) (request_predictions tables t n)
  | OpDraft t n c => quietly (E':=E) (request_zenz_draft tables t n c)
  | OpFinalize t options override =>
      quietly (E':=E) (finalize_zenz_request_with_prediction_override to_uppercase tables t options override)
  | OpSelect t index => quietly (select_candidate tables t index)
  | OpSelectValue t c => quietly (E':=()) (select_candidate_value tables t c)
  end.

Definition valid_day (t : Moment) : Prop := (memory_day t <= u16_max)%N.

(** When an operation may be used: the dates fit their 16 bits, a separator follows
    some text, a memory exists, requests are for texts without combining
    sequences, and the count of a selected candidate fits the text. *)
Definition allowed (sw : state) (o : session_op) : Prop :=
  match o with
  | OpSeparator _ => surface (composing sw.1) ≠ []
  | OpMemory t name => valid_day t ∧ has_memory name sw
  | OpRefresh t | OpCommit t | OpForget t _ | OpResetLearning t => valid_day t
  | OpCandidates t _ | OpRequest t _ | OpPredictions t _ | OpDraft t _ _ =>
      valid_day t ∧ simple_text (composing sw.1)
  | OpFinalize t _ override =>
      valid_day t ∧ simple_text (composing sw.1) ∧ (∀ cs, override = Some cs → Forall splits cs)
  | OpSelect t index =>
      valid_day t ∧ ∀ c, candidates sw.1 !! index = Some c → count_fits tables (composing sw.1) (composing_count c)
  | OpSelectValue t c => valid_day t ∧ count_fits tables (composing sw.1) (composing_count c)
  | _ => True
  end.

(** The states that sequences of allowed operations reach from a new session in a
    world of sound memories. *)
Inductive reachable : state → Prop :=
  | reachable_new w : map_Forall (λ _ st, memory_inv st) (memories w) → reachable (session_new, w)
  | reachable_step sw o : reachable sw → allowed sw o → reachable (run_op o sw).1.

Context (Hok : registry_ok tables) (Hsteady : registry_steady tables).

Lemma quietly_safe {E' A} (P : state → Prop) (m : action state E' A) (Q : A → state → Prop) sw :
  hoare P m Q (session_inv tables) → (∀ a sw, Q a sw → session_inv tables sw) → P sw →
  session_inv tables (quietly m sw).1 ∧ (quietly m sw).2 ≠ Panic.
Proof.
  intros Hm HQ HP. specialize (Hm sw HP). unfold quietly, map_error, mbind, action_bind.
  destruct (m sw) as [sw' [a|e|]]; [|done..]. cbn. split; [by eapply HQ|done].
Qed.

Lemma op_safe sw o :
  session_inv tables sw → allowed sw o →
  session_inv tables (run_op o sw).1 ∧ (run_op o sw).2 ≠ Panic.
Proof using Hok Hsteady Hseg DictionaryLaws0 H1.
  intros Hinv Ho.
  assert (Hkeeps : ∀ E' A (P : ConversionSession → Prop) (m : action state E' A) (Q : A → ConversionSession → Prop),
    keeps tables P m Q → P sw.1 → session_inv tables (quietly m sw).1 ∧ (quietly m sw).2 ≠ Panic).
  { intros E' A P m Q Hm HP. eapply quietly_safe; [exact Hm|by intros a s [? _]|done]. }
  assert (Htext : text_ok tables (composing sw.1)) by apply Hinv.
  destruct o; cbn [run_op allowed] in *; try destruct Ho as [Hday Ho];
    try (eapply (Hkeeps _ _ any); [solve [eauto using keeps_insert_str, keeps_insert_key,
      keeps_delete_backward, keeps_delete_forward, keeps_move_cursor, keeps_reset, keeps_begin, keeps_end,
      keeps_import, keeps_provider, keeps_refresh, keeps_commit, keeps_forget, keeps_reset_learning,
      keeps_accept]|exact I]).
  - eapply Hkeeps; [by apply keeps_separator|done].
  - eapply quietly_safe; [by apply hoare_set_memory|by intros a s [? _]|done].
  - eapply Hkeeps; [by apply (keeps_request_candidates _ Hok _ Hday (composing sw.1))|done].
  - eapply Hkeeps; [by apply (keeps_request _ _ Hok _ Hday (composing sw.1))|done].
  - eapply (Hkeeps _ _ (at_text (composing sw.1)) _ (λ _, any)); [|done].
    eapply keeps_bind; [apply keeps_read|]. intros additional.
    eapply keeps_weaken; [by apply (keeps_predictions _ Hok _ Hday (composing sw.1))|by intros s [? _]|done].
  - eapply Hkeeps; [by apply (keeps_request_zenz_draft _ Hok _ Hday (composing sw.1))|done].
  - destruct Ho as [Hsimple Hover].
    eapply Hkeeps; [by apply (keeps_finalize _ _ Hok _ Hday (composing sw.1))|done].
  - eapply Hkeeps; [by apply keeps_select|exact Ho].
  - eapply Hkeeps; [by apply keeps_select_value|exact Ho].
Qed.

Lemma session_new_inv w : map_Forall (λ _ st, memory_inv st) (memories w) → session_inv tables (session_new, w).
Proof.
  intros Hw. pose proof (composing_new_wf tables : text_ok tables composing_new).
  by split; cbn.
Qed.

Lemma reachable_inv sw : reachable sw → session_inv tables sw.
Proof using Hok Hsteady Hseg DictionaryLaws0 H1.
  induction 1 as [w Hw|sw o _ IH Ho]; [by apply session_new_inv|]. by apply op_safe.
Qed.
End safety.

(** C4. Sessions are safe: whatever allowed operations a session goes through, in any
    order, over a world of learning memories that may fail to be saved, its
    composing text stays the conversion of its input with the cursor inside it, an
    empty surface has no input left behind it, the memories stay sound, and no
    allowed operation panics. *)
Theorem session_never_panics `{Segmentation} `{!SegmentationLaws} `{!IterationOrder} `{!IterationOrderLaws}
    `{Chrono} `{Icu} `{Rng} {E} `{!Dictionary E} `{!DictionaryLaws E} to_uppercase tables sw :
  registry_ok tables → registry_steady tables → reachable (E:=E) to_uppercase tables sw →
  convert_elements tables (input (composing sw.1)) = Some (surface (composing sw.1)) ∧
  cursor (composing sw.1) ≤ length (surface (composing sw.1)) ∧
  (surface (composing sw.1) = [] → input (composing sw.1) = []) ∧
  map_Forall (λ _ st, memory_inv st) (memories sw.2) ∧
  ∀ o, allowed tables sw o → (run_op (E:=E) to_uppercase tables o sw).2 ≠ Panic.
Proof.
  intros Hok Hsteady Hsw. pose proof (reachable_inv to_uppercase tables Hok Hsteady sw Hsw) as Hinv.
  destruct (inv_text _ _ Hinv) as [[Hc Hcur] Hset].
  split_and!; [done|done|done|apply Hinv|]. intros o Ho. by apply op_safe.
Qed.

(** ** Accepting a prediction *)

Section accept.
Context `{Segmentation} `{Hseg : !SegmentationLaws} `{Chrono} `{Rng}.
Context (tables : InputTableRegistry) (Hok : registry_ok tables).

Lemma hiragana_twice x : Kana.to_hiragana (Kana.to_hiragana x) = Kana.to_hiragana x.
Proof.
  rewrite <- (Kana.hiragana_of_katakana (Kana.to_hiragana x)), Kana.katakana_of_hiragana.
  apply Kana.hiragana_of_katakana.
Qed.

Definition single_characters (ct : ComposingText) : Prop := Forall (λ g, length g = 1) (surface ct).

Lemma concat_take_single (gs : list Grapheme) n :
  Forall (λ g, length g = 1) gs → concat (take n gs) = take n (concat gs).
Proof.
  intros Hgs. revert n. induction Hgs as [|g gs Hg _ IH]; intros [|n]; try done.
  destruct g as [|c [|]]; try done. cbn. f_equal. apply IH.
Qed.

Lemma length_concat_single (gs : list Grapheme) :
  Forall (λ g, length g = 1) gs → length (concat gs) = length gs.
Proof. induction 1 as [|g gs Hg _ IH]; [done|]. cbn. rewrite length_app, IH, Hg. done. Qed.

Lemma count_while_le {A} (p : A → bool) l : count_while p l ≤ length l.
Proof. induction l as [|x l IH]; cbn; [done|]. destruct (p x); lia. Qed.

(** The text without the romaji that is dropped *)
Lemma source_base ct :
  let source := predictive_input_source tables ct in
  dropped_suffix_count source ≤ length (surface_of ct) ∧
  base_surface source = take (length (surface_of ct) - dropped_suffix_count source) (surface_of ct).
Proof.
  intros source. subst source. unfold predictive_input_source.
  assert (Hwhole : 0 ≤ length (surface_of ct) ∧
    surface_of ct = take (length (surface_of ct) - 0) (surface_of ct)).
  { split; [lia|]. by rewrite Nat.sub_0_r, firstn_all. }
  destruct (last (input ct)) as [e|]; [|exact Hwhole]. case_decide; [exact Hwhole|]. cbv zeta.
  pose proof (count_while_le is_ascii_alphabetic (reverse (surface_of ct))) as Hle.
  rewrite length_reverse in Hle. case_match; [exact Hwhole|].
  case_match; [exact Hwhole|]. by split.
Qed.

Lemma delete_then_insert ct dropped remaining :
  text_ok tables ct → is_at_end ct = true → dropped ≤ length (surface ct) →
  ∃ ct1 ct2, (if decide (0 < dropped) then Composing.delete_backward tables ct dropped else Some ct) = Some ct1 ∧
    Composing.insert_str tables ct1 remaining Direct = Some ct2 ∧ wf tables ct2 ∧ is_at_end ct2 = true ∧
    surface_of ct2 = concat (take (length (surface ct) - dropped) (surface ct)) ++ remaining.
Proof using Hok Hseg.
  intros [Hwf Hset] Hend%Nat.eqb_eq Hd.
  assert (∃ ct1, (if decide (0 < dropped) then Composing.delete_backward tables ct dropped else Some ct) = Some ct1 ∧
    wf tables ct1 ∧ settled ct1 ∧ cursor ct1 = length (surface ct1) ∧
    surface ct1 = take (length (surface ct) - dropped) (surface ct)) as (ct1 & -> & Hwf1 & Hset1 & Hend1 & Hs1).
  { case_decide.
    - destruct (delete_backward_ok tables Hok ct dropped Hwf) as (ct1 & -> & Hwf1 & Hc1 & Hs1 & Hset1).
      exists ct1. cbv zeta in Hc1, Hs1. rewrite Hend in Hc1, Hs1. rewrite Nat.min_l in Hc1, Hs1 by done.
      rewrite drop_ge, app_nil_r in Hs1 by done. split_and!; auto.
      rewrite Hc1, Hs1, length_take. lia.
    - exists ct. assert (dropped = 0) as -> by lia. rewrite Nat.sub_0_r, firstn_all. by split_and!. }
  destruct (insert_str_direct tables ct1 remaining Hok Hwf1) as (ct2 & Hins & Hwf2 & Hs2 & Hc2).
  { destruct (decide (surface ct1 = [])); [right; auto|by left]. }
  exists ct1, ct2. split_and!; [done|done|done| |].
  - unfold is_at_end. apply Nat.eqb_eq. rewrite Hc2, Hs2, Hend1, firstn_all, drop_all, app_nil_r, length_app. done.
  - unfold surface_of. rewrite Hs2, Hend1, firstn_all, drop_all, app_nil_r, concat_app, graphemes_concat, Hs1. done.
Qed.

(** The session after the acceptance of [c], with the completed text [ct] *)
Definition accepting (c : Candidate) (ct : ComposingText) (s : ConversionSession) : ConversionSession :=
  set_accepted_prediction (Some c) (set_zenz_prediction_cache None
    (set_stable_prediction_cache None (forget_results (set_composing ct s)))).

Lemma set_composing_twice a b s : set_composing a (set_composing b s) = set_composing a s.
Proof. done. Qed.

Lemma accept_runs {E'} c s w remaining ct1 ct2 :
  is_empty (composing s) = false → is_at_end (composing s) = true → remaining ≠ [] →
  let source := predictive_input_source tables (composing s) in
  TextUtil.strip_prefix (Kana.to_hiragana (base_surface source)) (Kana.to_hiragana (candidate_reading c))
    = Some remaining →
  (if decide (0 < dropped_suffix_count source)
   then Composing.delete_backward tables (composing s) (dropped_suffix_count source)
   else Some (composing s)) = Some ct1 →
  Composing.insert_str tables ct1 remaining Direct = Some ct2 →
  accept_prediction_candidate (E:=E') tables c (s, w) = ((accepting c ct2 s, w), Return true).
Proof.
  intros Hempty Hend Hne source Hstrip Hct1 Hct2.
  unfold accept_prediction_candidate, read. unfold mbind, action_bind, gets. cbn [fst snd].
  rewrite Hempty, Hend. cbn [orb negb]. cbv zeta. fold source. rewrite Hstrip.
  destruct remaining as [|x remaining]; [done|].
  unfold edit, update, read, mbind, action_bind, gets, expect, lift, modify, mret, action_ret.
  case_decide; cbn [fst snd].
  - rewrite Hct1. cbn. by rewrite Hct2.
  - injection Hct1 as <-. cbn. by rewrite Hct2.
Qed.
End accept.

(** C13. Accepting a prediction, in a session whose text has clusters of single characters,
    completes its reading and nothing else: when the operation answers true, the cursor was at the end of a text that the reading
    of the candidate continues; the session now holds the text without its
    unfinished romaji followed by the rest of the reading, which reads as the
    candidate does, with the cursor at its end; the candidates and the prediction
    caches are gone; and a candidate that reads in katakana stays the current
    prediction. When it answers false nothing has changed. It has no other answer. *)
Theorem accept_completes_reading `{Segmentation} `{!SegmentationLaws} `{Chrono} `{Rng} tables
    (s : ConversionSession) (w : World) c :
  registry_ok tables → text_ok tables (composing s) → single_characters (composing s) →
  accept_prediction_candidate (E:=()) tables c (s, w) = ((s, w), Return false) ∨
  ∃ ct rest, accept_prediction_candidate (E:=()) tables c (s, w) = ((accepting c ct s, w), Return true) ∧
    is_at_end (composing s) = true ∧ wf tables ct ∧ is_at_end ct = true ∧ rest ≠ [] ∧
    surface_of ct = base_surface (predictive_input_source tables (composing s)) ++ rest ∧
    Kana.to_hiragana (surface_of ct) = Kana.to_hiragana (candidate_reading c) ∧
    (Kana.to_katakana (candidate_reading c) = candidate_reading c →
     current_prediction (accepting c ct s) = Some c).
Proof.
  intros Hok Htext Hsingle. set (source := predictive_input_source tables (composing s)).
  destruct (is_empty (composing s) || negb (is_at_end (composing s))) eqn:Hguard.
  { left. unfold accept_prediction_candidate, read, mbind, action_bind, gets. cbn [fst snd]. by rewrite Hguard. }
  destruct (TextUtil.strip_prefix (Kana.to_hiragana (base_surface source))
              (Kana.to_hiragana (candidate_reading c))) as [[|x remaining]|] eqn:Hstrip.
  1, 3: left; unfold accept_prediction_candidate, read, mbind, action_bind, gets; cbn [fst snd];
    rewrite Hguard; cbv zeta; fold source; by rewrite Hstrip.
  right. set (rest := x :: remaining) in *.
  apply orb_false_iff in Hguard as [Hempty Hend%negb_false_iff].
  destruct (source_base tables (composing s)) as [Hle Hbase]. fold source in Hle, Hbase.
  assert (Hlen : length (surface_of (composing s)) = length (surface (composing s)))
    by (by apply length_concat_single).
  destruct (delete_then_insert tables Hok (composing s) (dropped_suffix_count source) rest)
    as (ct1 & ct2 & Hct1 & Hct2 & Hwf & Hend2 & Hs); [done..|lia|].
  rewrite concat_take_single in Hs by done. rewrite <- Hlen in Hs. fold (surface_of (composing s)) in Hs.
  exists ct2, rest.
  assert (Hread : Kana.to_hiragana (surface_of ct2) = Kana.to_hiragana (candidate_reading c)).
  { apply strip_prefix_Some in Hstrip. rewrite Hs, <- Hbase.
    rewrite <- (hiragana_twice (candidate_reading c)), Hstrip.
    unfold Kana.to_hiragana. rewrite !fmap_app. f_equal. symmetry. apply hiragana_twice. }
  split_and!; [by apply (accept_runs tables c s w rest ct1)|done|done|done|done|by rewrite Hs, Hbase|done|].
  intros Hkatakana. unfold current_prediction, accepting. cbn.
  assert (Hk : Kana.to_katakana (surface_of ct2) = candidate_reading c).
  { by rewrite <- Kana.katakana_of_hiragana, Hread, Kana.katakana_of_hiragana. }
  rewrite Hk. unfold TextUtil.starts_with. by rewrite bool_decide_eq_true_2.
Qed.

(** ** Selecting a candidate *)

(** The surface that is left when a count of the text is taken; nothing when what is left
    of the input would show more than the whole text *)
Fixpoint surface_left (tables : InputTableRegistry) (ct : ComposingText) (count : ComposingCount) :
    option (list Grapheme) :=
  match count with
  | CSurface k => Some (drop k (surface ct))
  | CInput n =>
      c ← convert_elements tables (drop n (input ct));
      if decide (length c ≤ length (surface ct)) then Some c else None
  | CComposite l r => ct' ← complete_prefix tables ct l; surface_left tables ct' r
  end.

Lemma complete_left tables count : ∀ ct, registry_ok tables → wf tables ct →
  match surface_left tables ct count with
  | None => complete_prefix tables ct count = None
  | Some rest => ∃ ct', complete_prefix tables ct count = Some ct' ∧ wf tables ct' ∧ surface ct' = rest
  end.
Proof.
  induction count as [n|n|l IHl r IHr]; intros ct Hok Hwf; cbn [surface_left].
  - destruct (convert_elements tables (drop n (input ct))) as [c|] eqn:Hc; cbn [mbind option_bind].
    + case_decide as Hle.
      * destruct (complete_input_ok tables ct n c Hwf Hc Hle) as (ct' & ? & ? & _ & ?). by exists ct'.
      * cbn [complete_prefix]. rewrite splice_ok by lia. cbn [mbind option_bind].
        rewrite take_0. cbn [app]. rewrite drop_min_length, Hc. cbn [mbind option_bind]. by rewrite usub_None by lia.
    + cbn [complete_prefix]. rewrite splice_ok by lia. cbn [mbind option_bind].
      rewrite take_0. cbn [app]. by rewrite drop_min_length, Hc.
  - destruct (complete_surface_ok tables Hok ct n Hwf) as (ct' & ? & ? & ? & _). by exists ct'.
  - specialize (IHl ct Hok Hwf). cbn [complete_prefix].
    destruct (surface_left tables ct l) as [rest|]; [|by rewrite IHl].
    destruct IHl as (ct1 & -> & Hwf1 & _). by apply IHr.
Qed.

(** C9. Selecting a candidate commits its text and removes from the composing text what the
    candidate covers: so many graphemes of the surface, so many pieces of the input (what
    is left shows the pieces that stay), or one after the other. The rest of the text goes
    on in the context of the last word of the candidate, or, when nothing is left, the
    session starts afresh; the candidate is remembered as the last one committed, the
    memory has learned it when it is a learning target, nothing else of the world has
    changed, and the session keeps its invariant. Only a count of pieces can fail: the
    selection panics exactly when the pieces that stay show more graphemes than the whole
    text did. *)
Theorem select_commits `{Segmentation} `{!SegmentationLaws} `{Chrono} `{Rng} tables
    (s : ConversionSession) (w : World) (t : Moment) c :
  registry_ok tables → session_inv tables (s, w) → (memory_day t <= u16_max)%N →
  match surface_left tables (composing s) (composing_count c) with
  | None => (select_candidate_value (E:=()) tables t c (s, w)).2 = Panic
  | Some rest =>
      ∃ s' w', select_candidate_value (E:=()) tables t c (s, w) = ((s', w'), Return (text c)) ∧
        surface (composing s') = rest ∧ session_inv tables (s', w') ∧
        candidates s' = [] ∧ last_committed s' = Some c ∧ accepted_prediction s' = None ∧
        context s' = (if decide (rest = []) then default_context
                      else match last (entries c) with
                           | Some e => {| context_right_id := right_id e; context_meaning_id := last_meaning_id c |}
                           | None => context s
                           end) ∧
        (is_learning_target c = false ∨ learning_memory s = None → w' = w) ∧
        ∀ name, is_learning_target c = true → learning_memory s = Some name →
          ∃ st st', memories w !! name = Some st ∧ learn (memory_day t) st c = Some st' ∧
            w' = {| memories := <[name := st']> (memories w); random := random w |}
  end.
Proof.
  intros Hok Hinv Hday. pose proof (inv_text _ _ Hinv) as [Hwf _]. cbn [fst] in Hwf.
  pose proof (complete_left tables (composing_count c) (composing s) Hok Hwf) as Hleft.
  destruct (surface_left _ _ _) as [rest|].
  2: { unfold select_candidate_value, edit, read. unfold mbind, action_bind, gets, expect, lift. cbn [fst snd].
       by rewrite Hleft. }
  destruct Hleft as (ct & Hct & Hwf' & Hs).
  destruct (learned_world_ok tables t Hday c s w Hinv) as (w' & Hw & Hinv').
  exists (selected c ct s), w'. split; [by apply select_runs|].
  pose proof (selected_inv tables c ct s w' Hinv' Hwf') as Hselected.
  split; [|split; [done|]]; clear Hselected; unfold selected, is_empty; rewrite Hs.
  { case_bool_decide as E; [by rewrite E|]. by destruct (last (entries c)). }
  split_and!.
  - case_bool_decide; by destruct (last (entries c)).
  - case_bool_decide; by destruct (last (entries c)).
  - case_bool_decide; by destruct (last (entries c)).
  - case_bool_decide; case_decide; try done; by destruct (last (entries c)).
  - unfold learned_world in Hw. intros [E|E]; rewrite E in Hw; [by injection Hw|].
    by destruct (is_learning_target c); injection Hw.
  - intros name Hl Hname. unfold learned_world in Hw. rewrite Hl, Hname in Hw.
    destruct (memories w !! name) as [st|]; [|done]. cbn in Hw.
    destruct (learn (memory_day t) st c) as [st'|] eqn:El; [|done]. injection Hw as <-.
    exists st, st'. done.
Qed.
