(* ===== verification/SessionRequests.v ===== *)
(** * The requests of a session

    What the predictions and the assembled result of a request are made of: order,
    repetitions, the prefix of an accepted prediction, and what is shown first. *)

From S2P Require Import Prelude Unicode Collections F32 InputTable Composing Dictionary LatticeIndex Lattice LatticeSpec Prediction TextUtil Special Template LearningRecords LearningFiles LearningMemory Action Foreign SessionState Session SessionSpec.

(** ** Lists without repeated texts *)

Lemma elem_of_texts_of t cs : t ∈ texts_of cs ↔ t ∈ text <$> cs.
Proof. apply elem_of_list_to_set. Qed.

Lemma NoDup_fmap_filter {A B} (f : A → B) (P : A → Prop) `{∀ x, Decision (P x)} l :
  NoDup (f <$> l) → NoDup (f <$> filter P l).
Proof. intros Hl. eapply sublist_NoDup; [exact Hl|]. apply fmap_sublist, sublist_filter. Qed.

Lemma filter_all {A} (P : A → Prop) `{∀ x, Decision (P x)} l : Forall P l → filter P l = l.
Proof. induction 1 as [|x l Hx _ IH]; [done|]. by rewrite filter_cons_True, IH. Qed.

Lemma matches_same_text prefix c d : text c = text d → matches_prefix prefix c → matches_prefix prefix d.
Proof. unfold matches_prefix. destruct prefix; [by intros ->|done]. Qed.

(** Matching depends on the text only. *)
Lemma filter_matches_text prefix c (cs : list Candidate) :
  matches_prefix prefix c → text c ∈ text <$> cs → text c ∈ text <$> filter (matches_prefix prefix) cs.
Proof.
  intros Hp (d & E & Hd)%list_elem_of_fmap. apply list_elem_of_fmap. exists d. split; [done|].
  apply list_elem_of_filter. split; [by apply (matches_same_text _ c)|done].
Qed.

Lemma texts_disjoint_app l k :
  NoDup (text <$> l) → NoDup (text <$> k) → (∀ c, c ∈ k → text c ∉ text <$> l) →
  NoDup (text <$> l ++ k).
Proof.
  intros Hl Hk Hlk. rewrite fmap_app. apply NoDup_app. split_and!; [done| |done].
  intros t Ht (c & -> & Hc)%list_elem_of_fmap. by apply (Hlk c).
Qed.

(** ** Predictions *)

(** What joins the predictions that stay *)
Lemma merge_predictions_spec stable fresh prefix n :
  let kept := filter (matches_prefix prefix) (unique stable) in
  ∃ joined,
    merge_predictions stable fresh prefix n = take n (kept ++ joined) ∧
    NoDup (text <$> kept ++ joined) ∧ Forall (matches_prefix prefix) (kept ++ joined) ∧
    (∀ c, c ∈ joined → c ∈ fresh) ∧
    (∀ c, c ∈ fresh → matches_prefix prefix c → text c ∈ text <$> kept ++ joined).
Proof.
  intros kept. subst kept. unfold merge_predictions. cbv zeta.
  destruct (unique_texts_spec stable) as (Hnd & _ & _). fold (unique stable) in Hnd.
  destruct (unseen_texts_spec (texts_of (unique stable)) fresh) as (Hnd' & Hin' & Hall').
  exists (filter (matches_prefix prefix) (unseen_texts (texts_of (unique stable)) fresh)).
  rewrite <- filter_app. split_and!; [done| | | |].
  - apply NoDup_fmap_filter, texts_disjoint_app; [done..|].
    intros c [_ Hc]%Hin'. by rewrite elem_of_texts_of in Hc.
  - apply Forall_forall. by intros c [? _]%list_elem_of_filter.
  - intros c [_ Hc]%list_elem_of_filter. by apply Hin'.
  - intros c Hc Hp. apply filter_matches_text; [done|]. rewrite fmap_app, elem_of_app.
    destruct (decide (text c ∈ texts_of (unique stable))) as [Hs|Hs].
    + left. by apply elem_of_texts_of.
    + right. by apply Hall'.
Qed.

(** ** The candidates of a request *)

(** Where a candidate that reads as the text is put *)
Lemma ensure_reading_spec katakana full leading :
  NoDup (text <$> leading) →
  let out := ensure_reading katakana full leading in
  NoDup (text <$> out) ∧ (∀ c, c ∈ out → c ∈ leading ∨ c ∈ full) ∧
  (Exists (reads katakana) full → Exists (reads katakana) (take 3 out)).
Proof.
  intros Hnd out. subst out. unfold ensure_reading. case_decide as Hlead.
  { split_and!; [done|by left|done]. }
  destruct (list_find (reads katakana) full) as [[i c]|] eqn:Hfind.
  - apply list_find_Some in Hfind as (Hi & Hc & _). cbv zeta.
    set (others := filter (λ item, text item ≠ text c) leading).
    assert (Hsplit : take (2 `min` length others) others ++ drop (2 `min` length others) others = others)
      by apply take_drop.
    assert (Hperm : take (2 `min` length others) others ++ c :: drop (2 `min` length others) others
      ≡ₚ c :: others) by (rewrite <- Permutation_middle; by rewrite Hsplit).
    assert (Hothers : NoDup (text <$> others)) by by apply NoDup_fmap_filter.
    split_and!.
    + rewrite Hperm. cbn. constructor; [|done]. intros (d & E & [Hd _]%list_elem_of_filter)%list_elem_of_fmap.
      by apply Hd.
    + intros d. rewrite Hperm. intros [->|[_ Hd]%list_elem_of_filter]%elem_of_cons; [right|by left].
      by eapply list_elem_of_lookup_2.
    + intros _. apply Exists_exists. exists c. split; [|done].
      apply list_elem_of_lookup. exists (2 `min` length others). rewrite lookup_take_lt by lia.
      rewrite lookup_app_r by (rewrite length_take; lia).
      replace (_ - _) with 0 by (rewrite length_take; lia). done.
  - split_and!; [done|by left|]. intros (c & Hc & Hr)%Exists_exists.
    apply list_find_None in Hfind. rewrite Forall_forall in Hfind. by destruct (Hfind c Hc).
Qed.

(** The candidates [l] have distinct texts and are among [all]. *)
Definition distinct_within (all l : list Candidate) : Prop :=
  NoDup (text <$> l) ∧ ∀ c, c ∈ l → c ∈ all.

Lemma unique_within all l : (∀ c, c ∈ l → c ∈ all) → distinct_within all (unique l).
Proof.
  intros Hl. destruct (unique_texts_spec l) as (Hnd & Hin & _). split; [done|]. intros c [Hc _]%Hin. auto.
Qed.

Lemma leading_candidates_spec options prefix katakana full shortcuts predicted foreign :
  Forall (matches_prefix prefix) full →
  let out := leading_candidates options prefix katakana full shortcuts predicted foreign in
  NoDup (text <$> out) ∧ Forall (matches_prefix prefix) out ∧
  (∀ c, c ∈ out → c ∈ full ++ shortcuts ++ predicted ++ foreign) ∧
  (Exists (reads katakana) full → Exists (reads katakana) (take 3 out)).
Proof.
  intros Hfull out. subst out. unfold leading_candidates. cbv zeta.
  set (all := full ++ shortcuts ++ predicted ++ foreign).
  assert (Hall : ∀ c, c ∈ full ∨ c ∈ shortcuts ∨ c ∈ predicted ∨ c ∈ foreign → c ∈ all)
    by (intros c; subst all; by rewrite !elem_of_app).
  assert (H1 : distinct_within all (unique (take 5 full ++ shortcuts))).
  { apply unique_within. intros c [Hc%elem_of_take_in|Hc]%elem_of_app; auto. }
  revert H1. generalize (unique (take 5 full ++ shortcuts)) as l1. intros l1 H1.
  set (l2 := if decide (japanese_prediction options = PredictAutomatic) then _ else l1).
  assert (H2 : distinct_within all l2).
  { subst l2. case_decide; [|done]. apply unique_within. intros c [Hc|Hc]%elem_of_app; [by apply H1|auto]. }
  clearbody l2. clear H1.
  set (l3 := if decide (foreign_prediction options = PredictAutomatic) then _ else l2).
  assert (H3 : distinct_within all l3).
  { subst l3. case_decide; [|done]. apply unique_within. intros c [Hc|Hc]%elem_of_app; [by apply H2|auto 6]. }
  clearbody l3. clear H2. destruct H3 as [Hnd Hin].
  destruct (ensure_reading_spec katakana full (take 5 (sort_by by_value (filter (matches_prefix prefix) l3))))
    as (Hnd' & Hin' & Hread).
  { eapply sublist_NoDup; [|apply fmap_sublist, sublist_take]. rewrite sort_by_perm.
    by apply NoDup_fmap_filter. }
  assert (Hfrom : ∀ c, c ∈ take 5 (sort_by by_value (filter (matches_prefix prefix) l3)) →
    matches_prefix prefix c ∧ c ∈ l3).
  { intros c Hc%elem_of_take_in. rewrite elem_of_sort_by in Hc. by apply list_elem_of_filter in Hc. }
  split_and!; [done| | |done].
  - apply Forall_forall. intros c [Hc|Hc]%Hin'; [by apply Hfrom|]. rewrite Forall_forall in Hfull. auto.
  - intros c [Hc|Hc]%Hin'; [by apply Hin, Hfrom|auto].
Qed.

(** What the main results of a request promise: distinct texts that continue the
    accepted prediction, led by a candidate for the whole text when there is one,
    and a place for every clause, word and special candidate. *)
Record assembled (prefix : option ustring) (katakana : ustring)
    (full firsts words special main : list Candidate) : Prop := {
  main_distinct : NoDup (text <$> main);
  main_prefixed : Forall (matches_prefix prefix) main;
  main_reads : Exists (reads katakana) full → Exists (reads katakana) (take 3 main);
  main_complete : ∀ c, c ∈ firsts ++ words ++ special → text c ≠ [] → matches_prefix prefix c →
                    text c ∈ text <$> main;
}.

(** What joins [base], whose texts are in [seen] *)
Lemma unseen_joins seen (base cs : list Candidate) :
  NoDup (text <$> base) → (∀ t, t ∈ seen ↔ t ∈ text <$> base) →
  let all := base ++ unseen_texts seen cs in
  NoDup (text <$> all) ∧
  (∀ t, t ∈ seen ∪ list_to_set (text <$> unseen_texts seen cs) ↔ t ∈ text <$> all) ∧
  (∀ c, c ∈ cs → text c ∈ text <$> all).
Proof.
  intros Hnd Hseen all. subst all. destruct (unseen_texts_spec seen cs) as (Hnd' & Hin & Hall). split_and!.
  - apply texts_disjoint_app; [done..|]. intros c [_ Hc]%Hin. by rewrite <- Hseen.
  - intros t. by rewrite fmap_app, elem_of_app, elem_of_union, elem_of_list_to_set, Hseen.
  - intros c Hc. rewrite fmap_app, elem_of_app. destruct (decide (text c ∈ seen)); [left|right]; [by apply Hseen|auto].
Qed.

Lemma main_candidates_spec prefix katakana full leading firsts words special :
  NoDup (text <$> leading) → Forall (matches_prefix prefix) leading →
  (Exists (reads katakana) full → Exists (reads katakana) (take 3 leading)) →
  assembled prefix katakana full firsts words special (main_candidates prefix leading firsts words special).
Proof.
  intros Hnd Hlead Hreads. unfold main_candidates, filter_unseen. cbv zeta.
  set (seen0 := texts_of leading). set (k1 := unseen_texts seen0 firsts).
  set (seen1 := seen0 ∪ _). set (k2 := unseen_texts seen1 _). set (seen2 := seen1 ∪ _).
  set (k3 := unseen_texts seen2 special).
  destruct (unseen_joins seen0 leading firsts) as (H1 & Hs1 & Hc1); [done|intros; apply elem_of_texts_of|].
  fold k1 seen1 in H1, Hs1, Hc1.
  destruct (unseen_joins seen1 (leading ++ k1) (sort_by by_ruby_count (unique words))) as (H2 & Hs2 & Hc2); [done..|].
  fold k2 seen2 in H2, Hs2, Hc2.
  destruct (unseen_joins seen2 ((leading ++ k1) ++ k2) special) as (H3 & _ & Hc3); [done..|].
  fold k3 in H3, Hc3. clearbody seen0 k1 seen1 k2 seen2 k3.
  set (all := leading ++ k1 ++ take (5 `min` length k2) k2 ++ k3 ++ drop (5 `min` length k2) k2).
  assert (Hperm : all ≡ₚ ((leading ++ k1) ++ k2) ++ k3).
  { subst all. rewrite (Permutation_app_comm k3 (drop _ k2)), <- !(assoc_L (++)).
    do 2 apply Permutation_app_head. by rewrite (assoc_L (++)), take_drop. }
  split.
  - apply NoDup_fmap_filter. by rewrite Hperm.
  - apply Forall_forall. by intros c [? _]%list_elem_of_filter.
  - intros Hfull%Hreads. subst all. rewrite filter_app, (filter_all _ leading) by done.
    rewrite take_app. apply Exists_app. by left.
  - intros c Hc Ht Hp. apply filter_matches_text; [done|]. rewrite Hperm.
    rewrite !fmap_app in *. rewrite !elem_of_app in *. destruct Hc as [Hc|[Hc|Hc]].
    + apply Hc1, elem_of_app in Hc as [?|?]; auto.
    + destruct (unique_texts_spec words) as (_ & _ & Hwords).
      apply Hwords, list_elem_of_fmap in Hc as (d & -> & Hd); [|done].
      assert (d ∈ sort_by by_ruby_count (unique words)) as Hd' by by rewrite elem_of_sort_by.
      apply Hc2 in Hd'. rewrite !elem_of_app in Hd'. tauto.
    + apply Hc3 in Hc. rewrite !elem_of_app in Hc. tauto.
Qed.

Section requests.
Context `{Segmentation} `{!IterationOrder} `{Chrono} `{Icu} `{Rng} {E : Type} `{!Dictionary E}.
Context (to_uppercase : ustring → ustring) (tables : InputTableRegistry).

Lemma converter_memory_runs t s w sw memory :
  converter_memory (E:=E) t (s, w) = (sw, Return memory) → sw.1 = s ∧ random sw.2 = random w.
Proof.
  unfold converter_memory, with_memory. intros (s1 & name & [= <- <-] & Hm)%bind_Return. cbn [fst] in Hm.
  destruct (learning_memory s) as [name|]; [|by injection Hm as <- <-].
  unfold on_memory in Hm.
  apply bind_Return in Hm as (s1 & st & [= <- <-] & Hm).
  apply bind_Return in Hm as (s1 & st & [= <- _] & Hm).
  apply bind_Return in Hm as (s1 & [st' a] & [= <- _] & Hm).
  by injection Hm as <- _.
Qed.

(** The cached predictions that still apply *)
Definition still_apply (prefix : option ustring) (s : ConversionSession) : list Candidate :=
  filter (matches_prefix prefix)
    (match stable_prediction_cache s with
     | Some cache => compatible_candidates cache (composing s) (predictive_input_source tables (composing s))
     | None => []
     end).

Definition cache_distinct (s : ConversionSession) : Prop :=
  ∀ cache, stable_prediction_cache s = Some cache → NoDup (text <$> stable_candidates cache).

Lemma unique_fold_distinct cs out :
  NoDup (text <$> out ++ cs) → foldl unique_step out cs = out ++ cs.
Proof.
  revert out. induction cs as [|c cs IH]; intros out Hnd; cbn [foldl]; [by rewrite app_nil_r|].
  assert (unique_step out c = out ++ [c]) as ->.
  { unfold unique_step. destruct (list_find _ out) as [[i d]|] eqn:Hfind; [|done].
    apply list_find_Some in Hfind as (Hi & Hd & _). rewrite fmap_app in Hnd.
    apply NoDup_app in Hnd as (_ & Hnd & _). destruct (Hnd (text d)).
    - apply list_elem_of_fmap. exists d. split; [done|]. by eapply list_elem_of_lookup_2.
    - rewrite Hd. by left. }
  rewrite IH; by rewrite <- (assoc_L (++)).
Qed.

Lemma unique_distinct cs : NoDup (text <$> cs) → Forall (λ c, text c ≠ []) cs → unique cs = cs.
Proof.
  intros Hnd Htext. unfold unique. rewrite filter_all; [by apply unique_fold_distinct|].
  eapply Forall_impl; [exact Htext|]. intros c Hc. unfold has_text. by rewrite bool_decide_eq_false_2.
Qed.

Lemma compatible_distinct cache ct source :
  NoDup (text <$> stable_candidates cache) →
  NoDup (text <$> compatible_candidates cache ct source) ∧
  Forall (λ c, text c ≠ []) (compatible_candidates cache ct source).
Proof.
  intros Hnd. unfold compatible_candidates. cbv zeta. destruct (TextUtil.starts_with _ _); [|by split; constructor].
  rewrite <- list_fmap_compose. split.
  - by apply (NoDup_fmap_filter text).
  - apply Forall_fmap, Forall_forall. intros c [Hc _]%list_elem_of_filter. unfold is_compatible in Hc.
    apply andb_true_iff in Hc as [[Hc _]%andb_true_iff _]. by apply negb_true_iff, bool_decide_eq_false in Hc.
Qed.

(** The cache after predictions have been found *)
Definition caching (found : list Candidate) (s : ConversionSession) : ConversionSession :=
  set_stable_prediction_cache
    (match found with
     | [] => None
     | _ => Some {| stable_surface := surface_of (composing s);
                    stable_suffix_count := dropped_suffix_count (predictive_input_source tables (composing s));
                    stable_candidates := found |}
     end) s.

Lemma predictions_run t n additional prefix s w s' w' found :
  n ≠ 0 → predictions (E:=E) tables t n additional prefix (s, w) = ((s', w'), Return found) →
  ∃ memory fresh,
    converter_memory t (s, w) = ((s, w'), Return memory) ∧
    predict memory tables (composing s) n (context s) additional = Return fresh ∧
    found = merge_predictions
      (match stable_prediction_cache s with
       | Some cache => compatible_candidates cache (composing s) (predictive_input_source tables (composing s))
       | None => []
       end) fresh prefix n ∧
    s' = caching found s.
Proof.
  intros Hn. unfold predictions. rewrite decide_False by done.
  intros (sw & ct & [= <- <-] & Hp)%bind_Return. cbv zeta in Hp. cbn [fst] in Hp.
  apply bind_Return in Hp as (sw & cache & [= <- <-] & Hp). cbn [fst] in Hp.
  apply bind_Return in Hp as ([s1 w1] & memory & Hm & Hp).
  destruct (converter_memory_runs _ _ _ _ _ Hm) as [Hs _]. cbn in Hs. subst s1.
  apply bind_Return in Hp as (sw & ctx & [= <- <-] & Hp). cbn [fst] in Hp.
  apply bind_Return in Hp as (sw & fresh & Hf & Hp). unfold lift in Hf. injection Hf as <- Hf.
  apply bind_Return in Hp as (sw & [] & [= <-] & Hp). injection Hp as <- <- <-.
  by exists memory, fresh.
Qed.
End requests.

(** C14. Predictions stay where they are: the predictions shown before that the text
    still continues, with the prefix of the accepted prediction, come first and in
    the same order, and the new ones, of which none is lost, follow while there is
    room for [n]; no text is repeated, and the next time these are the predictions
    shown before. *)
Theorem predictions_stay `{Segmentation} `{!IterationOrder} `{Chrono} `{Rng} {E} `{!Dictionary E}
    tables t n additional prefix s w s' w' found :
  n ≠ 0 → cache_distinct s →
  predictions (E:=E) tables t n additional prefix (s, w) = ((s', w'), Return found) →
  ∃ memory fresh joined,
    converter_memory t (s, w) = ((s, w'), Return memory) ∧
    predict memory tables (composing s) n (context s) additional = Return fresh ∧
    found = take n (still_apply tables prefix s ++ joined) ∧
    NoDup (text <$> found) ∧ Forall (matches_prefix prefix) found ∧
    (∀ c, c ∈ joined → c ∈ fresh) ∧
    (∀ c, c ∈ fresh → matches_prefix prefix c → text c ∈ text <$> still_apply tables prefix s ++ joined) ∧
    s' = caching tables found s ∧ cache_distinct s'.
Proof.
  intros Hn Hcache (memory & fresh & Hm & Hf & -> & ->)%predictions_run; [|done].
  set (stable := match stable_prediction_cache s with Some _ => _ | None => [] end).
  assert (Hunique : unique stable = stable).
  { subst stable. destruct (stable_prediction_cache s) as [cache|] eqn:Ec; [|done].
    by apply unique_distinct; apply compatible_distinct, Hcache. }
  destruct (merge_predictions_spec stable fresh prefix n) as (joined & Hfound & Hnd & Hp & Hjoined & Hall).
  rewrite Hunique in *. change (filter (matches_prefix prefix) stable) with (still_apply tables prefix s) in *.
  set (found := merge_predictions stable fresh prefix n) in *.
  assert (Hdistinct : NoDup (text <$> found)).
  { rewrite Hfound. eapply sublist_NoDup; [exact Hnd|]. apply fmap_sublist, sublist_take. }
  exists memory, fresh, joined. split_and!; [done..| |done|done|done|].
  - rewrite Hfound. by apply Forall_take.
  - intros cache Hc. unfold caching in Hc. cbn in Hc. destruct found as [|c found]; [done|].
    by injection Hc as <-.
Qed.

Section assembly.
Context `{Segmentation} `{!IterationOrder} `{Chrono} `{Icu} `{Rng} {E : Type} `{!Dictionary E}.
Context (to_uppercase : ustring → ustring) (tables : InputTableRegistry).

(** What the predictions of a request leave alone *)
Lemma request_predicted_runs t options additional override prefix s w s' w' predicted :
  request_predicted (E:=E) tables t options additional override prefix (s, w) = ((s', w'), Return predicted) →
  composing s' = composing s ∧ random w' = random w.
Proof.
  unfold request_predicted. case_decide.
  { intros (sw & [] & [= <-] & Hp)%bind_Return. by injection Hp as <- <- _. }
  destruct override as [cs|]; [by intros [= <- <- _]|].
  intros (memory & fresh & Hm & _ & _ & ->)%predictions_run; [|done].
  apply converter_memory_runs in Hm as [_ Hw]. by split.
Qed.

Lemma prepare_runs t prefix_candidate cs s w sw ds :
  prepare (E:=E) t prefix_candidate cs (s, w) = (sw, Return ds) →
  sw.1 = s ∧ ds = (prepare_all prefix_candidate (local_now t) cs (random w)).1.
Proof. unfold prepare. cbn. destruct (prepare_all _ _ _ _). by intros [= <- <-]. Qed.

Lemma first_clause_list_bound prefix full firsts : first_clause_list prefix full = Some firsts → length firsts ≤ 5.
Proof.
  unfold first_clause_list. destruct (first_clauses_of full); [|done]. cbn [mbind option_bind].
  intros [= <-]. rewrite length_take. lia.
Qed.
End assembly.

(** C7. A request shows what it has found: the first result is a list of candidates after
    their preparation (the expansion of templates, which may change their texts). Before
    it their texts are distinct and all of them continue the accepted prediction; when the
    conversion has a candidate that continues it and reads as the whole text, one such
    candidate is among the first three; every first clause that is
    offered, every word, every representation and every special candidate that
    continues the accepted prediction has its place; there are at most five
    first clauses; the candidates of the session are the results and the composing
    text has not changed. *)
Theorem request_assembles `{Segmentation} `{!IterationOrder} `{Chrono} `{Icu} `{Rng} {E} `{!Dictionary E}
    to_uppercase tables t options full override prefix_candidate s w s' w' r :
  assemble_request (E:=E) to_uppercase tables t options full override prefix_candidate (s, w)
    = ((s', w'), Return r) →
  let prefix := candidate_dictionary_text <$> prefix_candidate in
  let full := filter (matches_prefix prefix) full in
  ∃ firsts words representations special main,
    first_clause_list prefix full = Some firsts ∧ length firsts ≤ 5 ∧
    word_candidates (composing s) = Return words ∧
    representation_candidates to_uppercase (composing s) (full_width_roman options) (half_width_kana options)
      = Some representations ∧
    special_candidates (composing s) (version_string options) = Some special ∧
    assembled prefix (Kana.to_katakana (surface_of (composing s))) full firsts (words ++ representations)
      (special ++ if typography options then typographical_candidates (composing s) else []) main ∧
    main_results r = (prepare_all prefix_candidate (local_now t) main (random w)).1 ∧
    Forall2 (λ c d, entries d = entries c ∧ first_clause d = first_clause c ∧
                    composing_count d = composing_count c) firsts (first_clause_results r) ∧
    candidates s' = main_results r ∧ composing s' = composing s.
Proof.
  intros Hr prefix full0. unfold assemble_request in Hr. cbv zeta in Hr. fold prefix full0 in Hr.
  apply bind_Return in Hr as (sw & additional & [= <- <-] & Hr). cbn [fst] in Hr.
  apply bind_Return in Hr as (sw & firsts & Hfirsts & Hr). unfold expect, lift in Hfirsts.
  injection Hfirsts as <- Hfirsts%panicking_Return.
  apply bind_Return in Hr as ([s1 w1] & predicted & Hpred & Hr).
  apply request_predicted_runs in Hpred as [Hct Hrandom].
  apply bind_Return in Hr as (sw & foreign & [= <- _] & Hr).
  apply bind_Return in Hr as (sw & ct & [= <- <-] & Hr). cbn [fst] in Hr. rewrite Hct in Hr.
  apply bind_Return in Hr as (sw & shortcuts & [= <- _] & Hr).
  apply bind_Return in Hr as (sw & words & Hwords & Hr). unfold lift in Hwords. injection Hwords as <- Hwords.
  apply bind_Return in Hr as (sw & reps & Hreps & Hr). unfold expect, lift in Hreps.
  injection Hreps as <- Hreps%panicking_Return.
  apply bind_Return in Hr as (sw & special & Hspecial & Hr). unfold expect, lift in Hspecial.
  injection Hspecial as <- Hspecial%panicking_Return.
  apply bind_Return in Hr as ([s2 w2] & main & Hmain & Hr).
  apply prepare_runs in Hmain as [Hs2 ->]. cbn [fst] in Hs2. subst s2.
  apply bind_Return in Hr as ([s2 w3] & predicted' & Hpred' & Hr).
  apply prepare_runs in Hpred' as [Hs2 _]. cbn [fst] in Hs2. subst s2.
  apply bind_Return in Hr as ([s2 w4] & firsts' & Hfirsts' & Hr).
  apply prepare_runs in Hfirsts' as [Hs2 ->]. cbn [fst] in Hs2. subst s2.
  apply bind_Return in Hr as (sw & [] & [= <-] & Hr). injection Hr as <- _ <-.
  destruct (leading_candidates_spec options prefix (Kana.to_katakana (surface_of (composing s))) full0
    (shortcut_candidate (Kana.to_katakana (surface_of (composing s))) <$> shortcuts)
    (filter (matches_prefix prefix) predicted) foreign) as (Hnd & Hlead & _ & Hreads).
  { apply Forall_forall. by intros c [? _]%list_elem_of_filter. }
  eexists firsts, words, reps, special, _. split; [done|]. split; [by eapply first_clause_list_bound|].
  split; [done|]. split; [done|]. split; [done|].
  split; [by apply main_candidates_spec|]. cbn [main_results]. rewrite Hrandom.
  split; [done|]. split; [apply prepare_all_same|]. by split.
Qed.

(** ** Completions in other languages *)

(** The texts offered for a language: what was typed and its completions, when
    there are any *)
Definition offered (ct : ComposingText) (language : ForeignLanguage) (provider : ForeignCompletionProvider) :
    list ustring :=
  if decide (typed_characters ct = []) then []
  else match provider language (typed_characters ct) with
       | [] => []
       | completions => typed_characters ct :: completions
       end.

Lemma completion_candidates_texts `{Segmentation} value delta n cs :
  text <$> completion_candidates value delta n cs = cs.
Proof. revert value. induction cs as [|c cs IH]; intros value; [done|]. cbn. by rewrite IH. Qed.

Lemma completion_candidates_count `{Segmentation} value delta n cs :
  Forall (λ c, composing_count c = CInput n) (completion_candidates value delta n cs).
Proof. revert value. induction cs as [|c cs IH]; intros value; by constructor. Qed.

Lemma predictions_for_language_spec `{Segmentation} ct language provider penalty :
  let found := predictions_for_language ct (typed_characters ct) language provider penalty in
  text <$> found = offered ct language provider ∧
  Forall (λ c, composing_count c = CInput (length (input ct))) found.
Proof.
  unfold predictions_for_language, offered. case_decide; [by split|].
  destruct (provider _ _) as [|c cs]; [by split|]. cbn [fmap list_fmap text foreign_candidate candidate_single].
  split; [|constructor; [done|apply completion_candidates_count]].
  f_equal. apply completion_candidates_texts.
Qed.

(** The predictions in other languages are what was typed and its completions:
    English ones when only ASCII letters were typed, Greek ones with a Greek
    keyboard; no text is repeated, and every candidate covers the whole input. *)
Theorem foreign_predictions_correct `{Segmentation} ct language provider penalty :
  let found := foreign_predictions ct language provider penalty in
  NoDup (text <$> found) ∧
  (∀ t, t ∈ text <$> found ↔
     (forallb is_ascii_letter (typed_characters ct) = true ∧ t ∈ offered ct EnglishUs provider) ∨
     (language = LanguageGreek ∧ t ∈ offered ct Greek provider)) ∧
  Forall (λ c, composing_count c = CInput (length (input ct))) found.
Proof.
  intros found. subst found. unfold foreign_predictions, first_of_texts. cbv zeta.
  destruct (predictions_for_language_spec ct EnglishUs provider penalty) as [He1 He2].
  destruct (predictions_for_language_spec ct Greek provider penalty) as [Hg1 Hg2].
  set (output := if decide (language = LanguageGreek) then _ else _).
  assert (Hout : (∀ t, t ∈ text <$> output ↔
     (forallb is_ascii_letter (typed_characters ct) = true ∧ t ∈ offered ct EnglishUs provider) ∨
     (language = LanguageGreek ∧ t ∈ offered ct Greek provider)) ∧
    Forall (λ c, composing_count c = CInput (length (input ct))) output).
  { subst output. split.
    - intros t. destruct (forallb _ _); case_decide; rewrite ?fmap_app, ?elem_of_app, ?He1, ?Hg1;
        cbn; rewrite ?elem_of_nil; naive_solver.
    - destruct (forallb _ _); case_decide; rewrite ?Forall_app; auto. }
  destruct Hout as [Htexts Hcounts]. destruct (unseen_texts_spec ∅ output) as (Hnd & Hin & Hall).
  split_and!; [done| |by apply Forall_unseen].
  intros t. rewrite <- Htexts. split; intros (c & -> & Hc)%list_elem_of_fmap.
  - apply list_elem_of_fmap. exists c. split; [done|]. by apply Hin.
  - apply Hall; [done|set_solver].
Qed.
