(* ===== verification/SessionExamples.v ===== *)
(** * Sessions at work

    The theorems on sessions at concrete inputs: a session over the toy dictionary,
    with a memory that has learned a word, in which "kaki" is typed. *)

From S2P Require Import Prelude Unicode Collections F32 Constraint InputTable DefaultTables Composing ComposingSpec Dictionary LatticeIndex Lattice LatticeSpec Prediction TextUtil Special Template LearningRecords LearningFiles LearningMemory LearningMemorySpec LearningProperties Action Foreign SessionState Session SessionSpec SessionInvariant SessionProperties SessionRequests.

#[local] Existing Instance scalar_clusters.
#[local] Existing Instance map_order.
#[local] Existing Instance map_order_laws.
#[local] Existing Instance toy_dictionary.
#[local] Existing Instance list_dictionary_laws.

(** A clock that stands still, and locales without names *)
Definition still_clock : Chrono := {|
  instant := (); try_seconds := Some; checked_add_signed := λ _ _, Some ();
  year := λ _, 2024%Z; month := λ _, 10%Z; day := λ _, 4%Z; hour := λ _, 0%Z;
  minute := λ _, 0%Z; second := λ _, 0%Z; nanosecond := λ _, 0%Z;
|}.
Definition no_locales : Icu := {|
  locale := (); parse_locale := λ _, None; pattern := (); parse_pattern := λ _, None;
  iso_date := (); try_new_iso := λ _ _ _, None; time := (); try_new_time := λ _ _ _ _, None;
  names := (); try_new_names := λ _ _, None; include_year_names := λ _ _, None;
  include_month_names := λ _ _, None; include_weekday_names := λ _ _, None;
  include_day_period_names := λ _ _, None; format_names := λ _ _ _ _, None;
|}.
Definition lowest : Rng := {|
  rng := (); random_range := λ a _ r, (a, r); choose_index := λ _ r, (0, r);
  random_double := λ _ _ r, (None, r);
|}.
#[local] Existing Instance still_clock.
#[local] Existing Instance no_locales.
#[local] Existing Instance lowest.

Definition toy_moment : Moment := {| memory_day := 20001; local_now := (); file_faults := [] |}.
Definition toy_world : World :=
  {| memories := match learned_state with Some st => {[0 := st]} | None => ∅ end; random := () |}.

Definition toy_op := run_op (E:=()) id default_registry.
Definition after (os : list session_op) : ConversionSession * World :=
  foldl (λ sw o, (toy_op o sw).1) (session_new, toy_world) os.

Lemma toy_world_sound : map_Forall (λ _ st, memory_inv st) (memories toy_world).
Proof.
  unfold toy_world. destruct learned_state_inv as (st & -> & Hinv & _). cbn.
  by apply map_Forall_singleton.
Qed.

Lemma after_snoc os o :
  reachable (E:=()) id default_registry (after os) → allowed default_registry (after os) o →
  reachable (E:=()) id default_registry (after (os ++ [o])).
Proof. unfold after. rewrite foldl_snoc. by apply reachable_step. Qed.

Definition typing_kaki : list session_op :=
  [OpMemory toy_moment 0; OpInsert (u "kaki") RomanToKana; OpRequest toy_moment default_options].

Lemma simple_scalar ct :
  length (concat (surface ct)) = length (surface ct) → @simple_text scalar_clusters ct.
Proof. intros Hl. split; [|exact Hl]. intros a b c _. reflexivity. Qed.

Lemma typing_reachable : reachable (E:=()) id default_registry (after typing_kaki).
Proof.
  apply (after_snoc [OpMemory toy_moment 0; OpInsert (u "kaki") RomanToKana]).
  - apply (after_snoc [OpMemory toy_moment 0]); [|exact I].
    apply (after_snoc []); [apply reachable_new, toy_world_sound|].
    split; [by vm_compute|]. unfold after, has_memory, toy_world. cbn [foldl snd memories].
    destruct learned_state_inv as (st & -> & _). by exists st.
  - split; [by vm_compute|]. apply simple_scalar. by vm_compute.
Qed.

Lemma session_never_panics_witness :
  text <$> take 2 (candidates (after typing_kaki).1) = [u "柿"; u "蚊木"] ∧
  (toy_op (OpSelect toy_moment 0) (after typing_kaki)).2 ≠ Panic.
Proof.
  split; [vm_compute; reflexivity|].
  destruct (session_never_panics (E:=()) id default_registry (after typing_kaki))
    as (_ & _ & _ & _ & Hsafe);
    [exact default_registry_ok|exact default_registry_steady|exact typing_reachable|].
  apply Hsafe. split; [by vm_compute|]. intros c Hc.
  vm_compute in Hc. injection Hc as <-. by vm_compute.
Defined.

(** ** Accepting and selecting *)

Lemma typing_text_ok : text_ok default_registry (composing (after typing_kaki).1).
Proof.
  apply (inv_text default_registry (after typing_kaki)).
  apply (reachable_inv (E:=()) id); [exact default_registry_ok|exact default_registry_steady|].
  exact typing_reachable.
Qed.

Definition kakine : Candidate :=
  candidate_single (u "垣根") (of_Z (-6)) (CSurface 2) 501 [toy_entry "垣根" "カキネ" (-6)].

Lemma accept_completes_reading_witness :
  ∃ ct rest, accept_prediction_candidate (E:=()) default_registry kakine (after typing_kaki) =
      ((accepting kakine ct (after typing_kaki).1, (after typing_kaki).2), Return true) ∧
    surface_of ct = u "かき" ++ rest ∧ Kana.to_hiragana (surface_of ct) = u "かきね".
Proof.
  destruct (accept_completes_reading default_registry (after typing_kaki).1 (after typing_kaki).2 kakine)
    as [E|(ct & rest & E & _ & _ & _ & _ & Hs & Hread & _)].
  - exact default_registry_ok.
  - exact typing_text_ok.
  - vm_compute. repeat constructor.
  - vm_compute in E. discriminate E.
  - exists ct, rest. rewrite <- surjective_pairing in E. split; [exact E|].
    assert (Hbase : base_surface (predictive_input_source default_registry (composing (after typing_kaki).1))
      = u "かき") by (vm_compute; reflexivity).
    rewrite Hbase in Hs. split; [exact Hs|]. rewrite Hread. vm_compute. reflexivity.
Defined.

(** The first candidate is learned. *)
Lemma select_commits_witness :
  ∃ c s' w', candidates (after typing_kaki).1 !! 0 = Some c ∧
    select_candidate_value (E:=()) default_registry toy_moment c (after typing_kaki) = ((s', w'), Return (u "柿")) ∧
    surface (composing s') = [] ∧ last_committed s' = Some c ∧
    ∃ st st', memories (after typing_kaki).2 !! 0 = Some st ∧ learn 20001 st c = Some st' ∧
      memories w' = <[0 := st']> (memories (after typing_kaki).2).
Proof.
  assert (Hc : ∃ c, candidates (after typing_kaki).1 !! 0 = Some c ∧ text c = u "柿" ∧
    composing_count c = CSurface 2 ∧ is_learning_target c = true)
    by (eexists; split; [vm_compute; reflexivity|vm_compute; auto]).
  destruct Hc as (c & Hc & Ht & Hk & Hl). exists c.
  pose proof (select_commits default_registry (after typing_kaki).1 (after typing_kaki).2 toy_moment c) as Hselect.
  rewrite Hk in Hselect. cbn [surface_left] in Hselect.
  destruct Hselect as (s' & w' & E & Hs & _ & _ & Hlast & _ & _ & _ & Hlearn).
  - exact default_registry_ok.
  - rewrite <- surjective_pairing. apply (reachable_inv (E:=()) id);
      [exact default_registry_ok|exact default_registry_steady|exact typing_reachable].
  - by vm_compute.
  - exists s', w'. rewrite <- surjective_pairing, Ht in E. split; [exact Hc|split; [exact E|]].
    split; [rewrite Hs; vm_compute; reflexivity|split; [exact Hlast|]].
    destruct (Hlearn 0 Hl) as (st & st' & Hst & Hlearned & ->); [vm_compute; reflexivity|].
    exists st, st'. split; [exact Hst|split; [exact Hlearned|reflexivity]].
Defined.

(** ** Predictions and requests *)

(** Predictions for "ka", and one more key *)
Definition typing_kak : list session_op :=
  [OpInsert (u "ka") RomanToKana; OpPredictions toy_moment 3; OpInsert (u "k") RomanToKana].

Lemma kak_cache_distinct : cache_distinct (after typing_kak).1.
Proof.
  intros cache Hc. vm_compute in Hc. injection Hc as <-. refine (@bool_decide_unpack _ _ _). vm_compute. exact I.
Qed.

Lemma predictions_stay_witness :
  text <$> still_apply default_registry None (after typing_kak).1 = [u "柿"] ∧
  ∃ s' w' found, predictions (E:=()) default_registry toy_moment 3 [] None (after typing_kak)
    = ((s', w'), Return found) ∧ NoDup (text <$> found) ∧ take 1 (text <$> found) = [u "柿"] ∧
    cache_distinct s'.
Proof.
  split; [vm_compute; reflexivity|].
  destruct (predictions (E:=()) default_registry toy_moment 3 [] None (after typing_kak))
    as [[s' w'] [found|e|]] eqn:Hrun; [|exfalso; vm_compute in Hrun; discriminate Hrun..].
  exists s', w', found. split; [reflexivity|].
  rewrite (surjective_pairing (after typing_kak)) in Hrun.
  destruct (predictions_stay default_registry toy_moment 3 [] None _ _ s' w' found (Nat.neq_succ_0 2)
    kak_cache_distinct Hrun) as (_ & _ & joined & _ & _ & Hfound & Hnd & _ & _ & _ & _ & Hc).
  split; [exact Hnd|split; [|exact Hc]].
  assert (Hstill : text <$> still_apply default_registry None (after typing_kak).1 = [u "柿"])
    by (vm_compute; reflexivity).
  rewrite Hfound. destruct (still_apply _ _ _) as [|c cs]; [discriminate Hstill|].
  injection Hstill as Hc1 _. cbn. rewrite Hc1. reflexivity.
Defined.

Definition kaki_results : list Candidate :=
  match convert_toy no_modifiers with Return cs => cs | _ => [] end.

Lemma request_assembles_witness :
  ∃ s' w' r, assemble_request (E:=()) id default_registry toy_moment default_options kaki_results None None
      (after typing_kaki) = ((s', w'), Return r) ∧
    candidates s' = main_results r ∧ composing s' = composing (after typing_kaki).1 ∧
    text <$> take 3 (main_results r) = [u "柿"; u "蚊木"; u "か木"].
Proof.
  destruct (assemble_request (E:=()) id default_registry toy_moment default_options kaki_results None None
    (after typing_kaki)) as [[s' w'] [r|e|]] eqn:Hrun; [|exfalso; vm_compute in Hrun; discriminate Hrun..].
  exists s', w', r. split; [reflexivity|].
  pose proof (f_equal (λ o, match o with (_, Return r) => text <$> take 3 (main_results r) | _ => [] end) Hrun) as Hthree.
  rewrite (surjective_pairing (after typing_kaki)) in Hrun.
  destruct (request_assembles id default_registry toy_moment default_options kaki_results None None _ _ s' w' r Hrun)
    as (firsts & words & reps & special & main & _ & _ & _ & _ & _ & _ & _ & _ & Hcs & Hct).
  split; [exact Hcs|split; [exact Hct|]]. vm_compute in Hthree. symmetry. exact Hthree.
Defined.
