(* ===== verification/ZenzConvert.v ===== *)
(** * Conversion with the model

    src/crates/daemon/src/zenz.rs: drafts of the conversion are reviewed by the
    model, whose corrections constrain the next draft, until it accepts a candidate
    or the inferences are used up; the outcome is kept for the next key. The state is
    that of the session, the evaluator and the model. The lock of the model shared
    by the connections is not modelled: a connection has the model for itself
    during a request. *)

From S2P Require Import Prelude Unicode F32 Constraint InputTable Composing Dictionary LatticeIndex Lattice TextUtil Utf8 Template Action Zenz ZenzEvaluator NGram Llama SessionState Session.

Definition DEFAULT_INFERENCE_LIMIT : nat := 10.
Definition PERSONALIZATION_N : nat := 5.
Definition PERSONALIZATION_DISCOUNT : f64 := Eval vm_compute in ddiv (d_of_Z 3) (d_of_Z 4).

(** ** Personalization *)

Section personalization.
Context `{Marisa}.

Record ZenzPersonalizationModels := {
  models_alpha : f32;
  models_base : EfficientNGram;
  models_personal : EfficientNGram;
}.

Definition load_personalization (base_path personal_path : ustring) (a : f32) :
    outcome NGramError ZenzPersonalizationModels :=
  b ← open_ngram base_path PERSONALIZATION_N PERSONALIZATION_DISCOUNT;
  p ← open_ngram personal_path PERSONALIZATION_N PERSONALIZATION_DISCOUNT;
  mret {| models_alpha := a; models_base := b; models_personal := p |}.

(** [ZenzPersonalizationModels::request]; the models do not panic. *)
Definition personalization_request (m : ZenzPersonalizationModels) : ZenzPersonalization :=
  {| alpha := models_alpha m;
     base := λ prefix size, default None (token_probabilities (models_base m) prefix size);
     personal := λ prefix size, default None (token_probabilities (models_personal m) prefix size) |}.
End personalization.

(** ** llama.cpp as a language model *)

Definition inference_error (decimal : Z → ustring) (e : LlamaError) : ZenzInferenceError :=
  match e with
  | InputTooLong tokens => ContextCapacity tokens CONTEXT_TOKEN_LIMIT
  | e => Message (llama_error_text decimal e)
  end.

Definition sequence_of (s : ZenzInferenceSequence) : LlamaSequence :=
  match s with Evaluation => SequenceEvaluation | InputPrediction => SequenceInputPrediction end.

Section llama_model.
Context `{LlamaCpp} (decimal : Z → ustring).

Definition as_inference_error {A} (m : action LlamaContext LlamaError A) : action LlamaContext ZenzInferenceError A :=
  map_error (inference_error decimal) m.

Definition llama_model : ZenzLanguageModel LlamaContext := {|
  Zenz.vocabulary_size := context_vocabulary_size;
  eos_token := λ c, llama_vocab_eos (vocabulary c);
  Zenz.tokenize := λ text add_special, as_inference_error (λ c, (c, context_tokenize c text add_special));
  token_to_piece := λ t, as_inference_error (λ c, (c, context_token_to_piece c t));
  next_logits := λ tokens, as_inference_error (context_next_logits tokens);
  logits_for_suffix := λ tokens start_index sequence,
    as_inference_error (logits tokens start_index (sequence_of sequence));
|}.
End llama_model.

(** ** The outcome kept for the next key *)

Record ZenzConversionOptions := {
  options_version : ZenzVersionConfig;
  rich : bool;
  inference_limit : nat;
  options_personalization : option ZenzPersonalization;
}.

Record ZenzConversionCache := {
  cache_input : ustring;
  cache_constraint : PrefixConstraint;
  satisfying_candidate : option Candidate;
  evaluated_satisfying_candidate : option Candidate;
}.

Definition default_constraint : PrefixConstraint := constraint_new [].

Definition default_cache : ZenzConversionCache :=
  {| cache_input := []; cache_constraint := default_constraint; satisfying_candidate := None;
     evaluated_satisfying_candidate := None |}.

(** The bytes of the words whose readings the input begins with *)
Fixpoint kept_words (remaining : ustring) (es : list DictionaryEntry) : list byte :=
  match es with
  | [] => []
  | e :: es =>
      match TextUtil.strip_prefix (ruby e) remaining with
      | None => []
      | Some next => utf8 (word e) ++ kept_words next es
      end
  end.

Definition constraint_for (cache : ZenzConversionCache) (input : ustring) : PrefixConstraint :=
  match satisfying_candidate cache with
  | Some c => constraint_new (kept_words input (entries c))
  | None =>
      if decide (cache_input cache `prefix_of` input)
      then {| constraint_bytes := constraint_bytes (cache_constraint cache); has_eos := false;
              ignore_memory_and_user_dictionary := ignore_memory_and_user_dictionary (cache_constraint cache);
              fixed_prefix := None |}
      else default_constraint
  end.

(** ** Reviews *)

(** The indexed maximum by value, the last of equal ones *)
Definition by_indexed_value (l r : nat * Candidate) : comparison :=
  total_cmp (cand_value l.2) (cand_value r.2).

Definition best_candidate (cs : list Candidate) : option (nat * Candidate) :=
  max_by by_indexed_value None (imap pair cs).

Inductive ReviewAction := Fail | Retry (index : nat) | Research.

Definition candidate_satisfies (c : Candidate) (k : PrefixConstraint) : bool :=
  if has_eos k then bool_decide (utf8 (text c) = constraint_bytes k)
  else bool_decide (constraint_bytes k `prefix_of` utf8 (text c)).

Definition heuristic_retry_validation (c : Candidate) : bool :=
  negb (bool_decide (0x3099%N ∈ text c)) && negb (bool_decide (0x309a%N ∈ text c)).

Definition candidate_uses_personal_dictionary (c : Candidate) : bool :=
  existsb (λ e, contains (metadata e) LEARNED || contains (metadata e) USER_DICTIONARY) (entries c).

Definition retry_candidate (cs : list Candidate) (current_index : nat) (k : PrefixConstraint) : option nat :=
  '(i, _) ← list_find (λ ic : nat * Candidate,
                         ic.1 ≠ current_index ∧ candidate_satisfies ic.2 k = true
                         ∧ heuristic_retry_validation ic.2 = true) (imap pair cs);
  Some i.

Definition ignoring_personal (k : PrefixConstraint) : PrefixConstraint :=
  {| constraint_bytes := constraint_bytes k; has_eos := has_eos k;
     ignore_memory_and_user_dictionary := true; fixed_prefix := fixed_prefix k |}.

(** [review_rejection]: the constraint after it, and what to do *)
Definition review_rejection (k next : PrefixConstraint) (cs : list Candidate) (index : nat) (c : Candidate) :
    PrefixConstraint * ReviewAction :=
  if decide (k = next) then
    if negb (ignore_memory_and_user_dictionary k) && candidate_uses_personal_dictionary c
    then (ignoring_personal k, match retry_candidate cs index next with Some i => Retry i | None => Research end)
    else (k, Fail)
  else
    (next, if bool_decide (constraint_bytes k `prefix_of` constraint_bytes next)
           then match retry_candidate cs index next with Some i => Retry i | None => Research end
           else Research).

Definition with_fixed_prefix (f : option FixedPrefix) (k : PrefixConstraint) : PrefixConstraint :=
  {| constraint_bytes := constraint_bytes k; has_eos := has_eos k;
     ignore_memory_and_user_dictionary := ignore_memory_and_user_dictionary k; fixed_prefix := f |}.

Inductive ZenzConversionError (E : Type) :=
  | ConversionDictionary (error : E)
  | ConversionInference (error : ZenzInferenceError).
Arguments ConversionDictionary {E}.
Arguments ConversionInference {E}.

(** ** The conversion *)

Section convert.
Context `{Segmentation} `{IterationOrder} `{Chrono} `{Icu} `{Rng} {E : Type} `{Dictionary E}.
Context {M : Type} `{ZenzLanguageModel M} `{Libm} (tables : InputTableRegistry) (t : Moment).

#[local] Notation converting A :=
  (action ((ConversionSession * World) * (ZenzEvaluator * M)) (ZenzConversionError E) A).

(** A method of the session, and [?] on its error *)
Definition of_session {A} (m : action (ConversionSession * World) E A) : converting A :=
  on_fst (map_error ConversionDictionary m).

Definition of_evaluator (request : ZenzEvaluationRequest) : converting CandidateEvaluation :=
  on_snd (map_error ConversionInference (evaluate request)).

Definition insert_at {A} (n : nat) (x : A) (l : list A) : list A := take n l ++ x :: drop n l.

(** One alternative of [insert_rich_candidates] *)
Definition insert_alternative (constructed inserted : list Candidate) (alternative : AlternativeConstraint) :
    converting (list Candidate) :=
  let k := Constraint.normalized (alternative_bytes alternative) false false in
  let existing := max_by (λ l r, total_cmp (cand_value l) (cand_value r)) None
                    (filter (λ c, candidate_satisfies c k = true) constructed) in
  found ← (match existing with
           | Some c => mret (Some c)
           | None =>
               if flt (fdiv (of_nat 1) (of_nat 2)) (probability_ratio alternative)
               then draft ← of_session (request_zenz_draft tables t 3 k);
                    mret (snd <$> best_candidate draft)
               else mret None
           end);
  mret (match found with
        | Some c => insert_at (1 `min` length inserted) c inserted
        | None => inserted
        end).

Definition insert_rich_candidates (inserted constructed : list Candidate)
    (alternatives : list AlternativeConstraint) : converting (list Candidate) :=
  for_each (insert_alternative constructed) inserted
    (filter (λ a, flt (fdiv (of_nat 1) (of_nat 4)) (probability_ratio a) = true) (reverse alternatives)).

(** How many candidates a draft has *)
Definition draft_count (options : ZenzConversionOptions) (k : PrefixConstraint) : nat :=
  if constraint_is_empty k then 2 else if rich options then 3 else 1.

Definition cached (lattice_input : ustring) (k : PrefixConstraint) (satisfying evaluated : option Candidate) :
    ZenzConversionCache :=
  {| cache_input := lattice_input; cache_constraint := k; satisfying_candidate := satisfying;
     evaluated_satisfying_candidate := evaluated |}.

(** [session.set_zenz_candidates(..)], the new contents of the cache and the result *)
Definition finish (inserted : list Candidate) (cache : ZenzConversionCache) (c : option Candidate) :
    converting (option Candidate * ZenzConversionCache) :=
  of_session (set_zenz_candidates inserted);; mret (c, cache).

(** The start of the outer loop: a draft under the constraint, and the review of its
    best candidate *)
Definition research (options : ZenzConversionOptions) (lattice_input : ustring)
    (review : PrefixConstraint → list Candidate → list Candidate → list Candidate → nat → Candidate →
              converting (option Candidate * ZenzConversionCache))
    (k : PrefixConstraint) (constructed inserted : list Candidate) :
    converting (option Candidate * ZenzConversionCache) :=
  draft ← of_session (request_zenz_draft tables t (draft_count options k) k);
  match best_candidate draft with
  | None => finish inserted (cached lattice_input default_constraint None None) None
  | Some (index, c) => review k (constructed ++ draft) inserted draft index c
  end.

(** The arguments of [evaluate] *)
Definition evaluation_request (options : ZenzConversionOptions) (model_input : ustring)
    (cursor : option nat) (k : PrefixConstraint) (c : Candidate) : ZenzEvaluationRequest :=
  {| req_input := model_input; input_cursor_position := cursor; candidate := c;
     request_rich_candidates := rich options; prefix_constraint := k;
     personalization := options_personalization options; version := options_version options |}.

(** The loop of reviews: every round returns or uses up one of the remaining
    inferences. *)
Fixpoint review (options : ZenzConversionOptions) (lattice_input model_input : ustring)
    (cursor : option nat) (defers : bool) (cache : ZenzConversionCache) (remaining : nat)
    (k : PrefixConstraint) (constructed inserted draft : list Candidate) (index : nat) (c : Candidate) :
    converting (option Candidate * ZenzConversionCache) :=
  let inserted := c :: inserted in
  match remaining with
  | 0 => finish inserted (cached lattice_input k (Some c) None) None
  | S remaining =>
      if defers then
        let evaluated := if constraint_is_empty k then None else evaluated_satisfying_candidate cache in
        finish inserted (cached lattice_input k evaluated evaluated) None
      else
        let next_review := review options lattice_input model_input cursor defers cache remaining in
        let rejected (next : PrefixConstraint) :=
          let '(k, act) := review_rejection k (with_fixed_prefix (fixed_prefix k) next) draft index c in
          match act with
          | Fail => finish inserted (cached lattice_input default_constraint None None) None
          | Retry index =>
              c ← expect (draft !! index);
              next_review k constructed inserted draft index c
          | Research => research options lattice_input next_review k constructed inserted
          end in
        evaluation ← of_evaluator (evaluation_request options model_input cursor k c);
        match evaluation with
        | Pass _ alternatives =>
            inserted ← (if rich options then insert_rich_candidates inserted constructed alternatives
                        else mret inserted);
            finish inserted (cached lattice_input k (Some c) (Some c)) (Some c)
        | FixRequired bytes => rejected (Constraint.normalized bytes false (ignore_memory_and_user_dictionary k))
        | WholeResult result =>
            rejected (Constraint.normalized (utf8 result) true (ignore_memory_and_user_dictionary k))
        end
  end.

(** [convert]: the accepted candidate, and the cache after it *)
Definition zenz_convert (cache : ZenzConversionCache) (options : ZenzConversionOptions) :
    converting (option Candidate * ZenzConversionCache) :=
  s ← of_session (read id);
  let lattice_input := Kana.to_katakana (surface_of (composing s)) in
  let model_input := Kana.to_katakana (surface_of (zenz_model_composing s)) in
  let cursor := Some (cursor (zenz_model_composing s)) in
  let defers := negb (rich options)
                && bool_decide (options_personalization options = None)
                && bool_decide (0 < pending_zenz_suffix_count tables s) in
  let k := constrain_zenz_prefix (constraint_for cache lattice_input) s in
  research options lattice_input
    (review options lattice_input model_input cursor defers cache (inference_limit options)) k [] [].
End convert.
