(* ===== verification/ZenzConvertSpec.v ===== *)
(** * What the conversion with the model promises

    The bounds of the reviews of ZenzConvert.v, and how an accepted candidate
    constrains the conversion of the text that continues it. *)

From S2P Require Import Prelude Unicode F32 Constraint InputTable Composing Dictionary LatticeIndex Lattice TextUtil Utf8 Template Action Zenz ZenzEvaluator NGram Llama SessionState Session SessionProperties SessionExamples DefaultTables ComposingSpec LatticeSpec ZenzConvert.

(** ** What is kept of an accepted candidate *)

Lemma strip_prefix_app p s : TextUtil.strip_prefix p (p ++ s) = Some s.
Proof. by apply strip_prefix_Some. Qed.

Lemma kept_words_app remaining es rest :
  kept_words (concat (ruby <$> es) ++ remaining) (es ++ rest) =
    (es ≫= λ e, utf8 (word e)) ++ kept_words remaining rest.
Proof.
  induction es as [|e es IH]; [done|]. cbn. rewrite <- (assoc_L (++)), strip_prefix_app.
  by rewrite IH, (assoc_L (++)).
Qed.

Lemma utf8_words es : utf8 (concat (word <$> es)) = es ≫= λ e, utf8 (word e).
Proof. induction es as [|e es IH]; [done|]. cbn. by rewrite utf8_app, IH. Qed.

(** The bytes kept for an input are those of the longest run of the words whose
    readings the input begins with. *)
Lemma kept_words_spec remaining es :
  ∃ n, kept_words remaining es = utf8 (concat (word <$> take n es)) ∧
    concat (ruby <$> take n es) `prefix_of` remaining ∧
    (∀ m, m ≤ length es → concat (ruby <$> take m es) `prefix_of` remaining → m ≤ n).
Proof.
  revert remaining. induction es as [|e es IH]; intros remaining.
  - exists 0. split_and!; [done|apply prefix_nil|]. intros m Hm _. exact Hm.
  - cbn [kept_words]. destruct (TextUtil.strip_prefix (ruby e) remaining) as [next|] eqn:E.
    + apply strip_prefix_Some in E as ->. destruct (IH next) as (n & -> & [k ->] & Hmax).
      exists (S n). cbn. rewrite utf8_app. split_and!; [done| |].
      * by apply prefix_app, prefix_app_r.
      * intros [|m] Hm Hp; [lia|]. cbn in Hm, Hp.
        apply prefix_app_inv in Hp. apply le_n_S, Hmax; [lia|done].
    + exists 0. split_and!; [done|apply prefix_nil|]. intros [|m] Hm Hp; [lia|].
      cbn in Hp. destruct Hp as [k Hp]. rewrite Hp, <- (assoc_L (++)), strip_prefix_app in E. done.
Qed.

(** ** The reviews *)

Section reviews.
Context `{Segmentation} `{IterationOrder} `{Chrono} `{Icu} `{Rng} {E : Type} `{Dictionary E}.
Context {M : Type} `{ZenzLanguageModel M} `{Libm} (tables : InputTableRegistry) (t : Moment).
Context (options : ZenzConversionOptions) (lattice_input : ustring).

#[local] Notation state := ((ConversionSession * World) * (ZenzEvaluator * M))%type.
#[local] Notation converting A := (action state (ZenzConversionError E) A).

Lemma finish_runs inserted cache c (st : state) :
  finish (E:=E) inserted cache c st = (((set_candidates inserted st.1.1, st.1.2), st.2), Return (c, cache)).
Proof. by destruct st as [[s w] m]. Qed.

(** The outcome of reviews with [n] inferences and [shown] candidates so far *)
Record outcome_ok (n shown : nat) (r : option Candidate) (cache : ZenzConversionCache) (st : state) : Prop := {
  outcome_input : cache_input cache = lattice_input;
  outcome_count : rich options = false → length (candidates st.1.1) ≤ shown + n;
  outcome_accepted c : r = Some c →
    head (candidates st.1.1) = Some c ∧ satisfying_candidate cache = Some c ∧
    evaluated_satisfying_candidate cache = Some c;
}.

(** Every run that returns ends so. *)
Definition ends (n shown : nat) (m : converting (option Candidate * ZenzConversionCache)) : Prop :=
  ∀ st st' r cache, m st = (st', Return (r, cache)) → outcome_ok n shown r cache st'.

Lemma ends_finish n shown inserted cache :
  cache_input cache = lattice_input → length inserted ≤ shown + n → ends n shown (finish inserted cache None).
Proof.
  intros Hinput Hlen st st' r c. rewrite finish_runs. intros [= <- <- <-]. by split.
Qed.

Lemma insert_alternative_head constructed c inserted alternative (st st' : state) inserted' :
  insert_alternative tables t constructed (c :: inserted) alternative st = (st', Return inserted') →
  ∃ rest, inserted' = c :: rest.
Proof.
  unfold insert_alternative. cbv zeta. intros (st1 & found & _ & Hrun)%bind_Return. revert Hrun.
  destruct found as [x|]; intros [= <- <-]; cbn; eauto.
Qed.

Lemma insert_rich_head constructed c inserted alternatives (st st' : state) inserted' :
  insert_rich_candidates tables t (c :: inserted) constructed alternatives st = (st', Return inserted') →
  ∃ rest, inserted' = c :: rest.
Proof.
  unfold insert_rich_candidates. generalize (filter (λ a, flt (fdiv (of_nat 1) (of_nat 4)) (probability_ratio a) = true) (reverse alternatives)).
  intros l. revert st inserted. induction l as [|a l IH]; intros st inserted; cbn [for_each].
  - intros [= <- <-]. eauto.
  - intros (st1 & inserted1 & Hrun & Hrest)%bind_Return.
    apply insert_alternative_head in Hrun as [rest ->]. by eapply IH.
Qed.

Lemma ends_research n shown next_review k constructed inserted :
  (∀ k constructed draft index c, ends n shown (next_review k constructed inserted draft index c)) →
  length inserted ≤ shown →
  ends n shown (research tables t options lattice_input next_review k constructed inserted).
Proof.
  intros Hreview Hlen st st' r cache. unfold research. intros (st1 & draft & _ & Hrun)%bind_Return.
  revert Hrun. destruct (best_candidate draft) as [[index c]|]; [apply Hreview|].
  apply ends_finish; [done|lia].
Qed.

Lemma ends_review model_input cursor defers cache n k constructed inserted draft index c :
  ends (S n) (length inserted)
    (review tables t options lattice_input model_input cursor defers cache n k constructed inserted draft index c).
Proof.
  revert k constructed inserted draft index c. induction n as [|n IH]; intros k constructed inserted draft index c.
  { apply ends_finish; [done|cbn; lia]. }
  assert (IH' : ∀ k constructed draft index c',
    ends (S (S n)) (length inserted) (review tables t options lattice_input model_input cursor defers cache n
      k constructed (c :: inserted) draft index c')).
  { intros k' constructed' draft' index' c' st st' r cache' Hrun.
    destruct (IH _ _ _ _ _ _ st st' r cache' Hrun) as [Hi Hl Ha]. split; [done| |done].
    intros Hr. specialize (Hl Hr). cbn in Hl. lia. }
  cbn [review]. destruct defers; [by apply ends_finish; [|cbn; lia]|].
  intros st st' r cache'. intros (st1 & evaluation & _ & Hrun)%bind_Return. revert Hrun.
  assert (Hrejected : ∀ next, ends (S (S n)) (length inserted)
    (let '(k, act) := review_rejection k (with_fixed_prefix (fixed_prefix k) next) draft index c in
     match act with
     | Fail => finish (c :: inserted) (cached lattice_input default_constraint None None) None
     | Retry index =>
         c' ← expect (draft !! index);
         review tables t options lattice_input model_input cursor false cache n k constructed (c :: inserted) draft index c'
     | Research => research tables t options lattice_input
         (review tables t options lattice_input model_input cursor false cache n) k constructed (c :: inserted)
     end)).
  { intros next. destruct (review_rejection _ _ _ _ _) as [k' []].
    - apply ends_finish; [done|cbn; lia].
    - intros st2 st3 r2 cache2. intros (st4 & c' & _ & Hrun)%bind_Return. by eapply IH'.
    - intros st2 st3 r2 cache2 Hrun.
      destruct (ends_research (S n) (S (length inserted)) _ k' constructed (c :: inserted)
        (λ k c d i c', IH k c _ d i c') (Nat.le_refl _) _ _ _ _ Hrun) as [Hi Hl Ha].
      split; [done| |done]. intros Hr. specialize (Hl Hr). lia. }
  destruct evaluation as [score alternatives|bytes|result]; [|apply Hrejected..].
  intros (st2 & inserted' & Hins & Hrun)%bind_Return. rewrite finish_runs in Hrun. injection Hrun as <- <- <-.
  assert (Hhead : ∃ rest, inserted' = c :: rest).
  { destruct (rich options); [by eapply insert_rich_head|]. injection Hins as _ <-. eauto. }
  split; [done| |].
  - intros Hr. rewrite Hr in Hins. injection Hins as _ <-. cbn. lia.
  - intros c' [= <-]. destruct Hhead as [rest ->]. done.
Qed.

(** ** Without inferences the model is not asked *)

(** The evaluator and the model stay as they are, and nothing is accepted. *)
Definition unasked (m : converting (option Candidate * ZenzConversionCache)) : Prop :=
  ∀ st, (m st).1.2 = st.2 ∧ ∀ r cache, (m st).2 = Return (r, cache) → r = None.

Lemma unasked_finish inserted cache : unasked (finish inserted cache None).
Proof. intros st. rewrite finish_runs. split; [done|]. by intros r c [= <- _]. Qed.

Lemma of_session_snd {A} (m : action (ConversionSession * World) E A) (st : state) :
  (of_session (M:=M) m st).1.2 = st.2.
Proof. destruct st as [sw em]. unfold of_session, on_fst. by destruct (map_error _ m sw). Qed.

Lemma unasked_bind {A} (m : action (ConversionSession * World) E A) f :
  (∀ a, unasked (f a)) → unasked (of_session m ≫= f).
Proof.
  intros Hf st. pose proof (of_session_snd m st) as Hm. unfold mbind, action_bind.
  destruct (of_session m st) as [st1 [a|e|]]; [|done..]. destruct (Hf a st1) as [Hst Hr].
  split; [by rewrite Hst|done].
Qed.

Lemma unasked_research next_review k constructed inserted :
  (∀ k constructed draft index c, unasked (next_review k constructed inserted draft index c)) →
  unasked (research tables t options lattice_input next_review k constructed inserted).
Proof.
  intros Hreview. apply unasked_bind. intros draft. destruct (best_candidate draft) as [[index c]|]; [apply Hreview|].
  apply unasked_finish.
Qed.

Lemma unasked_review model_input cursor defers cache n k constructed inserted draft index c :
  n = 0 ∨ defers = true →
  unasked (review tables t options lattice_input model_input cursor defers cache n k constructed inserted draft index c).
Proof. intros [->| ->]; [apply unasked_finish|]. destruct n; apply unasked_finish. Qed.
(** ** How often the model is asked *)

(** From one state of the evaluator and the model to another by so many evaluations *)
Inductive asked : nat → ZenzEvaluator * M → ZenzEvaluator * M → Prop :=
  | asked_none em : asked 0 em em
  | asked_once request n em em' : asked n (evaluate request em).1 em' → asked (S n) em em'.

Lemma asked_app n k em em1 em2 : asked n em em1 → asked k em1 em2 → asked (n + k) em em2.
Proof. induction 1; [done|]. intros ?. cbn. econstructor. eauto. Qed.

(** However it ends, the action makes at most [n] evaluations. *)
Definition asks {A} (n : nat) (m : converting A) : Prop := ∀ st, ∃ k, k ≤ n ∧ asked k st.2 (m st).1.2.

Lemma asks_none {A} (m : converting A) : (∀ st, (m st).1.2 = st.2) → asks 0 m.
Proof. intros Hm st. exists 0. split; [done|]. rewrite Hm. constructor. Qed.

Lemma asks_weaken {A} n k (m : converting A) : n ≤ k → asks n m → asks k m.
Proof. intros Hle Hm st. destruct (Hm st) as (i & ? & ?). exists i. split; [lia|done]. Qed.

Lemma asks_bind {A B} n k (m : converting A) (f : A → converting B) :
  asks n m → (∀ a, asks k (f a)) → asks (n + k) (m ≫= f).
Proof.
  intros Hm Hf st. destruct (Hm st) as (i & Hi & Hasked). unfold mbind, action_bind.
  destruct (m st) as [st1 [a|e|]]; cbn [fst snd] in *; [|by exists i; split; [lia|]..].
  destruct (Hf a st1) as (j & Hj & Hasked'). exists (i + j). split; [lia|]. by eapply asked_app.
Qed.

Lemma asks_session {A} (m : action (ConversionSession * World) E A) : asks 0 (of_session m).
Proof. apply asks_none. apply of_session_snd. Qed.
Lemma asks_ret {A} (a : A) : asks 0 (mret a : converting A).
Proof. by apply asks_none. Qed.
Lemma asks_expect {A} (m : option A) : asks 0 (expect m : converting A).
Proof. by apply asks_none. Qed.
Lemma asks_finish inserted cache c : asks 0 (finish inserted cache c).
Proof. apply asks_none. intros st. by rewrite finish_runs. Qed.

Lemma asks_evaluator request : asks 1 (of_evaluator request).
Proof.
  intros [sw em]. exists 1. split; [done|].
  assert ((of_evaluator request (sw, em)).1.2 = (evaluate request em).1) as ->.
  { unfold of_evaluator, on_snd, map_error. by destruct (evaluate request em) as [em' [a|e|]]. }
  eapply asked_once, asked_none.
Qed.

Lemma asks_rich inserted constructed alternatives :
  asks 0 (insert_rich_candidates tables t inserted constructed alternatives).
Proof.
  unfold insert_rich_candidates. generalize (filter (λ a, flt (fdiv (of_nat 1) (of_nat 4)) (probability_ratio a) = true) (reverse alternatives)).
  intros l. revert inserted. induction l as [|a l IH]; intros inserted; cbn [for_each]; [apply asks_ret|].
  apply (asks_bind 0 0); [|apply IH]. unfold insert_alternative. cbv zeta.
  apply (asks_bind 0 0); [|intros found; apply asks_ret].
  destruct (max_by _ _ _); [apply asks_ret|]. destruct (flt _ _); [|apply asks_ret].
  apply (asks_bind 0 0); [apply asks_session|intros draft; apply asks_ret].
Qed.

Lemma asks_research n next_review k constructed inserted :
  (∀ k constructed draft index c, asks n (next_review k constructed inserted draft index c)) →
  asks n (research tables t options lattice_input next_review k constructed inserted).
Proof.
  intros Hreview. apply (asks_bind 0 n); [apply asks_session|]. intros draft.
  destruct (best_candidate draft) as [[index c]|]; [apply Hreview|].
  eapply asks_weaken; [|apply asks_finish]. lia.
Qed.

(** Every review uses up one of the inferences. *)
Lemma asks_review model_input cursor defers cache n k constructed inserted draft index c :
  asks n (review tables t options lattice_input model_input cursor defers cache n k constructed inserted draft index c).
Proof.
  revert k constructed inserted draft index c. induction n as [|n IH]; intros k constructed inserted draft index c.
  { apply asks_finish. }
  cbn [review]. destruct defers; [eapply asks_weaken; [|apply asks_finish]; lia|].
  apply (asks_bind 1 n); [apply asks_evaluator|].
  assert (Hrejected : ∀ next, asks n
    (let '(k, act) := review_rejection k (with_fixed_prefix (fixed_prefix k) next) draft index c in
     match act with
     | Fail => finish (c :: inserted) (cached lattice_input default_constraint None None) None
     | Retry index =>
         c' ← expect (draft !! index);
         review tables t options lattice_input model_input cursor false cache n k constructed (c :: inserted) draft index c'
     | Research => research tables t options lattice_input
         (review tables t options lattice_input model_input cursor false cache n) k constructed (c :: inserted)
     end)).
  { intros next. destruct (review_rejection _ _ _ _ _) as [k' []].
    - eapply asks_weaken; [|apply asks_finish]. lia.
    - apply (asks_bind 0 n); [apply asks_expect|]. intros c'. apply IH.
    - apply asks_research. intros. apply IH. }
  intros [score alternatives|bytes|result]; [|apply Hrejected..].
  apply (asks_bind 0 n); [destruct (rich options); [apply asks_rich|apply asks_ret]|].
  intros inserted'. eapply asks_weaken; [|apply asks_finish]. lia.
Qed.
End reviews.

(** C16. The conversion with the model evaluates at most as many candidates as it may make
    inferences, however it ends. When it returns, then unless alternatives are asked for
    it shows at most one candidate more than that. Without inferences, or - unless
    alternatives are asked for or the inputs are personalized - while unfinished romaji
    defers the evaluation, the evaluator and the model are not touched and nothing is
    accepted. An accepted candidate is the first of the session, and when its words read
    as the text, the conversion of every text that continues it is constrained to begin
    with all of its words. *)
Theorem zenz_convert_reviews `{Segmentation} `{IterationOrder} `{Chrono} `{Icu} `{Rng} {E : Type} `{Dictionary E}
    {M : Type} `{ZenzLanguageModel M} `{Libm} tables (t : Moment) cache options
    (st : (ConversionSession * World) * (ZenzEvaluator * M)) :
  let run := zenz_convert (E:=E) tables t cache options st in
  (∃ n, n ≤ inference_limit options ∧ asked n st.2 run.1.2) ∧
  ∀ st' r cache', run = (st', Return (r, cache')) →
  let input := Kana.to_katakana (surface_of (composing st.1.1)) in
  cache_input cache' = input ∧
  (rich options = false → length (candidates st'.1.1) ≤ S (inference_limit options)) ∧
  (inference_limit options = 0 ∨
   (rich options = false ∧ options_personalization options = None ∧ 0 < pending_zenz_suffix_count tables st.1.1) →
   st'.2 = st.2 ∧ r = None) ∧
  (∀ c, r = Some c →
     head (candidates st'.1.1) = Some c ∧
     ∀ continued, concat (ruby <$> entries c) = input →
       constraint_for cache' (input ++ continued) = constraint_new (utf8 (concat (word <$> entries c)))).
Proof.
  split.
  { unfold zenz_convert. apply (asks_bind 0 (inference_limit options)); [apply asks_session|]. intros s. cbv zeta.
    apply asks_research. intros. apply asks_review. }
  intros st' r cache' Hrun input. unfold zenz_convert in Hrun. destruct st as [[s w] em].
  apply bind_Return in Hrun as (st1 & s1 & Hread & Hrun). injection Hread as <- <-. cbv zeta in Hrun.
  cbn [fst snd] in *. change (id s) with s in Hrun. fold input in Hrun.
  set (defers := _ && bool_decide (0 < _)) in Hrun.
  destruct (ends_research tables t options input (S (inference_limit options)) 0 _ _ _ []
    (λ k c d i x, ends_review tables t options input _ _ defers cache (inference_limit options) k c [] d i x)
    (Nat.le_refl 0) _ _ _ _ Hrun) as [Hi Hl Ha].
  split_and!; [done|done| |].
  - intros Hcase.
    assert (Hn : inference_limit options = 0 ∨ defers = true).
    { destruct Hcase as [?|(Hr & Hp & Hs)]; [by left|right]. subst defers. by rewrite Hr, !bool_decide_true. }
    match type of Hrun with ?m ?st = _ =>
      assert (unasked m) as Hunasked; [|destruct (Hunasked st) as [Hst Hr]]
    end.
    { apply unasked_research. intros k constructed draft index c. by apply unasked_review. }
    rewrite Hrun in Hst, Hr. split; [exact Hst|by eapply Hr].
  - intros c Hc. destruct (Ha c Hc) as (Hhead & Hsat & _). split; [done|]. intros continued Hreads.
    unfold constraint_for. rewrite Hsat. f_equal.
    pose proof (kept_words_app continued (entries c) []) as Hkept. rewrite app_nil_r in Hkept.
    rewrite <- Hreads, Hkept. cbn. by rewrite app_nil_r, utf8_words.
Qed.

(** ** A small reviewer *)

#[local] Existing Instance scalar_clusters.
#[local] Existing Instance map_order.
#[local] Existing Instance toy_dictionary.
#[local] Existing Instance still_clock.
#[local] Existing Instance no_locales.
#[local] Existing Instance lowest.

Definition review_pieces : list ustring := u <$> ["x"; "柿"; "蚊"; "木"; "カ"; "キ"].

(** A row that expects one token *)
Definition expecting (wanted : nat) : list f32 := <[wanted := of_nat 8]> (replicate 7 (fopp (of_nat 8))).

(** After 蚊 comes 木, then the end, and everything else begins with 蚊. *)
Definition expected_after (t : token) : nat :=
  if decide (t = 3%Z) then 6 else if decide (t = 2%Z) then 3 else 2.

#[local] Instance review_libm : Libm :=
  {| f32_exp x := fadd (of_nat 1) (fmul x (lit 1 100)); f32_ln x := fsub x (of_nat 1) |}.

#[local] Instance reviewer : ZenzLanguageModel () := {|
  vocabulary_size := λ _, 7;
  eos_token := λ _, 6%Z;
  tokenize := λ s _, mret (omap (λ c, '(i, _) ← list_find (λ p, p = [c]) review_pieces; Some (Z.of_nat i)) s);
  token_to_piece := λ t, mret (default [] (utf8 <$> review_pieces !! Z.to_nat t));
  next_logits := λ ts, mret (expecting (default 2 (expected_after <$> last ts)));
  logits_for_suffix := λ ts n _, mret (concat ((λ t, expecting (expected_after t)) <$> drop n ts));
|}.

Definition reviewed (limit : nat) :=
  zenz_convert (E:=()) (M:=()) default_registry toy_moment default_cache
    {| options_version := default_version; rich := false; inference_limit := limit; options_personalization := None |}
    (after typing_kaki, (default_evaluator, ())).

(** The first draft 柿 is rejected, and 蚊木 accepted in its place; without
    inferences the draft stays. *)
Definition reviewed_texts (limit : nat) : list ustring * option ustring :=
  let '(st, r) := reviewed limit in
  (text <$> candidates st.1.1, match r with Return (Some c, _) => Some (text c) | _ => None end).

Example kaki_reviewed :
  reviewed_texts 5 = ([u "蚊木"; u "柿"], Some (u "蚊木")) ∧ reviewed_texts 0 = ([u "柿"], None).
Proof. vm_compute. by split. Qed.

Lemma zenz_convert_reviews_witness :
  ∃ st' c cache', reviewed 5 = (st', Return (Some c, cache')) ∧
    head (candidates st'.1.1) = Some c ∧ length (candidates st'.1.1) ≤ 6 ∧
    (∃ n, n ≤ 5 ∧ asked n (default_evaluator, ()) st'.2) ∧
    constraint_for cache' (u "カキノ") = constraint_new (utf8 (u "蚊木")).
Proof.
  destruct (reviewed 5) as [st' [[[c|] cache']|e|]] eqn:Hrun;
    try (exfalso; apply (f_equal snd) in Hrun; revert Hrun; vm_compute; discriminate).
  assert (Hc : ([text c; concat (ruby <$> entries c); concat (word <$> entries c)] : list ustring) =
               [u "蚊木"; u "カキ"; u "蚊木"]).
  { assert (Hshown : match (reviewed 5).2 with
                     | Return (Some c, _) =>
                         ([text c; concat (ruby <$> entries c); concat (word <$> entries c)] : list ustring) =
                         [u "蚊木"; u "カキ"; u "蚊木"]
                     | _ => False
                     end) by (vm_compute; reflexivity).
    by rewrite Hrun in Hshown. }
  injection Hc as _ Hreading Hwords.
  pose proof (zenz_convert_reviews (E:=()) (M:=()) default_registry toy_moment default_cache
    {| options_version := default_version; rich := false; inference_limit := 5; options_personalization := None |}
    (after typing_kaki, (default_evaluator, ()))) as [Hasked Hreturns].
  fold (reviewed 5) in Hasked, Hreturns. rewrite Hrun in Hasked.
  destruct (Hreturns _ _ _ Hrun) as (_ & Hcount & _ & Haccepted).
  destruct (Haccepted c eq_refl) as [Hhead Hkept].
  exists st', c, cache'. split; [reflexivity|]. split; [exact Hhead|]. split; [exact (Hcount eq_refl)|]. split; [exact Hasked|].
  rewrite <- Hwords. apply (Hkept (u "ノ")). rewrite Hreading. vm_compute. reflexivity.
Defined.
