(* ===== verification/Protocol.v ===== *)
(** * Messages of the daemon protocol

    The messages of src/ipc/beankey.proto as the generated code presents them:
    an enumeration field is an [i32], decoded where it is read; an unknown value
    decodes to nothing. *)

From S2P Require Import Prelude Unicode F32.

Module Wire.

Inductive InputStyle := Unspecified | Direct | RomanToKana | Azik | KanaJis | KanaUs | Custom.
Definition input_styles : list InputStyle := [Unspecified; Direct; RomanToKana; Azik; KanaJis; KanaUs; Custom].

Inductive KeyboardLanguage := LanguageUnspecified | Japanese | EnglishUs | Greek.
Definition keyboard_languages : list KeyboardLanguage := [LanguageUnspecified; Japanese; EnglishUs; Greek].

Inductive UserAction :=
  | ActionUnspecified | Input | Backspace | DeleteForward | Enter | Escape | Space | Tab
  | Left | Right | Up | Down | PageUp | PageDown | Forget
  | Hiragana | Katakana | HalfWidthKatakana | FullWidthRoman | HalfWidthRoman
  | Consume | StartUnicodeInput | Eisu | Kana.
Definition user_actions : list UserAction :=
  [ActionUnspecified; Input; Backspace; DeleteForward; Enter; Escape; Space; Tab; Left; Right; Up; Down;
   PageUp; PageDown; Forget; Hiragana; Katakana; HalfWidthKatakana; FullWidthRoman; HalfWidthRoman;
   Consume; StartUnicodeInput; Eisu; Kana].

Inductive Direction := DirectionUnspecified | Previous | Next.
Definition directions : list Direction := [DirectionUnspecified; Previous; Next].

Inductive InputState := StateUnspecified | StateNone | Composing | Previewing | Selecting | StateUnicode.
Inductive InputLanguage := InputLanguageUnspecified | InputJapanese | InputEnglish.
Inductive CandidateWindow := WindowUnspecified | Hidden | Preview | WindowSelecting.
Inductive Code :=
  | CodeUnspecified | UnsupportedVersion | InvalidPayload | MessageTooLarge | UnknownSession
  | OutOfOrderRequest | Internal.

#[global] Instance InputStyle_eq_dec : EqDecision InputStyle.
Proof. solve_decision. Defined.
#[global] Instance KeyboardLanguage_eq_dec : EqDecision KeyboardLanguage.
Proof. solve_decision. Defined.
#[global] Instance UserAction_eq_dec : EqDecision UserAction.
Proof. solve_decision. Defined.
#[global] Instance InputState_eq_dec : EqDecision InputState.
Proof. solve_decision. Defined.
#[global] Instance CandidateWindow_eq_dec : EqDecision CandidateWindow.
Proof. solve_decision. Defined.

(** [TryFrom<i32>] of an enumeration whose values are numbered from zero *)
Definition try_from {A} (values : list A) (z : Z) : option A :=
  if decide (0 ≤ z < Z.of_nat (length values))%Z then values !! Z.to_nat z else None.

(** ** Requests *)

Record SurroundingText := { available : bool; surrounding_text : ustring; text_cursor : N; text_anchor : N }.

Record StartSession := {
  start_input_style : Z;
  start_surrounding : option SurroundingText;
  start_keyboard_language : Z;
  custom_input_table : ustring;
}.

Record KeyEvent := {
  action : Z;
  shift : bool;
  key_text : ustring;
  key_surrounding : option SurroundingText;
  key_input : ustring;
  intention : ustring;
  option_key : bool;
}.

Record PageCandidates := { direction : Z; page_size : N }.

(** ** Responses *)

Inductive ComposingCount :=
  | CountInput (n : N)
  | CountSurface (n : N)
  | CountComposite (l r : ComposingCount).

Record Candidate := {
  cand_text : ustring;
  cand_value : f32;
  cand_count : ComposingCount;
  cand_annotation : ustring;
  cand_index : N;
}.

Record Prediction := { display_text : ustring; append_text : ustring; delete_count : N }.

Record StateResponse := {
  consumed : bool;
  preedit : ustring;
  preedit_cursor : N;
  resp_candidates : list Candidate;
  selected_candidate : Z;
  commit : ustring;
  resp_reset : bool;
  lm_typo_available : bool;
  learning_available : bool;
  learning_writable : bool;
  input_state : InputState;
  candidate_window : CandidateWindow;
  highlighted_preedit_length : N;
  prediction : option Prediction;
  input_language : InputLanguage;
}.

Record TypoCorrectionCandidate := {
  corrected_input : ustring;
  converted_text : ustring;
  typo_score : f32;
  language_model_score : f32;
  channel_cost : f32;
  prominence : f32;
}.

(** ** Envelopes *)

Inductive Payload :=
  | PStartSession (start : StartSession)
  | PResetSession
  | PEndSession
  | PKeyEvent (event : KeyEvent)
  | PSelectCandidate (index : N)
  | PPageCandidates (page : PageCandidates)
  | PCommitComposition
  | PForgetCandidate (index : N)
  | PResetLearning
  | PRequestTypoCorrections
  | PSelectTypoCorrection (index : N)
  | PStateResponse (response : StateResponse)
  | PTypoCorrectionResponse (candidates : list TypoCorrectionCandidate)
  | PProtocolError (code : Code) (message : ustring).

Record Envelope := {
  protocol_version : N;
  request_id : N;
  session_id : ustring;
  payload : option Payload;
}.
End Wire.
