(* ===== verification/EngineInput.v ===== *)
(** * Key events of the daemon

    The parts of src/crates/daemon/src/engine.rs that read a request without a
    session: the text of a key event and what it is replaced by, the text around
    the cursor, styles and languages, and the edit that a prediction stands for. *)

From S2P Require Import Prelude Unicode F32 InputTable Composing Prediction TextUtil LearningRecords Foreign Zenz SessionState Protocol.

(** [chars().any(char::is_control)] *)
Definition has_control (s : ustring) : bool := existsb is_control s.

Definition or_else_text (a b : ustring) : ustring := match a with [] => b | _ => a end.

(** ** Texts of events *)

Inductive PunctuationStyleConfig := KutenAndToten | KutenAndComma | PeriodAndToten | PeriodAndComma.

(** [comma] and [period]; the literals of the function *)
Definition TOTEN : ustring := Eval vm_compute in u "、".
Definition WIDE_COMMA : ustring := Eval vm_compute in u "，".
Definition KUTEN : ustring := Eval vm_compute in u "。".
Definition WIDE_PERIOD : ustring := Eval vm_compute in u "．".

Definition comma (style : PunctuationStyleConfig) (inverted : bool) : ustring :=
  let comma := match style with KutenAndComma | PeriodAndComma => WIDE_COMMA | _ => TOTEN end in
  if inverted then (if decide (comma = WIDE_COMMA) then TOTEN else WIDE_COMMA) else comma.

Definition period (style : PunctuationStyleConfig) (inverted : bool) : ustring :=
  let period := match style with PeriodAndToten | PeriodAndComma => WIDE_PERIOD | _ => KUTEN end in
  if inverted then (if decide (period = WIDE_PERIOD) then KUTEN else WIDE_PERIOD) else period.

Record InputBehavior := {
  type_backslash : bool;
  type_half_space : bool;
  option_direct_full_width_input : bool;
  punctuation_style : PunctuationStyleConfig;
}.
Definition default_behavior : InputBehavior :=
  {| type_backslash := false; type_half_space := false; option_direct_full_width_input := false;
     punctuation_style := KutenAndToten |}.

(** [japanese_symbol_intention]: pairs of the symbol and what is meant; the first is
    a quotation mark and its wide form. *)
Definition SYMBOLS : list (ustring * ustring) := Eval vm_compute in
  ([34%N], u "”") :: ((λ p, (u p.1, u p.2)) <$>
    [("!", "！"); ("#", "＃"); ("$", "＄"); ("%", "％"); ("&", "＆"); ("'", "’"); ("(", "（"); (")", "）");
     ("=", "＝"); ("~", "〜"); ("|", "｜"); ("`", "｀"); ("{", "『"); ("+", "＋"); ("*", "＊"); ("}", "』");
     ("<", "＜"); (">", "＞"); ("?", "？"); ("_", "＿"); ("-", "ー"); ("^", "＾"); ("\", "＼"); ("¥", "￥");
     ("@", "＠"); ("[", "「"); (";", "；"); (":", "："); ("]", "」"); (",", "、"); (".", "。"); ("/", "・")]).

Definition japanese_symbol_intention (input : ustring) : option ustring :=
  '(_, p) ← list_find (λ p, p.1 = input) SYMBOLS;
  Some p.2.

Definition valid_event_text (e : Wire.KeyEvent) : bool :=
  negb (bool_decide (Wire.key_text e = [])) && negb (has_control (Wire.key_text e))
  && negb (has_control (Wire.key_input e)) && negb (has_control (Wire.intention e)).

Definition YEN : ustring := Eval vm_compute in u "¥".
Definition BACKSLASH : ustring := Eval vm_compute in u "\".

Definition is_yen (s : ustring) : bool := bool_decide (s = YEN) || bool_decide (s = BACKSLASH).

(** [option_direct_input_text]; the outer option is the panic of [to_full_width]. *)
Definition option_direct_input_text (e : Wire.KeyEvent) (backslash : bool) : option (option ustring) :=
  let input := or_else_text (Wire.intention e) (or_else_text (Wire.key_input e) (Wire.key_text e)) in
  if bool_decide (input = []) || has_control input then Some None
  else
    let normalized := if is_yen input then (if backslash then BACKSLASH else YEN) else input in
    wide ← to_full_width normalized; Some (Some wide).

(** The literals of [normalize_input_event] *)
Definition WIDE_BAR : ustring := Eval vm_compute in u "｜".
Definition WIDE_BACKSLASH : ustring := Eval vm_compute in u "＼".
Definition WIDE_YEN : ustring := Eval vm_compute in u "￥".
Definition ELLIPSIS : ustring := Eval vm_compute in u "…".
Definition WIDE_SLASH : ustring := Eval vm_compute in u "／".
Definition WIDE_BRACES : ustring * ustring := Eval vm_compute in (u "｛", u "｝").
Definition WIDE_BRACKETS : ustring * ustring := Eval vm_compute in (u "［", u "］").

(** The replacement of the logical key, or of the input *)
Definition normalized_key (e : Wire.KeyEvent) (behavior : InputBehavior) (logical input : ustring) :
    option ustring :=
  if is_yen logical then
    if Wire.shift e then Some WIDE_BAR
    else if negb (eqb (type_backslash behavior) (Wire.option_key e)) then Some WIDE_BACKSLASH
    else Some WIDE_YEN
  else if bool_decide (logical = [44%N]) && negb (Wire.shift e) then
    Some (comma (punctuation_style behavior) (Wire.option_key e))
  else if bool_decide (logical = [46%N]) && negb (Wire.shift e) then
    Some (period (punctuation_style behavior) (Wire.option_key e))
  else if bool_decide (logical = [47%N]) && Wire.option_key e then
    Some (if Wire.shift e then ELLIPSIS else WIDE_SLASH)
  else if bool_decide (logical = [91%N]) && Wire.option_key e then
    Some (if Wire.shift e then WIDE_BRACES.1 else WIDE_BRACKETS.1)
  else if bool_decide (logical = [93%N]) && Wire.option_key e then
    Some (if Wire.shift e then WIDE_BRACES.2 else WIDE_BRACKETS.2)
  else japanese_symbol_intention input.

(** The event with another text that is also its intention *)
Definition retyped (text : ustring) (e : Wire.KeyEvent) : Wire.KeyEvent :=
  {| Wire.action := Wire.action e; Wire.shift := Wire.shift e; Wire.key_text := text;
     Wire.key_surrounding := Wire.key_surrounding e; Wire.key_input := Wire.key_input e;
     Wire.intention := text; Wire.option_key := Wire.option_key e |}.

Definition user_action (e : Wire.KeyEvent) : option Wire.UserAction :=
  Wire.try_from Wire.user_actions (Wire.action e).

Definition normalize_input_event (e : Wire.KeyEvent) (behavior : InputBehavior) : Wire.KeyEvent :=
  if decide (user_action e ≠ Some Wire.Input) then e
  else
    let input := or_else_text (Wire.key_input e) (Wire.key_text e) in
    let logical := if Wire.option_key e && negb (bool_decide (Wire.intention e = []))
                   then Wire.intention e else input in
    match normalized_key e behavior logical input with
    | Some normalized => retyped normalized e
    | None =>
        if Wire.option_key e && negb (bool_decide (input = [])) && forallb (λ c, negb (is_control c)) input
        then retyped input e else e
    end.

(** [selection_number] *)
Definition selection_number (text : ustring) : option nat :=
  match text with [c] => N.to_nat <$> to_digit 10 c | _ => None end.

(** ** The text around the cursor *)

Record SurroundingContext := { left : option ustring; right : option ustring }.
Definition no_surrounding : SurroundingContext := {| left := None; right := None |}.

Definition NEWLINE : char := 10%N.

(** The part of a text before its first newline *)
Fixpoint first_line (s : ustring) : ustring :=
  match s with [] => [] | c :: s => if decide (c = NEWLINE) then [] else c :: first_line s end.
(** [rsplit('\n').next()] *)
Definition last_line (s : ustring) : ustring := reverse (first_line (reverse s)).
Definition trim_end (s : ustring) : ustring := reverse (trim_start (reverse s)).

Definition out_of_range (cursor anchor : N) (count : nat) : ustring :=
  u "surrounding text cursor " ++ show (Z.of_N cursor) ++ u " and anchor " ++ show (Z.of_N anchor)
  ++ u " exceed " ++ show (Z.of_nat count) ++ u " characters".

(** The last, or first, thirty characters *)
Definition last_thirty (s : ustring) : ustring := drop (length s - 30) s.

Definition surrounding_context (surrounding : option Wire.SurroundingText) : result ustring SurroundingContext :=
  match surrounding with
  | None => Ok no_surrounding
  | Some surrounding =>
      if negb (Wire.available surrounding) then Ok no_surrounding
      else
        let text := Wire.surrounding_text surrounding in
        let cursor := Wire.text_cursor surrounding in
        let anchor := Wire.text_anchor surrounding in
        if decide (N.of_nat (length text) < cursor ∨ N.of_nat (length text) < anchor)%N
        then Err (out_of_range cursor anchor (length text))
        else
          let selection_start := N.to_nat (cursor `min` anchor) in
          let selection_end := N.to_nat (cursor `max` anchor) in
          Ok {| left := Some (last_thirty (trim_start (last_line (take selection_start text))));
                right := Some (take 30 (trim_end (first_line (drop selection_end text)))) |}
  end.

Definition version_with_context (version : ZenzVersionConfig) (surrounding : SurroundingContext) : ZenzVersionConfig :=
  match version with
  | V2 config =>
      V2 {| v2_profile := v2_profile config; v2_left_context := left surrounding;
            v2_max_left_context_length := v2_max_left_context_length config |}
  | V3 config =>
      V3 {| profile := profile config; topic := topic config; style := style config;
            preference := preference config; left_context := left surrounding;
            right_context := right surrounding; max_left_context_length := max_left_context_length config;
            max_right_context_length := max_right_context_length config;
            enable_alignment_separator := enable_alignment_separator config |}
  end.

Definition surrounding_with_left_context (surrounding : SurroundingContext) (left_context : option ustring) :
    SurroundingContext :=
  match left_context with
  | Some text => {| left := Some text; right := right surrounding |}
  | None => surrounding
  end.

(** ** Styles and languages of a request *)

Definition input_style_of (value : Z) (custom_table : ustring) (tables : InputTableRegistry) : option InputStyle :=
  wire ← Wire.try_from Wire.input_styles value;
  match wire with
  | Wire.Unspecified => None
  | Wire.Direct => Some Direct
  | Wire.RomanToKana => Some RomanToKana
  | Wire.Azik => Some (Mapped DefaultAzik)
  | Wire.KanaJis => Some (Mapped DefaultKanaJis)
  | Wire.KanaUs => Some (Mapped DefaultKanaUs)
  | Wire.Custom => if registry_contains tables custom_table then Some (Mapped (Named custom_table)) else None
  end.

Definition keyboard_language_of (value : Z) : option KeyboardLanguage :=
  wire ← Wire.try_from Wire.keyboard_languages value;
  match wire with
  | Wire.LanguageUnspecified => None
  | Wire.Japanese => Some LanguageJapanese
  | Wire.EnglishUs => Some LanguageEnglishUs
  | Wire.Greek => Some LanguageGreek
  end.
