(* ===== verification/EngineState.v ===== *)
(** * The sessions of the daemon: data

    src/crates/daemon/src/engine.rs, [SessionState]: the conversion session of a
    client with the mode of its keys, what it is shown, and what is kept between
    its requests; and what the daemon computes from it without changing it: the
    marked text, the prediction of the input, and the response. *)

From S2P Require Import Prelude Unicode F32 Constraint InputTable Composing Dictionary Lattice Prediction TextUtil Action Zenz LmTypo Foreign SessionState Session ZenzConvert Protocol EngineInput.

Inductive InputMode := ModeNone | ModeComposing | ModePreviewing | ModeSelecting | ModeUnicode.
#[export] Instance InputMode_eq_dec : EqDecision InputMode.
Proof. solve_decision. Defined.

Inductive InputLanguage := Japanese | English.
#[export] Instance InputLanguage_eq_dec : EqDecision InputLanguage.
Proof. solve_decision. Defined.

Record InputPrediction := {
  display_text : ustring;
  append_text : ustring;
  delete_count : nat;
  predicted_candidate : option Candidate;
}.

(** [SessionState] *)
Record EngineSession := {
  conversion : ConversionSession;
  session_style : InputStyle;
  last_request_id : N;
  selected_candidate : nat;
  input_mode : InputMode;
  display_candidates : list Candidate;
  candidate_remainders : list ustring;
  candidate_annotations : list ustring;
  preview_candidate_index : option nat;
  additional_candidate_count : nat;
  segment_surface_count : option nat;
  last_was_backspace : bool;
  prediction : option InputPrediction;
  backspace_correction : option (ustring * ustring);
  live_conversion_enabled : bool;
  surrounding : SurroundingContext;
  request_options : RequestOptions;
  live_candidate : option Candidate;
  typo_corrections : list LmTypoCandidate;
  lm_typo_available : bool;
  learning_available : bool;
  learning_writable : bool;
  zenz_cache : ZenzConversionCache;
  unicode_input : ustring;
  input_language : InputLanguage;
}.

Definition set_conversion (x : ConversionSession) (s : EngineSession) : EngineSession :=
  {| conversion := x; session_style := session_style s; last_request_id := last_request_id s;
     selected_candidate := selected_candidate s; input_mode := input_mode s; display_candidates :=
     display_candidates s; candidate_remainders := candidate_remainders s; candidate_annotations :=
     candidate_annotations s; preview_candidate_index := preview_candidate_index s;
     additional_candidate_count := additional_candidate_count s; segment_surface_count :=
     segment_surface_count s; last_was_backspace := last_was_backspace s; prediction := prediction s;
     backspace_correction := backspace_correction s; live_conversion_enabled := live_conversion_enabled
     s; surrounding := surrounding s; request_options := request_options s; live_candidate :=
     live_candidate s; typo_corrections := typo_corrections s; lm_typo_available := lm_typo_available s;
     learning_available := learning_available s; learning_writable := learning_writable s; zenz_cache :=
     zenz_cache s; unicode_input := unicode_input s; input_language := input_language s |}.

Definition set_last_request_id (x : N) (s : EngineSession) : EngineSession :=
  {| conversion := conversion s; session_style := session_style s; last_request_id := x;
     selected_candidate := selected_candidate s; input_mode := input_mode s; display_candidates :=
     display_candidates s; candidate_remainders := candidate_remainders s; candidate_annotations :=
     candidate_annotations s; preview_candidate_index := preview_candidate_index s;
     additional_candidate_count := additional_candidate_count s; segment_surface_count :=
     segment_surface_count s; last_was_backspace := last_was_backspace s; prediction := prediction s;
     backspace_correction := backspace_correction s; live_conversion_enabled := live_conversion_enabled
     s; surrounding := surrounding s; request_options := request_options s; live_candidate :=
     live_candidate s; typo_corrections := typo_corrections s; lm_typo_available := lm_typo_available s;
     learning_available := learning_available s; learning_writable := learning_writable s; zenz_cache :=
     zenz_cache s; unicode_input := unicode_input s; input_language := input_language s |}.

Definition set_selected_candidate (x : nat) (s : EngineSession) : EngineSession :=
  {| conversion := conversion s; session_style := session_style s; last_request_id := last_request_id s;
     selected_candidate := x; input_mode := input_mode s; display_candidates := display_candidates s;
     candidate_remainders := candidate_remainders s; candidate_annotations := candidate_annotations s;
     preview_candidate_index := preview_candidate_index s; additional_candidate_count :=
     additional_candidate_count s; segment_surface_count := segment_surface_count s; last_was_backspace
     := last_was_backspace s; prediction := prediction s; backspace_correction := backspace_correction
     s; live_conversion_enabled := live_conversion_enabled s; surrounding := surrounding s;
     request_options := request_options s; live_candidate := live_candidate s; typo_corrections :=
     typo_corrections s; lm_typo_available := lm_typo_available s; learning_available :=
     learning_available s; learning_writable := learning_writable s; zenz_cache := zenz_cache s;
     unicode_input := unicode_input s; input_language := input_language s |}.

Definition set_input_mode (x : InputMode) (s : EngineSession) : EngineSession :=
  {| conversion := conversion s; session_style := session_style s; last_request_id := last_request_id s;
     selected_candidate := selected_candidate s; input_mode := x; display_candidates :=
     display_candidates s; candidate_remainders := candidate_remainders s; candidate_annotations :=
     candidate_annotations s; preview_candidate_index := preview_candidate_index s;
     additional_candidate_count := additional_candidate_count s; segment_surface_count :=
     segment_surface_count s; last_was_backspace := last_was_backspace s; prediction := prediction s;
     backspace_correction := backspace_correction s; live_conversion_enabled := live_conversion_enabled
     s; surrounding := surrounding s; request_options := request_options s; live_candidate :=
     live_candidate s; typo_corrections := typo_corrections s; lm_typo_available := lm_typo_available s;
     learning_available := learning_available s; learning_writable := learning_writable s; zenz_cache :=
     zenz_cache s; unicode_input := unicode_input s; input_language := input_language s |}.

Definition set_display_candidates (x : list Candidate) (s : EngineSession) : EngineSession :=
  {| conversion := conversion s; session_style := session_style s; last_request_id := last_request_id s;
     selected_candidate := selected_candidate s; input_mode := input_mode s; display_candidates := x;
     candidate_remainders := candidate_remainders s; candidate_annotations := candidate_annotations s;
     preview_candidate_index := preview_candidate_index s; additional_candidate_count :=
     additional_candidate_count s; segment_surface_count := segment_surface_count s; last_was_backspace
     := last_was_backspace s; prediction := prediction s; backspace_correction := backspace_correction
     s; live_conversion_enabled := live_conversion_enabled s; surrounding := surrounding s;
     request_options := request_options s; live_candidate := live_candidate s; typo_corrections :=
     typo_corrections s; lm_typo_available := lm_typo_available s; learning_available :=
     learning_available s; learning_writable := learning_writable s; zenz_cache := zenz_cache s;
     unicode_input := unicode_input s; input_language := input_language s |}.

Definition set_candidate_remainders (x : list ustring) (s : EngineSession) : EngineSession :=
  {| conversion := conversion s; session_style := session_style s; last_request_id := last_request_id s;
     selected_candidate := selected_candidate s; input_mode := input_mode s; display_candidates :=
     display_candidates s; candidate_remainders := x; candidate_annotations := candidate_annotations s;
     preview_candidate_index := preview_candidate_index s; additional_candidate_count :=
     additional_candidate_count s; segment_surface_count := segment_surface_count s; last_was_backspace
     := last_was_backspace s; prediction := prediction s; backspace_correction := backspace_correction
     s; live_conversion_enabled := live_conversion_enabled s; surrounding := surrounding s;
     request_options := request_options s; live_candidate := live_candidate s; typo_corrections :=
     typo_corrections s; lm_typo_available := lm_typo_available s; learning_available :=
     learning_available s; learning_writable := learning_writable s; zenz_cache := zenz_cache s;
     unicode_input := unicode_input s; input_language := input_language s |}.

Definition set_candidate_annotations (x : list ustring) (s : EngineSession) : EngineSession :=
  {| conversion := conversion s; session_style := session_style s; last_request_id := last_request_id s;
     selected_candidate := selected_candidate s; input_mode := input_mode s; display_candidates :=
     display_candidates s; candidate_remainders := candidate_remainders s; candidate_annotations := x;
     preview_candidate_index := preview_candidate_index s; additional_candidate_count :=
     additional_candidate_count s; segment_surface_count := segment_surface_count s; last_was_backspace
     := last_was_backspace s; prediction := prediction s; backspace_correction := backspace_correction
     s; live_conversion_enabled := live_conversion_enabled s; surrounding := surrounding s;
     request_options := request_options s; live_candidate := live_candidate s; typo_corrections :=
     typo_corrections s; lm_typo_available := lm_typo_available s; learning_available :=
     learning_available s; learning_writable := learning_writable s; zenz_cache := zenz_cache s;
     unicode_input := unicode_input s; input_language := input_language s |}.

Definition set_preview_candidate_index (x : option nat) (s : EngineSession) : EngineSession :=
  {| conversion := conversion s; session_style := session_style s; last_request_id := last_request_id s;
     selected_candidate := selected_candidate s; input_mode := input_mode s; display_candidates :=
     display_candidates s; candidate_remainders := candidate_remainders s; candidate_annotations :=
     candidate_annotations s; preview_candidate_index := x; additional_candidate_count :=
     additional_candidate_count s; segment_surface_count := segment_surface_count s; last_was_backspace
     := last_was_backspace s; prediction := prediction s; backspace_correction := backspace_correction
     s; live_conversion_enabled := live_conversion_enabled s; surrounding := surrounding s;
     request_options := request_options s; live_candidate := live_candidate s; typo_corrections :=
     typo_corrections s; lm_typo_available := lm_typo_available s; learning_available :=
     learning_available s; learning_writable := learning_writable s; zenz_cache := zenz_cache s;
     unicode_input := unicode_input s; input_language := input_language s |}.

Definition set_additional_candidate_count (x : nat) (s : EngineSession) : EngineSession :=
  {| conversion := conversion s; session_style := session_style s; last_request_id := last_request_id s;
     selected_candidate := selected_candidate s; input_mode := input_mode s; display_candidates :=
     display_candidates s; candidate_remainders := candidate_remainders s; candidate_annotations :=
     candidate_annotations s; preview_candidate_index := preview_candidate_index s;
     additional_candidate_count := x; segment_surface_count := segment_surface_count s;
     last_was_backspace := last_was_backspace s; prediction := prediction s; backspace_correction :=
     backspace_correction s; live_conversion_enabled := live_conversion_enabled s; surrounding :=
     surrounding s; request_options := request_options s; live_candidate := live_candidate s;
     typo_corrections := typo_corrections s; lm_typo_available := lm_typo_available s;
     learning_available := learning_available s; learning_writable := learning_writable s; zenz_cache :=
     zenz_cache s; unicode_input := unicode_input s; input_language := input_language s |}.

Definition set_segment_surface_count (x : option nat) (s : EngineSession) : EngineSession :=
  {| conversion := conversion s; session_style := session_style s; last_request_id := last_request_id s;
     selected_candidate := selected_candidate s; input_mode := input_mode s; display_candidates :=
     display_candidates s; candidate_remainders := candidate_remainders s; candidate_annotations :=
     candidate_annotations s; preview_candidate_index := preview_candidate_index s;
     additional_candidate_count := additional_candidate_count s; segment_surface_count := x;
     last_was_backspace := last_was_backspace s; prediction := prediction s; backspace_correction :=
     backspace_correction s; live_conversion_enabled := live_conversion_enabled s; surrounding :=
     surrounding s; request_options := request_options s; live_candidate := live_candidate s;
     typo_corrections := typo_corrections s; lm_typo_available := lm_typo_available s;
     learning_available := learning_available s; learning_writable := learning_writable s; zenz_cache :=
     zenz_cache s; unicode_input := unicode_input s; input_language := input_language s |}.

Definition set_last_was_backspace (x : bool) (s : EngineSession) : EngineSession :=
  {| conversion := conversion s; session_style := session_style s; last_request_id := last_request_id s;
     selected_candidate := selected_candidate s; input_mode := input_mode s; display_candidates :=
     display_candidates s; candidate_remainders := candidate_remainders s; candidate_annotations :=
     candidate_annotations s; preview_candidate_index := preview_candidate_index s;
     additional_candidate_count := additional_candidate_count s; segment_surface_count :=
     segment_surface_count s; last_was_backspace := x; prediction := prediction s; backspace_correction
     := backspace_correction s; live_conversion_enabled := live_conversion_enabled s; surrounding :=
     surrounding s; request_options := request_options s; live_candidate := live_candidate s;
     typo_corrections := typo_corrections s; lm_typo_available := lm_typo_available s;
     learning_available := learning_available s; learning_writable := learning_writable s; zenz_cache :=
     zenz_cache s; unicode_input := unicode_input s; input_language := input_language s |}.

Definition set_input_prediction (x : option InputPrediction) (s : EngineSession) : EngineSession :=
  {| conversion := conversion s; session_style := session_style s; last_request_id := last_request_id s;
     selected_candidate := selected_candidate s; input_mode := input_mode s; display_candidates :=
     display_candidates s; candidate_remainders := candidate_remainders s; candidate_annotations :=
     candidate_annotations s; preview_candidate_index := preview_candidate_index s;
     additional_candidate_count := additional_candidate_count s; segment_surface_count :=
     segment_surface_count s; last_was_backspace := last_was_backspace s; prediction := x;
     backspace_correction := backspace_correction s; live_conversion_enabled := live_conversion_enabled
     s; surrounding := surrounding s; request_options := request_options s; live_candidate :=
     live_candidate s; typo_corrections := typo_corrections s; lm_typo_available := lm_typo_available s;
     learning_available := learning_available s; learning_writable := learning_writable s; zenz_cache :=
     zenz_cache s; unicode_input := unicode_input s; input_language := input_language s |}.

Definition set_backspace_correction (x : option (ustring * ustring)) (s : EngineSession) : EngineSession :=
  {| conversion := conversion s; session_style := session_style s; last_request_id := last_request_id s;
     selected_candidate := selected_candidate s; input_mode := input_mode s; display_candidates :=
     display_candidates s; candidate_remainders := candidate_remainders s; candidate_annotations :=
     candidate_annotations s; preview_candidate_index := preview_candidate_index s;
     additional_candidate_count := additional_candidate_count s; segment_surface_count :=
     segment_surface_count s; last_was_backspace := last_was_backspace s; prediction := prediction s;
     backspace_correction := x; live_conversion_enabled := live_conversion_enabled s; surrounding :=
     surrounding s; request_options := request_options s; live_candidate := live_candidate s;
     typo_corrections := typo_corrections s; lm_typo_available := lm_typo_available s;
     learning_available := learning_available s; learning_writable := learning_writable s; zenz_cache :=
     zenz_cache s; unicode_input := unicode_input s; input_language := input_language s |}.

Definition set_surrounding (x : SurroundingContext) (s : EngineSession) : EngineSession :=
  {| conversion := conversion s; session_style := session_style s; last_request_id := last_request_id s;
     selected_candidate := selected_candidate s; input_mode := input_mode s; display_candidates :=
     display_candidates s; candidate_remainders := candidate_remainders s; candidate_annotations :=
     candidate_annotations s; preview_candidate_index := preview_candidate_index s;
     additional_candidate_count := additional_candidate_count s; segment_surface_count :=
     segment_surface_count s; last_was_backspace := last_was_backspace s; prediction := prediction s;
     backspace_correction := backspace_correction s; live_conversion_enabled := live_conversion_enabled
     s; surrounding := x; request_options := request_options s; live_candidate := live_candidate s;
     typo_corrections := typo_corrections s; lm_typo_available := lm_typo_available s;
     learning_available := learning_available s; learning_writable := learning_writable s; zenz_cache :=
     zenz_cache s; unicode_input := unicode_input s; input_language := input_language s |}.

Definition set_request_options (x : RequestOptions) (s : EngineSession) : EngineSession :=
  {| conversion := conversion s; session_style := session_style s; last_request_id := last_request_id s;
     selected_candidate := selected_candidate s; input_mode := input_mode s; display_candidates :=
     display_candidates s; candidate_remainders := candidate_remainders s; candidate_annotations :=
     candidate_annotations s; preview_candidate_index := preview_candidate_index s;
     additional_candidate_count := additional_candidate_count s; segment_surface_count :=
     segment_surface_count s; last_was_backspace := last_was_backspace s; prediction := prediction s;
     backspace_correction := backspace_correction s; live_conversion_enabled := live_conversion_enabled
     s; surrounding := surrounding s; request_options := x; live_candidate := live_candidate s;
     typo_corrections := typo_corrections s; lm_typo_available := lm_typo_available s;
     learning_available := learning_available s; learning_writable := learning_writable s; zenz_cache :=
     zenz_cache s; unicode_input := unicode_input s; input_language := input_language s |}.

Definition set_live_candidate (x : option Candidate) (s : EngineSession) : EngineSession :=
  {| conversion := conversion s; session_style := session_style s; last_request_id := last_request_id s;
     selected_candidate := selected_candidate s; input_mode := input_mode s; display_candidates :=
     display_candidates s; candidate_remainders := candidate_remainders s; candidate_annotations :=
     candidate_annotations s; preview_candidate_index := preview_candidate_index s;
     additional_candidate_count := additional_candidate_count s; segment_surface_count :=
     segment_surface_count s; last_was_backspace := last_was_backspace s; prediction := prediction s;
     backspace_correction := backspace_correction s; live_conversion_enabled := live_conversion_enabled
     s; surrounding := surrounding s; request_options := request_options s; live_candidate := x;
     typo_corrections := typo_corrections s; lm_typo_available := lm_typo_available s;
     learning_available := learning_available s; learning_writable := learning_writable s; zenz_cache :=
     zenz_cache s; unicode_input := unicode_input s; input_language := input_language s |}.

Definition set_typo_corrections (x : list LmTypoCandidate) (s : EngineSession) : EngineSession :=
  {| conversion := conversion s; session_style := session_style s; last_request_id := last_request_id s;
     selected_candidate := selected_candidate s; input_mode := input_mode s; display_candidates :=
     display_candidates s; candidate_remainders := candidate_remainders s; candidate_annotations :=
     candidate_annotations s; preview_candidate_index := preview_candidate_index s;
     additional_candidate_count := additional_candidate_count s; segment_surface_count :=
     segment_surface_count s; last_was_backspace := last_was_backspace s; prediction := prediction s;
     backspace_correction := backspace_correction s; live_conversion_enabled := live_conversion_enabled
     s; surrounding := surrounding s; request_options := request_options s; live_candidate :=
     live_candidate s; typo_corrections := x; lm_typo_available := lm_typo_available s;
     learning_available := learning_available s; learning_writable := learning_writable s; zenz_cache :=
     zenz_cache s; unicode_input := unicode_input s; input_language := input_language s |}.

Definition set_zenz_cache (x : ZenzConversionCache) (s : EngineSession) : EngineSession :=
  {| conversion := conversion s; session_style := session_style s; last_request_id := last_request_id s;
     selected_candidate := selected_candidate s; input_mode := input_mode s; display_candidates :=
     display_candidates s; candidate_remainders := candidate_remainders s; candidate_annotations :=
     candidate_annotations s; preview_candidate_index := preview_candidate_index s;
     additional_candidate_count := additional_candidate_count s; segment_surface_count :=
     segment_surface_count s; last_was_backspace := last_was_backspace s; prediction := prediction s;
     backspace_correction := backspace_correction s; live_conversion_enabled := live_conversion_enabled
     s; surrounding := surrounding s; request_options := request_options s; live_candidate :=
     live_candidate s; typo_corrections := typo_corrections s; lm_typo_available := lm_typo_available s;
     learning_available := learning_available s; learning_writable := learning_writable s; zenz_cache :=
     x; unicode_input := unicode_input s; input_language := input_language s |}.

Definition set_unicode_input (x : ustring) (s : EngineSession) : EngineSession :=
  {| conversion := conversion s; session_style := session_style s; last_request_id := last_request_id s;
     selected_candidate := selected_candidate s; input_mode := input_mode s; display_candidates :=
     display_candidates s; candidate_remainders := candidate_remainders s; candidate_annotations :=
     candidate_annotations s; preview_candidate_index := preview_candidate_index s;
     additional_candidate_count := additional_candidate_count s; segment_surface_count :=
     segment_surface_count s; last_was_backspace := last_was_backspace s; prediction := prediction s;
     backspace_correction := backspace_correction s; live_conversion_enabled := live_conversion_enabled
     s; surrounding := surrounding s; request_options := request_options s; live_candidate :=
     live_candidate s; typo_corrections := typo_corrections s; lm_typo_available := lm_typo_available s;
     learning_available := learning_available s; learning_writable := learning_writable s; zenz_cache :=
     zenz_cache s; unicode_input := x; input_language := input_language s |}.

Definition set_input_language (x : InputLanguage) (s : EngineSession) : EngineSession :=
  {| conversion := conversion s; session_style := session_style s; last_request_id := last_request_id s;
     selected_candidate := selected_candidate s; input_mode := input_mode s; display_candidates :=
     display_candidates s; candidate_remainders := candidate_remainders s; candidate_annotations :=
     candidate_annotations s; preview_candidate_index := preview_candidate_index s;
     additional_candidate_count := additional_candidate_count s; segment_surface_count :=
     segment_surface_count s; last_was_backspace := last_was_backspace s; prediction := prediction s;
     backspace_correction := backspace_correction s; live_conversion_enabled := live_conversion_enabled
     s; surrounding := surrounding s; request_options := request_options s; live_candidate :=
     live_candidate s; typo_corrections := typo_corrections s; lm_typo_available := lm_typo_available s;
     learning_available := learning_available s; learning_writable := learning_writable s; zenz_cache :=
     zenz_cache s; unicode_input := unicode_input s; input_language := x |}.

Definition clear_presentation (s : EngineSession) : EngineSession :=
  set_live_candidate None (set_input_prediction None (set_additional_candidate_count 0
    (set_preview_candidate_index None (set_candidate_annotations [] (set_candidate_remainders []
      (set_display_candidates [] (set_selected_candidate 0 s))))))).

(** [reset], with the conversion session after its [reset] *)
Definition reset_session (conversion : ConversionSession) (s : EngineSession) : EngineSession :=
  set_unicode_input [] (set_zenz_cache default_cache (set_typo_corrections []
    (clear_presentation (set_backspace_correction None (set_last_was_backspace false
      (set_segment_surface_count None (set_input_mode ModeNone (set_conversion conversion s)))))))).

(** ** The text shown *)

Definition shown_surface (s : EngineSession) : ustring := surface_of (composing (conversion s)).

(** The candidate previewed, and the candidate selected *)
Definition previewed (s : EngineSession) : option Candidate :=
  index ← preview_candidate_index s; display_candidates s !! index.
Definition selected_one (s : EngineSession) : option Candidate := display_candidates s !! selected_candidate s.
Definition selected_remainder (s : EngineSession) : ustring :=
  default [] (candidate_remainders s !! selected_candidate s).

Definition current_marked_text (s : EngineSession) : ustring :=
  if decide (input_mode s = ModePreviewing) then
    match previewed s with Some c => text c | None => shown_surface s end
  else
    match (if decide (input_mode s = ModeSelecting) then selected_one s else None) with
    | Some c => text c ++ selected_remainder s
    | None => match live_candidate s with Some c => text c | None => shown_surface s end
    end.

(** ** Predictions *)

(** [zip(..).take_while(|(a, b)| a == b).count()] *)
Fixpoint shared_count (l r : list ustring) : nat :=
  match l, r with
  | x :: l, y :: r => if decide (x = y) then S (shared_count l r) else 0
  | _, _ => 0
  end.

Section predictions.
Context `{Segmentation}.

(** The edit that turns a text into the target *)
Definition suffix_edit_prediction (current target display : ustring) : option InputPrediction :=
  let current := graphemes current in
  let target := graphemes target in
  let shared := shared_count current target in
  let deleted := length current - shared in
  let append := concat (drop shared target) in
  if bool_decide (0 < deleted) || negb (bool_decide (append = []))
  then Some {| display_text := display; append_text := append; delete_count := deleted;
               predicted_candidate := None |}
  else None.

Definition ends_alphabetic (surface : ustring) : bool :=
  match last surface with Some c => is_ascii_alphabetic c | None => false end.

(** The first prediction that reads as the target and more *)
Fixpoint first_continuation (target : ustring) (deleted : nat) (cs : list Candidate) : option InputPrediction :=
  match cs with
  | [] => None
  | c :: cs =>
      match TextUtil.strip_prefix target (Kana.to_hiragana (candidate_reading c)) with
      | Some ((_ :: _) as append) =>
          Some {| display_text := text c; append_text := append; delete_count := deleted;
                  predicted_candidate := Some c |}
      | _ => first_continuation target deleted cs
      end
  end.

Definition correction_prediction (s : EngineSession) : option InputPrediction :=
  '(display, target) ← backspace_correction s;
  suffix_edit_prediction (shown_surface s) target display.

Definition input_prediction (s : EngineSession) (r : ConversionResult) : option InputPrediction :=
  match correction_prediction s with
  | Some prediction => Some prediction
  | None =>
      if decide (japanese_prediction (request_options s) ≠ PredictManual) then None
      else
        let surface := shown_surface s in
        let deleted := if ends_alphabetic surface then 1 else 0 in
        let target := take (length surface - deleted) surface in
        if decide (length target < 2) then None
        else first_continuation (Kana.to_hiragana target) deleted (prediction_results r)
  end.
End predictions.

(** ** Responses *)

Definition u32_max : N := 4294967295.

(** [n.min(u32::MAX as usize) as u32], and [n as i32] *)
Definition saturated_u32 (n : nat) : N := N.of_nat n `min` u32_max.
Definition as_i32 (n : nat) : Z := ((Z.of_nat n + 2 ^ 31) mod 2 ^ 32 - 2 ^ 31)%Z.

Fixpoint composing_count_to_protocol (c : ComposingCount) : Wire.ComposingCount :=
  match c with
  | CInput n => Wire.CountInput (saturated_u32 n)
  | CSurface n => Wire.CountSurface (saturated_u32 n)
  | CComposite l r => Wire.CountComposite (composing_count_to_protocol l) (composing_count_to_protocol r)
  end.

Definition candidate_to_protocol (index : nat) (c : Candidate) (annotation : ustring) : Wire.Candidate :=
  {| Wire.cand_text := text c; Wire.cand_value := cand_value c;
     Wire.cand_count := composing_count_to_protocol (composing_count c);
     Wire.cand_annotation := annotation; Wire.cand_index := saturated_u32 index |}.

Definition UNICODE_PREFIX : ustring := Eval vm_compute in u "U+".

(** The preedit and how much of it is highlighted *)
Definition preedit_of (s : EngineSession) : ustring * N :=
  match input_mode s with
  | ModePreviewing => (match previewed s with Some c => text c | None => shown_surface s end, 0%N)
  | ModeSelecting =>
      match selected_one s with
      | Some c => (text c ++ selected_remainder s, saturated_u32 (length (text c)))
      | None => (shown_surface s, 0%N)
      end
  | ModeComposing => (match live_candidate s with Some c => text c | None => shown_surface s end, 0%N)
  | ModeNone => ([], 0%N)
  | ModeUnicode => (UNICODE_PREFIX ++ unicode_input s, 0%N)
  end.

Definition candidate_window_of (s : EngineSession) : Wire.CandidateWindow :=
  match input_mode s with
  | ModeSelecting => Wire.WindowSelecting
  | ModeComposing =>
      if decide (input_language s = Japanese) then
        if live_conversion_enabled s then Wire.Hidden else Wire.Preview
      else Wire.Hidden
  | _ => Wire.Hidden
  end.

(** The order of the candidates shown: the previewed one comes first in the preview. *)
Definition candidate_indices (s : EngineSession) : list nat :=
  let all := seq 0 (length (display_candidates s)) in
  match candidate_window_of s with
  | Wire.Preview =>
      match preview_candidate_index s with
      | Some index => index :: filter (λ i, i ≠ index) all
      | None => all
      end
  | _ => all
  end.

Definition shown_candidates (s : EngineSession) : list Wire.Candidate :=
  omap (λ index, c ← display_candidates s !! index;
                 Some (candidate_to_protocol index c (default [] (candidate_annotations s !! index))))
       (candidate_indices s).

Definition input_state_of (mode : InputMode) : Wire.InputState :=
  match mode with
  | ModeNone => Wire.StateNone
  | ModeComposing => Wire.Composing
  | ModePreviewing => Wire.Previewing
  | ModeSelecting => Wire.Selecting
  | ModeUnicode => Wire.StateUnicode
  end.

Definition prediction_to_protocol (p : InputPrediction) : Wire.Prediction :=
  {| Wire.display_text := display_text p; Wire.append_text := append_text p;
     Wire.delete_count := saturated_u32 (delete_count p) |}.

Definition make_state (s : EngineSession) (consumed : bool) (commit : ustring) (reset : bool) : Wire.StateResponse :=
  let '(preedit, highlighted) := preedit_of s in
  {| Wire.consumed := consumed; Wire.preedit := preedit; Wire.preedit_cursor := saturated_u32 (length preedit);
     Wire.resp_candidates := shown_candidates s;
     Wire.selected_candidate := if decide (input_mode s = ModeSelecting) then as_i32 (selected_candidate s) else (-1)%Z;
     Wire.commit := commit; Wire.resp_reset := reset; Wire.lm_typo_available := lm_typo_available s;
     Wire.learning_available := learning_available s; Wire.learning_writable := learning_writable s;
     Wire.input_state := input_state_of (input_mode s); Wire.candidate_window := candidate_window_of s;
     Wire.highlighted_preedit_length := highlighted;
     Wire.prediction := if decide (input_mode s = ModeComposing)
                        then prediction_to_protocol <$> prediction s else None;
     Wire.input_language := match input_language s with Japanese => Wire.InputJapanese | English => Wire.InputEnglish end |}.

(** The response of a session without text: [..Default::default()] for the rest *)
Definition cleared_state (s : EngineSession) (consumed : bool) (commit : ustring) (reset : bool) : Wire.StateResponse :=
  {| Wire.consumed := consumed; Wire.preedit := []; Wire.preedit_cursor := 0; Wire.resp_candidates := [];
     Wire.selected_candidate := 0; Wire.commit := commit; Wire.resp_reset := reset;
     Wire.lm_typo_available := lm_typo_available s; Wire.learning_available := learning_available s;
     Wire.learning_writable := learning_writable s; Wire.input_state := Wire.StateNone;
     Wire.candidate_window := Wire.Hidden; Wire.highlighted_preedit_length := 0; Wire.prediction := None;
     Wire.input_language := Wire.InputLanguageUnspecified |}.

(** [page_candidates]: the session after it, or nothing for an invalid request *)
Definition page_candidates (page : Wire.PageCandidates) (s : EngineSession) : option EngineSession :=
  let count := length (display_candidates s) in
  if decide (Wire.page_size page = 0%N) then None
  else if decide (count = 0) then Some s
  else
    let size := Wire.page_size page in
    match Wire.try_from Wire.directions (Wire.direction page) with
    | Some Wire.Previous =>
        Some (set_selected_candidate (N.to_nat (N.of_nat (selected_candidate s) - size)) s)
    | Some Wire.Next =>
        Some (set_selected_candidate
                (N.to_nat ((N.of_nat (selected_candidate s) + size) `min` N.of_nat (count - 1))) s)
    | _ => None
    end.
