(* ===== verification/Engine.v ===== *)
(** * The engine of the daemon: requests of candidates

    src/crates/daemon/src/engine.rs: how the engine asks a conversion session for
    candidates, with the model when there is one, what it keeps of the answer, and
    the typing corrections. An action works on the session of the client and on
    what the sessions share ([Shared]); its errors are those of the protocol. *)

From S2P Require Import Prelude Unicode F32 Constraint InputTable Composing Dictionary LatticeIndex Lattice Prediction TextUtil Template Action LearningRecords LearningFiles Zenz ZenzEvaluator NGram LmTypo DictionaryStore UserDictionary Foreign SessionState Session ZenzConvert Protocol EngineInput EngineState.

(** ** The engine *)

(** What does not change after the engine is opened. The text replacer is kept by
    the engine and not used by requests. *)
Record EngineConfig `{Marisa} := {
  engine_tables : InputTableRegistry;
  zenz_version : ZenzVersionConfig;
  zenz_rich_candidates : bool;
  zenz_inference_limit : nat;
  zenz_predictive_input : bool;
  zenz_personalization : option ZenzPersonalizationModels;
  lm_typo_enabled : bool;
  lm_typo_config : LmTypoConfig;
  engine_foreign_provider : option ForeignCompletionProvider;
  engine_learning_memory : option nat;
  engine_learning_available : bool;
  engine_learning_writable : bool;
  engine_user_dictionary : list DictionaryEntry;
  user_dictionary_directory : option Files;
  engine_request_options : RequestOptions;
  live_conversion : bool;
  default_input_style : InputStyle;
  default_keyboard_language : KeyboardLanguage;
  input_behavior : InputBehavior;
}.

(** The learning memories and random numbers, the evaluator, and the models *)
Record Shared `{Rng} {M N : Type} := {
  world : World;
  evaluator : ZenzEvaluator;
  zenz_model : option M;
  lm_typo_ngram : option N;
}.
Arguments Shared {_} M N.

(** How errors are shown: [Display] of the errors of a dictionary, of the file of a user
    dictionary and of the learning memory *)
Record Displays (E : Type) := {
  display_dictionary : E → ustring;
  display_user_dictionary : DictionaryError → ustring;
  display_learning : LearningError → ustring;
}.
Arguments display_dictionary {E}.
Arguments display_user_dictionary {E}.
Arguments display_learning {E}.

(** The evaluator and the model together answer as the model. *)
Definition evaluator_and_model {M} `{ZenzLanguageModel M} : ZenzLanguageModel (ZenzEvaluator * M) := {|
  Zenz.vocabulary_size := λ em, Zenz.vocabulary_size em.2;
  eos_token := λ em, eos_token em.2;
  Zenz.tokenize := λ text add_special, on_snd (Zenz.tokenize text add_special);
  token_to_piece := λ t, on_snd (token_to_piece t);
  next_logits := λ tokens, on_snd (next_logits tokens);
  logits_for_suffix := λ tokens start_index sequence, on_snd (logits_for_suffix tokens start_index sequence);
|}.

Section engine.
Context `{Segmentation} `{IterationOrder} `{Chrono} `{Icu} `{Rng} `{Marisa} {E : Type} `{Dictionary E}.
Context {M N : Type} `{ZenzLanguageModel M} `{ZenzLanguageModel N} `{Libm}.
Context (to_uppercase to_lowercase : ustring → ustring) (displays : Displays E).
Context (config : EngineConfig) (t : Moment).

Definition Failure : Type := Wire.Code * ustring.

#[local] Notation state := (EngineSession * Shared M N)%type.
#[local] Notation engine A := (action state Failure A).
#[local] Notation tables := (engine_tables config).

(** ** Parts of the state *)

Definition get {E' A} (f : EngineSession → A) : action state E' A := gets (λ st, f st.1).
Definition put {E'} (f : EngineSession → EngineSession) : action state E' () := modify (λ st, (f st.1, st.2)).

Definition with_world (w : World) (sh : Shared M N) : Shared M N :=
  {| world := w; evaluator := evaluator sh; zenz_model := zenz_model sh; lm_typo_ngram := lm_typo_ngram sh |}.

(** A method of the conversion session *)
Definition on_conversion {E' A} (m : action (ConversionSession * World) E' A) : action state E' A :=
  λ '(s, sh), let '((c, w), r) := m (conversion s, world sh) in ((set_conversion c s, with_world w sh), r).

Definition ask {E' A} (f : ConversionSession → A) : action state E' A := get (λ s, f (conversion s)).

(** A use of the model, when there is one, with the cache of the session *)
Definition with_model {E' A}
    (m : action (((ConversionSession * World) * (ZenzEvaluator * M)) * ZenzConversionCache) E' A) :
    action state E' (option A) :=
  λ '(s, sh), match zenz_model sh with
              | None => ((s, sh), Return None)
              | Some model =>
                  let '((((c, w), (e, model)), cache), r) :=
                    m (((conversion s, world sh), (evaluator sh, model)), zenz_cache s) in
                  ((set_zenz_cache cache (set_conversion c s),
                    {| world := w; evaluator := e; zenz_model := Some model; lm_typo_ngram := lm_typo_ngram sh |}),
                   match r with Return a => Return (Some a) | Raise e => Raise e | Panic => Panic end)
              end.

(** The result of an action, its error as a value *)
Definition attempt {S E' E'' A} (m : action S E' A) : action S E'' (result E' A) := λ s,
  match m s with
  | (s, Return a) => (s, Return (Ok a))
  | (s, Raise e) => (s, Return (Err e))
  | (s, Panic) => (s, Panic)
  end.

Definition failed (what : ustring) (shown : ustring) : Failure := (Wire.Internal, what ++ shown).

(** ** A request with the model *)

Definition conversion_error (e : ZenzPredictionError E) : ZenzConversionError E :=
  match e with PredictionDictionary e => ConversionDictionary e | PredictionInference e => ConversionInference e end.
Definition prediction_error (e : ZenzConversionError E) : ZenzPredictionError E :=
  match e with ConversionDictionary e => PredictionDictionary e | ConversionInference e => PredictionInference e end.

Definition conversion_options (version : ZenzVersionConfig) (rich_candidates : bool) : ZenzConversionOptions :=
  {| options_version := version; rich := rich_candidates; inference_limit := zenz_inference_limit config;
     options_personalization := personalization_request <$> zenz_personalization config |}.

(** The conversion of a predicted text, with a cache of its own *)
Definition evaluate_prediction (version : ZenzVersionConfig) :
    action ((ConversionSession * World) * (ZenzEvaluator * M)) (ZenzPredictionError E) () :=
  map_error prediction_error
    (zenz_convert tables t default_cache (conversion_options version false));;
  mret ().

Definition zenz_request (surrounding : SurroundingContext) (options : RequestOptions)
    (rich_candidates : bool) (left_context : option ustring) :
    action (((ConversionSession * World) * (ZenzEvaluator * M)) * ZenzConversionCache) (ZenzConversionError E)
      (ConversionResult * option Candidate) :=
  let surrounding := surrounding_with_left_context surrounding left_context in
  let version := version_with_context (zenz_version config) surrounding in
  cache ← gets snd;
  '(evaluated, cache) ← on_fst (zenz_convert tables t cache
    (conversion_options version (zenz_rich_candidates config || rich_candidates)));
  modify (λ st, (st.1, cache));;
  prediction_override ←
    (if zenz_predictive_input config && negb (bool_decide (japanese_prediction options = PredictDisabled))
     then predicted ← on_fst (map_error conversion_error
            (request_zenz_prediction (M:=ZenzEvaluator * M) (H5:=evaluator_and_model) tables t version
               (default [] (left surrounding)) (evaluate_prediction version)));
          mret (Some predicted)
     else mret None);
  result ← on_fst (on_fst (map_error ConversionDictionary
    (finalize_zenz_request_with_prediction_override to_uppercase tables t options prediction_override)));
  mret (result, evaluated).

Definition ZENZ_FAILED : ustring := Eval vm_compute in u "Zenz candidate generation failed: ".
Definition GENERATION_FAILED : ustring := Eval vm_compute in u "candidate generation failed: ".

Definition conversion_error_text (e : ZenzConversionError E) : ustring :=
  match e with
  | ConversionDictionary e => display_dictionary displays e
  | ConversionInference e => inference_error_text e
  end.

(** The result of the model; nothing without a model, or when the text does not fit
    its context: then what the model left behind is discarded. *)
Definition generate_with_model (rich_candidates : bool) (left_context : option ustring) :
    engine (option (ConversionResult * option Candidate)) :=
  around ← get surrounding;
  options ← get request_options;
  r ← attempt (with_model (zenz_request around options rich_candidates left_context));
  match r with
  | Ok found => mret found
  | Err e =>
      if (match e with ConversionInference e => is_context_capacity_exceeded e | _ => false end)
      then put (set_zenz_cache default_cache);; on_conversion discard_zenz_inference_state;; mret None
      else raise (failed ZENZ_FAILED (conversion_error_text e))
  end.

Definition generate (rich_candidates : bool) (left_context : option ustring) :
    engine (ConversionResult * option Candidate) :=
  found ← generate_with_model rich_candidates left_context;
  match found with
  | Some found => mret found
  | None =>
      options ← get request_options;
      result ← on_conversion (map_error (λ e, failed GENERATION_FAILED (display_dictionary displays e))
                 (request to_uppercase tables t options));
      mret (result, None)
  end.

(** ** What is shown of a result *)

Definition wants_live_candidate (s : EngineSession) : bool :=
  live_conversion config
  && bool_decide (input_mode s = ModeComposing)
  && bool_decide (input_language s = Japanese)
  && bool_decide (segment_surface_count s = None)
  && is_at_end (composing (conversion s))
  && negb (last_was_backspace s)
  && bool_decide (1 < length (surface (composing (conversion s)))).

(** The remainders of the candidates shown *)
Definition remainders (cs : list Candidate) : engine (list ustring) :=
  rest ← ask (λ c, mapM (λ shown, remaining_after_candidate tables shown c) cs);
  expect rest.

(** [==] of entries *)
Definition same_entry (a b : DictionaryEntry) : bool :=
  bool_decide (word a = word b) && bool_decide (ruby a = ruby b) && bool_decide (left_id a = left_id b)
  && bool_decide (right_id a = right_id b) && bool_decide (meaning_id a = meaning_id b)
  && feq (base_value a) (base_value b) && feq (adjustment a) (adjustment b)
  && bool_decide (metadata a = metadata b).
Fixpoint same_entries (l r : list DictionaryEntry) : bool :=
  match l, r with
  | [], [] => true
  | a :: l, b :: r => same_entry a b && same_entries l r
  | _, _ => false
  end.

Definition ZENZAI : ustring := Eval vm_compute in u "Zenzai".

(** The annotation of the candidate the model accepted *)
Definition annotation (evaluated : option Candidate) (c : Candidate) : ustring :=
  match evaluated with
  | Some e => if bool_decide (composing_count c = composing_count e) && same_entries (entries c) (entries e)
              then ZENZAI else []
  | None => []
  end.

(** The place of a candidate with this text and this count *)
Definition position_of (c : Candidate) (cs : list Candidate) : option nat :=
  fst <$> list_find (λ x, text x = text c ∧ composing_count x = composing_count c) cs.

(** The place of the first result, when it is for the whole text *)
Definition preview_index (r : ConversionResult) (shown : list Candidate) (c : ConversionSession) : option (option nat) :=
  match main_results r with
  | [] => Some None
  | preview :: _ =>
      rest ← remaining_after_candidate tables preview c;
      Some (if decide (rest = []) then position_of preview shown else None)
  end.

(** The rest of [request_candidates_for_active_target] *)
Definition show_result (r : ConversionResult) (evaluated : option Candidate) : engine () :=
  live ← get (λ s, if wants_live_candidate s then head (main_results r) else None);
  segment ← get segment_surface_count;
  shown ← (match segment with
           | Some _ => mret (main_results r)
           | None => cs ← ask (desktop_candidates tables r); expect cs
           end);
  put (set_display_candidates shown);;
  rest ← remainders shown;
  put (λ s, set_candidate_annotations (annotation evaluated <$> shown) (set_candidate_remainders rest s));;
  preview ← ask (preview_index r shown);
  preview ← expect preview;
  put (λ s, set_additional_candidate_count 0 (set_preview_candidate_index preview s));;
  put (λ s, set_input_prediction (input_prediction s r) s);;
  match (c ← live; position_of c shown) with
  | Some index => put (set_selected_candidate index)
  | None => mret ()
  end;;
  put (set_live_candidate live).

Definition request_candidates_for_active_target (rich_candidates : bool) (left_context : option ustring) : engine () :=
  on_conversion (refresh_learning t);;
  '(r, evaluated) ← generate rich_candidates left_context;
  show_result r evaluated.

Definition request_candidates_with_context (rich_candidates : bool) (left_context : option ustring) : engine () :=
  put (λ s, if last_was_backspace s then s else set_backspace_correction None s);;
  segment ← get segment_surface_count;
  match segment with
  | None => request_candidates_for_active_target rich_candidates left_context
  | Some _ =>
      on_conversion (begin_segment_request tables);;
      r ← attempt (request_candidates_for_active_target rich_candidates left_context);
      on_conversion end_segment_request;;
      match r with
      | Ok _ =>
          shown ← get display_candidates;
          rest ← remainders shown;
          put (set_candidate_remainders rest)
      | Err e => raise e
      end
  end.

Definition request_candidates : engine () := request_candidates_with_context false None.
Definition request_rich_candidates : engine () := request_candidates_with_context true None.

(** ** Typing corrections *)

(** [reset] of the session *)
Definition reset : engine () :=
  on_conversion Session.reset;;
  put (λ s, reset_session (conversion s) s).

(** A use of the model of typing corrections *)
Definition with_ngram {E' A} (m : action N E' A) : action state E' (option A) :=
  λ '(s, sh), match lm_typo_ngram sh with
              | None => ((s, sh), Return None)
              | Some model =>
                  let '(model, r) := m model in
                  ((s, {| world := world sh; evaluator := evaluator sh; zenz_model := zenz_model sh;
                          lm_typo_ngram := Some model |}),
                   match r with Return a => Return (Some a) | Raise e => Raise e | Panic => Panic end)
              end.

Definition TYPO_DISABLED : ustring := Eval vm_compute in u "LM typo correction is disabled".
Definition NO_NGRAM : ustring := Eval vm_compute in u "N-gram model is unavailable for LM typo correction".
Definition TYPO_FAILED : ustring := Eval vm_compute in u "LM typo correction failed: ".

Definition request_typo_corrections (ct : ComposingText) : engine (list LmTypoCandidate) :=
  if negb (lm_typo_enabled config) then raise (Wire.InvalidPayload, TYPO_DISABLED)
  else
    around ← get surrounding;
    usual ← get session_style;
    let style := match last (input ct) with Some e => input_style e | None => usual end in
    r ← attempt (with_ngram (experimental_typo_correction to_lowercase (default [] (left around)) ct style
                               tables (lm_typo_config config)));
    match r with
    | Ok None => raise (Wire.Internal, NO_NGRAM)
    | Ok (Some found) => mret found
    | Err e => if is_context_capacity_exceeded e then mret []
               else raise (failed TYPO_FAILED (inference_error_text e))
    end.

(** An action on a copy of the session: what the sessions share is not copied. *)
Definition on_copy {E' A} (m : action state E' A) : action state E' A :=
  λ '(s, sh), let '((_, sh), r) := m (s, sh) in ((s, sh), r).

(** [preview.request_options] with predictions off *)
Definition without_predictions (o : RequestOptions) : RequestOptions :=
  {| opt_n_best := opt_n_best o; japanese_prediction := PredictDisabled; full_width_roman := full_width_roman o;
     half_width_kana := half_width_kana o; version_string := version_string o;
     typo_correction := typo_correction o; foreign_prediction := PredictDisabled;
     keyboard_language := keyboard_language o; typography := typography o |}.

Definition converted_reading (reading : ustring) : engine ustring :=
  on_copy (
    reset;;
    put (λ s, set_request_options (without_predictions (request_options s))
                (set_surrounding {| left := left (surrounding s); right := None |} s));;
    on_conversion (insert_str tables reading Direct);;
    request_candidates;;
    found ← ask (λ c, head (candidates c));
    mret (match found with Some c => text c | None => reading end)).

Definition update_backspace_correction (previous : ComposingText) : engine () :=
  found ← request_typo_corrections previous;
  match list_find (λ reading, reading ≠ []) ((λ c, Kana.to_hiragana (converted_text c)) <$> found) with
  | None => mret ()
  | Some (_, reading) =>
      display ← converted_reading reading;
      previous_display ← converted_reading (surface_of previous);
      if decide (display ≠ previous_display)
      then put (set_backspace_correction (Some (display, reading)))
      else mret ()
  end.
End engine.
