(* ===== verification/EngineKeys.v ===== *)
(** * The engine of the daemon: keys

    src/crates/daemon/src/engine.rs, [handle_key] and what it calls: one definition per
    arm of the state machine of the keys. An [unreachable!] is [Panic]. *)

From S2P Require Import Prelude Unicode F32 Constraint InputTable Composing Dictionary LatticeIndex Lattice Prediction TextUtil Template Action LearningRecords LearningFiles Zenz ZenzEvaluator NGram LmTypo DictionaryStore UserDictionary Foreign SessionState Session ZenzConvert Protocol EngineInput EngineState Engine.

(** [u32::from_str_radix]; nothing on an error *)
Definition from_str_radix_u32 (radix : N) (s : ustring) : option N :=
  Z.to_N <$> parse_int radix 0 (2 ^ 32 - 1) s.

Definition is_ascii_hexdigit (c : char) : bool := bool_decide (is_Some (to_digit 16 c)).
Definition to_ascii_lowercase (c : char) : char := if is_ascii_uppercase c then (c + 32)%N else c.

(** [checked_sub] of lengths, a panic when it is negative *)
Definition less (a b : nat) : option nat := if decide (b ≤ a) then Some (a - b) else None.

(** The ideographic space, U+3000 *)
Definition WIDE_SPACE : ustring := [12288%N].
Definition ONE_SPACE : ustring := Eval vm_compute in u " ".
Definition OUTSIDE : ustring := Eval vm_compute in u "selected candidate is outside the current candidates".
Definition candidate_outside (index : nat) : ustring :=
  u "candidate index " ++ show (Z.of_nat index) ++ u " is outside the current candidates".
Definition FORGET_FAILED : ustring := Eval vm_compute in u "learning memory forget failed: ".
Definition RESET_FAILED : ustring := Eval vm_compute in u "learning memory reset failed: ".
Definition typo_outside (index : nat) : ustring :=
  u "typo correction index " ++ show (Z.of_nat index) ++ u " is outside the current candidates".

(** [response.input_language = English] *)
Definition in_english (r : Wire.StateResponse) : Wire.StateResponse :=
  {| Wire.consumed := Wire.consumed r; Wire.preedit := Wire.preedit r; Wire.preedit_cursor := Wire.preedit_cursor r;
     Wire.resp_candidates := Wire.resp_candidates r; Wire.selected_candidate := Wire.selected_candidate r;
     Wire.commit := Wire.commit r; Wire.resp_reset := Wire.resp_reset r;
     Wire.lm_typo_available := Wire.lm_typo_available r; Wire.learning_available := Wire.learning_available r;
     Wire.learning_writable := Wire.learning_writable r; Wire.input_state := Wire.input_state r;
     Wire.candidate_window := Wire.candidate_window r;
     Wire.highlighted_preedit_length := Wire.highlighted_preedit_length r; Wire.prediction := Wire.prediction r;
     Wire.input_language := Wire.InputEnglish |}.

Section keys.
Context `{Segmentation} `{IterationOrder} `{Chrono} `{Icu} `{Rng} `{Marisa} {E : Type} `{Dictionary E}.
Context {M N : Type} `{ZenzLanguageModel M} `{ZenzLanguageModel N} `{Libm}.
Context (to_uppercase to_lowercase : ustring → ustring) (displays : Displays E).
Context (config : EngineConfig) (t : Moment).

#[local] Notation engine A := (action (EngineSession * Shared M N) Failure A).
#[local] Notation response := (engine Wire.StateResponse).
#[local] Notation tables := (engine_tables config).
#[local] Notation request_candidates := (request_candidates to_uppercase displays config t).
#[local] Notation request_rich_candidates := (request_rich_candidates to_uppercase displays config t).

(** ** Answers *)

Definition respond (consumed : bool) (commit : ustring) (reset : bool) : response :=
  get (λ s, make_state s consumed commit reset).
Definition handled : response := respond true [] false.
Definition ignored : response := respond false [] false.

(** The answer to a session that was reset *)
Definition respond_cleared (consumed : bool) (commit : ustring) (reset : bool) : response :=
  get (λ s, cleared_state s consumed commit reset).

(** ** The composing text *)

Definition conversion_of {A} (f : ConversionSession → option A) : engine A := a ← ask f; expect a.
Definition move_to (from to : nat) : engine () := on_conversion (move_cursor (Z.of_nat to - Z.of_nat from));; mret ().
Definition insert_direct (value : ustring) : engine () := on_conversion (insert_str tables value Direct).
Definition surface_length : engine nat := ask (λ c, length (surface (composing c))).
Definition has_text : engine bool := ask (λ c, negb (is_empty (composing c))).

Definition insert_event (event : Wire.KeyEvent) : engine () :=
  language ← get input_language;
  usual ← get session_style;
  let typed := or_else_text (Wire.key_input event) (Wire.key_text event) in
  if decide (language = English) then insert_direct typed
  else
    match usual with
    | Mapped _ =>
        if negb (bool_decide (Wire.key_input event = [])) || negb (bool_decide (Wire.intention event = []))
        then on_conversion (insert_key tables
               (if decide (Wire.intention event = []) then None else Some (Wire.intention event)) typed
               (if Wire.shift event then [Shift] else []) usual)
        else on_conversion (insert_str tables (Wire.key_text event) usual)
    | _ => on_conversion (insert_str tables (Wire.key_text event) usual)
    end.

Definition insert_separator : engine () :=
  usual ← get session_style;
  on_conversion (insert_composition_separator tables usual);;
  put (set_last_was_backspace false).

(** ** Selection *)

Definition select_and_stage_learning (c : Candidate) : engine ustring :=
  on_conversion (select_candidate_value tables t c).

(** The candidate a marked text stands for *)
Definition marked_candidate (marked : ustring) (s : EngineSession) : option Candidate :=
  match (c ← live_candidate s; if decide (text c = marked) then Some c else None) with
  | Some c => Some c
  | None => fst ∘ snd <$> list_find (λ cr : Candidate * ustring, cr.2 = [] ∧ text cr.1 = marked)
              (zip (display_candidates s) (candidate_remainders s))
  end.

Definition learn_current_marked_candidate (marked : ustring) : engine () :=
  c ← get (marked_candidate marked);
  match c with
  | Some c => select_and_stage_learning c;; mret ()
  | None => mret ()
  end.

Definition commit_candidate (c : Candidate) (remainder_mode : InputMode) : response :=
  commit ← select_and_stage_learning c;
  around ← get surrounding;
  let left_context := default [] (left around) ++ commit in
  put (λ s, set_backspace_correction None (set_last_was_backspace false (clear_presentation s)));;
  more ← has_text;
  (if more : bool then
     put (λ s, set_input_mode remainder_mode (set_segment_surface_count None s));;
     request_candidates_with_context to_uppercase displays config t true (Some left_context)
   else put (set_input_mode ModeNone));;
  more ← has_text;
  respond true commit (negb more).

Definition candidate_at (index : nat) (message : ustring) : engine Candidate :=
  shown ← get display_candidates;
  or_raise (Wire.InvalidPayload, message) (shown !! index).

Definition select_candidate_with_remainder_mode (index : nat) (remainder_mode : InputMode) : response :=
  put (set_typo_corrections []);;
  c ← candidate_at index (candidate_outside index);
  commit_candidate c remainder_mode.

Definition select_candidate (index : nat) : response := select_candidate_with_remainder_mode index ModePreviewing.

(** The candidate selected *)
Definition select_current (remainder_mode : InputMode) : response :=
  index ← get selected_candidate;
  select_candidate_with_remainder_mode index remainder_mode.

Definition forget_candidate (index : nat) : response :=
  put (set_typo_corrections []);;
  c ← candidate_at index (candidate_outside index);
  on_conversion (map_error (λ e, failed FORGET_FAILED (display_learning displays e)) (forget_learning t c));;
  put (λ s, set_live_candidate None (set_selected_candidate 0 s));;
  request_candidates;;
  handled.

Definition reset_learning : response :=
  put (set_typo_corrections []);;
  on_conversion (map_error (λ e, failed RESET_FAILED (display_learning displays e)) (Session.reset_learning t));;
  put (λ s, set_live_candidate None (set_selected_candidate 0 s));;
  more ← has_text;
  (if more : bool then request_candidates else mret ());;
  handled.

Definition select_typo_correction (index : nat) : response :=
  found ← get typo_corrections;
  correction ← or_raise (Wire.InvalidPayload, typo_outside index) (found !! index);
  reset;;
  respond_cleared true (converted_text correction) true.

(** ** Unicode input *)

Definition enter_unicode_input : response :=
  mode ← get input_mode;
  commit ← match mode with
           | ModeNone | ModeUnicode => mret []
           | ModeComposing | ModePreviewing =>
               commit ← get current_marked_text;
               learn_current_marked_candidate commit;;
               reset;;
               mret commit
           | ModeSelecting =>
               index ← get selected_candidate;
               c ← candidate_at index OUTSIDE;
               commit ← select_and_stage_learning c;
               rest ← get shown_surface;
               reset;;
               mret (commit ++ rest)
           end;
  put (λ s, set_unicode_input [] (set_input_mode ModeUnicode s));;
  respond true commit false.

(** The character of a hexadecimal number *)
Definition unicode_text (digits : ustring) : ustring :=
  match (value ← from_str_radix_u32 16 digits; from_u32 value) with Some c => [c] | None => [] end.

Definition handle_unicode_input (action : Wire.UserAction) (event : Wire.KeyEvent) : response :=
  match action with
  | Wire.Input =>
      put (λ s, set_unicode_input (unicode_input s ++
             filter (λ c, is_ascii_hexdigit c = true) (to_ascii_lowercase <$> Wire.key_input event)) s);;
      handled
  | Wire.Backspace =>
      digits ← get unicode_input;
      match digits with
      | [] => reset;; respond true [] true
      | _ => put (set_unicode_input (take (length digits - 1) digits));; handled
      end
  | Wire.Enter | Wire.Space =>
      commit ← get (λ s, unicode_text (unicode_input s));
      reset;;
      respond true commit true
  | Wire.Escape => reset;; respond true [] true
  | _ => handled
  end.

(** ** Keys *)

(** The prediction of a correction, after a deletion *)
Definition show_correction : engine () :=
  correction ← get backspace_correction;
  match correction with
  | None => mret ()
  | Some (display, target) =>
      edit ← get (λ s, suffix_edit_prediction (shown_surface s) target display);
      match edit with
      | Some edit => put (set_input_prediction (Some edit))
      | None => put (set_backspace_correction None)
      end
  end.

Definition backspace : response :=
  to_end ← conversion_of (λ c, less (length (surface (composing c))) (cursor (composing c)));
  on_conversion (move_cursor (Z.of_nat to_end));;
  previous ← get (λ s, if lm_typo_enabled config && bool_decide (backspace_correction s = None)
                       then Some (composing (conversion s)) else None);
  on_conversion (delete_backward tables 1);;
  put (λ s, set_last_was_backspace true (set_segment_surface_count None s));;
  more ← has_text;
  if negb more then reset;; respond true [] true
  else
    put (λ s, clear_presentation (set_input_mode ModeComposing s));;
    request_candidates;;
    put (set_live_candidate None);;
    match previous with
    | Some previous => update_backspace_correction to_uppercase to_lowercase displays config t previous
    | None => mret ()
    end;;
    show_correction;;
    handled.

Definition escape (mode : InputMode) : response :=
  match mode with
  | ModeNone => ignored
  | ModeComposing => reset;; respond true [] true
  | ModePreviewing => put (set_input_mode ModeComposing);; handled
  | ModeSelecting =>
      put (set_input_mode (if live_conversion config then ModeComposing else ModePreviewing));; handled
  | ModeUnicode => lift Panic
  end.

Definition enter (mode : InputMode) : response :=
  if decide (mode = ModeSelecting) then select_current ModePreviewing
  else
    commit ← get current_marked_text;
    learn_current_marked_candidate commit;;
    reset;;
    respond true commit true.

(** The next candidate, and the one before *)
Definition select_next : engine () :=
  put (λ s, match length (display_candidates s) with
            | 0 => s
            | S last => set_selected_candidate ((selected_candidate s + 1) `min` last) s
            end).
Definition select_previous : engine () := put (λ s, set_selected_candidate (selected_candidate s - 1) s).

Definition space (mode : InputMode) (shift : bool) : response :=
  match mode with
  | ModeNone =>
      language ← get input_language;
      respond true (if bool_decide (language = Japanese) && eqb shift (type_half_space (input_behavior config))
                    then WIDE_SPACE else ONE_SPACE) false
  | ModeComposing =>
      insert_separator;;
      (if live_conversion config then
         put (set_input_mode ModeSelecting);;
         request_rich_candidates;;
         put (set_selected_candidate 0)
       else
         put (set_input_mode ModePreviewing);;
         request_candidates;;
         put (λ s, set_selected_candidate (default 0 (preview_candidate_index s)) s));;
      handled
  | ModePreviewing =>
      request_rich_candidates;;
      put (λ s, set_selected_candidate 0 (set_input_mode ModeSelecting s));;
      handled
  | ModeSelecting =>
      shown ← get display_candidates;
      (if decide (shown = []) then mret () else if shift then select_previous else select_next);;
      handled
  | ModeUnicode => lift Panic
  end.

Definition down (mode : InputMode) : response :=
  match mode with
  | ModeComposing | ModePreviewing =>
      insert_separator;;
      request_rich_candidates;;
      put (λ s, set_selected_candidate 0 (set_input_mode ModeSelecting s));;
      handled
  | ModeSelecting => select_next;; handled
  | ModeNone => ignored
  | ModeUnicode => lift Panic
  end.

(** [reveal_additional_candidate]: one more of the representations of the text
    before the candidates *)
Definition reveal_additional_candidate : engine () :=
  base_start ← get additional_candidate_count;
  chosen ← get (λ s, display_candidates s !! base_start);
  additional ← conversion_of (desktop_additional_candidates tables chosen);
  let shown := (base_start + 1) `min` length additional in
  s ← get id;
  base ← expect (slice base_start (length (display_candidates s)) (display_candidates s));
  annotations ← expect (slice base_start (length (candidate_annotations s)) (candidate_annotations s));
  let revealed := drop (length additional - shown) additional in
  put (λ s, set_candidate_annotations (revealed.*2 ++ annotations) (set_display_candidates (revealed.*1 ++ base) s));;
  rest ← remainders config (revealed.*1 ++ base);
  put (λ s, set_selected_candidate 0 (set_additional_candidate_count shown (set_candidate_remainders rest s))).

Definition up (mode : InputMode) : response :=
  (if decide (mode = ModeSelecting) then
     first ← get (λ s, bool_decide (selected_candidate s = 0 ∧ additional_candidate_count s < 5));
     if first : bool then reveal_additional_candidate else select_previous
   else mret ());;
  respond (bool_decide (mode ≠ ModeNone)) [] false.

(** The cursor at the end of what the selected candidate covers *)
Definition to_selected : engine () :=
  remaining ← get (λ s, if decide (input_mode s = ModeSelecting)
                        then candidate_remainders s !! selected_candidate s else None);
  match remaining with
  | None => mret ()
  | Some remaining =>
      c ← get selected_one;
      prefix ← match c with
               | Some c => conversion_of (consumed_surface_count tables c)
               | None => total ← surface_length; mret (total - length remaining)
               end;
      at_cursor ← ask (λ c, cursor (composing c));
      move_to at_cursor prefix
  end.

(** A segment one longer, or one shorter *)
Definition resize_segment (right_arrow : bool) : response :=
  to_selected;;
  total ← surface_length;
  current ← ask (λ c, cursor (composing c));
  let target := if right_arrow then (if decide (total ≤ current) then 1 else current + 1)
                else (current - 1) `max` 1 in
  move_to current target;;
  put (λ s, clear_presentation (set_input_mode ModeSelecting (set_last_was_backspace false
              (set_segment_surface_count (Some target) s))));;
  request_candidates;;
  put (set_live_candidate None);;
  handled.

(** The edit of a prediction that is not a candidate *)
Definition apply_edit (p : InputPrediction) : engine () :=
  (if decide (0 < delete_count p) then on_conversion (delete_backward tables (delete_count p)) else mret ());;
  put (set_backspace_correction None);;
  if decide (append_text p = []) then put (set_last_was_backspace true)
  else insert_direct (append_text p).

Definition tab : response :=
  p ← get (λ s, if decide (input_mode s = ModeComposing) then prediction s else None);
  match p with
  | None => handled
  | Some p =>
      put (set_last_was_backspace false);;
      match predicted_candidate p with
      | Some c =>
          accepted ← on_conversion (accept_prediction_candidate tables c);
          (if accepted : bool then request_candidates else mret ());;
          handled
      | None => apply_edit p;; request_candidates;; handled
      end
  end.

(** The place of a representation in [desktop_additional_candidates] *)
Definition representation_index (action : Wire.UserAction) : option nat :=
  match action with
  | Wire.HalfWidthRoman => Some 0
  | Wire.FullWidthRoman => Some 1
  | Wire.HalfWidthKatakana => Some 2
  | Wire.Katakana => Some 3
  | Wire.Hiragana => Some 4
  | _ => None
  end.

Definition commit_representation (index : nat) : response :=
  chosen ← get (λ s, if decide (input_mode s = ModeSelecting) then selected_one s else None);
  additional ← conversion_of (desktop_additional_candidates tables chosen);
  transformed ← expect (additional !! index);
  commit_candidate transformed.1 ModeSelecting.

(** An ordinary key *)
Definition type_key (event : Wire.KeyEvent) : response :=
  commit ← get (λ s, match input_mode s with
                     | ModePreviewing | ModeSelecting => current_marked_text s
                     | _ => []
                     end);
  (if decide (commit = []) then put clear_presentation else reset);;
  put (λ s, set_last_was_backspace false (set_segment_surface_count None s));;
  insert_event event;;
  put (set_input_mode ModeComposing);;
  request_candidates;;
  respond true commit false.

(** The last match of [handle_key] *)
Definition handle_action (action : Wire.UserAction) (event : Wire.KeyEvent) : response :=
  mode ← get input_mode;
  let active := bool_decide (mode ≠ ModeNone) in
  more ← has_text;
  match action with
  | Wire.Backspace => if more : bool then backspace else ignored
  | Wire.Escape => escape mode
  | Wire.Enter => if active then enter mode else ignored
  | Wire.Space => space mode (Wire.shift event)
  | Wire.Down => down mode
  | Wire.Up => up mode
  | Wire.Left => if active then (if Wire.shift event then resize_segment false else handled) else ignored
  | Wire.Right =>
      if active then
        if Wire.shift event then resize_segment true
        else if decide (mode = ModeSelecting) then select_current ModeSelecting
        else handled
      else ignored
  | Wire.Tab => if active then tab else ignored
  | Wire.Forget =>
      if decide (mode = ModeSelecting) then index ← get selected_candidate; forget_candidate index else ignored
  | Wire.Consume => respond active [] false
  | Wire.Input => if valid_event_text event then type_key event else ignored
  | _ => match representation_index action with
         | Some index => if active then commit_representation index else ignored
         | None => ignored
         end
  end.

(** [Eisu]: the candidate selected is committed first. *)
Definition eisu : response :=
  mode ← get input_mode;
  if decide (mode = ModeSelecting) then
    answer ← select_current ModePreviewing;
    put (set_input_language English);;
    mret (in_english answer)
  else
    put (set_input_language English);;
    handled.

Definition english_space : response :=
  insert_direct ONE_SPACE;;
  put (λ s, clear_presentation (set_backspace_correction None (set_last_was_backspace false
              (set_segment_surface_count None s))));;
  handled.

(** The digit of a candidate of the page; zero commits the marked text. *)
Definition select_number (number : nat) (event : Wire.KeyEvent) : response :=
  if decide (number = 0) then
    commit ← get current_marked_text;
    reset;;
    insert_event event;;
    put (set_input_mode ModeComposing);;
    request_candidates;;
    respond true commit false
  else
    selected ← get selected_candidate;
    select_candidate (selected / 9 * 9 + number - 1).

(** The text of an Option key typed without a composing text *)
Definition option_direct (action : Wire.UserAction) (event : Wire.KeyEvent) : engine (option ustring) :=
  applies ← get (λ s, bool_decide (action = Wire.Input ∧ input_mode s = ModeNone ∧ input_language s = Japanese)
                      && option_direct_full_width_input (input_behavior config) && Wire.option_key event);
  if applies : bool then expect (option_direct_input_text event (type_backslash (input_behavior config)))
  else mret None.

(** The text of a key passed through in English *)
Definition english_text (action : Wire.UserAction) (event : Wire.KeyEvent) (s : EngineSession) : option ustring :=
  let input := or_else_text (Wire.key_input event) (Wire.key_text event) in
  if bool_decide (action = Wire.Input ∧ input_mode s = ModeNone ∧ input_language s = English)
     && negb (bool_decide (input = [])) && negb (has_control input)
  then Some input else None.

Definition number_key (action : Wire.UserAction) (event : Wire.KeyEvent) (s : EngineSession) : option nat :=
  if decide (action = Wire.Input ∧ input_mode s = ModeSelecting) then selection_number (Wire.key_text event) else None.

(** The keys handled before the last match, by their actions *)
Definition handle_language (action : Wire.UserAction) (event : Wire.KeyEvent) : response :=
  s ← get id;
  match action with
  | Wire.StartUnicodeInput => enter_unicode_input
  | Wire.Eisu => eisu
  | Wire.Kana => put (set_input_language Japanese);; handled
  | Wire.Space =>
      if decide (input_mode s = ModeComposing ∧ input_language s = English) then english_space
      else handle_action action event
  | _ =>
      match english_text action event s with
      | Some input => respond true input false
      | None => match number_key action event s with
                | Some number => select_number number event
                | None => handle_action action event
                end
      end
  end.

Definition handle_key (event : Wire.KeyEvent) : response :=
  put (set_typo_corrections []);;
  let action := default Wire.ActionUnspecified (user_action event) in
  direct ← option_direct action event;
  match direct with
  | Some text => respond true text false
  | None =>
      let event := normalize_input_event event (input_behavior config) in
      mode ← get input_mode;
      if decide (mode = ModeUnicode) then handle_unicode_input action event
      else handle_language action event
  end.
End keys.
