(* ===== verification/EngineHandle.v ===== *)
(** * The engine of the daemon: requests

    src/crates/daemon/src/engine.rs, [handle]: the sessions of a connection by their
    identifiers, the start of a session, the order of requests, and the answers. *)

From S2P Require Import Frame Prelude Unicode F32 Constraint InputTable Composing Dictionary LatticeIndex Lattice Prediction TextUtil Template Action LearningRecords LearningFiles Zenz ZenzEvaluator NGram LmTypo DictionaryStore UserDictionary Foreign SessionState Session ZenzConvert Protocol EngineInput EngineState Engine EngineKeys.

(** ** Envelopes *)

Definition state_envelope (id : N) (name : ustring) (response : Wire.StateResponse) : Wire.Envelope :=
  {| Wire.protocol_version := PROTOCOL_VERSION; Wire.request_id := id; Wire.session_id := name;
     Wire.payload := Some (Wire.PStateResponse response) |}.

Definition error_envelope (id : N) (name : ustring) (code : Wire.Code) (message : ustring) : Wire.Envelope :=
  {| Wire.protocol_version := PROTOCOL_VERSION; Wire.request_id := id; Wire.session_id := name;
     Wire.payload := Some (Wire.PProtocolError code message) |}.

Definition typo_to_protocol (c : LmTypoCandidate) : Wire.TypoCorrectionCandidate :=
  {| Wire.corrected_input := corrected_input c; Wire.converted_text := converted_text c;
     Wire.typo_score := typo_score c; Wire.language_model_score := typo_lm_score c;
     Wire.channel_cost := typo_channel_cost c; Wire.prominence := prominence c |}.

Definition typo_correction_envelope (id : N) (name : ustring) (cs : list LmTypoCandidate) : Wire.Envelope :=
  {| Wire.protocol_version := PROTOCOL_VERSION; Wire.request_id := id; Wire.session_id := name;
     Wire.payload := Some (Wire.PTypoCorrectionResponse (typo_to_protocol <$> cs)) |}.

(** ** Shortcuts *)

Definition DESKTOP_PROPER_NOUN_CID : nat := 1288.
Definition DESKTOP_GENERAL_MID : nat := 501.

(** The attributes of the tag, in quotation marks *)
Definition attribute (name : string) (value : ustring) : ustring := u name ++ [61; 34]%N ++ value ++ [34]%N.
Definition SPACE : ustring := [32%N].
Definition date_tag (format calendar : ustring) (delta delta_unit : Z) : ustring :=
  u "<date" ++ SPACE ++ attribute "format" format ++ SPACE ++ attribute "type" calendar ++ SPACE
  ++ attribute "language" (u "ja_JP") ++ SPACE ++ attribute "delta" (show delta) ++ SPACE
  ++ attribute "deltaunit" (show delta_unit) ++ u ">".

Definition date_shortcut (format calendar ruby : string) (delta delta_unit : Z) (value : f32) : DictionaryEntry :=
  {| word := date_tag (u format) (u calendar) delta delta_unit; ruby := u ruby;
     left_id := DESKTOP_PROPER_NOUN_CID; right_id := DESKTOP_PROPER_NOUN_CID;
     meaning_id := DESKTOP_GENERAL_MID; base_value := value; adjustment := zero; metadata := 0%N |}.

Definition DATE_FORMATS : list (string * f32 * string) :=
  [("M/d", lit (-180) 10, "western"); ("yyyy/MM/dd", lit (-181) 10, "western");
   ("yyyy-MM-dd", lit (-182) 10, "western"); ("M月d日（E）", lit (-183) 10, "western");
   ("yyyy年M月d日", lit (-184) 10, "western"); ("Gyyyy年M月d日", lit (-185) 10, "japanese");
   ("E曜日", lit (-186) 10, "western")].

Definition RELATIVE_DATES : list (string * Z * Z) :=
  [("オトトイ", (-2)%Z, 86400%Z); ("キノウ", (-1)%Z, 86400%Z); ("キョウ", 0%Z, 1%Z);
   ("アシタ", 1%Z, 86400%Z); ("アサッテ", 2%Z, 86400%Z)].

Definition desktop_dynamic_shortcuts : list DictionaryEntry := Eval vm_compute in
  (DATE_FORMATS ≫= λ '(format, value, calendar),
     (λ '(ruby, delta, unit), date_shortcut format calendar ruby delta unit value) <$> RELATIVE_DATES)
  ++ [date_shortcut "MM月" "western" "コンゲツ" 0 1 (lit (-180) 10);
      date_shortcut "yyyy年" "western" "コトシ" 0 1 (lit (-180) 10);
      date_shortcut "Gyyyy年" "japanese" "コトシ" 0 1 (lit (-181) 10);
      date_shortcut "HH:mm" "western" "イマ" 0 1 (lit (-180) 10);
      date_shortcut "HH時mm分" "western" "イマ" 0 1 (lit (-181) 10);
      date_shortcut "aK時mm分" "western" "イマ" 0 1 (lit (-182) 10)].

(** ** Messages *)

Definition MISSING_PAYLOAD : ustring := Eval vm_compute in u "missing payload".
Definition NOT_GREATER : ustring := Eval vm_compute in u "request ID is not greater than the previous request".
Definition INVALID_STYLE : ustring := Eval vm_compute in u "invalid input style".
Definition INVALID_LANGUAGE : ustring := Eval vm_compute in u "invalid keyboard language".
Definition RESPONSE_AS_REQUEST : ustring := Eval vm_compute in u "response payload sent as a request".
Definition UNKNOWN_SESSION : ustring := Eval vm_compute in u "unknown session".
Definition INVALID_PAGE : ustring := Eval vm_compute in u "invalid candidate page request".
Definition INVALID_REQUEST : ustring := Eval vm_compute in u "invalid session request".
Definition USER_DICTIONARY_FAILED : ustring := Eval vm_compute in u "user dictionary initialization failed: ".
Definition COMMIT_FAILED : ustring := Eval vm_compute in u "learning memory commit failed: ".

(** An error of the request *)
Definition invalid {A} (message : ustring) : outcome Failure A := Raise (Wire.InvalidPayload, message).
Definition or_invalid {A} (message : ustring) (m : option A) : outcome Failure A :=
  match m with Some a => Return a | None => invalid message end.

Section handle.
Context `{Segmentation} `{IterationOrder} `{Chrono} `{Icu} `{Rng} `{Marisa} {E : Type} `{Dictionary E}.
Context {M L : Type} `{ZenzLanguageModel M} `{ZenzLanguageModel L} `{Libm}.
Context (to_uppercase to_lowercase : ustring → ustring) (displays : Displays E).
Context (config : EngineConfig) (t : Moment).

#[local] Notation engine A := (action (EngineSession * Shared M L) Failure A).
#[local] Notation response := (engine Wire.StateResponse).
#[local] Notation tables := (engine_tables config).
#[local] Notation keys := (handle_key to_uppercase to_lowercase displays config t).

(** The sessions of a connection, and what they share *)
Definition Sessions : Type := gmap ustring EngineSession * Shared M L.

(** The handling of an envelope does not fail: its errors are answers. *)
#[local] Notation handler A := (action Sessions Empty_set A).

(** ** The start of a session *)

(** The style, the surrounding text and the language of a start *)
Definition start_settings (start : Wire.StartSession) :
    outcome Failure (InputStyle * SurroundingContext * KeyboardLanguage) :=
  style ← or_invalid INVALID_STYLE
    (if decide (Wire.try_from Wire.input_styles (Wire.start_input_style start) = Some Wire.Unspecified)
     then Some (default_input_style config)
     else input_style_of (Wire.start_input_style start) (Wire.custom_input_table start) tables);
  around ← match surrounding_context (Wire.start_surrounding start) with
           | Ok around => Return around
           | Err message => invalid message
           end;
  language ← or_invalid INVALID_LANGUAGE
    (if decide (Wire.try_from Wire.keyboard_languages (Wire.start_keyboard_language start)
                = Some Wire.LanguageUnspecified)
     then Some (default_keyboard_language config)
     else keyboard_language_of (Wire.start_keyboard_language start));
  Return (style, around, language).

Definition with_language (language : KeyboardLanguage) (o : RequestOptions) : RequestOptions :=
  {| opt_n_best := opt_n_best o; japanese_prediction := japanese_prediction o;
     full_width_roman := full_width_roman o; half_width_kana := half_width_kana o;
     version_string := version_string o; typo_correction := typo_correction o;
     foreign_prediction := foreign_prediction o; keyboard_language := language; typography := typography o |}.

Definition new_session (c : ConversionSession) (id : N) (style : InputStyle)
    (around : SurroundingContext) (language : KeyboardLanguage) : EngineSession :=
  {| conversion := c; session_style := style; last_request_id := id; selected_candidate := 0;
     input_mode := ModeNone; display_candidates := []; candidate_remainders := [];
     candidate_annotations := []; preview_candidate_index := None; additional_candidate_count := 0;
     segment_surface_count := None; last_was_backspace := false; prediction := None;
     backspace_correction := None; live_conversion_enabled := live_conversion config;
     surrounding := around; request_options := with_language language (engine_request_options config);
     live_candidate := None; typo_corrections := []; lm_typo_available := lm_typo_enabled config;
     learning_available := engine_learning_available config;
     learning_writable := engine_learning_writable config; zenz_cache := default_cache;
     unicode_input := []; input_language := Japanese |}.

(** The dictionaries and the memory of a new conversion session *)
Definition prepare_conversion : action (ConversionSession * World) Failure () :=
  import_dynamic_user_dictionary (engine_user_dictionary config) desktop_dynamic_shortcuts;;
  match user_dictionary_directory config with
  | Some files =>
      map_error (λ e, failed USER_DICTIONARY_FAILED (display_user_dictionary displays e))
        (update_user_dictionary_path (H5:=files))
  | None => mret ()
  end;;
  match engine_foreign_provider config with
  | Some provider => set_foreign_completion_provider_of provider
  | None => mret ()
  end;;
  match engine_learning_memory config with
  | Some memory => set_learning_memory_of t memory
  | None => mret ()
  end.

(** ** The map of sessions *)

Definition find_session (name : ustring) : handler (option EngineSession) := gets (λ st, st.1 !! name).
Definition remove_session (name : ustring) : handler () := modify (λ st, (delete name st.1, st.2)).
Definition insert_session (name : ustring) (s : EngineSession) : handler () :=
  modify (λ st, (<[name := s]> st.1, st.2)).

(** An action on a session taken out of the map: the session after it, with the
    result or the error *)
Definition on_session {A} (s : EngineSession) (m : engine A) : handler (EngineSession * result Failure A) :=
  λ '(ss, sh), match m (s, sh) with
               | ((s, sh), Return a) => ((ss, sh), Return (s, Ok a))
               | ((s, sh), Raise e) => ((ss, sh), Return (s, Err e))
               | ((_, sh), Panic) => ((ss, sh), Panic)
               end.

Definition start_session (id : N) (name : ustring) (start : Wire.StartSession) : handler Wire.Envelope :=
  known ← find_session name;
  if (match known with Some s => (id <=? last_request_id s)%N | None => false end)
  then mret (error_envelope id name Wire.OutOfOrderRequest NOT_GREATER)
  else
    match start_settings start with
    | Panic => lift Panic
    | Raise (code, message) => mret (error_envelope id name code message)
    | Return (style, around, language) =>
        '(s, r) ← on_session (new_session session_new id style around language)
                    (on_conversion prepare_conversion);
        match r with
        | Err (code, message) => mret (error_envelope id name code message)
        | Ok _ =>
            insert_session name s;;
            mret (state_envelope id name (cleared_state s false [] true))
        end
    end.

(** ** Requests of a session *)

(** The request after its answer: an error resets the session. *)
Definition answer (id : N) (name : ustring) (s : EngineSession) (r : result Failure Wire.StateResponse) :
    handler Wire.Envelope :=
  insert_session name s;;
  match r with
  | Ok response => mret (state_envelope id name response)
  | Err (code, message) =>
      '(s, _) ← on_session s reset;
      insert_session name s;;
      mret (error_envelope id name code message)
  end.

(** [EndSession]: the session is not kept. *)
Definition end_session (id : N) (name : ustring) (s : EngineSession) : handler Wire.Envelope :=
  '(s, r) ← on_session s (on_conversion
    (map_error (λ e, failed COMMIT_FAILED (display_learning displays e)) (commit_learning t)));
  mret (match r with
        | Ok _ => state_envelope id name (cleared_state s false [] true)
        | Err (code, message) => error_envelope id name code message
        end).

Definition answer_typo_corrections (id : N) (name : ustring) (s : EngineSession) : handler Wire.Envelope :=
  '(s, r) ← on_session s (request_typo_corrections to_lowercase config (composing (conversion s)));
  match r with
  | Ok found =>
      insert_session name (set_typo_corrections found s);;
      mret (typo_correction_envelope id name found)
  | Err (code, message) =>
      '(s, _) ← on_session s reset;
      insert_session name s;;
      mret (error_envelope id name code message)
  end.

Definition answer_page (id : N) (name : ustring) (s : EngineSession) (page : Wire.PageCandidates) :
    handler Wire.Envelope :=
  match page_candidates page s with
  | None =>
      insert_session name s;;
      mret (error_envelope id name Wire.InvalidPayload INVALID_PAGE)
  | Some s =>
      let s := set_live_candidate None s in
      answer id name s (Ok (make_state s true [] false))
  end.

Definition handle_event (event : Wire.KeyEvent) : response :=
  match Wire.key_surrounding event with
  | None => keys event
  | Some around =>
      match surrounding_context (Some around) with
      | Ok around => put (set_surrounding around);; keys event
      | Err message => raise (Wire.InvalidPayload, message)
      end
  end.

Definition commit_composition : response :=
  commit ← get current_marked_text;
  reset;;
  let consumed := negb (bool_decide (commit = [])) in
  respond_cleared consumed commit consumed.

(** The other requests of a session *)
Definition session_response (request : Wire.Payload) : response :=
  match request with
  | Wire.PResetSession => reset;; respond_cleared false [] true
  | Wire.PKeyEvent event => handle_event event
  | Wire.PSelectCandidate index => select_candidate to_uppercase displays config t (N.to_nat index)
  | Wire.PSelectTypoCorrection index => select_typo_correction (N.to_nat index)
  | Wire.PForgetCandidate index => forget_candidate to_uppercase displays config t (N.to_nat index)
  | Wire.PResetLearning => EngineKeys.reset_learning to_uppercase displays config t
  | Wire.PCommitComposition => commit_composition
  | _ => raise (Wire.InvalidPayload, INVALID_REQUEST)
  end.

Definition handle_session_request (id : N) (name : ustring) (request : Wire.Payload) : handler Wire.Envelope :=
  known ← find_session name;
  match known with
  | None => mret (error_envelope id name Wire.UnknownSession UNKNOWN_SESSION)
  | Some s =>
      if (id <=? last_request_id s)%N
      then mret (error_envelope id name Wire.OutOfOrderRequest NOT_GREATER)
      else
        remove_session name;;
        let s := set_last_request_id id s in
        match request with
        | Wire.PEndSession => end_session id name s
        | Wire.PRequestTypoCorrections => answer_typo_corrections id name s
        | Wire.PPageCandidates page => answer_page id name s page
        | request => '(s, r) ← on_session s (session_response request); answer id name s r
        end
  end.

Definition handle (e : Wire.Envelope) : handler Wire.Envelope :=
  let id := Wire.request_id e in
  let name := Wire.session_id e in
  match Wire.payload e with
  | None => mret (error_envelope id name Wire.InvalidPayload MISSING_PAYLOAD)
  | Some (Wire.PStartSession start) => start_session id name start
  | Some (Wire.PStateResponse _ | Wire.PTypoCorrectionResponse _ | Wire.PProtocolError _ _) =>
      mret (error_envelope id name Wire.InvalidPayload RESPONSE_AS_REQUEST)
  | Some request => handle_session_request id name request
  end.
End handle.
