(* ===== verification/EngineSpec.v ===== *)
(** * The engine of the daemon: single keys

    What the parts of the engine that need no conversion promise: the text around
    the cursor, the edit of a correction, the input of characters by their numbers,
    and the keys that leave a mode. *)

From S2P Require Import Prelude Unicode F32 Constraint InputTable Composing Dictionary LatticeIndex Lattice Prediction TextUtil Template Action LearningRecords LearningFiles Zenz ZenzEvaluator NGram LmTypo DictionaryStore UserDictionary Foreign SessionState Session ComposingSpec LearningMemory LearningMemorySpec SessionInvariant SessionProperties ZenzConvert Protocol EngineInput EngineState Engine EngineKeys.

(** ** The text around the cursor *)

Lemma first_line_spec s :
  ∃ rest, s = first_line s ++ rest ∧ NEWLINE ∉ first_line s ∧ (rest = [] ∨ head rest = Some NEWLINE).
Proof.
  induction s as [|c s (rest & IH & Hn & Hr)]; [exists []; split_and!; [done|set_solver|by left]|].
  cbn. case_decide as Hc.
  - exists (c :: s). split_and!; [done|set_solver|right; cbn; by rewrite Hc].
  - exists rest. split_and!; [cbn; by rewrite <- IH|set_solver|done].
Qed.

Lemma trim_start_suffix s : trim_start s `suffix_of` s.
Proof. induction s as [|c s IH]; [done|]. cbn. case_match; [by apply suffix_cons_r|done]. Qed.

Lemma trim_end_prefix s : trim_end s `prefix_of` s.
Proof.
  unfold trim_end. destruct (trim_start_suffix (reverse s)) as [k Hk]. exists (reverse k).
  rewrite <- reverse_app, <- Hk. by rewrite reverse_involutive.
Qed.

Lemma last_line_suffix s : last_line s `suffix_of` s ∧ NEWLINE ∉ last_line s.
Proof.
  unfold last_line. destruct (first_line_spec (reverse s)) as (rest & Hs & Hn & _). split.
  - exists (reverse rest). rewrite <- reverse_app, <- Hs. by rewrite reverse_involutive.
  - by rewrite elem_of_reverse.
Qed.

(** C33. The text around the cursor is what the client sent: when its cursor and anchor lie
    in the text, the left context ends where the selection begins, the right context
    begins where it ends, and each is a part of one line of at most thirty characters;
    the request is refused exactly when the cursor or the anchor lies outside, and
    nothing is kept when the client says that no text is available. *)
Theorem surrounding_context_spec (around : Wire.SurroundingText) :
  let text := Wire.surrounding_text around in
  let low := N.to_nat (Wire.text_cursor around `min` Wire.text_anchor around) in
  let high := N.to_nat (Wire.text_cursor around `max` Wire.text_anchor around) in
  match surrounding_context (Some around) with
  | Err _ => Wire.available around = true ∧ length text < high
  | Ok context =>
      (Wire.available around = false ∧ context = no_surrounding) ∨
      ∃ before after, Wire.available around = true ∧ high ≤ length text ∧
        context = {| left := Some before; right := Some after |} ∧
        before `suffix_of` take low text ∧ length before ≤ 30 ∧ NEWLINE ∉ before ∧
        after `prefix_of` drop high text ∧ length after ≤ 30 ∧ NEWLINE ∉ after
  end.
Proof.
  intros text low high. unfold surrounding_context. destruct (Wire.available around); cbn [negb]; [|by left].
  case_decide as Hout; [split; [done|]; subst text high; lia|].
  right. eexists _, _. split_and!; [done|subst high text; lia|reflexivity|..]; fold text.
  all: destruct (last_line_suffix (take low text)) as [Hl Hn].
  all: destruct (first_line_spec (drop high text)) as (rest & Hr & Hn' & _).
  all: pose proof (trim_start_suffix (last_line (take low text))) as Ht.
  all: pose proof (trim_end_prefix (first_line (drop high text))) as Ht'.
  all: assert (Hd : last_thirty (trim_start (last_line (take low text))) `suffix_of`
         trim_start (last_line (take low text))) by apply suffix_drop.
  - etrans; [exact Hd|]. etrans; [exact Ht|exact Hl].
  - unfold last_thirty. rewrite length_drop. lia.
  - intros Hin. apply Hn. destruct Ht as [? ->], Hd as [k Hd]. fold low in Hin. apply elem_of_app. right.
    rewrite Hd. apply elem_of_app. by right.
  - etrans; [apply prefix_take|]. etrans; [exact Ht'|]. rewrite Hr at 2. by eexists.
  - rewrite length_take. lia.
  - intros Hin. apply Hn'. destruct Ht' as [k ->]. apply elem_of_app. left.
    rewrite <- (take_drop 30 (trim_end _)). apply elem_of_app. by left.
Qed.

(** ** The edit of a correction *)

Lemma shared_count_spec (l r : list ustring) :
  let n := shared_count l r in
  n ≤ length l ∧ n ≤ length r ∧ take n l = take n r ∧ ∀ x, l !! n = Some x → r !! n ≠ Some x.
Proof.
  revert r. induction l as [|x l IH]; intros [|y r]; cbn; [naive_solver lia..|].
  case_decide as Hxy; [subst y|cbn; split_and!; [lia|lia|done|congruence]].
  destruct (IH r) as (Hl & Hr & Ht & Hn). cbn. split_and!; [lia|lia|by rewrite Ht|done].
Qed.

(** The text after an edit: the clusters that stay, and what is appended *)
Definition edited `{Segmentation} (current : ustring) (p : InputPrediction) : ustring :=
  concat (take (length (graphemes current) - delete_count p) (graphemes current)) ++ append_text p.

Lemma suffix_edit_reaches `{Segmentation} `{!SegmentationLaws} current target display :
  match suffix_edit_prediction current target display with
  | None => current = target
  | Some p => edited current p = target ∧ delete_count p ≤ length (graphemes current) ∧
      display_text p = display ∧ predicted_candidate p = None ∧
      ∀ n, n < delete_count p →
        ¬ take (length (graphemes current) - n) (graphemes current) `prefix_of` graphemes target
  end.
Proof.
  unfold suffix_edit_prediction, edited. cbv zeta.
  destruct (shared_count_spec (graphemes current) (graphemes target)) as (Hl & Hr & Ht & Hn).
  set (n := shared_count (graphemes current) (graphemes target)) in *.
  assert (Htarget : concat (take n (graphemes current)) ++ concat (drop n (graphemes target)) = target).
  { rewrite Ht, <- concat_app, take_drop. apply graphemes_concat. }
  destruct (bool_decide (0 < length (graphemes current) - n)
            || negb (bool_decide (concat (drop n (graphemes target)) = []))) eqn:Hedit.
  - cbn [delete_count append_text display_text predicted_candidate]. split_and!; [|lia|done|done|].
    + replace (length (graphemes current) - (length (graphemes current) - n)) with n by lia. done.
    + intros k Hk [rest Hprefix].
      destruct (lookup_lt_is_Some_2 (graphemes current) n) as [x Hx]; [lia|]. apply (Hn x Hx).
      rewrite Hprefix, lookup_app_l by (rewrite length_take; lia). by rewrite lookup_take_lt by lia.
  - apply orb_false_iff in Hedit as [Hd Ha%negb_false_iff%bool_decide_eq_true].
    apply bool_decide_eq_false in Hd. rewrite Ha, app_nil_r in Htarget.
    rewrite <- Htarget, take_ge by lia. symmetry. apply graphemes_concat.
Qed.

Section edit.
Context `{Segmentation} `{Hseg : !SegmentationLaws} `{IterationOrder} `{Chrono} `{Rng} `{Marisa}.
Context {M N : Type} (config : EngineConfig) (Hok : registry_ok (engine_tables config)).

Lemma retain_composing c : composing (retain_prediction_prefix c) = composing c.
Proof. unfold retain_prediction_prefix. by repeat case_match. Qed.
Lemma forget_results_composing c : composing (forget_results c) = composing c.
Proof. done. Qed.
Lemma forget_context_composing c : composing (forget_context c) = composing c.
Proof. unfold forget_context. by case_match. Qed.
Lemma set_conversion_same c s : conversion (set_conversion c s) = c.
Proof. done. Qed.

Lemma with_same_world (sh : Shared M N) : with_world (world sh) sh = sh.
Proof. by destruct sh. Qed.

Lemma insert_nothing tables ct usual : Composing.insert_str tables ct [] usual = Some ct.
Proof.
  unfold Composing.insert_str. pose proof (graphemes_concat []) as Hc. pose proof (graphemes_nonempty []) as Hn.
  destruct (graphemes []) as [|[|c g] gs]; [done|exfalso; apply Hn; by left|done].
Qed.

(** An operation on the conversion session that leaves the world alone *)
Lemma run_conversion {E' A} (m : action (ConversionSession * World) E' A) (s : EngineSession) (sh : Shared M N) c r :
  m (conversion s, world sh) = ((c, world sh), r) → on_conversion m (s, sh) = ((set_conversion c s, sh), r).
Proof. intros Hm. unfold on_conversion. by rewrite Hm, with_same_world. Qed.

Lemma run_delete {E'} (s : EngineSession) (sh : Shared M N) n ct :
  Composing.delete_backward (engine_tables config) (composing (conversion s)) n = Some ct →
  ∃ s', on_conversion (E':=E') (Session.delete_backward (engine_tables config) n) (s, sh) = ((s', sh), Return ()) ∧
    composing (conversion s') = ct.
Proof.
  intros Hct. eexists. split; [apply run_conversion|].
  - unfold Session.delete_backward, Session.edit, Session.read, update, mbind, action_bind, gets, expect, lift, modify.
    cbn [fst snd]. rewrite Hct. reflexivity.
  - by rewrite set_conversion_same, forget_context_composing, forget_results_composing, retain_composing.
Qed.

Lemma run_insert {E'} (s : EngineSession) (sh : Shared M N) value usual ct :
  Composing.insert_str (engine_tables config) (composing (conversion s)) value usual = Some ct →
  ∃ s', on_conversion (E':=E') (Session.insert_str (engine_tables config) value usual) (s, sh) = ((s', sh), Return ()) ∧
    composing (conversion s') = ct.
Proof.
  intros Hct. eexists. split; [apply run_conversion|].
  - unfold Session.insert_str, Session.edit, Session.read, update, mbind, action_bind, gets, expect, lift, modify.
    cbn [fst snd]. rewrite Hct. reflexivity.
  - by rewrite set_conversion_same, forget_results_composing, retain_composing.
Qed.

(** C24. The correction offered after a deletion does what it says, as long as the cursor is
    at the end and the text shown has the clusters that were typed (none of them joins
    with another when the text is segmented anew): when the reading shown is not the one
    the correction means, the edit of the prediction deletes the fewest clusters and
    appends the rest, and taking it with Tab turns the text into the reading of the
    correction, with the cursor at its end; when nothing is offered the text is that
    reading already. *)
Theorem correction_applied (s : EngineSession) (sh : Shared M N) display target :
  let ct := composing (conversion s) in
  text_ok (engine_tables config) ct → is_at_end ct = true → graphemes (surface_of ct) = surface ct →
  match suffix_edit_prediction (shown_surface s) target display with
  | None => shown_surface s = target
  | Some p =>
      (∀ n, n < delete_count p → ¬ take (length (surface ct) - n) (surface ct) `prefix_of` graphemes target) ∧
      ∃ s', apply_edit config p (s, sh) = ((s', sh), Return ()) ∧ shown_surface s' = target ∧
        wf (engine_tables config) (composing (conversion s')) ∧ is_at_end (composing (conversion s')) = true
  end.
Proof using Hok Hseg.
  intros ct Htext Hend Hclusters. pose proof (suffix_edit_reaches (shown_surface s) target display) as Hp.
  destruct (suffix_edit_prediction _ _ _) as [p|]; [|done].
  destruct Hp as (Hedit & Hd & _ & _ & Hmin). unfold edited, shown_surface in *. fold ct in Hedit, Hd, Hmin.
  rewrite Hclusters in Hedit, Hd, Hmin. split; [done|].
  destruct (delete_then_insert (engine_tables config) Hok ct (delete_count p) (append_text p))
    as (ct1 & ct2 & Hct1 & Hct2 & Hwf & Hend2 & Hs2); [done..|].
  rewrite Hedit in Hs2.
  assert (Hdel : ∃ s1, (if decide (0 < delete_count p)
                        then on_conversion (Session.delete_backward (engine_tables config) (delete_count p)) else mret ())
                         (s, sh) = ((s1, sh), Return () : outcome Failure ()) ∧ composing (conversion s1) = ct1).
  { revert Hct1. case_decide; intros Hct1; [by apply run_delete|injection Hct1 as <-; by exists s]. }
  destruct Hdel as (s1 & Hdel & Hs1). unfold apply_edit. rewrite (run_bind _ _ _ _ _ Hdel).
  rewrite (run_bind _ _ _ (set_backspace_correction None s1, sh) ()) by done.
  destruct (decide (append_text p = [])) as [Happend|_].
  - exists (set_last_was_backspace true (set_backspace_correction None s1)).
    rewrite Happend, insert_nothing in Hct2. injection Hct2 as <-. split; [done|].
    change (conversion (set_last_was_backspace true (set_backspace_correction None s1))) with (conversion s1).
    by rewrite Hs1.
  - rewrite <- Hs1 in Hct2.
    destruct (run_insert (E':=Failure) (set_backspace_correction None s1) sh (append_text p) Direct ct2 Hct2)
      as (s' & Hrun & Hs'). exists s'. by rewrite Hs'.
Qed.
End edit.

(** ** Responses *)

Section responses.
Context (s : EngineSession) (consumed : bool) (commit : ustring) (cleared : bool).
#[local] Notation answer := (make_state s consumed commit cleared).

Lemma answer_consumed : Wire.consumed answer = consumed.
Proof. unfold make_state. by destruct (preedit_of s). Qed.
Lemma answer_commit : Wire.commit answer = commit.
Proof. unfold make_state. by destruct (preedit_of s). Qed.
Lemma answer_reset : Wire.resp_reset answer = cleared.
Proof. unfold make_state. by destruct (preedit_of s). Qed.
Lemma answer_preedit : Wire.preedit answer = (preedit_of s).1.
Proof. unfold make_state. by destruct (preedit_of s). Qed.
End responses.
#[export] Hint Rewrite answer_consumed answer_commit answer_reset answer_preedit : answers.

(** ** Keys one after another *)

Section keys.
Context `{Segmentation} `{IterationOrder} `{Chrono} `{Icu} `{Rng} `{Marisa} {E : Type} `{Dictionary E}.
Context {M N : Type} `{ZenzLanguageModel M} `{ZenzLanguageModel N} `{Libm}.
Context (to_uppercase to_lowercase : ustring → ustring) (displays : Displays E).
Context (config : EngineConfig) (t : Moment).

#[local] Notation state := (EngineSession * Shared M N)%type.
#[local] Notation engine A := (action state Failure A).
#[local] Notation handle_key := (handle_key to_uppercase to_lowercase displays config t).
#[local] Notation handle_language := (handle_language to_uppercase to_lowercase displays config t).

(** The state after keys, and their answers *)
Fixpoint press (es : list Wire.KeyEvent) (st : state) : state * list (outcome Failure Wire.StateResponse) :=
  match es with
  | [] => (st, [])
  | e :: es => let '(st, r) := handle_key e st in let '(st, rs) := press es st in (st, r :: rs)
  end.

Definition acts (a : Wire.UserAction) (e : Wire.KeyEvent) : Prop := user_action e = Some a.

Lemma normalize_other a e behavior : acts a e → a ≠ Wire.Input → normalize_input_event e behavior = e.
Proof. intros Ha Hne. unfold normalize_input_event. rewrite decide_True; [done|]. rewrite Ha. congruence. Qed.

Lemma option_direct_other a e (st : state) : a ≠ Wire.Input → option_direct config a e st = (st, Return None).
Proof.
  intros Hne. unfold option_direct, get.
  rewrite (run_bind _ _ _ st false); [done|]. unfold gets. cbv beta.
  rewrite bool_decide_eq_false_2 by (intros [? _]; done). done.
Qed.

(** A key that types nothing goes straight to the state machine. *)
Lemma key_other a e s (sh : Shared M N) :
  acts a e → a ≠ Wire.Input →
  handle_key e (s, sh) =
    if decide (input_mode s = ModeUnicode) then handle_unicode_input a e (set_typo_corrections [] s, sh)
    else handle_language a e (set_typo_corrections [] s, sh).
Proof.
  intros Ha Hne. unfold EngineKeys.handle_key.
  rewrite (run_bind _ _ _ (set_typo_corrections [] s, sh) ()) by done.
  assert (default Wire.ActionUnspecified (user_action e) = a) as -> by (unfold acts in Ha; by rewrite Ha).
  rewrite (run_bind _ _ _ _ _ (option_direct_other a e _ Hne)), (normalize_other a) by done.
  rewrite (run_bind _ _ _ (set_typo_corrections [] s, sh) (input_mode s)) by done.
  by destruct (decide (input_mode s = ModeUnicode)).
Qed.

(** What [reset] leaves *)
Definition reset_to (s : EngineSession) : EngineSession :=
  reset_session (set_accepted_prediction None (set_zenz_prediction_cache None
    (set_stable_prediction_cache None (set_last_committed None (set_context default_context
      (set_candidates [] (set_composing (stop (composing (conversion s))) (conversion s)))))))) s.

Lemma run_reset s (sh : Shared M N) : reset (s, sh) = ((reset_to s, sh), Return ()).
Proof. by destruct sh. Qed.

Lemma run_reset_respond s (sh : Shared M N) consumed commit cleared :
  (reset;; respond consumed commit cleared) (s, sh)
  = ((reset_to s, sh), Return (make_state (reset_to s) consumed commit cleared)).
Proof. by rewrite (run_bind _ _ _ _ _ (run_reset s sh)). Qed.

Lemma press_app es es' st :
  press (es ++ es') st =
    let '(st', rs) := press es st in let '(st'', rs') := press es' st' in (st'', rs ++ rs').
Proof.
  revert st. induction es as [|e es IH]; intros st; cbn; [by destruct (press es' st)|].
  destruct (handle_key e st) as [st1 r]. rewrite IH. destruct (press es st1) as [st2 rs].
  by destruct (press es' st2).
Qed.

(** ** Escape *)

(** How many times Escape is pressed to leave a mode *)
Definition depth (mode : InputMode) : nat :=
  match mode with
  | ModeNone => 0
  | ModeComposing | ModeUnicode => 1
  | ModePreviewing => 2
  | ModeSelecting => 3
  end.

Ltac settle :=
  split_and!; autorewrite with answers; first [done|intros; congruence|cbn; lia|intros; split; autorewrite with answers; done].

Lemma escape_step e s (sh : Shared M N) :
  acts Wire.Escape e →
  ∃ s' r, handle_key e (s, sh) = ((s', sh), Return r) ∧ Wire.commit r = [] ∧
    depth (input_mode s') ≤ depth (input_mode s) - 1 ∧
    (input_mode s = ModeNone → s' = set_typo_corrections [] s ∧ Wire.consumed r = false) ∧
    (input_mode s ≠ ModeNone → input_mode s' = ModeNone → shown_surface s' = [] ∧ Wire.resp_reset r = true).
Proof.
  intros He. rewrite (key_other Wire.Escape) by done. set (s0 := set_typo_corrections [] s).
  change (input_mode s) with (input_mode s0). case_decide as Hu.
  { eexists _, _. split; [exact (run_reset_respond s0 sh true [] true)|]. settle. }
  assert (Hrun : handle_language Wire.Escape e (s0, sh) = escape config (input_mode s0) (s0, sh)).
  { unfold EngineKeys.handle_language, get, mbind, action_bind, gets. cbn [fst id english_text number_key].
    unfold english_text, number_key. rewrite bool_decide_eq_false_2 by (intros [? _]; done). cbn [andb].
    rewrite decide_False by (intros [? _]; done). unfold handle_action, get, ask, has_text, mbind, action_bind, gets. done. }
  rewrite Hrun. destruct (input_mode s0) eqn:Hmode; cbn [escape].
  - eexists _, _. split; [reflexivity|]. rewrite ?Hmode. settle.
  - eexists _, _. split; [exact (run_reset_respond s0 sh true [] true)|]. settle.
  - eexists _, _. split; [reflexivity|]. settle.
  - eexists _, _. split; [reflexivity|]. destruct (live_conversion config); settle.
  - done.
Qed.

(** C19. Escape always leads out: from any session, whatever was typed, selected or
    shown, three presses of Escape end in the mode without input; each is answered,
    none commits a text, raises an error, or touches the dictionary, the memory or the
    model; and unless the session was in this mode already, no text is left. *)
Theorem escape_leaves s (sh : Shared M N) es :
  Forall (acts Wire.Escape) es → 3 ≤ length es →
  ∃ s' rs, press es (s, sh) = ((s', sh), Return <$> rs) ∧ input_mode s' = ModeNone ∧
    Forall (λ r, Wire.commit r = []) rs ∧
    (input_mode s ≠ ModeNone → shown_surface s' = []).
Proof.
  intros Hes Hlen.
  assert (Hdepth : depth (input_mode s) ≤ length es) by (destruct (input_mode s); cbn; lia).
  clear Hlen. revert s Hdepth. induction Hes as [|e es He Hes IH]; intros s Hdepth.
  { exists s, []. split_and!; [done| |constructor|]; destruct (input_mode s); cbn in *; first [done|lia]. }
  destruct (escape_step e s sh He) as (s1 & r & Hrun & Hcommit & Hless & Hnone & Hleft).
  destruct (IH s1) as (s' & rs & Hpress & Hmode & Hrs & Hshown); [cbn in Hdepth; lia|].
  exists s', (r :: rs). cbn. rewrite Hrun, Hpress. split_and!; [done|done|by constructor|].
  intros Hne. destruct (decide (input_mode s1 = ModeNone)) as [Hs1|Hs1]; [|by apply Hshown].
  destruct (Hleft Hne Hs1) as [Hempty _].
  assert (Hstay : ∀ es' s2, Forall (acts Wire.Escape) es' → input_mode s2 = ModeNone → shown_surface s2 = [] →
    shown_surface (press es' (s2, sh)).1.1 = []).
  { intros es'. induction es' as [|e' es' IH']; intros s2 Hes' Hm2 Hs2; [done|].
    apply Forall_cons in Hes' as [He' Hes'].
    destruct (escape_step e' s2 sh He') as (s3 & r3 & Hrun3 & _ & _ & Hn3 & _).
    destruct (Hn3 Hm2) as [-> _]. cbn. rewrite Hrun3.
    specialize (IH' (set_typo_corrections [] s2) Hes' Hm2 Hs2). by destruct (press es' _). }
  specialize (Hstay es s1). rewrite Hpress in Hstay. by apply Hstay.
Qed.

(** ** Characters by their numbers *)

(** The digits of a number, the last [n] of them *)
Fixpoint hex (n : nat) (c : BinNums.N) : list BinNums.N :=
  match n with 0 => [] | S n => hex n (c / 16)%N ++ [(c mod 16)%N] end.
Definition hex_digit (d : BinNums.N) : char := if decide (d < 10)%N then (48 + d)%N else (87 + d)%N.
Definition hex_text (n : nat) (c : BinNums.N) : ustring := hex_digit <$> hex n c.

(** The digits of what was typed *)
Definition typed_digits (es : list Wire.KeyEvent) : ustring :=
  es ≫= λ e, filter (λ c, is_ascii_hexdigit c = true) (to_ascii_lowercase <$> Wire.key_input e).
End keys.

Lemma hex_digit_value d : (d < 16)%N → to_digit 16 (hex_digit d) = Some d.
Proof.
  intros Hd.
  assert (Hall : Forall (λ d, to_digit 16 (hex_digit d) = Some d) (N.of_nat <$> seq 0 16)) by (vm_compute; repeat constructor).
  rewrite Forall_forall in Hall. apply Hall, list_elem_of_fmap.
  exists (N.to_nat d). split; [lia|]. apply elem_of_seq. lia.
Qed.

Lemma hex_bound n c : Forall (λ d, (d < 16)%N) (hex n c).
Proof.
  revert c. induction n as [|n IH]; intros c; [constructor|]. apply Forall_app. split; [apply IH|].
  repeat constructor. by apply N.mod_lt.
Qed.

Lemma digits_value_snoc ds v d :
  digits_value 16 ds = Some v → (d < 16)%N →
  digits_value 16 (ds ++ [hex_digit d]) = Some (v * 16 + Z.of_N d)%Z.
Proof.
  unfold digits_value. intros Hv Hd. rewrite foldl_snoc, Hv. cbn. by rewrite hex_digit_value.
Qed.

Lemma hex_value n c : (c < 16 ^ N.of_nat n)%N → digits_value 16 (hex_digit <$> hex n c) = Some (Z.of_N c).
Proof.
  revert c. induction n as [|n IH]; intros c Hc; cbn [hex].
  { assert (c = 0%N) as -> by (cbn in Hc; lia). done. }
  rewrite fmap_app. cbn [fmap list_fmap].
  rewrite (digits_value_snoc _ (Z.of_N (c / 16)%N)); [|apply IH|by apply N.mod_lt].
  - f_equal. pose proof (N.div_mod' c 16). lia.
  - apply N.Div0.div_lt_upper_bound. rewrite Nat2N.inj_succ, N.pow_succ_r' in Hc. lia.
Qed.

Section unicode.
Context `{Segmentation} `{IterationOrder} `{Chrono} `{Icu} `{Rng} `{Marisa} {E : Type} `{Dictionary E}.
Context {M N : Type} `{ZenzLanguageModel M} `{ZenzLanguageModel N} `{Libm}.
Context (to_uppercase to_lowercase : ustring → ustring) (displays : Displays E).
Context (config : EngineConfig) (t : Moment).

#[local] Notation handle_key := (handle_key to_uppercase to_lowercase displays config t).
#[local] Notation press := (press to_uppercase to_lowercase displays config t).

Lemma normalize_key_input e behavior : Wire.key_input (normalize_input_event e behavior) = Wire.key_input e.
Proof. unfold normalize_input_event. repeat (case_decide || case_match); done. Qed.

Lemma option_direct_mode a e s (sh : Shared M N) :
  input_mode s ≠ ModeNone → option_direct config a e (s, sh) = ((s, sh), Return None).
Proof.
  intros Hne. unfold option_direct, get. rewrite (run_bind _ _ _ (s, sh) false); [done|]. unfold gets. cbv beta.
  rewrite bool_decide_eq_false_2 by (intros (_ & ? & _); done). done.
Qed.

Lemma unicode_key a e s (sh : Shared M N) :
  input_mode s = ModeUnicode → acts a e →
  handle_key e (s, sh) =
    handle_unicode_input a (normalize_input_event e (input_behavior config)) (set_typo_corrections [] s, sh).
Proof.
  intros Hmode Ha. unfold EngineKeys.handle_key.
  rewrite (run_bind _ _ _ (set_typo_corrections [] s, sh) ()) by done.
  assert (default Wire.ActionUnspecified (user_action e) = a) as -> by (unfold acts in Ha; by rewrite Ha).
  rewrite (run_bind _ _ _ _ _ (option_direct_mode a e (set_typo_corrections [] s) sh ltac:(cbn; congruence))).
  rewrite (run_bind _ _ _ (set_typo_corrections [] s, sh) (input_mode s)) by done. by rewrite decide_True.
Qed.

Lemma press_digits es s (sh : Shared M N) :
  input_mode s = ModeUnicode → Forall (acts Wire.Input) es →
  ∃ s' rs, press es (s, sh) = ((s', sh), Return <$> rs) ∧ input_mode s' = ModeUnicode ∧
    unicode_input s' = unicode_input s ++ typed_digits es ∧ Forall (λ r, Wire.commit r = []) rs.
Proof.
  intros Hmode Hes. revert s Hmode. induction Hes as [|e es He _ IH]; intros s Hmode.
  { exists s, []. split_and!; [done|done|by rewrite app_nil_r|done]. }
  cbn [EngineSpec.press]. rewrite (unicode_key Wire.Input e) by done. unfold handle_unicode_input.
  rewrite normalize_key_input. set (ds := filter _ _).
  set (s1 := set_unicode_input (unicode_input s ++ ds) (set_typo_corrections [] s)).
  rewrite (run_bind _ _ _ (s1, sh) ()) by done. destruct (IH s1 Hmode) as (s' & rs & Hpress & Hm & Hd & Hrs).
  unfold handled, respond, get, gets. rewrite Hpress. exists s', (make_state s1 true [] false :: rs).
  split_and!; [done|done| |constructor; [apply answer_commit|done]].
  rewrite Hd. cbn. by rewrite <- app_assoc.
Qed.

(** The number of digits without a sign *)
Lemma digits_parse ds :
  Forall (λ c, is_ascii_hexdigit c = true) ds →
  from_str_radix_u32 16 ds =
    match ds with
    | [] => None
    | _ => v ← digits_value 16 ds; if decide (0 ≤ v ≤ 2 ^ 32 - 1)%Z then Some (Z.to_N v) else None
    end.
Proof.
  unfold from_str_radix_u32, parse_int. intros [|c ds' Hc _]; [done|].
  rewrite decide_False by (intros [_ ->]; done). rewrite decide_False by (intros (_ & _ & ?); lia).
  cbn [mbind option_bind]. destruct (digits_value 16 _) as [v|]; [|done]. cbn [mbind option_bind].
  by case_decide.
Qed.

Lemma hex_digit_is d : (d < 16)%N → is_ascii_hexdigit (hex_digit d) = true.
Proof. intros Hd. unfold is_ascii_hexdigit. rewrite hex_digit_value by done. by apply bool_decide_eq_true. Qed.

Lemma hex_text_digits n c : Forall (λ c, is_ascii_hexdigit c = true) (hex_text n c).
Proof. apply Forall_fmap. eapply Forall_impl; [apply hex_bound|]. intros d Hd. by apply hex_digit_is. Qed.

(** The number is read in full. *)
Lemma unicode_text_spec ds c :
  Forall (λ c, is_ascii_hexdigit c = true) ds →
  unicode_text ds = [c] ↔ ds ≠ [] ∧ is_scalar c = true ∧ digits_value 16 ds = Some (Z.of_N c).
Proof.
  intros Hds. unfold unicode_text. rewrite digits_parse by done. destruct Hds as [|d ds _ _]; [naive_solver|].
  destruct (digits_value 16 _) as [v|]; [|naive_solver]. cbn [mbind option_bind]. unfold from_u32. split.
  - case_decide; [|done]. cbn. destruct (is_scalar (Z.to_N v)) eqn:Hv; [|done]. intros [= <-].
    rewrite Z2N.id by lia. done.
  - intros (_ & Hc & [= ->]). rewrite decide_True by (apply is_scalar_spec in Hc; lia). cbn. by rewrite N2Z.id, Hc.
Qed.

Lemma typed_digits_hex es : Forall (λ c, is_ascii_hexdigit c = true) (typed_digits es).
Proof.
  apply Forall_forall. intros c (e & Hc & _)%list_elem_of_bind. by apply list_elem_of_filter in Hc as [? _].
Qed.

(** C28. A character is entered by its number: in the Unicode mode, keys that type the digits
    of a character, in either case, with anything else between them and with zeros
    before them, and then Enter or Space, commit exactly this character and leave the
    mode; what is committed is a character exactly when its number was typed, and
    nothing otherwise. No key is refused, and nothing but the digits matters. *)
Theorem unicode_input_commits s (sh : Shared M N) es enter :
  input_mode s = ModeUnicode → unicode_input s = [] →
  Forall (acts Wire.Input) es → acts Wire.Enter enter ∨ acts Wire.Space enter →
  ∃ s' rs r, press (es ++ [enter]) (s, sh) = ((s', sh), (Return <$> rs) ++ [Return r]) ∧
    Forall (λ r, Wire.commit r = []) rs ∧ input_mode s' = ModeNone ∧ Wire.resp_reset r = true ∧
    (∀ n c, is_scalar c = true → 0 < n → (c < 16 ^ N.of_nat n)%N → typed_digits es = hex_text n c →
       Wire.commit r = [c]) ∧
    (∀ c, Wire.commit r = [c] ↔
       typed_digits es ≠ [] ∧ is_scalar c = true ∧ digits_value 16 (typed_digits es) = Some (Z.of_N c)) ∧
    length (Wire.commit r) ≤ 1.
Proof.
  intros Hmode Hnone Hes Henter.
  destruct (press_digits es s sh Hmode Hes) as (s1 & rs & Hpress & Hm & Hd & Hrs). rewrite Hnone in Hd. cbn in Hd.
  rewrite press_app, Hpress. cbn [EngineSpec.press].
  assert (Hrun : handle_key enter (s1, sh) =
    ((reset_to (set_typo_corrections [] s1), sh),
     Return (make_state (reset_to (set_typo_corrections [] s1)) true (unicode_text (typed_digits es)) true))).
  { rewrite <- Hd. destruct Henter as [Ha|Ha]; rewrite (unicode_key _ enter s1 sh Hm Ha); unfold handle_unicode_input;
      rewrite (run_bind _ _ _ (set_typo_corrections [] s1, sh) (unicode_text (unicode_input s1))) by done;
      by rewrite run_reset_respond. }
  rewrite Hrun. eexists _, rs, _. split; [reflexivity|]. autorewrite with answers.
  split_and!; [done|done|done| | |].
  - intros n c Hc Hn Hbound Htyped. apply unicode_text_spec; [apply typed_digits_hex|]. rewrite Htyped.
    split_and!; [|done|by apply hex_value]. unfold hex_text. destruct n; [lia|]. cbn [hex].
    rewrite fmap_app. by intros [_ [=]]%app_nil.
  - intros c. apply unicode_text_spec, typed_digits_hex.
  - unfold unicode_text. case_match; cbn; lia.
Qed.
End unicode.

(** ** What is committed *)

(** ** What an action returns *)

Definition returns {S E A} (m : action S E A) (P : A → Prop) : Prop := ∀ s s' a, m s = (s', Return a) → P a.

Lemma returns_ret {S E A} (a : A) (P : A → Prop) : P a → returns (mret a : action S E A) P.
Proof. intros HP s s' b [= <- <-]. exact HP. Qed.

Lemma returns_bind {S E A B} (m : action S E A) (f : A → action S E B) (P : A → Prop) (Q : B → Prop) :
  returns m P → (∀ a, P a → returns (f a) Q) → returns (m ≫= f) Q.
Proof. intros Hm Hf s s' b (s1 & a & Ha & Hb)%bind_Return. eapply Hf; [by eapply Hm|done]. Qed.

Lemma returns_seq {S E A B} (m : action S E A) (f : A → action S E B) (Q : B → Prop) :
  (∀ a, returns (f a) Q) → returns (m ≫= f) Q.
Proof. intros Hf. apply (returns_bind _ _ (λ _, True)); [done|]. intros a _. apply Hf. Qed.

Lemma returns_on_conversion `{Rng} {M N E A} (m : action (ConversionSession * World) E A) (P : A → Prop) :
  returns m P → returns (on_conversion (M:=M) (N:=N) m) P.
Proof.
  intros Hm [s sh] s' a Hrun. unfold on_conversion in Hrun.
  destruct (m (conversion s, world sh)) as [[c w] r] eqn:Hr. injection Hrun as _ ->. by eapply Hm.
Qed.

Section commit.
Context `{Segmentation} `{Hseg : !SegmentationLaws} `{IterationOrder} `{Chrono} `{Icu} `{Rng} `{Marisa}.
Context {E : Type} `{Dictionary E} {M N : Type} `{ZenzLanguageModel M} `{ZenzLanguageModel N} `{Libm}.
Context (to_uppercase to_lowercase : ustring → ustring) (displays : Displays E).
Context (config : EngineConfig) (t : Moment).

#[local] Notation tables := (engine_tables config).
#[local] Notation handle_key := (handle_key to_uppercase to_lowercase displays config t).
#[local] Notation handle_language := (handle_language to_uppercase to_lowercase displays config t).

Lemma select_returns {E'} c : returns (select_candidate_value (E:=E') tables t c) (λ v, v = text c).
Proof. unfold select_candidate_value. repeat (apply returns_seq; intros []). by apply returns_ret. Qed.

Lemma commit_returns c mode :
  returns (commit_candidate (M:=M) (N:=N) to_uppercase displays config t c mode) (λ r, Wire.commit r = text c).
Proof.
  unfold commit_candidate.
  apply (returns_bind _ _ (λ v, v = text c)); [apply returns_on_conversion, select_returns|]. intros v ->.
  repeat (apply returns_seq; intros ?). intros st st' r [= _ <-]. apply answer_commit.
Qed.

(** The key of the state machine, outside the Unicode mode *)
Lemma action_key a e s (sh : Shared M N) :
  acts a e → a ∈ [Wire.Enter; Wire.Backspace; Wire.Down; Wire.Up; Wire.Left; Wire.Right; Wire.Tab] →
  input_mode s ≠ ModeUnicode →
  handle_key e (s, sh) =
    handle_action to_uppercase to_lowercase displays config t a e (set_typo_corrections [] s, sh).
Proof.
  intros Ha Hin Hmode. assert (Hne : a ≠ Wire.Input) by (intros ->; set_solver).
  rewrite (key_other _ _ _ _ _ a) by done. rewrite decide_False by done.
  set (s0 := set_typo_corrections [] s). unfold EngineKeys.handle_language, get.
  rewrite (run_bind _ _ _ (s0, sh) s0) by done.
  assert (english_text a e s0 = None) as Hn.
  { unfold english_text. by rewrite bool_decide_eq_false_2 by (intros [? _]; done). }
  assert (number_key a e s0 = None) as Hm.
  { unfold number_key. by rewrite decide_False by (intros [? _]; done). }
  rewrite Hn, Hm. set_unfold in Hin. by destruct_or! Hin; subst a.
Qed.

(** What is marked is what is shown. *)
Lemma marked_is_preedit s :
  input_mode s = ModeComposing ∨ input_mode s = ModePreviewing ∨
    (input_mode s = ModeSelecting ∧ is_Some (selected_one s)) →
  current_marked_text s = (preedit_of s).1.
Proof.
  unfold current_marked_text, preedit_of. intros [Hm|[Hm|[Hm [c Hc]]]]; rewrite Hm; cbn; [done|by case_match|].
  by rewrite Hc.
Qed.

Lemma marked_candidate_text marked s c : marked_candidate marked s = Some c → text c = marked.
Proof.
  unfold marked_candidate. destruct (live_candidate s) as [l|]; cbn [mbind option_bind].
  - case_decide; [by intros [= <-]|]. intros Hf. apply fmap_Some in Hf as ([i [c' rest]] & Hfind & ->).
    by apply list_find_Some in Hfind as (_ & [_ ?] & _).
  - intros Hf. apply fmap_Some in Hf as ([i [c' rest]] & Hfind & ->).
    by apply list_find_Some in Hfind as (_ & [_ ?] & _).
Qed.

Context (Hok : registry_ok tables) (Hday : (memory_day t <= u16_max)%N).

(** The learning of the candidate a text stands for *)
Lemma run_learn marked s (sh : Shared M N) :
  session_inv tables (conversion s, world sh) →
  (∀ c, marked_candidate marked s = Some c → count_fits tables (composing (conversion s)) (composing_count c)) →
  ∃ s1 w', learn_current_marked_candidate config t marked (s, sh) = ((s1, with_world w' sh), Return ()) ∧
    match marked_candidate marked s with
    | Some c => learned_world t c (conversion s) (world sh) = Some w'
    | None => w' = world sh
    end.
Proof using Hok Hday Hseg.
  intros Hinv Hfits. unfold learn_current_marked_candidate, get.
  rewrite (run_bind _ _ _ (s, sh) (marked_candidate marked s)) by done.
  destruct (marked_candidate marked s) as [c|]; [|exists s, (world sh); split; [by destruct sh|done]].
  destruct (complete_fits tables Hok (composing (conversion s)) (composing_count c)) as (ct & Hct & _);
    [apply (inv_text _ _ Hinv)|by apply Hfits|].
  destruct (learned_world_ok tables t Hday c (conversion s) (world sh) Hinv) as (w' & Hw & _).
  exists (set_conversion (selected c ct (conversion s)) s), w'. split; [|done].
  unfold select_and_stage_learning. erewrite run_bind; [reflexivity|]. unfold on_conversion.
  by rewrite (select_runs tables t c (conversion s) (world sh) ct w' Hct Hw).
Qed.

#[local] Notation enter := (enter to_uppercase displays config t).

Lemma run_enter mode s (sh : Shared M N) :
  mode ≠ ModeSelecting → session_inv tables (conversion s, world sh) →
  let marked := marked_candidate (current_marked_text s) s in
  (∀ c, marked = Some c → count_fits tables (composing (conversion s)) (composing_count c)) →
  ∃ s' w' r, enter mode (s, sh) = ((s', with_world w' sh), Return r) ∧
    Wire.commit r = current_marked_text s ∧ input_mode s' = ModeNone ∧ shown_surface s' = [] ∧
    Wire.resp_reset r = true ∧
    match marked with Some c => learned_world t c (conversion s) (world sh) = Some w' | None => w' = world sh end.
Proof using Hok Hday Hseg.
  intros Hmode Hinv marked Hfits. unfold EngineKeys.enter. rewrite decide_False by done. unfold get.
  rewrite (run_bind _ _ _ (s, sh) (current_marked_text s)) by done.
  destruct (run_learn (current_marked_text s) s sh Hinv Hfits) as (s1 & w' & Hlearn & Hw).
  rewrite (run_bind _ _ _ _ _ Hlearn), run_reset_respond. eexists _, w', _.
  split; [reflexivity|]. by autorewrite with answers.
Qed.

Lemma enter_selected s (sh : Shared M N) st' r :
  enter ModeSelecting (s, sh) = (st', Return r) → ∃ c, selected_one s = Some c ∧ Wire.commit r = text c.
Proof.
  unfold EngineKeys.enter. rewrite decide_True by done. unfold select_current, select_candidate_with_remainder_mode, get.
  rewrite (run_bind _ _ _ (s, sh) (selected_candidate s)) by done.
  rewrite (run_bind _ _ _ (set_typo_corrections [] s, sh) ()) by done.
  unfold candidate_at, get. rewrite bind_Return. intros (st1 & c & Hc & Hrun).
  apply bind_Return in Hc as (st2 & shown & Hshown & Hc). injection Hshown as <- <-.
  unfold or_raise in Hc. cbn in Hc. exists c. split.
  - unfold selected_one. by destruct (display_candidates s !! selected_candidate s); [injection Hc as _ ->|].
  - by eapply commit_returns.
Qed.
End commit.

(** C8. Enter commits what was shown. While a text is composed or previewed, Enter never
    fails: it commits exactly the preedit, the learning memory has learned the candidate
    this text stands for, and nothing else of the world has changed; the session is
    left without a text. While a candidate is selected, what Enter commits is the text of
    this candidate, the part of the preedit before the remainder. Without a text Enter
    is passed on. *)
Theorem enter_commits_shown `{Segmentation} `{!SegmentationLaws} `{IterationOrder} `{Chrono} `{Icu} `{Rng}
    `{Marisa} {E} `{Dictionary E} {M N} `{ZenzLanguageModel M} `{ZenzLanguageModel N} `{Libm}
    to_uppercase to_lowercase (displays : Displays E) config (t : Moment) e s (sh : Shared M N) :
  let press := handle_key to_uppercase to_lowercase displays config t e (s, sh) in
  let marked := marked_candidate (current_marked_text s) s in
  registry_ok (engine_tables config) → (memory_day t <= u16_max)%N →
  session_inv (engine_tables config) (conversion s, world sh) → acts Wire.Enter e →
  (∀ c, marked = Some c → count_fits (engine_tables config) (composing (conversion s)) (composing_count c)) →
  match input_mode s with
  | ModeNone => ∃ s' r, press = ((s', sh), Return r) ∧ Wire.consumed r = false ∧ s' = set_typo_corrections [] s
  | ModeComposing | ModePreviewing =>
      ∃ s' w' r, press = ((s', with_world w' sh), Return r) ∧ Wire.commit r = (preedit_of s).1 ∧
        input_mode s' = ModeNone ∧ shown_surface s' = [] ∧ Wire.resp_reset r = true ∧
        match marked with
        | Some c => text c = (preedit_of s).1 ∧ learned_world t c (conversion s) (world sh) = Some w'
        | None => w' = world sh
        end
  | ModeSelecting =>
      ∀ st' r, press = (st', Return r) →
        ∃ c, selected_one s = Some c ∧ Wire.commit r = text c ∧
          (preedit_of s).1 = text c ++ selected_remainder s
  | ModeUnicode => ∃ s' r, press = ((s', sh), Return r) ∧ Wire.commit r = unicode_text (unicode_input s)
  end.
Proof.
  intros press marked Hok Hday Hinv He Hfits. subst press.
  destruct (decide (input_mode s = ModeUnicode)) as [Hu|Hu].
  { rewrite Hu, (unicode_key _ _ _ _ _ Wire.Enter) by done.
    eexists _, _. split; [exact (run_reset_respond (set_typo_corrections [] s) sh true _ true)|apply answer_commit]. }
  rewrite (action_key _ _ _ _ _ Wire.Enter) by (done || set_solver).
  set (s0 := set_typo_corrections [] s). unfold handle_action, get, has_text, ask.
  rewrite (run_bind _ _ _ (s0, sh) (input_mode s)) by done. cbv zeta.
  erewrite run_bind by reflexivity.
  assert (Hpreedit : input_mode s = ModeComposing ∨ input_mode s = ModePreviewing →
    let run := EngineKeys.enter to_uppercase displays config t (input_mode s) (s0, sh) in
    ∃ s' w' r, run = ((s', with_world w' sh), Return r) ∧ Wire.commit r = (preedit_of s).1 ∧
      input_mode s' = ModeNone ∧ shown_surface s' = [] ∧ Wire.resp_reset r = true ∧
      match marked with
      | Some c => text c = (preedit_of s).1 ∧ learned_world t c (conversion s) (world sh) = Some w'
      | None => w' = world sh
      end).
  { intros Hm. destruct (run_enter to_uppercase displays config t Hok Hday (input_mode s) s0 sh) as (s' & w' & r & Hrun & Hc & Hr);
      [by destruct Hm as [->| ->]|done|done|].
    exists s', w', r. split; [done|]. rewrite <- marked_is_preedit by tauto. split; [done|].
    destruct Hr as (? & ? & ? & Hw). split_and!; [done..|]. change (marked_candidate _ s0) with marked in Hw.
    destruct marked as [c|] eqn:Hmarked; [|done]. split; [by apply (marked_candidate_text _ s)|done]. }
  destruct (input_mode s) eqn:Hmode; try done.
  - eexists _, _. split; [reflexivity|]. split; [apply answer_consumed|done].
  - by apply Hpreedit; left.
  - by apply Hpreedit; right.
  - intros st' r Hrun. destruct (enter_selected to_uppercase displays config t s0 sh st' r Hrun) as (c & Hc & Ht).
    change (selected_one s0) with (selected_one s) in Hc.
    exists c. split_and!; [done|done|]. rewrite <- marked_is_preedit by (right; right; by rewrite Hc).
    unfold current_marked_text. rewrite Hmode. cbn. by rewrite Hc.
Qed.
