(* ===== verification/EngineInvariant.v ===== *)
(** * The engine of the daemon: what every request keeps

    The settings of a session, which no key changes, and the invariant of what it
    shows: every candidate has a remainder and an annotation, the indexes lie among
    the candidates, and a session without input has no text. A request that fails
    resets the session, which restores the invariant from any state. *)

From S2P Require Import Prelude Unicode F32 Constraint InputTable Composing Dictionary LatticeIndex Lattice Prediction TextUtil Template Action LearningRecords LearningFiles Zenz ZenzEvaluator NGram LmTypo DictionaryStore UserDictionary Foreign SessionState Session ZenzConvert Protocol EngineInput EngineState Engine EngineKeys EngineSpec EngineHandle.

(** ** Settings *)

(** What a request of a session never changes *)
Definition settings_of (s : EngineSession) :=
  (session_style s, last_request_id s, live_conversion_enabled s, request_options s,
   lm_typo_available s, learning_available s, learning_writable s).

Section frame.
Context `{Rng} {M N : Type}.
#[local] Notation state := (EngineSession * Shared M N)%type.

(** However the action ends, the settings are as they were. *)
Definition steady {E A} (m : action state E A) : Prop := ∀ st, settings_of (m st).1.1 = settings_of st.1.

Lemma steady_ret {E A} (a : A) : steady (mret a : action state E A).
Proof. done. Qed.
Lemma steady_raise {E A} (e : E) : steady (raise (A:=A) e).
Proof. done. Qed.
Lemma steady_lift {E A} (m : outcome E A) : steady (lift m).
Proof. done. Qed.
Lemma steady_expect {E A} (m : option A) : steady (E:=E) (expect m).
Proof. done. Qed.
Lemma steady_or_raise {E A} (e : E) (m : option A) : steady (or_raise e m).
Proof. by destruct m. Qed.
Lemma steady_get {E A} (f : EngineSession → A) : steady (E:=E) (get f).
Proof. done. Qed.
Lemma steady_ask {E A} (f : ConversionSession → A) : steady (E:=E) (ask f).
Proof. done. Qed.
Lemma steady_put {E} (f : EngineSession → EngineSession) :
  (∀ s, settings_of (f s) = settings_of s) → steady (E:=E) (put f).
Proof. intros Hf st. apply Hf. Qed.
Lemma steady_bind {E A B} (m : action state E A) (f : A → action state E B) :
  steady m → (∀ a, steady (f a)) → steady (m ≫= f).
Proof.
  intros Hm Hf st. specialize (Hm st). unfold mbind, action_bind. destruct (m st) as [st' [a|e|]]; [|done..].
  by rewrite Hf.
Qed.
Lemma steady_on_conversion {E A} (m : action (ConversionSession * World) E A) : steady (on_conversion m).
Proof. intros [s sh]. cbn. by destruct (m _) as [[c w] r]. Qed.
Lemma steady_with_model {E A}
    (m : action (((ConversionSession * World) * (ZenzEvaluator * M)) * ZenzConversionCache) E A) :
  steady (with_model m).
Proof.
  intros [s sh]. unfold with_model. destruct (zenz_model sh); [|done].
  by destruct (m _) as [[[[c w] [e model]] cache] r].
Qed.
Lemma steady_with_ngram {E A} (m : action N E A) : steady (with_ngram m).
Proof. intros [s sh]. unfold with_ngram. destruct (lm_typo_ngram sh); [|done]. by destruct (m _). Qed.
Lemma steady_attempt {E E' A} (m : action state E A) : steady m → steady (E:=E') (attempt m).
Proof. intros Hm st. specialize (Hm st). unfold attempt. by destruct (m st) as [st' [a|e|]]. Qed.
Lemma steady_on_copy {E A} (m : action state E A) : steady (on_copy m).
Proof. intros [s sh]. cbn. by destruct (m _) as [[s' sh'] r]. Qed.
End frame.

#[export] Hint Resolve steady_ret steady_raise steady_lift steady_expect steady_or_raise steady_get steady_ask
  steady_on_conversion steady_with_model steady_with_ngram steady_on_copy : steady.

Ltac steady_step :=
  match goal with
  | |- steady (_ ≫= _) => apply steady_bind; [|intros ?]
  | |- steady (put _) => apply steady_put; intros ?; repeat case_match; reflexivity
  | |- steady (attempt _) => apply steady_attempt
  | |- steady (if ?b then _ else _) => destruct b
  | |- steady (match ?x with _ => _ end) => destruct x
  | |- steady (let '_ := ?x in _) => destruct x
  | |- steady _ => solve [eauto with steady]
  end.
Ltac steadily := cbv zeta; repeat steady_step.

Section steady.
Context `{Segmentation} `{IterationOrder} `{Chrono} `{Icu} `{Rng} `{Marisa} {E : Type} `{Dictionary E}.
Context {M N : Type} `{ZenzLanguageModel M} `{ZenzLanguageModel N} `{Libm}.
Context (to_uppercase to_lowercase : ustring → ustring) (displays : Displays E).
Context (config : EngineConfig) (t : Moment).

#[local] Notation engine A := (action (EngineSession * Shared M N) Failure A).

Lemma steady_remainders cs : steady (remainders config cs : engine _).
Proof. unfold remainders. steadily. Qed.
#[local] Hint Resolve steady_remainders : steady.

Lemma steady_show r evaluated : steady (show_result config r evaluated : engine _).
Proof. unfold show_result. steadily. Qed.
#[local] Hint Resolve steady_show : steady.

Lemma steady_generate rich left_context :
  steady (generate to_uppercase displays config t rich left_context : engine _).
Proof. unfold generate, generate_with_model. steadily. Qed.
#[local] Hint Resolve steady_generate : steady.

Lemma steady_request rich left_context :
  steady (request_candidates_with_context to_uppercase displays config t rich left_context : engine _).
Proof. unfold request_candidates_with_context, request_candidates_for_active_target. steadily. Qed.
#[local] Hint Resolve steady_request : steady.
#[local] Hint Unfold request_candidates request_rich_candidates : steady.

Lemma steady_reset : steady (reset : engine _).
Proof. unfold reset. steadily. Qed.
#[local] Hint Resolve steady_reset : steady.

Lemma steady_typo ct : steady (request_typo_corrections to_lowercase config ct : engine _).
Proof. unfold request_typo_corrections. steadily. Qed.
#[local] Hint Resolve steady_typo : steady.

Lemma steady_correction previous :
  steady (update_backspace_correction to_uppercase to_lowercase displays config t previous : engine _).
Proof. unfold update_backspace_correction, converted_reading. steadily. Qed.
#[local] Hint Resolve steady_correction : steady.

Lemma steady_respond consumed commit cleared : steady (respond consumed commit cleared : engine _).
Proof. unfold respond. steadily. Qed.
Lemma steady_cleared consumed commit cleared : steady (respond_cleared consumed commit cleared : engine _).
Proof. unfold respond_cleared. steadily. Qed.
#[local] Hint Resolve steady_respond steady_cleared : steady.
#[local] Hint Unfold handled ignored conversion_of move_to insert_direct surface_length has_text
  select_and_stage_learning candidate_at : steady.

Lemma steady_insert_event event : steady (insert_event config event : engine _).
Proof. unfold insert_event, insert_direct. steadily. Qed.
Lemma steady_separator : steady (insert_separator config : engine _).
Proof. unfold insert_separator. steadily. Qed.
Lemma steady_learn marked : steady (learn_current_marked_candidate config t marked : engine _).
Proof. unfold learn_current_marked_candidate, select_and_stage_learning. steadily. Qed.
Lemma steady_commit c mode : steady (commit_candidate to_uppercase displays config t c mode : engine _).
Proof. unfold commit_candidate, select_and_stage_learning, has_text. steadily. Qed.
#[local] Hint Resolve steady_insert_event steady_separator steady_learn steady_commit : steady.

Lemma steady_select index mode :
  steady (select_candidate_with_remainder_mode to_uppercase displays config t index mode : engine _).
Proof. unfold select_candidate_with_remainder_mode, candidate_at. steadily. Qed.
#[local] Hint Resolve steady_select : steady.
#[local] Hint Unfold select_candidate : steady.

Lemma steady_forget index : steady (forget_candidate to_uppercase displays config t index : engine _).
Proof. unfold forget_candidate, candidate_at, Engine.request_candidates, handled. steadily. Qed.
Lemma steady_reset_learning : steady (EngineKeys.reset_learning to_uppercase displays config t : engine _).
Proof. unfold EngineKeys.reset_learning, has_text, Engine.request_candidates, handled. steadily. Qed.
Lemma steady_typo_correction index : steady (select_typo_correction index : engine _).
Proof. unfold select_typo_correction. steadily. Qed.
#[local] Hint Resolve steady_forget steady_reset_learning steady_typo_correction : steady.

Lemma steady_unicode action event : steady (handle_unicode_input action event : engine _).
Proof. unfold handle_unicode_input, handled. steadily. Qed.
Lemma steady_enter_unicode : steady (enter_unicode_input config t : engine _).
Proof. unfold enter_unicode_input, candidate_at, select_and_stage_learning. steadily. Qed.
#[local] Hint Resolve steady_unicode steady_enter_unicode : steady.

Lemma steady_backspace : steady (backspace to_uppercase to_lowercase displays config t : engine _).
Proof. unfold backspace, conversion_of, has_text, show_correction, handled, Engine.request_candidates. steadily. Qed.
Lemma steady_space mode shift : steady (space to_uppercase displays config t mode shift : engine _).
Proof.
  unfold space, handled, select_next, select_previous, Engine.request_candidates, Engine.request_rich_candidates.
  steadily.
Qed.
Lemma steady_down mode : steady (down to_uppercase displays config t mode : engine _).
Proof. unfold down, handled, ignored, select_next, Engine.request_rich_candidates. steadily. Qed.
Lemma steady_up mode : steady (up config mode : engine _).
Proof. unfold up, reveal_additional_candidate, conversion_of, select_previous. steadily. Qed.
Lemma steady_resize right_arrow : steady (resize_segment to_uppercase displays config t right_arrow : engine _).
Proof.
  unfold resize_segment, to_selected, conversion_of, surface_length, move_to, handled, Engine.request_candidates.
  steadily.
Qed.
Lemma steady_tab : steady (tab to_uppercase displays config t : engine _).
Proof. unfold tab, apply_edit, insert_direct, handled, Engine.request_candidates. steadily. Qed.
#[local] Hint Resolve steady_backspace steady_space steady_down steady_up steady_resize steady_tab : steady.

Lemma steady_action action event :
  steady (handle_action to_uppercase to_lowercase displays config t action event : engine _).
Proof.
  unfold handle_action, escape, EngineKeys.enter, select_current, commit_representation, conversion_of, type_key,
    has_text, handled, ignored, Engine.request_candidates. steadily.
Qed.
#[local] Hint Resolve steady_action : steady.

Lemma steady_key event : steady (handle_key to_uppercase to_lowercase displays config t event : engine _).
Proof.
  unfold handle_key, option_direct, handle_language, eisu, english_space, insert_direct, select_number,
    select_current, select_candidate, handled, Engine.request_candidates. steadily.
Qed.
#[local] Hint Resolve steady_key : steady.

(** No request of a session changes its settings. *)
Lemma steady_response request :
  steady (session_response to_uppercase to_lowercase displays config t request : engine _).
Proof.
  unfold session_response, handle_event, commit_composition, select_candidate. steadily.
Qed.
End steady.

(** ** What is shown *)

(** A mode in which no text is composed *)
Definition textless (mode : InputMode) : Prop := mode = ModeNone ∨ mode = ModeUnicode.

(** Every candidate shown has a remainder and an annotation; the counts and places lie
    among the candidates. *)
Record lists_ok (s : EngineSession) : Prop := {
  ok_remainders : length (candidate_remainders s) = length (display_candidates s);
  ok_annotations : length (candidate_annotations s) = length (display_candidates s);
  ok_additional : additional_candidate_count s ≤ length (display_candidates s);
  ok_preview : ∀ i, preview_candidate_index s = Some i → i < length (display_candidates s);
}.

Definition selected_ok (s : EngineSession) : Prop :=
  selected_candidate s = 0 ∨ selected_candidate s < length (display_candidates s).

Record shown_ok (s : EngineSession) : Prop := {
  shown_lists : lists_ok s;
  shown_selected : input_mode s = ModeSelecting → selected_ok s;
  shown_textless : textless (input_mode s) → surface (composing (conversion s)) = [] ∧ display_candidates s = [];
}.

(** What an action returns from where; errors and panics are another matter. *)
Definition post {S E A} (P : S → Prop) (m : action S E A) (Q : A → S → Prop) : Prop :=
  ∀ s s' a, P s → m s = (s', Return a) → Q a s'.

Section post.
Context {S E : Type}.

Lemma post_ret {A} (P : S → Prop) (a : A) (Q : A → S → Prop) :
  (∀ s, P s → Q a s) → post P (mret a : action S E A) Q.
Proof. intros HQ s s' b HP [= <- <-]. by apply HQ. Qed.
Lemma post_raise {A} P (e : E) (Q : A → S → Prop) : post P (raise e) Q.
Proof. by intros s s' a _ [=]. Qed.
Lemma post_gets {A} (P : S → Prop) (f : S → A) (Q : A → S → Prop) :
  (∀ s, P s → Q (f s) s) → post P (gets f : action S E A) Q.
Proof. intros HQ s s' b HP [= <- <-]. by apply HQ. Qed.
Lemma post_modify (P : S → Prop) (f : S → S) (Q : () → S → Prop) :
  (∀ s, P s → Q () (f s)) → post P (modify f : action S E ()) Q.
Proof. intros HQ s s' b HP [= <- <-]. by apply HQ. Qed.
Lemma post_expect {A} (P : S → Prop) (m : option A) (Q : A → S → Prop) :
  (∀ a s, m = Some a → P s → Q a s) → post P (expect (E:=E) m) Q.
Proof. intros HQ s s' b HP. destruct m as [a|]; [|done]. intros [= <- <-]. by apply HQ. Qed.
Lemma post_lift {A} (P : S → Prop) (m : outcome E A) (Q : A → S → Prop) :
  (∀ a s, P s → Q a s) → post P (lift m) Q.
Proof. intros HQ s s' b HP [= <- _]. by apply HQ. Qed.
Lemma post_or_raise {A} (P : S → Prop) (e : E) (m : option A) (Q : A → S → Prop) :
  (∀ a s, m = Some a → P s → Q a s) → post P (or_raise e m) Q.
Proof. intros HQ s s' b HP. destruct m as [a|]; [|done]. intros [= <- <-]. by apply HQ. Qed.
Lemma post_bind {A B} (P : S → Prop) (m : action S E A) (f : A → action S E B) R Q :
  post P m R → (∀ a, post (R a) (f a) Q) → post P (m ≫= f) Q.
Proof. intros Hm Hf s s' b HP (s1 & a & Ha & Hb)%bind_Return. eapply Hf; [by eapply Hm|done]. Qed.
Lemma post_weaken {A} (P P' : S → Prop) (m : action S E A) (Q Q' : A → S → Prop) :
  post P' m Q' → (∀ s, P s → P' s) → (∀ a s, Q' a s → Q a s) → post P m Q.
Proof. intros Hm HP HQ s s' a Hs Hrun. eapply HQ, Hm; [by apply HP|done]. Qed.
Lemma post_pure {A} (φ : Prop) (P : S → Prop) (m : action S E A) Q :
  (φ → post P m Q) → post (λ s, φ ∧ P s) m Q.
Proof. intros Hm s s' a [Hφ HP]. by apply Hm. Qed.
End post.

Section shown.
Context `{Rng} {M N : Type}.
#[local] Notation state := (EngineSession * Shared M N)%type.

(** Of the session, whatever is shared *)
Definition spost {E A} (P : EngineSession → Prop) (m : action state E A) (Q : A → EngineSession → Prop) : Prop :=
  post (λ st, P st.1) m (λ a st, Q a st.1).

Lemma spost_bind {E A B} P (m : action state E A) (f : A → action state E B) R Q :
  spost P m R → (∀ a, spost (R a) (f a) Q) → spost P (m ≫= f) Q.
Proof. intros Hm Hf. eapply post_bind; [exact Hm|]. intros a. apply Hf. Qed.
Lemma spost_get {E A} (P : EngineSession → Prop) (f : EngineSession → A) :
  spost (E:=E) P (get f) (λ a s, a = f s ∧ P s).
Proof. apply post_gets. naive_solver. Qed.
Lemma spost_put {E} (P : EngineSession → Prop) (f : EngineSession → EngineSession) (Q : EngineSession → Prop) :
  (∀ s, P s → Q (f s)) → spost (E:=E) P (put f) (λ _, Q).
Proof. intros HQ. apply post_modify. intros st. apply HQ. Qed.
Lemma spost_ask {E A} (P : EngineSession → Prop) (f : ConversionSession → A) :
  spost (E:=E) P (ask f) (λ a s, a = f (conversion s) ∧ P s).
Proof. apply post_gets. naive_solver. Qed.
Lemma spost_ret {E A} (P : EngineSession → Prop) (a : A) : spost (E:=E) P (mret a) (λ b s, b = a ∧ P s).
Proof. apply post_ret. naive_solver. Qed.
Lemma spost_raise {E A} P (e : E) (Q : A → EngineSession → Prop) : spost P (raise e) Q.
Proof. apply post_raise. Qed.
Lemma spost_panic {E A} P (Q : A → EngineSession → Prop) : spost (E:=E) P (lift Panic) Q.
Proof. by intros st st' a _ [=]. Qed.
Lemma spost_expect {E A} (P : EngineSession → Prop) (m : option A) :
  spost (E:=E) P (expect m) (λ a s, m = Some a ∧ P s).
Proof. apply post_expect. naive_solver. Qed.
Lemma spost_or_raise {E A} (P : EngineSession → Prop) (e : E) (m : option A) :
  spost P (or_raise e m) (λ a s, m = Some a ∧ P s).
Proof. apply post_or_raise. naive_solver. Qed.
Lemma spost_weaken {E A} P P' (m : action state E A) Q Q' :
  spost P' m Q' → (∀ s, P s → P' s) → (∀ a s, Q' a s → Q a s) → spost P m Q.
Proof. intros Hm HP HQ. eapply post_weaken; [exact Hm|by intros st; apply HP|by intros a st; apply HQ]. Qed.

(** An operation of the conversion session changes the session there only. *)
Lemma spost_conversion {E A} (P : EngineSession → Prop) (m : action (ConversionSession * World) E A)
    (Q : A → EngineSession → Prop) :
  (∀ s c a, P s → Q a (set_conversion c s)) → spost P (on_conversion m) Q.
Proof.
  intros HQ [s sh] st' a HP Hrun. unfold on_conversion in Hrun.
  destruct (m _) as [[c w] r]. injection Hrun as <- ->. by apply HQ.
Qed.

(** The same rules forward: the strongest statements after each step. *)
Lemma after_put {E} (P : EngineSession → Prop) (f : EngineSession → EngineSession) :
  spost (E:=E) P (put f) (λ _ s', ∃ s, P s ∧ s' = f s).
Proof. apply spost_put. eauto. Qed.
Lemma after_conversion {E A} (P : EngineSession → Prop) (m : action (ConversionSession * World) E A) :
  spost P (on_conversion m) (λ _ s', ∃ s c, P s ∧ s' = set_conversion c s).
Proof. apply spost_conversion. eauto. Qed.
Lemma after_reset (P : EngineSession → Prop) :
  spost (E:=Failure) P (reset : action state Failure ()) (λ _ s', ∃ s, P s ∧ s' = reset_to s).
Proof. intros [s sh] st' a HP Hrun. rewrite run_reset in Hrun. injection Hrun as <- _. by exists s. Qed.

(** A condition the conversion session and the cache of the model have no part in *)
Definition untouched (P : EngineSession → Prop) : Prop :=
  (∀ s c, P s → P (set_conversion c s)) ∧ (∀ s x, P s → P (set_zenz_cache x s)).

Lemma kept_conversion {E A} P (m : action (ConversionSession * World) E A) :
  untouched P → spost P (on_conversion m) (λ _, P).
Proof. intros [HP _]. apply spost_conversion. intros s c _. apply HP. Qed.
Lemma kept_ask {E A} P (f : ConversionSession → A) : spost (E:=E) P (ask f) (λ _, P).
Proof. eapply spost_weaken; [apply spost_ask|done|by intros a s [_ ?]]. Qed.
Lemma kept_get {E A} P (f : EngineSession → A) : spost (E:=E) P (get f) (λ _, P).
Proof. eapply spost_weaken; [apply spost_get|done|by intros a s [_ ?]]. Qed.
Lemma kept_expect {E A} P (m : option A) : spost (E:=E) P (expect m) (λ _, P).
Proof. eapply spost_weaken; [apply spost_expect|done|by intros a s [_ ?]]. Qed.
Lemma kept_ret {E A} P (a : A) : spost (E:=E) P (mret a) (λ _, P).
Proof. eapply spost_weaken; [apply spost_ret|done|by intros b s [_ ?]]. Qed.
Lemma kept_put {E} P (f : EngineSession → EngineSession) : (∀ s, P s → P (f s)) → spost (E:=E) P (put f) (λ _, P).
Proof. apply spost_put. Qed.
Lemma kept_bind {E A B} P (m : action state E A) (f : A → action state E B) Q :
  spost P m (λ _, P) → (∀ a, spost P (f a) Q) → spost P (m ≫= f) Q.
Proof. apply spost_bind. Qed.

(** A use of the model, and the result of an action as a value, keep what they keep
    when they end in an error too. *)
Definition kept {E A} (P : EngineSession → Prop) (m : action state E A) : Prop := ∀ st, P st.1 → P (m st).1.1.
Lemma kept_attempt {E E' A} P (m : action state E A) : kept P m → spost (E:=E') P (attempt m) (λ _, P).
Proof.
  intros Hm st st' a HP Hrun. specialize (Hm st HP). unfold attempt in Hrun.
  destruct (m st) as [st1 [b|e|]]; by injection Hrun as <- _.
Qed.
Lemma kept_model {E A} P (m : action (((ConversionSession * World) * (ZenzEvaluator * M)) * ZenzConversionCache) E A) :
  untouched P → kept P (with_model m).
Proof.
  intros [Hc Hx] [s sh] HP. unfold with_model. destruct (zenz_model sh); [|done].
  destruct (m _) as [[[[c w] [e model]] cache] r]. cbn. by apply Hx, Hc.
Qed.

(** An action whose result, or error, is looked at afterwards *)
Lemma attempt_post {E E' A} P (m : action state E A) Q :
  spost P m Q → spost (E:=E') P (attempt m) (λ r s, match r with Ok a => Q a s | Err _ => True end).
Proof.
  intros Hm st st' r HP Hrun. unfold attempt in Hrun. destruct (m st) as [st1 [b|e|]] eqn:Hb;
    [|by injection Hrun as _ <-|done]. injection Hrun as <- <-. by eapply Hm.
Qed.
End shown.

(** Steps of actions that keep a condition *)
Ltac keep_step :=
  match goal with
  | |- spost _ (_ ≫= _) _ => apply kept_bind; [|intros ?]
  | |- spost _ (on_conversion _) _ => apply kept_conversion
  | |- spost _ (ask _) _ => apply kept_ask
  | |- spost _ (get _) _ => apply kept_get
  | |- spost _ (expect _) _ => apply kept_expect
  | |- spost _ (mret _) _ => apply kept_ret
  | |- spost _ (raise _) _ => apply spost_raise
  | |- spost _ (attempt _) _ => apply kept_attempt
  | |- spost _ (if ?b then _ else _) _ => destruct b
  | |- spost _ (match ?x with _ => _ end) _ => destruct x
  | |- kept _ (with_model _) => apply kept_model
  end.
Ltac keeping := cbv zeta; repeat keep_step.

(** One step forward *)
Ltac forward :=
  eapply spost_bind;
  [first [apply spost_get|apply after_put|apply spost_ask|apply spost_expect|apply after_conversion
         |apply after_reset|apply spost_or_raise|apply spost_ret|solve [eauto with spost]]
  |intros ?; cbv beta].

Section lists.
Context `{Segmentation} `{IterationOrder} `{Chrono} `{Icu} `{Rng} `{Marisa} {E : Type} `{Dictionary E}.
Context {M N : Type} `{ZenzLanguageModel M} `{ZenzLanguageModel N} `{Libm}.
Context (to_uppercase to_lowercase : ustring → ustring) (displays : Displays E).
Context (config : EngineConfig) (t : Moment).

#[local] Notation engine A := (action (EngineSession * Shared M N) Failure A).

Lemma generate_keeps P rich left_context :
  untouched P → spost P (generate to_uppercase displays config t rich left_context : engine _) (λ _, P).
Proof.
  intros HP. pose proof HP as [_ Hx]. unfold generate, generate_with_model. keeping; try done.
  apply kept_put. intros s. apply Hx.
Qed.

Lemma remainders_length P cs :
  spost P (remainders config cs : engine _) (λ rest s, length rest = length cs ∧ P s).
Proof.
  unfold remainders. eapply spost_bind; [apply spost_ask|]. intros rest.
  eapply spost_weaken; [apply spost_expect|by intros s Hs; exact Hs|].
  intros rest' s (-> & Hrest & HP). split; [|done].
  symmetry. eapply length_mapM, eq_sym, Hrest.
Qed.

#[local] Hint Resolve remainders_length : spost.

Lemma position_lt c cs i : position_of c cs = Some i → i < length cs.
Proof.
  unfold position_of. intros Hi. apply fmap_Some in Hi as ([j x] & Hfind & ->).
  apply list_find_Some in Hfind as (Hi & _). by eapply lookup_lt_Some.
Qed.

Lemma preview_lt r shown c i : preview_index config r shown c = Some (Some i) → i < length shown.
Proof.
  unfold preview_index. destruct (main_results r) as [|p ps]; [done|].
  destruct (remaining_after_candidate _ p c) as [rest|]; [|done]. cbn. case_decide; [|done].
  intros [= Hi]. by eapply position_lt.
Qed.

(** A request is made in a mode, perhaps with nothing selected; after it the lists are
    in order and what is selected is among the candidates. *)
Definition showing (mode : InputMode) (z : Prop) (s : EngineSession) : Prop :=
  input_mode s = mode ∧ (z → selected_candidate s = 0).
Definition shows (mode : InputMode) (z : Prop) (s : EngineSession) : Prop :=
  input_mode s = mode ∧ lists_ok s ∧ (z → selected_ok s).

Lemma showing_untouched mode z : untouched (showing mode z).
Proof. by split. Qed.
Lemma shows_untouched mode z : untouched (shows mode z).
Proof. split; intros s x (Hm & [] & Hz); by split_and!. Qed.

Lemma show_result_shows mode z r evaluated :
  spost (showing mode z) (show_result config r evaluated : engine _) (λ _, shows mode z).
Proof.
  unfold show_result. apply kept_bind; [apply kept_get|]. intros live.
  apply kept_bind; [apply kept_get|]. intros segment.
  apply kept_bind; [keeping|]. intros shown.
  do 7 forward.
  eapply (spost_bind _ _ _ (λ _, shows mode z));
    [|intros []; apply kept_put; intros s (Hm & [] & Hz); by split_and!].
  apply (spost_weaken _ (λ s, showing mode z s ∧ lists_ok s ∧ display_candidates s = shown)
    _ _ (λ _, shows mode z)); [| |done].
  - destruct (live ≫= _) as [index|] eqn:Hlive.
    + apply spost_put. intros s ([Hm _] & [] & Hd). destruct live as [c|]; [|done]. apply position_lt in Hlive.
      split_and!; [done|by split|]. intros _. right. cbn. by rewrite Hd.
    + intros [s sh] st' a' ([Hm Hz] & Hl & Hd) [= <- _]. split_and!; [done|done|]. intros Hz'. left. by apply Hz.
  - intros s HP. destruct HP as (s1 & HP & ->). destruct HP as (s2 & HP & ->). destruct HP as (-> & Hp & s3 & HP & ->).
    destruct HP as (Hlen & s4 & [Hm Hz] & ->). split_and!; [by split| |done]. split; cbn.
    + done.
    + by rewrite length_fmap.
    + lia.
    + intros i ->. symmetry in Hp. by eapply preview_lt.
Qed.

Lemma target_shows mode z rich left_context :
  spost (showing mode z)
    (request_candidates_for_active_target to_uppercase displays config t rich left_context : engine _)
    (λ _, shows mode z).
Proof.
  unfold request_candidates_for_active_target.
  apply kept_bind; [apply kept_conversion, showing_untouched|]. intros _.
  apply kept_bind; [apply generate_keeps, showing_untouched|]. intros [r evaluated]. apply show_result_shows.
Qed.

Lemma request_shows mode z rich left_context :
  spost (showing mode z)
    (request_candidates_with_context to_uppercase displays config t rich left_context : engine _)
    (λ _, shows mode z).
Proof.
  unfold request_candidates_with_context.
  apply kept_bind; [apply kept_put; intros s; by case_match|]. intros _.
  apply kept_bind; [apply kept_get|]. intros [n|]; [|apply target_shows].
  apply kept_bind; [apply kept_conversion, showing_untouched|]. intros _.
  eapply spost_bind; [apply attempt_post, target_shows|]. intros r. cbv beta.
  destruct r as [[]|e].
  - apply kept_bind; [apply kept_conversion, shows_untouched|]. intros _.
    eapply spost_bind; [apply spost_get|]. intros shown. cbv beta.
    eapply spost_bind; [apply remainders_length|]. intros rest. cbv beta. apply spost_put.
    intros s (Hlen & -> & Hm & [] & Hz). split_and!; [done|by split|done].
  - eapply spost_bind; [apply after_conversion|]. intros ?. apply spost_raise.
Qed.
End lists.

(** ** Answers *)

(** An answer a client can show: at most one candidate is selected and it is one of those
    sent; the candidates carry each index once; the cursor is at the end of the preedit,
    and the highlighted part is a part of it; without input nothing is shown. *)
Record answer_ok (r : Wire.StateResponse) : Prop := {
  answer_selected :
    (Z.of_nat (length (Wire.resp_candidates r)) < 2 ^ 31)%Z →
    (Wire.selected_candidate r = -1 ∨
     0 ≤ Wire.selected_candidate r < Z.of_nat (length (Wire.resp_candidates r) `max` 1))%Z;
  answer_indices :
    Wire.cand_index <$> Wire.resp_candidates r ≡ₚ saturated_u32 <$> seq 0 (length (Wire.resp_candidates r));
  answer_cursor : Wire.preedit_cursor r = saturated_u32 (length (Wire.preedit r));
  answer_highlighted : (Wire.highlighted_preedit_length r <= Wire.preedit_cursor r)%N;
  answer_none : Wire.input_state r = Wire.StateNone → Wire.preedit r = [] ∧ Wire.resp_candidates r = [];
}.

Lemma cleared_ok s consumed commit cleared : answer_ok (cleared_state s consumed commit cleared).
Proof. split; cbn; [lia|done..]. Qed.

Lemma english_ok r : answer_ok r → answer_ok (in_english r).
Proof. by intros []. Qed.

Lemma indices_permutation s : lists_ok s → candidate_indices s ≡ₚ seq 0 (length (display_candidates s)).
Proof.
  intros Hs. unfold candidate_indices. cbv zeta. destruct (candidate_window_of s); try done.
  destruct (preview_candidate_index s) as [i|] eqn:Hi; [|done]. apply (ok_preview _ Hs) in Hi.
  apply NoDup_Permutation.
  - apply NoDup_cons. split; [rewrite list_elem_of_filter; tauto|apply NoDup_filter, NoDup_seq].
  - apply NoDup_seq.
  - intros j. rewrite elem_of_cons, list_elem_of_filter, elem_of_seq.
    destruct (decide (j = i)); naive_solver lia.
Qed.

(** Every index shows its candidate. *)
Lemma shown_indices s (js : list nat) :
  (∀ i, i ∈ js → i < length (display_candidates s)) →
  Wire.cand_index <$> omap (λ index, c ← display_candidates s !! index;
     Some (candidate_to_protocol index c (default [] (candidate_annotations s !! index)))) js
  = saturated_u32 <$> js.
Proof.
  induction js as [|i js IH]; intros Hjs; [done|]. cbn.
  destruct (lookup_lt_is_Some_2 (display_candidates s) i) as [c ->]; [apply Hjs; by left|]. cbn.
  f_equal. apply IH. intros j Hj. apply Hjs. by right.
Qed.

Lemma shown_candidates_indices s :
  lists_ok s →
  Wire.cand_index <$> shown_candidates s ≡ₚ saturated_u32 <$> seq 0 (length (display_candidates s)) ∧
  length (shown_candidates s) = length (display_candidates s).
Proof.
  intros Hs. pose proof (indices_permutation s Hs) as Hp. unfold shown_candidates.
  assert (His : ∀ i, i ∈ candidate_indices s → i < length (display_candidates s)).
  { intros i. rewrite Hp, elem_of_seq. lia. }
  pose proof (shown_indices s _ His) as Hshown. split; [by rewrite Hshown, Hp|].
  erewrite <- length_fmap, Hshown, length_fmap, Hp. apply length_seq.
Qed.

Lemma state_ok s consumed commit cleared : shown_ok s → answer_ok (make_state s consumed commit cleared).
Proof.
  intros Hs. destruct (shown_candidates_indices s (shown_lists _ Hs)) as [Hp Hlen].
  unfold make_state. destruct (preedit_of s) as [preedit highlighted] eqn:Hpreedit. split; cbn.
  - rewrite Hlen. intros Hbound. case_decide as Hm; [right|by left].
    assert (selected_candidate s < length (display_candidates s) `max` 1) as Hsel.
    { destruct (shown_selected _ Hs Hm); lia. }
    unfold as_i32. rewrite Z.mod_small by lia. lia.
  - by rewrite Hlen.
  - done.
  - unfold preedit_of in Hpreedit. destruct (input_mode s); try (injection Hpreedit as <- <-; lia).
    destruct (selected_one s); injection Hpreedit as <- <-; [|lia]. unfold saturated_u32. rewrite length_app. lia.
  - intros Hnone. assert (input_mode s = ModeNone) as Hm by (by destruct (input_mode s)).
    destruct (shown_textless _ Hs) as [_ Hd]; [by left|]. unfold preedit_of in Hpreedit. rewrite Hm in Hpreedit.
    injection Hpreedit as <- _. split; [done|]. apply nil_length_inv. by rewrite Hlen, Hd.
Qed.
