(* ===== verification/EngineAnswers.v ===== *)
(** * The engine of the daemon: the answer to every key

    Every arm of the state machine of the keys keeps the invariant of what a session
    shows, and answers with what a client can show. *)

From S2P Require Import Prelude Unicode F32 Constraint InputTable Composing Dictionary LatticeIndex Lattice Prediction TextUtil Template Action LearningRecords LearningFiles Zenz ZenzEvaluator NGram LmTypo DictionaryStore UserDictionary Foreign SessionState Session ZenzConvert Protocol EngineInput EngineState Engine EngineKeys EngineSpec EngineHandle EngineInvariant.

(** ** What a session shows *)

(** ** Presentations *)

(** Nothing is shown. *)
Definition blank (s : EngineSession) : Prop :=
  selected_candidate s = 0 ∧ display_candidates s = [] ∧ candidate_remainders s = [] ∧
  candidate_annotations s = [] ∧ preview_candidate_index s = None ∧ additional_candidate_count s = 0.

Lemma clear_blank s : blank (clear_presentation s).
Proof. done. Qed.
Lemma blank_lists s : blank s → lists_ok s.
Proof.
  intros (_ & Hd & Hr & Ha & Hp & Hn).
  split; [by rewrite Hd, Hr|by rewrite Hd, Ha|rewrite Hn; lia|by rewrite Hp].
Qed.

Lemma reset_shown s : shown_ok (reset_to s).
Proof. split; [by apply blank_lists|done|done]. Qed.

Lemma shows_shown mode z s : shows mode z s → ¬ textless mode → (mode = ModeSelecting → z) → shown_ok s.
Proof.
  intros (Hm & Hl & Hz) Ht Hsel. split; [done|rewrite Hm; auto|by rewrite Hm].
Qed.

(** A session without text, showing nothing, whatever its mode *)
Lemma blank_shown s : blank s → surface (composing (conversion s)) = [] → shown_ok s.
Proof.
  intros Hb Hs. split; [by apply blank_lists|intros _; left; apply Hb|intros _; split; [done|apply Hb]].
Qed.

(** The parts of a session the invariant reads *)
Definition same_shown (s s' : EngineSession) : Prop :=
  input_mode s' = input_mode s ∧ display_candidates s' = display_candidates s ∧
  candidate_remainders s' = candidate_remainders s ∧ candidate_annotations s' = candidate_annotations s ∧
  additional_candidate_count s' = additional_candidate_count s ∧
  preview_candidate_index s' = preview_candidate_index s ∧
  surface (composing (conversion s')) = surface (composing (conversion s)) ∧
  (selected_candidate s' = selected_candidate s ∨ selected_candidate s' = 0).

Lemma same_shown_ok s s' : same_shown s s' → shown_ok s → shown_ok s'.
Proof.
  intros (Hm & Hd & Hr & Ha & Hn & Hp & Hs & Hsel) [[H1 H2 H3 H4] H5 H6]. unfold selected_ok in *.
  split; [split|..]; unfold selected_ok; rewrite ?Hm, ?Hd, ?Hr, ?Ha, ?Hn, ?Hp, ?Hs; try done.
  intros Hmode. destruct Hsel as [-> | ->]; [by apply H5|by left].
Qed.

Ltac same := unfold same_shown; split_and!; first [done|by left|by right].

Lemma post_seq {S E A B} (P : S → Prop) (m : action S E A) (f : A → action S E B) :
  post P m (λ _, P) → (∀ a, post P (f a) (λ _, P)) → post P (m ≫= f) (λ _, P).
Proof. apply post_bind. Qed.

Lemma post_map_error {S E1 E2 A} (f : E1 → E2) P (m : action S E1 A) Q : post P m Q → post P (map_error f m) Q.
Proof.
  intros Hm s s' a HP Hrun. unfold map_error in Hrun. destruct (m s) as [s1 [b|e|]] eqn:Hb; [|done..].
  injection Hrun as <- <-. by eapply Hm.
Qed.

(** Steps that keep a condition of any state *)
Ltac staying :=
  repeat match goal with
  | |- post _ (_ ≫= _) _ => apply post_seq; [|intros ?]
  | |- post _ (gets _) _ => apply post_gets
  | |- post _ (modify _) _ => apply post_modify
  | |- post _ (expect _) _ => apply post_expect
  | |- post _ (mret _) _ => apply post_ret
  | |- post _ (lift _) _ => apply post_lift
  | |- post _ (raise _) _ => apply post_raise
  | |- post _ (map_error _ _) _ => apply post_map_error
  | |- post _ (match ?x with _ => _ end) _ => destruct x
  end; try done.

Section serves.
Context `{Segmentation} `{IterationOrder} `{Chrono} `{Icu} `{Rng} `{Marisa} {E : Type} `{Dictionary E}.
Context {M N : Type} `{ZenzLanguageModel M} `{ZenzLanguageModel N} `{Libm}.
Context (to_uppercase to_lowercase : ustring → ustring) (displays : Displays E).
Context (config : EngineConfig) (t : Moment).

#[local] Notation engine A := (action (EngineSession * Shared M N) Failure A).
#[local] Notation response := (engine Wire.StateResponse).
#[local] Notation request_candidates := (request_candidates to_uppercase displays config t).
#[local] Notation request_rich_candidates := (request_rich_candidates to_uppercase displays config t).

(** What a request returns keeps the invariant, and its answer can be shown. *)
Definition serves (P : EngineSession → Prop) (m : response) : Prop :=
  spost P m (λ r s, shown_ok s ∧ answer_ok r).

Lemma serves_weaken (P P' : EngineSession → Prop) m : serves P' m → (∀ s, P s → P' s) → serves P m.
Proof. intros Hm HP. by eapply (spost_weaken P P'). Qed.

Lemma serves_respond (P : EngineSession → Prop) consumed commit cleared :
  (∀ s, P s → shown_ok s) → serves P (respond consumed commit cleared).
Proof.
  intros HP st st' r Hs [= <- <-]. apply HP in Hs. split; [done|]. by apply state_ok.
Qed.

Lemma serves_reset_respond P consumed commit cleared : serves P (reset;; respond consumed commit cleared).
Proof.
  eapply spost_bind; [apply after_reset|]. intros ?. apply serves_respond. intros s (s0 & _ & ->). apply reset_shown.
Qed.
Lemma serves_reset_cleared P consumed commit cleared : serves P (reset;; respond_cleared consumed commit cleared).
Proof.
  eapply spost_bind; [apply after_reset|]. intros ? st st' r (s0 & _ & Hs) [= <- <-]. rewrite Hs.
  split; [apply reset_shown|apply cleared_ok].
Qed.

(** A request in a mode with a text *)
Definition ready (mode : InputMode) (z : Prop) (s : EngineSession) : Prop :=
  ¬ textless mode ∧ (mode = ModeSelecting → z) ∧ showing mode z s.

Lemma request_shown mode z rich left_context (P : EngineSession → Prop) :
  (∀ s, P s → ready mode z s) →
  spost P (request_candidates_with_context to_uppercase displays config t rich left_context : engine _)
    (λ _ s, shown_ok s ∧ input_mode s = mode).
Proof.
  intros HP st st' a Hs Hrun. destruct (HP _ Hs) as (Ht & Hz & Hshowing).
  pose proof (request_shows _ _ _ _ mode z _ _ _ _ _ Hshowing Hrun) as Hafter.
  split; [by apply (shows_shown mode z)|apply Hafter].
Qed.

Lemma request_keeps mode z rich left_context (P : EngineSession → Prop) :
  (∀ s, P s → ready mode z s) →
  spost P (request_candidates_with_context to_uppercase displays config t rich left_context : engine _)
    (λ _, shown_ok).
Proof.
  intros HP. eapply spost_weaken; [by apply (request_shown mode z)|by intros s Hs; exact Hs|]. by intros u s [Hs _].
Qed.

Lemma ready_at mode s : ¬ textless mode → input_mode s = mode → selected_candidate s = 0 → ready mode True s.
Proof. done. Qed.

(** The mode a request begins in *)
Lemma serves_mode (P : EngineSession → Prop) m :
  (∀ mode, serves (λ s, P s ∧ input_mode s = mode) m) → serves P m.
Proof. intros Hm st st' r HP. by apply (Hm (input_mode st.1)). Qed.

(** ** Selection *)

Lemma serves_commit c mode P : ¬ textless mode → serves P (commit_candidate to_uppercase displays config t c mode).
Proof.
  intros Ht. unfold commit_candidate.
  apply (spost_bind _ _ _ (λ _ _, True)); [by apply spost_conversion|]. intros commit.
  apply kept_bind; [apply kept_get|]. intros around.
  apply (spost_bind _ _ _ (λ _, blank)); [by apply spost_put|]. intros _.
  eapply spost_bind; [apply spost_ask|]. intros more. cbv beta.
  apply (spost_bind _ _ _ (λ _, shown_ok)).
  - destruct more.
    + apply (spost_bind _ _ _ (λ _, ready mode True)).
      { apply spost_put. intros s (_ & Hb). apply ready_at; [done|done|apply Hb]. }
      intros _. by apply (request_keeps mode True).
    + apply spost_put. intros s (Hempty & Hb). apply (blank_shown (set_input_mode ModeNone s)); [done|].
      symmetry in Hempty. by apply negb_false_iff, bool_decide_eq_true in Hempty.
  - intros _. apply kept_bind; [apply kept_ask|]. intros more'. by apply serves_respond.
Qed.

Lemma serves_shows mode z (P : EngineSession → Prop) consumed commit cleared :
  ¬ textless mode → (mode = ModeSelecting → z) → (∀ s, P s → shows mode z s) →
  serves P (respond consumed commit cleared).
Proof. intros Ht Hz HP. apply serves_respond. intros s Hs. apply (shows_shown mode z); [by apply HP|done|done]. Qed.

Lemma serves_select index mode P :
  ¬ textless mode →
  serves P (select_candidate_with_remainder_mode to_uppercase displays config t index mode).
Proof.
  intros Ht. unfold select_candidate_with_remainder_mode, candidate_at.
  apply (spost_bind _ _ _ (λ _ _, True)); [by apply spost_put|]. intros _.
  apply (spost_bind _ _ _ (λ _ _, True)); [|intros c; by apply serves_commit].
  apply kept_bind; [apply kept_get|]. intros shown. eapply spost_weaken; [apply spost_or_raise|by intros s Hs; exact Hs|done].
Qed.

Lemma previewing_text : ¬ textless ModePreviewing.
Proof. by intros [|]. Qed.
Lemma selecting_text : ¬ textless ModeSelecting.
Proof. by intros [|]. Qed.
Lemma composing_text : ¬ textless ModeComposing.
Proof. by intros [|]. Qed.
#[local] Hint Resolve previewing_text selecting_text composing_text : core.

Lemma serves_current mode P :
  ¬ textless mode → serves P (select_current to_uppercase displays config t mode).
Proof.
  intros Ht. unfold select_current. apply kept_bind; [apply kept_get|]. intros index. by apply serves_select.
Qed.

(** A candidate is there only when there is a text. *)
Lemma shown_candidate_mode s i c : shown_ok s → display_candidates s !! i = Some c → ¬ textless (input_mode s).
Proof. intros Hs Hi Ht. destruct (shown_textless _ Hs Ht) as [_ Hd]. by rewrite Hd in Hi. Qed.

Lemma serves_forget index : serves shown_ok (forget_candidate to_uppercase displays config t index).
Proof.
  apply serves_mode. intros mode. unfold forget_candidate, candidate_at.
  apply (spost_bind _ _ _ (λ _ s, shown_ok s ∧ input_mode s = mode)).
  { apply spost_put. intros s [Hs Hm]. split; [|done]. apply (same_shown_ok s); [same|done]. }
  intros _.
  apply (spost_bind _ _ _ (λ _ s, ¬ textless mode ∧ input_mode s = mode)).
  { eapply spost_bind; [apply spost_get|]. intros shown. cbv beta.
    eapply spost_weaken; [apply spost_or_raise|by intros s Hs; exact Hs|].
    intros c s (Hc & -> & Hs & <-). split; [by eapply shown_candidate_mode|done]. }
  intros c. apply kept_bind; [by apply kept_conversion|]. intros _.
  apply (spost_bind _ _ _ (λ _, ready mode True)); [by apply spost_put; intros s [Ht Hm]; apply ready_at|].
  intros ?. apply (spost_bind _ _ _ (λ _, shown_ok)); [by apply (request_keeps mode True)|].
  intros ?. by apply serves_respond.
Qed.

(** The composing text while the memory is reset *)
Lemma reset_learning_text ct :
  post (λ cw : ConversionSession * World, composing cw.1 = ct) (Session.reset_learning t)
    (λ _ cw, composing cw.1 = ct).
Proof.
  unfold Session.reset_learning, refresh_learning, validate, with_memory, on_fallible_memory, on_memory, read, update.
  staying; intros [] ?; done.
Qed.

Lemma kept_text {E' A} (m : action (ConversionSession * World) E' A) :
  (∀ ct, post (λ cw, composing cw.1 = ct) m (λ _ cw, composing cw.1 = ct)) →
  spost (M:=M) (N:=N) shown_ok (on_conversion m) (λ _, shown_ok).
Proof.
  intros Hm [s sh] st' a Hs Hrun. unfold on_conversion in Hrun.
  destruct (m _) as [[c w] r] eqn:Hr. injection Hrun as <- ->.
  specialize (Hm (composing (conversion s)) (conversion s, world sh) _ _ eq_refl Hr). cbn in *.
  apply (same_shown_ok s); [|done]. unfold same_shown. cbn. rewrite Hm. same.
Qed.

(** There is a text: not without input. *)
Lemma has_text_mode s : shown_ok s → is_empty (composing (conversion s)) = false → ¬ textless (input_mode s).
Proof.
  intros Hs Hne Ht. destruct (shown_textless _ Hs Ht) as [Hempty _]. by apply bool_decide_eq_false in Hne.
Qed.

Lemma serves_reset_learning : serves shown_ok (EngineKeys.reset_learning to_uppercase displays config t).
Proof.
  apply serves_mode. intros mode. unfold EngineKeys.reset_learning, has_text.
  apply (spost_bind _ _ _ (λ _ s, shown_ok s ∧ input_mode s = mode)).
  { apply spost_put. intros s [Hs Hm]. split; [|done]. apply (same_shown_ok s); [same|done]. }
  intros _. apply (spost_bind _ _ _ (λ _ s, shown_ok s ∧ input_mode s = mode)).
  { intros st st' a [Hs Hm] Hrun. split.
    - eapply kept_text; [|exact Hs|exact Hrun]. intros ct. apply post_map_error, reset_learning_text.
    - by eapply (kept_conversion (λ s, input_mode s = mode)). }
  intros _. apply (spost_bind _ _ _ (λ _ s, (shown_ok s ∧ input_mode s = mode) ∧ selected_candidate s = 0)).
  { apply spost_put. intros s [Hs Hm]. split_and!; [apply (same_shown_ok s); [same|done]|done|done]. }
  intros _. eapply spost_bind; [apply spost_ask|]. intros more. cbv beta.
  apply (spost_bind _ _ _ (λ _, shown_ok)); [|intros _; by apply serves_respond]. destruct more.
  - apply (request_keeps mode True). intros s (Hmore & (Hs & Hm) & Hz). symmetry in Hmore. apply negb_true_iff in Hmore.
    apply ready_at; [|done|done]. rewrite <- Hm. by apply has_text_mode.
  - eapply spost_weaken; [apply kept_ret|by intros s Hs; exact Hs|]. by intros u s (_ & (Hs & _) & _).
Qed.
End serves.

#[export] Hint Resolve previewing_text selecting_text composing_text : core.

Section answers.
Context `{Segmentation} `{IterationOrder} `{Chrono} `{Icu} `{Rng} `{Marisa} {E : Type} `{Dictionary E}.
Context {M N : Type} `{ZenzLanguageModel M} `{ZenzLanguageModel N} `{Libm}.
Context (to_uppercase to_lowercase : ustring → ustring) (displays : Displays E).
Context (config : EngineConfig) (t : Moment).

#[local] Notation engine A := (action (EngineSession * Shared M N) Failure A).
#[local] Notation response := (engine Wire.StateResponse).
#[local] Notation tables := (engine_tables config).

#[local] Notation serves := (serves (M:=M) (N:=N)).

(** ** Steps before an answer *)

Lemma after_any {A} P (m : engine A) (f : A → response) :
  (∀ a, serves (λ _, True) (f a)) → serves P (m ≫= f).
Proof. intros Hf. by apply (spost_bind _ _ _ (λ _ _, True)). Qed.

Lemma after_keeping {A} (P : EngineSession → Prop) (m : engine A) (f : A → response) :
  spost P m (λ _, P) → (∀ a, serves P (f a)) → serves P (m ≫= f).
Proof. intros Hm Hf. by apply (spost_bind _ _ _ (λ _, P)). Qed.

(** A change of the session, and what holds after it *)
Lemma after_change P R f (g : () → response) :
  (∀ s, P s → R (f s)) → serves R (g ()) → serves P (put f ≫= g).
Proof. intros Hf Hg. apply (spost_bind _ _ _ (λ _, R)); [by apply spost_put|]. by intros []. Qed.

Lemma after_reset_any {A} P (m : () → engine A) Q :
  spost blank (m ()) Q → spost P (reset ≫= m) Q.
Proof.
  intros Hm. eapply spost_bind; [apply after_reset|]. intros []. eapply spost_weaken; [exact Hm| |done].
  by intros s (s0 & _ & ->).
Qed.

(** The value read is the value of the session. *)
Lemma after_get {A} (P : EngineSession → Prop) (f : EngineSession → A) (g : A → response) :
  (∀ a, serves (λ s, f s = a ∧ P s) (g a)) → serves P (get f ≫= g).
Proof.
  intros Hg. eapply spost_bind; [apply spost_get|]. intros a. cbv beta.
  eapply serves_weaken; [apply Hg|]. by intros s [-> Hs].
Qed.

(** ** A request, and what is shown after it *)

(** What is shown when something is selected first *)
Lemma shows_selected mode z s mode' :
  shows mode z s → ¬ textless mode' → shown_ok (set_selected_candidate 0 (set_input_mode mode' s)).
Proof. intros (Hm & [] & Hz) Ht. split; [by split|by left|done]. Qed.

Lemma without_live s : shown_ok s → shown_ok (set_live_candidate None s).
Proof. apply same_shown_ok. same. Qed.

Lemma live_request_answers mode z (P : EngineSession → Prop) rich left_context consumed commit cleared :
  (∀ s, P s → ready mode z s) →
  serves P (request_candidates_with_context to_uppercase displays config t rich left_context;;
            put (set_live_candidate None);; respond consumed commit cleared : response).
Proof.
  intros HP. apply (spost_bind _ _ _ (λ _, shown_ok)); [by apply (request_keeps _ _ _ _ mode z)|].
  intros _. apply (after_change _ shown_ok); [apply without_live|]. by apply serves_respond.
Qed.

Lemma request_answers mode z (P : EngineSession → Prop) rich left_context consumed commit cleared :
  (∀ s, P s → ready mode z s) →
  serves P (request_candidates_with_context to_uppercase displays config t rich left_context;;
            respond consumed commit cleared : response).
Proof.
  intros HP. apply (spost_bind _ _ _ (λ _, shown_ok)); [by apply (request_keeps _ _ _ _ mode z)|].
  intros _. by apply serves_respond.
Qed.

Lemma kept_weaken {A} (P Q : EngineSession → Prop) (a : A) :
  (∀ s, P s → Q s) → spost P (mret a : engine A) (λ _, Q).
Proof. intros HQ. eapply spost_weaken; [apply kept_ret|exact HQ|done]. Qed.

(** ** Unicode input *)

Lemma serves_typo_correction index P : serves P (select_typo_correction index).
Proof.
  unfold select_typo_correction. apply after_any. intros found. apply after_any. intros correction.
  apply serves_reset_cleared.
Qed.

(** No text and no candidate *)
Definition idle (s : EngineSession) : Prop :=
  lists_ok s ∧ surface (composing (conversion s)) = [] ∧ display_candidates s = [].

Lemma idle_shown s : idle s → input_mode s ≠ ModeSelecting → shown_ok s.
Proof. by intros (Hl & Hs & Hd) Hm. Qed.
Lemma reset_idle s : idle (reset_to s).
Proof. split; [by apply blank_lists|done]. Qed.
Lemma textless_idle s : shown_ok s → textless (input_mode s) → idle s.
Proof. intros Hs Ht. destruct (shown_textless _ Hs Ht). by split; [apply Hs|]. Qed.

Lemma then_reset {A} P (a : A) : spost P (reset;; mret a : engine A) (λ _, idle).
Proof.
  eapply spost_bind; [apply after_reset|]. intros ? st st' b (s0 & _ & Hs) [= <- _]. rewrite Hs. apply reset_idle.
Qed.

Lemma any_then {A B} P (m : engine A) (f : A → engine B) Q :
  (∀ a, spost (λ _, True) (f a) Q) → spost P (m ≫= f) Q.
Proof. intros Hf. by apply (spost_bind _ _ _ (λ _ _, True)). Qed.

Lemma serves_enter_unicode : serves shown_ok (enter_unicode_input config t).
Proof.
  unfold enter_unicode_input. apply after_get. intros mode.
  apply (spost_bind _ _ _ (λ _, idle)).
  - destruct mode.
    1,5: apply kept_weaken; intros s [Hm Hs]; apply textless_idle; unfold textless; naive_solver.
    + do 2 (apply any_then; intros ?). apply then_reset.
    + do 2 (apply any_then; intros ?). apply then_reset.
    + do 4 (apply any_then; intros ?). apply then_reset.
  - intros commit. apply (after_change _ shown_ok); [|by apply serves_respond].
    intros s (Hl & Hs & Hd). split; [by destruct Hl|done|done].
Qed.

Lemma unicode_same s digits : shown_ok s → shown_ok (set_unicode_input digits s).
Proof. apply same_shown_ok. same. Qed.

Lemma serves_unicode action event : serves shown_ok (handle_unicode_input action event).
Proof.
  unfold handle_unicode_input. destruct action; try apply serves_reset_respond; try by apply serves_respond.
  - apply (after_change _ shown_ok); [intros s; apply unicode_same|by apply serves_respond].
  - apply after_keeping; [apply kept_get|]. intros digits. destruct digits; [apply serves_reset_respond|].
    apply (after_change _ shown_ok); [intros s; apply unicode_same|by apply serves_respond].
  - apply after_any. intros commit. apply serves_reset_respond.
  - apply after_any. intros commit. apply serves_reset_respond.
Qed.

(** ** Deleting *)

Lemma kept_with_ngram {E' A} P (m : action N E' A) : kept P (with_ngram (M:=M) m).
Proof. intros [s sh] HP. unfold with_ngram. destruct (lm_typo_ngram sh); [by destruct (m _)|done]. Qed.
Lemma kept_copy {E' A} P (m : action (EngineSession * Shared M N) E' A) : spost P (on_copy m) (λ _, P).
Proof.
  intros [s sh] st' a HP Hrun. unfold on_copy in Hrun. destruct (m _) as [[s1 sh1] r]. by injection Hrun as <- _.
Qed.

Lemma kept_typo P ct : spost P (request_typo_corrections to_lowercase config ct : engine _) (λ _, P).
Proof.
  unfold request_typo_corrections. case_match; [apply spost_raise|].
  apply kept_bind; [apply kept_get|]. intros around. apply kept_bind; [apply kept_get|]. intros usual. cbv zeta.
  apply kept_bind; [|intros r; keeping]. apply kept_attempt. apply kept_with_ngram.
Qed.

Lemma correction_same s correction : shown_ok s → shown_ok (set_backspace_correction correction s).
Proof. apply same_shown_ok. same. Qed.
Lemma prediction_same s p : shown_ok s → shown_ok (set_input_prediction p s).
Proof. apply same_shown_ok. same. Qed.
Lemma backspaced_same s b : shown_ok s → shown_ok (set_last_was_backspace b s).
Proof. apply same_shown_ok. same. Qed.

Lemma kept_correction previous :
  spost shown_ok
    (update_backspace_correction to_uppercase to_lowercase displays config t previous : engine _)
    (λ _, shown_ok).
Proof.
  unfold update_backspace_correction. apply kept_bind; [apply kept_typo|]. intros found.
  destruct (list_find _ _) as [[i reading]|]; [|apply kept_ret].
  do 2 (apply kept_bind; [apply kept_copy|]; intros ?).
  case_decide; [|apply kept_ret]. apply kept_put. intros s. apply correction_same.
Qed.

Lemma kept_show_correction : spost shown_ok (show_correction : engine _) (λ _, shown_ok).
Proof.
  unfold show_correction. apply kept_bind; [apply kept_get|]. intros [[display target]|]; [|apply kept_ret].
  apply kept_bind; [apply kept_get|]. intros [p|]; apply kept_put; intros s; [apply prediction_same|apply correction_same].
Qed.

Lemma serves_backspace P : serves P (backspace to_uppercase to_lowercase displays config t).
Proof.
  unfold backspace. do 5 (apply after_any; intros ?). apply after_any. intros more. case_match.
  { apply serves_reset_respond. }
  apply (after_change _ (ready ModeComposing True)); [by intros s _; apply ready_at|].
  apply (spost_bind _ _ _ (λ _, shown_ok)); [by apply (request_keeps _ _ _ _ ModeComposing True)|]. intros _.
  apply (after_change _ shown_ok); [apply without_live|].
  apply after_keeping; [case_match; [apply kept_correction|apply kept_ret]|]. intros _.
  apply after_keeping; [apply kept_show_correction|]. intros _. by apply serves_respond.
Qed.

(** ** Leaving a mode *)

Lemma in_text s mode mode' :
  shown_ok s → input_mode s = mode → ¬ textless mode' → mode' ≠ ModeSelecting → shown_ok (set_input_mode mode' s).
Proof. intros [[] Hsel Ht] Hm Hm' Hns. split; [by split|done|done]. Qed.

Lemma serves_escape mode : serves (λ s, input_mode s = mode ∧ shown_ok s) (escape config mode).
Proof.
  destruct mode; cbn.
  - apply serves_respond. by intros s [].
  - apply serves_reset_respond.
  - apply (after_change _ shown_ok); [|by apply serves_respond]. intros s [Hm Hs]. by eapply in_text.
  - apply (after_change _ shown_ok); [|by apply serves_respond]. intros s [Hm Hs].
    destruct (live_conversion config); by eapply in_text.
  - apply spost_panic.
Qed.

Lemma serves_enter mode P : serves P (EngineKeys.enter to_uppercase displays config t mode).
Proof.
  unfold EngineKeys.enter. case_decide; [by apply serves_current|].
  do 2 (apply after_any; intros ?). apply serves_reset_respond.
Qed.

(** ** Selecting *)

Lemma kept_separator P :
  (∀ s c b, P s → P (set_last_was_backspace b (set_conversion c s))) →
  spost P (insert_separator config : engine _) (λ _, P).
Proof.
  intros HP. unfold insert_separator. apply kept_bind; [apply kept_get|]. intros usual.
  eapply spost_bind; [apply after_conversion|]. intros ?. apply spost_put.
  intros s' (s & c & Hs & ->). by apply HP.
Qed.

Lemma next_shown s :
  shown_ok s →
  shown_ok (match length (display_candidates s) with
            | 0 => s
            | S last => set_selected_candidate ((selected_candidate s + 1) `min` last) s
            end).
Proof.
  intros Hs. destruct (length (display_candidates s)) as [|n] eqn:Hn; [done|]. destruct Hs as [[] Hsel Ht].
  split; [by split| |done]. intros _. right. cbn. rewrite Hn. lia.
Qed.
Lemma previous_shown s : shown_ok s → shown_ok (set_selected_candidate (selected_candidate s - 1) s).
Proof.
  intros [[] Hsel Ht]. split; [by split| |done]. intros Hm. destruct (Hsel Hm); [left|right]; cbn; lia.
Qed.

Lemma request_lists mode (P : EngineSession → Prop) rich left_context :
  (∀ s, P s → input_mode s = mode) →
  spost P (request_candidates_with_context to_uppercase displays config t rich left_context : engine _)
    (λ _, shows mode False).
Proof.
  intros HP. eapply spost_weaken; [apply (request_shows _ _ _ _ mode False)| |by intros ? s Hs; exact Hs].
  intros s Hs. by split; [apply HP|].
Qed.

(** The candidates of a text, the first selected *)
Lemma serves_selecting mode (P : EngineSession → Prop) :
  (∀ s, P s → input_mode s = mode) →
  serves P (request_rich_candidates to_uppercase displays config t;;
            put (λ s, set_selected_candidate 0 (set_input_mode ModeSelecting s));;
            handled).
Proof.
  intros HP. unfold request_rich_candidates.
  apply (spost_bind _ _ _ (λ _, shows mode False)); [by apply request_lists|].
  intros []. apply (after_change _ shown_ok); [|by apply serves_respond].
  intros s Hs. by eapply shows_selected.
Qed.

Lemma serves_space mode shift :
  serves (λ s, input_mode s = mode ∧ shown_ok s) (space to_uppercase displays config t mode shift).
Proof.
  destruct mode; cbn.
  - apply after_keeping; [apply kept_get|]. intros language. apply serves_respond. by intros s [].
  - apply (after_any _ _ _). intros []. apply (spost_bind _ _ _ (λ _, shown_ok)); [|intros _; by apply serves_respond].
    destruct (live_conversion config).
    + apply (spost_bind _ _ _ (λ _ s, input_mode s = ModeSelecting)); [by apply spost_put|]. intros _.
      apply (spost_bind _ _ _ (λ _, shows ModeSelecting False)); [by apply request_lists|].
      intros _. apply spost_put. intros s (Hm & [] & _). split; [by split|by left|]. cbn. by rewrite Hm; intros [|].
    + apply (spost_bind _ _ _ (λ _ s, input_mode s = ModePreviewing)); [by apply spost_put|]. intros _.
      apply (spost_bind _ _ _ (λ _, shows ModePreviewing False)); [by apply request_lists|].
      intros _. apply spost_put. intros s (Hm & [] & _). split; [by split|..]; cbn; rewrite Hm; [done|by intros [|]].
  - apply (serves_selecting ModePreviewing). by intros s [].
  - apply after_keeping; [apply kept_get|]. intros shown.
    eapply (serves_weaken _ shown_ok); [|by intros s []].
    apply after_keeping; [|intros _; by apply serves_respond]. case_decide; [apply kept_ret|]. destruct shift; apply kept_put; intros s; [apply previous_shown|apply next_shown].
  - apply spost_panic.
Qed.

Lemma selecting_after_separator mode (P : EngineSession → Prop) :
  (∀ s, P s → input_mode s = mode) →
  serves P (insert_separator config;; request_rich_candidates to_uppercase displays config t;;
            put (λ s, set_selected_candidate 0 (set_input_mode ModeSelecting s));; handled).
Proof.
  intros HP. apply (serves_weaken _ (λ s, input_mode s = mode)); [|done].
  apply after_keeping; [by apply kept_separator|]. intros _. by apply (serves_selecting mode).
Qed.

Lemma serves_down mode :
  serves (λ s, input_mode s = mode ∧ shown_ok s) (down to_uppercase displays config t mode).
Proof.
  destruct mode; cbn.
  - apply serves_respond. by intros s [].
  - apply (selecting_after_separator ModeComposing). by intros s [].
  - apply (selecting_after_separator ModePreviewing). by intros s [].
  - apply (after_change _ shown_ok); [|by apply serves_respond]. intros s [_ Hs]. by apply next_shown.
  - apply spost_panic.
Qed.

(** Five representations of a text *)
Lemma additional_five chosen c l : desktop_additional_candidates tables chosen c = Some l → length l = 5.
Proof.
  unfold desktop_additional_candidates. intros Hl. by simplify_option_eq.
Qed.

Lemma spost_conversion_of {A} P (f : ConversionSession → option A) :
  spost P (conversion_of f : engine A) (λ a s, f (conversion s) = Some a ∧ P s).
Proof.
  unfold conversion_of. eapply spost_bind; [apply spost_ask|]. intros a. cbv beta.
  eapply spost_weaken; [apply spost_expect|by intros s Hs; exact Hs|]. by intros b s (-> & <- & Hs).
Qed.

Lemma slice_drop {A} n (l l' : list A) : slice n (length l) l = Some l' → n ≤ length l ∧ l' = drop n l.
Proof.
  unfold slice. case_decide; [|done]. intros [= <-]. split; [tauto|]. rewrite take_ge; [done|]. rewrite length_drop. lia.
Qed.

(** The representations put before the candidates *)
Lemma kept_reveal :
  spost (λ s, input_mode s = ModeSelecting ∧ additional_candidate_count s < 5 ∧ shown_ok s)
    (reveal_additional_candidate config : engine _) (λ _, shown_ok).
Proof.
  unfold reveal_additional_candidate.
  eapply spost_bind; [apply spost_get|]. intros start. cbv beta.
  apply kept_bind; [apply kept_get|]. intros chosen.
  eapply spost_bind; [apply spost_conversion_of|]. intros additional. cbv beta zeta.
  eapply spost_bind; [apply spost_get|]. intros s. cbv beta.
  eapply spost_bind; [apply spost_expect|]. intros base. cbv beta.
  eapply spost_bind; [apply spost_expect|]. intros annotations. cbv beta.
  set (shown := (start + 1) `min` length additional).
  set (revealed := drop (length additional - shown) additional).
  eapply spost_bind; [apply after_put|]. intros []. cbv beta.
  eapply spost_bind; [apply remainders_length|]. intros rest. cbv beta.
  apply spost_put.
  intros s' (Hrest & s0 & (Hann & Hbase & -> & Hadd & -> & Hm & Hlt & Hs) & ->).
  apply additional_five in Hadd. apply slice_drop in Hbase as [Hle ->]. apply slice_drop in Hann as [_ ->].
  destruct Hs as [[Hr Ha Hn Hp] Hsel Ht].
  assert (length revealed = shown) as Hrev by (subst revealed; rewrite length_drop; lia).
  split; [split|by left|cbn; rewrite Hm; by intros [|]]; cbn; rewrite ?length_app, ?length_fmap, ?length_drop, ?Hrev.
  - rewrite Hrest, length_app, length_fmap, Hrev, length_drop. unfold id. lia.
  - lia.
  - lia.
  - intros i Hi%Hp. lia.
Qed.

Lemma serves_up mode : serves (λ s, input_mode s = mode ∧ shown_ok s) (up config mode).
Proof.
  unfold up. apply (spost_bind _ _ _ (λ _, shown_ok)); [|intros _; by apply serves_respond].
  case_decide as Hm; [|apply kept_weaken; by intros s []].
  eapply spost_bind; [apply spost_get|]. intros first. cbv beta. destruct first.
  - eapply spost_weaken; [apply kept_reveal| |by intros ? s Hs; exact Hs].
    intros s (Hfirst & <- & Hs). symmetry in Hfirst. apply bool_decide_eq_true in Hfirst. naive_solver.
  - apply spost_put. intros s (_ & _ & Hs). by apply previous_shown.
Qed.

(** ** Segments, predictions and representations *)

Lemma serves_resize right_arrow P : serves P (resize_segment to_uppercase displays config t right_arrow).
Proof.
  unfold resize_segment. do 4 (apply after_any; intros ?).
  apply (after_change _ (ready ModeSelecting True)); [by intros s _; apply ready_at|].
  by apply (live_request_answers ModeSelecting True).
Qed.

(** Steps that keep the mode *)
Lemma mode_request mode rich left_context consumed commit cleared :
  ¬ textless mode → mode ≠ ModeSelecting →
  serves (λ s, input_mode s = mode)
    (request_candidates_with_context to_uppercase displays config t rich left_context;;
     respond consumed commit cleared : response).
Proof. intros Ht Hm. by apply (request_answers mode False). Qed.

Lemma kept_direct mode value :
  spost (λ s, input_mode s = mode) (insert_direct config value : engine _) (λ _ s, input_mode s = mode).
Proof. by apply kept_conversion. Qed.

Lemma kept_edit mode p :
  spost (λ s, input_mode s = mode) (apply_edit config p : engine _) (λ _ s, input_mode s = mode).
Proof.
  unfold apply_edit. apply kept_bind; [case_decide; [by apply kept_conversion|apply kept_ret]|]. intros _.
  apply kept_bind; [by apply kept_put|]. intros _. case_decide; [by apply kept_put|apply kept_direct].
Qed.

(** A change of the composing text, which is not looked at while a text is there *)
Lemma conversion_shown s c : shown_ok s → ¬ textless (input_mode s) → shown_ok (set_conversion c s).
Proof. by intros [[] Hsel Ht] Hm. Qed.

Lemma serves_tab : serves shown_ok (tab to_uppercase displays config t).
Proof.
  unfold tab. eapply spost_bind; [apply spost_get|]. intros p. cbv beta.
  destruct p as [p|]; [|by apply serves_respond; intros s [_ Hs]].
  apply (after_change _ (λ s, input_mode s = ModeComposing ∧ shown_ok s)).
  { intros s [Hp Hs]. case_decide; [|done]. split; [done|by apply backspaced_same]. }
  destruct (predicted_candidate p) as [c|].
  - eapply (spost_bind _ _ _ (λ _ s, input_mode s = ModeComposing ∧ shown_ok s)).
    { apply spost_conversion. intros s c' _ [Hm Hs]. split; [done|]. apply conversion_shown; [done|].
      by rewrite Hm. }
    intros accepted. destruct accepted.
    + eapply serves_weaken; [by apply mode_request|by intros s []].
    + apply after_keeping; [apply kept_ret|]. intros ?. apply serves_respond. by intros s [].
  - eapply serves_weaken; [apply (after_keeping (λ s, input_mode s = ModeComposing)); [apply kept_edit|]|by intros s []].
    intros _. by apply mode_request.
Qed.

Lemma serves_representation index P : serves P (commit_representation to_uppercase displays config t index).
Proof. unfold commit_representation. do 3 (apply after_any; intros ?). by apply serves_commit. Qed.

(** ** Typing *)

Lemma serves_composing P consumed commit cleared :
  serves P (put (set_input_mode ModeComposing);; request_candidates to_uppercase displays config t;;
            respond consumed commit cleared : response).
Proof.
  apply (after_change _ (λ s, input_mode s = ModeComposing)); [done|]. by apply mode_request.
Qed.

Lemma serves_type event P : serves P (type_key to_uppercase displays config t event).
Proof. unfold type_key. do 4 (apply after_any; intros ?). apply serves_composing. Qed.

Lemma serves_action action event :
  serves shown_ok (handle_action to_uppercase to_lowercase displays config t action event).
Proof.
  unfold handle_action. apply after_get. intros mode. apply after_keeping; [apply kept_ask|]. intros more. cbv zeta.
  assert (∀ consumed, serves (λ s, input_mode s = mode ∧ shown_ok s) (respond consumed [] false)) as Hrespond.
  { intros consumed. apply serves_respond. by intros s []. }
  destruct action; try apply Hrespond; cbn [representation_index]; repeat case_match; try apply Hrespond;
    eauto using serves_backspace, serves_escape, serves_enter, serves_space, serves_down, serves_up, serves_resize,
      serves_representation, serves_type, serves_current.
  - eapply serves_weaken; [apply serves_tab|by intros s []].
  - eapply (serves_weaken _ shown_ok); [|by intros s []].
    apply after_keeping; [apply kept_get|]. intros index. apply serves_forget.
Qed.

Lemma language_same s language : shown_ok s → shown_ok (set_input_language language s).
Proof. apply same_shown_ok. same. Qed.

Lemma serves_eisu : serves shown_ok (eisu to_uppercase displays config t).
Proof.
  unfold eisu. apply after_keeping; [apply kept_get|]. intros mode. case_decide.
  - eapply spost_bind; [by apply serves_current|]. intros answer. cbv beta.
    eapply spost_bind; [apply after_put|]. intros []. cbv beta.
    intros st st' r (s & [Hs Hr] & Hst) [= <- <-]. rewrite Hst. split; [by apply language_same|by apply english_ok].
  - apply (after_change _ shown_ok); [intros s; apply language_same|by apply serves_respond].
Qed.

Lemma serves_english_space : serves (λ s, input_mode s = ModeComposing) (english_space config).
Proof.
  unfold english_space. apply after_keeping; [apply kept_direct|]. intros _.
  apply (after_change _ shown_ok); [|by apply serves_respond]. intros s Hm.
  split; [by apply blank_lists|cbn; by rewrite Hm|cbn; rewrite Hm; by intros [|]].
Qed.

Lemma serves_number number event P : serves P (select_number to_uppercase displays config t number event).
Proof.
  unfold select_number. case_decide.
  - do 3 (apply after_any; intros ?). apply serves_composing.
  - apply after_any. intros selected. by apply serves_select.
Qed.

Lemma serves_language action event :
  serves shown_ok (handle_language to_uppercase to_lowercase displays config t action event).
Proof.
  unfold handle_language. eapply spost_bind; [apply spost_get|]. intros s0. cbv beta.
  assert (serves (λ s, s0 = id s ∧ shown_ok s)
    (match english_text action event s0 with
     | Some input => respond true input false
     | None => match number_key action event s0 with
               | Some number => select_number to_uppercase displays config t number event
               | None => handle_action to_uppercase to_lowercase displays config t action event
               end
     end)) as Hrest.
  { eapply (serves_weaken _ shown_ok); [|by intros s []].
    destruct (english_text _ _ _); [by apply serves_respond|].
    destruct (number_key _ _ _); [apply serves_number|apply serves_action]. }
  destruct action; try exact Hrest.
  - case_decide as Hm.
    + destruct Hm as [Hm _]. eapply serves_weaken; [apply serves_english_space|]. by intros s [-> _].
    + eapply serves_weaken; [apply serves_action|by intros s []].
  - eapply serves_weaken; [apply serves_enter_unicode|by intros s []].
  - eapply serves_weaken; [apply serves_eisu|by intros s []].
  - apply (after_change _ shown_ok); [intros s []; by apply language_same|by apply serves_respond].
Qed.

Lemma typo_same s found : shown_ok s → shown_ok (set_typo_corrections found s).
Proof. apply same_shown_ok. same. Qed.

Lemma serves_key event : serves shown_ok (handle_key to_uppercase to_lowercase displays config t event).
Proof.
  unfold handle_key. apply (after_change _ shown_ok); [intros s; apply typo_same|]. cbv zeta.
  apply after_keeping.
  { unfold option_direct. apply kept_bind; [apply kept_get|]. intros applies. keeping. }
  intros [text|]; [by apply serves_respond|].
  apply after_keeping; [apply kept_get|]. intros mode. case_decide; [apply serves_unicode|apply serves_language].
Qed.

(** ** Requests *)

Lemma surrounding_same s around : shown_ok s → shown_ok (set_surrounding around s).
Proof. apply same_shown_ok. same. Qed.

Lemma serves_request request :
  serves shown_ok (session_response to_uppercase to_lowercase displays config t request).
Proof.
  unfold session_response. destruct request; try apply spost_raise.
  - apply serves_reset_cleared.
  - unfold handle_event. destruct (Wire.key_surrounding _) as [around|]; [|apply serves_key].
    destruct (surrounding_context _); [|apply spost_raise].
    apply (after_change _ shown_ok); [intros s; apply surrounding_same|apply serves_key].
  - by apply serves_select.
  - unfold commit_composition. apply after_any. intros commit. apply serves_reset_cleared.
  - apply serves_forget.
  - apply serves_reset_learning.
  - apply serves_typo_correction.
Qed.

(** A page: only the place selected moves, among the candidates. *)
Lemma page_shown page s s' : shown_ok s → page_candidates page s = Some s' → shown_ok s'.
Proof.
  intros Hs. unfold page_candidates. cbv zeta. case_decide; [done|]. case_decide as Hn; [by intros [= <-]|].
  destruct Hs as [[] Hsel Ht]. case_match; [|done]. case_match; try done; intros [= <-].
  all: split; [by split| |done]; intros Hm; right; cbn.
  - destruct (Hsel Hm) as [Hz|Hz]; lia.
  - lia.
Qed.
End answers.
