(* ===== verification/EngineSessions.v ===== *)
(** * The engine of the daemon: connections

    What the sessions of a connection keep whatever the requests are, the answers
    included, and what a request leaves alone. *)

From S2P Require Import Frame Prelude Unicode F32 Constraint InputTable Composing Dictionary LatticeIndex Lattice Prediction TextUtil Template Action LearningRecords LearningFiles Zenz ZenzEvaluator NGram LmTypo DictionaryStore UserDictionary Foreign SessionState Session ZenzConvert Protocol EngineInput EngineState Engine EngineKeys EngineSpec EngineHandle EngineInvariant EngineAnswers.

(** What every handling returns *)
Definition hpost {S E A} (st : S) (m : action S E A) (Q : A → S → Prop) : Prop :=
  ∀ st' a, m st = (st', Return a) → Q a st'.

Lemma hpost_ret {S E A} (st : S) (a : A) (Q : A → S → Prop) : Q a st → hpost st (mret a : action S E A) Q.
Proof. by intros HQ st' b [= <- <-]. Qed.
Lemma hpost_bind {S E A B} (st : S) (m : action S E A) (f : A → action S E B) R Q :
  hpost st m R → (∀ a st1, R a st1 → hpost st1 (f a) Q) → hpost st (m ≫= f) Q.
Proof. intros Hm Hf st' b (st1 & a & Ha & Hb)%bind_Return. eapply Hf; [by apply Hm|done]. Qed.

Section connection.
Context `{Segmentation} `{IterationOrder} `{Chrono} `{Icu} `{Rng} `{Marisa} {E : Type} `{Dictionary E}.
Context {M L : Type} `{ZenzLanguageModel M} `{ZenzLanguageModel L} `{Libm}.
Context (to_uppercase to_lowercase : ustring → ustring) (displays : Displays E) (config : EngineConfig).

#[local] Notation handle := (handle (M:=M) (L:=L) to_uppercase to_lowercase displays config).
#[local] Notation engine A := (action (EngineSession * Shared M L) Failure A).
#[local] Notation sessions := (gmap ustring EngineSession).

(** An action on one session, whatever the others are *)
Lemma hpost_session {A : Type} (ss : sessions) (sh : Shared M L) s (m : engine A) Q :
  (∀ s' sh' a, m (s, sh) = ((s', sh'), Return a) → Q (s', Ok a) (ss, sh')) →
  (∀ s' sh' e, m (s, sh) = ((s', sh'), Raise e) → Q (s', Err e) (ss, sh')) →
  hpost (ss, sh) (on_session s m) Q.
Proof.
  intros Hok Herr st' r Hrun. unfold on_session in Hrun. destruct (m (s, sh)) as [[s' sh'] [a|e|]] eqn:Hm; [| |done].
  - injection Hrun as <- <-. by apply Hok.
  - injection Hrun as <- <-. by apply Herr.
Qed.

Lemma hpost_reset (ss : sessions) (sh : Shared M L) s Q :
  Q (reset_to s, Ok ()) (ss, sh) → hpost (ss, sh) (on_session s reset) Q.
Proof.
  intros HQ. apply hpost_session; intros s' sh' r Hrun; rewrite run_reset in Hrun; [|done].
  by injection Hrun as <- <- <-.
Qed.

(** ** The directory of sessions

    What the order of requests depends on: the sessions by their names, each with the
    number of its last request. *)

#[local] Notation directory := (gmap ustring N).
Definition directory_of (ss : sessions) : directory := last_request_id <$> ss.

(** The payload of an answer *)
Definition is_response (p : option Wire.Payload) : Prop :=
  match p with
  | Some (Wire.PStateResponse _ | Wire.PTypoCorrectionResponse _ | Wire.PProtocolError _ _) => True
  | _ => False
  end.

(** The answer to the request [e] *)
Definition answers (e a : Wire.Envelope) : Prop :=
  Wire.protocol_version a = PROTOCOL_VERSION ∧ Wire.request_id a = Wire.request_id e ∧
  Wire.session_id a = Wire.session_id e ∧ is_response (Wire.payload a).

(** Why a request is refused at once, if it is *)
Definition refusal (d : directory) (e : Wire.Envelope) : option Wire.Code :=
  let in_order known := match known with
                        | Some last => if (Wire.request_id e <=? last)%N then Some Wire.OutOfOrderRequest else None
                        | None => None
                        end in
  match Wire.payload e with
  | None | Some (Wire.PStateResponse _ | Wire.PTypoCorrectionResponse _ | Wire.PProtocolError _ _) =>
      Some Wire.InvalidPayload
  | Some (Wire.PStartSession _) => in_order (d !! Wire.session_id e)
  | Some _ => match d !! Wire.session_id e with
              | None => Some Wire.UnknownSession
              | known => in_order known
              end
  end.

(** The directory after a request and its answer *)
Definition directory_after (d : directory) (e a : Wire.Envelope) : directory :=
  match refusal d e, Wire.payload e with
  | Some _, _ => d
  | None, Some (Wire.PStartSession _) =>
      match Wire.payload a with
      | Some (Wire.PStateResponse _) => <[Wire.session_id e := Wire.request_id e]> d
      | _ => d
      end
  | None, Some Wire.PEndSession => delete (Wire.session_id e) d
  | None, _ => <[Wire.session_id e := Wire.request_id e]> d
  end.

(** ** The handling of an admitted request *)

(** A session after a request, and the answer [p] to it: the settings are kept, and so is
    the invariant of what is shown; an error resets the session, or leaves it. *)
Definition followed (resets : Prop) (s s' : EngineSession) (p : option Wire.Payload) : Prop :=
  settings_of s' = settings_of s ∧
  (shown_ok s → shown_ok s' ∧ ∀ r, p = Some (Wire.PStateResponse r) → answer_ok r) ∧
  (∀ code message, p = Some (Wire.PProtocolError code message) →
     (resets → ∃ s1, s' = reset_to s1) ∧ (¬ resets → s' = s)).

Section admitted.
Context (t : Moment) (name : ustring) (id : N) (ss : sessions).

#[local] Notation connection := (Sessions (M:=M) (L:=L)).

Definition answers_request (a : Wire.Envelope) : Prop :=
  Wire.protocol_version a = PROTOCOL_VERSION ∧ Wire.request_id a = id ∧ Wire.session_id a = name ∧
  is_response (Wire.payload a).

(** The session is there anew. *)
Definition replaced (Q : EngineSession → option Wire.Payload → Prop) (a : Wire.Envelope) (st : connection) : Prop :=
  answers_request a ∧ ∃ s, Q s (Wire.payload a) ∧ st.1 = <[name := s]> ss.

Lemma inserted sh s (m : () → action connection Empty_set Wire.Envelope) Q :
  hpost (<[name := s]> ss, sh) (m ()) Q → hpost (ss, sh) (insert_session name s ≫= m) Q.
Proof.
  intros Hm. eapply (hpost_bind _ _ _ (λ _ st, st = (<[name := s]> ss, sh))); [by intros ? ? [= <- <-]|].
  by intros [] _ ->.
Qed.

(** An error: the session is reset. *)
Lemma error_replaced base sh s s0 code message :
  settings_of s = settings_of s0 → (∀ x, <[name := x]> base = <[name := x]> ss) →
  hpost (base, sh)
    ('(s, _) ← on_session s reset;
     insert_session name s;;
     mret (error_envelope id name code message))
    (replaced (followed True s0)).
Proof.
  intros Hs Hbase. eapply hpost_bind.
  { apply (hpost_reset _ _ _ (λ r st, r = (reset_to s, Ok ()) ∧ st = (base, sh))). done. }
  intros ? ? [-> ->]. eapply (hpost_bind _ _ _ (λ _ st, st = (<[name := reset_to s]> ss, sh))).
  { intros ? ? [= <- <-]. by rewrite Hbase. }
  intros [] _ ->. apply hpost_ret. split; [done|]. exists (reset_to s). split; [|done]. split; [done|]. split; [|by split; [eexists|intros []]].
  intros _. split; [apply reset_shown|done].
Qed.

Lemma answer_replaced sh s s0 r :
  settings_of s = settings_of s0 →
  match r with Ok response => shown_ok s0 → shown_ok s ∧ answer_ok response | Err _ => True end →
  hpost (ss, sh) (answer (M:=M) (L:=L) id name s r) (replaced (followed True s0)).
Proof.
  intros Hs Hr. unfold answer. apply inserted. destruct r as [response|[code message]];
    [|apply error_replaced; [done|intros x; apply insert_insert_eq]].
  apply hpost_ret. split; [done|]. exists s. split; [|done]. split; [done|]. split; [|done].
  intros Hshown. destruct (Hr Hshown) as [Hs' Ha]. split; [done|]. by intros ? [= <-].
Qed.

Lemma response_replaced sh s request :
  hpost (ss, sh)
    ('(s, r) ← on_session s (session_response to_uppercase to_lowercase displays config t request);
     answer (M:=M) (L:=L) id name s r)
    (replaced (followed True s)).
Proof.
  pose proof (steady_response (M:=M) (N:=L) to_uppercase to_lowercase displays config t request (s, sh)) as Hsteady.
  pose proof (serves_request (M:=M) (N:=L) to_uppercase to_lowercase displays config t request (s, sh)) as Hserves.
  eapply (hpost_bind _ _ _ (λ sr st, ∃ sh', st = (ss, sh') ∧ settings_of sr.1 = settings_of s ∧
    match sr.2 with Ok response => shown_ok s → shown_ok sr.1 ∧ answer_ok response | Err _ => True end)).
  - apply hpost_session; intros s' sh' r Hrun; rewrite Hrun in Hsteady; exists sh'; [|done].
    split_and!; [done|done|]. intros Hs. by apply (Hserves _ _ Hs Hrun).
  - intros [s' r] st (sh' & -> & Hs & Hr). by apply answer_replaced.
Qed.

Lemma typo_replaced sh s :
  hpost (ss, sh) (answer_typo_corrections (M:=M) (L:=L) to_lowercase config id name s) (replaced (followed True s)).
Proof.
  pose proof (steady_typo (M:=M) (N:=L) to_lowercase config (composing (conversion s)) (s, sh)) as Hsteady.
  pose proof (kept_typo (M:=M) (N:=L) to_lowercase config shown_ok (composing (conversion s)) (s, sh)) as Hkept.
  unfold answer_typo_corrections.
  eapply (hpost_bind _ _ _ (λ sr st, ∃ sh', st = (ss, sh') ∧ settings_of sr.1 = settings_of s ∧
    match sr.2 with Ok _ => shown_ok s → shown_ok sr.1 | Err _ => True end)).
  - apply hpost_session; intros s' sh' r Hrun; rewrite Hrun in Hsteady; exists sh'; [|done].
    split_and!; [done|done|]. intros Hs. by apply (Hkept _ _ Hs Hrun).
  - intros [s' r] st (sh' & -> & Hs & Hr). destruct r as [found|[code message]]; [|by apply error_replaced].
    apply inserted, hpost_ret. split; [done|]. exists (set_typo_corrections found s'). split; [|done].
    split; [done|]. split; [|done]. intros Hshown. split; [by apply typo_same, Hr|done].
Qed.

Lemma page_replaced sh s page :
  hpost (ss, sh) (answer_page (M:=M) (L:=L) id name s page) (replaced (followed False s)).
Proof.
  unfold answer_page. destruct (page_candidates page s) as [s'|] eqn:Hpage.
  - apply inserted, hpost_ret. split; [done|]. exists (set_live_candidate None s'). split; [|done].
    split; [|split; [|done]].
    + unfold page_candidates in Hpage. cbv zeta in Hpage. repeat case_match; by simplify_eq.
    + intros Hs. apply (page_shown page s s') in Hs; [|done]. split; [by apply without_live|].
      intros ? [= <-]. by apply state_ok, without_live.
  - apply inserted, hpost_ret. split; [done|]. exists s. split; [|done]. split; [done|]. split; [|done].
    intros Hs. by split.
Qed.

Lemma end_answers sh s :
  hpost (ss, sh) (end_session (M:=M) (L:=L) displays t id name s)
    (λ a st, answers_request a ∧ st.1 = ss ∧
       ∀ r, Wire.payload a = Some (Wire.PStateResponse r) → answer_ok r).
Proof.
  unfold end_session. eapply (hpost_bind _ _ _ (λ _ st, st.1 = ss)).
  { by apply hpost_session. }
  intros [s' r] st Hst. apply hpost_ret. split_and!; [by destruct r as [|[]]|done|].
  intros response. destruct r as [|[]]; [|done]. intros [= <-]. apply cleared_ok.
Qed.

(** ** A session started *)

Lemma prepare_text ct :
  post (λ cw : ConversionSession * World, composing cw.1 = ct) (prepare_conversion displays config t)
    (λ _ cw, composing cw.1 = ct).
Proof.
  unfold prepare_conversion, import_dynamic_user_dictionary, update_user_dictionary_path,
    set_foreign_completion_provider_of, set_learning_memory_of, validate, on_memory, update.
  staying; intros [] ?; done.
Qed.

(** The request that starts a session, admitted: the session is there, or an error is answered. *)
Definition started (a : Wire.Envelope) (st : connection) : Prop :=
  answers_request a ∧
  match Wire.payload a with
  | Some (Wire.PStateResponse r) =>
      answer_ok r ∧ ∃ s, last_request_id s = id ∧ shown_ok s ∧ st.1 = <[name := s]> ss
  | _ => st.1 = ss
  end.

Lemma start_answers sh start :
  match ss !! name with Some s => (id <=? last_request_id s)%N = false | None => True end →
  hpost (ss, sh) (start_session (M:=M) (L:=L) displays config t id name start) started.
Proof.
  intros Horder. unfold start_session. eapply (hpost_bind _ _ _ (λ known st, known = ss !! name ∧ st = (ss, sh))).
  { by intros ? ? [= <- <-]. }
  intros known st [-> ->].
  assert (match ss !! name with Some s => (id <=? last_request_id s)%N | None => false end = false) as ->
    by by destruct (ss !! name).
  destruct (start_settings config start) as [[[style around] language]|[code message]|]; [|by apply hpost_ret|done].
  set (s0 := new_session config session_new id style around language).
  eapply (hpost_bind _ _ _ (λ sr st, ∃ sh', st = (ss, sh') ∧
    match sr.2 with Ok _ => last_request_id sr.1 = id ∧ shown_ok sr.1 | Err _ => True end)).
  - apply hpost_session; intros s' sh' r Hrun; exists sh'; [|done]. split; [done|].
    unfold on_conversion in Hrun. destruct (prepare_conversion _ _ _ _) as [[c w] r'] eqn:Hprepare.
    injection Hrun as <- _ ->. split; [done|]. apply blank_shown; [done|].
    change (surface (composing c) = []). by rewrite (prepare_text _ _ _ _ eq_refl Hprepare : composing c = _).
  - intros [s' r] st (sh' & -> & Hr). destruct r as [a|[code message]]; [|by apply hpost_ret].
    destruct Hr as [Hid Hs']. apply inserted, hpost_ret. split; [done|]. split; [apply cleared_ok|]. by exists s'.
Qed.
End admitted.

(** ** Every request *)

Section request.
Context (t : Moment) (e : Wire.Envelope) (ss : sessions) (sh : Shared M L).

#[local] Notation name := (Wire.session_id e).
#[local] Notation id := (Wire.request_id e).

(** What an admitted request does *)
Definition admitted (a : Wire.Envelope) (st : Sessions (M:=M) (L:=L)) : Prop :=
  match Wire.payload e with
  | Some (Wire.PStartSession _) => started name id ss a st
  | Some Wire.PEndSession =>
      answers_request name id a ∧ st.1 = delete name ss ∧
      ∀ r, Wire.payload a = Some (Wire.PStateResponse r) → answer_ok r
  | p =>
      ∃ s, ss !! name = Some s ∧
        replaced name id (delete name ss)
          (followed (∀ page, p ≠ Some (Wire.PPageCandidates page)) (set_last_request_id id s)) a st
  end.

Definition refused (code : Wire.Code) (a : Wire.Envelope) (st : Sessions (M:=M) (L:=L)) : Prop :=
  answers_request name id a ∧ st = (ss, sh) ∧ ∃ message, Wire.payload a = Some (Wire.PProtocolError code message).

Lemma refused_error code message : refused code (error_envelope id name code message) (ss, sh).
Proof. split_and!; [done|done|by eexists]. Qed.

Lemma find_known known st (Q : Prop) :
  (known = ss !! name → st = (ss, sh) → Q) → find_session name (ss, sh) = (st, Return known) → Q.
Proof. by intros HQ [= <- <-]; apply HQ. Qed.

Lemma followed_iff (P P' : Prop) s s' p : (P' ↔ P) → followed P s s' p → followed P' s s' p.
Proof. intros HP (Hs & Hk & Hr). split_and!; [done|done|]. intros code message Hp. specialize (Hr code message Hp). tauto. Qed.

Lemma replaced_weaken (ss' : sessions) (Q Q' : EngineSession → option Wire.Payload → Prop) a st :
  (∀ s p, Q s p → Q' s p) → replaced name id ss' Q a st → replaced name id ss' Q' a st.
Proof. intros HQ (Ha & s & Hs & Hst). split; [done|]. exists s. split; [by apply HQ|done]. Qed.

Lemma hpost_weaken {A} (st : Sessions (M:=M) (L:=L)) (m : action _ Empty_set A) (Q Q' : A → _ → Prop) :
  (∀ a st', Q a st' → Q' a st') → hpost st m Q → hpost st m Q'.
Proof. intros HQ Hm st' a Hrun. by apply HQ, Hm. Qed.

Lemma session_request_cases request :
  Wire.payload e = Some request →
  match request with
  | Wire.PStartSession _ | Wire.PStateResponse _ | Wire.PTypoCorrectionResponse _ | Wire.PProtocolError _ _ => False
  | _ => True
  end →
  hpost (ss, sh) (handle_session_request (M:=M) (L:=L) to_uppercase to_lowercase displays config t id name request)
    (λ a st, match refusal (directory_of ss) e with Some code => refused code a st | None => admitted a st end).
Proof.
  intros Hp Hrequest. unfold handle_session_request.
  eapply (hpost_bind _ _ _ (λ known st, known = ss !! name ∧ st = (ss, sh))); [by intros ? ? [= <- <-]|].
  intros known st [-> ->].
  assert (refusal (directory_of ss) e =
    match ss !! name with
    | None => Some Wire.UnknownSession
    | Some s => if (id <=? last_request_id s)%N then Some Wire.OutOfOrderRequest else None
    end) as ->.
  { unfold refusal, directory_of. rewrite Hp, lookup_fmap. by destruct request, (ss !! name). }
  destruct (ss !! name) as [s|] eqn:Hs; [|apply hpost_ret, refused_error].
  destruct (_ <=? _)%N; [apply hpost_ret, refused_error|].
  eapply (hpost_bind _ _ _ (λ _ st, st = (delete name ss, sh))); [by intros ? ? [= <- <-]|]. intros [] _ ->.
  cbv zeta. unfold admitted. rewrite Hp.
  destruct request; try done; try apply end_answers;
    eapply hpost_weaken; try first [apply response_replaced|apply typo_replaced|apply page_replaced];
    intros a st Hst; (exists s; split; [done|]); (eapply replaced_weaken; [|exact Hst]);
    intros s' p; apply followed_iff; try by split.
  split; [intros Hpage; by eapply Hpage|done].
Qed.

Lemma handle_cases :
  hpost (ss, sh) (handle t e)
    (λ a st, match refusal (directory_of ss) e with Some code => refused code a st | None => admitted a st end).
Proof.
  unfold EngineHandle.handle. cbv zeta. destruct (Wire.payload e) as [request|] eqn:Hp.
  - destruct request; try (by eapply session_request_cases); unfold refusal; rewrite Hp;
      try apply hpost_ret, refused_error.
    unfold directory_of. rewrite lookup_fmap. destruct (ss !! name) as [s|] eqn:Hs; cbn.
    + destruct (_ <=? _)%N eqn:Horder.
      * unfold start_session. eapply (hpost_bind _ _ _ (λ known st, known = Some s ∧ st = (ss, sh))).
        { intros ? ? [= <- <-]. by rewrite Hs. }
        intros known st [-> ->]. rewrite Horder. apply hpost_ret, refused_error.
      * unfold admitted. rewrite Hp. apply start_answers. by rewrite Hs.
    + unfold admitted. rewrite Hp. apply start_answers. by rewrite Hs.
  - unfold refusal. rewrite Hp. apply hpost_ret, refused_error.
Qed.
End request.

Lemma answers_of e a : answers_request (Wire.session_id e) (Wire.request_id e) a → answers e a.
Proof. done. Qed.

Lemma replaced_directory e ss P s0 a (st : Sessions (M:=M) (L:=L)) :
  last_request_id s0 = Wire.request_id e →
  replaced (Wire.session_id e) (Wire.request_id e) (delete (Wire.session_id e) ss) (followed P s0) a st →
  answers e a ∧ directory_of st.1 = <[Wire.session_id e := Wire.request_id e]> (directory_of ss) ∧
  ∀ name, name ≠ Wire.session_id e → st.1 !! name = ss !! name.
Proof.
  intros Hid (Ha & s & (Hs & _) & ->). split; [by apply answers_of|]. split.
  - injection Hs as _ Hlast _ _ _ _ _. unfold directory_of. by rewrite insert_delete_eq, fmap_insert, Hlast, Hid.
  - intros name Hname. by rewrite insert_delete_eq, lookup_insert_ne.
Qed.

(** C5. A connection answers every request it does not panic at, with an answer of its own
    and the number and the name of the request, and follows its directory of sessions: a
    request without a payload, one of an unknown session and one whose number is not
    greater than the last one are refused with their codes and change nothing at all;
    a start that succeeds puts the session in the directory and one that fails does not;
    the end of a session takes it out whether or not its learning could be written; any other request
    advances the number of its session even when it fails. No request has a part in
    the other sessions of the connection. *)
Theorem connection_follows_directory t e ss (sh : Shared M L) ss' sh' a :
  handle t e (ss, sh) = ((ss', sh'), Return a) →
  answers e a ∧
  match refusal (directory_of ss) e with
  | Some code => ss' = ss ∧ sh' = sh ∧ ∃ message, Wire.payload a = Some (Wire.PProtocolError code message)
  | None => True
  end ∧
  directory_of ss' = directory_after (directory_of ss) e a ∧
  ∀ name, name ≠ Wire.session_id e → ss' !! name = ss !! name.
Proof.
  intros Hrun. pose proof (handle_cases t e ss sh _ _ Hrun) as Hcase. unfold directory_after.
  destruct (refusal _ e) as [code|].
  { destruct Hcase as (Ha & [= -> ->] & Herror). by split_and!. }
  unfold admitted in Hcase. destruct (Wire.payload e) as [[]|] eqn:Hp;
    try (destruct Hcase as (s & _ & Hcase); by apply replaced_directory in Hcase as (? & ? & ?)).
  - destruct Hcase as [Ha Hstart]. split; [by apply answers_of|]. split; [done|].
    destruct (Wire.payload a) as [[]|]; try (by cbn in Hstart; rewrite Hstart).
    destruct Hstart as (_ & s & Hid & _ & Hss). cbn in Hss. subst ss'. split.
    + unfold directory_of. by rewrite fmap_insert, Hid.
    + intros name Hname. by rewrite lookup_insert_ne.
  - destruct Hcase as (Ha & Hss & _). cbn in Hss. subst ss'. split; [by apply answers_of|]. split; [done|]. split.
    + unfold directory_of. by rewrite fmap_delete.
    + intros name Hname. by rewrite lookup_delete_ne.
Qed.

(** ** What is shown *)

(** The sessions of a connection, after requests at any times, and whatever the other
    connections did to what they share *)
Inductive served : sessions → Prop :=
  | served_none : served ∅
  | served_request t e ss (sh : Shared M L) ss' sh' a :
      served ss → handle t e (ss, sh) = ((ss', sh'), Return a) → served ss'.

Lemma connection_shown t e ss (sh : Shared M L) ss' sh' a :
  map_Forall (λ _, shown_ok) ss → handle t e (ss, sh) = ((ss', sh'), Return a) →
  map_Forall (λ _, shown_ok) ss' ∧ ∀ r, Wire.payload a = Some (Wire.PStateResponse r) → answer_ok r.
Proof.
  intros Hss Hrun. pose proof (handle_cases t e ss sh _ _ Hrun) as Hcase.
  destruct (refusal _ e) as [code|].
  { destruct Hcase as (_ & [= -> _] & message & ->). by split. }
  unfold admitted in Hcase.
  assert (∀ P s, ss !! Wire.session_id e = Some s →
    replaced (Wire.session_id e) (Wire.request_id e) (delete (Wire.session_id e) ss)
      (followed P (set_last_request_id (Wire.request_id e) s)) a (ss', sh') →
    map_Forall (λ _, shown_ok) ss' ∧ ∀ r, Wire.payload a = Some (Wire.PStateResponse r) → answer_ok r) as Hreplaced.
  { intros P s Hs (_ & s' & (_ & Hkept & _) & Hss'). cbn in Hss'. subst ss'.
    assert (shown_ok (set_last_request_id (Wire.request_id e) s)) as Hs0.
    { apply (same_shown_ok s); [same|by eapply Hss]. }
    destruct (Hkept Hs0) as [Hs' Ha]. split; [|done]. apply map_Forall_insert_2; [done|].
    by apply map_Forall_delete. }
  destruct (Wire.payload e) as [[]|]; try (destruct Hcase as (s & Hs & Hcase); by eapply Hreplaced).
  - destruct Hcase as [_ Hstart]. destruct (Wire.payload a) as [[]|]; try (by cbn in Hstart; rewrite Hstart).
    destruct Hstart as (Ha & s & _ & Hs & Hss'). cbn in Hss'. subst ss'.
    split; [by apply map_Forall_insert_2|by intros ? [= <-]].
  - destruct Hcase as (_ & Hss' & Ha). cbn in Hss'. subst ss'. split; [by apply map_Forall_delete|done].
Qed.

(** C2. Whatever the requests of a connection, in whatever order, and whatever its models,
    dictionaries and memory do, every session keeps its presentation consistent, and
    every state the client is sent can be shown: each candidate has a remainder and an
    annotation, at most one of the candidates sent is selected, the candidates carry
    each index exactly once however they are arranged, the cursor is at the end of the
    preedit and the highlighted part lies before it, and an answer without input has
    neither a preedit nor candidates. *)
Theorem answers_well_formed ss :
  served ss →
  map_Forall (λ _, shown_ok) ss ∧
  ∀ t e (sh : Shared M L) st a r,
    handle t e (ss, sh) = (st, Return a) → Wire.payload a = Some (Wire.PStateResponse r) → answer_ok r.
Proof.
  intros Hserved. assert (map_Forall (λ _, shown_ok) ss) as Hss.
  { induction Hserved as [|t e ss sh ss' sh' a _ IH Hrun]; [done|]. by eapply connection_shown. }
  split; [done|]. intros t e sh [ss' sh'] a r Hrun Ha. by eapply connection_shown.
Qed.

(** C18. What a request that fails leaves: when an admitted request is answered with an
    error, no other session is touched, and a start that fails leaves the sessions as they
    are (no session is made, and one of the same name goes on), the end of a session takes
    it away all the same, and a page that is not there leaves its session as it is but for
    the number of the request. After any other request the session is as new whatever
    state the failure left: the settings stay, with the number of the request, and it has
    no text, candidate or pending correction. *)
Theorem failed_request_resets t e ss (sh : Shared M L) ss' sh' a code message :
  handle t e (ss, sh) = ((ss', sh'), Return a) →
  refusal (directory_of ss) e = None → Wire.payload a = Some (Wire.PProtocolError code message) →
  match Wire.payload e with
  | Some (Wire.PStartSession _) => ss' = ss
  | Some Wire.PEndSession => ss' = delete (Wire.session_id e) ss
  | Some (Wire.PPageCandidates _) =>
      ∃ s, ss !! Wire.session_id e = Some s ∧
        ss' = <[Wire.session_id e := set_last_request_id (Wire.request_id e) s]> ss
  | _ =>
      ∃ s s', ss !! Wire.session_id e = Some s ∧ ss' = <[Wire.session_id e := s']> ss ∧
        settings_of s' = settings_of (set_last_request_id (Wire.request_id e) s) ∧
        input_mode s' = ModeNone ∧ shown_surface s' = [] ∧ display_candidates s' = [] ∧ typo_corrections s' = [] ∧
        unicode_input s' = []
  end.
Proof.
  intros Hrun Hadmitted Ha.
  pose proof (handle_cases t e ss sh _ _ Hrun) as Hcase. rewrite Hadmitted in Hcase. unfold admitted in Hcase.
  assert (Hreplaced : ∀ P s, ss !! Wire.session_id e = Some s →
    replaced (Wire.session_id e) (Wire.request_id e) (delete (Wire.session_id e) ss)
      (followed P (set_last_request_id (Wire.request_id e) s)) a (ss', sh') →
    ∃ s', ss' = <[Wire.session_id e := s']> ss ∧ settings_of s' = settings_of (set_last_request_id (Wire.request_id e) s) ∧
      (P → ∃ s1, s' = reset_to s1) ∧ (¬ P → s' = set_last_request_id (Wire.request_id e) s)).
  { intros P s _ (_ & s' & (Hsettings & _ & Herror) & Hss'). cbn in Hss'. rewrite insert_delete_eq in Hss'.
    exists s'. split_and!; [done|done|apply (Herror _ _ Ha)..]. }
  destruct (Wire.payload e) as [[]|] eqn:Hp;
    try (by unfold refusal in Hadmitted; rewrite Hp in Hadmitted);
    try (destruct Hcase as (s & Hs & Hcase);
         destruct (Hreplaced _ s Hs Hcase) as (s' & -> & Hsettings & Hreset & Hkept);
         first [destruct Hreset as [s1 ->]; [by intros page|]; by exists s, (reset_to s1)
               |rewrite Hkept by (intros Hpage; by eapply Hpage); by exists s]).
  - destruct Hcase as [_ Hcase]. by rewrite Ha in Hcase.
  - by destruct Hcase as (_ & Hss' & _).
Qed.
End connection.
