(* ===== verification/EngineExamples.v ===== *)
(** * The theorems on the engine at work

    Every theorem on the engine at a concrete session: the toy dictionary, a memory that
    has learned a word, and the keys of a client. *)

From S2P Require Import Frame Prelude Unicode Collections F32 Constraint InputTable DefaultTables Composing Dictionary LatticeIndex Lattice LatticeSpec Prediction TextUtil Template ComposingSpec LearningRecords LearningFiles LearningMemory LearningMemorySpec LearningProperties Action Zenz ZenzEvaluator NGram LmTypo DictionaryStore Foreign SessionState Session SessionSpec SessionInvariant SessionProperties SessionExamples ZenzConvert ZenzConvertSpec Protocol EngineInput EngineState Engine EngineKeys EngineSpec EngineHandle EngineInvariant EngineAnswers EngineSessions.

(** ** Requests of a client *)

#[local] Existing Instance scalar_clusters.
#[local] Existing Instance map_order.
#[local] Existing Instance map_order_laws.
#[local] Existing Instance toy_dictionary.
#[local] Existing Instance list_dictionary_laws.
#[local] Existing Instance still_clock.
#[local] Existing Instance no_locales.
#[local] Existing Instance lowest.
#[local] Existing Instance review_libm.
#[local] Existing Instance reviewer.

(** No tries *)
Definition no_tries : Marisa := {| Trie := (); load_trie := λ _, None; predictive_search := λ _ _, None |}.
#[local] Existing Instance no_tries.

Definition toy_displays : Displays () :=
  {| display_dictionary := λ _, u "dictionary"; display_user_dictionary := λ _, u "user dictionary";
     display_learning := λ _, u "learning" |}.

Definition toy_config (live : bool) : EngineConfig := {|
  engine_tables := default_registry; zenz_version := default_version; zenz_rich_candidates := false;
  zenz_inference_limit := 5; zenz_predictive_input := false; zenz_personalization := None;
  lm_typo_enabled := false; lm_typo_config := default_typo_config; engine_foreign_provider := None;
  engine_learning_memory := Some 0; engine_learning_available := true; engine_learning_writable := true;
  engine_user_dictionary := []; user_dictionary_directory := None; engine_request_options := default_options;
  live_conversion := live; default_input_style := RomanToKana; default_keyboard_language := LanguageJapanese;
  input_behavior := default_behavior;
|}.

Definition toy_shared (model : option ()) : Shared () () :=
  {| world := toy_world; evaluator := default_evaluator; zenz_model := model; lm_typo_ngram := None |}.

Definition toy_handle (live : bool) :=
  handle (M:=()) (L:=()) id id toy_displays (toy_config live) toy_moment.

(** Requests of one session, numbered from one *)
Definition of_client (id : N) (p : Wire.Payload) : Wire.Envelope :=
  {| Wire.protocol_version := 1; Wire.request_id := id; Wire.session_id := u "client"; Wire.payload := Some p |}.

Definition start : Wire.Payload := Wire.PStartSession
  {| Wire.start_input_style := 0; Wire.start_surrounding := None; Wire.start_keyboard_language := 0;
     Wire.custom_input_table := [] |}.
Definition key (action : Z) (text : ustring) (shift : bool) : Wire.Payload := Wire.PKeyEvent
  {| Wire.action := action; Wire.shift := shift; Wire.key_text := text; Wire.key_surrounding := None;
     Wire.key_input := text; Wire.intention := []; Wire.option_key := false |}.
Definition typed (s : string) : list Wire.Payload := (λ c, key 1 [c] false) <$> u s.

Definition numbered (ps : list Wire.Payload) : list Wire.Envelope :=
  zip_with (λ i p, of_client (N.of_nat i) p) (seq 1 (length ps)) ps.

Definition run (live : bool) (model : option ()) (ps : list Wire.Payload) : list (outcome Empty_set Wire.Envelope) :=
  run_actions (toy_handle live) (numbered ps) (∅, toy_shared model).

(** The preedit, the commit and the candidates of an answer *)
Definition shown (o : outcome Empty_set Wire.Envelope) : option (ustring * ustring * list ustring) :=
  match o with
  | Return e =>
      match Wire.payload e with
      | Some (Wire.PStateResponse r) =>
          Some (Wire.preedit r, Wire.commit r, Wire.cand_text <$> Wire.resp_candidates r)
      | _ => None
      end
  | _ => None
  end.
Definition last_shown (live : bool) (model : option ()) (ps : list Wire.Payload) : option (ustring * ustring * list ustring) :=
  last (shown <$> run live model (start :: ps)) ≫= id.

(** A session with kaki typed and its first candidate shown *)
Definition toy_session : EngineSession :=
  set_live_candidate (head (candidates (after typing_kaki).1)) (set_input_mode ModeComposing
    (new_session (toy_config true) (after typing_kaki).1 1 RomanToKana
       {| left := None; right := None |} LanguageJapanese)).
Definition toy_sharing : Shared () () := with_world (after typing_kaki).2 (toy_shared None).

Definition toy_event (action : Z) (text : ustring) : Wire.KeyEvent :=
  {| Wire.action := action; Wire.shift := false; Wire.key_text := text; Wire.key_surrounding := None;
     Wire.key_input := text; Wire.intention := []; Wire.option_key := false |}.
Definition escapes : list Wire.KeyEvent := replicate 3 (toy_event 5 []).
Definition toy_press := press (M:=()) (N:=()) id id toy_displays (toy_config true) toy_moment.

(** ** Keys *)

(** The correction of a text to another *)
Lemma correction_applied_witness :
  ∃ p s', suffix_edit_prediction (shown_surface toy_session) (u "かね") (u "金") = Some p ∧ delete_count p = 1 ∧
    apply_edit (toy_config true) p (toy_session, toy_sharing) = ((s', toy_sharing), Return ()) ∧
    shown_surface s' = u "かね".
Proof.
  pose proof (correction_applied (toy_config true) default_registry_ok toy_session toy_sharing (u "金") (u "かね")
    typing_text_ok) as Happlied.
  cbv zeta in Happlied.
  destruct (suffix_edit_prediction _ _ _) as [p|] eqn:Hp; [|exfalso; vm_compute in Hp; discriminate Hp].
  destruct Happlied as (_ & s' & Hrun & Hs & _); [by vm_compute|by vm_compute|].
  exists p, s'. split_and!; [done| |exact Hrun|exact Hs]. vm_compute in Hp. by injection Hp as <-.
Defined.

Lemma escape_leaves_witness :
  input_mode toy_session ≠ ModeNone ∧
  ∃ s' rs, toy_press escapes (toy_session, toy_sharing) = ((s', toy_sharing), Return <$> rs) ∧
    input_mode s' = ModeNone ∧ shown_surface s' = [].
Proof.
  split; [done|].
  destruct (escape_leaves (M:=()) (N:=()) id id toy_displays (toy_config true) toy_moment toy_session toy_sharing escapes)
    as (s' & rs & Hpress & Hmode & _ & Hnone); [by repeat constructor|by vm_compute|].
  exists s', rs. split_and!; [exact Hpress|exact Hmode|by apply Hnone].
Defined.

(** U+67FF, typed in both cases with a space between *)
Definition digits_67ff : list Wire.KeyEvent := [toy_event 1 (u "67"); toy_event 1 (u " F"); toy_event 1 (u "f")].

Lemma unicode_input_commits_witness :
  ∃ s' rs r, toy_press (digits_67ff ++ [toy_event 4 []]) (set_input_mode ModeUnicode toy_session, toy_sharing)
      = ((s', toy_sharing), (Return <$> rs) ++ [Return r]) ∧
    Wire.commit r = u "柿" ∧ input_mode s' = ModeNone.
Proof.
  destruct (unicode_input_commits (M:=()) (N:=()) id id toy_displays (toy_config true) toy_moment
    (set_input_mode ModeUnicode toy_session) toy_sharing digits_67ff (toy_event 4 []))
    as (s' & rs & r & Hpress & _ & Hmode & _ & Hcommit & _);
    [done|done|by repeat constructor|by left|].
  exists s', rs, r. split_and!; [exact Hpress| |exact Hmode].
  transitivity [26623%N]; [apply (Hcommit 4); vm_compute; [reflexivity|lia|reflexivity|reflexivity]|vm_compute; reflexivity].
Defined.

Lemma toy_session_sound : session_inv default_registry (conversion toy_session, world toy_sharing).
Proof.
  change (session_inv default_registry ((after typing_kaki).1, (after typing_kaki).2)).
  rewrite <- surjective_pairing. apply (reachable_inv (E:=()) id);
    [exact default_registry_ok|exact default_registry_steady|exact typing_reachable].
Qed.

Lemma enter_commits_shown_witness :
  ∃ s' w' r c, handle_key id id toy_displays (toy_config true) toy_moment (toy_event 4 []) (toy_session, toy_sharing)
      = ((s', with_world w' toy_sharing), Return r) ∧
    Wire.commit r = u "柿" ∧ shown_surface s' = [] ∧
    learned_world toy_moment c (conversion toy_session) (world toy_sharing) = Some w' ∧ text c = u "柿".
Proof.
  pose proof (enter_commits_shown id id toy_displays (toy_config true) toy_moment (toy_event 4 []) toy_session toy_sharing
    default_registry_ok) as Henter.
  cbv zeta in Henter. cbn [input_mode toy_session] in Henter.
  destruct Henter as (s' & w' & r & Hrun & Hcommit & _ & Hs & _ & Hlearned).
  - by vm_compute.
  - exact toy_session_sound.
  - by vm_compute.
  - intros c Hc. vm_compute in Hc. injection Hc as <-. by vm_compute.
  - assert (Hpreedit : (preedit_of toy_session).1 = u "柿") by by vm_compute.
    destruct (marked_candidate _ _) as [c|] eqn:Hc; [|exfalso; vm_compute in Hc; discriminate Hc].
    destruct Hlearned as [Ht Hw]. rewrite Hpreedit in Hcommit, Ht.
    exists s', w', r, c. by split_and!.
Defined.

(** ** Connections *)

Definition toy_connected (live : bool) (es : list Wire.Envelope) : Sessions (M:=()) (L:=()) :=
  foldl (λ st e, (toy_handle live e st).1) (∅, toy_shared None) es.
Definition kaki_typed : list Wire.Envelope := numbered (start :: typed "kaki").
Definition is_return {E A} (o : outcome E A) : bool := match o with Return _ => true | _ => false end.

Lemma connected_served live es :
  forallb is_return (run_actions (toy_handle live) es (∅, toy_shared None)) = true →
  served (M:=()) (L:=()) id id toy_displays (toy_config live) (toy_connected live es).1.
Proof.
  unfold toy_connected. generalize (toy_shared None). intros sh.
  assert (Hserved : served (M:=()) (L:=()) id id toy_displays (toy_config live) ∅) by constructor. revert Hserved.
  generalize (∅ : gmap ustring EngineSession). revert sh. induction es as [|e es IH]; intros sh ss Hserved; [done|].
  cbn [foldl run_actions]. destruct (toy_handle live e (ss, sh)) as [[ss' sh'] r] eqn:Hrun. cbn [fst].
  cbn [forallb]. intros [Hr Hes]%andb_prop. apply IH; [|done]. destruct r as [a| |]; [|done..].
  by eapply served_request.
Qed.

(** A request numbered like the last one changes nothing. *)
Lemma connection_follows_directory_witness :
  ∃ a message, toy_handle true (of_client 5 (key 4 [] false)) (toy_connected true kaki_typed)
      = (toy_connected true kaki_typed, Return a) ∧
    Wire.payload a = Some (Wire.PProtocolError Wire.OutOfOrderRequest message) ∧ Wire.request_id a = 5%N.
Proof.
  destruct (toy_handle true (of_client 5 (key 4 [] false)) (toy_connected true kaki_typed))
    as [[ss' sh'] [a|e|]] eqn:Hrun; [|destruct e|exfalso; vm_compute in Hrun; discriminate Hrun].
  rewrite (surjective_pairing (toy_connected true kaki_typed)) in Hrun.
  destruct (connection_follows_directory id id toy_displays (toy_config true) toy_moment _ _ _ ss' sh' a Hrun)
    as ((_ & Hid & _) & Hrefused & _).
  assert (Hrefusal : refusal (directory_of (toy_connected true kaki_typed).1) (of_client 5 (key 4 [] false))
    = Some Wire.OutOfOrderRequest) by (vm_compute; reflexivity).
  rewrite Hrefusal in Hrefused. destruct Hrefused as (-> & -> & message & Ha).
  exists a, message. rewrite <- surjective_pairing. split; [reflexivity|split; [exact Ha|exact Hid]].
Defined.

(** The state an answer carries *)
Definition response_of (o : outcome Empty_set Wire.Envelope) : option Wire.StateResponse :=
  match o with
  | Return a => match Wire.payload a with Some (Wire.PStateResponse r) => Some r | _ => None end
  | _ => None
  end.
Definition space_6 := toy_handle true (of_client 6 (key 6 [] false)) (toy_connected true kaki_typed).

(** The candidates of what was typed *)
Lemma answers_well_formed_witness :
  ∃ r, response_of space_6.2 = Some r ∧ answer_ok r ∧ Wire.preedit r = u "蚊き" ∧
    Wire.cand_text <$> take 3 (Wire.resp_candidates r) = [u "蚊"; u "か"; u "カ"].
Proof.
  destruct (answers_well_formed (M:=()) (L:=()) id id toy_displays (toy_config true) (toy_connected true kaki_typed).1)
    as [_ Hanswers]; [apply connected_served; vm_compute; reflexivity|].
  assert (Hshown : (λ r, (Wire.preedit r, Wire.cand_text <$> take 3 (Wire.resp_candidates r))) <$> response_of space_6.2
    = Some (u "蚊き", [u "蚊"; u "か"; u "カ"])) by (vm_compute; reflexivity).
  destruct (response_of space_6.2) as [r|] eqn:Hr; [|discriminate Hshown]. injection Hshown as Hpreedit Hcandidates.
  exists r. split; [reflexivity|split; [|split; [exact Hpreedit|exact Hcandidates]]].
  destruct space_6 as [st [a|e|]] eqn:Hrun; [|discriminate Hr..]. unfold space_6 in Hrun.
  rewrite (surjective_pairing (toy_connected true kaki_typed)) in Hrun.
  apply (Hanswers _ _ _ _ _ _ Hrun). cbn in Hr. destruct (Wire.payload a) as [[]|]; congruence.
Defined.

(** A candidate that is not there *)
Definition missing_candidate := of_client 6 (Wire.PSelectCandidate 99).

Lemma failed_request_resets_witness :
  ∃ st a code message s', toy_handle true missing_candidate (toy_connected true kaki_typed) = (st, Return a) ∧
    Wire.payload a = Some (Wire.PProtocolError code message) ∧ st.1 !! u "client" = Some s' ∧
    last_request_id s' = 6%N ∧ shown_surface s' = [].
Proof.
  destruct (toy_handle true missing_candidate (toy_connected true kaki_typed)) as [[ss' sh'] [a|e|]] eqn:Hrun;
    [|destruct e|exfalso; vm_compute in Hrun; discriminate Hrun].
  assert (Herror : match (toy_handle true missing_candidate (toy_connected true kaki_typed)).2 with
    | Return a => match Wire.payload a with Some (Wire.PProtocolError _ _) => true | _ => false end
    | _ => false
    end = true) by (vm_compute; reflexivity).
  rewrite Hrun in Herror. cbn in Herror.
  destruct (Wire.payload a) as [p|] eqn:Ha; [|discriminate Herror].
  destruct p as [| | | | | | | | | | | | |code message]; try discriminate Herror.
  rewrite (surjective_pairing (toy_connected true kaki_typed)) in Hrun.
  destruct (failed_request_resets id id toy_displays (toy_config true) toy_moment missing_candidate
    _ _ ss' sh' a code message Hrun) as (s & s' & _ & Hss' & Hsettings & _ & Hshown & _);
    [vm_compute; reflexivity|exact Ha|].
  injection Hsettings as _ Hid _ _ _ _ _.
  exists (ss', sh'), a, code, message, s'. split; [reflexivity|split; [exact Ha|]].
  split; [|split; [exact Hid|exact Hshown]]. rewrite Hss'. apply lookup_insert_eq.
Defined.

(** Without live conversion, Space previews a candidate, a second Space selects among
    them, and Escape goes back to the preview: the same candidate is marked, but another
    one when Up was pressed in between. *)
Example up_moves_preview :
  let marked keys := (λ r, r.1.1) <$> last_shown false None (typed "kaki" ++ ((λ k, key k [] false) <$> keys)) in
  marked [6; 6; 5]%Z = Some (u "柿") ∧ marked [6; 6; 10; 5]%Z = Some (u "カ").
Proof. vm_compute. done. Qed.
