(* ===== verification/Config.v ===== *)
(** * The configuration of the daemon

    src/crates/daemon/src/config.rs: the settings with their defaults, and what a
    configuration must satisfy. The TOML parser, which fills in the defaults, is a
    parameter. *)

From S2P Require Import Prelude Unicode Utf8 F32 NGram DictionaryStore EngineInput.

Inductive LearningModeConfig := ConfigInputAndOutput | ConfigOnlyOutput | ConfigNothing.
Inductive KeyboardLanguageConfig := KeyboardNone | KeyboardJapanese | KeyboardEnglishUs | KeyboardGreek.
Inductive InputStyleConfig := StyleDirect | StyleRomanToKana | StyleAzik | StyleKanaJis | StyleKanaUs | StyleCustom.
Inductive PredictionConfig := PredictionAutomatic | PredictionManual | PredictionDisabled.
Inductive TypoCorrectionConfig := CorrectionEnabled | CorrectionAutomatic | CorrectionDisabled.

#[export] Instance LearningModeConfig_eq_dec : EqDecision LearningModeConfig.
Proof. solve_decision. Defined.
#[export] Instance InputStyleConfig_eq_dec : EqDecision InputStyleConfig.
Proof. solve_decision. Defined.

Definition EXPECTED_CONTEXT_SIZE : nat := 512.
Definition EXPECTED_BATCH_SIZE : nat := 512.
Definition EXPECTED_MICRO_BATCH_SIZE : nat := 64.

(** A path is its text. [custom_input_tables] is a map in the order of its keys. *)
Record ConversionConfig := {
  config_input_style : InputStyleConfig;
  config_custom_input_table : option ustring;
  config_keyboard_language : KeyboardLanguageConfig;
  config_n_best : nat;
  config_japanese_prediction : PredictionConfig;
  config_foreign_prediction : PredictionConfig;
  config_full_width_roman : bool;
  config_half_width_kana : bool;
  config_typography : bool;
  config_typo_correction : TypoCorrectionConfig;
  config_live_conversion : bool;
  config_type_backslash : bool;
  config_type_half_space : bool;
  config_option_direct : bool;
  config_punctuation_style : PunctuationStyleConfig;
  config_user_dictionary : option ustring;
  config_user_dictionary_directory : option ustring;
  custom_input_tables : list (ustring * ustring);
}.

Definition default_conversion : ConversionConfig := {|
  config_input_style := StyleRomanToKana; config_custom_input_table := None;
  config_keyboard_language := KeyboardJapanese; config_n_best := 10;
  config_japanese_prediction := PredictionDisabled; config_foreign_prediction := PredictionDisabled;
  config_full_width_roman := true; config_half_width_kana := false; config_typography := false;
  config_typo_correction := CorrectionAutomatic; config_live_conversion := true;
  config_type_backslash := false; config_type_half_space := false; config_option_direct := false;
  config_punctuation_style := KutenAndToten; config_user_dictionary := None;
  config_user_dictionary_directory := None; custom_input_tables := [];
|}.

Record LearningConfig := { config_mode : LearningModeConfig; config_max_count : N }.
Definition default_learning : LearningConfig := {| config_mode := ConfigInputAndOutput; config_max_count := 65536 |}.

Record PersonalizationConfig := { base_ngram : ustring; personal_ngram : ustring; config_alpha : f32 }.

Record ZenzConfig := {
  config_inference_limit : nat;
  config_rich_candidates : bool;
  config_predictive_input : bool;
  config_profile : option ustring;
  config_topic : option ustring;
  config_style : option ustring;
  config_preference : option ustring;
  config_alignment_separator : bool;
  personalization : option PersonalizationConfig;
}.
Definition default_zenz : ZenzConfig := {|
  config_inference_limit := 5; config_rich_candidates := false; config_predictive_input := false;
  config_profile := None; config_topic := None; config_style := None; config_preference := None;
  config_alignment_separator := true; personalization := None;
|}.

Record TypoNGramConfig := { ngram_prefix : ustring; ngram_tokenizer : ustring; ngram_n : nat; ngram_discount : f64 }.

Record LmTypoCorrectionConfig := {
  typo_enabled : bool;
  typo_ngram : option TypoNGramConfig;
  config_beam_size : nat;
  config_top_k : nat;
  config_typo_n_best : nat;
  config_max_steps : option nat;
  config_substitution_cost : f32;
  config_deletion_cost : f32;
  config_transposition_cost : f32;
}.
Definition default_lm_typo : LmTypoCorrectionConfig := {|
  typo_enabled := false; typo_ngram := None; config_beam_size := 16; config_top_k := 32;
  config_typo_n_best := 3; config_max_steps := None; config_substitution_cost := of_nat 2;
  config_deletion_cost := of_nat 3; config_transposition_cost := of_nat 2;
|}.

Record InferenceConfig := { context_size : nat; batch_size : nat; micro_batch_size : nat; flash_attention : bool }.
Definition default_inference : InferenceConfig := {|
  context_size := EXPECTED_CONTEXT_SIZE; batch_size := EXPECTED_BATCH_SIZE;
  micro_batch_size := EXPECTED_MICRO_BATCH_SIZE; flash_attention := true;
|}.

Record DaemonConfig := {
  config_conversion : ConversionConfig;
  config_learning : LearningConfig;
  config_zenz : ZenzConfig;
  config_lm_typo : LmTypoCorrectionConfig;
  config_inference : InferenceConfig;
}.
Definition default_config : DaemonConfig := {|
  config_conversion := default_conversion; config_learning := default_learning; config_zenz := default_zenz;
  config_lm_typo := default_lm_typo; config_inference := default_inference;
|}.

(** [toml::from_str] for this type *)
Class Toml := {
  TomlError : Type;
  parse_toml : ustring → result TomlError DaemonConfig;
}.

Inductive DaemonConfigError `{Toml} :=
  | ConfigRead (path : ustring)
  | ConfigParse (error : TomlError)
  | InvalidConversionCandidateCount
  | InvalidDefaultInputTable
  | InvalidPersonalizationAlpha
  | InvalidLmTypoConfiguration
  | UnsupportedInferenceProfile (profile : InferenceConfig).

(** ** Validation *)

Definition unsupported_profile (p : InferenceConfig) : bool :=
  bool_decide (context_size p ≠ EXPECTED_CONTEXT_SIZE) || bool_decide (batch_size p ≠ EXPECTED_BATCH_SIZE)
  || bool_decide (micro_batch_size p ≠ EXPECTED_MICRO_BATCH_SIZE) || negb (flash_attention p).

(** The table of a custom style is missing. *)
Definition missing_table (c : ConversionConfig) : bool :=
  bool_decide (config_input_style c = StyleCustom)
  && match config_custom_input_table c with
     | Some name => bool_decide (name ∉ (custom_input_tables c).*1)
     | None => true
     end.

(** [!cost.is_finite() || cost < 0.0] *)
Definition bad_number (x : f32) : bool := negb (is_finite x) || flt x zero.

(** [f64::is_finite] *)
Definition f64_is_finite (x : f64) : bool :=
  match x with SpecFloat.S754_zero _ | SpecFloat.S754_finite _ _ _ => true | _ => false end.

Definition bad_ngram (n : TypoNGramConfig) : bool :=
  bool_decide (ngram_n n < 2) || negb (f64_is_finite (ngram_discount n)).

Definition invalid_typo (c : LmTypoCorrectionConfig) : bool :=
  typo_enabled c
  && (bool_decide (config_beam_size c = 0) || bool_decide (config_top_k c = 0)
      || bool_decide (config_typo_n_best c = 0)
      || existsb bad_number [config_substitution_cost c; config_deletion_cost c; config_transposition_cost c]
      || match typo_ngram c with Some n => bad_ngram n | None => false end).

Section config.
Context `{Toml}.

Definition validate (c : DaemonConfig) : result DaemonConfigError () :=
  if unsupported_profile (config_inference c) then Err (UnsupportedInferenceProfile (config_inference c))
  else if bool_decide (config_n_best (config_conversion c) = 0) then Err InvalidConversionCandidateCount
  else if missing_table (config_conversion c) then Err InvalidDefaultInputTable
  else if (match personalization (config_zenz c) with Some p => bad_number (config_alpha p) | None => false end)
  then Err InvalidPersonalizationAlpha
  else if invalid_typo (config_lm_typo c) then Err InvalidLmTypoConfiguration
  else Ok ().

Definition parse_config (source : ustring) : result DaemonConfigError DaemonConfig :=
  match parse_toml source with
  | Err e => Err (ConfigParse e)
  | Ok c => match validate c with Ok _ => Ok c | Err e => Err e end
  end.

(** [load]; a text that is not UTF-8 is an error of the system. *)
Definition load_config `{Files} (path : ustring) : result DaemonConfigError DaemonConfig :=
  match DictionaryStore.read_to_string path with
  | Return source => parse_config source
  | _ => Err (ConfigRead path)
  end.
End config.
