(* ===== verification/EngineOpen.v ===== *)
(** * The engine of the daemon: opening

    src/crates/daemon/src/engine.rs: what the engine loads when it is opened, from the
    assets and the configuration, in the order of [open_with_config]; and the engine
    of a connection. The files of the system, JSON and the models' libraries are
    parameters. *)

From S2P Require Import Frame Prelude Unicode Collections F32 Louds Constraint InputTable DefaultTables CustomTsv Composing ComposingSpec Dictionary LatticeIndex Lattice Prediction TextUtil TextReplacer Template Action LearningRecords LearningFiles LearningMemory Zenz ZenzEvaluator NGram LmTypo DictionaryStore UserDictionary Foreign Llama SessionState Session ZenzConvert Protocol EngineInput EngineState Engine EngineHandle Config.

(** [Path::join] *)
Definition SLASH : char := 47%N.
Definition join (base name : ustring) : ustring :=
  match name with
  | c :: _ => if decide (c = SLASH) then name
              else match last base with
                   | Some d => if decide (d = SLASH) then base ++ name else base ++ [SLASH] ++ name
                   | None => name
                   end
  | [] => match last base with
          | Some d => if decide (d = SLASH) then base else base ++ [SLASH]
          | None => []
          end
  end.

Record UserDictionaryItem := { item_word : ustring; item_reading : ustring; item_hint : option ustring }.

(** [serde_json::from_str] for the items *)
Class Json := {
  JsonError : Type;
  parse_items : ustring → result JsonError (list UserDictionaryItem);
}.

Inductive ConversionResourceError `{Json} :=
  | ResourceRead (path : ustring)
  | ResourceUserDictionary (error : JsonError)
  | InvalidInputTable (name : ustring)
  | ResourceDictionary (error : DictionaryError).

(** [TextReplacerError]: the file, or a line of it *)
Inductive ReplacerOpenError := ReplacerIo (path : ustring) | ReplacerMalformed (error : TextReplacerError).

Inductive EngineOpenError `{Json} :=
  | OpenDictionary (error : DictionaryError)
  | OpenLlama (error : LlamaError)
  | OpenHunspell (error : HunspellError)
  | OpenLearning (error : LearningError)
  | OpenTextReplacer (error : ReplacerOpenError)
  | OpenConversionResource (error : ConversionResourceError)
  | OpenNGram (error : NGramError).

(** An outcome with its error converted *)
Definition convert_error {E E' A} (f : E → E') (m : outcome E A) : outcome E' A :=
  match m with Return a => Return a | Raise e => Raise (f e) | Panic => Panic end.

(** ** Entries and options *)

Definition DESKTOP_USER_DICTIONARY_VALUE : f32 := Eval vm_compute in fopp (of_nat 5).
Definition desktop_user_dictionary_entry (w r : ustring) : DictionaryEntry :=
  {| word := w; ruby := r; left_id := DESKTOP_PROPER_NOUN_CID; right_id := DESKTOP_PROPER_NOUN_CID;
     meaning_id := DESKTOP_GENERAL_MID; base_value := DESKTOP_USER_DICTIONARY_VALUE; adjustment := zero;
     metadata := USER_DICTIONARY |}.

Definition default_user_dictionary : list DictionaryEntry := Eval vm_compute in
  [desktop_user_dictionary_entry (u "azooKey") (u "アズーキー");
   desktop_user_dictionary_entry (u "beanKey") (u "ビーンキー")].

Definition VERSION : ustring := Eval vm_compute in u "beanKey 0.5.0".
Definition default_request_options : RequestOptions :=
  {| opt_n_best := opt_n_best default_options; japanese_prediction := japanese_prediction default_options;
     full_width_roman := full_width_roman default_options; half_width_kana := half_width_kana default_options;
     version_string := Some VERSION; typo_correction := typo_correction default_options;
     foreign_prediction := foreign_prediction default_options;
     keyboard_language := keyboard_language default_options; typography := typography default_options |}.

Definition prediction_mode (c : PredictionConfig) : PredictionMode :=
  match c with
  | PredictionAutomatic => PredictAutomatic
  | PredictionManual => PredictManual
  | PredictionDisabled => PredictDisabled
  end.
Definition typo_correction_mode (c : TypoCorrectionConfig) : TypoCorrectionMode :=
  match c with
  | CorrectionEnabled => TypoEnabled
  | CorrectionAutomatic => TypoAutomatic
  | CorrectionDisabled => TypoDisabled
  end.

(** The options of [apply_conversion_options] *)
Definition configured_options (c : ConversionConfig) : RequestOptions :=
  {| opt_n_best := config_n_best c; japanese_prediction := prediction_mode (config_japanese_prediction c);
     full_width_roman := config_full_width_roman c; half_width_kana := config_half_width_kana c;
     version_string := version_string default_request_options;
     typo_correction := typo_correction_mode (config_typo_correction c);
     foreign_prediction := prediction_mode (config_foreign_prediction c);
     keyboard_language := keyboard_language default_request_options; typography := config_typography c |}.

(** The style a configuration names; nothing when its table is not registered *)
Definition configured_style (tables : InputTableRegistry) (c : ConversionConfig) : option InputStyle :=
  match config_input_style c with
  | StyleDirect => Some Direct
  | StyleRomanToKana => Some RomanToKana
  | StyleAzik => Some (Mapped DefaultAzik)
  | StyleKanaJis => Some (Mapped DefaultKanaJis)
  | StyleKanaUs => Some (Mapped DefaultKanaUs)
  | StyleCustom =>
      name ← config_custom_input_table c;
      if registry_contains tables name then Some (Mapped (Named name)) else None
  end.

Definition configured_language (c : KeyboardLanguageConfig) : KeyboardLanguage :=
  match c with
  | KeyboardNone => LanguageNone
  | KeyboardJapanese => LanguageJapanese
  | KeyboardEnglishUs => LanguageEnglishUs
  | KeyboardGreek => LanguageGreek
  end.

Definition configured_behavior (c : ConversionConfig) : InputBehavior :=
  {| type_backslash := config_type_backslash c; type_half_space := config_type_half_space c;
     option_direct_full_width_input := config_option_direct c;
     punctuation_style := config_punctuation_style c |}.

Definition configured_version (c : ZenzConfig) : ZenzVersionConfig :=
  V3 {| profile := config_profile c; topic := config_topic c; style := config_style c;
        preference := config_preference c; left_context := left_context default_v3;
        right_context := right_context default_v3;
        max_left_context_length := max_left_context_length default_v3;
        max_right_context_length := max_right_context_length default_v3;
        enable_alignment_separator := config_alignment_separator c |}.

Definition configured_typo (c : LmTypoCorrectionConfig) : LmTypoConfig :=
  {| beam_size := config_beam_size c; top_k := config_top_k c; typo_n_best := config_typo_n_best c;
     max_steps := config_max_steps c; substitution_cost := config_substitution_cost c;
     deletion_cost := config_deletion_cost c; transposition_cost := config_transposition_cost c |}.

Definition configured_mode (c : LearningModeConfig) : LearningMode :=
  match c with
  | ConfigInputAndOutput => InputAndOutput
  | ConfigOnlyOutput => OnlyOutput
  | ConfigNothing => Nothing
  end.

(** The n-gram model that comes with the assets *)
Definition INPUT_NGRAM : ustring := Eval vm_compute in u "input-ngram/lm_".
Definition TOKENIZER : ustring := Eval vm_compute in u "tokenizer.json".
Definition THREE_QUARTERS : f64 := Eval vm_compute in ddiv (d_of_Z 3) (d_of_Z 4).
Definition bundled_ngram (assets : ustring) : TypoNGramConfig :=
  {| ngram_prefix := join assets INPUT_NGRAM; ngram_tokenizer := join assets TOKENIZER; ngram_n := 5;
     ngram_discount := THREE_QUARTERS |}.

(** The names of the assets *)
Definition DICTIONARY : ustring := Eval vm_compute in u "dictionary".
Definition MODEL_FILE : ustring := Eval vm_compute in u "model.gguf".
Definition EMOJI_FILE : ustring := Eval vm_compute in u "emoji-dictionary.txt".
Definition ENGLISH_BASE : ustring := Eval vm_compute in u "hunspell-english/en_US".
Definition GREEK_BASE : ustring := Eval vm_compute in u "hunspell-greek/el_GR".

(** [request_options.foreign_prediction = mode] *)
Definition with_foreign_mode (mode : PredictionMode) (o : RequestOptions) : RequestOptions :=
  {| opt_n_best := opt_n_best o; japanese_prediction := japanese_prediction o;
     full_width_roman := full_width_roman o; half_width_kana := half_width_kana o;
     version_string := version_string o; typo_correction := typo_correction o; foreign_prediction := mode;
     keyboard_language := keyboard_language o; typography := typography o |}.

(** The memory of the engine among those of the world *)
Definition MEMORY : nat := 0.

Section open.
Context `{Segmentation} `{Marisa} `{Tokenizers} `{Json} `{Spellbook} `{Encodings} `{LlamaCpp}.

(** ** The fields each step sets *)

Definition with_provider (provider : ForeignCompletionProvider) (c : EngineConfig) : EngineConfig :=
  {| engine_tables := engine_tables c; zenz_version := zenz_version c; zenz_rich_candidates :=
     zenz_rich_candidates c; zenz_inference_limit := zenz_inference_limit c;
     zenz_predictive_input := zenz_predictive_input c; zenz_personalization :=
     zenz_personalization c; lm_typo_enabled := lm_typo_enabled c; lm_typo_config :=
     lm_typo_config c; engine_foreign_provider := Some provider; engine_learning_memory :=
     engine_learning_memory c; engine_learning_available := engine_learning_available c;
     engine_learning_writable := engine_learning_writable c; engine_user_dictionary :=
     engine_user_dictionary c; user_dictionary_directory := user_dictionary_directory c;
     engine_request_options := engine_request_options c; live_conversion := live_conversion c;
     default_input_style := default_input_style c; default_keyboard_language :=
     default_keyboard_language c; input_behavior := input_behavior c |}.

Definition with_memory_of (mode : LearningModeConfig) (c : EngineConfig) : EngineConfig :=
  {| engine_tables := engine_tables c; zenz_version := zenz_version c; zenz_rich_candidates :=
     zenz_rich_candidates c; zenz_inference_limit := zenz_inference_limit c;
     zenz_predictive_input := zenz_predictive_input c; zenz_personalization :=
     zenz_personalization c; lm_typo_enabled := lm_typo_enabled c; lm_typo_config :=
     lm_typo_config c; engine_foreign_provider := engine_foreign_provider c;
     engine_learning_memory := Some MEMORY; engine_learning_available := bool_decide (mode ≠
     ConfigNothing); engine_learning_writable := bool_decide (mode = ConfigInputAndOutput);
     engine_user_dictionary := engine_user_dictionary c; user_dictionary_directory :=
     user_dictionary_directory c; engine_request_options := engine_request_options c;
     live_conversion := live_conversion c; default_input_style := default_input_style c;
     default_keyboard_language := default_keyboard_language c; input_behavior := input_behavior
     c |}.

Definition with_user_entries (es : list DictionaryEntry) (c : EngineConfig) : EngineConfig :=
  {| engine_tables := engine_tables c; zenz_version := zenz_version c; zenz_rich_candidates :=
     zenz_rich_candidates c; zenz_inference_limit := zenz_inference_limit c;
     zenz_predictive_input := zenz_predictive_input c; zenz_personalization :=
     zenz_personalization c; lm_typo_enabled := lm_typo_enabled c; lm_typo_config :=
     lm_typo_config c; engine_foreign_provider := engine_foreign_provider c;
     engine_learning_memory := engine_learning_memory c; engine_learning_available :=
     engine_learning_available c; engine_learning_writable := engine_learning_writable c;
     engine_user_dictionary := engine_user_dictionary c ++ es; user_dictionary_directory :=
     user_dictionary_directory c; engine_request_options := engine_request_options c;
     live_conversion := live_conversion c; default_input_style := default_input_style c;
     default_keyboard_language := default_keyboard_language c; input_behavior := input_behavior
     c |}.

Definition with_user_directory (files : Files) (c : EngineConfig) : EngineConfig :=
  {| engine_tables := engine_tables c; zenz_version := zenz_version c; zenz_rich_candidates :=
     zenz_rich_candidates c; zenz_inference_limit := zenz_inference_limit c;
     zenz_predictive_input := zenz_predictive_input c; zenz_personalization :=
     zenz_personalization c; lm_typo_enabled := lm_typo_enabled c; lm_typo_config :=
     lm_typo_config c; engine_foreign_provider := engine_foreign_provider c;
     engine_learning_memory := engine_learning_memory c; engine_learning_available :=
     engine_learning_available c; engine_learning_writable := engine_learning_writable c;
     engine_user_dictionary := engine_user_dictionary c; user_dictionary_directory := Some
     files; engine_request_options := engine_request_options c; live_conversion :=
     live_conversion c; default_input_style := default_input_style c; default_keyboard_language
     := default_keyboard_language c; input_behavior := input_behavior c |}.

Definition with_tables (tables : InputTableRegistry) (c : EngineConfig) : EngineConfig :=
  {| engine_tables := tables; zenz_version := zenz_version c; zenz_rich_candidates :=
     zenz_rich_candidates c; zenz_inference_limit := zenz_inference_limit c;
     zenz_predictive_input := zenz_predictive_input c; zenz_personalization :=
     zenz_personalization c; lm_typo_enabled := lm_typo_enabled c; lm_typo_config :=
     lm_typo_config c; engine_foreign_provider := engine_foreign_provider c;
     engine_learning_memory := engine_learning_memory c; engine_learning_available :=
     engine_learning_available c; engine_learning_writable := engine_learning_writable c;
     engine_user_dictionary := engine_user_dictionary c; user_dictionary_directory :=
     user_dictionary_directory c; engine_request_options := engine_request_options c;
     live_conversion := live_conversion c; default_input_style := default_input_style c;
     default_keyboard_language := default_keyboard_language c; input_behavior := input_behavior
     c |}.

Definition with_conversion (x : ConversionConfig) (style : InputStyle) (c : EngineConfig) : EngineConfig :=
  {| engine_tables := engine_tables c; zenz_version := zenz_version c; zenz_rich_candidates :=
     zenz_rich_candidates c; zenz_inference_limit := zenz_inference_limit c;
     zenz_predictive_input := zenz_predictive_input c; zenz_personalization :=
     zenz_personalization c; lm_typo_enabled := lm_typo_enabled c; lm_typo_config :=
     lm_typo_config c; engine_foreign_provider := engine_foreign_provider c;
     engine_learning_memory := engine_learning_memory c; engine_learning_available :=
     engine_learning_available c; engine_learning_writable := engine_learning_writable c;
     engine_user_dictionary := engine_user_dictionary c; user_dictionary_directory :=
     user_dictionary_directory c; engine_request_options := configured_options x;
     live_conversion := config_live_conversion x; default_input_style := style;
     default_keyboard_language := configured_language (config_keyboard_language x);
     input_behavior := configured_behavior x |}.

Definition with_zenz (x : ZenzConfig) (c : EngineConfig) : EngineConfig :=
  {| engine_tables := engine_tables c; zenz_version := configured_version x;
     zenz_rich_candidates := config_rich_candidates x; zenz_inference_limit :=
     config_inference_limit x; zenz_predictive_input := config_predictive_input x;
     zenz_personalization := zenz_personalization c; lm_typo_enabled := lm_typo_enabled c;
     lm_typo_config := lm_typo_config c; engine_foreign_provider := engine_foreign_provider c;
     engine_learning_memory := engine_learning_memory c; engine_learning_available :=
     engine_learning_available c; engine_learning_writable := engine_learning_writable c;
     engine_user_dictionary := engine_user_dictionary c; user_dictionary_directory :=
     user_dictionary_directory c; engine_request_options := engine_request_options c;
     live_conversion := live_conversion c; default_input_style := default_input_style c;
     default_keyboard_language := default_keyboard_language c; input_behavior := input_behavior
     c |}.

Definition with_personalization (models : option ZenzPersonalizationModels) (c : EngineConfig) : EngineConfig :=
  {| engine_tables := engine_tables c; zenz_version := zenz_version c; zenz_rich_candidates :=
     zenz_rich_candidates c; zenz_inference_limit := zenz_inference_limit c;
     zenz_predictive_input := zenz_predictive_input c; zenz_personalization := models;
     lm_typo_enabled := lm_typo_enabled c; lm_typo_config := lm_typo_config c;
     engine_foreign_provider := engine_foreign_provider c; engine_learning_memory :=
     engine_learning_memory c; engine_learning_available := engine_learning_available c;
     engine_learning_writable := engine_learning_writable c; engine_user_dictionary :=
     engine_user_dictionary c; user_dictionary_directory := user_dictionary_directory c;
     engine_request_options := engine_request_options c; live_conversion := live_conversion c;
     default_input_style := default_input_style c; default_keyboard_language :=
     default_keyboard_language c; input_behavior := input_behavior c |}.

Definition with_lm_typo (x : LmTypoCorrectionConfig) (c : EngineConfig) : EngineConfig :=
  {| engine_tables := engine_tables c; zenz_version := zenz_version c; zenz_rich_candidates :=
     zenz_rich_candidates c; zenz_inference_limit := zenz_inference_limit c;
     zenz_predictive_input := zenz_predictive_input c; zenz_personalization :=
     zenz_personalization c; lm_typo_enabled := typo_enabled x; lm_typo_config :=
     configured_typo x; engine_foreign_provider := engine_foreign_provider c;
     engine_learning_memory := engine_learning_memory c; engine_learning_available :=
     engine_learning_available c; engine_learning_writable := engine_learning_writable c;
     engine_user_dictionary := engine_user_dictionary c; user_dictionary_directory :=
     user_dictionary_directory c; engine_request_options := engine_request_options c;
     live_conversion := live_conversion c; default_input_style := default_input_style c;
     default_keyboard_language := default_keyboard_language c; input_behavior := input_behavior
     c |}.

Definition with_foreign_prediction (mode : PredictionMode) (c : EngineConfig) : EngineConfig :=
  {| engine_tables := engine_tables c; zenz_version := zenz_version c; zenz_rich_candidates :=
     zenz_rich_candidates c; zenz_inference_limit := zenz_inference_limit c;
     zenz_predictive_input := zenz_predictive_input c; zenz_personalization :=
     zenz_personalization c; lm_typo_enabled := lm_typo_enabled c; lm_typo_config :=
     lm_typo_config c; engine_foreign_provider := engine_foreign_provider c;
     engine_learning_memory := engine_learning_memory c; engine_learning_available :=
     engine_learning_available c; engine_learning_writable := engine_learning_writable c;
     engine_user_dictionary := engine_user_dictionary c; user_dictionary_directory :=
     user_dictionary_directory c; engine_request_options := with_foreign_mode mode
     (engine_request_options c); live_conversion := live_conversion c; default_input_style :=
     default_input_style c; default_keyboard_language := default_keyboard_language c;
     input_behavior := input_behavior c |}.

(** ** Steps *)

(** What opening builds: the settings, the memory, the models and the replacer *)
Record Opening := {
  settings : EngineConfig;
  opened_memory : option LearningState;
  opened_zenz : option LlamaContext;
  opened_ngram : option NGramLanguageModel;
  opened_replacer : option TextReplacer;
}.

Definition configure (f : EngineConfig → EngineConfig) (o : Opening) : Opening :=
  {| settings := f (settings o); opened_memory := opened_memory o; opened_zenz := opened_zenz o;
     opened_ngram := opened_ngram o; opened_replacer := opened_replacer o |}.

(** [Engine::open], after the dictionary *)
Definition default_engine : EngineConfig := {|
  engine_tables := registry_default; zenz_version := default_version; zenz_rich_candidates := false;
  zenz_inference_limit := DEFAULT_INFERENCE_LIMIT; zenz_predictive_input := false;
  zenz_personalization := None; lm_typo_enabled := false; lm_typo_config := default_typo_config;
  engine_foreign_provider := None; engine_learning_memory := None; engine_learning_available := false;
  engine_learning_writable := false; engine_user_dictionary := default_user_dictionary;
  user_dictionary_directory := None; engine_request_options := default_request_options;
  live_conversion := false; default_input_style := RomanToKana;
  default_keyboard_language := LanguageJapanese; input_behavior := default_behavior;
|}.
Definition open_engine : Opening :=
  {| settings := default_engine; opened_memory := None; opened_zenz := None; opened_ngram := None;
     opened_replacer := None |}.

(** The files of the system by absolute paths; those of a directory by their names *)
Context (files : Files).
Definition directory_at (path : ustring) : Files := λ name, files (join path name).

Definition open_with_llama (available : nat) (model : ustring) : outcome EngineOpenError Opening :=
  match load_context available (utf8 model) with
  | Ok context =>
      mret {| settings := default_engine; opened_memory := None; opened_zenz := Some context;
              opened_ngram := None; opened_replacer := None |}
  | Err e => Raise (OpenLlama e)
  end.

Definition load_hunspell (to_lowercase : ustring → ustring) (english greek : ustring) (o : Opening) :
    outcome EngineOpenError Opening :=
  completer ← convert_error OpenHunspell (open_completer english greek);
  mret (configure (with_provider (hunspell_completions to_lowercase completer)) o).

(** [load_learning], from the directory, its faults and the day *)
Definition load_learning (faults : list Fault) (fs : Directory) (ids : CharacterIdMap.t) (now : N)
    (c : LearningConfig) (o : Opening) : outcome EngineOpenError Opening :=
  match open_memory faults fs (configured_mode (config_mode c)) (N.to_nat (config_max_count c)) ids now with
  | None => Panic
  | Some (_, Err e) => Raise (OpenLearning e)
  | Some (_, Ok memory) =>
      mret {| settings := with_memory_of (config_mode c) (settings o); opened_memory := Some memory;
              opened_zenz := opened_zenz o; opened_ngram := opened_ngram o; opened_replacer := opened_replacer o |}
  end.

Definition load_text_replacer (path : ustring) (o : Opening) : outcome EngineOpenError Opening :=
  match DictionaryStore.read_to_string path with
  | Return contents =>
      match TextReplacer.parse contents with
      | Ok replacer =>
          mret {| settings := settings o; opened_memory := opened_memory o; opened_zenz := opened_zenz o;
                  opened_ngram := opened_ngram o; opened_replacer := Some replacer |}
      | Err e => Raise (OpenTextReplacer (ReplacerMalformed e))
      end
  | _ => Raise (OpenTextReplacer (ReplacerIo path))
  end.

(** [fs::read_to_string(path).map_err(..)] *)
Definition read_resource (path : ustring) : outcome EngineOpenError ustring :=
  convert_error (λ _, OpenConversionResource (ResourceRead path)) (DictionaryStore.read_to_string path).

Definition item_entry (i : UserDictionaryItem) : DictionaryEntry :=
  desktop_user_dictionary_entry (item_word i) (Kana.to_katakana (item_reading i)).

Definition load_user_dictionary (path : ustring) (o : Opening) : outcome EngineOpenError Opening :=
  source ← read_resource path;
  match parse_items source with
  | Ok items => mret (configure (with_user_entries (item_entry <$> items)) o)
  | Err e => Raise (OpenConversionResource (ResourceUserDictionary e))
  end.

Definition load_user_directory (path : ustring) (o : Opening) : outcome EngineOpenError Opening :=
  convert_error (OpenConversionResource ∘ ResourceDictionary) (open_user_dictionary (H0:=directory_at path));;
  mret (configure (with_user_directory (directory_at path)) o).

(** One custom table: it is registered when its name is not empty and it is valid. *)
Definition load_table (o : Opening) (table : ustring * ustring) : outcome EngineOpenError Opening :=
  let '(name, path) := table in
  source ← read_resource path;
  if decide (name = []) then Raise (OpenConversionResource (InvalidInputTable name))
  else
    report ← panicking (check_custom_tsv source);
    match report with
    | FullyValid =>
        parsed ← panicking (from_custom_tsv source);
        mret (configure (with_tables (register (engine_tables (settings o)) name parsed)) o)
    | InvalidLines _ => Raise (OpenConversionResource (InvalidInputTable name))
    end.

(** [if let Some(path) = .. { .. }] *)
Definition when {A} (a : option A) (f : A → Opening → outcome EngineOpenError Opening) (o : Opening) :
    outcome EngineOpenError Opening := match a with Some a => f a o | None => mret o end.

Definition load_conversion_resources (c : ConversionConfig) (o : Opening) : outcome EngineOpenError Opening :=
  o ← when (config_user_dictionary c) load_user_dictionary o;
  o ← when (config_user_dictionary_directory c) load_user_directory o;
  for_each load_table o (custom_input_tables c).

Definition apply_conversion_options (c : ConversionConfig) (o : Opening) : outcome EngineOpenError Opening :=
  match configured_style (engine_tables (settings o)) c with
  | Some style => mret (configure (with_conversion c style) o)
  | None => Raise (OpenConversionResource (InvalidInputTable (default [] (config_custom_input_table c))))
  end.

Definition load_zenz_personalization (c : ZenzConfig) (o : Opening) : outcome EngineOpenError Opening :=
  match personalization c with
  | None => mret (configure (with_personalization None) o)
  | Some p =>
      models ← convert_error OpenNGram
        (load_personalization (base_ngram p) (personal_ngram p) (config_alpha p));
      mret (configure (with_personalization (Some models)) o)
  end.

Definition load_lm_typo (c : LmTypoCorrectionConfig) (assets : ustring) (o : Opening) :
    outcome EngineOpenError Opening :=
  let o := configure (with_lm_typo c) o in
  model ← (if typo_enabled c then
             let n := default (bundled_ngram assets) (typo_ngram c) in
             model ← convert_error OpenNGram
               (open_language_model (ngram_prefix n) (ngram_tokenizer n) (ngram_n n) (ngram_discount n));
             mret (Some model)
           else mret None);
  mret {| settings := settings o; opened_memory := opened_memory o; opened_zenz := opened_zenz o;
          opened_ngram := model; opened_replacer := opened_replacer o |}.

(** [Engine::open]: the dictionary, and nothing loaded *)
Definition open_dictionary (dictionary : ustring) : outcome EngineOpenError DictionaryStore :=
  convert_error OpenDictionary (open_store (H0:=directory_at dictionary)).

Definition open_with_hunspell (to_lowercase : ustring → ustring) (dictionary english greek : ustring) :
    outcome EngineOpenError (DictionaryStore * Opening) :=
  store ← open_dictionary dictionary;
  o ← load_hunspell to_lowercase english greek open_engine;
  mret (store, configure (with_foreign_prediction PredictAutomatic) o).

Definition open_with_learning (faults : list Fault) (fs : Directory) (now : N) (dictionary : ustring) :
    outcome EngineOpenError (DictionaryStore * Opening) :=
  store ← open_dictionary dictionary;
  o ← load_learning faults fs (DictionaryStore.character_ids store) now default_learning open_engine;
  mret (store, o).

Definition open_with_emoji (dictionary emoji : ustring) : outcome EngineOpenError (DictionaryStore * Opening) :=
  store ← open_dictionary dictionary;
  o ← load_text_replacer emoji open_engine;
  mret (store, o).

Definition open_with_conversion_resources (dictionary : ustring) (c : ConversionConfig) :
    outcome EngineOpenError (DictionaryStore * Opening) :=
  store ← open_dictionary dictionary;
  o ← load_conversion_resources c open_engine;
  o ← apply_conversion_options c o;
  mret (store, o).

(** What the system gives: lower case, threads, and the learning directory and day *)
Record Surroundings := {
  lower_case : ustring → ustring;
  available_threads : nat;
  learning_files : Directory;
  learning_faults : list Fault;
  current_day : N;
}.

(** [open_with_config]: the dictionary is opened after the model. *)
Definition open_with_config (env : Surroundings) (c : DaemonConfig) (assets : ustring) :
    outcome EngineOpenError (DictionaryStore * Opening) :=
  o ← open_with_llama (available_threads env) (join assets MODEL_FILE);
  store ← open_dictionary (join assets DICTIONARY);
  let ids := DictionaryStore.character_ids store in
  o ← load_hunspell (lower_case env) (join assets ENGLISH_BASE) (join assets GREEK_BASE) o;
  o ← load_learning (learning_faults env) (learning_files env) ids (current_day env) (config_learning c) o;
  o ← load_text_replacer (join assets EMOJI_FILE) o;
  o ← load_conversion_resources (config_conversion c) o;
  o ← apply_conversion_options (config_conversion c) o;
  o ← load_zenz_personalization (config_zenz c) (configure (with_zenz (config_zenz c)) o);
  o ← load_lm_typo (config_lm_typo c) assets o;
  mret (store, o).

(** [for_connection]: no sessions, an evaluator of its own, and the memory and the
    models as they are *)
Definition for_connection `{Rng} (w : World) (zenz : option LlamaContext) (ngram : option NGramLanguageModel) :
    Sessions (M:=LlamaContext) (L:=NGramLanguageModel) :=
  (∅, {| world := w; evaluator := default_evaluator; zenz_model := zenz; lm_typo_ngram := ngram |}).
End open.

(** ** What is opened from a valid configuration *)

Section opened.
Context `{Segmentation} `{Marisa} `{Tokenizers} `{Json} `{Spellbook} `{Encodings} `{LlamaCpp} `{Toml} (files : Files).

#[local] Notation tables_of o := (engine_tables (settings o)).

(** What the theorems on editing and sessions assume of tables *)
Definition good_registry (tables : InputTableRegistry) : Prop := registry_ok tables ∧ registry_steady tables.

(** The rules of a table write nothing for a separator alone, and something otherwise. *)
Definition good_table (t : InputTable) : Prop :=
  forallb rule_silent (mappings t) = true ∧ forallb rule_steady (mappings t) = true.

Lemma register_good tables name t : good_registry tables → good_table t → good_registry (register tables name t).
Proof. intros [Hok Hsteady] [Ht Ht']. split; [by apply register_ok|by apply register_steady]. Qed.

(** The tables a configuration names are such. *)
Definition good_tables (c : ConversionConfig) : Prop := ∀ name path source t,
  (name, path) ∈ custom_input_tables c → read_resource files path = Return source →
  from_custom_tsv source = Some t → good_table t.

Lemma load_table_spec o name path o' :
  load_table files o (name, path) = Return o' →
  ∃ source t, read_resource files path = Return source ∧ from_custom_tsv source = Some t ∧
    tables_of o' = register (tables_of o) name t.
Proof.
  unfold load_table. intros (source & Hs & Ho)%outcome_bind_Return. case_decide; [done|].
  apply outcome_bind_Return in Ho as ([|] & _ & Ho); [|done].
  apply outcome_bind_Return in Ho as (t & Ht%panicking_Return & [= <-]). by exists source, t.
Qed.

(** Registered tables stay, and every table of the configuration is registered. *)
Lemma load_tables_spec ts : ∀ o o',
  for_each (load_table files) o ts = Return o' →
  (∀ name path source t, (name, path) ∈ ts → read_resource files path = Return source →
     from_custom_tsv source = Some t → good_table t) →
  good_registry (tables_of o) →
  good_registry (tables_of o') ∧
  ∀ name, name ∈ ts.*1 ∨ registry_contains (tables_of o) name → registry_contains (tables_of o') name.
Proof.
  induction ts as [|[name path] ts IH]; intros o o' Hrun Hgood Hok.
  { injection Hrun as <-. split; [done|]. intros name [Hn|Hn]; [by apply not_elem_of_nil in Hn|done]. }
  cbn [for_each] in Hrun. apply outcome_bind_Return in Hrun as (o1 & Hload & Hrun).
  apply load_table_spec in Hload as (source & t & Hsource & Ht & Htables).
  assert (Hok1 : good_registry (tables_of o1)).
  { rewrite Htables. apply register_good; [done|]. eapply Hgood; [left|done|done]. }
  destruct (IH o1 o' Hrun) as [Hok' Hin]; [intros; eapply Hgood; [by right|done|done]|done|].
  split; [done|]. intros name' Hname. apply Hin.
  unfold registry_contains in *. rewrite Htables. cbn [register custom].
  destruct (decide (name' = name)) as [->|Hne].
  - right. apply bool_decide_pack. by rewrite lookup_insert_eq.
  - destruct Hname as [[->|?]%elem_of_cons|Hname]; [done|by left|right].
    by rewrite lookup_insert_ne.
Qed.

Lemma load_resources_spec c o o' :
  load_conversion_resources files c o = Return o' → good_tables c → good_registry (tables_of o) →
  good_registry (tables_of o') ∧ ∀ name, name ∈ (custom_input_tables c).*1 → registry_contains (tables_of o') name.
Proof.
  unfold load_conversion_resources. intros (o1 & Hs1 & (o2 & Hs2 & Hs3)%outcome_bind_Return)%outcome_bind_Return Hgood Hok.
  assert (Hd : tables_of o1 = tables_of o).
  { unfold when in Hs1. destruct (config_user_dictionary c); [|by injection Hs1 as <-].
    apply outcome_bind_Return in Hs1 as (source & _ & Hs1). destruct (parse_items source); [by injection Hs1 as <-|done]. }
  assert (Hu : tables_of o2 = tables_of o1).
  { unfold when in Hs2. destruct (config_user_dictionary_directory c); [|by injection Hs2 as <-].
    by apply outcome_bind_Return in Hs2 as (? & _ & [= <-]). }
  destruct (load_tables_spec _ _ _ Hs3 Hgood) as [Hok' Hin]; [by rewrite Hu, Hd|]. split; [done|]. auto.
Qed.

(** A valid configuration names a style that is there once its tables are read. *)
Lemma valid_style c o o' :
  validate c = Ok () → load_conversion_resources files (config_conversion c) o = Return o' →
  good_tables (config_conversion c) → good_registry (tables_of o) →
  is_Some (configured_style (tables_of o') (config_conversion c)).
Proof.
  intros Hvalid Hload Hgood Hok. destruct (load_resources_spec _ _ _ Hload Hgood Hok) as [_ Hin].
  unfold validate in Hvalid. destruct (unsupported_profile _); [done|]. case_bool_decide; [done|].
  destruct (missing_table _) eqn:Hmissing; [done|]. clear Hvalid. unfold configured_style, missing_table in *.
  destruct (config_input_style (config_conversion c)); try by eexists. rewrite bool_decide_eq_true_2 in Hmissing by done.
  destruct (config_custom_input_table (config_conversion c)) as [name|]; [|done]. cbn in Hmissing |- *.
  apply bool_decide_eq_false, dec_stable in Hmissing. rewrite (Is_true_true_1 _ (Hin name Hmissing)). by eexists.
Qed.

(** Before the resources of the configuration are loaded, the tables are the default ones. *)
Lemma opened_default env c assets store o :
  open_with_config files env c assets = Return (store, o) →
  ∃ o4 o5 o6 o7, tables_of o4 = registry_default ∧ load_conversion_resources files (config_conversion c) o4 = Return o5 ∧
    apply_conversion_options (config_conversion c) o5 = Return o6 ∧
    load_zenz_personalization (config_zenz c) (configure (with_zenz (config_zenz c)) o6) = Return o7 ∧
    load_lm_typo (config_lm_typo c) assets o7 = Return o.
Proof.
  unfold open_with_config. intros (o1 & Hs1 & Hopen)%outcome_bind_Return.
  apply outcome_bind_Return in Hopen as (store' & _ & Hopen).
  apply outcome_bind_Return in Hopen as (o2 & (completer & _ & [= <-])%outcome_bind_Return & Hopen).
  apply outcome_bind_Return in Hopen as (o3 & Hs3 & Hopen).
  apply outcome_bind_Return in Hopen as (o4 & Hs4 & Hopen).
  apply outcome_bind_Return in Hopen as (o5 & Hs5 & Hopen).
  apply outcome_bind_Return in Hopen as (o6 & Hs6 & Hopen).
  apply outcome_bind_Return in Hopen as (o7 & Hs7 & (o8 & Hs8 & [= _ <-])%outcome_bind_Return).
  exists o4, o5, o6, o7. split_and!; [|done..].
  assert (E1 : settings o1 = default_engine)
    by (unfold open_with_llama in Hs1; destruct (load_context _ _); [by injection Hs1 as <-|done]).
  assert (E3 : tables_of o3 = registry_default).
  { unfold load_learning in Hs3. destruct (open_memory _ _ _ _ _ _) as [[? []]|]; [|done..].
    injection Hs3 as <-. simpl. by rewrite E1. }
  unfold load_text_replacer in Hs4. destruct (DictionaryStore.read_to_string _) as [text| |]; [|done..].
  destruct (TextReplacer.parse text); [by injection Hs4 as <-|done].
Qed.

(** The models that are loaded last leave the tables and the settings of sessions. *)
Lemma load_models_keep z l assets o o6 o7 :
  load_zenz_personalization z (configure (with_zenz z) o6) = Return o7 → load_lm_typo l assets o7 = Return o →
  tables_of o = tables_of o6 ∧ default_input_style (settings o) = default_input_style (settings o6) ∧
  engine_request_options (settings o) = engine_request_options (settings o6) ∧
  live_conversion (settings o) = live_conversion (settings o6).
Proof.
  unfold load_zenz_personalization, load_lm_typo. intros Hz (model & _ & [= <-])%outcome_bind_Return.
  destruct (personalization z); [apply outcome_bind_Return in Hz as (? & _ & Hz)|]; by injection Hz as <-.
Qed.

(** What is opened from a valid configuration whose tables are good is what the
    theorems on editing, conversion and keys start from: its tables meet their
    assumption, and so does the style of a new session, whose table is registered. *)
Theorem opened_engine_ready env c assets store o :
  validate c = Ok () → good_tables (config_conversion c) → good_registry registry_default →
  open_with_config files env c assets = Return (store, o) →
  good_registry (tables_of o) ∧ configured_style (tables_of o) (config_conversion c) = Some (default_input_style (settings o)) ∧
  opt_n_best (engine_request_options (settings o)) ≠ 0 ∧ live_conversion (settings o) = config_live_conversion (config_conversion c).
Proof.
  intros Hvalid Hgood Hdefault (o4 & o5 & o6 & o7 & E4 & Hs5 & Hs6 & Hs7 & Hs8)%opened_default.
  destruct (load_models_keep _ _ _ _ _ _ Hs7 Hs8) as (-> & -> & -> & ->).
  destruct (load_resources_spec _ _ _ Hs5 Hgood) as [Hok _]; [by rewrite E4|].
  unfold apply_conversion_options in Hs6. destruct (configured_style _ _) as [style|] eqn:Hstyle; [|done].
  injection Hs6 as <-. cbn. split_and!; [done..| |done].
  unfold validate in Hvalid. destruct (unsupported_profile _); [done|]. by case_bool_decide.
Qed.

(** Opening never fails for the style of a valid configuration. *)
Theorem valid_style_applies c o o' :
  validate c = Ok () → good_tables (config_conversion c) → good_registry (tables_of o) →
  load_conversion_resources files (config_conversion c) o = Return o' →
  ∃ o'', apply_conversion_options (config_conversion c) o' = Return o''.
Proof.
  intros Hvalid Hgood Hok Hload. unfold apply_conversion_options.
  destruct (valid_style _ _ _ Hvalid Hload Hgood Hok) as [style ->]. by eexists.
Qed.
End opened.

(** ** A table that is not silent

    The check of custom tables accepts a rule that writes a character for a composition
    separator alone, which the operations on texts do not expect: separators at the start
    of an input convert to nothing. *)

Definition loud_source : ustring := Eval vm_compute in u "{composition-separator}	x".
Definition loud_style : InputStyle := Mapped (Named (u "loud")).
Definition loud_registry : InputTableRegistry :=
  register default_registry (u "loud") (default empty_table (@from_custom_tsv scalar_clusters loud_source)).
Definition loud_typed : list InputElement :=
  [character (u "a") loud_style; {| piece := CompositionSeparator; input_style := loud_style |};
   character (u "a") loud_style].

(** After the first grapheme is completed, the text shows what its input does not
    convert to. *)
Theorem loud_table_diverges :
  @check_custom_tsv scalar_clusters loud_source = Some FullyValid ∧
  ∃ ct ct', insert loud_registry composing_new loud_typed = Some ct ∧ surface ct = [u "a"; u "x"; u "a"] ∧
    complete_prefix loud_registry ct (CSurface 1) = Some ct' ∧ surface ct' = [u "x"; u "a"] ∧
    convert_elements loud_registry (input ct') = Some [u "a"].
Proof. split; [by vm_compute|]. eexists _, _. by vm_compute. Qed.
