(* ===== verification/Server.v ===== *)
(** * The server of the daemon

    src/crates/daemon/src/server.rs and main.rs: the reservation of the runtime
    directory, the lock and the socket, the loop of a connection, and the arguments.
    The calls of the system are a parameter. *)

From S2P Require Import Frame Prelude Unicode Collections F32 Constraint InputTable Composing Dictionary LatticeIndex Lattice Prediction TextUtil Template Action Utf8 LearningRecords LearningFiles Zenz ZenzEvaluator NGram LmTypo DictionaryStore UserDictionary Foreign Llama SessionState Session ZenzConvert Protocol EngineInput EngineState Engine EngineKeys EngineHandle Config EngineOpen.

(** ** The system *)

Inductive ErrorKind := KindNotFound | KindAlreadyExists | KindWouldBlock | KindInterrupted | KindOther.
#[export] Instance ErrorKind_eq_dec : EqDecision ErrorKind.
Proof. solve_decision. Defined.
Record IoError := { kind : ErrorKind; os_error : Z }.

Inductive FileType := TypeDirectory | TypeFile | TypeSocket | TypeOther.
#[export] Instance FileType_eq_dec : EqDecision FileType.
Proof. solve_decision. Defined.
Record Metadata := { file_type : FileType; owner : N; file_mode : N; device : N; inode : N }.

(** The calls the server makes; a handle is an open file or socket. *)
Class Unix (Sys : Type) := {
  Handle : Type;
  effective_uid : Sys → N;
  symlink_metadata : ustring → action Sys IoError Metadata;
  create_directory : N → ustring → action Sys IoError ();
  (** [O_DIRECTORY | O_NOFOLLOW | O_CLOEXEC] *)
  open_directory : ustring → action Sys IoError Handle;
  (** read, write, create with a mode, [O_NOFOLLOW | O_CLOEXEC] *)
  open_file : N → ustring → action Sys IoError Handle;
  handle_metadata : Handle → action Sys IoError Metadata;
  set_handle_permissions : N → Handle → action Sys IoError ();
  set_permissions : N → ustring → action Sys IoError ();
  (** [LOCK_EX | LOCK_NB] *)
  flock : Handle → action Sys IoError ();
  connect : ustring → action Sys IoError ();
  remove_file : ustring → action Sys IoError ();
  bind_listener : ustring → action Sys IoError Handle;
  set_nonblocking : bool → Handle → action Sys IoError ();
}.

Inductive ServerError :=
  | RuntimeDirectory (e : IoError)
  | UnsafeRuntimeDirectory
  | Lock (e : IoError)
  | LockBusy
  | AlreadyRunning
  | InvalidSocketPath
  | UnsafeSocket
  | Socket (e : IoError)
  | UnsupportedPlatform
  | WorkerPanicked.

Definition SOCKET : ustring := Eval vm_compute in u "beankey/daemon.sock".
Definition SOCKET_DIRECTORY : ustring := Eval vm_compute in u "beankey".
Definition LOCK_FILE : ustring := Eval vm_compute in u "daemon.lock".
(** The modes 0777, 0700 and 0600 *)
Definition PERMISSIONS : N := 511.
Definition OWNER_ALL : N := 448.
Definition OWNER_READ_WRITE : N := 384.

(** [PermissionDenied], for a lock that is not an owned regular file *)
Definition not_owned : IoError := {| kind := KindOther; os_error := 0 |}.

Section server.
Context {Sys : Type} `{Unix Sys}.

#[local] Notation call A := (action Sys ServerError A).

(** An error of the system as an error of the server *)
Definition or_error {A} (f : IoError → ServerError) (m : action Sys IoError A) : call A := map_error f m.
Definition try {A} (m : action Sys IoError A) : call (result IoError A) := attempt m.

Definition prepare_runtime_directory (path : ustring) (uid : N) : call Handle :=
  found ← try (symlink_metadata path);
  match found with
  | Ok _ => mret ()
  | Err e =>
      if decide (kind e = KindNotFound) then
        created ← try (create_directory OWNER_ALL path);
        match created with
        | Err e => if decide (kind e = KindAlreadyExists) then mret () else raise (RuntimeDirectory e)
        | Ok _ => mret ()
        end
      else raise (RuntimeDirectory e)
  end;;
  directory ← or_error RuntimeDirectory (open_directory path);
  metadata ← or_error RuntimeDirectory (handle_metadata directory);
  if bool_decide (file_type metadata ≠ TypeDirectory) || bool_decide (owner metadata ≠ uid)
  then raise UnsafeRuntimeDirectory
  else
    or_error RuntimeDirectory (set_handle_permissions OWNER_ALL directory);;
    metadata ← or_error RuntimeDirectory (handle_metadata directory);
    if decide (N.land (file_mode metadata) PERMISSIONS ≠ OWNER_ALL) then raise UnsafeRuntimeDirectory
    else mret directory.

Definition open_lock (path : ustring) (uid : N) : call Handle :=
  lock ← or_error Lock (open_file OWNER_READ_WRITE path);
  metadata ← or_error Lock (handle_metadata lock);
  if bool_decide (file_type metadata ≠ TypeFile) || bool_decide (owner metadata ≠ uid)
  then raise (Lock not_owned)
  else or_error Lock (set_handle_permissions OWNER_READ_WRITE lock);; mret lock.

Definition acquire_lock (lock : Handle) (socket_path : ustring) : call () :=
  locked ← try (flock lock);
  match locked with
  | Ok _ => mret ()
  | Err e =>
      if decide (kind e = KindWouldBlock) then
        connected ← try (connect socket_path);
        raise (match connected with Ok _ => AlreadyRunning | Err _ => LockBusy end)
      else raise (Lock e)
  end.

Definition remove_stale_socket (path : ustring) (uid : N) : call () :=
  found ← try (symlink_metadata path);
  match found with
  | Err e => if decide (kind e = KindNotFound) then mret () else raise (Socket e)
  | Ok metadata =>
      if bool_decide (file_type metadata ≠ TypeSocket) || bool_decide (owner metadata ≠ uid)
      then raise UnsafeSocket
      else
        connected ← try (connect path);
        match connected with
        | Ok _ => raise AlreadyRunning
        | Err _ => or_error Socket (remove_file path)
        end
  end.

(** [DaemonServerReservation] *)
Record Reservation := {
  socket_path : ustring;
  runtime_directory : Handle;
  lock : Handle;
  reserved_uid : N;
}.

Definition reserve (runtime_root relative_socket : ustring) : call Reservation :=
  if decide (relative_socket ≠ SOCKET) then raise InvalidSocketPath
  else
    uid ← gets effective_uid;
    let runtime_directory_path := join runtime_root SOCKET_DIRECTORY in
    runtime_directory ← prepare_runtime_directory runtime_directory_path uid;
    let path := join runtime_root relative_socket in
    lock ← open_lock (join runtime_directory_path LOCK_FILE) uid;
    acquire_lock lock path;;
    remove_stale_socket path uid;;
    mret {| socket_path := path; runtime_directory := runtime_directory; lock := lock; reserved_uid := uid |}.

(** [RuntimeEndpoint] *)
Record Endpoint := {
  listener : Handle;
  endpoint_path : ustring;
  socket_device : N;
  socket_inode : N;
}.

Definition bind (r : Reservation) : call Endpoint :=
  listener ← or_error Socket (bind_listener (socket_path r));
  or_error Socket (set_permissions OWNER_READ_WRITE (socket_path r));;
  metadata ← or_error Socket (symlink_metadata (socket_path r));
  if bool_decide (file_type metadata ≠ TypeSocket) || bool_decide (owner metadata ≠ reserved_uid r)
     || bool_decide (N.land (file_mode metadata) PERMISSIONS ≠ OWNER_READ_WRITE)
  then raise UnsafeSocket
  else
    or_error Socket (set_nonblocking true listener);;
    mret {| listener := listener; endpoint_path := socket_path r; socket_device := device metadata;
            socket_inode := inode metadata |}.

(** [Drop for RuntimeEndpoint]: the socket is removed when it is still the one that
    was bound; its errors are ignored. *)
Definition drop_endpoint (e : Endpoint) : call () :=
  found ← try (symlink_metadata (endpoint_path e));
  match found with
  | Err _ => mret ()
  | Ok metadata =>
      if decide (file_type metadata = TypeSocket ∧ device metadata = socket_device e ∧
                 inode metadata = socket_inode e)
      then try (remove_file (endpoint_path e));; mret ()
      else mret ()
  end.
End server.

(** ** The loop of the listener *)

(** What the loop knows: whether a client came, how many are served, and how many
    threads of workers it has not joined. *)
Record ServerLoop := { accepted_client : bool; active_clients : nat; workers : nat }.
Definition idle_server : ServerLoop := {| accepted_client := false; active_clients := 0; workers := 0 |}.

(** The user of a client that connects, no client, or an error *)
Inductive Accepted :=
  | Client (peer : result ServerError N)
  | NoClient
  | AcceptError (e : IoError).

(** What happens in one turn: the clients of some workers go, some threads are found
    finished, with whether each panicked, and the listener is asked. *)
Record Turn := { gone : nat; finished : list bool; accepted : Accepted }.

(** [Drop for ActiveClient], when a worker ends or panics *)
Definition clients_gone (n : nat) (st : ServerLoop) : ServerLoop :=
  {| accepted_client := accepted_client st; active_clients := active_clients st - n; workers := workers st |}.

(** The finished threads are joined. *)
Definition reap_workers (finished : list bool) (st : ServerLoop) : result ServerError ServerLoop :=
  if existsb id finished then Err WorkerPanicked
  else Ok {| accepted_client := accepted_client st; active_clients := active_clients st;
             workers := workers st - length finished |}.

(** One turn: the server goes on, ends, or fails. *)
Definition server_turn (uid : N) (st : ServerLoop) (turn : Turn) : result ServerError (ServerLoop * bool) :=
  match reap_workers (finished turn) (clients_gone (gone turn) st) with
  | Err e => Err e
  | Ok st =>
      match accepted turn with
      | Client (Err e) => Err e
      | Client (Ok peer) =>
          if decide (peer = uid) then
            Ok ({| accepted_client := true; active_clients := active_clients st + 1; workers := workers st + 1 |}, true)
          else Ok (st, true)
      | NoClient => Ok (st, negb (accepted_client st && bool_decide (active_clients st = 0)))
      | AcceptError e => Err (Socket e)
      end
  end.

(** The turns until the signal to terminate, which the end of the list stands for: the
    state at the end of the loop *)
Fixpoint server_loop (uid : N) (st : ServerLoop) (turns : list Turn) : result ServerError ServerLoop :=
  match turns with
  | [] => Ok st
  | turn :: turns =>
      match server_turn uid st turn with
      | Err e => Err e
      | Ok (st, true) => server_loop uid st turns
      | Ok (st, false) => Ok st
      end
  end.

(** [DaemonServer::run]: the workers that are left are joined at the end, which waits
    for them; [left] says whether each of them panicked. *)
Definition server_run (uid : N) (turns : list Turn) (left : list bool) : result ServerError () :=
  match server_loop uid idle_server turns with
  | Err e => Err e
  | Ok st => if existsb id (take (workers st) left) then Err WorkerPanicked else Ok ()
  end.

(** ** A connection *)

(** The generated code for this envelope *)
Class Codec := {
  CodecError : Type;
  encode_wire : Wire.Envelope → list byte;
  decode_wire : list byte → result CodecError Wire.Envelope;
}.
#[export] Instance wire_protobuf `{Codec} : Protobuf := {|
  Frame.Envelope := Wire.Envelope; DecodeError := CodecError; Frame.protocol_version := Wire.protocol_version;
  payload_is_some e := bool_decide (is_Some (Wire.payload e)); Frame.encode := encode_wire; Frame.decode := decode_wire;
|}.

Definition INVALID_LENGTH : ustring := Eval vm_compute in u "invalid varint frame length".
Definition NO_PAYLOAD : ustring := Eval vm_compute in u "envelope has no payload".

Section connection.
Context `{Chrono} `{Codec} (display_io : ustring) (display_codec : CodecError → ustring).

(** [Display for FrameError] *)
Definition frame_error_text (e : FrameError CodecError) : ustring :=
  match e with
  | Io => display_io
  | InvalidLength => INVALID_LENGTH
  | MessageTooLarge size => u "frame size " ++ show (Z.of_N size) ++ u " exceeds the 1 MiB limit"
  | InvalidProtobuf e => u "invalid protobuf payload: " ++ display_codec e
  | UnsupportedVersion version => u "unsupported protocol version " ++ show (Z.of_N version)
  | MissingPayload => NO_PAYLOAD
  end.

Definition frame_error_code (e : FrameError CodecError) : Wire.Code :=
  match e with
  | UnsupportedVersion _ => Wire.UnsupportedVersion
  | MessageTooLarge _ => Wire.MessageTooLarge
  | _ => Wire.InvalidPayload
  end.

Definition frame_error_envelope (e : FrameError CodecError) : Wire.Envelope :=
  error_envelope 0 [] (frame_error_code e) (frame_error_text e).

(** The bytes of the client not read yet, and the bytes sent to it *)
Record Stream := { unread : list byte; sent : list byte }.

(** What a call of [poll] finds: bytes or the end of the stream, nothing in time, or an error *)
Inductive Poll := PollReadable | PollTimeout | PollError (e : IoError).

(** The call is repeated while it is interrupted; [None] when all these calls were. *)
Fixpoint wait_for_readable (polls : list Poll) : option (result IoError bool) :=
  match polls with
  | [] => None
  | PollReadable :: _ => Some (Ok true)
  | PollTimeout :: _ => Some (Ok false)
  | PollError e :: polls =>
      if decide (kind e = KindInterrupted) then wait_for_readable polls else Some (Err e)
  end.

(** A round of the loop: the calls of [poll], its time, whether a read that runs out of
    bytes waits until it times out, where otherwise the stream has ended, and whether
    the client still reads *)
Record Round := { polls : list Poll; round_time : Moment; stalled : bool; writable : bool }.

(** An error of reading that is the end of the stream *)
Definition unexpected_eof (stalled : bool) (e : FrameError CodecError) : bool :=
  match e with Io => negb stalled | _ => false end.

Section loop.
Context {S : Type} (answer : Moment → Wire.Envelope → action S Empty_set Wire.Envelope).

(** Whether an envelope was sent: it may be too large, and the client may be gone. *)
Definition send (writable : bool) (e : Wire.Envelope) : action (Stream * S) Empty_set bool :=
  match write_envelope e with
  | Ok bytes =>
      if writable then
        modify (λ st, ({| unread := unread st.1; sent := sent st.1 ++ bytes |}, st.2));; mret true
      else mret false
  | Err _ => mret false
  end.

(** The loop: the server terminates at the end of the rounds, or waits for ever. *)
Fixpoint serve_rounds (rounds : list Round) : action (Stream * S) Empty_set () :=
  match rounds with
  | [] => mret ()
  | r :: rounds =>
      match wait_for_readable (polls r) with
      | None => mret ()
      | Some (Ok false) => serve_rounds rounds
      | Some (Err _) => mret ()
      | Some (Ok true) =>
          stream ← gets fst;
          match read_envelope (unread stream) with
          | Err e =>
              if unexpected_eof (stalled r) e then mret ()
              else send (writable r) (frame_error_envelope e);; mret ()
          | Ok (request, rest) =>
              modify (λ st, ({| unread := rest; sent := sent st.1 |}, st.2));;
              response ← on_snd (answer (round_time r) request);
              delivered ← send (writable r) response;
              if delivered : bool then serve_rounds rounds else mret ()
          end
      end
  end.

(** [timed]: whether the timeout of reads could be set *)
Definition serve_connection (timed : bool) (rounds : list Round) : action (Stream * S) Empty_set () :=
  if timed then serve_rounds rounds else mret ().
End loop.
End connection.

(** ** Arguments *)

Definition CONFIG : ustring := Eval vm_compute in u "--config".
Definition RUNTIME_ROOT : ustring := Eval vm_compute in u "--runtime-root".
Definition LEARNING_DIRECTORY : ustring := Eval vm_compute in u "--learning-directory".
Definition USAGE : ustring := Eval vm_compute in
  u "usage: beankey-daemon --config PATH --runtime-root PATH --learning-directory PATH".
Definition REQUIRES_PATH : ustring := Eval vm_compute in u " requires a path".
Definition NOT_ABSOLUTE : ustring := Eval vm_compute in u " must be an absolute path".
Definition UNEXPECTED : ustring := Eval vm_compute in u "unexpected daemon arguments; ".

Record DaemonArguments := { config_path : ustring; runtime_root : ustring; learning_directory : ustring }.

(** An iterator over the arguments is the list of those left. *)
#[local] Notation parser A := (action (list ustring) ustring A).

Definition next_argument : parser (option ustring) :=
  λ rest, match rest with a :: rest => (rest, Return (Some a)) | [] => ([], Return None) end.

Definition required_argument (expected_flag : ustring) : parser ustring :=
  flag ← next_argument;
  if decide (flag = Some expected_flag) then
    value ← next_argument;
    match value with
    | Some (c :: value) => mret (c :: value)
    | _ => raise (expected_flag ++ REQUIRES_PATH)
    end
  else raise USAGE.

Definition is_absolute (path : ustring) : bool := bool_decide (head path = Some SLASH).

Definition required_absolute_directory (flag : ustring) : parser ustring :=
  path ← required_argument flag;
  if is_absolute path then mret path else raise (flag ++ NOT_ABSOLUTE).

Definition parse_arguments : parser DaemonArguments :=
  path ← required_argument CONFIG;
  root ← required_absolute_directory RUNTIME_ROOT;
  learning ← required_absolute_directory LEARNING_DIRECTORY;
  more ← next_argument;
  match more with
  | Some _ => raise (UNEXPECTED ++ USAGE)
  | None => mret {| config_path := path; runtime_root := root; learning_directory := learning |}
  end.

(** ** The daemon *)

Definition SHARE : ustring := Eval vm_compute in u "../share/beankey".

(** [Path::parent] of a canonical path, whose last name is dropped *)
Fixpoint without_name (reversed : ustring) : ustring :=
  match reversed with
  | c :: rest => if decide (c = SLASH) then reversed else without_name rest
  | [] => []
  end.

Definition parent (path : ustring) : option ustring :=
  if decide (path = [SLASH]) then None
  else
    let directory := reverse (tail (without_name (reverse path))) in
    Some (match directory with [] => [SLASH] | _ => directory end).

Section daemon.
Context `{Segmentation} `{Marisa} `{Tokenizers} `{Json} `{Spellbook} `{Encodings} `{LlamaCpp} `{Toml}.
Context {Sys : Type} `{Unix Sys}.

Inductive MainError :=
  | InvalidArguments (message : ustring)
  | ConfigFailed (e : DaemonConfigError)
  | ServerFailed (e : ServerError)
  | ExecutableFailed (e : IoError)
  | NoParentDirectory
  | EngineFailed (e : EngineOpenError).

(** [DaemonServer::run] on the endpoint, which is dropped at its end; what happens to
    the listener is [turns] and [left]. *)
Definition run_endpoint (uid : N) (e : Endpoint) (turns : list Turn) (left : list bool) : action Sys ServerError () :=
  let r := server_run uid turns left in
  drop_endpoint e;;
  match r with Ok _ => mret () | Err e => raise e end.

(** [run] of main.rs: [executable] is the canonical path of the program, and [env] holds
    the files of the directory for learning, which the arguments name. *)
Definition daemon_run (files : Files) (env : ustring → Surroundings) (arguments : list ustring)
    (executable : result IoError ustring) (turns : list Turn) (left : list bool) : action Sys MainError () :=
  match (parse_arguments arguments).2 with
  | Raise message => raise (InvalidArguments message)
  | Panic => lift Panic
  | Return a =>
      match load_config (config_path a) with
      | Err e => raise (ConfigFailed e)
      | Ok config =>
          reservation ← attempt (reserve (runtime_root a) SOCKET);
          match reservation with
          | Err AlreadyRunning => mret ()
          | Err e => raise (ServerFailed e)
          | Ok reservation =>
              match executable with
              | Err e => raise (ExecutableFailed e)
              | Ok executable =>
                  match parent executable with
                  | None => raise NoParentDirectory
                  | Some directory =>
                      lift (convert_error EngineFailed
                        (open_with_config files (env (learning_directory a)) config (join directory SHARE)));;
                      endpoint ← map_error ServerFailed (bind reservation);
                      map_error ServerFailed (run_endpoint (reserved_uid reservation) endpoint turns left)
                  end
              end
          end
      end
  end.
End daemon.
