(* ===== verification/ServerSpec.v ===== *)
(** * The server of the daemon: connections and the listener

    A client gets the answers of the engine to its requests, in their order, until it
    ends the stream or sends what is no frame; the listener serves its own user, and
    leaves when all it served are gone. *)

From S2P Require Import Frame Prelude Unicode Collections F32 DefaultTables Dictionary LatticeIndex Lattice LatticeSpec Prediction Template Action LearningRecords LearningFiles Zenz ZenzEvaluator Foreign SessionState Session SessionExamples ZenzConvertSpec Protocol EngineState Engine EngineHandle EngineExamples Config EngineOpen Server.

(** ** A connection *)

Section connection.
Context `{Chrono} `{Codec} (display_io : ustring) (display_codec : CodecError → ustring).
Context {S : Type} (answer : Moment → Wire.Envelope → action S Empty_set Wire.Envelope).

#[local] Notation serve := (serve_rounds display_io display_codec answer).
#[local] Notation error_reply := (frame_error_envelope display_io display_codec).

(** The answers to requests at their times *)
Fixpoint answer_all (requests : list (Moment * Wire.Envelope)) : action S Empty_set (list Wire.Envelope) :=
  match requests with
  | [] => mret []
  | (t, request) :: requests => a ← answer t request; rest ← answer_all requests; mret (a :: rest)
  end.

(** What is written for envelopes *)
Definition written (es : list Wire.Envelope) (frames : list (list byte)) : Prop :=
  Forall2 (λ e bytes, write_envelope e = Ok bytes) es frames.

Lemma written_all es frames : (λ e, @write_envelope wire_protobuf e) <$> es = Ok <$> frames → written es frames.
Proof.
  revert frames. induction es as [|e es IH]; intros [|frame frames]; [constructor|done|done|].
  intros [= He Hes]. constructor; [exact He|by apply IH].
Qed.

(** What the generated code reads back *)
Definition readable (es : list Wire.Envelope) : Prop := Forall (λ e, decode_wire (encode_wire e) = Ok e) es.

(** Rounds in which requests arrive at these times, and nothing in the others; the client
    reads what it is sent. *)
Inductive arrivals : list Round → list Moment → Prop :=
  | arrivals_nil : arrivals [] []
  | arrivals_quiet r rounds ts :
      wait_for_readable (polls r) = Some (Ok false) → arrivals rounds ts → arrivals (r :: rounds) ts
  | arrivals_request r rounds ts :
      wait_for_readable (polls r) = Some (Ok true) → writable r = true → arrivals rounds ts →
      arrivals (r :: rounds) (round_time r :: ts).

(** A round in which nothing arrives *)
Lemma serve_quiet r rounds st : wait_for_readable (polls r) = Some (Ok false) → serve (r :: rounds) st = serve rounds st.
Proof. intros Hr. cbn [serve_rounds]. by rewrite Hr. Qed.

(** One request that is read: what happens depends on whether its answer is delivered. *)
Lemma serve_one r rounds request frame rest sent0 s s' a :
  wait_for_readable (polls r) = Some (Ok true) →
  decode_wire (encode_wire request) = Ok request → write_envelope request = Ok frame →
  answer (round_time r) request s = (s', Return a) →
  serve (r :: rounds) ({| unread := frame ++ rest; sent := sent0 |}, s)
  = match @write_envelope wire_protobuf a with
    | Ok bytes => if writable r then serve rounds ({| unread := rest; sent := sent0 ++ bytes |}, s')
                  else (({| unread := rest; sent := sent0 |}, s'), Return ())
    | Err _ => (({| unread := rest; sent := sent0 |}, s'), Return ())
    end.
Proof.
  intros Hr Hread Hframe Hanswer. cbn [serve_rounds]. rewrite Hr. unfold mbind, action_bind, gets. cbn [fst unread].
  rewrite (@read_frame wire_protobuf request frame rest Hread Hframe). unfold modify, on_snd. cbn [fst snd sent].
  rewrite Hanswer. unfold send. destruct (@write_envelope wire_protobuf a); [|done]. by destruct (writable r).
Qed.

Lemma serve_all requests rounds frames more tail sent0 s s' replies bytes :
  arrivals rounds requests.*1 → readable requests.*2 → written requests.*2 frames →
  answer_all requests s = (s', Return replies) → written replies bytes →
  serve (rounds ++ more) ({| unread := concat frames ++ tail; sent := sent0 |}, s)
  = serve more ({| unread := tail; sent := sent0 ++ concat bytes |}, s').
Proof.
  intros Hrounds. remember requests.*1 as ts eqn:Hts.
  revert requests Hts frames sent0 s replies bytes.
  induction Hrounds as [|r rounds ts Hr _ IH|r rounds ts Hr Hw _ IH]; intros requests Hts frames sent0 s replies bytes Hread Hf Ha Hb.
  - destruct requests; [|done]. apply Forall2_nil_inv_l in Hf as ->. injection Ha as <- <-.
    apply Forall2_nil_inv_l in Hb as ->. cbn. by rewrite app_nil_r.
  - cbn [app]. rewrite serve_quiet by done. by apply (IH requests Hts frames _ _ replies).
  - destruct requests as [|[t request] requests]; [done|]. injection Hts as <- Hts.
    apply Forall2_cons_inv_l in Hf as (frame & frames' & Hframe & Hframes & ->). cbn [answer_all] in Ha.
    apply Forall_cons in Hread as [Hone Hread].
    apply bind_Return in Ha as (s1 & a & Ha & (s2 & rest & Hrest & [= <- <-])%bind_Return).
    apply Forall2_cons_inv_l in Hb as (b & bytes' & Hbytes & Hbytes' & ->). cbn [app concat]. rewrite <- app_assoc.
    erewrite serve_one; [|done..]. rewrite Hbytes, Hw, (IH requests Hts frames' _ _ rest bytes') by done.
    by rewrite <- app_assoc.
Qed.

(** C20. A client that sends the frames of requests the generated code can read gets exactly the frames of the answers to
    them, in the same order, and the sessions go through exactly these requests, however
    long nothing arrives in between. What follows them is looked at only then: the end of
    the stream ends the connection silently, and bytes that are no frame of the protocol,
    or only the beginning of one that is not continued in time, are answered with an error
    of the frame and end it, nothing behind them being read or handled. *)
Theorem answers_in_order requests rounds frames replies bytes tail (r : Round) more sent0 s s' e :
  arrivals rounds requests.*1 → arrivals [r] [round_time r] →
  readable requests.*2 → written requests.*2 frames → answer_all requests s = (s', Return replies) → written replies bytes →
  read_envelope tail = Err e →
  ∃ last, serve_connection display_io display_codec answer true (rounds ++ r :: more)
      ({| unread := concat frames ++ tail; sent := sent0 |}, s)
    = (({| unread := tail; sent := sent0 ++ concat bytes ++ last |}, s'), Return ()) ∧
    if unexpected_eof (stalled r) e then last = []
    else ∀ frame, write_envelope (error_reply e) = Ok frame → last = frame.
Proof.
  intros Hrounds Hlast Hr Hf Ha Hb Htail. unfold serve_connection.
  rewrite (serve_all requests _ _ _ _ _ _ s' replies bytes) by done.
  assert (Hready : wait_for_readable (polls r) = Some (Ok true) ∧ writable r = true).
  { inversion Hlast as [|? ? ? ? Hnil|]; subst; [inversion Hnil|done]. }
  destruct Hready as [Hready Hw]. cbn [serve_rounds]. rewrite Hready. unfold mbind, action_bind, gets. cbn [fst unread].
  rewrite Htail. destruct (unexpected_eof (stalled r) e); [exists []; by rewrite app_nil_r|].
  unfold send. rewrite Hw. destruct (write_envelope _) as [frame|]; [exists frame|exists []; by rewrite app_nil_r].
  split; [by rewrite app_assoc|by intros ? [= <-]].
Qed.
End connection.

(** ** The reservation *)

(** From a state of [P] the action does not panic, and [Q] holds of its result and the
    state after it. *)
Definition ends {S E A} (P : S → Prop) (m : action S E A) (Q : result E A → S → Prop) : Prop :=
  ∀ s, P s → match m s with
             | (s', Return a) => Q (Ok a) s'
             | (s', Raise e) => Q (Err e) s'
             | (_, Panic) => False
             end.
#[local] Notation keeps I m := (ends I%function m (λ _, I%function)).

Section ends.
Context {S : Type}.
Implicit Types P : S → Prop.

Lemma ends_ret {E A} P (a : A) (Q : result E A → S → Prop) : (∀ s, P s → Q (Ok a) s) → ends P (mret a) Q.
Proof. intros HQ s Hs. by apply HQ. Qed.
Lemma ends_raise {E A} P (e : E) (Q : result E A → S → Prop) : (∀ s, P s → Q (Err e) s) → ends P (raise e) Q.
Proof. intros HQ s Hs. by apply HQ. Qed.
Lemma ends_bind {E A B} P (m : action S E A) (f : A → action S E B) M Q :
  ends P m M → (∀ a, ends (M (Ok a)) (f a) Q) → (∀ e s, M (Err e) s → Q (Err e) s) → ends P (m ≫= f) Q.
Proof.
  intros Hm Hf He s Hs. specialize (Hm s Hs). unfold mbind, action_bind. destruct (m s) as [s' [a|e|]]; [|by apply He|done].
  by apply Hf.
Qed.
Lemma ends_attempt {E E' A} P (m : action S E A) (Q : result E' (result E A) → S → Prop) :
  ends P m (λ r, Q (Ok r)) → ends P (attempt m) Q.
Proof. intros Hm s Hs. specialize (Hm s Hs). unfold attempt. by destruct (m s) as [s' [a|e|]]. Qed.
Lemma ends_map_error {E E' A} P (f : E → E') (m : action S E A) (Q : result E' A → S → Prop) :
  ends P m (λ r, Q (match r with Ok a => Ok a | Err e => Err (f e) end)) → ends P (map_error f m) Q.
Proof. intros Hm s Hs. specialize (Hm s Hs). unfold map_error. by destruct (m s) as [s' [a|e|]]. Qed.
Lemma ends_mono {E A} P (m : action S E A) (Q Q' : result E A → S → Prop) :
  ends P m Q' → (∀ r s, Q' r s → Q r s) → ends P m Q.
Proof. intros Hm HQ s Hs. specialize (Hm s Hs). destruct (m s) as [s' [a|e|]]; auto. Qed.
Lemma ends_pre {E A} P P' (m : action S E A) Q : ends P' m Q → (∀ s, P s → P' s) → ends P m Q.
Proof. intros Hm HP s Hs. by apply Hm, HP. Qed.
Lemma ends_pure {E A} P (φ : Prop) (m : action S E A) Q : (φ → ends P m Q) → ends (λ s, P s ∧ φ) m Q.
Proof. intros Hm s [Hs Hφ]. by apply Hm. Qed.
Lemma ends_gets {E A} P (f : S → A) (Q : result E A → S → Prop) : (∀ s, P s → Q (Ok (f s)) s) → ends P (gets f) Q.
Proof. intros HQ s Hs. by apply HQ. Qed.
End ends.

Section reservation.
Context {Sys : Type} `{Unix Sys} (I : Sys → Prop).

(** [I] is not touched by the calls that remove nothing. *)
Record untouched : Prop := {
  keeps_symlink_metadata p : keeps I (symlink_metadata p);
  keeps_create_directory mode p : keeps I (create_directory mode p);
  keeps_open_directory p : keeps I (open_directory p);
  keeps_open_file mode p : keeps I (open_file mode p);
  keeps_handle_metadata h : keeps I (handle_metadata h);
  keeps_set_handle_permissions mode h : keeps I (set_handle_permissions mode h);
  keeps_flock h : keeps I (flock h);
  keeps_connect p : keeps I (connect p);
}.
Create HintDb system.
#[local] Hint Resolve keeps_symlink_metadata keeps_create_directory keeps_open_directory keeps_open_file
  keeps_handle_metadata keeps_set_handle_permissions keeps_flock keeps_connect : system.
Context (Huntouched : untouched).

(** An error in the preparation, before the lock is asked for *)
Definition not_prepared (e : ServerError) : Prop :=
  match e with RuntimeDirectory _ | UnsafeRuntimeDirectory | Lock _ => True | _ => False end.
#[local] Notation prepares m := (ends I m (λ r s, I s ∧ match r with Ok _ => True | Err e => not_prepared e end)).

Lemma prepares_call {A} (f : IoError → ServerError) (m : action Sys IoError A) :
  keeps I m → (∀ e, not_prepared (f e)) → prepares (or_error f m).
Proof. intros Hm Hf. apply ends_map_error. eapply ends_mono; [exact Hm|]. intros [a|e] s Hs; split; auto. Qed.
Lemma prepares_try {A} (m : action Sys IoError A) : keeps I m → prepares (try m).
Proof. intros Hm. apply ends_attempt. eapply ends_mono; [exact Hm|]. by intros r s Hs. Qed.
Lemma prepares_bind {A B} (m : action Sys ServerError A) (f : A → action Sys ServerError B) :
  prepares m → (∀ a, prepares (f a)) → prepares (m ≫= f).
Proof. intros Hm Hf. eapply ends_bind; [exact Hm| |done]. intros a s [Hs _]. by apply Hf. Qed.

Ltac prepare := repeat first
  [ apply prepares_bind; [|intros]
  | apply prepares_call; [eauto with system|done]
  | apply prepares_try; eauto with system
  | apply ends_ret; by intros
  | apply ends_raise; by intros
  | match goal with |- ends _ (match ?x with _ => _ end) _ => destruct x end ].

Lemma prepares_directory path uid : prepares (prepare_runtime_directory path uid).
Proof. unfold prepare_runtime_directory. prepare. Qed.
Lemma prepares_lock path uid : prepares (open_lock path uid).
Proof. unfold open_lock. prepare. Qed.

Lemma keeps_acquire lock path : keeps I (acquire_lock lock path).
Proof.
  unfold acquire_lock. eapply ends_bind with (M:=λ _, I); [|intros [[]|e]|done].
  - apply ends_attempt, keeps_flock, Huntouched.
  - by apply ends_ret.
  - destruct (decide _); [|by apply ends_raise].
    eapply ends_bind with (M:=λ _, I); [|by intros; apply ends_raise|done].
    apply ends_attempt, keeps_connect, Huntouched.
Qed.

(** The socket of the own user nobody answers at may be removed. *)
Definition may_remove (uid : N) (path : ustring) : Prop := ∀ s s1 m s2 e,
  I s → symlink_metadata path s = (s1, Return m) → file_type m = TypeSocket → owner m = uid →
  connect path s1 = (s2, Raise e) →
  match remove_file path s2 with (_, Panic) => False | (s3, _) => I s3 end.

Lemma keeps_stale uid path : may_remove uid path → keeps I (remove_stale_socket path uid).
Proof.
  intros Hremove s Hs. unfold remove_stale_socket, try, attempt, or_error, map_error, mbind, action_bind, raise.
  pose proof (keeps_symlink_metadata Huntouched path s Hs) as Hmeta.
  destruct (symlink_metadata path s) as [s1 [m|e|]] eqn:Hm; [|by destruct (decide _)|done].
  destruct (_ || _) eqn:Howned; [done|]. apply orb_false_iff in Howned as [Htype Howner].
  apply bool_decide_eq_false, dec_stable in Htype, Howner.
  pose proof (keeps_connect Huntouched path s1 Hmeta) as Hconn.
  destruct (connect path s1) as [s2 [[]|e|]] eqn:Hc; [done| |done].
  specialize (Hremove s s1 m s2 e Hs Hm Htype Howner Hc). by destruct (remove_file path s2) as [s3 [|e'|]].
Qed.

(** The reservation touches nothing that the calls do not touch, but that it removes a
    socket at the path of the daemon, when it is one of the own user at which nobody
    answers; it is for that path and user. *)
Theorem reserve_removes_stale (root relative : ustring) (uid : N) :
  (∀ s, I s → effective_uid s = uid) → may_remove uid (join root SOCKET) →
  ends I (reserve root relative) (λ r s, I s ∧
    match r with Ok r => relative = SOCKET ∧ socket_path r = join root SOCKET ∧ reserved_uid r = uid | Err _ => True end).
Proof.
  intros Huid Hremove. unfold reserve. destruct (decide _) as [|Hsocket]; [by apply ends_raise|].
  apply dec_stable in Hsocket as ->.
  eapply ends_bind with (M:=λ r s, I s ∧ r = Ok uid); [apply ends_gets; intros s Hs; by rewrite (Huid s Hs)| |by intros e s [? ?]].
  intros uid'. apply ends_pure. intros [= ->].
  eapply ends_bind; [apply prepares_directory| |]; cbn; [|by intros e s [? ?]].
  intros d. apply (ends_pre _ I); [|by intros s [? _]].
  eapply ends_bind; [apply prepares_lock| |]; cbn; [|by intros e s [? ?]].
  intros l. apply (ends_pre _ I); [|by intros s [? _]].
  eapply ends_bind; [apply keeps_acquire| |by intros]. intros [].
  eapply ends_bind; [by apply keeps_stale| |by intros]. intros []. by apply ends_ret.
Qed.

(** What a daemon does that finds the lock held; [Q] says how a connection ends. *)
Definition answered (c : result IoError ()) : ServerError :=
  match c with Ok _ => AlreadyRunning | Err _ => LockBusy end.

Context (Hheld : ∀ h, ends I (flock h) (λ r s, I s ∧ ∃ e, r = Err e ∧ kind e = KindWouldBlock)).

Lemma acquire_stops Q lock path :
  (∀ p, ends I (connect p) (λ r s, I s ∧ Q r)) →
  ends I (acquire_lock lock path) (λ r s, I s ∧ ∃ c, r = Err (answered c) ∧ Q c).
Proof.
  intros Hconnect. unfold acquire_lock.
  eapply ends_bind with (M:=λ r s, I s ∧ ∃ e, r = Ok (Err e) ∧ kind e = KindWouldBlock).
  - apply ends_attempt. eapply ends_mono; [apply Hheld|]. intros r s [Hs (e & -> & He)]. eauto.
  - intros r. apply ends_pure. intros (e & [= ->] & He). rewrite decide_True by done.
    apply (ends_bind I _ _ (λ r s, I s ∧ ∃ c, r = Ok c ∧ Q c)).
    + apply ends_attempt. eapply ends_mono; [apply Hconnect|]. intros c s' [Hs' Hc]. eauto.
    + intros c. apply ends_raise. intros s' [Hs' (c' & [= ->] & Hc)]. by eauto.
    + by intros e' s' [_ (c & [=] & _)].
  - by intros e s [_ (e' & [=] & _)].
Qed.

Lemma reserve_stops root Q :
  (∀ p, ends I (connect p) (λ r s, I s ∧ Q r)) →
  ends I (reserve root SOCKET) (λ r s, I s ∧ ∃ e, r = Err e ∧ (not_prepared e ∨ ∃ c, Q c ∧ e = answered c)).
Proof.
  intros Hconnect. unfold reserve. rewrite decide_False by auto.
  eapply ends_bind with (M:=λ r s, I s ∧ ∃ uid, r = Ok uid); [apply ends_gets; by eauto| |by intros e s [_ [uid [=]]]].
  intros uid. apply ends_pure. intros _.
  eapply ends_bind; [apply prepares_directory| |]; cbn; [|intros e s [? ?]; eauto 10].
  intros d. apply (ends_pre _ I); [|by intros s [? _]].
  eapply ends_bind; [apply prepares_lock| |]; cbn; [|intros e s [? ?]; eauto 10].
  intros l. apply (ends_pre _ I); [|by intros s [? _]].
  eapply ends_bind; [by apply (acquire_stops Q)| |].
  - by intros ? s [_ (c & [=] & _)].
  - intros e s [Hs (c & [= ->] & Hc)]. eauto 10.
Qed.

(** A daemon that starts while another one holds the lock touches nothing that the calls
    do not touch - no file is removed, above all not the socket of the other - and stops
    before it serves: quietly when the other answers. *)
Theorem second_daemon_leaves root :
  ends I (reserve root SOCKET) (λ r s, I s ∧ ∃ e, r = Err e ∧ (not_prepared e ∨ e = AlreadyRunning ∨ e = LockBusy)) ∧
  ((∀ p, ends I (connect p) (λ r s, I s ∧ r = Ok ())) →
   ends I (reserve root SOCKET) (λ r _, ∃ e, r = Err e ∧ (not_prepared e ∨ e = AlreadyRunning))).
Proof.
  pose proof (reserve_stops root) as Hstops.
  split.
  - eapply ends_mono.
    + apply (Hstops (λ _, True)). intros p. eapply ends_mono; [by apply keeps_connect|]. by intros.
    + intros r s [Hs (e & -> & [He|([] & _ & ->)])]; eauto 10.
  - intros Hanswers. eapply ends_mono; [apply (Hstops (λ r, r = Ok ()) Hanswers)|].
    intros r s [_ (e & -> & [He|(c & -> & ->)])]; eauto 10.
Qed.
End reservation.

(** ** The listener *)

Section listener.
Context (uid : N).

(** The clients of the user in turns, and those gone *)
Definition is_own (turn : Turn) : bool :=
  match accepted turn with Client (Ok peer) => bool_decide (peer = uid) | _ => false end.
Definition served_in (turns : list Turn) : nat := length (filter (λ turn, is_own turn = true) turns).
Definition gone_in (turns : list Turn) : nat := sum_list (gone <$> turns).

(** A client that goes was served before. *)
Definition sound (turns : list Turn) : Prop :=
  ∀ before turn after, turns = before ++ turn :: after → gone_in before + gone turn ≤ served_in before.

(** After [before], the turn in which nobody is there any more and nobody comes *)
Definition leaves (before : list Turn) (turn : Turn) : Prop :=
  accepted turn = NoClient ∧ 0 < served_in before ∧ served_in before = gone_in before + gone turn.

(** The error of a turn: a worker that panicked, a client whose user is unknown, or a
    listener that failed *)
Definition turn_error (turn : Turn) : option ServerError :=
  if existsb id (finished turn) then Some WorkerPanicked
  else match accepted turn with
       | Client (Err e) => Some e
       | AcceptError e => Some (Socket e)
       | _ => None
       end.

(** The end of the loop, at which the workers left are joined *)
Definition joined (left : list bool) (r : result ServerError ()) : Prop :=
  r = Ok () ∨ (true ∈ left ∧ r = Err WorkerPanicked).

Lemma served_snoc before turn : served_in (before ++ [turn]) = served_in before + (if is_own turn then 1 else 0).
Proof. unfold served_in. rewrite filter_app, length_app. cbn. by destruct (is_own turn). Qed.
Lemma gone_snoc before turn : gone_in (before ++ [turn]) = gone_in before + gone turn.
Proof. unfold gone_in. rewrite fmap_app. induction before; cbn in *; lia. Qed.

(** The state of the loop after turns *)
Definition counts (before : list Turn) (st : ServerLoop) : Prop :=
  gone_in before ≤ served_in before ∧ active_clients st = served_in before - gone_in before ∧
  accepted_client st = bool_decide (0 < served_in before).

Lemma turn_counts before st turn :
  counts before st → gone_in before + gone turn ≤ served_in before →
  match server_turn uid st turn with
  | Err e => turn_error turn = Some e
  | Ok (st', on) => turn_error turn = None ∧ counts (before ++ [turn]) st' ∧ (on = false ↔ leaves before turn)
  end.
Proof.
  intros (Hle & Hactive & Haccepted) Hgone. unfold server_turn, reap_workers, counts, turn_error, leaves.
  rewrite served_snoc, gone_snoc. unfold is_own. destruct (existsb id (finished turn)); [done|].
  destruct (accepted turn) as [[peer|e]| |e]; [|done| |done]; cbn.
  - destruct (decide (peer = uid)) as [Hpeer|Hpeer];
      [rewrite (bool_decide_eq_true_2 (peer = uid)) by done|rewrite (bool_decide_eq_false_2 (peer = uid)) by done]; cbn.
    + split_and!; try done; [lia|lia|by rewrite bool_decide_eq_true_2 by lia|by split; [|intros (? & _)]].
    + rewrite !Nat.add_0_r. split_and!; try done; [lia|by split; [|intros (? & _)]].
  - rewrite !Nat.add_0_r. split_and!; try done; [lia|].
    rewrite Haccepted, negb_false_iff, andb_true_iff, !bool_decide_eq_true. split; [|intros (_ & ? & ?); lia].
    intros [? ?]. split_and!; [done|done|lia].
Qed.

Lemma loop_leaves turns : ∀ before st,
  counts before st → sound (before ++ turns) →
  ∃ taken rest, turns = taken ++ rest ∧ Forall (λ turn, turn_error turn = None) taken ∧
    (∀ front turn back, taken = front ++ turn :: back → ¬ leaves (before ++ front) turn) ∧
    match rest with
    | [] => ∃ st', server_loop uid st turns = Ok st'
    | turn :: _ =>
        match turn_error turn with
        | Some e => server_loop uid st turns = Err e
        | None => leaves (before ++ taken) turn ∧ ∃ st', server_loop uid st turns = Ok st'
        end
    end.
Proof.
  induction turns as [|turn turns IH]; intros before st Hcounts Hsound.
  { exists [], []. split_and!; [done|done|by intros [|] ? ? [=]|by exists st]. }
  pose proof (turn_counts before st turn Hcounts (Hsound before turn turns eq_refl)) as Hturn.
  cbn [server_loop]. destruct (server_turn uid st turn) as [[st1 [|]]|e].
  - destruct Hturn as (Hquiet & Hcounts1 & Hleaves).
    destruct (IH (before ++ [turn]) st1 Hcounts1) as (taken & rest & -> & Hdone & Hstay & Hend);
      [by rewrite <- app_assoc|].
    assert (¬ leaves before turn) as Hnot by (intros Hl; by apply Hleaves in Hl).
    exists (turn :: taken), rest. split_and!; [done|by constructor| |].
    + intros [|turn' front] turn1 back; intros [= <- Hdone']; [by rewrite app_nil_r|].
      intros Hl. eapply (Hstay front turn1 back); [done|]. by rewrite <- app_assoc.
    + destruct rest as [|turn1 rest]; [done|]. by rewrite <- app_assoc in Hend.
  - destruct Hturn as (Hquiet & _ & Hleaves). exists [], (turn :: turns).
    split_and!; [done|done|by intros [|] ? ? [=]|]. rewrite Hquiet, app_nil_r. split; [by apply Hleaves|by exists st1].
  - exists [], (turn :: turns). split_and!; [done|done|by intros [|] ? ? [=]|]. by rewrite Hturn.
Qed.

(** C34. The server leaves when it is needed no more, and not before. Of the turns of its
    listener it takes those without an error, none of which is one in which a client of
    its own user has come, all of them are gone, and nobody connects. Then it is told to
    terminate; or comes the first turn with an error - a worker that panicked, a client
    whose user is unknown, a listener that failed -, and it ends with this error; or the
    first turn in which it is not needed, and it ends. Clients of other users count for
    nothing. It ends without an error unless one of the workers it then waits for panics.
    Every client that goes is one that came. *)
Theorem server_leaves_when_idle turns left :
  sound turns →
  ∃ taken rest, turns = taken ++ rest ∧ Forall (λ turn, turn_error turn = None) taken ∧
    (∀ before turn after, taken = before ++ turn :: after → ¬ leaves before turn) ∧
    match rest with
    | [] => joined left (server_run uid turns left)
    | turn :: _ =>
        match turn_error turn with
        | Some e => server_run uid turns left = Err e
        | None => leaves taken turn ∧ joined left (server_run uid turns left)
        end
    end.
Proof.
  intros Hsound. destruct (loop_leaves turns [] idle_server) as (taken & rest & -> & Hquiet & Hstay & Hend); [done..|].
  assert (Hjoined : ∀ st', server_loop uid idle_server (taken ++ rest) = Ok st' →
    joined left (server_run uid (taken ++ rest) left)).
  { intros st' Hloop. unfold server_run. rewrite Hloop. destruct (existsb id _) eqn:Hp; [right|by left].
    split; [|done]. apply existsb_exists in Hp as (p & Hin & Hp). destruct p; [|done].
    apply list_elem_of_In in Hin. by eapply subseteq_take. }
  exists taken, rest. split_and!; [done..|]. destruct rest as [|turn rest].
  - destruct Hend as [st' Hloop]. by eapply Hjoined.
  - destruct (turn_error turn) as [e|].
    + unfold server_run. by rewrite Hend.
    + destruct Hend as (Hleaves & st' & Hloop). split; [done|]. by eapply Hjoined.
Qed.
End listener.

(** ** At work *)

#[local] Existing Instance still_clock.

(** Two clients of the user and one of another; the listener leaves when both are gone. *)
Definition toy_turns : list Turn :=
  [{| gone := 0; finished := []; accepted := NoClient |};
   {| gone := 0; finished := []; accepted := Client (Ok 501%N) |};
   {| gone := 0; finished := []; accepted := Client (Ok 0%N) |};
   {| gone := 1; finished := [false]; accepted := Client (Ok 501%N) |};
   {| gone := 0; finished := []; accepted := NoClient |};
   {| gone := 1; finished := []; accepted := NoClient |};
   {| gone := 0; finished := [true]; accepted := NoClient |}].

Lemma toy_turns_sound : sound 501 toy_turns.
Proof.
  intros before turn after Hturns.
  assert (Hall : Forall (λ n, gone_in (take n toy_turns) + default 0 (gone <$> toy_turns !! n) ≤ served_in 501 (take n toy_turns))
    (seq 0 7)) by (repeat constructor; vm_compute; lia).
  assert (Hlen : length before < 7).
  { apply (f_equal length) in Hturns. rewrite length_app in Hturns. cbn in Hturns. lia. }
  rewrite Forall_forall in Hall. specialize (Hall (length before)). rewrite Hturns in Hall.
  rewrite take_app_length, list_lookup_middle in Hall by done. apply Hall, elem_of_seq. lia.
Qed.

Lemma server_leaves_when_idle_witness :
  server_run 501 toy_turns [false] = Ok () ∧
  ∃ before turn rest, toy_turns = before ++ turn :: rest ∧ leaves 501 before turn.
Proof.
  assert (Hrun : server_run 501 toy_turns [false] = Ok ()) by (vm_compute; reflexivity).
  split; [exact Hrun|].
  destruct (server_leaves_when_idle 501 toy_turns [false] toy_turns_sound)
    as (taken & [|turn rest] & Hturns & Hquiet & Hstay & Hend).
  - exfalso. rewrite app_nil_r in Hturns. subst taken. do 6 apply Forall_cons in Hquiet as [_ Hquiet].
    apply Forall_cons in Hquiet as [Hquiet _]. discriminate Hquiet.
  - exists taken, turn, rest. split; [exact Hturns|].
    destruct (turn_error turn); [rewrite Hrun in Hend; discriminate Hend|exact (proj1 Hend)].
Defined.
(** A code for the requests of one client: their numbers *)
#[local] Instance toy_codec : Codec := {|
  CodecError := unit; encode_wire e := [Wire.request_id e];
  decode_wire bytes := match bytes with
                       | [n] => match kaki_typed !! (N.to_nat n - 1) with Some e => Ok e | None => Err () end
                       | _ => Err ()
                       end;
|}.
#[local] Existing Instance scalar_clusters.
#[local] Existing Instance map_order.
#[local] Existing Instance toy_dictionary.
#[local] Existing Instance no_locales.
#[local] Existing Instance lowest.
#[local] Existing Instance review_libm.
#[local] Existing Instance reviewer.
#[local] Existing Instance no_tries.

Definition toy_engine (t : Moment) := handle (M:=()) (L:=()) id id toy_displays (toy_config true) t.
Definition toy_requests : list (Moment * Wire.Envelope) := (λ e, (toy_moment, e)) <$> kaki_typed.
Definition toy_frames : list (list byte) := [[1; 1]; [1; 2]; [1; 3]; [1; 4]; [1; 5]]%N.

(** A request is there at once, or after a poll that was interrupted, or after a time in
    which nothing arrived. *)
Definition asked : Round := {| polls := [PollReadable]; round_time := toy_moment; stalled := false; writable := true |}.
Definition interrupted : Round :=
  {| polls := [PollError {| kind := KindInterrupted; os_error := 4 |}; PollReadable]; round_time := toy_moment;
     stalled := false; writable := true |}.
Definition idle_round : Round := {| polls := [PollTimeout]; round_time := toy_moment; stalled := false; writable := true |}.
Definition toy_rounds : list Round := [asked; idle_round; interrupted; asked; asked; idle_round; idle_round; asked].

Definition not_protobuf : FrameError (@CodecError toy_codec) := InvalidProtobuf ().

(** Five requests, and bytes that are no frame *)
Lemma answers_in_order_witness :
  ∃ s' last, serve_connection (u "io") (λ _, u "codec") toy_engine true (toy_rounds ++ [asked])
      ({| unread := concat toy_frames ++ [2; 9; 9; 1; 1]%N; sent := [] |}, (∅, toy_shared None))
    = (({| unread := [2; 9; 9; 1; 1]%N; sent := [] ++ concat toy_frames ++ last |}, s'), Return ()) ∧ last = [1; 0]%N.
Proof.
  destruct (answer_all toy_engine toy_requests (∅, toy_shared None)) as [s' [replies|e|]] eqn:Hrun;
    [|destruct e|exfalso; vm_compute in Hrun; discriminate Hrun].
  assert (Hreplies : match (answer_all toy_engine toy_requests (∅, toy_shared None)).2 with
    | Return replies => (λ a, @write_envelope wire_protobuf a) <$> replies
    | _ => []
    end = Ok <$> toy_frames) by (vm_compute; reflexivity).
  rewrite Hrun in Hreplies. cbn [snd] in Hreplies.
  destruct (answers_in_order (u "io") (λ _, u "codec") toy_engine toy_requests toy_rounds toy_frames replies toy_frames
    [2; 9; 9; 1; 1]%N asked [] [] (∅, toy_shared None) s' not_protobuf) as (last & Hserve & Hlast).
  - repeat first [apply (arrivals_request asked)|apply (arrivals_request interrupted)
      |apply (arrivals_quiet idle_round)|apply arrivals_nil]; reflexivity.
  - apply (arrivals_request asked); [reflexivity..|constructor].
  - repeat constructor.
  - repeat constructor.
  - exact Hrun.
  - exact (written_all _ _ Hreplies).
  - reflexivity.
  - exists s', last. split; [exact Hserve|]. apply Hlast. vm_compute. reflexivity.
Defined.
